(* ===== verification/_CoqProject ===== *)
-Q . S2P
Prelude.v
GoStrings.v
GoCrypto.v
GoTime.v
Effects.v
Net.v
Url.v
Config.v
Secrets.v
Defaults.v
Validate.v
ValidateProofs.v
Username.v
Directory.v
AuditEvent.v
Storm.v
Replay.v
Metrics.v
Json.v
Hmac.v
HmacProofs.v
HttpApi.v
HttpTraces.v
HttpPool.v
HttpReplay.v
HttpExamples.v
LdapData.v
Ldap.v
LdapSpec.v
LdapProofs.v
LdapPaging.v
LdapRules.v
LdapGroups.v
LdapExamples.v
LdapPool.v
LdapPoolExamples.v
RelayState.v
Relay.v
RelayProofs.v
RelaySession.v
RelayExamples.v
RelayPool.v
RelayPoolExamples.v
JsonWrite.v
JsonUnique.v
RequestJson.v
MessageJson.v
AuditLog.v
Heartbeat.v
HeartbeatProofs.v
Instance.v
Update.v
UpdateProofs.v
Diagnostics.v
DiagnosticsProofs.v
App.v
Commands.v
AppProofs.v
AppExamples.v
Serving.v
ServeHttp.v
ServeLdap.v
ServeRelay.v
ServeExamples.v
ServeRelayExamples.v
