(* ===== verification/Prelude.v ===== *)
(** * Authrim Wordwarden: a verification library

    Wordwarden is the connector between Authrim, a hosted login service, and the
    directory of an organisation: Authrim asks it, over signed HTTP requests or
    through a relay connection that it opens itself, whether a user's password is
    right, and it finds out by binding to the directory over LDAP.  This library
    models the Go program under src/ and proves what makes it correct.

    ** The program and its parts

    A command (internal/app) loads and validates a configuration
    (internal/ports/config), resolves the secrets it refers to
    (internal/ports/secrets, internal/adapters/secrets) and builds one runtime for
    each tenant.  The HTTP gateway (internal/ports/httpapi) authenticates each
    request (internal/adapters/hmac), refuses replays and bursts, takes one of the
    connector's slots and asks the directory client (internal/adapters/ldap), which
    normalises the username first (internal/core/username).  The relay client
    (internal/adapters/relay) does the same for requests that come over its
    WebSocket.  Both write audit events (internal/core/audit) to one log
    (internal/adapters/auditlog), and each tenant may report its health with
    heartbeats.

    ** The files

    Go's standard library, as far as the source uses it: [GoStrings], [GoCrypto]
    (SHA-256 and HMAC, executable), [GoTime] (instants, 64-bit durations, RFC 3339),
    [Net], [Url] (as of Go 1.25.0), [Json] (decoding), [JsonWrite] and [JsonUnique] (encoding, and
    that it is unambiguous).  [RequestJson] and [MessageJson] apply them to the
    requests, the responses and the relay's messages.

    [Effects]: a program with shared state, clocks and I/O is a tree of atomic
    effects.  It has an interpreter ([run]), a weakest precondition ([wp]), the
    predicates over all its traces ([always]), two interleaving semantics of any
    number of programs, with an interpreter for the effects ([pool_step]) and with a
    relation of what they may answer ([crowd_step]), and the replacement of effects
    by programs ([inline]).

    Configuration: [Config] (the structs), [Defaults] (applyDefaults), [Validate]
    (every validator, in the order of its messages), [ValidateProofs] (what a valid
    configuration is, declaratively), [Secrets].

    The gateway: [Hmac] and [HmacProofs] (verifier.go), [Storm] (storm.go),
    [Replay] and [Metrics] (the cache and the counters of server.go), [HttpApi]
    (the handlers of server.go), [HttpTraces] (what one request does), [HttpPool]
    (requests in parallel), [HttpReplay] (runs with a history of who did what when,
    and copies of one request in them), [HttpExamples] (runs and witnesses).

    The directory: [Directory] (directory.go; its interface is the class
    [DirectoryClient], with the laws of [DirectoryContract]), [Username]
    (username.go), [LdapData] and [Ldap] (client.go), [LdapSpec] (what the client
    may do: ghost state of connections, binds and searches), [LdapProofs],
    [LdapPaging] (paged searches), [LdapRules] (timeouts, verdicts, filters),
    [LdapGroups] (the walk over groups against membership chains), [LdapPool]
    (requests in parallel over the pool of connections), [LdapExamples],
    [LdapPoolExamples].

    The relay: [RelayState] (its own counters and cache, equivalent to the
    gateway's), [Relay] (client.go), [RelayProofs] (requests, authentication,
    construction), [RelaySession] (the connection as a state machine),
    [RelayPool] (relayed requests in parallel), [RelayExamples],
    [RelayPoolExamples].

    The application: [AuditEvent] and [AuditLog], [Heartbeat] and
    [HeartbeatProofs] (heartbeat.go), [Instance] (instance.go), [Update] and
    [UpdateProofs] (the update check of command.go), [Diagnostics] and
    [DiagnosticsProofs] (the bundle and the doctor), [App], [AppProofs] and
    [AppExamples] (starting and the commands), [Commands] (what they print).

    The composition: [Serving] puts a directory client in the place of a handler's
    call on it, by the class [DirectoryClient] alone; [ServeHttp] does so for the
    gateway; [ServeLdap] shows that the LDAP clients keep the contract and composes
    loading, starting, the gateway and the client; [ServeRelay] does the same for
    the relay; [ServeExamples] and [ServeRelayExamples] run both.

    ** How the model corresponds to the code

    A Go function is a definition of the same name; a struct is a record whose
    fields carry a prefix; an error is a value of [result]; a method on a value
    behind a mutex is one atomic function of that value.  A handler is a program
    over the effects of its file ([HttpApi.effect], [Ldap.effect], [Relay.effect],
    ...), one for each clock reading, call on shared state, or call of something
    outside; guards and early returns are in the order of the source.  Go's [int],
    [int64] and [time.Duration] are [Z]: where the source multiplies, adds or
    subtracts durations the wrap-around or saturation is written out.  Strings are
    byte strings.

    ** What is shown

    - The whole way ([ServeLdap], [ServeRelay]): for a deployment started from a
      configuration that loads, a client that is told success sent a request signed
      with a secret of the tenant it names, and that tenant's directory accepted, in
      serving it, a bind with the submitted password as the user the normalised
      username resolves to; and so over the relay.
    - Authentication ([HmacProofs]): a request is accepted exactly when it is
      signed, fresh and complete, and a signature binds all it covers, short of a
      collision of the hash.
    - The gateway ([HttpTraces], [HttpPool], [HttpReplay]): success is answered only on the
      directory's word for the submitted credentials; one response and one audit
      event for each request; the password reaches nothing but the directory; under
      every interleaving slots bound the calls in flight, and of the copies of one
      signed request one at most reaches a directory, if none stalls for a minute
      between reading the clock and the cache.  [Storm] and [Replay] state the
      functional behaviour of the counters and the cache, overflow included.
    - The wire ([RequestJson], [MessageJson]): the gateway decodes what an encoder
      writes of a request, and its answers can be told apart by their bytes.
    - The directory client ([LdapProofs], [LdapPaging], [LdapRules]): success only
      after a bind accepted with the submitted password as the one user found;
      connections neither leaked nor pooled unsafely; released attributes within
      the limits; filters with the structure that was configured; searches that
      end, if the server makes progress; groups that are exactly the nested
      memberships at their shortest distance ([LdapGroups]); no connection used by
      two requests at once, in any interleaving ([LdapPool]).
    - The relay ([RelayProofs], [RelaySession], [RelayState]): the same for relayed
      requests; authentication, which answers exactly the challenges read that
      have the form asked for and have not expired; the connection follows its state machine, waits
      doubling up to their bound; in every interleaving of relayed requests slots
      bound the directory calls and request ids are not reused ([RelayPool]).
    - Configuration and start ([ValidateProofs], [AppProofs]): validation accepts
      exactly the valid configurations; from one that loads, [serve] starts exactly
      when its secrets resolve, with what the configuration says.
    - The rest of the application: the log says which events were written,
      a malformed byte of a text aside, which it shows as U+FFFD
      ([AuditLog]), fingerprints and heartbeat signatures say what they should
      ([HeartbeatProofs]), instance ids persist ([Instance]), reports of the update
      check come from trusted feeds ([UpdateProofs]), the diagnostics bundle leaks
      no secret and no address ([DiagnosticsProofs]).

    ** Bounds and fuel

    Loops over data are structural or take the length of the data as fuel, which
    the definitions show to be enough.  A loop that the outside can keep going (the
    relay's read loop and reconnections, heartbeats, paged searches, [serve]) takes
    a number of turns; used up, it performs an effect without an answer
    ([StillRunning], [StillPaging], [StillServing]), so no theorem takes it for an
    end, and [LdapPaging.paged_search_ends] shows the bound that is enough.

    ** Assumptions and what is not modelled

    Not under src/, and so parameters: Unicode normalisation and the tables for
    case outside ASCII ([UnicodeTables]), the LDAP library ([LdapLibrary] and the
    answers of the effects), Ed25519, the WebSocket library, YAML decoding, the
    decoding of relay messages and of the advisory feed.  Instances show that the
    assumptions about them can hold.  Left aside: cobra's wiring and help texts,
    loggers, cmd/wordwarden/main.go, the routing of net/http, the cancellation of a context in the middle
    of an effect other than by the effect's answer. *)

From Stdlib Require Export ZArith Lia Ascii.
From Stdlib Require String.
From stdpp Require Export sorting.
From stdpp Require Export base tactics numbers option list strings gmap pretty.

Open Scope list_scope.

(** The scope of the development's own notations. *)
Declare Scope ww_scope.
Delimit Scope ww_scope with ww.
Open Scope ww_scope.

Create HintDb ww.

(** ** Tactics *)

(** Split every conjunction of the goal and of the hypotheses. *)
Ltac split_all := destruct_and?; split_and?.

(** Case analysis on the innermost [match] or [if] of the goal, keeping the
    equation and closing what becomes absurd. *)
Ltac case_step := case_match; simplify_eq/=; try done.

(** Replay [case_step] as long as a match is left. *)
Ltac case_all := repeat case_step.

(** Turn boolean tests of the hypotheses and of the goal into propositions. *)
Ltac bool_to_prop :=
  repeat match goal with
  | H : (_ && _)%bool = true |- _ => apply andb_prop in H as [? ?]
  | H : (_ || _)%bool = false |- _ => apply orb_false_elim in H as [? ?]
  | H : negb _ = true |- _ => apply negb_true_iff in H
  | H : negb _ = false |- _ => apply negb_false_iff in H
  | H : (_ =? _)%string = true |- _ => apply String.eqb_eq in H
  | H : (_ =? _)%string = false |- _ => apply String.eqb_neq in H
  | H : (_ =? _)%Z = true |- _ => apply Z.eqb_eq in H
  | H : (_ =? _)%Z = false |- _ => apply Z.eqb_neq in H
  | H : (_ <? _)%Z = true |- _ => apply Z.ltb_lt in H
  | H : (_ <? _)%Z = false |- _ => apply Z.ltb_ge in H
  | H : (_ <=? _)%Z = true |- _ => apply Z.leb_le in H
  | H : (_ <=? _)%Z = false |- _ => apply Z.leb_gt in H
  | H : bool_decide _ = true |- _ => apply bool_decide_eq_true in H
  | H : bool_decide _ = false |- _ => apply bool_decide_eq_false in H
  end.

(** ** Results of fallible Go functions: a value or an error *)

Inductive result (E A : Type) : Type :=
| Ok (a : A)
| Err (e : E).
Arguments Ok {E A} a.
Arguments Err {E A} e.

Definition result_bind {E A B} (r : result E A) (f : A → result E B) : result E B :=
  match r with
  | Ok a => f a
  | Err e => Err e
  end.

(** [x ←? r ;; k] is Go's [x, err := r; if err != nil { return ..., err }; k]. *)
Notation "x '←?' r ';;' k" := (result_bind r (λ x, k))
  (at level 100, r at next level, k at level 200, right associativity) : ww_scope.

Definition is_ok {E A} (r : result E A) : bool :=
  match r with Ok _ => true | Err _ => false end.

Lemma result_bind_ok {E A B} (r : result E A) (f : A → result E B) b :
  result_bind r f = Ok b ↔ ∃ a, r = Ok a ∧ f a = Ok b.
Proof. destruct r; simpl; naive_solver. Qed.

Lemma result_bind_err {E A B} (r : result E A) (f : A → result E B) e :
  result_bind r f = Err e ↔ r = Err e ∨ ∃ a, r = Ok a ∧ f a = Err e.
Proof. destruct r; simpl; naive_solver. Qed.

(** [result_inv H] opens a successful chain of [←?] in [H]. *)
Ltac result_inv H :=
  repeat (apply result_bind_ok in H; destruct H as (? & ? & H)).

(** ** Lists *)

(** [len(l) == 0] *)
Definition empty_list {A} (l : list A) : bool :=
  match l with [] => true | _ => false end.

Lemma empty_list_spec {A} (l : list A) : empty_list l = true ↔ l = [].
Proof. by destruct l. Qed.

Section list_lemmas.
Context {A : Type}.
Implicit Types (l k : list A).

(** Two append decompositions with suffixes of the same length agree. *)
Lemma app_inj_suffix (l1 l2 k1 k2 : list A) :
  length k1 = length k2 → l1 ++ k1 = l2 ++ k2 → l1 = l2 ∧ k1 = k2.
Proof. intros Hlen Heq. by apply app_inj_2 in Heq. Qed.

Lemma list_last_elem_of x l d : List.last (x :: l) d ∈ x :: l.
Proof.
  revert x. induction l as [|y l IH]; intros x; [by left|]. right. apply IH.
Qed.

Lemma Forall_filter_iff (P Q : A → Prop) `{!∀ x, Decision (Q x)} l :
  Forall P l → Forall P (filter Q l).
Proof.
  rewrite !Forall_forall. intros HP x [_ Hx]%list_elem_of_filter. by apply HP.
Qed.
End list_lemmas.

Lemma fmap_mjoin_fmap {A B C} (f : B → C) (g : A → list B) (l : list A) :
  f <$> mjoin (g <$> l) = mjoin ((λ x, f <$> g x) <$> l).
Proof.
  induction l as [|x l IH]; [done|].
  change (f <$> (g x ++ mjoin (g <$> l)) = (f <$> g x) ++ mjoin ((λ x, f <$> g x) <$> l)).
  by rewrite fmap_app, IH.
Qed.

(** Where [f] tells apart what [g] does, equal images under [f] of lists are
    equal images under [g]. *)
Lemma fmap_determines {A B C} (f : A → B) (g : A → C) (ok : A → bool) (l k : list A) :
  (∀ x y, ok x = true → ok y = true → f x = f y → g x = g y) →
  forallb ok l = true → forallb ok k = true → f <$> l = f <$> k → g <$> l = g <$> k.
Proof.
  intros Hfg. revert k. induction l as [|x l IH]; intros [|y k]; try done.
  simpl. intros Hl Hk [= Hxy Hlk]. apply andb_prop in Hl as [Hx Hl]. apply andb_prop in Hk as [Hy Hk].
  f_equal; auto.
Qed.

Lemma Forall2_exists_r {A B} (P : A → B → Prop) (l : list A) :
  (∃ k, Forall2 P l k) ↔ Forall (λ a, ∃ b, P a b) l.
Proof.
  split.
  - intros [k Hk]. induction Hk; constructor; [by eexists|done].
  - induction 1 as [|a l [b Hb] _ [k Hk]]; eexists; by constructor.
Qed.

Lemma Forall2_iff_l {A B} (P Q : A → B → Prop) (l : list A) (k : list B) :
  (∀ a, a ∈ l → ∀ b, P a b ↔ Q a b) → Forall2 P l k ↔ Forall2 Q l k.
Proof.
  revert k. induction l as [|a l IH]; intros k Heq.
  - split; intros ->%Forall2_nil_inv_l; constructor.
  - split; intros (b & k' & Hb & Hk & ->)%Forall2_cons_inv_l;
      (constructor; [eapply Heq; [left|done]|eapply IH; [|done]; intros; apply Heq; by right]).
Qed.

Lemma list_filter_elem {A} (f : A → bool) (l : list A) x :
  x ∈ List.filter f l ↔ x ∈ l ∧ f x = true.
Proof. rewrite !list_elem_of_In. apply filter_In. Qed.

#[export] Hint Resolve Forall_filter_iff : ww.

(** ** Machine integers: Go's [int], [int64] and [time.Duration] are 64-bit
    two's complement; [uint64] counters wrap modulo 2^64. *)

Definition int64_min : Z := (-9223372036854775808)%Z.
Definition int64_max : Z := 9223372036854775807%Z.

Definition wrap64 (z : Z) : Z := ((z + 2 ^ 63) mod 2 ^ 64 - 2 ^ 63)%Z.
Definition wrapu64 (z : Z) : Z := (z mod 2 ^ 64)%Z.

Definition in_int64 (z : Z) : Prop := (int64_min ≤ z ≤ int64_max)%Z.

Lemma wrap64_id z : in_int64 z → wrap64 z = z.
Proof.
  unfold in_int64, int64_min, int64_max, wrap64. intros.
  rewrite Z.mod_small; lia.
Qed.

Lemma wrap64_range z : in_int64 (wrap64 z).
Proof.
  unfold in_int64, int64_min, int64_max, wrap64.
  pose proof (Z.mod_pos_bound (z + 2 ^ 63) (2 ^ 64)). lia.
Qed.

Lemma wrapu64_range z : (0 ≤ wrapu64 z < 2 ^ 64)%Z.
Proof. unfold wrapu64. apply Z.mod_pos_bound. lia. Qed.

(** ** Counting what threads hold

    How many of [hs] hold a slot of [c]. *)
Local Open Scope Z_scope.

Definition holds (c : string) (held : option string) : Z :=
  if decide (held = Some c) then 1 else 0.
Definition holders (c : string) (hs : list (option string)) : Z :=
  foldr (λ held n, holds c held + n) 0 hs.

Lemma holders_app c hs held : holders c (hs ++ [held]) = holders c hs + holds c held.
Proof. induction hs as [|x hs IH]; simpl; lia. Qed.

Lemma holders_insert c hs i old new :
  hs !! i = Some old →
  holders c (<[i := new]> hs) = holders c hs - holds c old + holds c new.
Proof.
  revert i. induction hs as [|x hs IH]; intros [|i] Hi; simplify_eq/=; [lia|].
  rewrite (IH i) by done. lia.
Qed.

Lemma holders_nonneg c hs : 0 <= holders c hs.
Proof. induction hs as [|x hs IH]; simpl; [lia|]. unfold holds at 1. case_decide; lia. Qed.

Lemma holds_none c : holds c None = 0.
Proof. unfold holds. by rewrite decide_False. Qed.
Lemma holds_same c : holds c (Some c) = 1.
Proof. unfold holds. by rewrite decide_True. Qed.
Lemma holds_other c c' : c ≠ c' → holds c (Some c') = 0.
Proof. intros. unfold holds. rewrite decide_False; congruence. Qed.

Lemma holds_le_holders c hs i held : hs !! i = Some held → holds c held <= holders c hs.
Proof.
  intros Hi. pose proof (holders_insert c hs i held None Hi) as Heq.
  pose proof (holders_nonneg c (<[i := None]> hs)). unfold holds in Heq at 2.
  simpl in Heq. lia.
Qed.

(** ** Sorted lists *)

Lemma StronglySorted_fmap_elem {A B} (R : B → B → Prop) (f : A → B) l x y :
  StronglySorted R (f <$> l) → x ∈ l → y ∈ l → x ≠ y → R (f x) (f y) ∨ R (f y) (f x).
Proof.
  intros Hs Hx Hy Hne. induction l as [|z l IH]; [by apply not_elem_of_nil in Hx|].
  rewrite fmap_cons in Hs. apply StronglySorted_inv in Hs as [Hs Hall]. rewrite Forall_fmap, Forall_forall in Hall.
  apply elem_of_cons in Hx as [->|Hx], Hy as [->|Hy]; [done|left; by apply Hall|right; by apply Hall|by apply IH].
Qed.
