(* ===== verification/GoStrings.v ===== *)
(** * The parts of Go's string packages the connector uses

    Go strings are byte sequences; here they are Rocq [string]s, one [ascii] per
    byte.  The file models what the source calls of packages [strings], [sort],
    [encoding/hex], [net/url] (query escaping) and [net/textproto] (header
    keys).  Case mapping and case folding outside ASCII need the Unicode tables
    that are generated into Go's library; they are the two operations of the
    class [UnicodeTables], used only where Go leaves its ASCII fast path. *)

From S2P Require Import Prelude.

(** ** Bytes *)

Definition byte_code (c : ascii) : N := N_of_ascii c.
Definition in_range (lo hi : N) (c : ascii) : bool :=
  (lo <=? byte_code c)%N && (byte_code c <=? hi)%N.

Definition is_ascii_byte (c : ascii) : bool := (byte_code c <? 128)%N.
Definition is_upper (c : ascii) : bool := in_range 65 90 c.
Definition is_lower (c : ascii) : bool := in_range 97 122 c.
Definition is_digit (c : ascii) : bool := in_range 48 57 c.
Definition is_alnum (c : ascii) : bool := is_upper c || is_lower c || is_digit c.

Definition lower_byte (c : ascii) : ascii :=
  if is_upper c then ascii_of_N (byte_code c + 32) else c.
Definition upper_byte (c : ascii) : ascii :=
  if is_lower c then ascii_of_N (byte_code c - 32) else c.

Definition LF : ascii := "010"%char.
Definition CR : ascii := "013"%char.
Definition NUL : ascii := "000"%char.
Definition backslash : ascii := "092"%char.
Definition double_quote : ascii := "034"%char.
Definition newline : string := String LF EmptyString.

(** ** Whole strings *)

(** every byte satisfies [P] *)
Fixpoint string_all (P : ascii → bool) (s : string) : bool :=
  match s with
  | EmptyString => true
  | String c s => P c && string_all P s
  end.

Fixpoint string_map (f : ascii → ascii) (s : string) : string :=
  match s with
  | EmptyString => EmptyString
  | String c s => String (f c) (string_map f s)
  end.

Definition is_ascii (s : string) : bool := string_all is_ascii_byte s.

(** byte [c] does not occur in [s] *)
Definition lacks (c : ascii) (s : string) : bool := string_all (λ d, negb (Ascii.eqb c d)) s.

(** [strings.Contains] for a one-byte needle, and [strings.ContainsAny]
    for a set of ASCII bytes. *)
Definition contains_byte (c : ascii) (s : string) : bool := negb (lacks c s).
Definition contains_any (cs : list ascii) (s : string) : bool :=
  existsb (λ c, contains_byte c s) cs.

(** [strings.Cut] at a one-byte separator. *)
Fixpoint cut_byte (c : ascii) (s : string) : option (string * string) :=
  match s with
  | EmptyString => None
  | String d s =>
      if Ascii.eqb c d then Some (EmptyString, s)
      else match cut_byte c s with
           | Some (a, b) => Some (String d a, b)
           | None => None
           end
  end.

(** [strings.Split] at a one-byte separator: never empty. *)
Fixpoint split_byte (c : ascii) (s : string) : list string :=
  match s with
  | EmptyString => [EmptyString]
  | String d s =>
      if Ascii.eqb c d then EmptyString :: split_byte c s
      else match split_byte c s with
           | h :: t => String d h :: t
           | [] => [String d EmptyString]
           end
  end.

(** [strings.Join] *)
Definition join (sep : string) (l : list string) : string := String.concat sep l.

Definition has_prefix (s pre : string) : bool := String.prefix pre s.

Fixpoint drop_bytes (n : nat) (s : string) : string :=
  match n, s with
  | S n, String _ s => drop_bytes n s
  | _, _ => s
  end.

Definition trim_prefix (s pre : string) : string :=
  if has_prefix s pre then drop_bytes (String.length pre) s else s.

(** ** White space

    [strings.TrimSpace] and [strings.Fields] test [unicode.IsSpace] rune by
    rune.  A white-space rune has exactly one valid UTF-8 encoding, of one, two
    or three bytes; no other rune's encoding contains one of them, and a
    malformed byte is never white space, so scanning for the encodings finds
    the same runes. *)

Definition space1 (c : ascii) : bool :=
  in_range 9 13 c || (byte_code c =? 32)%N.
(** U+0085, U+00A0 *)
Definition space2 (a b : ascii) : bool :=
  (byte_code a =? 194)%N && ((byte_code b =? 133)%N || (byte_code b =? 160)%N).
(** U+1680, U+2000-200A, U+2028, U+2029, U+202F, U+205F, U+3000 *)
Definition space3 (a b c : ascii) : bool :=
  ((byte_code a =? 225)%N && (byte_code b =? 154)%N && (byte_code c =? 128)%N) ||
  ((byte_code a =? 226)%N && (byte_code b =? 128)%N &&
     (in_range 128 138 c || in_range 168 169 c || (byte_code c =? 175)%N)) ||
  ((byte_code a =? 226)%N && (byte_code b =? 129)%N && (byte_code c =? 159)%N) ||
  ((byte_code a =? 227)%N && (byte_code b =? 128)%N && (byte_code c =? 128)%N).

(** The number of bytes of the white-space rune [s] starts with, 0 if none. *)
Definition space_prefix (s : string) : nat :=
  match s with
  | EmptyString => 0
  | String a s1 =>
      if space1 a then 1 else
      match s1 with
      | EmptyString => 0
      | String b s2 =>
          if space2 a b then 2 else
          match s2 with
          | EmptyString => 0
          | String c _ => if space3 a b c then 3 else 0
          end
      end
  end.

(** [strings.TrimLeftFunc(s, unicode.IsSpace)] *)
Fixpoint trim_left_fuel (fuel : nat) (s : string) : string :=
  match fuel, space_prefix s with
  | S fuel, S n => trim_left_fuel fuel (drop_bytes (S n) s)
  | _, _ => s
  end.
Definition trim_left (s : string) : string := trim_left_fuel (String.length s) s.

(** [strings.TrimRightFunc(s, unicode.IsSpace)]: the shortest prefix of [s]
    whose rest is all white space. *)
Fixpoint all_space_fuel (fuel : nat) (s : string) : bool :=
  match s with
  | EmptyString => true
  | String _ _ =>
      match fuel, space_prefix s with
      | S fuel, S n => all_space_fuel fuel (drop_bytes (S n) s)
      | _, _ => false
      end
  end.
Definition all_space (s : string) : bool := all_space_fuel (String.length s) s.

Fixpoint trim_right (s : string) : string :=
  if all_space s then EmptyString
  else match s with
       | EmptyString => EmptyString
       | String c s => String c (trim_right s)
       end.

Definition trim_space (s : string) : string := trim_right (trim_left s).

(** [strings.Fields]: the maximal runs of bytes outside white space.  [cur] is
    the field read so far, newest byte first. *)
Fixpoint fields_fuel (fuel : nat) (cur : list ascii) (s : string) : list string :=
  let flush := match cur with
               | [] => []
               | _ => [String.string_of_list_ascii (rev cur)]
               end in
  match fuel, s with
  | S fuel, String c s' =>
      match space_prefix s with
      | 0 => fields_fuel fuel (c :: cur) s'
      | S n => flush ++ fields_fuel fuel [] (drop_bytes (S n) s)
      end
  | _, _ => flush
  end.
Definition fields (s : string) : list string := fields_fuel (String.length s) [] s.

(** ** Case *)

(** ASCII bytes that are not letters: no case mapping produces or removes them. *)
Definition ascii_caseless (c : ascii) : bool :=
  is_ascii_byte c && negb (is_upper c) && negb (is_lower c).

Class UnicodeTables := {
  (** [strings.Map(unicode.ToLower, s)] for a string with a non-ASCII byte *)
  unicode_map_lower : string → string;
  (** the rune-wise part of [strings.EqualFold] *)
  unicode_equal_fold : string → string → bool;
  (** [strconv.Quote] of a string with a non-ASCII byte *)
  unicode_quote : string → string;
  (** a rune's lower case is itself, another letter, or U+FFFD for a malformed
      byte, so a caseless ASCII byte of the result was in the argument *)
  unicode_map_lower_caseless : ∀ c s,
    ascii_caseless c = true → lacks c s = true → lacks c (unicode_map_lower s) = true;
}.

(** Tables that change nothing outside ASCII, for evaluation. *)
Program Definition ascii_only_tables : UnicodeTables := {|
  unicode_map_lower := id;
  unicode_equal_fold := String.eqb;
  unicode_quote := id;
|}.
Next Obligation. done. Qed.

(** [strings.ToLower]: byte-wise on ASCII strings, the tables otherwise. *)
Definition to_lower `{UnicodeTables} (s : string) : string :=
  if is_ascii s then string_map lower_byte s else unicode_map_lower s.

(** [strings.EqualFold] *)
Definition equal_fold `{UnicodeTables} (s t : string) : bool :=
  if is_ascii s && is_ascii t
  then (string_map lower_byte s =? string_map lower_byte t)%string
  else unicode_equal_fold s t.

(** [sort.Strings]: ascending byte order. *)
Definition sort_strings (l : list string) : list string := merge_sort String.le l.

(** ** Encodings *)

Definition hex_digit (n : N) : ascii :=
  if (n <? 10)%N then ascii_of_N (48 + n) else ascii_of_N (87 + n).
Definition upper_hex_digit (n : N) : ascii :=
  if (n <? 10)%N then ascii_of_N (48 + n) else ascii_of_N (55 + n).

(** [hex.EncodeToString] *)
Fixpoint hex_encode (s : string) : string :=
  match s with
  | EmptyString => EmptyString
  | String c s =>
      String (hex_digit (byte_code c / 16))
        (String (hex_digit (byte_code c mod 16)) (hex_encode s))
  end.

(** [base64.RawURLEncoding.EncodeToString] *)
Definition base64_digit (n : N) : ascii :=
  if (n <? 26)%N then ascii_of_N (65 + n)
  else if (n <? 52)%N then ascii_of_N (71 + n)
  else if (n <? 62)%N then ascii_of_N (n - 4)
  else if (n =? 62)%N then "-"%char else "_"%char.

Fixpoint base64_raw_url (s : string) : string :=
  match s with
  | EmptyString => EmptyString
  | String a EmptyString =>
      let a := byte_code a in
      String (base64_digit (a / 4)) (String (base64_digit ((a mod 4) * 16)) EmptyString)
  | String a (String b EmptyString) =>
      let a := byte_code a in let b := byte_code b in
      String (base64_digit (a / 4)) (String (base64_digit ((a mod 4) * 16 + b / 16))
        (String (base64_digit ((b mod 16) * 4)) EmptyString))
  | String a (String b (String c rest)) =>
      let a := byte_code a in let b := byte_code b in let c := byte_code c in
      String (base64_digit (a / 4)) (String (base64_digit ((a mod 4) * 16 + b / 16))
        (String (base64_digit ((b mod 16) * 4 + c / 64)) (String (base64_digit (c mod 64))
          (base64_raw_url rest))))
  end%N.

Example base64_example :
  base64_raw_url <$> ["hello"; "a"; "??>"; ""] = ["aGVsbG8"; "YQ"; "Pz8-"; ""].
Proof. vm_compute. reflexivity. Qed.

(** The escape of an ASCII byte in [strconv.Quote]. *)
Definition quote_byte (c : ascii) : string :=
  let esc (d : ascii) := String backslash (String d EmptyString) in
  if Ascii.eqb c double_quote || Ascii.eqb c backslash then esc c
  else match byte_code c with
       | 7 => esc "a" | 8 => esc "b" | 12 => esc "f" | 10 => esc "n" | 13 => esc "r"
       | 9 => esc "t" | 11 => esc "v"
       | n =>
           if (n <? 32) || (n =? 127)
           then String backslash (String "x" (String (hex_digit (n / 16))
                  (String (hex_digit (n mod 16)) EmptyString)))
           else String c EmptyString
       end%N%char.

Fixpoint quote_bytes (s : string) : string :=
  match s with
  | EmptyString => EmptyString
  | String c s => quote_byte c +:+ quote_bytes s
  end.

(** [strconv.Quote], [%q] of a string *)
Definition go_quote `{UnicodeTables} (s : string) : string :=
  if is_ascii s
  then String double_quote (quote_bytes s +:+ String double_quote EmptyString)
  else unicode_quote s.

(** the bytes [url.QueryEscape] leaves as they are *)
Definition query_unreserved (c : ascii) : bool :=
  is_alnum c || existsb (Ascii.eqb c) ["-"; "_"; "."; "~"]%char.

(** [url.QueryEscape] *)
Fixpoint query_escape (s : string) : string :=
  match s with
  | EmptyString => EmptyString
  | String c s =>
      if query_unreserved c then String c (query_escape s)
      else if Ascii.eqb c " "%char then String "+"%char (query_escape s)
      else String "%"%char
             (String (upper_hex_digit (byte_code c / 16))
               (String (upper_hex_digit (byte_code c mod 16)) (query_escape s)))
  end.

(** ** Header keys: [textproto.CanonicalMIMEHeaderKey] *)

Definition valid_header_byte (c : ascii) : bool :=
  is_alnum c || existsb (Ascii.eqb c)
    ["!"; "#"; "$"; "%"; "&"; "'"; "*"; "+"; "-"; "."; "^"; "_"; "`"; "|"; "~"]%char.

Fixpoint canonical_key_from (upper : bool) (s : string) : string :=
  match s with
  | EmptyString => EmptyString
  | String c s =>
      let c' := if upper then upper_byte c else lower_byte c in
      String c' (canonical_key_from (Ascii.eqb c "-"%char) s)
  end.
Definition canonical_header_key (s : string) : string :=
  if string_all valid_header_byte s then canonical_key_from true s else s.

(** ** Lemmas *)

Lemma append_nil s : EmptyString +:+ s = s.
Proof. done. Qed.

Lemma append_assoc s t u : (s +:+ t) +:+ u = s +:+ (t +:+ u).
Proof.
  induction s as [|c s IH]; [done|].
  change (String c s +:+ t) with (String c (s +:+ t)).
  change (String c (s +:+ t) +:+ u) with (String c ((s +:+ t) +:+ u)). by rewrite IH.
Qed.

Lemma append_cons c s t : String c s +:+ t = String c (s +:+ t).
Proof. done. Qed.

Lemma string_all_app P s t :
  string_all P (s +:+ t) = string_all P s && string_all P t.
Proof.
  induction s as [|c s IH]; [done|].
  rewrite append_cons. simpl. by rewrite IH, andb_assoc.
Qed.

Lemma string_all_impl (P Q : ascii → bool) s :
  (∀ c, P c = true → Q c = true) → string_all P s = true → string_all Q s = true.
Proof.
  intros HPQ. induction s as [|c s IH]; simpl; [done|].
  intros [? ?]%andb_prop. rewrite HPQ, IH; done.
Qed.

Lemma string_all_map P f s :
  string_all P (string_map f s) = string_all (λ c, P (f c)) s.
Proof. induction s as [|c s IH]; simpl; congruence. Qed.

Lemma lacks_app c s t : lacks c (s +:+ t) = lacks c s && lacks c t.
Proof. apply string_all_app. Qed.

Lemma lacks_cons c d s : lacks c (String d s) = negb (Ascii.eqb c d) && lacks c s.
Proof. done. Qed.

(** Bytes satisfying [P] are not [c], so [c] does not occur. *)
Lemma string_all_lacks P c s :
  P c = false → string_all P s = true → lacks c s = true.
Proof.
  intros Hc. apply string_all_impl. intros d Hd.
  destruct (Ascii.eqb_spec c d); [congruence|done].
Qed.

Lemma split_byte_cons c s : ∃ h t, split_byte c s = h :: t.
Proof.
  destruct s as [|d s]; simpl; [eauto|].
  case_match; [eauto|]. case_match; eauto.
Qed.

Lemma split_byte_lacks c s : lacks c s = true → split_byte c s = [s].
Proof.
  induction s as [|d s IH]; simpl; [done|].
  intros [Hd Hs]%andb_prop. apply negb_true_iff in Hd.
  unfold lacks in IH. by rewrite Hd, IH.
Qed.

Lemma split_byte_app c s t :
  lacks c s = true → split_byte c (s +:+ String c t) = s :: split_byte c t.
Proof.
  induction s as [|d s IH]; intros Hs.
  - rewrite append_nil. simpl. by rewrite Ascii.eqb_refl.
  - rewrite lacks_cons in Hs. bool_to_prop.
    rewrite append_cons. simpl. by rewrite IH, H by done.
Qed.

(** A separator absent from both heads cuts equal strings at the same place. *)
Lemma append_sep_inj c s t s' t' :
  lacks c s = true → lacks c s' = true →
  s +:+ String c t = s' +:+ String c t' → s = s' ∧ t = t'.
Proof.
  revert s. induction s' as [|d s' IH]; intros [|e s] Hs Hs' Heq;
    rewrite ?append_cons, ?append_nil, ?lacks_cons in *; bool_to_prop; simplify_eq.
  - done.
  - by rewrite Ascii.eqb_refl in *.
  - by rewrite Ascii.eqb_refl in *.
  - by destruct (IH s) as [-> ->].
Qed.

(** Splitting what was joined gives the parts back. *)
Lemma split_join c l :
  l ≠ [] → Forall (λ s, lacks c s = true) l →
  split_byte c (join (String c EmptyString) l) = l.
Proof.
  unfold join. intros Hne Hall.
  induction l as [|s [|t l] IH]; [done| |].
  - inv Hall. by apply split_byte_lacks.
  - inv Hall. change (String.concat (String c "") (s :: t :: l)) with
      (s +:+ String c (String.concat (String c "") (t :: l))).
    rewrite split_byte_app, IH; done.
Qed.

Lemma join_inj c l k :
  l ≠ [] → k ≠ [] →
  Forall (λ s, lacks c s = true) l → Forall (λ s, lacks c s = true) k →
  join (String c EmptyString) l = join (String c EmptyString) k → l = k.
Proof.
  intros. rewrite <-(split_join c l), <-(split_join c k); congruence.
Qed.

Lemma split_byte_all_lack c s : Forall (λ t, lacks c t = true) (split_byte c s).
Proof.
  induction s as [|d s IH]; simpl; [by repeat constructor|].
  case_match eqn:Hd; [by constructor|].
  destruct (split_byte c s) as [|h t]; inv IH; constructor; try done.
  all: rewrite lacks_cons, Hd; done.
Qed.

Lemma drop_bytes_all P n s : string_all P s = true → string_all P (drop_bytes n s) = true.
Proof.
  revert s. induction n as [|n IH]; intros [|c s]; simpl; try done.
  intros [_ ?]%andb_prop. auto.
Qed.

Lemma trim_left_all P s : string_all P s = true → string_all P (trim_left s) = true.
Proof.
  unfold trim_left. generalize (String.length s) as n. intros n. revert s.
  induction n as [|n IH]; intros s Hs; cbn [trim_left_fuel]; [done|].
  case_match; [done|]. by apply IH, drop_bytes_all.
Qed.

Lemma space_prefix_ascii c s :
  is_ascii_byte c = true → space1 c = false → space_prefix (String c s) = 0%nat.
Proof.
  unfold is_ascii_byte. intros Hc%N.ltb_lt Hs. cbn [space_prefix]. rewrite Hs.
  assert (∀ k, (128 <= k)%N → (byte_code c =? k)%N = false) as Hk
    by (intros k ?; apply N.eqb_neq; lia).
  destruct s as [|d s]; [done|]. unfold space2, space3. rewrite !Hk by lia. simpl.
  by destruct s.
Qed.

Lemma trim_right_all P s : string_all P s = true → string_all P (trim_right s) = true.
Proof.
  induction s as [|c s IH]; cbn [trim_right].
  - by case_match.
  - intros Hs. case_match; [done|]. simpl in *. bool_to_prop.
    by rewrite H0, IH.
Qed.

Lemma trim_space_all P s : string_all P s = true → string_all P (trim_space s) = true.
Proof. intros. by apply trim_right_all, trim_left_all. Qed.
#[export] Hint Resolve trim_space_all : ww.

Lemma lower_byte_caseless c d :
  ascii_caseless c = true → Ascii.eqb c (lower_byte d) = true → Ascii.eqb c d = true.
Proof.
  unfold lower_byte. intros Hc Hd%Ascii.eqb_eq. case_match eqn:Hup; [|by subst; apply Ascii.eqb_refl].
  exfalso. subst c. revert Hc Hup. destruct d as [[] [] [] [] [] [] [] []]; vm_compute; discriminate.
Qed.

Lemma to_lower_lacks `{UnicodeTables} c s :
  ascii_caseless c = true → lacks c s = true → lacks c (to_lower s) = true.
Proof.
  intros Hc Hs. unfold to_lower. case_match; [|by apply unicode_map_lower_caseless].
  unfold lacks. rewrite string_all_map. revert Hs. apply string_all_impl.
  intros d Hd. apply negb_true_iff. apply negb_true_iff in Hd.
  destruct (Ascii.eqb c (lower_byte d)) eqn:E; [|done].
  apply lower_byte_caseless in E; congruence.
Qed.

(** ** White space is gone from [fields] *)

Definition not_space1 (c : ascii) : bool := negb (space1 c).

Lemma string_all_of_list P l :
  string_all P (String.string_of_list_ascii l) = forallb P l.
Proof. induction l as [|c l IH]; simpl; congruence. Qed.

Lemma fields_fuel_no_space fuel cur s :
  forallb not_space1 cur = true →
  Forall (λ f, string_all not_space1 f = true) (fields_fuel fuel cur s).
Proof.
  assert (∀ cur, forallb not_space1 cur = true →
    Forall (λ f, string_all not_space1 f = true)
      match cur with [] => [] | _ => [String.string_of_list_ascii (rev cur)] end) as Hflush.
  { intros [|c l] Hl; [constructor|]. apply Forall_singleton.
    rewrite string_all_of_list, List.forallb_forall in *. intros x Hx. apply Hl.
    by apply List.in_rev. }
  revert cur s. induction fuel as [|fuel IH]; intros cur s Hcur; cbn [fields_fuel].
  { destruct s; by apply Hflush. }
  destruct s as [|c s]; [by apply Hflush|].
  destruct (space_prefix (String c s)) eqn:Hsp.
  - apply IH. simpl. rewrite Hcur, andb_true_r. unfold not_space1. simpl in Hsp.
    by destruct (space1 c).
  - apply Forall_app. split; [by apply Hflush|by apply IH].
Qed.

Lemma join_all P sep l :
  string_all P sep = true → Forall (λ s, string_all P s = true) l →
  string_all P (join sep l) = true.
Proof.
  unfold join. intros Hsep Hl. induction l as [|s [|t l] IH]; [done| |].
  - by inv Hl.
  - inv Hl. change (String.concat sep (s :: t :: l))
      with (s +:+ sep +:+ String.concat sep (t :: l)).
    by rewrite !string_all_app, IH, H1, Hsep.
Qed.

Lemma join_fields_lacks_lf s : lacks LF (join " " (fields s)) = true.
Proof.
  apply join_all; [done|].
  eapply Forall_impl; [apply fields_fuel_no_space; done|].
  intros f. apply string_all_impl. intros c. unfold not_space1.
  destruct (Ascii.eqb_spec LF c) as [<-|]; done.
Qed.
#[export] Hint Resolve join_fields_lacks_lf : ww.

(** ** Sorting *)

Lemma sort_strings_perm l : sort_strings l ≡ₚ l.
Proof. apply merge_sort_Permutation. Qed.

Lemma sort_strings_sorted l : Sorted String.le (sort_strings l).
Proof. apply (Sorted_merge_sort _). Qed.

(** Sorting forgets the order. *)
Lemma sort_strings_eq l k : l ≡ₚ k → sort_strings l = sort_strings k.
Proof.
  intros Hlk. apply (Sorted_unique String.le); try apply sort_strings_sorted.
  by rewrite !sort_strings_perm.
Qed.

Lemma elem_of_sort_strings x l : x ∈ sort_strings l ↔ x ∈ l.
Proof. by rewrite sort_strings_perm. Qed.

Lemma NoDup_sort_strings l : NoDup l → NoDup (sort_strings l).
Proof. by rewrite sort_strings_perm. Qed.

(** ** Joining joined parts *)

Lemma join_cons sep s l : l ≠ [] → join sep (s :: l) = s +:+ sep +:+ join sep l.
Proof. by destruct l. Qed.

(** A part that is itself a join with the same separator can be spliced in. *)
Lemma join_splice sep l m r :
  m ≠ [] → join sep (l ++ join sep m :: r) = join sep (l ++ m ++ r).
Proof.
  intros Hm. induction l as [|s l IH]; cbn [app].
  - induction m as [|x m IHm]; [done|]. destruct m as [|y m].
    + by destruct r.
    + destruct r as [|z r]; [by rewrite app_nil_r|].
      change ((x :: y :: m) ++ z :: r) with (x :: ((y :: m) ++ z :: r)).
      rewrite (join_cons sep x ((y :: m) ++ z :: r)), <-IHm by done.
      rewrite !(join_cons sep _ (z :: r)), (join_cons sep x (y :: m)) by done.
      by rewrite !append_assoc.
  - rewrite !(join_cons sep s), IH; [done|..].
    all: destruct l; [|done]; by destruct m.
Qed.

(** ** The encodings are injective *)

Lemma below_16 (P : N → bool) :
  forallb (λ k, P (N.of_nat k)) (seq 0 16) = true → ∀ n, (n < 16)%N → P n = true.
Proof.
  intros Hall n Hn. rewrite <-(N2Nat.id n). rewrite List.forallb_forall in Hall.
  apply Hall, List.in_seq. lia.
Qed.

Definition injective_below_16 (f : N → ascii) : bool :=
  forallb (λ i, forallb (λ j, implb (Ascii.eqb (f (N.of_nat i)) (f (N.of_nat j))) (i =? j)%nat)
    (seq 0 16)) (seq 0 16).

Lemma digit_inj f (n m : N) :
  injective_below_16 f = true → (n < 16)%N → (m < 16)%N → f n = f m → n = m.
Proof.
  intros Hf Hn Hm Hnm. unfold injective_below_16 in Hf.
  rewrite List.forallb_forall in Hf.
  assert (∀ k, (k < 16)%N → In (N.to_nat k) (seq 0 16)) as Hin
    by (intros; apply List.in_seq; lia).
  specialize (Hf _ (Hin n Hn)). rewrite List.forallb_forall in Hf.
  specialize (Hf _ (Hin m Hm)). rewrite !N2Nat.id, Hnm, Ascii.eqb_refl in Hf.
  apply Nat.eqb_eq in Hf. lia.
Qed.

Lemma byte_code_bound c : (byte_code c < 256)%N.
Proof. apply N_ascii_bounded. Qed.

(** A byte is determined by the two digits it is written with. *)
Lemma two_digits_inj f c d :
  injective_below_16 f = true →
  f (byte_code c / 16)%N = f (byte_code d / 16)%N →
  f (byte_code c mod 16)%N = f (byte_code d mod 16)%N → c = d.
Proof.
  intros Hf Hq Hr.
  pose proof (byte_code_bound c). pose proof (byte_code_bound d).
  apply digit_inj in Hq; [|done|apply N.Div0.div_lt_upper_bound; lia..].
  apply digit_inj in Hr; [|done|apply N.mod_lt; lia..].
  unfold byte_code in *. rewrite <-(ascii_N_embedding c), <-(ascii_N_embedding d).
  f_equal. rewrite (N.Div0.div_mod (N_of_ascii c) 16), (N.Div0.div_mod (N_of_ascii d) 16). lia.
Qed.

Lemma hex_encode_inj s t : hex_encode s = hex_encode t → s = t.
Proof.
  revert t. induction s as [|c s IH]; intros [|d t] Heq; simpl in *; simplify_eq; [done|].
  f_equal; [|by apply IH]. by apply (two_digits_inj hex_digit).
Qed.

Lemma query_escape_inj s t : query_escape s = query_escape t → s = t.
Proof.
  assert (∀ c d, query_unreserved c = true → query_unreserved d = false → c ≠ d) as Hne
    by congruence.
  revert t. induction s as [|c s IH]; intros [|d t]; cbn [query_escape]; intros Heq;
    repeat (case_match; simplify_eq); bool_to_prop; try done.
  all: try (f_equal; by auto).
  all: rewrite ?Ascii.eqb_eq in *; subst.
  all: try (f_equal; by auto).
  all: try by (exfalso; eapply Hne).
  f_equal; [|by apply IH]. by apply (two_digits_inj upper_hex_digit).
Qed.

(** The bytes [query_escape] writes. *)
Definition query_byte (c : ascii) : bool :=
  query_unreserved c || existsb (Ascii.eqb c) ["+"; "%"]%char.

Lemma query_escape_bytes s : string_all query_byte (query_escape s) = true.
Proof.
  induction s as [|c s IH]; cbn [query_escape]; [done|].
  case_match eqn:Hu; cbn [string_all].
  { by rewrite IH; unfold query_byte; rewrite Hu. }
  case_match; cbn [string_all]; rewrite IH, andb_true_r; [done|].
  pose proof (byte_code_bound c).
  rewrite !(below_16 (λ n, query_byte (upper_hex_digit n))); [done|by vm_compute| |by vm_compute|].
  - apply N.mod_lt. lia.
  - apply N.Div0.div_lt_upper_bound. lia.
Qed.

Lemma query_escape_lacks c s : query_byte c = false → lacks c (query_escape s) = true.
Proof. intros. by apply (string_all_lacks query_byte); [|apply query_escape_bytes]. Qed.
