(* ===== verification/GoCrypto.v ===== *)
(** * Packages [crypto/sha256] and [crypto/hmac]

    SHA-256 and HMAC-SHA256 on byte strings, executable, so that a witness can
    sign a request and have it verified.  No theorem of the development depends
    on what the hash computes, except through the shape of its output. *)

From S2P Require Import Prelude GoStrings.

Module Sha256.
Local Open Scope N_scope.

Definition mask32 : N := 4294967295.
Definition add32 (a b : N) : N := N.land (a + b) mask32.
Definition not32 (a : N) : N := N.lxor a mask32.
Definition rotr (x n : N) : N :=
  N.lor (N.shiftr x n) (N.land (N.shiftl x (32 - n)) mask32).

Definition round_constants : list N := [
   1116352408; 1899447441; 3049323471; 3921009573; 961987163; 1508970993;
   2453635748; 2870763221; 3624381080; 310598401; 607225278; 1426881987;
   1925078388; 2162078206; 2614888103; 3248222580; 3835390401; 4022224774;
   264347078; 604807628; 770255983; 1249150122; 1555081692; 1996064986;
   2554220882; 2821834349; 2952996808; 3210313671; 3336571891; 3584528711;
   113926993; 338241895; 666307205; 773529912; 1294757372; 1396182291;
   1695183700; 1986661051; 2177026350; 2456956037; 2730485921; 2820302411;
   3259730800; 3345764771; 3516065817; 3600352804; 4094571909; 275423344;
   430227734; 506948616; 659060556; 883997877; 958139571; 1322822218;
   1537002063; 1747873779; 1955562222; 2024104815; 2227730452; 2361852424;
   2428436474; 2756734187; 3204031479; 3329325298]%N.

Definition initial_state : list N := [
   1779033703; 3144134277; 1013904242; 2773480762; 1359893119; 2600822924;
   528734635; 1541459225]%N.

Definition bytes_of (s : string) : list N :=
  byte_code <$> String.list_ascii_of_string s.
Definition string_of_bytes (l : list N) : string :=
  String.string_of_list_ascii (ascii_of_N <$> l).

(** [n] bytes of [x], most significant first *)
Fixpoint be_bytes (n : nat) (x : N) : list N :=
  match n with
  | O => []
  | S n => N.land (N.shiftr x (8 * N.of_nat n)) 255 :: be_bytes n x
  end.

Fixpoint words_of (l : list N) : list N :=
  match l with
  | a :: b :: c :: d :: l =>
      N.lor (N.shiftl a 24) (N.lor (N.shiftl b 16) (N.lor (N.shiftl c 8) d)) :: words_of l
  | _ => []
  end.

(** 0x80, zeros up to 56 modulo 64, and the bit length on eight bytes *)
Definition pad (l : list N) : list N :=
  let len := N.of_nat (length l) in
  let zeros := (119 - len mod 64) mod 64 in
  l ++ [128] ++ replicate (N.to_nat zeros) 0 ++ be_bytes 8 (8 * len).

Definition small_sigma0 (x : N) : N := N.lxor (rotr x 7) (N.lxor (rotr x 18) (N.shiftr x 3)).
Definition small_sigma1 (x : N) : N := N.lxor (rotr x 17) (N.lxor (rotr x 19) (N.shiftr x 10)).
Definition big_sigma0 (x : N) : N := N.lxor (rotr x 2) (N.lxor (rotr x 13) (rotr x 22)).
Definition big_sigma1 (x : N) : N := N.lxor (rotr x 6) (N.lxor (rotr x 11) (rotr x 25)).

(** The message schedule, newest word first. *)
Fixpoint schedule (n : nat) (w : list N) : list N :=
  match n with
  | O => w
  | S n =>
      let at_ i := nth i w 0 in
      let x := add32 (add32 (small_sigma1 (at_ 1%nat)) (at_ 6%nat))
                     (add32 (small_sigma0 (at_ 14%nat)) (at_ 15%nat)) in
      schedule n (x :: w)
  end.

Definition round (st : list N) (kw : N * N) : list N :=
  match st with
  | [a; b; c; d; e; f; g; h] =>
      let ch := N.lxor (N.land e f) (N.land (not32 e) g) in
      let maj := N.lxor (N.land a b) (N.lxor (N.land a c) (N.land b c)) in
      let t1 := add32 (add32 h (big_sigma1 e)) (add32 ch (add32 (fst kw) (snd kw))) in
      let t2 := add32 (big_sigma0 a) maj in
      [add32 t1 t2; a; b; c; add32 d t1; e; f; g]
  | _ => st
  end.

Definition compress (st block : list N) : list N :=
  let w := rev (schedule 48 (rev block)) in
  zip_with add32 st (foldl round st (zip round_constants w)).

Fixpoint blocks (fuel : nat) (st ws : list N) : list N :=
  match fuel, ws with
  | S fuel, _ :: _ => blocks fuel (compress st (take 16 ws)) (drop 16 ws)
  | _, _ => st
  end.

(** [sha256.Sum256] *)
Definition sum256 (s : string) : string :=
  let ws := words_of (pad (bytes_of s)) in
  string_of_bytes (mjoin (be_bytes 4 <$> blocks (length ws) initial_state ws)).

(** [hmac.New(sha256.New, key)], one [Write] of [msg], then [Sum(nil)] *)
Definition hmac (key msg : string) : string :=
  let key := if (64 <? N.of_nat (String.length key)) then sum256 key else key in
  let block := bytes_of key ++ replicate (64 - String.length key) 0 in
  let xor_with v := string_of_bytes ((λ b, N.lxor b v) <$> block) in
  sum256 (xor_with 92 +:+ sum256 (xor_with 54 +:+ msg)).
End Sha256.

(** FIPS 180-4 and RFC 4231 test vectors. *)
Example sum256_abc :
  hex_encode (Sha256.sum256 "abc")
  = "ba7816bf8f01cfea414140de5dae2223b00361a396177a9cb410ff61f20015ad".
Proof. vm_compute. reflexivity. Qed.

Example sum256_two_blocks :
  hex_encode (Sha256.sum256 "abcdbcdecdefdefgefghfghighijhijkijkljklmklmnlmnomnopnopq")
  = "248d6a61d20638b8e5c026930c3e6039a33ce45964ff2167f6ecedd419db06c1".
Proof. vm_compute. reflexivity. Qed.

Example hmac_jefe :
  hex_encode (Sha256.hmac "Jefe" "what do ya want for nothing?")
  = "5bdcc146bf60754e6a042426089575c75a003f089d2739839dec58b964ec3843".
Proof. vm_compute. reflexivity. Qed.

(** The hash is never to be unfolded by the simplifier. *)
#[global] Arguments Sha256.sum256 : simpl never.
#[global] Arguments Sha256.hmac : simpl never.

(** The output of [hex_encode] is made of hexadecimal digits only. *)
Definition is_hex (c : ascii) : bool := is_digit c || in_range 97 102 c.

Lemma hex_digit_is_hex (n : N) : (n < 16)%N → is_hex (hex_digit n) = true.
Proof. by apply (below_16 (λ n, is_hex (hex_digit n))). Qed.

Lemma hex_encode_is_hex s : string_all is_hex (hex_encode s) = true.
Proof.
  induction s as [|c s IH]; simpl; [done|].
  pose proof (byte_code_bound c).
  rewrite !hex_digit_is_hex, IH; [done|..].
  - apply N.mod_lt. lia.
  - apply N.Div0.div_lt_upper_bound. lia.
Qed.

Lemma hex_encode_lacks_lf s : lacks LF (hex_encode s) = true.
Proof. by apply (string_all_lacks is_hex); [|apply hex_encode_is_hex]. Qed.
#[export] Hint Resolve hex_encode_lacks_lf : ww.
