(* ===== verification/GoTime.v ===== *)
(** * Package [time]: instants, durations, RFC 3339

    An instant is the number of nanoseconds since the zero [time.Time], so
    [IsZero] is [= 0]; the wall and monotonic clocks are one clock.  A
    [time.Duration] is a 64-bit integer of nanoseconds: products wrap and
    [Time.Sub] saturates, as in Go. *)

From S2P Require Import Prelude GoStrings.
Local Open Scope Z_scope.

Definition Millisecond : Z := 1000000.
Definition Second : Z := 1000000000.
Definition Minute : Z := 60 * Second.

Definition is_zero (t : Z) : bool := t =? 0.

(** [t.Sub(u)] *)
Definition time_sub (t u : Z) : Z := Z.max int64_min (Z.min int64_max (t - u)).
(** [t.Add(d)] *)
Definition time_add (t d : Z) : Z := t + d.
Definition before (t u : Z) : bool := t <? u.
Definition after (t u : Z) : bool := u <? t.

(** [Duration.Abs] *)
Definition dur_abs (d : Z) : Z :=
  if 0 <=? d then d else if d =? int64_min then int64_max else - d.

(** [time.Duration(ms) * time.Millisecond] *)
Definition dur_of_ms (ms : Z) : Z := wrap64 (ms * Millisecond).

(** [Duration.Milliseconds]: division truncates toward zero. *)
Definition dur_milliseconds (d : Z) : Z := Z.quot d Millisecond.

Lemma dur_of_ms_exact ms :
  0 <= ms <= 9223372036854 → dur_of_ms ms = ms * 1000000.
Proof.
  intros. apply wrap64_id. unfold in_int64, int64_min, int64_max, Millisecond. lia.
Qed.

Lemma time_sub_le t u d :
  int64_min <= d < int64_max → time_sub t u <= d ↔ t - u <= d.
Proof. unfold time_sub, int64_min, int64_max. lia. Qed.

Lemma time_sub_gt t u d :
  int64_min <= d < int64_max → time_sub t u > d ↔ t - u > d.
Proof. unfold time_sub, int64_min, int64_max. lia. Qed.

Lemma dur_abs_sub_le t u d :
  0 <= d < int64_max → dur_abs (time_sub t u) <= d ↔ Z.abs (t - u) <= d.
Proof.
  unfold dur_abs, time_sub, int64_min, int64_max. intros.
  destruct (Z.leb_spec 0 (Z.max (-9223372036854775808) (Z.min 9223372036854775807 (t - u)))); [lia|].
  case_match eqn:E; bool_to_prop; lia.
Qed.

(** ** Calendar *)

Definition is_leap (y : Z) : bool :=
  (y mod 4 =? 0) && (negb (y mod 100 =? 0) || (y mod 400 =? 0)).

Definition days_in (m y : Z) : Z :=
  match m with
  | 2 => if is_leap y then 29 else 28
  | 4 | 6 | 9 | 11 => 30
  | _ => 31
  end.

Definition days_before_year (y : Z) : Z :=
  365 * (y - 1) + (y - 1) / 4 - (y - 1) / 100 + (y - 1) / 400.

Definition days_before_month (m y : Z) : Z :=
  foldl (λ acc k, acc + days_in (Z.of_nat k) y) 0 (seq 1 (Z.to_nat (m - 1))).

(** [time.Date(year, month, day, hour, min, sec, nsec, time.UTC)] on fields in
    range *)
Definition date_utc (year month day hour min sec nsec : Z) : Z :=
  let days := days_before_year year + days_before_month month year + (day - 1) in
  (((days * 24 + hour) * 60 + min) * 60 + sec) * Second + nsec.

(** ** [time.Parse(time.RFC3339, value)]

    The layout-driven parser of package [time] on the layout
    "2006-01-02T15:04:05Z07:00".  It accepts more than RFC 3339: a one-digit
    hour, a comma before the fraction, and zone offsets up to 24:60. *)

Definition digit_at (s : string) (i : nat) : option Z :=
  match String.get i s with
  | Some c => if is_digit c then Some (Z.of_N (byte_code c) - 48) else None
  | None => None
  end.

(** [getnum]: one or two digits; [fixed] demands two. *)
Definition getnum (s : string) (fixed : bool) : option (Z * string) :=
  d0 ← digit_at s 0;
  match digit_at s 1 with
  | Some d1 => Some (10 * d0 + d1, drop_bytes 2 s)
  | None => if fixed then None else Some (d0, drop_bytes 1 s)
  end.

Definition skip_byte (c : ascii) (s : string) : option string :=
  match s with
  | String d s => if Ascii.eqb c d then Some s else None
  | EmptyString => None
  end.

Definition get_year (s : string) : option (Z * string) :=
  a ← digit_at s 0; b ← digit_at s 1; c ← digit_at s 2; d ← digit_at s 3;
  Some (((10 * a + b) * 10 + c) * 10 + d, drop_bytes 4 s).

Definition in_bounds (lo x hi : Z) : option unit :=
  if (lo <=? x) && (x <=? hi) then Some tt else None.

(** The digits of the fraction: the first nine count, the rest is skipped. *)
Fixpoint fraction_digits (s : string) (scale : Z) : Z * string :=
  match s with
  | String c s' =>
      if is_digit c
      then let '(n, rest) := fraction_digits s' (scale / 10) in
           ((Z.of_N (byte_code c) - 48) * scale + n, rest)
      else (0, s)
  | EmptyString => (0, s)
  end.

Definition get_fraction (s : string) : Z * string :=
  match s with
  | String c s' =>
      if (Ascii.eqb c "." || Ascii.eqb c ",")%char && bool_decide (is_Some (digit_at s' 0))
      then fraction_digits s' 100000000
      else (0, s)
  | EmptyString => (0, s)
  end.

(** The zone: [Z], or a sign, two digits, a colon, two digits; in seconds. *)
Definition get_zone (s : string) : option (Z * string) :=
  match s with
  | String "Z" s => Some (0, s)
  | String sign s =>
      '(hh, s) ← getnum s true;
      s ← skip_byte ":"%char s;
      '(mm, s) ← getnum s true;
      _ ← in_bounds 0 hh 24;
      _ ← in_bounds 0 mm 60;
      let offset := (hh * 60 + mm) * 60 in
      if Ascii.eqb sign "+"%char then Some (offset, s)
      else if Ascii.eqb sign "-"%char then Some (- offset, s) else None
  | EmptyString => None
  end.

Definition parse_rfc3339 (s : string) : option Z :=
  '(year, s) ← get_year s;
  s ← skip_byte "-"%char s;
  '(month, s) ← getnum s true;
  _ ← in_bounds 1 month 12;
  s ← skip_byte "-"%char s;
  '(day, s) ← getnum s true;
  s ← skip_byte "T"%char s;
  '(hour, s) ← getnum s false;
  _ ← in_bounds 0 hour 23;
  s ← skip_byte ":"%char s;
  '(minute, s) ← getnum s true;
  _ ← in_bounds 0 minute 59;
  s ← skip_byte ":"%char s;
  '(sec, s) ← getnum s true;
  _ ← in_bounds 0 sec 59;
  let '(nsec, s) := get_fraction s in
  '(offset, s) ← get_zone s;
  _ ← guard (s = EmptyString);
  _ ← in_bounds 1 day (days_in month year);
  Some (date_utc year month day hour minute sec nsec - offset * Second).

Example rfc3339_epoch :
  parse_rfc3339 "1970-01-01T00:00:00Z" = Some (62135596800 * Second).
Proof. vm_compute. reflexivity. Qed.

Example rfc3339_zone_fraction :
  parse_rfc3339 "2026-06-04T21:30:15.25+09:30" = parse_rfc3339 "2026-06-04T12:00:15.250Z".
Proof. vm_compute. reflexivity. Qed.

Example rfc3339_bad_day : parse_rfc3339 "2026-02-29T00:00:00Z" = None.
Proof. vm_compute. reflexivity. Qed.

(** ** [t.UTC().Format(time.RFC3339)] *)

(** The year that the day [d] falls in, counted from the first of January of
    the year 1: a first guess from the mean length of a year is at most one off. *)
Definition year_of_day (d : Z) : Z :=
  let guess := d * 400 / 146097 + 1 in
  if d <? days_before_year guess then guess - 1
  else if days_before_year (guess + 1) <=? d then guess + 1
  else guess.

(** The month, from [m] on, in which the day [d] of the month [m] really falls,
    and the day of that month, from 0. *)
Fixpoint month_of_day (fuel : nat) (m y d : Z) : Z * Z :=
  match fuel with
  | O => (m, d)
  | S fuel => if d <? days_in m y then (m, d) else month_of_day fuel (m + 1) y (d - days_in m y)
  end.

(** A number padded with zeros to [width] digits. *)
Fixpoint padded (width : nat) (n : Z) : string :=
  match width with
  | O => EmptyString
  | S width => padded width (n / 10) +:+ String (ascii_of_N (48 + Z.to_N (n mod 10))) EmptyString
  end.

(** Years 0 to 9999; [fraction] stands after the seconds. *)
Definition rfc3339_text (fraction : string) (t : Z) : string :=
  let secs := t / Second in
  let day := secs / 86400 in
  let s := secs mod 86400 in
  let year := year_of_day day in
  let '(month, mday) := month_of_day 11 1 year (day - days_before_year year) in
  padded 4 year +:+ "-" +:+ padded 2 month +:+ "-" +:+ padded 2 (mday + 1) +:+ "T" +:+
  padded 2 (s / 3600) +:+ ":" +:+ padded 2 (s / 60 mod 60) +:+ ":" +:+ padded 2 (s mod 60) +:+
  fraction +:+ "Z".

Definition format_rfc3339 : Z → string := rfc3339_text "".

(** A fraction of a second without its trailing zeros, nothing for zero. *)
Fixpoint fraction_text (width : nat) (n : Z) : string :=
  match width with
  | O => EmptyString
  | S width' =>
      if n =? 0 then EmptyString
      else if n mod 10 =? 0 then fraction_text width' (n / 10) else "." +:+ padded width n
  end.

(** [time.RFC3339Nano], the format of [Time.MarshalJSON] *)
Definition format_rfc3339_nano (t : Z) : string :=
  rfc3339_text (fraction_text 9 (t mod Second)) t.

(** The text of an instant is plain. *)
Lemma padded_ascii width n : is_ascii (padded width n) = true.
Proof.
  unfold is_ascii. revert n. induction width as [|width IH]; intros n; [done|]. cbn [padded].
  rewrite string_all_app, IH. cbn [string_all]. rewrite andb_true_r. unfold is_ascii_byte, byte_code.
  pose proof (Z.mod_pos_bound n 10 eq_refl). rewrite N_ascii_embedding by lia. apply N.ltb_lt. lia.
Qed.

Lemma fraction_ascii width n : is_ascii (fraction_text width n) = true.
Proof.
  revert n. induction width as [|width IH]; intros n; [done|]. cbn [fraction_text].
  destruct (n =? 0); [done|]. destruct (n mod 10 =? 0); [apply IH|]. apply (padded_ascii (S width)).
Qed.

#[local] Opaque padded.
Lemma rfc3339_ascii fraction t : is_ascii fraction = true → is_ascii (rfc3339_text fraction t) = true.
Proof.
  intros Hf. assert (Hp : ∀ w n, string_all is_ascii_byte (padded w n) = true) by apply padded_ascii.
  unfold rfc3339_text, is_ascii in *. cbv zeta.
  match goal with |- context [let '(_, _) := ?date in _] => generalize date end. intros [month mday].
  rewrite !string_all_app, Hf, !Hp. reflexivity.
Qed.

#[local] Transparent padded.

Lemma format_nano_ascii t : is_ascii (format_rfc3339_nano t) = true.
Proof. exact (rfc3339_ascii _ t (fraction_ascii 9 (t mod Second))). Qed.

Example format_examples :
  (λ t, t' ← parse_rfc3339 t; Some (format_rfc3339 t')) <$>
    ["2026-06-04T12:00:15Z"; "2024-02-29T23:59:59.9Z"; "1999-12-31T23:59:59-01:00";
     "2000-12-31T00:00:00Z"; "0004-12-31T10:09:08Z"] =
  Some <$> ["2026-06-04T12:00:15Z"; "2024-02-29T23:59:59Z"; "2000-01-01T00:59:59Z";
     "2000-12-31T00:00:00Z"; "0004-12-31T10:09:08Z"].
Proof. vm_compute. reflexivity. Qed.

Example format_nano_examples :
  (λ t, t' ← parse_rfc3339 t; Some (format_rfc3339_nano t')) <$>
    ["2026-06-04T12:00:15Z"; "2024-02-29T23:59:59.0900Z"; "1999-12-31T23:59:59.123456789Z"] =
  Some <$> ["2026-06-04T12:00:15Z"; "2024-02-29T23:59:59.09Z"; "1999-12-31T23:59:59.123456789Z"].
Proof. vm_compute. reflexivity. Qed.

#[global] Arguments format_rfc3339_nano : simpl never.
#[global] Arguments parse_rfc3339 : simpl never.
#[global] Arguments format_rfc3339 : simpl never.
