(* ===== verification/Effects.v ===== *)
(** * Programs over atomic effects

    The handlers of the connector mix pure code with calls on shared state
    (caches behind a mutex, semaphore channels), the clock, the audit sink and
    the directory.  They are written here as trees [prog E A]: a leaf returns,
    a node performs one atomic effect of the signature [E] and goes on with its
    answer.  One tree has several readings:

    - [run]: one request alone, against a deterministic interpreter;
    - [wp]: a weakest precondition against a demonic specification of the
      effects, which [run] and the scheduler below respect;
    - [pool_step]: any number of trees interleaved at every effect, over one
      shared state. *)

From S2P Require Import Prelude.

Inductive prog (E : Type → Type) (A : Type) : Type :=
| Ret (a : A)
| Vis (R : Type) (e : E R) (k : R → prog E A).
Arguments Ret {E A} a.
Arguments Vis {E A R} e k.

Fixpoint bind {E A B} (p : prog E A) (f : A → prog E B) : prog E B :=
  match p with
  | Ret a => f a
  | Vis e k => Vis e (λ r, bind (k r) f)
  end.

Definition call {E R} (e : E R) : prog E R := Vis e Ret.

Notation "x '<~' p ';;' q" := (bind p (λ x, q))
  (at level 100, p at next level, q at level 200, right associativity) : ww_scope.
Notation "p ';;;' q" := (bind p (λ _, q))
  (at level 100, q at level 200, right associativity) : ww_scope.

(** [x <?~ p ;; q] goes on with the value of [p] and returns its error:
    [x, err := p; if err != nil { return ..., err }; q]. *)
Definition bind_ok {E F A B} (p : prog E (result F A)) (f : A → prog E (result F B))
    : prog E (result F B) :=
  bind p (λ r, match r with Ok a => f a | Err err => Ret (Err err) end).

Notation "x '<?~' p ';;' q" := (bind_ok p (λ x, q))
  (at level 100, p at next level, q at level 200, right associativity) : ww_scope.

Lemma bind_call {E R B} (e : E R) (f : R → prog E B) : bind (call e) f = Vis e f.
Proof. done. Qed.

(** ** Running alone *)

Section run.
Context {E : Type → Type} {S : Type}.
Variable h : ∀ R, E R → S → R * S.

Fixpoint run {A} (p : prog E A) (s : S) : A * S :=
  match p with
  | Ret a => (a, s)
  | Vis e k => let '(r, s') := h _ e s in run (k r) s'
  end.

Lemma run_bind {A B} (p : prog E A) (f : A → prog E B) s :
  run (bind p f) s = let '(a, s') := run p s in run (f a) s'.
Proof.
  revert s. induction p as [a|R e k IH]; intros s; simpl; [done|].
  destruct (h R e s) as [r s']. apply IH.
Qed.
End run.

(** An interpreter that may have no answer to an effect. *)
Fixpoint run_partial {E : Type → Type} {S A} (h : ∀ R, E R → S → option (R * S)) (p : prog E A)
    (s : S) : option (A * S) :=
  match p with
  | Ret a => Some (a, s)
  | Vis e k =>
      match h _ e s with
      | Some (r, s') => run_partial h (k r) s'
      | None => None
      end
  end.

(** ** Weakest preconditions

    [spec R e Q s] says that from [s] the effect [e] is allowed and every answer
    and next state it may give satisfy [Q]. *)

Section wp.
Context {E : Type → Type} {S : Type}.
Variable spec : ∀ R, E R → (R → S → Prop) → S → Prop.

Fixpoint wp {A} (p : prog E A) (Q : A → S → Prop) (s : S) : Prop :=
  match p with
  | Ret a => Q a s
  | Vis e k => spec _ e (λ r s', wp (k r) Q s') s
  end.

Hypothesis spec_mono : ∀ R (e : E R) (P Q : R → S → Prop) s,
  (∀ r s', P r s' → Q r s') → spec R e P s → spec R e Q s.

Lemma wp_mono {A} (p : prog E A) (P Q : A → S → Prop) s :
  (∀ a s', P a s' → Q a s') → wp p P s → wp p Q s.
Proof.
  intros HPQ. revert s. induction p as [a|R e k IH]; intros s; simpl; [auto|].
  apply spec_mono. auto.
Qed.

Lemma wp_bind {A B} (p : prog E A) (f : A → prog E B) Q s :
  wp p (λ a s', wp (f a) Q s') s → wp (bind p f) Q s.
Proof.
  revert s. induction p as [a|R e k IH]; intros s; simpl; [done|].
  apply spec_mono. auto.
Qed.

Lemma wp_bind_ok {F A B} (p : prog E (result F A)) (f : A → prog E (result F B)) Q s :
  wp p (λ r s', match r with Ok a => wp (f a) Q s' | Err err => Q (Err err) s' end) s →
  wp (bind_ok p f) Q s.
Proof.
  intros Hp. apply wp_bind. eapply wp_mono; [|exact Hp]. intros [a|err] s'; done.
Qed.
End wp.

(** ** Traces

    [always p P]: whatever the effects answer, [p] returns, and the trace of its
    effects with their answers satisfies [P] together with its result. *)

Definition entry (E : Type → Type) : Type := { R : Type & (E R * R)%type }.

Section always.
Context {E : Type → Type}.

Fixpoint always {A} (p : prog E A) (P : list (entry E) → A → Prop) : Prop :=
  match p with
  | Ret a => P [] a
  | Vis e k => ∀ r, always (k r) (λ tr a, P (existT _ (e, r) :: tr) a)
  end.

Lemma always_mono {A} (p : prog E A) (P Q : list (entry E) → A → Prop) :
  (∀ tr a, P tr a → Q tr a) → always p P → always p Q.
Proof.
  revert P Q. induction p as [a|R e k IH]; intros P Q HPQ; simpl; [auto|].
  intros Hp r. eapply IH; [|apply Hp]. auto.
Qed.

Lemma always_bind {A B} (p : prog E A) (f : A → prog E B) P :
  always p (λ tr a, always (f a) (λ tr' b, P (tr ++ tr') b)) → always (bind p f) P.
Proof.
  revert P. induction p as [a|R e k IH]; intros P; simpl; [done|].
  intros Hp r. apply IH, Hp.
Qed.

Lemma always_and {A} (p : prog E A) (P Q : list (entry E) → A → Prop) :
  always p P → always p Q → always p (λ tr a, P tr a ∧ Q tr a).
Proof.
  revert P Q. induction p as [a|R e k IH]; intros P Q; simpl; [done|].
  intros HP HQ r. by apply IH.
Qed.

(** Every effect of the program has an answer, so some trace is lived through. *)
Fixpoint answering {A} (p : prog E A) : Prop :=
  match p with
  | Ret _ => True
  | @Vis _ _ R _ k => inhabited R ∧ ∀ r, answering (k r)
  end.

Lemma answering_all (Hinh : ∀ R, E R → inhabited R) {A} (p : prog E A) : answering p.
Proof. induction p as [a|R e k IH]; simpl; [done|]. split; [by eapply Hinh|done]. Qed.

Lemma answering_bind {A B} (p : prog E A) (f : A → prog E B) :
  answering p → (∀ a, answering (f a)) → answering (bind p f).
Proof. intros Hp Hf. induction p as [a|R e k IH]; simpl in *; naive_solver. Qed.

Lemma always_somewhere {A} (p : prog E A) (X : Prop) : answering p → always p (λ _ _, X) → X.
Proof.
  induction p as [a|R e k IH]; simpl; [done|]. intros [[r] Hans] Hp. by apply (IH r).
Qed.

(** The trace of a run against an interpreter is one of those. *)
Fixpoint run_trace {S A} (h : ∀ R, E R → S → R * S) (p : prog E A) (s : S)
    : list (entry E) :=
  match p with
  | Ret _ => []
  | Vis e k => let '(r, s') := h _ e s in existT _ (e, r) :: run_trace h (k r) s'
  end.

Lemma always_run {S A} (h : ∀ R, E R → S → R * S) (p : prog E A) (s : S) P :
  always p P → P (run_trace h p s) (run h p s).1.
Proof.
  revert s P. induction p as [a|R e k IH]; intros s P; simpl; [done|].
  intros Hp. destruct (h R e s) as [r s']. apply (IH r s' (λ tr a, P (existT R (e, r) :: tr) a)), Hp.
Qed.

End always.

(** ** Indistinguishable trees

    Two trees are [similar] when they perform the same effects up to [view], what
    an observer sees of an effect, and go on similarly after every answer. *)

Section similar.
Context {E : Type → Type} (view : ∀ R, E R → E R).

Inductive similar {A} : prog E A → prog E A → Prop :=
| similar_ret a : similar (Ret a) (Ret a)
| similar_vis R (e1 e2 : E R) k1 k2 :
    view R e1 = view R e2 → (∀ r, similar (k1 r) (k2 r)) → similar (Vis e1 k1) (Vis e2 k2).

#[export] Instance similar_reflexive {A} : Reflexive (@similar A).
Proof. intros p. induction p; by constructor. Qed.

#[export] Instance similar_symmetric {A} : Symmetric (@similar A).
Proof. intros p q Hpq. induction Hpq; by constructor. Qed.

#[export] Instance bind_similar {A B} :
  Proper (similar ==> pointwise_relation A similar ==> similar) (@bind E A B).
Proof.
  intros p q Hpq f g Hfg. induction Hpq; simpl; [apply Hfg|]. by constructor.
Qed.

Lemma similar_bind_r {A B} (p : prog E A) (f g : A → prog E B) :
  (∀ a, similar (f a) (g a)) → similar (bind p f) (bind p g).
Proof. intros Hfg. by apply bind_similar. Qed.
End similar.

(** An interpreter over [T] refines the specification along the abstraction [R]
    of its states when each of its answers is one the specification allows. *)
Section soundness.
Context {E : Type → Type} {S T : Type}.
Variable spec : ∀ R, E R → (R → S → Prop) → S → Prop.
Variable h : ∀ R, E R → T → R * T.
Variable rel : S → T → Prop.

Definition refines : Prop :=
  ∀ R (e : E R) (Q : R → S → Prop) s t,
    rel s t → spec R e Q s →
    ∃ s', rel s' (h R e t).2 ∧ Q (h R e t).1 s'.

Lemma wp_run (Href : refines) {A} (p : prog E A) (Q : A → S → Prop) s t :
  rel s t → wp spec p Q s →
  ∃ s', rel s' (run h p t).2 ∧ Q (run h p t).1 s'.
Proof.
  revert s t. induction p as [a|R e k IH]; intros s t Hrel; simpl; [eauto|].
  intros (s' & Hrel' & Hwp)%(Href R e _ s t Hrel).
  destruct (h R e t) as [r t'] eqn:He. simpl in *. by apply (IH r s').
Qed.
End soundness.

(** ** Composition

    [inline f p] performs [f e] where [p] performs the effect [e]. *)
Section inline.
Context {E F : Type → Type}.
Variable f : ∀ R, E R → prog F R.

Fixpoint inline {A} (p : prog E A) : prog F A :=
  match p with
  | Ret a => Ret a
  | Vis e k => bind (f _ e) (λ r, inline (k r))
  end.

Context {S : Type}.
Variable spec : ∀ R, F R → (R → S → Prop) → S → Prop.
Hypothesis spec_mono : ∀ R (e : F R) (P Q : R → S → Prop) s,
  (∀ r s', P r s' → Q r s') → spec R e P s → spec R e Q s.

(** What holds of every trace of [p] holds of the trace that the composition
    lives through, where [inv] links traces to states: each effect is looked at
    with what every trace through it satisfies. *)
Lemma wp_inline_always (inv : list (entry E) → S → Prop) (safe : list (entry E) → Prop) :
  (∀ tr tr', safe (tr ++ tr') → safe tr) →
  (∀ tr R (e : E R) s, inv tr s → (∀ r, safe (tr ++ [existT R (e, r)])) →
     wp spec (f R e) (λ r s', inv (tr ++ [existT R (e, r)]) s') s) →
  ∀ A (p : prog E A) (P : list (entry E) → A → Prop) tr s,
    answering p → always p (λ tr' a, safe (tr ++ tr') ∧ P tr' a) → inv tr s →
    wp spec (inline p) (λ a s', ∃ tr', inv (tr ++ tr') s' ∧ P tr' a) s.
Proof.
  intros Hprefix Hstep A p. induction p as [a|R e k IH]; intros P tr s Hans Hp Hinv; simpl in *.
  { exists []. rewrite app_nil_r in *. naive_solver. }
  apply (wp_bind spec spec_mono). eapply (wp_mono spec spec_mono); [|apply Hstep; [exact Hinv|]].
  - intros r s' Hinv'. eapply (wp_mono spec spec_mono); [|apply (IH r (λ tr' a, P (existT R (e, r) :: tr') a)
      (tr ++ [existT R (e, r)]) s'); [apply Hans| |exact Hinv']].
    + intros a s'' (tr' & Hinv'' & HP). exists (existT R (e, r) :: tr').
      by rewrite cons_middle, (assoc_L (++)).
    + eapply always_mono; [|apply Hp]. intros tr' a [Hs HP]. split; [|done].
      by rewrite cons_middle, (assoc_L (++)) in Hs.
  - intros r. apply (always_somewhere (k r)); [apply Hans|]. eapply always_mono; [|apply Hp].
    intros tr' a [Hs _]. rewrite cons_middle, (assoc_L (++)) in Hs. by eapply Hprefix.
Qed.
End inline.

(** A program whose effects are taken as effects of [F] follows a specification of
    [F] that, through [put], asks of them no more than the program's own. *)
Lemma wp_embed {E F : Type → Type} {S T A} (g : ∀ R, E R → F R) (put : S → T)
    (spec : ∀ R, E R → (R → S → Prop) → S → Prop) (spec' : ∀ R, F R → (R → T → Prop) → T → Prop) :
  (∀ R (e : E R) (P Q : R → S → Prop) s,
     (∀ r s', P r s' → Q r s') → spec R e P s → spec R e Q s) →
  (∀ R (e : E R) (Q : R → T → Prop) s,
     spec R e (λ r s', Q r (put s')) s → spec' R (g R e) Q (put s)) →
  ∀ (p : prog E A) (Q : A → T → Prop) s,
    wp spec p (λ a s', Q a (put s')) s → wp spec' (inline (λ R e, call (g R e)) p) Q (put s).
Proof.
  intros Hmono Hspec p Q. induction p as [a|R e k IH]; intros s; simpl; [done|].
  intros Hwp. apply Hspec. eapply Hmono; [|exact Hwp]. intros r s'. apply IH.
Qed.

(** ** Interleaving

    A pool is a shared state and the trees of the requests in progress; a step
    performs the next effect of one of them, or starts a new tree. *)

Section pool.
Context {E : Type → Type} {S A : Type}.
Variable h : ∀ R, E R → S → R * S.

Record pool := Pool { shared : S; threads : list (prog E A) }.

Inductive pool_step (start : prog E A → Prop) : pool → pool → Prop :=
| pool_spawn s ts p :
    start p → pool_step start (Pool s ts) (Pool s (ts ++ [p]))
| pool_effect s ts i R (e : E R) k :
    ts !! i = Some (Vis e k) →
    pool_step start (Pool s ts) (Pool (h R e s).2 (<[i := k (h R e s).1]> ts)).

Inductive reachable (start : prog E A → Prop) (init : S) : pool → Prop :=
| reachable_init : reachable start init (Pool init [])
| reachable_next c c' :
    reachable start init c → pool_step start c c' → reachable start init c'.

(** Rule induction packaged: what holds initially and is kept by each step
    holds of every reachable pool. *)
Lemma reachable_invariant start init (I : pool → Prop) :
  I (Pool init []) →
  (∀ c c', I c → pool_step start c c' → I c') →
  ∀ c, reachable start init c → I c.
Proof. intros Hinit Hstep c Hc. induction Hc; eauto. Qed.

(** One step of thread [i], and the steps of a whole schedule: executable, for
    concrete runs. *)
Definition step_at (i : nat) (c : pool) : pool :=
  match threads c !! i with
  | Some (Vis e k) => Pool (h _ e (shared c)).2 (<[i := k (h _ e (shared c)).1]> (threads c))
  | _ => c
  end.

Definition schedule (order : list nat) (c : pool) : pool := foldl (λ c i, step_at i c) c order.

Lemma schedule_reachable start init order c :
  reachable start init c → reachable start init (schedule order c).
Proof.
  revert c. induction order as [|i order IH]; intros c Hc; [done|]. apply IH.
  unfold step_at. destruct c as [s ts]. simpl.
  destruct (ts !! i) as [[a|R e k]|] eqn:Hi; [done| |done].
  eapply reachable_next; [exact Hc|]. by apply pool_effect.
Qed.

Lemma spawned_reachable start init ps :
  Forall start ps → reachable start init (Pool init ps).
Proof.
  induction ps as [|p ps IH] using rev_ind; intros Hps; [constructor|].
  apply Forall_app in Hps as [Hps [Hp _]%Forall_cons].
  eapply reachable_next; [by apply IH|]. by apply pool_spawn.
Qed.
End pool.
Arguments Pool {E S A} shared threads.

(** *** An environment that answers as it likes

    [may R e s r s']: in [s], the effect [e] may be answered by [r] and lead to
    [s']. *)
Section crowd.
Context {E : Type → Type} {S A : Type}.
Variable may : ∀ R, E R → S → R → S → Prop.

Inductive crowd_step (start : prog E A → Prop) : @pool E S A → pool → Prop :=
| crowd_spawn s ts p :
    start p → crowd_step start (Pool s ts) (Pool s (ts ++ [p]))
| crowd_effect s ts i R (e : E R) k r s' :
    ts !! i = Some (Vis e k) → may R e s r s' →
    crowd_step start (Pool s ts) (Pool s' (<[i := k r]> ts)).

Inductive crowd_reachable (start : prog E A → Prop) (init : S) : pool → Prop :=
| crowd_init : crowd_reachable start init (Pool init [])
| crowd_next c c' :
    crowd_reachable start init c → crowd_step start c c' → crowd_reachable start init c'.

Lemma crowd_invariant start init (I : pool → Prop) :
  I (Pool init []) →
  (∀ c c', I c → crowd_step start c c' → I c') →
  ∀ c, crowd_reachable start init c → I c.
Proof. intros Hinit Hstep c Hc. induction Hc; eauto. Qed.

(** A schedule under an interpreter that answers as the environment may. *)
Variable h : ∀ R, E R → S → option (R * S).
Hypothesis h_may : ∀ R e s r s', h R e s = Some (r, s') → may R e s r s'.

Definition crowd_at (i : nat) (c : @pool E S A) : pool :=
  match threads c !! i with
  | Some (Vis e k) =>
      match h _ e (shared c) with
      | Some (r, s) => Pool s (<[i := k r]> (threads c))
      | None => c
      end
  | _ => c
  end.

Lemma crowd_schedule_reachable start init order c :
  crowd_reachable start init c → crowd_reachable start init (foldl (λ c i, crowd_at i c) c order).
Proof.
  revert c. induction order as [|i order IH]; intros c Hc; [done|]. apply IH. unfold crowd_at.
  destruct c as [s ts]. simpl. destruct (ts !! i) as [[a|R e k]|] eqn:Hi; [done| |done].
  destruct (h R e s) as [[r s']|] eqn:He; [|done]. eapply crowd_next; [exact Hc|]. eapply crowd_effect; eauto.
Qed.

Lemma crowd_spawned start init ps :
  Forall start ps → crowd_reachable start init (Pool init ps).
Proof.
  induction ps as [|p ps IH] using rev_ind; intros Hps; [constructor|].
  apply Forall_app in Hps as [Hps [Hp _]%Forall_cons].
  eapply crowd_next; [by apply IH|]. by apply crowd_spawn.
Qed.
End crowd.

(** ** Walking a computation *)

(** The traces of a computation are walked by giving every effect an arbitrary
    answer and following the branch it selects. *)
Ltac head_of t := match t with ?f _ => head_of f | _ => t end.
Ltac walk :=
  repeat (
    cbn [always bind call];
    match goal with
    | |- ∀ _, _ => intro
    | |- always (bind _ _) _ => apply always_bind
    | H : ?x = _ |- always (match ?x with _ => _ end) _ => rewrite H
    | |- always (match ?x with _ => _ end) _ => destruct x eqn:?
    | |- always ?p _ => let f := head_of p in progress unfold f
    end).
