(* ===== verification/Net.v ===== *)
(** * Packages [net] and [net/netip]: the peer's address

    [net.SplitHostPort], [net.ParseIP] and [IP.IsLoopback], as the operations
    endpoints use them to tell local callers. *)

From S2P Require Import Prelude GoStrings.
Local Open Scope Z_scope.

(** ** Indexing *)

Fixpoint index_byte (c : ascii) (s : string) : option nat :=
  match s with
  | EmptyString => None
  | String d s => if Ascii.eqb c d then Some 0%nat else S <$> index_byte c s
  end.

Fixpoint last_index_byte (c : ascii) (s : string) : option nat :=
  match s with
  | EmptyString => None
  | String d s =>
      match last_index_byte c s with
      | Some i => Some (S i)
      | None => if Ascii.eqb c d then Some 0%nat else None
      end
  end.

(** [s[i:j]] *)
Definition slice (i j : nat) (s : string) : string := String.substring i (j - i) s.

(** [net.SplitHostPort]; only the host is used. *)
Definition SplitHostPort (hostport : string) : option string :=
  i ← last_index_byte ":"%char hostport;
  '(host, j, k) ←
    (if has_prefix hostport "[" then
       close ← index_byte "]"%char hostport;
       if (close + 1 =? i)%nat then Some (slice 1 close hostport, 1%nat, (close + 1)%nat) else None
     else
       let host := slice 0 i hostport in
       if contains_byte ":"%char host then None else Some (host, 0%nat, 0%nat));
  if contains_byte "["%char (drop_bytes j hostport) then None
  else if contains_byte "]"%char (drop_bytes k hostport) then None
  else Some host.

(** ** Addresses *)

Definition decimal_value (s : string) : Z :=
  foldl (λ n c, n * 10 + (Z.of_N (byte_code c) - 48)) 0 (String.list_ascii_of_string s).

(** One field of a dotted address: digits, no leading zero, at most 255. *)
Definition octet (s : string) : option Z :=
  match s with
  | EmptyString => None
  | String c rest =>
      if negb (string_all is_digit s) then None
      else if Ascii.eqb c "0"%char && negb (rest =? "")%string then None
      else if 255 <? decimal_value s then None else Some (decimal_value s)
  end.

Definition parseIPv4 (s : string) : option (list Z) :=
  match split_byte "."%char s with
  | [a; b; c; d] =>
      a ← octet a; b ← octet b; c ← octet c; d ← octet d; Some [a; b; c; d]
  | _ => None
  end.

Definition hex_byte (c : ascii) : option Z :=
  if is_digit c then Some (Z.of_N (byte_code c) - 48)
  else if in_range 97 102 c then Some (Z.of_N (byte_code c) - 87)
  else if in_range 65 70 c then Some (Z.of_N (byte_code c) - 55)
  else None.

(** The hexadecimal digits [s] starts with, their value and the rest. *)
Fixpoint hex_group (n : nat) (acc : Z) (s : string) : nat * Z * string :=
  match s with
  | String c s' =>
      match hex_byte c with
      | Some v => hex_group (S n) (acc * 16 + v) s'
      | None => (n, acc, s)
      end
  | EmptyString => (n, acc, s)
  end.

(** The loop of [parseIPv6] on the bytes [ip] read so far; answers the bytes and
    where the ellipsis stands among them. *)
Fixpoint ipv6_groups (fuel : nat) (ip : list Z) (ellipsis : option nat) (s : string)
    : option (list Z * option nat) :=
  let i := length ip in
  match fuel with
  | O => None
  | S fuel =>
      if (16 <=? i)%nat then (if (s =? "")%string then Some (ip, ellipsis) else None) else
      let '(digits, acc, rest) := hex_group 0 0 s in
      if (digits =? 0)%nat || (4 <? digits)%nat then None else
      match rest with
      | String "." _ =>
          if negb (bool_decide (is_Some ellipsis)) && negb (i =? 12)%nat then None
          else if (16 <? i + 4)%nat then None
          else v4 ← parseIPv4 s; Some (ip ++ v4, ellipsis)
      | EmptyString => Some (ip ++ [acc / 256; acc mod 256], ellipsis)
      | String ":" rest =>
          let ip := ip ++ [acc / 256; acc mod 256] in
          match rest with
          | EmptyString => None
          | String ":" rest =>
              if bool_decide (is_Some ellipsis) then None
              else if (rest =? "")%string then Some (ip, Some (length ip))
              else ipv6_groups fuel ip (Some (length ip)) rest
          | _ => ipv6_groups fuel ip ellipsis rest
          end
      | _ => None
      end
  end.

(** [parseIPv6] on a text without a zone: nine turns read sixteen bytes. *)
Definition parseIPv6 (s : string) : option (list Z) :=
  '(ip, ellipsis) ←
    (if has_prefix s "::" then
       let rest := drop_bytes 2 s in
       if (rest =? "")%string then Some ([], Some 0%nat) else ipv6_groups 9 [] (Some 0%nat) rest
     else ipv6_groups 9 [] None s);
  match ellipsis with
  | Some e =>
      if (length ip <? 16)%nat
      then Some (take e ip ++ replicate (16 - length ip) 0 ++ drop e ip) else None
  | None => if (length ip =? 16)%nat then Some ip else None
  end.

(** The first of [.], [:] and [%] in the text selects the syntax. *)
Fixpoint address_syntax (s : string) : option ascii :=
  match s with
  | EmptyString => None
  | String c s =>
      if Ascii.eqb c "."%char || Ascii.eqb c ":"%char || Ascii.eqb c "%"%char then Some c
      else address_syntax s
  end.

(** The sixteen bytes of an IPv4 address: [::ffff:a.b.c.d] *)
Definition v4_in_v6 (ip : list Z) : list Z := replicate 10 0 ++ [255; 255] ++ ip.

(** [net.ParseIP]: sixteen bytes; an address with a zone is refused. *)
Definition ParseIP (s : string) : option (list Z) :=
  match address_syntax s with
  | Some "." => v4_in_v6 <$> parseIPv4 s
  | Some ":" => if contains_byte "%"%char s then None else parseIPv6 s
  | _ => None
  end%char.

(** [IP.IsLoopback] on sixteen bytes: 127.0.0.0/8, also mapped, and ::1. *)
Definition IsLoopback (ip : list Z) : bool :=
  if bool_decide (take 12 ip = replicate 10 0 ++ [255; 255])
  then bool_decide (ip !! 12%nat = Some 127)
  else bool_decide (ip = replicate 15 0 ++ [1]).

Definition loopback_text (s : string) : bool :=
  match ParseIP s with Some ip => IsLoopback ip | None => false end.

Example loopback_examples :
  loopback_text <$> ["127.0.0.1"; "127.9.8.7"; "::1"; "::ffff:127.0.0.1"; "0:0:0:0:0:0:0:1"] =
  [true; true; true; true; true].
Proof. vm_compute. reflexivity. Qed.

Example not_loopback_examples :
  loopback_text <$> ["128.0.0.1"; "127.0.0.01"; "127.0.0"; "::2"; "::1%lo"; "localhost"; "";
                     "1::2::3"; "::ffff:126.0.0.1"; "0:0:0:0:0:0:0:0:1"; "12345::"] =
  replicate 11 false.
Proof. vm_compute. reflexivity. Qed.

Example split_examples :
  SplitHostPort <$> ["127.0.0.1:80"; "[::1]:80"; "::1:80"; "[::1]"; "h"; "[a]:b:c"] =
  [Some "127.0.0.1"; Some "::1"; None; None; None; None].
Proof. vm_compute. reflexivity. Qed.

