(* ===== verification/Url.v ===== *)
(** * Package [net/url], as the configuration, the relay and LDAP referrals use it

    [url.Parse] with the accessors [Hostname] and [EscapedPath], and
    [PathUnescape], as in Go 1.25.0, the version of go.mod; from 1.25.2 on Go also
    refuses a bracketed host that is not an IPv6 address.  Of the user information
    only its validity matters, of the fragment nothing but that its escapes are
    well formed. *)

From S2P Require Import Prelude GoStrings.

(** ** Escaping *)

Inductive encoding := encodePath | encodePathSegment | encodeHost | encodeZone
  | encodeUserPassword | encodeFragment.

Definition one_of (l : list ascii) (c : ascii) : bool := existsb (Ascii.eqb c) l.

Definition is_host_mode (mode : encoding) : bool :=
  match mode with encodeHost | encodeZone => true | _ => false end.

Definition shouldEscape (mode : encoding) (c : ascii) : bool :=
  if is_alnum c then false
  else if is_host_mode mode &&
          (one_of ["!"; "$"; "&"; "'"; "("; ")"; "*"; "+"; ","; ";"; "="; ":"; "["; "]"; "<"; ">"]%char c
           || Ascii.eqb c double_quote) then false
  else if one_of ["-"; "_"; "."; "~"]%char c then false
  else if one_of ["$"; "&"; "+"; ","; "/"; ":"; ";"; "="; "?"; "@"]%char c then
    match mode with
    | encodePath => Ascii.eqb c "?"%char
    | encodePathSegment => one_of ["/"; ";"; ","; "?"]%char c
    | encodeUserPassword => one_of ["@"; "/"; "?"; ":"]%char c
    | encodeFragment => false
    | encodeHost | encodeZone => true
    end
  else
    match mode with
    | encodeFragment => negb (one_of ["!"; "("; ")"; "*"]%char c)
    | _ => true
    end.

Definition unhex (c : ascii) : option N :=
  if is_digit c then Some (byte_code c - 48)%N
  else if in_range 97 102 c then Some (byte_code c - 87)%N
  else if in_range 65 70 c then Some (byte_code c - 55)%N
  else None.

Definition is_percent25 (a b : ascii) : bool := Ascii.eqb a "2"%char && Ascii.eqb b "5"%char.

(** [unescape]; [None] is an [EscapeError] or an [InvalidHostError].  No mode
    here turns [+] into a space. *)
Fixpoint unescape (mode : encoding) (s : string) : option string :=
  match s with
  | EmptyString => Some EmptyString
  | String c rest =>
      if Ascii.eqb c "%"%char then
        match rest with
        | String a (String b rest) =>
            hi ← unhex a; lo ← unhex b;
            let v := ascii_of_N (hi * 16 + lo)%N in
            let bad :=
              match mode with
              | encodeHost => (hi <? 8)%N && negb (is_percent25 a b)
              | encodeZone =>
                  negb (is_percent25 a b) && negb (Ascii.eqb v " "%char) && shouldEscape encodeHost v
              | _ => false
              end in
            if bad then None else (tail ← unescape mode rest; Some (String v tail))
        | _ => None
        end
      else if is_host_mode mode && is_ascii_byte c && shouldEscape mode c then None
      else tail ← unescape mode rest; Some (String c tail)
  end.

(** [url.PathUnescape] *)
Definition PathUnescape (s : string) : option string := unescape encodePathSegment s.

Fixpoint escape (mode : encoding) (s : string) : string :=
  match s with
  | EmptyString => EmptyString
  | String c s =>
      if shouldEscape mode c then
        String "%"%char (String (upper_hex_digit (byte_code c / 16))
          (String (upper_hex_digit (byte_code c mod 16)) (escape mode s)))
      else String c (escape mode s)
  end.

Definition validEncoded (mode : encoding) (s : string) : bool :=
  string_all (λ c,
    one_of ["!"; "$"; "&"; "'"; "("; ")"; "*"; "+"; ","; ";"; "="; ":"; "@"; "["; "]"; "%"]%char c
    || negb (shouldEscape mode c)) s.

(** ** Parsing *)

Record URL := {
  Scheme : string;
  Opaque : string;
  Host : string;
  Path : string;
  RawPath : string;
  RawQuery : string;
}.

(** [strings.Cut] on a byte, with everything before when it is absent. *)
Definition cut_or_all (c : ascii) (s : string) : string * string :=
  default (s, "") (cut_byte c s).

Definition control_byte (c : ascii) : bool := (byte_code c <? 32)%N || (byte_code c =? 127)%N.

(** [getScheme]: [None] is an error; an empty scheme means there is none. *)
Fixpoint scheme_chars (first : bool) (s : string) : option (option (string * string)) :=
  match s with
  | EmptyString => Some None
  | String c rest =>
      if is_upper c || is_lower c then
        match scheme_chars false rest with
        | Some (Some (pre, post)) => Some (Some (String c pre, post))
        | r => r
        end
      else if is_digit c || one_of ["+"; "-"; "."]%char c then
        if first then Some None
        else match scheme_chars false rest with
             | Some (Some (pre, post)) => Some (Some (String c pre, post))
             | r => r
             end
      else if Ascii.eqb c ":"%char then
        if first then None else Some (Some (EmptyString, rest))
      else Some None
  end.

Definition getScheme (raw : string) : option (string * string) :=
  r ← scheme_chars true raw; Some (default ("", raw) r).

Fixpoint last_cut (c : ascii) (s : string) : option (string * string) :=
  match s with
  | EmptyString => None
  | String d s =>
      match last_cut c s with
      | Some (a, b) => Some (String d a, b)
      | None => if Ascii.eqb c d then Some (EmptyString, s) else None
      end
  end.

(** the port with its colon *)
Definition validOptionalPort (port : string) : bool :=
  match port with
  | EmptyString => true
  | String ":" digits => string_all is_digit digits
  | _ => false
  end.

Definition validUserinfo (s : string) : bool :=
  string_all (λ c, is_alnum c ||
    one_of ["-"; "."; "_"; ":"; "~"; "!"; "$"; "&"; "'"; "("; ")"; "*"; "+"; ","; ";"; "="; "%"; "@"]%char c) s.

(** The text before the first occurrence of "%25", and from it on. *)
Fixpoint cut_zone (s : string) : option (string * string) :=
  match s with
  | EmptyString => None
  | String c rest =>
      if has_prefix s "%25" then Some (EmptyString, s)
      else match cut_zone rest with
           | Some (a, b) => Some (String c a, b)
           | None => None
           end
  end.

Definition parseHost (host : string) : option string :=
  if has_prefix host "[" then
    '(inside, colonPort) ← last_cut "]"%char host;
    if negb (validOptionalPort colonPort) then None
    else
      match cut_zone inside with
      | Some (h1, h2) =>
          h1 ← unescape encodeHost h1; h2 ← unescape encodeZone h2;
          h3 ← unescape encodeHost (String "]" colonPort);
          Some (h1 +:+ h2 +:+ h3)
      | None => unescape encodeHost host
      end
  else
    match last_cut ":"%char host with
    | Some (_, port) =>
        if validOptionalPort (String ":" port) then unescape encodeHost host else None
    | None => unescape encodeHost host
    end.

(** The host; user information must be well formed. *)
Definition parseAuthority (authority : string) : option string :=
  match last_cut "@"%char authority with
  | None => parseHost authority
  | Some (userinfo, host) =>
      host ← parseHost host;
      if negb (validUserinfo userinfo) then None
      else
        let '(username, password) := cut_or_all ":"%char userinfo in
        _ ← unescape encodeUserPassword username;
        _ ← unescape encodeUserPassword password;
        Some host
  end.

Definition setPath (scheme host rawQuery p : string) : option URL :=
  path ← unescape encodePath p;
  Some {| Scheme := scheme; Opaque := ""; Host := host; Path := path;
          RawPath := if (p =? escape encodePath path)%string then "" else p;
          RawQuery := rawQuery |}.

(** The scheme holds ASCII letters only where case matters. *)
Definition lower_ascii (s : string) : string := string_map lower_byte s.

(** [parse(rawURL, false)] *)
Definition parse_no_fragment (raw : string) : option URL :=
  if string_all (λ c, negb (control_byte c)) raw then
    if (raw =? "*")%string then
      Some {| Scheme := ""; Opaque := ""; Host := ""; Path := "*"; RawPath := ""; RawQuery := "" |}
    else
      '(scheme, rest) ← getScheme raw;
      let scheme := lower_ascii scheme in
      let '(rest, rawQuery) := cut_or_all "?"%char rest in
      if negb (has_prefix rest "/") && negb (scheme =? "")%string then
        Some {| Scheme := scheme; Opaque := rest; Host := ""; Path := ""; RawPath := "";
                RawQuery := rawQuery |}
      else if negb (has_prefix rest "/") &&
              contains_byte ":"%char (cut_or_all "/"%char rest).1 then None
      else if (negb (scheme =? "")%string || negb (has_prefix rest "///")) && has_prefix rest "//"
      then
        let authority := drop_bytes 2 rest in
        match cut_byte "/"%char authority with
        | Some (a, p) => host ← parseAuthority a; setPath scheme host rawQuery (String "/" p)
        | None => host ← parseAuthority authority; setPath scheme host rawQuery ""
        end
      else setPath scheme "" rawQuery rest
  else None.

(** [url.Parse] of Go 1.25.0. *)
Definition Parse (raw : string) : option URL :=
  let '(u, frag) := cut_or_all "#"%char raw in
  url ← parse_no_fragment u;
  if (frag =? "")%string then Some url
  else _ ← unescape encodeFragment frag; Some url.

(** ** Accessors *)

Definition EscapedPath (u : URL) : string :=
  if negb (RawPath u =? "")%string && validEncoded encodePath (RawPath u)
     && bool_decide (unescape encodePath (RawPath u) = Some (Path u))
  then RawPath u
  else if (Path u =? "*")%string then "*"
  else escape encodePath (Path u).

Definition Hostname (u : URL) : string :=
  let host :=
    match last_cut ":"%char (Host u) with
    | Some (h, port) => if validOptionalPort (String ":" port) then h else Host u
    | None => Host u
    end in
  match host with
  | String "[" rest =>
      match last_cut "]"%char rest with
      | Some (inside, "") => inside
      | _ => host
      end
  | _ => host
  end.

Example parse_examples :
  (λ s, u ← Parse s; Some (Scheme u, Host u, Hostname u, EscapedPath u)) <$>
    ["https://a.example:8443/x/y?q#f"; "WSS://u:p@[::1]:80/a%2Fb"; "mailto:x"; "//h/p";
     "http://a b/"; "1:2"; "ldap://h:x"; "/only"] =
  [Some ("https", "a.example:8443", "a.example", "/x/y");
   Some ("wss", "[::1]:80", "::1", "/a%2Fb");
   Some ("mailto", "", "", ""); Some ("", "h", "h", "/p"); None; None; None;
   Some ("", "", "", "/only")].
Proof. vm_compute. reflexivity. Qed.

(** ** Lemmas *)

Lemma unhex_digit n : (n < 16)%N → unhex (upper_hex_digit n) = Some n.
Proof.
  intros Hn.
  pose proof (below_16 (λ n, bool_decide (unhex (upper_hex_digit n) = Some n)) eq_refl n Hn) as Hd.
  by apply bool_decide_eq_true in Hd.
Qed.

Lemma shouldEscape_percent mode : shouldEscape mode "%"%char = true.
Proof. by destruct mode. Qed.

(** What [escape] writes, [unescape] reads back. *)
Lemma unescape_escape mode s :
  is_host_mode mode = false → unescape mode (escape mode s) = Some s.
Proof.
  intros Hmode. induction s as [|c s IH]; [done|]. cbn [escape].
  destruct (shouldEscape mode c) eqn:Hc; cbn [unescape].
  - rewrite Ascii.eqb_refl. pose proof (byte_code_bound c).
    rewrite !unhex_digit by (apply N.mod_lt || apply N.Div0.div_lt_upper_bound; lia).
    cbn [mbind option_bind]. rewrite IH.
    replace (byte_code c / 16 * 16 + byte_code c mod 16)%N with (byte_code c)
      by (rewrite (N.Div0.div_mod (byte_code c) 16) at 1; lia).
    unfold byte_code. rewrite ascii_N_embedding. by destruct mode.
  - destruct (Ascii.eqb_spec c "%"%char) as [->|]; [by rewrite shouldEscape_percent in Hc|].
    rewrite Hmode. simpl. by rewrite IH.
Qed.

(** The bytes [escape encodePath] keeps are those a valid encoding may hold. *)
Lemma setPath_escaped scheme host query p u :
  setPath scheme host query p = Some u → unescape encodePath (EscapedPath u) = Some (Path u).
Proof.
  unfold setPath, EscapedPath. destruct (unescape encodePath p) as [path|] eqn:Hp; [|done].
  cbn. intros [= <-]. cbn.
  destruct (String.eqb_spec p (escape encodePath path)) as [Heq|Hne]; cbn.
  - case_match eqn:Hstar; [apply String.eqb_eq in Hstar; by subst|by apply unescape_escape].
  - case_match eqn:Hraw.
    + apply andb_prop in Hraw as [_ Hraw]. by apply bool_decide_eq_true in Hraw.
    + case_match eqn:Hstar; [apply String.eqb_eq in Hstar; by subst|by apply unescape_escape].
Qed.
