(* ===== verification/Config.v ===== *)
(** * The configuration's data (internal/ports/config/config.go)

    The Go structs as records; a pointer that may be nil is an [option], a slice
    is a list, an [int] is a [Z].  A field [F] of struct [XConfig] is [X_F].  The
    free-form [experimental] map is decoded and never read, and is left out. *)

From S2P Require Import Prelude.

Record DeploymentConfig := { Deployment_Mode : string }.

Record ServerTLSConfig := {
  ServerTLS_Enabled : bool;
  ServerTLS_CertFileRef : string;
  ServerTLS_KeyFileRef : string;
}.

Record ServerConfig := {
  Server_Listen : string;
  Server_PublicBaseURL : string;
  Server_ExposeOperations : bool;
  Server_StateDir : string;
  Server_TLS : ServerTLSConfig;
}.

Record HMACKeyConfig := { HMACKey_KID : string; HMACKey_SecretRef : string }.

Record HMACKeysConfig := {
  HMACKeys_Active : HMACKeyConfig;
  HMACKeys_Previous : option HMACKeyConfig;
}.

Record RelayConfig := {
  Relay_Enabled : bool;
  Relay_URL : string;
  Relay_ReconnectMinMS : Z;
  Relay_ReconnectMaxMS : Z;
}.

Record HeartbeatConfig := {
  Heartbeat_Enabled : bool;
  Heartbeat_URL : string;
  Heartbeat_Transport : string;
  Heartbeat_DisplayName : string;
  Heartbeat_Key : HMACKeyConfig;
  Heartbeat_Previous : option HMACKeyConfig;
  Heartbeat_IntervalMS : Z;
  Heartbeat_TimeoutMS : Z;
}.

Record AuthrimConfig := {
  Authrim_HMACKeys : HMACKeysConfig;
  Authrim_AuditHashSecretRef : string;
  Authrim_Relay : RelayConfig;
  Authrim_Heartbeat : HeartbeatConfig;
}.

Record PagedSearchConfig := {
  PagedSearch_Enabled : bool;
  PagedSearch_PageSize : Z;
  PagedSearch_MaxEntries : Z;
  PagedSearch_TimeoutMS : Z;
}.

Record DirectoryProfileConfig := {
  Profile_Name : string;
  Profile_SubjectAttribute : string;
  Profile_IdentifierAttributes : list string;
  Profile_GroupStrategy : string;
  Profile_StatusNormalization : string;
  Profile_PagedSearch : PagedSearchConfig;
}.

Record LDAPTLSConfig := {
  LDAPTLS_Verify : bool;
  LDAPTLS_ServerName : string;
  LDAPTLS_CAFileRef : string;
  LDAPTLS_StartTLS : bool;
}.

Record ReferralConfig := {
  Referral_Mode : string;
  Referral_AllowedURLs : list string;
  Referral_AllowServiceBindReuse : bool;
}.

Record GroupConfig := {
  Group_Enabled : bool;
  Group_MemberAttribute : string;
  Group_SearchMemberAttribute : string;
  Group_ResponseAttribute : string;
  Group_IDAttribute : string;
  Group_DisplayAttribute : string;
  Group_SearchBaseDN : string;
  Group_MaxDepth : Z;
  Group_MaxGroups : Z;
  Group_TimeoutMS : Z;
}.

Record PoolConfig := { Pool_MaxIdle : Z }.

Record UsernameNormalizationConfig := {
  Normalization_Trim : bool;
  Normalization_Unicode : string;
  Normalization_Case : string;
  Normalization_RejectDomainMismatch : bool;
}.

Record UsernameConfig := {
  Username_AllowedFormats : list string;
  Username_AllowedDomains : list string;
  Username_AllowedUPNSuffixes : list string;
  Username_Normalization : UsernameNormalizationConfig;
}.

Record LDAPConfig := {
  LDAP_URL : string;
  LDAP_URLs : list string;
  LDAP_TLS : LDAPTLSConfig;
  LDAP_DirectoryProfile : DirectoryProfileConfig;
  LDAP_LookupMode : string;
  LDAP_Username : UsernameConfig;
  LDAP_BindDN : string;
  LDAP_BindPasswordRef : string;
  LDAP_BaseDN : string;
  LDAP_DNTemplate : string;
  LDAP_UserFilter : string;
  LDAP_FilterTemplateMode : string;
  LDAP_Attributes : list string;
  LDAP_Referrals : ReferralConfig;
  LDAP_Groups : GroupConfig;
  LDAP_Pool : PoolConfig;
}.

Record TimeoutConfig := {
  Timeout_LDAPConnectMS : Z;
  Timeout_LDAPBindMS : Z;
  Timeout_LDAPSearchMS : Z;
  Timeout_RequestMS : Z;
}.

Record ProtectionConfig := {
  Protection_MaxConcurrentRequests : Z;
  Protection_StormWindowMS : Z;
  Protection_StormBlockMS : Z;
  Protection_MalformedRequestLimit : Z;
  Protection_ReplayLimit : Z;
  Protection_DirectoryErrorLimit : Z;
}.

Record TenantConfig := {
  Tenant_TenantID : string;
  Tenant_ConnectorID : string;
  Tenant_Authrim : AuthrimConfig;
  Tenant_LDAP : LDAPConfig;
  Tenant_Timeouts : TimeoutConfig;
  Tenant_Protection : ProtectionConfig;
}.

Record Config := {
  Config_Deployment : DeploymentConfig;
  Config_Server : ServerConfig;
  Config_Tenants : list TenantConfig;
}.
