(* ===== verification/Secrets.v ===== *)
(** * Secret references (internal/ports/secrets, internal/adapters/secrets)

    The environment and the file system are functions: [None] is a variable that
    is not set or a file that cannot be read. *)

From S2P Require Import Prelude GoStrings.

Record SecretRef := { Ref_Scheme : string; Ref_Name : string; Ref_Raw : string }.

Inductive ref_error :=
| EmptyRef
| InvalidRef (raw : string)
| UnsupportedScheme (scheme : string).

#[export] Instance ref_error_eq_dec : EqDecision ref_error.
Proof. solve_decision. Defined.

(** The text of the error. *)
Definition ref_error_text `{UnicodeTables} (e : ref_error) : string :=
  match e with
  | EmptyRef => "secret reference is empty"
  | InvalidRef raw => "invalid secret reference " +:+ go_quote raw
  | UnsupportedScheme scheme => "unsupported secret reference scheme " +:+ go_quote scheme
  end.

Definition ParseRef (raw : string) : result ref_error SecretRef :=
  if (raw =? "")%string then Err EmptyRef
  else
    match cut_byte ":"%char raw with
    | None => Err (InvalidRef raw)
    | Some (scheme, name) =>
        if (scheme =? "")%string || (name =? "")%string then Err (InvalidRef raw)
        else if (scheme =? "env")%string || (scheme =? "file")%string
        then Ok {| Ref_Scheme := scheme; Ref_Name := name; Ref_Raw := raw |}
        else Err (UnsupportedScheme scheme)
    end.

Inductive resolve_error :=
| NotSet (name : string)
| Unreadable (name : string)
| UnsupportedRefScheme (scheme : string).

Section resolver.
Variable getenv readFile : string → option string.

Definition ResolveSecret (ref : SecretRef) : result resolve_error string :=
  if (Ref_Scheme ref =? "env")%string then
    match getenv (Ref_Name ref) with
    | Some value => Ok value
    | None => Err (NotSet (Ref_Name ref))
    end
  else if (Ref_Scheme ref =? "file")%string then
    match readFile (Ref_Name ref) with
    | Some value => Ok value
    | None => Err (Unreadable (Ref_Name ref))
    end
  else Err (UnsupportedRefScheme (Ref_Scheme ref)).
End resolver.

(** ** Lemmas *)

Lemma cut_byte_app c s a b : cut_byte c s = Some (a, b) ↔ s = a +:+ String c b ∧ lacks c a = true.
Proof.
  revert a. induction s as [|d s IH]; intros a; simpl.
  - split; [done|]. intros [Heq _]. by destruct a.
  - destruct (Ascii.eqb_spec c d) as [<-|Hne].
    + split; [by intros [= <- <-]|]. destruct a as [|e a]; [by intros [[= ->] _]|].
      rewrite append_cons, lacks_cons. intros [[= <- _] Hl].
      by rewrite Ascii.eqb_refl in Hl.
    + destruct (cut_byte c s) as [[a' b']|] eqn:Hcut.
      * split.
        -- intros [= <- <-]. destruct (IH a') as [IH1 _]. destruct (IH1 eq_refl) as [-> Hl].
           rewrite append_cons, lacks_cons, Hl. split; [done|].
           by destruct (Ascii.eqb_spec c d).
        -- destruct a as [|e a]; [intros [[= <-] _]; done|].
           rewrite append_cons, lacks_cons. intros [[= <- Hs] Hl%andb_prop].
           destruct (IH a) as [_ IH2]. destruct Hl as [_ Hl]. by injection (IH2 (conj Hs Hl)) as <- <-.
      * split; [done|]. destruct a as [|e a]; [intros [[= <-] _]; done|].
        rewrite append_cons, lacks_cons. intros [[= <- Hs] Hl%andb_prop].
        destruct (IH a) as [_ IH2]. destruct Hl as [_ Hl]. by discriminate (IH2 (conj Hs Hl)).
Qed.

(** What a usable reference looks like. *)
Definition usable_ref (raw scheme name : string) : Prop :=
  raw = scheme +:+ ":" +:+ name ∧ (scheme = "env" ∨ scheme = "file") ∧ name ≠ "".

Lemma ParseRef_usable raw ref :
  ParseRef raw = Ok ref ↔
  Ref_Raw ref = raw ∧ usable_ref raw (Ref_Scheme ref) (Ref_Name ref).
Proof.
  unfold ParseRef, usable_ref. split.
  - intros Hp. case_match; [done|]. case_match eqn:Hcut; [|done].
    case_match; simplify_eq. case_match eqn:He; [done|]. case_match eqn:Hs; [|done].
    simplify_eq. simpl. apply cut_byte_app in Hcut as [-> _].
    apply orb_false_iff in He as [_ Hn%String.eqb_neq].
    apply orb_true_iff in Hs as [Hs%String.eqb_eq|Hs%String.eqb_eq]; subst; eauto.
  - destruct ref as [scheme name raw']. simpl. intros (-> & -> & Hs & Hn%String.eqb_neq).
    assert (lacks ":"%char scheme = true) as Hl by (by destruct Hs as [-> | ->]).
    change (scheme +:+ ":" +:+ name) with (scheme +:+ String ":"%char name).
    rewrite (proj2 (cut_byte_app ":"%char _ scheme name) (conj eq_refl Hl)), Hn.
    by destruct Hs as [-> | ->].
Qed.

(** A secret reference is accepted exactly when it reads [env:<name>] or
    [file:<name>] with a name; resolving the parsed reference then reads that
    environment variable or that file, and nothing else: the secret is its
    exact content, and a missing one is an error, never an empty secret. *)
Theorem secret_reference_correct (getenv readFile : string → option string) (raw : string)
    (ref : SecretRef) (value : string) :
  ParseRef raw = Ok ref ∧ ResolveSecret getenv readFile ref = Ok value ↔
  Ref_Raw ref = raw ∧ usable_ref raw (Ref_Scheme ref) (Ref_Name ref) ∧
  (Ref_Scheme ref = "env" ∧ getenv (Ref_Name ref) = Some value ∨
   Ref_Scheme ref = "file" ∧ readFile (Ref_Name ref) = Some value).
Proof.
  rewrite ParseRef_usable. split.
  - intros [[Hraw Hu] H]. split_and!; [done..|].
    destruct Hu as (_ & [Hs|Hs] & _); unfold ResolveSecret in H; rewrite Hs in H; simpl in H;
      case_match; simplify_eq; naive_solver.
  - intros (Hraw & Hu & H). split; [done|]. unfold ResolveSecret.
    by destruct H as [[-> ->]|[-> ->]].
Qed.
