(* ===== verification/Defaults.v ===== *)
(** * Configuration defaults (internal/ports/config/config.go, applyDefaults)

    A field left at its zero value gets its default; any other value is kept. *)

From S2P Require Import Prelude GoStrings Config.
Local Open Scope Z_scope.

(** [if field == "" { field = d }], [if field == 0 { field = d }] and
    [if len(field) == 0 { field = d }] *)
Definition or_string (s d : string) : string := if (s =? "")%string then d else s.
Definition or_int (n d : Z) : Z := if n =? 0 then d else n.
Definition or_list (l d : list string) : list string := if empty_list l then d else l.

Definition profile_with (name subject : string)
    (identifiers : list string) (strategy status : string) (paged : PagedSearchConfig)
    : DirectoryProfileConfig := {|
  Profile_Name := name;
  Profile_SubjectAttribute := subject;
  Profile_IdentifierAttributes := identifiers;
  Profile_GroupStrategy := strategy;
  Profile_StatusNormalization := status;
  Profile_PagedSearch := paged |}.

Definition applyDirectoryProfileDefaults (p : DirectoryProfileConfig) : DirectoryProfileConfig :=
  let name := or_string (Profile_Name p) "generic" in
  if (name =? "active_directory")%string then
    profile_with name
      (or_string (Profile_SubjectAttribute p) "objectGUID")
      (or_list (Profile_IdentifierAttributes p) ["sAMAccountName"; "userPrincipalName"; "mail"])
      (or_string (Profile_GroupStrategy p) "ad_matching_rule")
      (or_string (Profile_StatusNormalization p) "active_directory")
      (Profile_PagedSearch p)
  else if (name =? "openldap")%string then
    profile_with name
      (or_string (Profile_SubjectAttribute p) "entryUUID")
      (or_list (Profile_IdentifierAttributes p) ["uid"; "mail"])
      (or_string (Profile_GroupStrategy p) "member_attribute_only")
      (or_string (Profile_StatusNormalization p) "generic")
      (Profile_PagedSearch p)
  else if (name =? "generic")%string then
    profile_with name
      (Profile_SubjectAttribute p) (Profile_IdentifierAttributes p)
      (or_string (Profile_GroupStrategy p) "member_attribute_only")
      (or_string (Profile_StatusNormalization p) "generic")
      (Profile_PagedSearch p)
  else
    profile_with name (Profile_SubjectAttribute p) (Profile_IdentifierAttributes p)
      (Profile_GroupStrategy p) (Profile_StatusNormalization p) (Profile_PagedSearch p).

(** Lines 252-262 *)
Definition paged_defaults (p : PagedSearchConfig) : PagedSearchConfig :=
  if PagedSearch_Enabled p then {|
    PagedSearch_Enabled := true;
    PagedSearch_PageSize := or_int (PagedSearch_PageSize p) 500;
    PagedSearch_MaxEntries := or_int (PagedSearch_MaxEntries p) 5000;
    PagedSearch_TimeoutMS := or_int (PagedSearch_TimeoutMS p) 3000 |}
  else p.

(** Lines 224-251: the search attribute falls back on the member attribute,
    itself already defaulted. *)
Definition group_defaults (strategy : string) (g : GroupConfig) : GroupConfig :=
  let member := or_string (Group_MemberAttribute g) "memberOf" in {|
  Group_Enabled := Group_Enabled g;
  Group_MemberAttribute := member;
  Group_SearchMemberAttribute :=
    or_string (Group_SearchMemberAttribute g)
      (if (strategy =? "ad_matching_rule")%string then "member" else member);
  Group_ResponseAttribute := or_string (Group_ResponseAttribute g) "groups";
  Group_IDAttribute := or_string (Group_IDAttribute g) "cn";
  Group_DisplayAttribute := or_string (Group_DisplayAttribute g) "cn";
  Group_SearchBaseDN := Group_SearchBaseDN g;
  Group_MaxDepth := or_int (Group_MaxDepth g) 1;
  Group_MaxGroups := or_int (Group_MaxGroups g) 100;
  Group_TimeoutMS := or_int (Group_TimeoutMS g) 1000 |}.

Definition ldap_defaults (l : LDAPConfig) : LDAPConfig :=
  let profile := applyDirectoryProfileDefaults (LDAP_DirectoryProfile l) in {|
  LDAP_URL := LDAP_URL l;
  LDAP_URLs := LDAP_URLs l;
  LDAP_TLS := LDAP_TLS l;
  LDAP_DirectoryProfile :=
    profile_with (Profile_Name profile) (Profile_SubjectAttribute profile)
      (Profile_IdentifierAttributes profile) (Profile_GroupStrategy profile)
      (Profile_StatusNormalization profile) (paged_defaults (Profile_PagedSearch profile));
  LDAP_LookupMode := or_string (LDAP_LookupMode l) "search_then_bind";
  LDAP_Username := LDAP_Username l;
  LDAP_BindDN := LDAP_BindDN l;
  LDAP_BindPasswordRef := LDAP_BindPasswordRef l;
  LDAP_BaseDN := LDAP_BaseDN l;
  LDAP_DNTemplate := LDAP_DNTemplate l;
  LDAP_UserFilter := LDAP_UserFilter l;
  LDAP_FilterTemplateMode := or_string (LDAP_FilterTemplateMode l) "builtin_or_template";
  LDAP_Attributes := LDAP_Attributes l;
  LDAP_Referrals := {|
    Referral_Mode := or_string (Referral_Mode (LDAP_Referrals l)) "disabled";
    Referral_AllowedURLs := Referral_AllowedURLs (LDAP_Referrals l);
    Referral_AllowServiceBindReuse := Referral_AllowServiceBindReuse (LDAP_Referrals l) |};
  LDAP_Groups := group_defaults (Profile_GroupStrategy profile) (LDAP_Groups l);
  LDAP_Pool := LDAP_Pool l |}.

Definition authrim_defaults (a : AuthrimConfig) : AuthrimConfig :=
  let relay := Authrim_Relay a in
  let heartbeat := Authrim_Heartbeat a in {|
  Authrim_HMACKeys := Authrim_HMACKeys a;
  Authrim_AuditHashSecretRef := Authrim_AuditHashSecretRef a;
  Authrim_Relay := {|
    Relay_Enabled := Relay_Enabled relay;
    Relay_URL := Relay_URL relay;
    Relay_ReconnectMinMS := or_int (Relay_ReconnectMinMS relay) 1000;
    Relay_ReconnectMaxMS := or_int (Relay_ReconnectMaxMS relay) 30000 |};
  Authrim_Heartbeat := {|
    Heartbeat_Enabled := Heartbeat_Enabled heartbeat;
    Heartbeat_URL := Heartbeat_URL heartbeat;
    Heartbeat_Transport := or_string (Heartbeat_Transport heartbeat) "direct";
    Heartbeat_DisplayName := Heartbeat_DisplayName heartbeat;
    Heartbeat_Key := Heartbeat_Key heartbeat;
    Heartbeat_Previous := Heartbeat_Previous heartbeat;
    Heartbeat_IntervalMS := or_int (Heartbeat_IntervalMS heartbeat) 300000;
    Heartbeat_TimeoutMS := or_int (Heartbeat_TimeoutMS heartbeat) 5000 |} |}.

Definition tenant_defaults (t : TenantConfig) : TenantConfig :=
  let timeouts := Tenant_Timeouts t in
  let protection := Tenant_Protection t in {|
  Tenant_TenantID := Tenant_TenantID t;
  Tenant_ConnectorID := Tenant_ConnectorID t;
  Tenant_Authrim := authrim_defaults (Tenant_Authrim t);
  Tenant_LDAP := ldap_defaults (Tenant_LDAP t);
  Tenant_Timeouts := {|
    Timeout_LDAPConnectMS := or_int (Timeout_LDAPConnectMS timeouts) 500;
    Timeout_LDAPBindMS := or_int (Timeout_LDAPBindMS timeouts) 1500;
    Timeout_LDAPSearchMS := or_int (Timeout_LDAPSearchMS timeouts) 1000;
    Timeout_RequestMS := or_int (Timeout_RequestMS timeouts) 2500 |};
  Tenant_Protection := {|
    Protection_MaxConcurrentRequests := or_int (Protection_MaxConcurrentRequests protection) 8;
    Protection_StormWindowMS := or_int (Protection_StormWindowMS protection) 10000;
    Protection_StormBlockMS := or_int (Protection_StormBlockMS protection) 30000;
    Protection_MalformedRequestLimit := or_int (Protection_MalformedRequestLimit protection) 20;
    Protection_ReplayLimit := or_int (Protection_ReplayLimit protection) 10;
    Protection_DirectoryErrorLimit := or_int (Protection_DirectoryErrorLimit protection) 5 |} |}.

Definition applyDefaults (cfg : Config) : Config := {|
  Config_Deployment :=
    {| Deployment_Mode := or_string (Deployment_Mode (Config_Deployment cfg)) "single_tenant" |};
  Config_Server := {|
    Server_Listen := or_string (Server_Listen (Config_Server cfg)) "127.0.0.1:8080";
    Server_PublicBaseURL := Server_PublicBaseURL (Config_Server cfg);
    Server_ExposeOperations := Server_ExposeOperations (Config_Server cfg);
    Server_StateDir := or_string (Server_StateDir (Config_Server cfg)) ".authrim-wordwarden";
    Server_TLS := Server_TLS (Config_Server cfg) |};
  Config_Tenants := tenant_defaults <$> Config_Tenants cfg |}.

(** ** Lemmas *)

Lemma or_string_idem s d d' : d ≠ "" → or_string (or_string s d) d' = or_string s d.
Proof. unfold or_string. intros. repeat case_match; bool_to_prop; congruence. Qed.

Lemma or_int_idem n d d' : d ≠ 0 → or_int (or_int n d) d' = or_int n d.
Proof. unfold or_int. intros. repeat case_match; bool_to_prop; congruence. Qed.

Lemma or_list_idem l d d' : d ≠ [] → or_list (or_list l d) d' = or_list l d.
Proof. by destruct l, d. Qed.

Lemma or_string_ne s d : d ≠ "" → or_string s d ≠ "".
Proof. unfold or_string. intros. case_match; bool_to_prop; congruence. Qed.

Lemma or_int_ne n d : d ≠ 0 → or_int n d ≠ 0.
Proof. unfold or_int. intros. case_match; bool_to_prop; congruence. Qed.

Lemma or_string_keeps s d : s ≠ "" → or_string s d = s.
Proof. unfold or_string. intros. by destruct (String.eqb_spec s ""). Qed.

Create Rewrite HintDb ww_defaults.
#[export] Hint Rewrite or_string_idem or_int_idem or_list_idem using done : ww_defaults.

Lemma profile_defaults_idem p :
  applyDirectoryProfileDefaults (applyDirectoryProfileDefaults p) = applyDirectoryProfileDefaults p.
Proof.
  unfold applyDirectoryProfileDefaults, profile_with.
  repeat (case_match; simplify_eq/=); autorewrite with ww_defaults in *;
    bool_to_prop; try congruence; f_equal; by autorewrite with ww_defaults.
Qed.

Lemma paged_defaults_idem p : paged_defaults (paged_defaults p) = paged_defaults p.
Proof.
  unfold paged_defaults. destruct (PagedSearch_Enabled p) eqn:He; simpl; [|by rewrite He].
  f_equal; by autorewrite with ww_defaults.
Qed.

Lemma group_defaults_idem strategy g :
  group_defaults strategy (group_defaults strategy g) = group_defaults strategy g.
Proof.
  unfold group_defaults. simpl. f_equal; autorewrite with ww_defaults; try done.
  apply or_string_idem. case_match; [done|]. by apply or_string_ne.
Qed.

Lemma ldap_defaults_idem l : ldap_defaults (ldap_defaults l) = ldap_defaults l.
Proof.
  assert (∀ p q, applyDirectoryProfileDefaults (profile_with
            (Profile_Name (applyDirectoryProfileDefaults p))
            (Profile_SubjectAttribute (applyDirectoryProfileDefaults p))
            (Profile_IdentifierAttributes (applyDirectoryProfileDefaults p))
            (Profile_GroupStrategy (applyDirectoryProfileDefaults p))
            (Profile_StatusNormalization (applyDirectoryProfileDefaults p)) q) =
          profile_with
            (Profile_Name (applyDirectoryProfileDefaults p))
            (Profile_SubjectAttribute (applyDirectoryProfileDefaults p))
            (Profile_IdentifierAttributes (applyDirectoryProfileDefaults p))
            (Profile_GroupStrategy (applyDirectoryProfileDefaults p))
            (Profile_StatusNormalization (applyDirectoryProfileDefaults p)) q) as Hp.
  { intros p q. pose proof (profile_defaults_idem p) as Hidem.
    destruct (applyDirectoryProfileDefaults p). revert Hidem.
    unfold applyDirectoryProfileDefaults, profile_with. simpl.
    repeat case_match; intros [=]; f_equal; congruence. }
  unfold ldap_defaults. simpl. rewrite !Hp. simpl.
  f_equal; autorewrite with ww_defaults; try done.
  - by rewrite paged_defaults_idem.
  - apply group_defaults_idem.
Qed.

(** Applying the defaults twice is applying them once: every default is a
    value that needs no default, also where one default depends on another (the
    directory profile, the group strategy and the group search attribute). *)
Theorem applyDefaults_idempotent (cfg : Config) : applyDefaults (applyDefaults cfg) = applyDefaults cfg.
Proof.
  unfold applyDefaults. simpl. f_equal; autorewrite with ww_defaults; try done.
  rewrite <-list_fmap_compose. apply list_fmap_ext. intros _ t _. simpl.
  unfold tenant_defaults. simpl. rewrite ldap_defaults_idem. unfold authrim_defaults. simpl.
  by autorewrite with ww_defaults.
Qed.
