(* ===== verification/Validate.v ===== *)
(** * Configuration validation (internal/ports/config/config.go, Validate)

    Each validator returns the problems it appends, in order; [Validate] fails
    with their text joined by newlines when there is one.  [fmt.Sprintf("%d")] on
    an index is [pretty]. *)

From S2P Require Import Prelude GoStrings Url Config Secrets Defaults.
Local Open Scope Z_scope.

Abbreviation problems := (list string).

(** [if cond { problems = append(problems, text) }] *)
Definition problem (cond : bool) (text : string) : problems := if cond then [text] else [].

Definition indexed (prefix : string) (i : nat) : string :=
  prefix +:+ "[" +:+ pretty (N.of_nat i) +:+ "]".

(** A loop over a slice with its index. *)
Fixpoint for_range {A} (body : nat → A → problems) (i : nat) (l : list A) : problems :=
  match l with
  | [] => []
  | x :: l => body i x ++ for_range body (S i) l
  end.

(** [s] has a substring equal to [sub]. *)
Fixpoint contains (s sub : string) : bool :=
  has_prefix s sub ||
  match s with
  | EmptyString => false
  | String _ s => contains s sub
  end.

(** [strings.Trim(s, "/")] *)
Fixpoint trim_slashes_left (s : string) : string :=
  match s with
  | String "/" s => trim_slashes_left s
  | _ => s
  end.
Fixpoint trim_slashes_right (s : string) : string :=
  match s with
  | EmptyString => EmptyString
  | String c s =>
      match trim_slashes_right s with
      | EmptyString => if Ascii.eqb c "/"%char then EmptyString else String c EmptyString
      | t => String c t
      end
  end.
Definition trim_slashes (s : string) : string := trim_slashes_right (trim_slashes_left s).

(** [^wwcon_[A-Za-z0-9]{16}$] *)
Definition connectorIDPattern (s : string) : bool :=
  has_prefix s "wwcon_" && (String.length s =? 22)%nat && string_all is_alnum (drop_bytes 6 s).

(** [^[A-Za-z][A-Za-z0-9-]*(;[A-Za-z0-9-]+)*$]: a name, then options after
    semicolons. *)
Definition attribute_byte (c : ascii) : bool := is_alnum c || Ascii.eqb c "-"%char.
Definition validLDAPAttributeDescription (value : string) : bool :=
  match split_byte ";"%char value with
  | String c name :: options =>
      (is_upper c || is_lower c) && string_all attribute_byte name &&
      forallb (λ o, negb (o =? "")%string && string_all attribute_byte o) options
  | _ => false
  end.

Section validate.
Context `{UnicodeTables}.

(** ** References *)

Definition validateSecretRef (field raw : string) : problems :=
  match ParseRef raw with
  | Ok _ => []
  | Err e => [field +:+ ": " +:+ ref_error_text e]
  end.

Definition validateOptionalSecretRef (field raw : string) : problems :=
  if (raw =? "")%string then [] else validateSecretRef field raw.

Definition validateFileRef (field raw : string) (required : bool) : problems :=
  if (raw =? "")%string then problem required (field +:+ " is required")
  else problem (negb (has_prefix raw "file:") || (trim_prefix raw "file:" =? "")%string)
         (field +:+ " must use file:<path>").

(** ** Small groups of fields *)

Definition validateProtection (prefix : string) (p : ProtectionConfig) : problems :=
  problem (Protection_StormWindowMS p <=? 0) (prefix +:+ ".storm_window_ms must be positive") ++
  problem (Protection_StormBlockMS p <=? 0) (prefix +:+ ".storm_block_ms must be positive") ++
  problem (Protection_MalformedRequestLimit p <=? 0)
    (prefix +:+ ".malformed_request_limit must be positive") ++
  problem (Protection_ReplayLimit p <=? 0) (prefix +:+ ".replay_limit must be positive") ++
  problem (Protection_DirectoryErrorLimit p <=? 0)
    (prefix +:+ ".directory_error_limit must be positive").

Definition validatePool (prefix : string) (p : PoolConfig) : problems :=
  problem (Pool_MaxIdle p <? 0) (prefix +:+ ".max_idle must be zero or positive").

Definition validateTimeouts (prefix : string) (t : TimeoutConfig) : problems :=
  problem (Timeout_LDAPConnectMS t <=? 0) (prefix +:+ ".ldap_connect_ms must be positive") ++
  problem (Timeout_LDAPSearchMS t <=? 0) (prefix +:+ ".ldap_search_ms must be positive") ++
  problem (Timeout_LDAPBindMS t <=? 0) (prefix +:+ ".ldap_bind_ms must be positive") ++
  problem (Timeout_RequestMS t <=? 0) (prefix +:+ ".request_ms must be positive").

Definition in_strings (s : string) (l : list string) : bool := existsb (String.eqb s) l.

Definition validateUsername (prefix : string) (u : UsernameConfig) : problems :=
  mjoin ((λ format, problem (negb (in_strings format ["local_part"; "email"; "upn"]))
            (prefix +:+ ".allowed_formats contains unsupported format " +:+ format))
           <$> Username_AllowedFormats u) ++
  problem (negb (in_strings (Normalization_Unicode (Username_Normalization u)) [""; "NFKC"]))
    (prefix +:+ ".normalization.unicode must be empty or NFKC") ++
  problem (negb (in_strings (Normalization_Case (Username_Normalization u)) [""; "lower"]))
    (prefix +:+ ".normalization.case must be empty or lower").

(** [if v <= 0 { positive } else if v > max { bounded }] *)
Definition bounded_int (v max : Z) (positive bounded : string) : problems :=
  if v <=? 0 then [positive] else problem (max <? v) bounded.

(** [if v == "" { required } else if !valid(v) { safe }] *)
Definition attribute_field (v required safe : string) : problems :=
  if (v =? "")%string then [required]
  else problem (negb (validLDAPAttributeDescription v)) safe.

Definition validateGroups (prefix : string) (g : GroupConfig) : problems :=
  if negb (Group_Enabled g) then []
  else
    attribute_field (Group_MemberAttribute g)
      (prefix +:+ ".member_attribute is required when groups.enabled is true")
      (prefix +:+ ".member_attribute must be a safe LDAP attribute description") ++
    attribute_field (Group_SearchMemberAttribute g)
      (prefix +:+ ".search_member_attribute is required when groups.enabled is true")
      (prefix +:+ ".search_member_attribute must be a safe LDAP attribute description") ++
    attribute_field (Group_ResponseAttribute g)
      (prefix +:+ ".response_attribute is required when groups.enabled is true")
      (prefix +:+ ".response_attribute must be a safe LDAP attribute description") ++
    attribute_field (Group_IDAttribute g)
      (prefix +:+ ".id_attribute is required when groups.enabled is true")
      (prefix +:+ ".id_attribute must be a safe LDAP attribute description") ++
    attribute_field (Group_DisplayAttribute g)
      (prefix +:+ ".display_attribute is required when groups.enabled is true")
      (prefix +:+ ".display_attribute must be a safe LDAP attribute description") ++
    bounded_int (Group_MaxDepth g) 20
      (prefix +:+ ".max_depth must be positive when groups.enabled is true")
      (prefix +:+ ".max_depth must be 20 or less") ++
    bounded_int (Group_MaxGroups g) 10000
      (prefix +:+ ".max_groups must be positive when groups.enabled is true")
      (prefix +:+ ".max_groups must be 10000 or less") ++
    bounded_int (Group_TimeoutMS g) 60000
      (prefix +:+ ".timeout_ms must be positive when groups.enabled is true")
      (prefix +:+ ".timeout_ms must be 60000 or less").

Definition validateDirectoryProfile (prefix : string) (p : DirectoryProfileConfig) : problems :=
  problem (negb (in_strings (Profile_Name p) ["active_directory"; "openldap"; "generic"]))
    (prefix +:+ ".name must be active_directory, openldap, or generic") ++
  for_range (λ i attribute,
    let field := indexed (prefix +:+ ".identifier_attributes") i in
    if (trim_space attribute =? "")%string then [field +:+ " must not be empty"]
    else problem (negb (validLDAPAttributeDescription attribute))
           (field +:+ " must be a safe LDAP attribute description"))
    0 (Profile_IdentifierAttributes p) ++
  problem (negb (Profile_SubjectAttribute p =? "")%string &&
           negb (validLDAPAttributeDescription (Profile_SubjectAttribute p)))
    (prefix +:+ ".subject_attribute must be a safe LDAP attribute description") ++
  problem (negb (in_strings (Profile_GroupStrategy p)
                   ["member_attribute_only"; "ad_matching_rule"; "bfs_member_search"]))
    (prefix +:+ ".group_strategy must be member_attribute_only, ad_matching_rule, or bfs_member_search") ++
  problem (negb (in_strings (Profile_StatusNormalization p) ["generic"; "active_directory"]))
    (prefix +:+ ".status_normalization must be generic or active_directory") ++
  let paged := Profile_PagedSearch p in
  if PagedSearch_Enabled paged then
    bounded_int (PagedSearch_PageSize paged) 10000
      (prefix +:+ ".paged_search.page_size must be positive when paged search is enabled")
      (prefix +:+ ".paged_search.page_size must be 10000 or less") ++
    bounded_int (PagedSearch_MaxEntries paged) 100000
      (prefix +:+ ".paged_search.max_entries must be positive when paged search is enabled")
      (prefix +:+ ".paged_search.max_entries must be 100000 or less") ++
    bounded_int (PagedSearch_TimeoutMS paged) 60000
      (prefix +:+ ".paged_search.timeout_ms must be positive when paged search is enabled")
      (prefix +:+ ".paged_search.timeout_ms must be 60000 or less")
  else [].

(** ** Directory URLs *)

Definition ldapEndpointURLs (l : LDAPConfig) : list string :=
  (if (LDAP_URL l =? "")%string then [] else [LDAP_URL l]) ++ LDAP_URLs l.

(** The tests on a parsed URL, in the order both loops make them; the scheme
    problem is worded differently in the two. *)
Definition ldap_url_problems (field scheme_text : string) (startTLS : bool) (raw : string) : problems :=
  match Parse raw with
  | None => [field +:+ " must include ldap:// or ldaps:// scheme"]
  | Some parsed =>
      if (Scheme parsed =? "")%string then [field +:+ " must include ldap:// or ldaps:// scheme"]
      else if (Host parsed =? "")%string then [field +:+ " must include host"]
      else if negb (Scheme parsed =? "ldap")%string && negb (Scheme parsed =? "ldaps")%string
      then [field +:+ scheme_text]
      else if startTLS then
        problem (negb (Scheme parsed =? "ldap")%string)
          (field +:+ " must use ldap:// when tls.start_tls is true")
      else
        problem (negb (Scheme parsed =? "ldaps")%string)
          (field +:+ " must use ldaps:// unless tls.start_tls is true")
  end.

(** The loop over the endpoints, with those seen so far. *)
Fixpoint ldap_urls_loop (prefix : string) (many startTLS : bool) (i : nat) (seen : list string)
    (urls : list string) : problems :=
  match urls with
  | [] => []
  | raw :: urls =>
      let field := if (0 <? i)%nat || many then indexed (prefix +:+ ".urls") i
                   else prefix +:+ ".url" in
      if (raw =? "")%string then
        (field +:+ " must not be empty") :: ldap_urls_loop prefix many startTLS (S i) seen urls
      else if in_strings raw seen then
        (field +:+ " must be unique") :: ldap_urls_loop prefix many startTLS (S i) seen urls
      else
        ldap_url_problems field " must use ldap:// or ldaps:// scheme" startTLS raw ++
        ldap_urls_loop prefix many startTLS (S i) (raw :: seen) urls
  end.

Definition validateLDAPURLs (prefix : string) (l : LDAPConfig) : problems :=
  let urls := ldapEndpointURLs l in
  if empty_list urls then [prefix +:+ ".url or " +:+ prefix +:+ ".urls is required"]
  else ldap_urls_loop prefix (negb (empty_list (LDAP_URLs l))) (LDAPTLS_StartTLS (LDAP_TLS l))
         0 [] urls.

Definition validateReferrals (prefix : string) (r : ReferralConfig) (startTLS : bool) : problems :=
  if (Referral_Mode r =? "disabled")%string then
    problem (negb (empty_list (Referral_AllowedURLs r)))
      (prefix +:+ ".allowed_urls must be empty when mode is disabled") ++
    problem (Referral_AllowServiceBindReuse r)
      (prefix +:+ ".allow_service_bind_reuse must be false when mode is disabled")
  else if (Referral_Mode r =? "allowlist")%string then
    problem (empty_list (Referral_AllowedURLs r))
      (prefix +:+ ".allowed_urls is required when mode is allowlist") ++
    for_range (λ i raw,
      ldap_url_problems (indexed (prefix +:+ ".allowed_urls") i)
        " must use ldap:// or ldaps://" startTLS raw)
      0 (Referral_AllowedURLs r)
  else [prefix +:+ ".mode must be disabled or allowlist"].

(** ** Service URLs *)

Definition local_host (host : string) : bool := in_strings host ["localhost"; "127.0.0.1"; "::1"].

(** [secure] is the scheme to use, [plain] the one for local development. *)
Definition scheme_problems (secure plain text : string) (u : URL) : problems :=
  if (Scheme u =? secure)%string then []
  else if (Scheme u =? plain)%string then problem (negb (local_host (Hostname u))) text
  else [text].

(** The path ends in four fixed segments, the tenant and the connector. *)
Definition path_ids (endpoint : string) (u : URL) : option (string * string) :=
  match rev (split_byte "/"%char (trim_slashes (EscapedPath u))) with
  | connector :: tenant :: d :: c :: b :: a :: _ =>
      if (join "/" [a; b; c; d] =? endpoint)%string then Some (tenant, connector) else None
  | _ => None
  end.

Definition id_problems (name expected segment_text match_text : string) : problems :=
  match PathUnescape name with
  | None => [segment_text]
  | Some raw => problem (negb (raw =? expected)%string) match_text
  end.

Definition binding_problems (field tenantID connectorID tenant connector : string) : problems :=
  id_problems tenant tenantID (field +:+ " tenant_id path segment is invalid")
    (field +:+ " tenant_id must match tenant_id") ++
  id_problems connector connectorID (field +:+ " connector_id path segment is invalid")
    (field +:+ " connector_id must match connector_id").

Definition validateHeartbeatURL (field raw tenantID connectorID : string) : problems :=
  match Parse raw with
  | None => [field +:+ " must be a valid URL"]
  | Some parsed =>
      if (Host parsed =? "")%string then [field +:+ " must be a valid URL"]
      else
        scheme_problems "https" "http"
          (field +:+ " must use https:// except http://localhost for local development") parsed ++
        match path_ids "api/auth/directory-connectors/heartbeat" parsed with
        | None => [field +:+ " must include /api/auth/directory-connectors/heartbeat/{tenant_id}/{connector_id}"]
        | Some (tenant, connector) => binding_problems field tenantID connectorID tenant connector
        end
  end.

Definition validateHeartbeat (prefix : string) (h : HeartbeatConfig) (tenantID connectorID : string)
    : problems :=
  problem (negb (in_strings (Heartbeat_Transport h) ["direct"; "tunnel"; "relay"]))
    (prefix +:+ ".transport must be direct, tunnel, or relay") ++
  if negb (Heartbeat_Enabled h) then []
  else
    (if (Heartbeat_URL h =? "")%string
     then [prefix +:+ ".url is required when heartbeat is enabled"]
     else validateHeartbeatURL (prefix +:+ ".url") (Heartbeat_URL h) tenantID connectorID) ++
    problem (HMACKey_KID (Heartbeat_Key h) =? "")%string
      (prefix +:+ ".key.kid is required when heartbeat is enabled") ++
    validateSecretRef (prefix +:+ ".key.secret_ref") (HMACKey_SecretRef (Heartbeat_Key h)) ++
    match Heartbeat_Previous h with
    | None => []
    | Some previous =>
        problem (HMACKey_KID previous =? "")%string (prefix +:+ ".previous.kid is required") ++
        validateSecretRef (prefix +:+ ".previous.secret_ref") (HMACKey_SecretRef previous)
    end ++
    problem ((Heartbeat_IntervalMS h <? 30000) || (86400000 <? Heartbeat_IntervalMS h))
      (prefix +:+ ".interval_ms must be between 30000 and 86400000") ++
    problem ((Heartbeat_TimeoutMS h <? 100) || (30000 <? Heartbeat_TimeoutMS h))
      (prefix +:+ ".timeout_ms must be between 100 and 30000").

Definition validateRelay (prefix : string) (r : RelayConfig) (tenantID connectorID : string) : problems :=
  if negb (Relay_Enabled r) then []
  else if (Relay_URL r =? "")%string then [prefix +:+ ".url is required when relay is enabled"]
  else
    match Parse (Relay_URL r) with
    | None => [prefix +:+ ".url must be a valid URL"]
    | Some parsed =>
        if (Host parsed =? "")%string then [prefix +:+ ".url must be a valid URL"]
        else
          scheme_problems "wss" "ws"
            (prefix +:+ ".url must use wss:// except ws://localhost for local development") parsed ++
          match path_ids "api/auth/directory-relay/connect" parsed with
          | None => [prefix +:+ ".url must include /api/auth/directory-relay/connect/{tenant_id}/{connector_id}"]
          | Some (tenant, connector) =>
              binding_problems (prefix +:+ ".url") tenantID connectorID tenant connector
          end ++
          problem (Relay_ReconnectMinMS r <=? 0) (prefix +:+ ".reconnect_min_ms must be positive") ++
          problem (Relay_ReconnectMaxMS r <=? 0) (prefix +:+ ".reconnect_max_ms must be positive") ++
          problem (Relay_ReconnectMaxMS r <? Relay_ReconnectMinMS r)
            (prefix +:+ ".reconnect_min_ms must be less than or equal to reconnect_max_ms")
    end.

(** ** LDAP *)

(** The four tests shared by [search_then_bind] and [direct_bind], whose texts
    differ by [suffix]. *)
Definition search_fields (prefix suffix : string) (l : LDAPConfig) : problems :=
  validateSecretRef (prefix +:+ ".bind_password_ref") (LDAP_BindPasswordRef l) ++
  problem (LDAP_BindDN l =? "")%string (prefix +:+ ".bind_dn is required" +:+ suffix) ++
  problem (LDAP_BaseDN l =? "")%string (prefix +:+ ".base_dn is required" +:+ suffix) ++
  problem (LDAP_UserFilter l =? "")%string (prefix +:+ ".user_filter is required" +:+ suffix) ++
  problem (negb (LDAP_UserFilter l =? "")%string && negb (contains (LDAP_UserFilter l) "{username}"))
    (prefix +:+ ".user_filter must contain {username}").

Definition validateLDAP (prefix : string) (l : LDAPConfig) : problems :=
  validateLDAPURLs prefix l ++
  validateDirectoryProfile (prefix +:+ ".directory_profile") (LDAP_DirectoryProfile l) ++
  problem (negb (LDAPTLS_Verify (LDAP_TLS l))) (prefix +:+ ".tls.verify must be true") ++
  validateFileRef (prefix +:+ ".tls.ca_file_ref") (LDAPTLS_CAFileRef (LDAP_TLS l)) false ++
  validateReferrals (prefix +:+ ".referrals") (LDAP_Referrals l) (LDAPTLS_StartTLS (LDAP_TLS l)) ++
  validateGroups (prefix +:+ ".groups") (LDAP_Groups l) ++
  validatePool (prefix +:+ ".pool") (LDAP_Pool l) ++
  (if (LDAP_LookupMode l =? "search_then_bind")%string then search_fields prefix "" l
   else if (LDAP_LookupMode l =? "dn_template")%string then
     problem (LDAP_DNTemplate l =? "")%string
       (prefix +:+ ".dn_template is required when lookup_mode is dn_template") ++
     validateOptionalSecretRef (prefix +:+ ".bind_password_ref") (LDAP_BindPasswordRef l)
   else if (LDAP_LookupMode l =? "direct_bind")%string
   then search_fields prefix " when lookup_mode is direct_bind" l
   else [prefix +:+ ".lookup_mode must be search_then_bind, dn_template, or direct_bind"]) ++
  problem (empty_list (LDAP_Attributes l))
    (prefix +:+ ".attributes must contain at least one attribute") ++
  validateUsername (prefix +:+ ".username") (LDAP_Username l).

(** ** The whole configuration *)

Definition deployment_problems (cfg : Config) : problems :=
  let mode := Deployment_Mode (Config_Deployment cfg) in
  if (mode =? "single_tenant")%string then
    problem (negb (length (Config_Tenants cfg) =? 1)%nat)
      "deployment.mode single_tenant requires exactly one tenant"
  else if (mode =? "multi_tenant")%string then
    problem (empty_list (Config_Tenants cfg))
      "deployment.mode multi_tenant requires at least one tenant"
  else ["deployment.mode must be single_tenant or multi_tenant"].

Definition server_problems (t : ServerTLSConfig) : problems :=
  if ServerTLS_Enabled t then
    problem (ServerTLS_CertFileRef t =? "")%string
      "server.tls.cert_file_ref is required when TLS is enabled" ++
    problem (ServerTLS_KeyFileRef t =? "")%string
      "server.tls.key_file_ref is required when TLS is enabled"
  else [].

Definition key_problems (prefix : string) (a : AuthrimConfig) : problems :=
  let keys := Authrim_HMACKeys a in
  validateSecretRef (prefix +:+ ".authrim.hmac_keys.active.secret_ref")
    (HMACKey_SecretRef (HMACKeys_Active keys)) ++
  problem (HMACKey_KID (HMACKeys_Active keys) =? "")%string
    (prefix +:+ ".authrim.hmac_keys.active.kid is required") ++
  match HMACKeys_Previous keys with
  | None => []
  | Some previous =>
      problem (HMACKey_KID previous =? "")%string
        (prefix +:+ ".authrim.hmac_keys.previous.kid is required") ++
      validateSecretRef (prefix +:+ ".authrim.hmac_keys.previous.secret_ref")
        (HMACKey_SecretRef previous)
  end ++
  validateSecretRef (prefix +:+ ".authrim.audit_hash_secret_ref") (Authrim_AuditHashSecretRef a).

(** Lines 380-416, with the ids of the tenants before. *)
Definition tenant_problems (i : nat) (seenTenants seenConnectors : list string) (t : TenantConfig)
    : problems :=
  let prefix := indexed "tenants" i in
  let tenantID := Tenant_TenantID t in
  let connectorID := Tenant_ConnectorID t in
  problem (tenantID =? "")%string (prefix +:+ ".tenant_id is required") ++
  (if (connectorID =? "")%string then [prefix +:+ ".connector_id is required"]
   else problem (negb (connectorIDPattern connectorID))
          (prefix +:+ ".connector_id must be wwcon_ followed by 16 alphanumeric characters")) ++
  problem (negb (tenantID =? "")%string && in_strings tenantID seenTenants)
    (prefix +:+ ".tenant_id must be unique") ++
  problem (negb (connectorID =? "")%string && in_strings connectorID seenConnectors)
    (prefix +:+ ".connector_id must be unique") ++
  key_problems prefix (Tenant_Authrim t) ++
  validateRelay (prefix +:+ ".authrim.relay") (Authrim_Relay (Tenant_Authrim t)) tenantID connectorID ++
  validateHeartbeat (prefix +:+ ".authrim.heartbeat") (Authrim_Heartbeat (Tenant_Authrim t))
    tenantID connectorID ++
  validateLDAP (prefix +:+ ".ldap") (Tenant_LDAP t) ++
  validateTimeouts (prefix +:+ ".timeouts") (Tenant_Timeouts t) ++
  problem (Protection_MaxConcurrentRequests (Tenant_Protection t) <=? 0)
    (prefix +:+ ".protection.max_concurrent_requests must be positive") ++
  validateProtection (prefix +:+ ".protection") (Tenant_Protection t).

Fixpoint tenants_loop (i : nat) (seenTenants seenConnectors : list string)
    (tenants : list TenantConfig) : problems :=
  match tenants with
  | [] => []
  | t :: tenants =>
      tenant_problems i seenTenants seenConnectors t ++
      tenants_loop (S i) (Tenant_TenantID t :: seenTenants)
        (Tenant_ConnectorID t :: seenConnectors) tenants
  end.

Definition all_problems (cfg : Config) : problems :=
  deployment_problems cfg ++ server_problems (Server_TLS (Config_Server cfg)) ++
  tenants_loop 0 [] [] (Config_Tenants cfg).

(** The text of the error, or none. *)
Definition Validate (cfg : Config) : option string :=
  if empty_list (all_problems cfg) then None else Some (join newline (all_problems cfg)).

(** [Parse] after the YAML decoder. *)
Definition load (cfg : Config) : result string Config :=
  match Validate (applyDefaults cfg) with
  | None => Ok (applyDefaults cfg)
  | Some problems => Err problems
  end.
End validate.
