(* ===== verification/ValidateProofs.v ===== *)
(** * What a valid configuration is

    A declarative reading of [Validate]: which configurations it lets through. *)

From S2P Require Import Prelude GoStrings Url Config Secrets Defaults Validate.
Local Open Scope Z_scope.

Section valid.
Context `{UnicodeTables}.

(** ** Valid parts *)

Definition secret_ref (raw : string) : Prop := ∃ scheme name, usable_ref raw scheme name.

Definition valid_protection (p : ProtectionConfig) : Prop :=
  0 < Protection_StormWindowMS p ∧ 0 < Protection_StormBlockMS p ∧
  0 < Protection_MalformedRequestLimit p ∧ 0 < Protection_ReplayLimit p ∧
  0 < Protection_DirectoryErrorLimit p.

Definition valid_timeouts (t : TimeoutConfig) : Prop :=
  0 < Timeout_LDAPConnectMS t ∧ 0 < Timeout_LDAPSearchMS t ∧
  0 < Timeout_LDAPBindMS t ∧ 0 < Timeout_RequestMS t.

Definition valid_username (u : UsernameConfig) : Prop :=
  Forall (λ f, f ∈ ["local_part"; "email"; "upn"]) (Username_AllowedFormats u) ∧
  Normalization_Unicode (Username_Normalization u) ∈ [""; "NFKC"] ∧
  Normalization_Case (Username_Normalization u) ∈ [""; "lower"].

Definition within (v max : Z) : Prop := 0 < v <= max.

Definition attribute_name (v : string) : Prop := validLDAPAttributeDescription v = true.

Definition valid_groups (g : GroupConfig) : Prop :=
  Group_Enabled g = true →
  attribute_name (Group_MemberAttribute g) ∧ attribute_name (Group_SearchMemberAttribute g) ∧
  attribute_name (Group_ResponseAttribute g) ∧ attribute_name (Group_IDAttribute g) ∧
  attribute_name (Group_DisplayAttribute g) ∧
  within (Group_MaxDepth g) 20 ∧ within (Group_MaxGroups g) 10000 ∧ within (Group_TimeoutMS g) 60000.

Definition valid_profile (p : DirectoryProfileConfig) : Prop :=
  Profile_Name p ∈ ["active_directory"; "openldap"; "generic"] ∧
  Forall attribute_name (Profile_IdentifierAttributes p) ∧
  (Profile_SubjectAttribute p ≠ "" → attribute_name (Profile_SubjectAttribute p)) ∧
  Profile_GroupStrategy p ∈ ["member_attribute_only"; "ad_matching_rule"; "bfs_member_search"] ∧
  Profile_StatusNormalization p ∈ ["generic"; "active_directory"] ∧
  (PagedSearch_Enabled (Profile_PagedSearch p) = true →
   within (PagedSearch_PageSize (Profile_PagedSearch p)) 10000 ∧
   within (PagedSearch_MaxEntries (Profile_PagedSearch p)) 100000 ∧
   within (PagedSearch_TimeoutMS (Profile_PagedSearch p)) 60000).

(** The URL reaches a host over TLS: from the start, or by StartTLS. *)
Definition tls_url (startTLS : bool) (raw : string) : Prop :=
  ∃ u, Parse raw = Some u ∧ Host u ≠ "" ∧ Scheme u = if startTLS then "ldap" else "ldaps".

Definition valid_urls (l : LDAPConfig) : Prop :=
  ldapEndpointURLs l ≠ [] ∧ NoDup (ldapEndpointURLs l) ∧
  Forall (tls_url (LDAPTLS_StartTLS (LDAP_TLS l))) (ldapEndpointURLs l).

Definition valid_referrals (r : ReferralConfig) (startTLS : bool) : Prop :=
  Referral_Mode r = "disabled" ∧ Referral_AllowedURLs r = [] ∧
    Referral_AllowServiceBindReuse r = false ∨
  Referral_Mode r = "allowlist" ∧ Referral_AllowedURLs r ≠ [] ∧
    Forall (tls_url startTLS) (Referral_AllowedURLs r).

(** The URL of a service for this tenant and connector: encrypted unless it is
    local, with the path the service expects. *)
Definition service_url (secure plain endpoint raw tenantID connectorID : string) : Prop :=
  ∃ u tenant connector,
    Parse raw = Some u ∧ Host u ≠ "" ∧
    (Scheme u = secure ∨ Scheme u = plain ∧ local_host (Hostname u) = true) ∧
    path_ids endpoint u = Some (tenant, connector) ∧
    PathUnescape tenant = Some tenantID ∧ PathUnescape connector = Some connectorID.

Definition valid_relay (r : RelayConfig) (tenantID connectorID : string) : Prop :=
  Relay_Enabled r = true →
  service_url "wss" "ws" "api/auth/directory-relay/connect" (Relay_URL r) tenantID connectorID ∧
  0 < Relay_ReconnectMinMS r <= Relay_ReconnectMaxMS r.

Definition valid_key (k : HMACKeyConfig) : Prop :=
  HMACKey_KID k ≠ "" ∧ secret_ref (HMACKey_SecretRef k).

Definition valid_previous (k : option HMACKeyConfig) : Prop :=
  match k with None => True | Some k => valid_key k end.

Definition valid_heartbeat (h : HeartbeatConfig) (tenantID connectorID : string) : Prop :=
  Heartbeat_Transport h ∈ ["direct"; "tunnel"; "relay"] ∧
  (Heartbeat_Enabled h = true →
   service_url "https" "http" "api/auth/directory-connectors/heartbeat" (Heartbeat_URL h)
     tenantID connectorID ∧
   valid_key (Heartbeat_Key h) ∧ valid_previous (Heartbeat_Previous h) ∧
   30000 <= Heartbeat_IntervalMS h <= 86400000 ∧ 100 <= Heartbeat_TimeoutMS h <= 30000).

Definition searchable (l : LDAPConfig) : Prop :=
  secret_ref (LDAP_BindPasswordRef l) ∧ LDAP_BindDN l ≠ "" ∧ LDAP_BaseDN l ≠ "" ∧
  contains (LDAP_UserFilter l) "{username}" = true.

Definition valid_lookup (l : LDAPConfig) : Prop :=
  LDAP_LookupMode l ∈ ["search_then_bind"; "direct_bind"] ∧ searchable l ∨
  LDAP_LookupMode l = "dn_template" ∧ LDAP_DNTemplate l ≠ "" ∧
    (LDAP_BindPasswordRef l ≠ "" → secret_ref (LDAP_BindPasswordRef l)).

Definition valid_ca (raw : string) : Prop := raw ≠ "" → ∃ path, raw = "file:" +:+ path ∧ path ≠ "".

Definition valid_ldap (l : LDAPConfig) : Prop :=
  valid_urls l ∧ valid_profile (LDAP_DirectoryProfile l) ∧
  LDAPTLS_Verify (LDAP_TLS l) = true ∧ valid_ca (LDAPTLS_CAFileRef (LDAP_TLS l)) ∧
  valid_referrals (LDAP_Referrals l) (LDAPTLS_StartTLS (LDAP_TLS l)) ∧
  valid_groups (LDAP_Groups l) ∧ 0 <= Pool_MaxIdle (LDAP_Pool l) ∧
  valid_lookup l ∧ LDAP_Attributes l ≠ [] ∧ valid_username (LDAP_Username l).

Definition connector_id (s : string) : Prop :=
  ∃ id, s = "wwcon_" +:+ id ∧ String.length id = 16%nat ∧ string_all is_alnum id = true.

Definition valid_tenant (t : TenantConfig) : Prop :=
  Tenant_TenantID t ≠ "" ∧ connector_id (Tenant_ConnectorID t) ∧
  valid_key (HMACKeys_Active (Authrim_HMACKeys (Tenant_Authrim t))) ∧
  valid_previous (HMACKeys_Previous (Authrim_HMACKeys (Tenant_Authrim t))) ∧
  secret_ref (Authrim_AuditHashSecretRef (Tenant_Authrim t)) ∧
  valid_relay (Authrim_Relay (Tenant_Authrim t)) (Tenant_TenantID t) (Tenant_ConnectorID t) ∧
  valid_heartbeat (Authrim_Heartbeat (Tenant_Authrim t)) (Tenant_TenantID t) (Tenant_ConnectorID t) ∧
  valid_ldap (Tenant_LDAP t) ∧ valid_timeouts (Tenant_Timeouts t) ∧
  0 < Protection_MaxConcurrentRequests (Tenant_Protection t) ∧
  valid_protection (Tenant_Protection t).

Definition valid_deployment (cfg : Config) : Prop :=
  Deployment_Mode (Config_Deployment cfg) = "single_tenant" ∧ length (Config_Tenants cfg) = 1%nat ∨
  Deployment_Mode (Config_Deployment cfg) = "multi_tenant" ∧ Config_Tenants cfg ≠ [].

Definition valid_server (t : ServerTLSConfig) : Prop :=
  ServerTLS_Enabled t = true → ServerTLS_CertFileRef t ≠ "" ∧ ServerTLS_KeyFileRef t ≠ "".

Definition valid_config (cfg : Config) : Prop :=
  valid_deployment cfg ∧ valid_server (Server_TLS (Config_Server cfg)) ∧
  NoDup (Tenant_TenantID <$> Config_Tenants cfg) ∧
  NoDup (Tenant_ConnectorID <$> Config_Tenants cfg) ∧
  Forall valid_tenant (Config_Tenants cfg).

(** ** No problems *)

Lemma problem_nil b text : problem b text = [] ↔ b = false.
Proof. by destruct b. Qed.

Lemma in_strings_spec s l : in_strings s l = true ↔ s ∈ l.
Proof.
  unfold in_strings. rewrite List.existsb_exists. setoid_rewrite list_elem_of_In.
  split; [intros (x & Hx & ->%String.eqb_eq); done|].
  intros Hs. exists s. by rewrite String.eqb_refl.
Qed.

Lemma in_strings_false s l : in_strings s l = false ↔ s ∉ l.
Proof. rewrite <-not_true_iff_false. by rewrite in_strings_spec. Qed.

Lemma for_range_nil {A} (body : nat → A → problems) (P : A → Prop) l i :
  (∀ i x, body i x = [] ↔ P x) → for_range body i l = [] ↔ Forall P l.
Proof.
  intros Hbody. revert i. induction l as [|x l IH]; intros i; simpl.
  - by rewrite Forall_nil.
  - by rewrite app_nil, Forall_cons, Hbody, IH.
Qed.

Lemma mjoin_nil {A} (f : A → problems) (P : A → Prop) l :
  (∀ x, f x = [] ↔ P x) → mjoin (f <$> l) = [] ↔ Forall P l.
Proof.
  intros Hf. induction l as [|x l IH]; [by rewrite Forall_nil|].
  change (mjoin (f <$> x :: l)) with (f x ++ mjoin (f <$> l)).
  by rewrite app_nil, Forall_cons, Hf, IH.
Qed.

Lemma eqb_empty s : (s =? "")%string = false ↔ s ≠ "".
Proof. apply String.eqb_neq. Qed.

(** Turn the conjunction of empty problem lists of a validator into tests. *)
Ltac no_problems :=
  rewrite ?app_nil, ?problem_nil, ?negb_false_iff, ?in_strings_spec, ?Z.leb_gt, ?Z.ltb_ge,
    ?eqb_empty.

Lemma validateProtection_nil prefix p : validateProtection prefix p = [] ↔ valid_protection p.
Proof. unfold validateProtection. by no_problems. Qed.

Lemma validateTimeouts_nil prefix t : validateTimeouts prefix t = [] ↔ valid_timeouts t.
Proof. unfold validateTimeouts. by no_problems. Qed.

Lemma validatePool_nil prefix p : validatePool prefix p = [] ↔ 0 <= Pool_MaxIdle p.
Proof. unfold validatePool. by no_problems. Qed.

Lemma validateUsername_nil prefix u : validateUsername prefix u = [] ↔ valid_username u.
Proof.
  unfold validateUsername. no_problems.
  rewrite (mjoin_nil _ (λ f, f ∈ ["local_part"; "email"; "upn"])); [done|].
  intros x. by no_problems.
Qed.

Lemma validateSecretRef_nil field raw : validateSecretRef field raw = [] ↔ secret_ref raw.
Proof.
  unfold validateSecretRef, secret_ref. destruct (ParseRef raw) as [ref|e] eqn:Href.
  - apply ParseRef_usable in Href as [_ Hu]. split; eauto.
  - split; [done|]. intros (scheme & name & Hu).
    assert (ParseRef raw = Ok {| Ref_Scheme := scheme; Ref_Name := name; Ref_Raw := raw |})
      by by apply ParseRef_usable. congruence.
Qed.

Lemma attribute_name_nonempty v : attribute_name v → v ≠ "".
Proof. by intros Hv ->. Qed.

Lemma attribute_field_nil v required safe : attribute_field v required safe = [] ↔ attribute_name v.
Proof.
  unfold attribute_field. destruct (String.eqb_spec v "") as [->|]; [done|].
  by no_problems.
Qed.

Lemma bounded_int_nil v max positive bounded : bounded_int v max positive bounded = [] ↔ within v max.
Proof.
  unfold bounded_int, within. destruct (Z.leb_spec v 0); [split; [done|lia]|].
  no_problems. lia.
Qed.

Lemma validateGroups_nil prefix g : validateGroups prefix g = [] ↔ valid_groups g.
Proof.
  unfold validateGroups, valid_groups. destruct (Group_Enabled g); simpl; [|by split].
  rewrite !app_nil, !attribute_field_nil, !bounded_int_nil. tauto.
Qed.

Lemma trim_space_first c s :
  is_ascii_byte c = true → space1 c = false → trim_space (String c s) ≠ "".
Proof.
  intros Hc Hs. unfold trim_space, trim_left. cbn [String.length trim_left_fuel].
  rewrite space_prefix_ascii by done. cbn [trim_right]. unfold all_space.
  cbn [String.length all_space_fuel]. by rewrite space_prefix_ascii.
Qed.

Lemma attribute_name_first v :
  attribute_name v → ∃ c s, v = String c s ∧ is_upper c || is_lower c = true.
Proof.
  unfold attribute_name, validLDAPAttributeDescription. destruct v as [|c s]; [done|].
  cbn [split_byte]. destruct (Ascii.eqb ";"%char c); [done|].
  destruct (split_byte_cons ";"%char s) as (h & t & ->).
  intros Hv%andb_prop. destruct Hv as [Hv _]. apply andb_prop in Hv as [? _]. eauto.
Qed.

Lemma trim_space_attribute v : attribute_name v → trim_space v ≠ "".
Proof.
  intros (c & s & -> & Hc)%attribute_name_first.
  unfold is_upper, is_lower, in_range in Hc.
  assert (is_ascii_byte c = true ∧ space1 c = false) as [? ?]; [|by apply trim_space_first].
  unfold is_ascii_byte, space1, in_range.
  rewrite orb_true_iff, !andb_true_iff, !N.leb_le in Hc.
  rewrite N.ltb_lt, orb_false_iff, andb_false_iff, !N.leb_gt, N.eqb_neq. lia.
Qed.

Lemma validateDirectoryProfile_nil prefix p :
  validateDirectoryProfile prefix p = [] ↔ valid_profile p.
Proof.
  unfold validateDirectoryProfile, valid_profile. no_problems.
  rewrite (for_range_nil _ attribute_name).
  2: { intros i x. cbv zeta. destruct (String.eqb_spec (trim_space x) "") as [He|He].
       - split; [done|]. by intros ?%trim_space_attribute.
       - by no_problems. }
  rewrite andb_false_iff, !negb_false_iff, String.eqb_eq.
  assert (∀ P : Prop, (Profile_SubjectAttribute p = "" ∨ P) ↔ (Profile_SubjectAttribute p ≠ "" → P))
    as Himpl.
  { intros P. destruct (String.eqb_spec (Profile_SubjectAttribute p) ""); tauto. }
  rewrite Himpl. destruct (PagedSearch_Enabled (Profile_PagedSearch p)).
  - rewrite !app_nil, !bounded_int_nil. unfold attribute_name. tauto.
  - unfold attribute_name. intuition discriminate.
Qed.

Lemma ldap_url_problems_nil field text startTLS raw :
  ldap_url_problems field text startTLS raw = [] ↔ tls_url startTLS raw.
Proof.
  unfold ldap_url_problems, tls_url. destruct (Parse raw) as [u|]; [|naive_solver].
  destruct (String.eqb_spec (Scheme u) "") as [He|He].
  { split; [done|]. intros (u' & [= <-] & _ & Hs). rewrite He in Hs. by destruct startTLS. }
  destruct (String.eqb_spec (Host u) "") as [Hh|Hh]; [naive_solver|].
  destruct (String.eqb_spec (Scheme u) "ldap") as [Hl|Hl], (String.eqb_spec (Scheme u) "ldaps") as [Hls|Hls];
    simpl; destruct startTLS; simpl; split; try done; try (by intros _; exists u);
    intros (u' & [= <-] & _ & Hs); congruence.
Qed.

Lemma ldap_urls_loop_nil prefix many startTLS i seen urls :
  ldap_urls_loop prefix many startTLS i seen urls = [] ↔
  NoDup urls ∧ (∀ x, x ∈ urls → x ∉ seen) ∧ Forall (tls_url startTLS) urls.
Proof.
  revert i seen. induction urls as [|raw urls IH]; intros i seen; cbn [ldap_urls_loop].
  { split; [|done]. intros _. split; [constructor|]. split; [set_solver|constructor]. }
  assert (raw = "" → ¬ tls_url startTLS raw) as Hempty.
  { intros -> (u & Hu & Hh & _). vm_compute in Hu. by injection Hu as <-. }
  rewrite NoDup_cons, Forall_cons.
  destruct (String.eqb_spec raw "") as [He|He]; [split; [done|]; intros (_ & _ & ? & _); by destruct Hempty|].
  destruct (in_strings raw seen) eqn:Hin.
  { apply in_strings_spec in Hin. split; [done|]. intros (_ & Hx & _). destruct (Hx raw); set_solver. }
  rewrite app_nil, ldap_url_problems_nil, IH.
  assert (raw ∉ seen) by (rewrite <-in_strings_spec, Hin; done).
  set_solver.
Qed.

Lemma validateLDAPURLs_nil prefix l : validateLDAPURLs prefix l = [] ↔ valid_urls l.
Proof.
  unfold validateLDAPURLs, valid_urls. destruct (ldapEndpointURLs l) as [|raw urls] eqn:Hu.
  - split; [done|]. by intros [? _].
  - cbn [empty_list]. rewrite ldap_urls_loop_nil. set_solver.
Qed.

Lemma validateReferrals_nil prefix r startTLS :
  validateReferrals prefix r startTLS = [] ↔ valid_referrals r startTLS.
Proof.
  unfold validateReferrals, valid_referrals.
  destruct (String.eqb_spec (Referral_Mode r) "disabled") as [Hd|Hd].
  - no_problems. rewrite empty_list_spec, Hd. naive_solver.
  - destruct (String.eqb_spec (Referral_Mode r) "allowlist") as [Ha|Ha]; [|naive_solver].
    rewrite app_nil, problem_nil, (for_range_nil _ (tls_url startTLS))
      by (intros; apply ldap_url_problems_nil).
    destruct (Referral_AllowedURLs r); naive_solver.
Qed.

Lemma has_prefix_app s pre : has_prefix s pre = true ↔ ∃ t, s = pre +:+ t.
Proof.
  unfold has_prefix. revert s. induction pre as [|c pre IH]; intros s.
  - split; [intros _; by exists s|by destruct s].
  - destruct s as [|d s]; [split; [done|intros [t Ht]; by rewrite append_cons in Ht]|].
    cbn [String.prefix]. destruct (ascii_dec c d) as [->|Hne].
    + rewrite IH. split; intros [t Ht]; exists t; rewrite append_cons in *; congruence.
    + split; [done|]. intros [t Ht]. rewrite append_cons in Ht. congruence.
Qed.

Lemma drop_bytes_app pre t : drop_bytes (String.length pre) (pre +:+ t) = t.
Proof. induction pre as [|c pre IH]; [done|]. rewrite append_cons. done. Qed.

Lemma validateFileRef_nil field raw : validateFileRef field raw false = [] ↔ valid_ca raw.
Proof.
  unfold validateFileRef, valid_ca. destruct (String.eqb_spec raw "") as [He|He]; [naive_solver|].
  no_problems. rewrite orb_false_iff, negb_false_iff, eqb_empty. unfold trim_prefix. split.
  - intros [Hp Ht] _. rewrite Hp in Ht. apply has_prefix_app in Hp as [t ->].
    rewrite drop_bytes_app in Ht. eauto.
  - intros (t & -> & Ht)%(λ f, f He).
    assert (has_prefix ("file:" +:+ t) "file:" = true) as Hp by (apply has_prefix_app; eauto).
    by rewrite Hp, drop_bytes_app.
Qed.

Lemma scheme_problems_nil secure plain text u :
  secure ≠ plain →
  scheme_problems secure plain text u = [] ↔
  Scheme u = secure ∨ Scheme u = plain ∧ local_host (Hostname u) = true.
Proof.
  intros Hne. unfold scheme_problems.
  destruct (String.eqb_spec (Scheme u) secure) as [->|]; [by split; [left|]|].
  destruct (String.eqb_spec (Scheme u) plain) as [->|]; [|naive_solver].
  no_problems. naive_solver.
Qed.

Lemma id_problems_nil name expected t1 t2 :
  id_problems name expected t1 t2 = [] ↔ PathUnescape name = Some expected.
Proof.
  unfold id_problems. destruct (PathUnescape name) as [raw|]; [|done].
  no_problems. rewrite String.eqb_eq. naive_solver.
Qed.

Lemma empty_url_no_host u : Parse "" = Some u → Host u = "".
Proof. intros Hu. vm_compute in Hu. by injection Hu as <-. Qed.

(** The common part of the two service URL validators. *)
Lemma service_url_nil secure plain endpoint text missing field raw tenantID connectorID u :
  secure ≠ plain → Parse raw = Some u → Host u ≠ "" →
  scheme_problems secure plain text u ++
  match path_ids endpoint u with
  | None => [missing]
  | Some (tenant, connector) => binding_problems field tenantID connectorID tenant connector
  end = [] ↔ service_url secure plain endpoint raw tenantID connectorID.
Proof.
  intros Hne Hu Hh. unfold service_url, binding_problems.
  rewrite app_nil, scheme_problems_nil by done. split.
  - intros [Hs Hp]. destruct (path_ids endpoint u) as [[t c]|] eqn:Hids; [|done].
    rewrite app_nil, !id_problems_nil in Hp. exists u, t, c. naive_solver.
  - intros (u' & t & c & Hu' & _ & Hs & Hids & Ht & Hc). simplify_eq. split; [done|].
    by rewrite Hids, app_nil, !id_problems_nil.
Qed.

Lemma service_url_host secure plain endpoint raw tenantID connectorID :
  service_url secure plain endpoint raw tenantID connectorID →
  raw ≠ "" ∧ ∃ u, Parse raw = Some u ∧ Host u ≠ "".
Proof.
  intros (u & t & c & Hu & Hh & _). split; [|eauto]. intros ->.
  by apply empty_url_no_host in Hu.
Qed.

Lemma validateHeartbeatURL_nil field raw tenantID connectorID :
  validateHeartbeatURL field raw tenantID connectorID = [] ↔
  service_url "https" "http" "api/auth/directory-connectors/heartbeat" raw tenantID connectorID.
Proof.
  unfold validateHeartbeatURL. destruct (Parse raw) as [u|] eqn:Hu.
  - destruct (String.eqb_spec (Host u) "") as [Hh|Hh].
    + split; [done|]. intros (_ & u' & Hu' & Hh')%service_url_host. congruence.
    + by apply service_url_nil.
  - split; [done|]. intros (_ & u' & Hu' & _)%service_url_host. congruence.
Qed.

Lemma validateRelay_nil prefix r tenantID connectorID :
  validateRelay prefix r tenantID connectorID = [] ↔ valid_relay r tenantID connectorID.
Proof.
  unfold validateRelay, valid_relay. destruct (Relay_Enabled r); simpl; [|by split].
  trans (service_url "wss" "ws" "api/auth/directory-relay/connect" (Relay_URL r) tenantID connectorID ∧
         0 < Relay_ReconnectMinMS r <= Relay_ReconnectMaxMS r); [|by split; [|intros Hx; apply Hx]].
  destruct (String.eqb_spec (Relay_URL r) "") as [He|He].
  { split; [done|]. by intros [[? _]%service_url_host _]. }
  destruct (Parse (Relay_URL r)) as [u|] eqn:Hu; last first.
  { split; [done|]. intros [(_ & u' & Hu' & _)%service_url_host _]. congruence. }
  destruct (String.eqb_spec (Host u) "") as [Hh|Hh].
  { split; [done|]. intros [(_ & u' & Hu' & Hh')%service_url_host _]. congruence. }
  rewrite app_assoc, app_nil, (service_url_nil "wss" "ws" _ _ _ _ (Relay_URL r)) by done.
  no_problems. intuition lia.
Qed.

Lemma key_nil kid_field ref_field k :
  problem (HMACKey_KID k =? "")%string kid_field ++ validateSecretRef ref_field (HMACKey_SecretRef k)
  = [] ↔ valid_key k.
Proof. no_problems. by rewrite validateSecretRef_nil. Qed.

Lemma previous_nil kid_field ref_field k :
  match k with
  | None => []
  | Some k => problem (HMACKey_KID k =? "")%string kid_field ++
              validateSecretRef ref_field (HMACKey_SecretRef k)
  end = [] ↔ valid_previous k.
Proof. destruct k as [k|]; simpl; [apply key_nil|done]. Qed.

Lemma validateHeartbeat_nil prefix h tenantID connectorID :
  validateHeartbeat prefix h tenantID connectorID = [] ↔ valid_heartbeat h tenantID connectorID.
Proof.
  unfold validateHeartbeat, valid_heartbeat. rewrite app_nil, problem_nil, negb_false_iff, in_strings_spec.
  apply and_iff_compat_l.
  destruct (Heartbeat_Enabled h); simpl; [|by split].
  rewrite !app_nil, previous_nil, validateSecretRef_nil, !problem_nil, !orb_false_iff, !Z.ltb_ge,
    eqb_empty. unfold valid_key.
  destruct (String.eqb_spec (Heartbeat_URL h) "") as [He|He].
  - split; [by intros [? _]|]. intros Hx. destruct (Hx eq_refl) as [[? _]%service_url_host _]. done.
  - rewrite validateHeartbeatURL_nil. tauto.
Qed.

Lemma search_fields_nil prefix suffix l : search_fields prefix suffix l = [] ↔ searchable l.
Proof.
  unfold search_fields, searchable. no_problems. rewrite validateSecretRef_nil.
  destruct (String.eqb_spec (LDAP_UserFilter l) "") as [->|He]; simpl; [naive_solver|].
  rewrite negb_false_iff. naive_solver.
Qed.

Lemma lookup_nil prefix l :
  (if (LDAP_LookupMode l =? "search_then_bind")%string then search_fields prefix "" l
   else if (LDAP_LookupMode l =? "dn_template")%string then
     problem (LDAP_DNTemplate l =? "")%string
       (prefix +:+ ".dn_template is required when lookup_mode is dn_template") ++
     validateOptionalSecretRef (prefix +:+ ".bind_password_ref") (LDAP_BindPasswordRef l)
   else if (LDAP_LookupMode l =? "direct_bind")%string
   then search_fields prefix " when lookup_mode is direct_bind" l
   else [prefix +:+ ".lookup_mode must be search_then_bind, dn_template, or direct_bind"]) = []
  ↔ valid_lookup l.
Proof.
  unfold valid_lookup.
  destruct (String.eqb_spec (LDAP_LookupMode l) "search_then_bind") as [->|H1].
  { rewrite search_fields_nil. set_solver. }
  destruct (String.eqb_spec (LDAP_LookupMode l) "dn_template") as [->|H2].
  { no_problems. unfold validateOptionalSecretRef.
    destruct (String.eqb_spec (LDAP_BindPasswordRef l) "") as [->|He].
    - set_solver.
    - rewrite validateSecretRef_nil. set_solver. }
  destruct (String.eqb_spec (LDAP_LookupMode l) "direct_bind") as [->|H3].
  { rewrite search_fields_nil. set_solver. }
  split; [done|]. set_solver.
Qed.

Lemma validateLDAP_nil prefix l : validateLDAP prefix l = [] ↔ valid_ldap l.
Proof.
  unfold validateLDAP, valid_ldap.
  rewrite !app_nil, validateLDAPURLs_nil, validateDirectoryProfile_nil, validateFileRef_nil,
    validateReferrals_nil, validateGroups_nil, validatePool_nil, lookup_nil, validateUsername_nil,
    !problem_nil, negb_false_iff.
  rewrite <-not_true_iff_false, empty_list_spec. done.
Qed.

Lemma key_problems_nil prefix a :
  key_problems prefix a = [] ↔
  valid_key (HMACKeys_Active (Authrim_HMACKeys a)) ∧
  valid_previous (HMACKeys_Previous (Authrim_HMACKeys a)) ∧
  secret_ref (Authrim_AuditHashSecretRef a).
Proof.
  unfold key_problems. rewrite !app_nil, previous_nil, !validateSecretRef_nil, problem_nil, eqb_empty.
  unfold valid_key. tauto.
Qed.

Lemma connectorIDPattern_spec s : connectorIDPattern s = true ↔ connector_id s.
Proof.
  unfold connectorIDPattern, connector_id. rewrite !andb_true_iff, has_prefix_app, Nat.eqb_eq. split.
  - intros [[[t ->] Hlen] Hall]. change 6%nat with (String.length "wwcon_") in Hall.
    rewrite drop_bytes_app in Hall. exists t.
    change (6 + String.length t = 22)%nat in Hlen. split_and!; [done|lia|done].
  - intros (t & -> & Hlen & Hall). split_and!; [eauto|change (6 + String.length t = 22)%nat; lia|].
    by change 6%nat with (String.length "wwcon_"); rewrite drop_bytes_app.
Qed.

Lemma connector_id_nonempty s : connector_id s → s ≠ "".
Proof. by intros (t & -> & _). Qed.

Lemma tenant_problems_nil i seenT seenC t :
  tenant_problems i seenT seenC t = [] ↔
  valid_tenant t ∧ (Tenant_TenantID t ∉ seenT) ∧ (Tenant_ConnectorID t ∉ seenC).
Proof.
  unfold tenant_problems, valid_tenant. cbv zeta.
  rewrite !app_nil, key_problems_nil, validateRelay_nil, validateHeartbeat_nil, validateLDAP_nil,
    validateTimeouts_nil, validateProtection_nil.
  destruct (String.eqb_spec (Tenant_TenantID t) "") as [Ht|Ht]; [naive_solver|].
  destruct (String.eqb_spec (Tenant_ConnectorID t) "") as [Hc|Hc].
  { split; [intros (? & ? & _); done|]. intros [(_ & Hcid & _) _]. by apply connector_id_nonempty in Hcid. }
  pose proof (proj2 (eqb_empty _) Ht) as Ht'. pose proof (proj2 (eqb_empty _) Hc) as Hc'.
  rewrite !problem_nil. simpl. rewrite negb_false_iff, connectorIDPattern_spec, Z.leb_gt.
  rewrite !in_strings_false. unfold not in *. tauto.
Qed.

Lemma tenants_loop_nil i seenT seenC ts :
  tenants_loop i seenT seenC ts = [] ↔
  Forall valid_tenant ts ∧
  (NoDup (Tenant_TenantID <$> ts) ∧ ∀ x, x ∈ Tenant_TenantID <$> ts → x ∉ seenT) ∧
  (NoDup (Tenant_ConnectorID <$> ts) ∧ ∀ x, x ∈ Tenant_ConnectorID <$> ts → x ∉ seenC).
Proof.
  revert i seenT seenC. induction ts as [|t ts IH]; intros i seenT seenC; cbn [tenants_loop].
  { split; [|done]. intros _. simpl. split; [constructor|].
    split; (split; [constructor|set_solver]). }
  rewrite app_nil, tenant_problems_nil, IH, !fmap_cons, !NoDup_cons, Forall_cons. set_solver.
Qed.

Lemma deployment_problems_nil cfg : deployment_problems cfg = [] ↔ valid_deployment cfg.
Proof.
  unfold deployment_problems, valid_deployment.
  destruct (String.eqb_spec (Deployment_Mode (Config_Deployment cfg)) "single_tenant") as [->|H1].
  { no_problems. rewrite Nat.eqb_eq. naive_solver. }
  destruct (String.eqb_spec (Deployment_Mode (Config_Deployment cfg)) "multi_tenant") as [->|H2];
    [|naive_solver].
  rewrite problem_nil, <-not_true_iff_false, empty_list_spec. naive_solver.
Qed.

Lemma server_problems_nil t : server_problems t = [] ↔ valid_server t.
Proof.
  unfold server_problems, valid_server. destruct (ServerTLS_Enabled t); [|by split].
  no_problems. tauto.
Qed.

Lemma Validate_none (cfg : Config) : Validate cfg = None ↔ valid_config cfg.
Proof.
  unfold Validate, valid_config.
  trans (all_problems cfg = []).
  { destruct (all_problems cfg); simpl; naive_solver. }
  unfold all_problems.
  rewrite !app_nil, deployment_problems_nil, server_problems_nil, tenants_loop_nil.
  set_solver.
Qed.

(** A configuration is loaded when, with its defaults, it is valid. *)
Lemma load_ok raw cfg : load raw = Ok cfg ↔ cfg = applyDefaults raw ∧ valid_config cfg.
Proof.
  unfold load. destruct (Validate (applyDefaults raw)) as [problems|] eqn:Hv.
  - split; [done|]. intros [-> Hvalid%Validate_none]. by rewrite Hvalid in Hv.
  - apply Validate_none in Hv. split; [by intros [= <-]|]. by intros [-> _].
Qed.

(** C12: validation is exact: [Validate] reports no problem for a configuration
    exactly when it is valid: the deployment mode fits the number of tenants;
    tenant and connector ids are present, well formed and unique; keys and
    secrets are references; every directory and referral URL is reached over
    TLS, verified; relay and heartbeat URLs are encrypted (but for local ones)
    and name this tenant and connector; names, limits and timeouts are within
    bounds. *)
Theorem validate_correct (cfg : Config) : Validate cfg = None ↔ valid_config cfg.
Proof. apply Validate_none. Qed.
End valid.
