(* ===== verification/Username.v ===== *)
(** * Username preprocessing (internal/core/username/username.go)

    The username a request carries is normalised, classified and, if the
    configuration asks for it, checked against the allowed domains before it
    reaches the directory.  [nfkc] stands for [norm.NFKC.String] of
    golang.org/x/text, which is not part of the repository. *)

From S2P Require Import Prelude GoStrings Config.

Inductive username_error :=
| ErrEmptyUsername
| ErrFormatNotAllowed
| ErrDomainMismatch.

#[export] Instance username_error_eq_dec : EqDecision username_error.
Proof. solve_decision. Defined.

(** The text of the error. *)
Definition username_error_text (err : username_error) : string :=
  match err with
  | ErrEmptyUsername => "empty_username"
  | ErrFormatNotAllowed => "username_format_not_allowed"
  | ErrDomainMismatch => "username_domain_mismatch"
  end.

Record Result := { Value : string; Format : string }.

Definition detectFormat (value : string) : string :=
  if contains_byte "@"%char value then "email" else "local_part".

Fixpoint formatAllowed_loop (format : string) (allowed : list string) : bool :=
  match allowed with
  | [] => false
  | candidate :: rest =>
      if (candidate =? format)%string then true
      else if (format =? "email")%string && (candidate =? "upn")%string then true
      else formatAllowed_loop format rest
  end.

Definition formatAllowed (format : string) (allowed : list string) : bool :=
  match allowed with
  | [] => true
  | _ => formatAllowed_loop format allowed
  end.

Section preprocess.
Context `{UnicodeTables}.
Variable nfkc : string → string.

(** [None] is a nil error. *)
Definition validateDomain (value format : string) (cfg : UsernameConfig)
    : option username_error :=
  if negb (format =? "email")%string then None
  else
    match cut_byte "@"%char value with
    | None => Some ErrFormatNotAllowed
    | Some (_, domain) =>
        if (domain =? "")%string then Some ErrFormatNotAllowed
        else
          if empty_list (Username_AllowedDomains cfg) &&
             empty_list (Username_AllowedUPNSuffixes cfg) then None
          else if existsb (equal_fold domain) (Username_AllowedDomains cfg) then None
          else if existsb (equal_fold domain) (Username_AllowedUPNSuffixes cfg) then None
          else Some ErrDomainMismatch
    end.

(** Lines 23-32: the three normalisation steps. *)
Definition normalize (raw : string) (n : UsernameNormalizationConfig) : string :=
  let value := if Normalization_Trim n then trim_space raw else raw in
  let value := if (Normalization_Unicode n =? "NFKC")%string then nfkc value else value in
  if (Normalization_Case n =? "lower")%string then to_lower value else value.

Definition Preprocess (raw : string) (cfg : UsernameConfig) : result username_error Result :=
  let value := normalize raw (Username_Normalization cfg) in
  if (value =? "")%string then Err ErrEmptyUsername
  else
    let format := detectFormat value in
    if negb (formatAllowed format (Username_AllowedFormats cfg)) then Err ErrFormatNotAllowed
    else if Normalization_RejectDomainMismatch (Username_Normalization cfg) then
      match validateDomain value format cfg with
      | Some err => Err err
      | None => Ok {| Value := value; Format := format |}
      end
    else Ok {| Value := value; Format := format |}.

(** ** Specification

    What a configuration accepts, stated without the order in which the code
    tests it. *)

Definition format_permitted (format : string) (allowed : list string) : Prop :=
  allowed = [] ∨ format ∈ allowed ∨ (format = "email" ∧ "upn" ∈ allowed).

Definition domain_permitted (domain : string) (cfg : UsernameConfig) : Prop :=
  domain ≠ "" ∧
  (Username_AllowedDomains cfg = [] ∧ Username_AllowedUPNSuffixes cfg = [] ∨
   ∃ d, d ∈ Username_AllowedDomains cfg ++ Username_AllowedUPNSuffixes cfg ∧
        equal_fold domain d = true).

Definition username_accepted (cfg : UsernameConfig) (value format : string) : Prop :=
  value ≠ "" ∧
  format = detectFormat value ∧
  format_permitted format (Username_AllowedFormats cfg) ∧
  (Normalization_RejectDomainMismatch (Username_Normalization cfg) = true →
   format = "email" →
   ∃ local domain, cut_byte "@"%char value = Some (local, domain) ∧
                   domain_permitted domain cfg).
End preprocess.

(** ** Lemmas *)

Lemma formatAllowed_spec format allowed :
  formatAllowed format allowed = true ↔ format_permitted format allowed.
Proof.
  unfold formatAllowed, format_permitted.
  destruct allowed as [|a l]; [by intuition|].
  trans (format ∈ a :: l ∨ format = "email" ∧ "upn" ∈ a :: l);
    [|split; [by right|intros [?|?]; done]].
  generalize (a :: l) as k. clear a l. induction k as [|c k IH]; simpl.
  - rewrite !elem_of_nil. intuition congruence.
  - rewrite !elem_of_cons.
    destruct (String.eqb_spec c format), (String.eqb_spec format "email"),
      (String.eqb_spec c "upn"); simpl; rewrite ?IH; intuition congruence.
Qed.

Lemma contains_byte_cut c s :
  contains_byte c s = true ↔ ∃ a b, cut_byte c s = Some (a, b).
Proof.
  unfold contains_byte. induction s as [|d s IH].
  - split; [done|intros (? & ? & ?); done].
  - rewrite lacks_cons, negb_andb, negb_involutive. cbn [cut_byte].
    destruct (Ascii.eqb c d); simpl; [split; eauto|]. rewrite IH.
    destruct (cut_byte c s) as [[]|]; split; intros (? & ? & ?); simplify_eq; eauto.
Qed.

Lemma detectFormat_email value :
  detectFormat value = "email" ↔ ∃ l d, cut_byte "@"%char value = Some (l, d).
Proof.
  unfold detectFormat. rewrite <-contains_byte_cut.
  destruct (contains_byte _ _); intuition congruence.
Qed.

Section lemmas.
Context `{UnicodeTables}.

Lemma existsb_permitted d (l : list string) :
  existsb (equal_fold d) l = true ↔ ∃ x, x ∈ l ∧ equal_fold d x = true.
Proof. rewrite List.existsb_exists. by setoid_rewrite list_elem_of_In. Qed.

(** The two loops over the allow lists are one search of their union. *)
Lemma domain_lists_spec d (domains suffixes : list string) :
  (if empty_list domains && empty_list suffixes then None
   else if existsb (equal_fold d) domains then None
   else if existsb (equal_fold d) suffixes then None
   else Some ErrDomainMismatch) = None ↔
  domains = [] ∧ suffixes = [] ∨ existsb (equal_fold d) (domains ++ suffixes) = true.
Proof.
  rewrite existsb_app.
  destruct domains as [|x xs], suffixes as [|y ys]; [by intuition|..].
  all: cbn [empty_list andb];
    repeat (destruct (existsb _ _); cbn [orb]); intuition congruence.
Qed.

Lemma validateDomain_spec value cfg l d :
  cut_byte "@"%char value = Some (l, d) →
  validateDomain value "email" cfg = None ↔ domain_permitted d cfg.
Proof.
  intros Hcut. unfold validateDomain, domain_permitted. rewrite Hcut. cbn [negb].
  rewrite String.eqb_refl. cbn [negb].
  destruct (String.eqb_spec d "") as [->|Hne]; [by intuition|].
  rewrite domain_lists_spec, existsb_permitted. intuition.
Qed.

(** A value without [@] never fails the domain check. *)
Lemma validateDomain_not_email value format cfg :
  format ≠ "email" → validateDomain value format cfg = None.
Proof.
  intros Hne. unfold validateDomain.
  by destruct (String.eqb_spec format "email").
Qed.

Variable nfkc : string → string.

Lemma preprocess_value raw cfg r :
  Preprocess nfkc raw cfg = Ok r →
  let v := normalize nfkc raw (Username_Normalization cfg) in
  r = {| Value := v; Format := detectFormat v |}.
Proof. unfold Preprocess. intros Hp. by repeat (case_match; simplify_eq/=). Qed.

Lemma preprocess_accepts raw cfg :
  let v := normalize nfkc raw (Username_Normalization cfg) in
  is_ok (Preprocess nfkc raw cfg) = true ↔ username_accepted cfg v (detectFormat v).
Proof.
  unfold Preprocess, username_accepted. cbv zeta.
  generalize (normalize nfkc raw (Username_Normalization cfg)) as v. intros v.
  rewrite <-formatAllowed_spec.
  destruct (String.eqb_spec v ""), (formatAllowed _ _); cbn [negb is_ok];
    [intuition congruence..| |intuition congruence].
  destruct (Normalization_RejectDomainMismatch _); [|cbn; intuition congruence].
  destruct (decide (detectFormat v = "email")) as [Hemail|Hemail]; last first.
  { rewrite validateDomain_not_email by done. cbn. intuition congruence. }
  pose proof (proj1 (detectFormat_email v) Hemail) as (l & d & Hcut).
  rewrite Hemail. pose proof (validateDomain_spec v cfg l d Hcut) as Hdom.
  destruct (validateDomain _ _ _); cbn [is_ok]; split; try done.
  - intros (_ & _ & _ & (l' & d' & Hcut' & Hd')%(λ f, f eq_refl eq_refl)).
    rewrite Hcut in Hcut'. simplify_eq. by apply Hdom in Hd'.
  - intros _. repeat (split; [done|]). intros _ _. exists l, d.
    split; [done|]. by apply Hdom.
Qed.
End lemmas.

(** ** Properties *)

(** C35: [Preprocess] returns a value exactly when the normalised username is
    acceptable to the configuration (non-empty, of a permitted format and, for
    an address when mismatches are rejected, in a permitted domain), and then
    it returns that normalised username with its detected format. *)
Theorem preprocess_correct `{UnicodeTables} (nfkc : string → string)
    (raw : string) (cfg : UsernameConfig) (r : Result) :
  Preprocess nfkc raw cfg = Ok r ↔
  Value r = normalize nfkc raw (Username_Normalization cfg) ∧
  username_accepted cfg (Value r) (Format r).
Proof.
  pose proof (preprocess_accepts nfkc raw cfg) as Hacc. split.
  - intros Hp. pose proof (preprocess_value nfkc raw cfg r Hp) as ->.
    rewrite Hp in Hacc. split; [done|]. by apply Hacc.
  - intros [Hv Hr]. destruct r as [v f]. simpl in *. subst v.
    destruct Hr as (? & -> & ? & ?).
    destruct (Preprocess nfkc raw cfg) as [r|e] eqn:Hp.
    + by rewrite (preprocess_value nfkc raw cfg r Hp).
    + assert (false = true); [|done]. apply Hacc. by repeat split.
Qed.
