(* ===== verification/Directory.v ===== *)
(** * The directory contract (internal/core/directory/directory.go)

    What a directory client is asked, what it answers, and the interface
    [DirectoryClient] between the request handlers and the LDAP adapter. *)

From S2P Require Import Prelude Effects.

(** ** Errors *)

(** The sentinel errors of the package. *)
Inductive sentinel :=
| ErrInvalidCredentials
| ErrUserNotFound
| ErrAmbiguousUser
| ErrDirectoryTLS
| ErrDirectoryUnavailable
| ErrDirectoryReferral
| ErrAccountDisabled
| ErrAccountLocked
| ErrPasswordExpired
| ErrMustChangePassword.

#[export] Instance sentinel_eq_dec : EqDecision sentinel.
Proof. solve_decision. Defined.

(** An error value: a sentinel, a sentinel wrapped by [fmt.Errorf] with [%w],
    an error of the LDAP library with its result code and text, or any other. *)
Inductive error :=
| Sentinel (s : sentinel)
| Wrapped (s : sentinel) (text : string)
| LDAPError (code : Z) (text : string)
| OtherError (text : string).

#[export] Instance error_eq_dec : EqDecision error.
Proof. solve_decision. Defined.

(** [errors.Is(err, target)]; plain [==] is equality with [Sentinel target]. *)
Definition errors_Is (err : error) (target : sentinel) : bool :=
  match err with
  | Sentinel s | Wrapped s _ => bool_decide (s = target)
  | _ => false
  end.

(** ** Requests and results *)

Record TestConnectionRequest := {
  TestConnection_Username : string;
  TestConnection_Password : string;
  TestConnection_TestPassword : bool;
  TestConnection_AllowInsecure : bool;
}.

Record Subject := { DirectoryID : string; Subject_Username : string }.

Record TestConnectionResult := {
  TLSVerified : bool;
  ServiceBound : bool;
  UserResolved : bool;
  PasswordOK : bool;
  TestConnection_Subject : Subject;
}.

Record GroupFact := {
  GroupFact_ID : string;
  GroupFact_DN : string;
  GroupFact_Display : string;
  GroupFact_Source : string;
  GroupFact_Depth : Z;
}.

Record VerifyPasswordRequest := {
  Verify_Username : string;
  Verify_Password : string;
  Verify_AttributeNames : list string;
}.

Definition CredentialResultSuccess : string := "success".
Definition CredentialResultFailure : string := "failure".
Definition CredentialResultPolicyRequired : string := "policy_required".
Definition CredentialResultSourceUnavailable : string := "source_unavailable".

Definition ReasonInvalidCredentials : string := "invalid_credentials".
Definition ReasonAccountDisabled : string := "account_disabled".
Definition ReasonAccountLocked : string := "account_locked".
Definition ReasonPasswordExpired : string := "password_expired".
Definition ReasonMustChangePassword : string := "must_change_password".
Definition ReasonDirectoryUnavailable : string := "directory_unavailable".

Record VerifyPasswordResult := {
  Verify_Result : string;
  Verify_Success : bool;
  Verify_Reason : string;
  Verify_Subject : Subject;
  Verify_Attributes : gmap string (list string);
  Verify_GroupFacts : list GroupFact;
}.

Definition no_subject : Subject := {| DirectoryID := ""; Subject_Username := "" |}.

(** [VerifyPasswordResult{}] *)
Definition zero_result : VerifyPasswordResult := {|
  Verify_Result := ""; Verify_Success := false; Verify_Reason := "";
  Verify_Subject := no_subject; Verify_Attributes := ∅; Verify_GroupFacts := [];
|}.

(** ** Constructors *)

Definition SuccessfulVerification (subject : Subject)
    (attributes : gmap string (list string)) (groupFacts : list (list GroupFact))
    : VerifyPasswordResult := {|
  Verify_Result := CredentialResultSuccess;
  Verify_Success := true;
  Verify_Reason := "";
  Verify_Subject := subject;
  Verify_Attributes := attributes;
  Verify_GroupFacts := match groupFacts with facts :: _ => facts | [] => [] end;
|}.

Definition verdict (result reason : string) : VerifyPasswordResult := {|
  Verify_Result := result;
  Verify_Success := false;
  Verify_Reason := reason;
  Verify_Subject := no_subject;
  Verify_Attributes := ∅;
  Verify_GroupFacts := [];
|}.

Definition FailedVerification (reason : string) : VerifyPasswordResult :=
  verdict CredentialResultFailure
    (if (reason =? "")%string then ReasonInvalidCredentials else reason).

Definition PolicyRequiredVerification (reason : string) : VerifyPasswordResult :=
  verdict CredentialResultPolicyRequired reason.

Definition SourceUnavailableVerification (reason : string) : VerifyPasswordResult :=
  verdict CredentialResultSourceUnavailable
    (if (reason =? "")%string then ReasonDirectoryUnavailable else reason).

(** ** Readings of a result *)

Definition CredentialResult (r : VerifyPasswordResult) : string :=
  if negb (Verify_Result r =? "")%string then Verify_Result r
  else if Verify_Success r then CredentialResultSuccess
  else CredentialResultFailure.

Definition IsSuccess (r : VerifyPasswordResult) : bool :=
  (CredentialResult r =? CredentialResultSuccess)%string.

Definition SafeReason (r : VerifyPasswordResult) : string :=
  if negb (Verify_Reason r =? "")%string then Verify_Reason r
  else if (CredentialResult r =? CredentialResultFailure)%string then ReasonInvalidCredentials
  else if (CredentialResult r =? CredentialResultSourceUnavailable)%string
  then ReasonDirectoryUnavailable
  else CredentialResult r.

(** ** The interface

    What the handlers assume of a directory client, for the connectors they name.
    The client is a program over effects [F], followed in states [S]: it keeps to
    a policy, ends with everything it took released, and a success rests on
    evidence in the state, such as the directory's own acceptance of the
    submitted password.  The LDAP adapter discharges the promise. *)

Class DirectoryClient (F : Type → Type) (S : Type) := {
  client_verify : string → VerifyPasswordRequest → prog F (result error VerifyPasswordResult);
  client_policy : string → VerifyPasswordRequest → ∀ R, F R → (R → S → Prop) → S → Prop;
  client_idle : S;
  client_released : S → Prop;
  client_evidence : string → VerifyPasswordRequest → VerifyPasswordResult → S → Prop;
}.

Class DirectoryContract {F : Type → Type} {S : Type} (client : DirectoryClient F S) : Prop := {
  client_policy_mono : ∀ c q R (e : F R) (P Q : R → S → Prop) s,
    (∀ r s', P r s' → Q r s') → client_policy c q R e P s → client_policy c q R e Q s;
  client_idle_released : client_released client_idle;
  client_sound : ∀ c q,
    wp (client_policy c q) (client_verify c q)
      (λ r s, client_released s ∧
              ∀ v, r = Ok v → IsSuccess v = true → client_evidence c q v s) client_idle;
}.

(** ** Properties *)

Lemma credential_result_nonempty r : CredentialResult r ≠ "".
Proof.
  unfold CredentialResult. destruct (String.eqb_spec (Verify_Result r) ""); simpl; [|done].
  by destruct (Verify_Success r).
Qed.

(** The reading of a result is total and unambiguous: [IsSuccess] holds
    exactly of an explicit ["success"] or of a legacy result with the flag set,
    the safe reason is never empty, and no constructor of a rejection yields
    a success whatever reason it is given. *)
Theorem result_readings (r : VerifyPasswordResult) (reason : string) :
  (IsSuccess r = true ↔
    Verify_Result r = CredentialResultSuccess ∨
    Verify_Result r = "" ∧ Verify_Success r = true) ∧
  SafeReason r ≠ "" ∧
  IsSuccess (FailedVerification reason) = false ∧
  IsSuccess (PolicyRequiredVerification reason) = false ∧
  IsSuccess (SourceUnavailableVerification reason) = false.
Proof.
  repeat split; try done.
  - unfold IsSuccess, CredentialResult.
    destruct (String.eqb_spec (Verify_Result r) "") as [->|]; simpl.
    + destruct (Verify_Success r); naive_solver.
    + rewrite String.eqb_eq. naive_solver.
  - unfold IsSuccess, CredentialResult.
    intros [->|[-> ->]]; done.
  - unfold SafeReason. pose proof (credential_result_nonempty r).
    destruct (String.eqb_spec (Verify_Reason r) ""); simpl; [|done].
    by repeat case_match.
Qed.
