(* ===== verification/AuditEvent.v ===== *)
(** * Audit events (internal/core/audit/audit.go) *)

From S2P Require Import Prelude GoStrings GoCrypto.

Definition EventVerifySuccess : string := "directory_password.verify.success".
Definition EventVerifyFailure : string := "directory_password.verify.failure".
Definition EventVerifyError : string := "directory_password.verify.error".
Definition EventHMACFailure : string := "directory_password.hmac.failure".
Definition EventReplayDetected : string := "directory_password.replay.detected".
Definition EventConfigError : string := "directory_password.config.error".

Record Event := mkEvent {
  EventID : string;
  EventType : string;
  Timestamp : Z;
  Event_TenantID : string;
  Event_ConnectorID : string;
  Event_RequestID : string;
  Event_KeyID : string;
  Event_Result : string;
  Event_Reason : string;
  Event_ErrorCode : string;
  Event_Retryable : bool;
  Event_LatencyMS : Z;
  Event_DirectoryStatus : string;
  Event_UsernameHash : string;
}.

#[export] Instance event_eq_dec : EqDecision Event.
Proof. solve_decision. Defined.

(** [emit] stamps an event with its id and the current time. *)
Definition stamp (id : string) (now : Z) (e : Event) : Event :=
  mkEvent id (EventType e) now (Event_TenantID e) (Event_ConnectorID e)
    (Event_RequestID e) (Event_KeyID e) (Event_Result e) (Event_Reason e)
    (Event_ErrorCode e) (Event_Retryable e) (Event_LatencyMS e)
    (Event_DirectoryStatus e) (Event_UsernameHash e).

(** The event with only a type, a result, a code and whether to retry; the other
    fields start empty, as in a Go composite literal. *)
Definition error_event (type code : string) (retryable : bool) (latency : Z) : Event :=
  mkEvent "" type 0 "" "" "" "" "error" "" code retryable latency "" "".
