(* ===== verification/Storm.v ===== *)
(** * Storm protection (internal/ports/httpapi/storm.go)

    Per connector and per kind of event, a counter over a window that starts at
    the first event; when the counter reaches its limit the kind is blocked for
    a while.  The mutex makes each method atomic, so a method is a function of
    the state and of the clock reading it takes before locking. *)

From S2P Require Import Prelude GoTime.
Local Open Scope Z_scope.

Record StormProtectionPolicy := {
  WindowMS : Z;
  BlockMS : Z;
  MalformedRequestLimit : Z;
  ReplayLimit : Z;
  DirectoryErrorLimit : Z;
}.

(** [type stormKind string] *)
Abbreviation stormKind := string.
Definition stormKindMalformed : stormKind := "malformed_request".
Definition stormKindReplay : stormKind := "replay".
Definition stormKindDirectoryError : stormKind := "directory_error".

Record stormState := { windowStart : Z; count : Z; blockedUntil : Z }.

(** [stormState{}], what reading an absent key of the map gives *)
Definition zero_stormState : stormState :=
  {| windowStart := 0; count := 0; blockedUntil := 0 |}.

Record connectorStorms := {
  policy : StormProtectionPolicy;
  states : gmap stormKind stormState;
}.

Definition positive_or (v d : Z) : Z := if v <=? 0 then d else v.

Definition defaultStormProtectionPolicy (p : StormProtectionPolicy) : StormProtectionPolicy := {|
  WindowMS := positive_or (WindowMS p) 10000;
  BlockMS := positive_or (BlockMS p) 30000;
  MalformedRequestLimit := positive_or (MalformedRequestLimit p) 20;
  ReplayLimit := positive_or (ReplayLimit p) 10;
  DirectoryErrorLimit := positive_or (DirectoryErrorLimit p) 5;
|}.

Definition newConnectorStorms (p : StormProtectionPolicy) : connectorStorms :=
  {| policy := defaultStormProtectionPolicy p; states := ∅ |}.

Definition state_of (s : connectorStorms) (kind : stormKind) : stormState :=
  default zero_stormState (states s !! kind).

Definition blocked (s : connectorStorms) (kind : stormKind) (now : Z) : bool :=
  let state := state_of s kind in
  if is_zero (blockedUntil state) || negb (before now (blockedUntil state)) then false
  else true.

Definition limit (s : connectorStorms) (kind : stormKind) : Z :=
  if (kind =? stormKindMalformed)%string then MalformedRequestLimit (policy s)
  else if (kind =? stormKindReplay)%string then ReplayLimit (policy s)
  else if (kind =? stormKindDirectoryError)%string then DirectoryErrorLimit (policy s)
  else 1.

(** The update of one kind's state: [window] and [block] are durations. *)
Definition bump (window block lim now : Z) (state : stormState) : stormState :=
  let state :=
    if is_zero (windowStart state) || (window <? time_sub now (windowStart state))
    then {| windowStart := now; count := 0; blockedUntil := blockedUntil state |}
    else state in
  let count' := wrap64 (count state + 1) in
  {| windowStart := windowStart state;
     count := count';
     blockedUntil := if lim <=? count' then time_add now block else blockedUntil state |}.

Definition record (s : connectorStorms) (kind : stormKind) (now : Z) : connectorStorms :=
  let window := dur_of_ms (WindowMS (policy s)) in
  let block := dur_of_ms (BlockMS (policy s)) in
  {| policy := policy s;
     states := <[kind := bump window block (limit s kind) now (state_of s kind)]> (states s) |}.

Definition reset (s : connectorStorms) (kind : stormKind) : connectorStorms :=
  {| policy := policy s; states := delete kind (states s) |}.

(** ** Lemmas *)

Lemma state_of_record s kind now :
  state_of (record s kind now) kind =
  bump (dur_of_ms (WindowMS (policy s))) (dur_of_ms (BlockMS (policy s)))
    (limit s kind) now (state_of s kind).
Proof. unfold state_of at 1, record. simpl. by rewrite lookup_insert_eq. Qed.

Lemma state_of_record_ne s kind kind' now :
  kind ≠ kind' → state_of (record s kind now) kind' = state_of s kind'.
Proof. intros. unfold state_of, record. simpl. by rewrite lookup_insert_ne. Qed.

Lemma state_of_reset s kind : state_of (reset s kind) kind = zero_stormState.
Proof. unfold state_of, reset. simpl. by rewrite lookup_delete_eq. Qed.

Lemma state_of_reset_ne s kind kind' :
  kind ≠ kind' → state_of (reset s kind) kind' = state_of s kind'.
Proof. intros. unfold state_of, reset. simpl. by rewrite lookup_delete_ne. Qed.

Lemma limit_record s kind kind' now : limit (record s kind now) kind' = limit s kind'.
Proof. done. Qed.

Lemma policy_record s kind now : policy (record s kind now) = policy s.
Proof. done. Qed.

(** Recording one kind at each of the instants [ts], oldest first. *)
Definition record_all (s : connectorStorms) (kind : stormKind) (ts : list Z) : connectorStorms :=
  foldl (λ s now, record s kind now) s ts.

Lemma record_all_snoc s kind ts now :
  record_all s kind (ts ++ [now]) = record (record_all s kind ts) kind now.
Proof. unfold record_all. by rewrite foldl_app. Qed.

Lemma record_all_policy s kind ts : policy (record_all s kind ts) = policy s.
Proof. induction ts as [|now ts IH] using rev_ind; [done|]. by rewrite record_all_snoc. Qed.

Lemma record_all_limit s kind ts k : limit (record_all s kind ts) k = limit s k.
Proof. unfold limit. by rewrite record_all_policy. Qed.

Lemma blocked_iff s kind now :
  blocked s kind now = true ↔
  blockedUntil (state_of s kind) ≠ 0 ∧ now < blockedUntil (state_of s kind).
Proof.
  unfold blocked, is_zero, before.
  destruct (Z.eqb_spec (blockedUntil (state_of s kind)) 0),
    (Z.ltb_spec now (blockedUntil (state_of s kind))); simpl; intuition lia.
Qed.

(** A policy whose durations do not overflow and whose limits are positive. *)
Definition sane_policy (p : StormProtectionPolicy) : Prop :=
  1 <= WindowMS p <= 9223372036854 ∧
  1 <= BlockMS p <= 9223372036854 ∧
  1 <= MalformedRequestLimit p < int64_max ∧
  1 <= ReplayLimit p < int64_max ∧
  1 <= DirectoryErrorLimit p < int64_max.

Lemma sane_limit s kind : sane_policy (policy s) → 1 <= limit s kind < int64_max.
Proof.
  unfold sane_policy, limit. intros. destruct_and?.
  repeat case_match; unfold int64_max in *; lia.
Qed.

(** [bump] inside the current window, and at the start of a new one. *)
Lemma bump_same_window window block lim now st :
  0 <= window < int64_max → windowStart st ≠ 0 → now - windowStart st <= window →
  0 <= count st < int64_max →
  bump window block lim now st =
  {| windowStart := windowStart st; count := count st + 1;
     blockedUntil := if lim <=? count st + 1 then now + block else blockedUntil st |}.
Proof.
  intros Hw Hne Hle Hcount. unfold bump, is_zero.
  destruct (Z.eqb_spec (windowStart st) 0); [done|]. simpl.
  destruct (Z.ltb_spec window (time_sub now (windowStart st))) as [Hgt|_].
  { exfalso. apply (time_sub_le now (windowStart st) window) in Hle;
      unfold int64_min, int64_max in *; lia. }
  rewrite wrap64_id by (unfold in_int64, int64_min, int64_max in *; lia). done.
Qed.

Lemma bump_new_window window block lim now st :
  0 <= window < int64_max →
  windowStart st = 0 ∨ window < now - windowStart st →
  bump window block lim now st =
  {| windowStart := now; count := 1;
     blockedUntil := if lim <=? 1 then now + block else blockedUntil st |}.
Proof.
  intros Hw Hnew. unfold bump, is_zero.
  destruct (Z.eqb_spec (windowStart st) 0); simpl; [done|].
  destruct (Z.ltb_spec window (time_sub now (windowStart st))) as [_|Hle]; [done|].
  exfalso. apply (time_sub_le now (windowStart st) window) in Hle;
    unfold int64_min, int64_max in *; lia.
Qed.

(** ** Properties *)

(** Instants as the clock gives them: positive and not decreasing. *)
Definition clock_readings (ts : list Z) : Prop :=
  StronglySorted Z.le ts ∧ Forall (λ t, 0 < t) ts.

(** All of [ts] lies in one window of length [w]. *)
Definition in_window (w : Z) (ts : list Z) : Prop :=
  ∃ start, Forall (λ t, start <= t <= start + w) ts.

Definition window_of (s : connectorStorms) : Z := WindowMS (policy s) * Millisecond.
Definition block_of (s : connectorStorms) : Z := BlockMS (policy s) * Millisecond.

Lemma clock_readings_snoc ts now :
  clock_readings (ts ++ [now]) →
  clock_readings ts ∧ 0 < now ∧ Forall (λ t, t <= now) ts.
Proof.
  unfold clock_readings. rewrite Forall_app, Forall_singleton.
  intros [Hs [Hp Hn]]. split_and!; [|done|done|].
  - by eapply StronglySorted_app_1_l.
  - rewrite Forall_forall. intros t Ht.
    eapply (StronglySorted_app_1_elem_of Z.le); [done..|set_solver].
Qed.

Section fresh.
Context (s : connectorStorms) (kind : stormKind).
Hypothesis Hsane : sane_policy (policy s).
Hypothesis Hfresh : state_of s kind = zero_stormState.

Lemma durations_exact :
  dur_of_ms (WindowMS (policy s)) = window_of s ∧
  dur_of_ms (BlockMS (policy s)) = block_of s ∧
  0 < window_of s < int64_max ∧ 0 < block_of s.
Proof.
  destruct Hsane as (? & ? & _). unfold window_of, block_of.
  rewrite !dur_of_ms_exact by lia. unfold int64_max, Millisecond. lia.
Qed.

Lemma record_all_step ts now :
  state_of (record_all s kind (ts ++ [now])) kind =
  bump (window_of s) (block_of s) (limit s kind) now (state_of (record_all s kind ts) kind).
Proof.
  destruct durations_exact as (Hw & Hb & _).
  by rewrite record_all_snoc, state_of_record, record_all_policy, record_all_limit, Hw, Hb.
Qed.

(** A run of events that fits one window. *)
Lemma state_in_one_window t0 ts :
  clock_readings (t0 :: ts) →
  Forall (λ t, t <= t0 + window_of s) ts →
  Z.of_nat (length (t0 :: ts)) < int64_max →
  state_of (record_all s kind (t0 :: ts)) kind =
  {| windowStart := t0;
     count := Z.of_nat (length (t0 :: ts));
     blockedUntil :=
       if limit s kind <=? Z.of_nat (length (t0 :: ts))
       then List.last (t0 :: ts) t0 + block_of s else 0 |}.
Proof.
  pose proof durations_exact as (_ & _ & Hw & _).
  induction ts as [|now ts IH] using rev_ind; intros Hclk Hin Hlen.
  - rewrite <-(app_nil_l [t0]), record_all_step. cbn [record_all foldl].
    rewrite Hfresh, bump_new_window by (cbn; lia). done.
  - rewrite app_comm_cons in *. apply clock_readings_snoc in Hclk as (Hclk & _ & Hle).
    apply Forall_app in Hin as [Hin Hnow]. rewrite Forall_singleton in Hnow.
    rewrite length_app in *. cbn [length] in *.
    rewrite record_all_step, IH by (done || (cbn [length]; lia)).
    apply Forall_cons in Hle as [Hle _]. destruct Hclk as [_ [? _]%Forall_cons].
    rewrite bump_same_window by (cbn [windowStart count length]; lia).
    cbn [windowStart count blockedUntil length]. rewrite List.last_last.
    replace (Z.of_nat (S (length ts)) + 1) with (Z.of_nat (S (length ts) + 1)) by lia.
    destruct (Z.leb_spec (limit s kind) (Z.of_nat (S (length ts) + 1))); [done|].
    destruct (Z.leb_spec (limit s kind) (Z.of_nat (S (length ts)))); [lia|done].
Qed.
End fresh.

(** C25: storm protection trips exactly at its limit.  When a kind is fresh
    (never recorded, or just reset) and the events recorded since all fall in
    one window, the kind is blocked at [now] exactly when the limit was reached
    and [now] is less than the blocking time after the last event. *)
Theorem storm_trips_at_limit (s : connectorStorms) (kind : stormKind) (t0 : Z) (ts : list Z) (now : Z)
    (Hsane : sane_policy (policy s))
    (Hfresh : state_of s kind = zero_stormState)
    (Hclk : clock_readings (t0 :: ts))
    (Hwin : Forall (λ t, t <= t0 + window_of s) ts)
    (Hlen : Z.of_nat (length (t0 :: ts)) < int64_max) :
  blocked (record_all s kind (t0 :: ts)) kind now = true ↔
  limit s kind <= Z.of_nat (length (t0 :: ts)) ∧
  now < List.last (t0 :: ts) t0 + block_of s.
Proof.
  pose proof (durations_exact s Hsane) as (_ & _ & _ & Hb).
  rewrite blocked_iff, (state_in_one_window s kind Hsane Hfresh) by done.
  cbn [blockedUntil].
  assert (0 < List.last (t0 :: ts) t0) as Hpos.
  { destruct Hclk as [_ Hpos]. rewrite Forall_forall in Hpos. apply Hpos.
    by apply list_last_elem_of. }
  destruct (Z.leb_spec (limit s kind) (Z.of_nat (length (t0 :: ts)))); lia.
Qed.

Definition example_policy : StormProtectionPolicy := {|
  WindowMS := 10000; BlockMS := 30000; MalformedRequestLimit := 3;
  ReplayLimit := 2; DirectoryErrorLimit := 2 |}.

Lemma storm_trips_at_limit_witness :
  blocked (record_all (newConnectorStorms example_policy) stormKindReplay
             [5 * Second; 6 * Second]) stormKindReplay (35 * Second) = true.
Proof.
  apply (storm_trips_at_limit _ _ (5 * Second) [6 * Second] (35 * Second)).
  - cbv. intuition discriminate.
  - reflexivity.
  - split; repeat constructor; cbv; discriminate || reflexivity.
  - repeat constructor. cbv. discriminate.
  - reflexivity.
  - split; [cbv; discriminate|reflexivity].
Defined.

(** [until] was set by a burst of at least [limit] events inside one window,
    [block] after the last of them. *)
Definition burst_until (s : connectorStorms) (kind : stormKind) (ts : list Z) (until : Z) : Prop :=
  ∃ pre burst last post,
    ts = pre ++ (burst ++ [last]) ++ post ∧
    limit s kind <= Z.of_nat (length (burst ++ [last])) ∧
    in_window (window_of s) (burst ++ [last]) ∧
    until = last + block_of s.

Lemma burst_until_snoc s kind ts until now :
  burst_until s kind ts until → burst_until s kind (ts ++ [now]) until.
Proof.
  intros (pre & burst & last & post & -> & ?). exists pre, burst, last, (post ++ [now]).
  by rewrite <-!app_assoc.
Qed.

(** What the state of a kind says of its history: the counter counts the events
    of the current window, and a blocking instant comes from a burst. *)
Definition tracks (s : connectorStorms) (kind : stormKind) (ts : list Z) (st : stormState) : Prop :=
  (ts = [] ∧ st = zero_stormState) ∨
  (∃ pre cur,
    ts = pre ++ cur ∧ cur ≠ [] ∧ 0 < windowStart st ∧ count st = Z.of_nat (length cur) ∧
    Forall (λ t, windowStart st <= t <= windowStart st + window_of s) cur ∧
    (blockedUntil st = 0 ∨ burst_until s kind ts (blockedUntil st))).

Lemma record_all_tracks s kind ts :
  sane_policy (policy s) → state_of s kind = zero_stormState →
  clock_readings ts → Z.of_nat (length ts) < int64_max →
  tracks s kind ts (state_of (record_all s kind ts) kind).
Proof.
  intros Hsane Hfresh. pose proof (durations_exact s Hsane) as (_ & _ & Hw & _).
  induction ts as [|now ts IH] using rev_ind; intros Hclk Hlen; [by left|].
  apply clock_readings_snoc in Hclk as (Hclk & Hpos & Hle).
  rewrite length_app in Hlen. cbn [length] in Hlen.
  rewrite record_all_step by done. specialize (IH Hclk ltac:(lia)).
  generalize dependent (state_of (record_all s kind ts) kind). intros st IH. right.
  assert (windowStart st = 0 ∨ window_of s < now - windowStart st ∨
          windowStart st ≠ 0 ∧ now - windowStart st <= window_of s) as [Hnew|[Hnew|[H0 Hold]]] by lia.
  1, 2: exists ts, [now]; rewrite bump_new_window by lia; cbn;
    split_and!; [done|done|lia|done|repeat constructor; lia|];
    destruct (Z.leb_spec (limit s kind) 1) as [Hlim|_];
    [right; exists ts, [], now, []; split_and!;
       [done|cbn; lia|exists now; repeat constructor; lia|done]
    |destruct IH as [[-> ->]|(? & ? & _ & _ & _ & _ & _ & [?|?])];
       [by left|by left|right; by apply burst_until_snoc]].
  destruct IH as [[-> ->]|(pre & cur & -> & Hne & Hws & Hcount & Hcur & Hbu)]; [done|].
  rewrite length_app in Hlen. rewrite bump_same_window by lia.
  assert (windowStart st <= now) as Hge.
  { destruct cur as [|t cur]; [done|]. apply Forall_app in Hle as [_ [? _]%Forall_cons].
    apply Forall_cons in Hcur as [? _]. lia. }
  assert (Forall (λ t, windowStart st <= t <= windowStart st + window_of s) (cur ++ [now])) as Hcur'
    by (apply Forall_app; split; [done|repeat constructor; lia]).
  exists pre, (cur ++ [now]). rewrite <-app_assoc, length_app, Hcount. cbn.
  split_and!; [done|by intros []%app_nil|done|lia|done|].
  destruct (Z.leb_spec (limit s kind) (Z.of_nat (length cur) + 1)) as [Hlim|_].
  - right. exists pre, cur, now, []. rewrite app_nil_r, length_app. cbn.
    split_and!; [done|lia|by eexists|done].
  - destruct Hbu as [?|Hbu]; [by left|right]. rewrite app_assoc. by apply burst_until_snoc.
Qed.

(** Storm protection never blocks without cause.  Whatever the spacing of
    the events recorded since the kind was fresh, if the kind is blocked at
    [now] then some consecutive events, at least as many as the limit and all
    inside one window, ended less than the blocking time before [now]; and right
    after a reset the kind is not blocked. *)
Theorem storm_block_justified (s : connectorStorms) (kind : stormKind) (ts : list Z) (now : Z)
    (Hsane : sane_policy (policy s))
    (Hfresh : state_of s kind = zero_stormState)
    (Hclk : clock_readings ts)
    (Hlen : Z.of_nat (length ts) < int64_max) :
  (blocked (record_all s kind ts) kind now = true →
   ∃ until, burst_until s kind ts until ∧ now < until) ∧
  blocked (reset (record_all s kind ts) kind) kind now = false.
Proof.
  split.
  - rewrite blocked_iff. intros [Hne Hlt].
    destruct (record_all_tracks s kind ts Hsane Hfresh Hclk Hlen)
      as [[_ Hst]|(? & ? & _ & _ & _ & _ & _ & [?|?])]; [by rewrite Hst in Hne|done|eauto].
  - unfold blocked. by rewrite state_of_reset.
Qed.


Lemma storm_block_justified_witness :
  ∃ until, burst_until (newConnectorStorms example_policy) stormKindReplay
             [5 * Second; 6 * Second] until ∧ 35 * Second < until.
Proof.
  apply (storm_block_justified (newConnectorStorms example_policy) stormKindReplay
           [5 * Second; 6 * Second] (35 * Second)).
  - cbv. intuition discriminate.
  - reflexivity.
  - split; repeat constructor; cbv; discriminate || reflexivity.
  - reflexivity.
  - vm_compute. reflexivity.
Defined.

(** A policy the configuration accepts can disable storm protection.  With
    [storm_window_ms] at 9223372036855 the product by a millisecond overflows to
    a negative duration, every event starts a new window, and a kind whose limit
    is at least two is never blocked, however many events are recorded. *)
Theorem storm_window_overflow (s : connectorStorms) (kind : stormKind) (ts : list Z) (now : Z)
    (Hwindow : WindowMS (policy s) = 9223372036855)
    (Hlimit : 2 <= limit s kind)
    (Hfresh : state_of s kind = zero_stormState)
    (Hclk : clock_readings ts) :
  blocked (record_all s kind ts) kind now = false.
Proof.
  assert (blockedUntil (state_of (record_all s kind ts) kind) = 0 ∧
          (ts = [] ∨ windowStart (state_of (record_all s kind ts) kind) = List.last ts 0))
    as [Hb _].
  { induction ts as [|t ts IH] using rev_ind.
    { cbn [record_all foldl]. rewrite Hfresh. auto. }
    apply clock_readings_snoc in Hclk as (Hclk & Hpos & Hle).
    specialize (IH Hclk) as [Hb Hw].
    rewrite record_all_snoc, state_of_record, record_all_policy, record_all_limit, Hwindow.
    replace (dur_of_ms 9223372036855) with (-9223372036854551616) by by vm_compute.
    unfold bump, is_zero.
    set (st := state_of (record_all s kind ts) kind) in *.
    assert ((windowStart st =? 0) || (-9223372036854551616 <? time_sub t (windowStart st)) = true)
      as ->.
    { destruct (Z.eqb_spec (windowStart st) 0) as [|Hne]; [done|]. simpl.
      assert (windowStart st <= t).
      { destruct ts as [|x l]; [subst st; cbn [record_all foldl] in Hne; by rewrite Hfresh in Hne|].
        destruct Hw as [|Hw]; [done|]. rewrite Hw.
        rewrite Forall_forall in Hle. apply Hle, list_last_elem_of. }
      apply Z.ltb_lt. unfold time_sub, int64_min, int64_max. lia. }
    cbn [windowStart count blockedUntil]. rewrite Hb.
    rewrite wrap64_id by (unfold in_int64, int64_min, int64_max; lia).
    destruct (Z.leb_spec (limit s kind) (0 + 1)); [lia|].
    split; [done|]. right. by rewrite List.last_last. }
  unfold blocked. by rewrite Hb.
Qed.

Lemma storm_window_overflow_witness :
  blocked (record_all
    (newConnectorStorms {| WindowMS := 9223372036855; BlockMS := 30000;
       MalformedRequestLimit := 3; ReplayLimit := 2; DirectoryErrorLimit := 2 |})
    stormKindReplay [Second; Second; Second; Second]) stormKindReplay Second = false.
Proof.
  apply storm_window_overflow.
  - reflexivity.
  - cbv. discriminate.
  - reflexivity.
  - split; repeat constructor; cbv; discriminate || reflexivity.
Defined.
