(* ===== verification/Replay.v ===== *)
(** * The replay cache (internal/ports/httpapi/server.go, replayCache)

    A map from replay keys to expiry instants; [Remember] drops the expired
    entries and then inserts the key unless it is still there.  The mutex makes
    [Remember] atomic; the clock is read before locking. *)

From S2P Require Import Prelude GoStrings GoTime.
Local Open Scope Z_scope.

Record replayCache := { ttl : Z; entries : gmap string Z }.

Definition newReplayCache (t : Z) : replayCache := {| ttl := t; entries := ∅ |}.

(** Lines 812-816: drop what has expired. *)
Definition purge (now : Z) (m : gmap string Z) : gmap string Z :=
  filter (λ kv, after now kv.2 = false) m.

Definition Remember (c : replayCache) (key : string) (now : Z) : bool * replayCache :=
  let live := purge now (entries c) in
  match live !! key with
  | Some _ => (false, {| ttl := ttl c; entries := live |})
  | None => (true, {| ttl := ttl c; entries := <[key := time_add now (ttl c)]> live |})
  end.

Definition replayKey (connectorID keyID requestID nonce : string) : string :=
  connectorID +:+ ":" +:+ keyID +:+ ":" +:+ requestID +:+ ":" +:+ nonce.

(** ** Lemmas *)

Lemma purge_lookup now m key exp :
  purge now m !! key = Some exp ↔ m !! key = Some exp ∧ now <= exp.
Proof.
  unfold purge, after. rewrite map_lookup_filter_Some. simpl.
  by rewrite Z.ltb_ge.
Qed.

Lemma purge_lookup_live now m key exp :
  m !! key = Some exp → now <= exp → purge now m !! key = Some exp.
Proof. intros. by apply purge_lookup. Qed.

Lemma remember_ttl c key now : ttl (Remember c key now).2 = ttl c.
Proof. unfold Remember. by case_match. Qed.

(** An unexpired entry survives another request, with its expiry. *)
Lemma remember_keeps c key now key' exp :
  entries c !! key' = Some exp → now <= exp →
  entries (Remember c key now).2 !! key' = Some exp.
Proof.
  intros Hin Hlive. pose proof (purge_lookup_live _ _ _ _ Hin Hlive) as Hp.
  unfold Remember. case_match eqn:Hk; simpl; [done|].
  rewrite lookup_insert_ne; congruence.
Qed.

Lemma remember_true c key now :
  (Remember c key now).1 = true →
  entries (Remember c key now).2 !! key = Some (now + ttl c).
Proof. unfold Remember. case_match; simpl; [done|]. intros _. apply lookup_insert_eq. Qed.

Lemma remember_live_false c key now exp :
  entries c !! key = Some exp → now <= exp → (Remember c key now).1 = false.
Proof.
  intros Hin Hlive. unfold Remember.
  by rewrite (purge_lookup_live _ _ _ _ Hin Hlive).
Qed.

(** A sequence of calls, oldest first. *)
Definition remember_all (c : replayCache) (calls : list (string * Z)) : replayCache :=
  foldl (λ c call, (Remember c call.1 call.2).2) c calls.

Lemma remember_all_keeps c calls key exp :
  entries c !! key = Some exp → Forall (λ call, call.2 <= exp) calls →
  entries (remember_all c calls) !! key = Some exp.
Proof.
  intros Hin Hall. revert c Hin.
  induction calls as [|call calls IH]; intros c Hin; [done|].
  inv Hall. apply IH; [done|]. by apply remember_keeps.
Qed.

(** ** The history of a cache

    A key the cache took: the clock reading it was taken with, and the clock when
    the cache was locked. *)
Record acceptance := { took_key : string; took_read : Z; took_at : Z }.

(** No later acceptance of a key falls within the lifetime of an earlier one. *)
Definition apart (life : Z) (a1 a2 : acceptance) : Prop :=
  took_key a1 = took_key a2 → took_read a1 + life < took_at a2.

(** At [clock], an accepted key is in the cache until its lifetime is over. *)
Definition history_inv (life : Z) (c : replayCache) (clock : Z) (history : list acceptance) : Prop :=
  ttl c = life ∧
  Forall (λ a, took_read a <= took_at a ∧ took_at a <= clock ∧
     (entries c !! took_key a = Some (took_read a + life) ∨ took_read a + life < clock)) history ∧
  StronglySorted (apart life) history.

Lemma history_new life clock : history_inv life (newReplayCache life) clock [].
Proof. split; [done|split; constructor]. Qed.

Lemma history_later life c clock clock' history :
  clock <= clock' → history_inv life c clock history → history_inv life c clock' history.
Proof.
  intros Hle (Httl & Hall & Hsorted). split; [done|]. split; [|done]. eapply Forall_impl; [exact Hall|].
  intros a (? & ? & [Ha|Ha]); (split; [done|split; [lia|]]); [by left|right; lia].
Qed.

Lemma StronglySorted_snoc {A} (R : A → A → Prop) l x :
  StronglySorted R l → Forall (λ y, R y x) l → StronglySorted R (l ++ [x]).
Proof.
  induction 1 as [|y l Hs IH Hy]; intros Hall; [by repeat constructor|].
  apply Forall_cons in Hall as [? ?]. simpl. constructor; [by apply IH|].
  apply Forall_app. by repeat constructor.
Qed.

(** A call keeps the history, with the key if it was taken; its clock reading was
    made before the cache was locked. *)
Lemma history_remember life c clock history key now :
  history_inv life c clock history → now <= clock →
  let '(fresh, c') := Remember c key now in
  history_inv life c' clock
    (if fresh then history ++ [{| took_key := key; took_read := now; took_at := clock |}] else history).
Proof.
  intros (Httl & Hall & Hsorted) Hnow. unfold Remember.
  destruct (purge now (entries c) !! key) as [exp|] eqn:Hkey; simpl.
  - split; [done|]. split; [|done]. eapply Forall_impl; [exact Hall|].
    intros a (? & ? & Ha). split_and!; [done..|]. destruct Ha as [Ha|]; [|by right].
    destruct (decide (now <= took_read a + life)); [left|right; lia]. by apply purge_lookup.
  - assert (Hpast : Forall (λ a, took_key a = key → took_read a + life < clock) history).
    { eapply Forall_impl; [exact Hall|]. intros a (_ & _ & [Ha|Ha]) Hk; [|done]. subst key.
      destruct (decide (now <= took_read a + life)) as [Hle|]; [|lia].
      by rewrite (purge_lookup_live _ _ _ _ Ha Hle) in Hkey. }
    split; [done|]. rewrite Httl. unfold time_add. split.
    + apply Forall_app. split; [|apply Forall_singleton; simpl;
        split_and!; [lia|lia|left; apply lookup_insert_eq]].
      rewrite Forall_forall in *. intros a Hin. specialize (Hall a Hin) as (? & ? & Ha).
      split_and!; [done..|]. destruct (decide (took_key a = key)) as [Hk|Hk].
      { right. by apply Hpast. }
      destruct Ha as [Ha|]; [|by right].
      destruct (decide (now <= took_read a + life)); [left|right; lia]. simpl.
      rewrite lookup_insert_ne by congruence. by apply purge_lookup.
    + apply StronglySorted_snoc; [done|]. eapply Forall_impl; [exact Hpast|].
      intros a Ha Hk. by apply Ha.
Qed.

(** ** Properties *)

(** C26: the cache accepts a key at most once per lifetime.  [Remember] refuses a
    key exactly when an unexpired entry for it is present; once a key was
    accepted at [now], it is refused at every later call up to [now + ttl],
    whatever calls for other keys come between (their clock readings not past
    the expiry), and it is accepted again afterwards. *)
Theorem replay_cache_correct (c : replayCache) (key : string) (now later : Z)
    (calls : list (string * Z))
    (Hfirst : (Remember c key now).1 = true)
    (Hcalls : Forall (λ call, call.2 <= now + ttl c) calls) :
  (∀ c' key' t, (Remember c' key' t).1 = false ↔
     ∃ exp, entries c' !! key' = Some exp ∧ t <= exp) ∧
  (Remember (remember_all (Remember c key now).2 calls) key later).1
    = bool_decide (now + ttl c < later).
Proof.
  split.
  - intros c' key' t. unfold Remember. setoid_rewrite <-purge_lookup.
    destruct (purge t (entries c') !! key') as [exp|]; simpl; naive_solver.
  - pose proof (remember_all_keeps _ calls _ _ (remember_true c key now Hfirst) Hcalls) as Hin.
    case_bool_decide as Hlater; [|by eapply remember_live_false; [exact Hin|lia]].
    unfold Remember at 1. destruct (purge later _ !! key) as [exp|] eqn:Hp; [|done].
    apply purge_lookup in Hp as [Hp Hle]. rewrite Hin in Hp. simplify_eq. lia.
Qed.

Lemma replay_cache_correct_witness :
  (Remember (remember_all (Remember (newReplayCache (5 * Minute)) "k" Second).2
               [("other", Minute)]) "k" (2 * Minute)).1 = false.
Proof.
  apply (replay_cache_correct (newReplayCache (5 * Minute)) "k" Second (2 * Minute)
           [("other", Minute)]).
  - vm_compute. reflexivity.
  - repeat constructor. vm_compute. discriminate.
Defined.

(** The replay key tells requests apart when the connector id, the key id
    and the request id hold no colon; the nonce may hold any byte.  (Without
    that, ids that contain colons can collide: see [replayKey_collision].) *)
Theorem replayKey_injective (c1 k1 r1 n1 c2 k2 r2 n2 : string)
    (H1 : Forall (λ s, lacks ":" s = true) [c1; k1; r1])
    (H2 : Forall (λ s, lacks ":" s = true) [c2; k2; r2]) :
  replayKey c1 k1 r1 n1 = replayKey c2 k2 r2 n2 →
  (c1, k1, r1, n1) = (c2, k2, r2, n2).
Proof.
  unfold replayKey. intros Heq.
  repeat match goal with H : Forall _ (_ :: _) |- _ => inv H end.
  do 2 (apply append_sep_inj in Heq as [-> Heq]; [|done..]).
  by apply append_sep_inj in Heq as [-> ->].
Qed.

Lemma replayKey_injective_witness :
  Forall (λ s, lacks ":" s = true) ["wwcon_8K4M2Q9F7D3H6P1X"; "kid"; "req"] ∧
  ("wwcon_8K4M2Q9F7D3H6P1X", "kid", "req", "n:1") =
  ("wwcon_8K4M2Q9F7D3H6P1X", "kid", "req", "n:" +:+ pretty 1%N).
Proof.
  split; [repeat constructor|].
  apply replayKey_injective; [repeat constructor..|]. vm_compute. reflexivity.
Defined.

(** Two different authenticated requests with one replay key: the second is
    refused as a replay of the first. *)
Lemma replayKey_collision :
  replayKey "c" "kid" "req" "a:b" = replayKey "c" "kid" "req:a" "b".
Proof. reflexivity. Qed.
