(* ===== verification/Metrics.v ===== *)
(** * Event counters (internal/ports/httpapi/server.go, metricsStore)

    Counters keyed by sanitised labels, with a cap on the number of keys. *)

From S2P Require Import Prelude GoStrings AuditEvent.
Local Open Scope Z_scope.

Record metricKey := mkMetricKey {
  Key_EventType : string;
  Key_TenantID : string;
  Key_ConnectorID : string;
  Key_Result : string;
  Key_ErrorCode : string;
}.

#[export] Instance metricKey_eq_dec : EqDecision metricKey.
Proof. solve_decision. Defined.

#[export] Program Instance metricKey_countable : Countable metricKey :=
  inj_countable'
    (λ k, (Key_EventType k, Key_TenantID k, Key_ConnectorID k, Key_Result k, Key_ErrorCode k))
    (λ '(a, b, c, d, e), mkMetricKey a b c d e) _.
Next Obligation. by intros []. Qed.

Definition unknownMetricLabel : string := "unknown".
Definition invalidMetricLabel : string := "invalid".
Definition metricOverflowLabel : string := "overflow".
Definition maxMetricCounters : Z := 4096.

Abbreviation metricsStore := (gmap metricKey Z).
Definition newMetricsStore : metricsStore := ∅.

(** A rune outside ASCII fails the test at its first byte, so the loop over
    runes and a loop over bytes agree. *)
Definition label_byte (c : ascii) : bool :=
  is_lower c || is_upper c || is_digit c || existsb (Ascii.eqb c) ["_"; "-"; "."]%char.

Definition metricLabel (value emptyLabel : string) : string :=
  if (value =? "")%string then emptyLabel
  else if 128 <? Z.of_nat (String.length value) then invalidMetricLabel
  else if string_all label_byte value then value
  else invalidMetricLabel.

Definition key_of_event (e : Event) : metricKey :=
  mkMetricKey
    (metricLabel (EventType e) unknownMetricLabel)
    (metricLabel (Event_TenantID e) unknownMetricLabel)
    (metricLabel (Event_ConnectorID e) unknownMetricLabel)
    (metricLabel (Event_Result e) unknownMetricLabel)
    (metricLabel (Event_ErrorCode e) "").

Definition overflow_key : metricKey :=
  mkMetricKey metricOverflowLabel metricOverflowLabel metricOverflowLabel
    metricOverflowLabel metricOverflowLabel.

Definition record_metric (m : metricsStore) (e : Event) : metricsStore :=
  let key := key_of_event e in
  let key :=
    if bool_decide (m !! key = None) && (maxMetricCounters <=? Z.of_nat (size m))
    then overflow_key else key in
  <[key := wrapu64 (default 0 (m !! key) + 1)]> m.

Definition metricSortKey (k : metricKey) : string :=
  let sep := String NUL EmptyString in
  Key_EventType k +:+ sep +:+ Key_TenantID k +:+ sep +:+ Key_ConnectorID k +:+ sep +:+
  Key_Result k +:+ sep +:+ Key_ErrorCode k.

(** ** Exposition *)

(** [%q] on a label: labels are ASCII (see [safe_key]). *)
Definition quote (s : string) : string :=
  String double_quote (quote_bytes s +:+ String double_quote EmptyString).

(** [sort.Slice] with [metricSortKey]. *)
Definition key_le (k1 k2 : metricKey) : Prop := String.le (metricSortKey k1) (metricSortKey k2).
#[export] Instance key_le_dec k1 k2 : Decision (key_le k1 k2).
Proof. unfold key_le. apply _. Defined.
Definition sorted_keys (m : metricsStore) : list metricKey :=
  merge_sort key_le ((map_to_list m).*1).

Definition metric_line (m : metricsStore) (k : metricKey) : string :=
  "wordwarden_events_total{event_type=" +:+ quote (Key_EventType k) +:+
  ",tenant_id=" +:+ quote (Key_TenantID k) +:+
  ",connector_id=" +:+ quote (Key_ConnectorID k) +:+
  ",result=" +:+ quote (Key_Result k) +:+
  ",error_code=" +:+ quote (Key_ErrorCode k) +:+
  "} " +:+ pretty (Z.to_N (default 0 (m !! k))) +:+ newline.

Definition prometheus (m : metricsStore) : string :=
  "# HELP wordwarden_events_total Wordwarden audit-classified events." +:+ newline +:+
  "# TYPE wordwarden_events_total counter" +:+ newline +:+
  join "" (metric_line m <$> sorted_keys m).

(** ** Labels *)

(** A label fit for the exposition format: at most 128 bytes of letters, digits,
    underscores, dashes and dots. *)
Definition safe_label (s : string) : Prop :=
  string_all label_byte s = true ∧ (String.length s ≤ 128)%nat.

Definition safe_key (k : metricKey) : Prop :=
  safe_label (Key_EventType k) ∧ safe_label (Key_TenantID k) ∧
  safe_label (Key_ConnectorID k) ∧ safe_label (Key_Result k) ∧ safe_label (Key_ErrorCode k).

Lemma metricLabel_safe value emptyLabel :
  safe_label emptyLabel → safe_label (metricLabel value emptyLabel).
Proof.
  assert (safe_label invalidMetricLabel) by (split; [done|cbn; lia]).
  intros Hempty. unfold metricLabel. repeat case_match; try done.
  bool_to_prop. split; [done|lia].
Qed.

Lemma key_of_event_safe e : safe_key (key_of_event e).
Proof. repeat split; apply metricLabel_safe; (split; [done|cbn; lia]). Qed.

Lemma overflow_key_safe : safe_key overflow_key.
Proof. repeat split; cbn; lia. Qed.

(** ** Sums *)

Definition total (m : metricsStore) : Z := map_fold (λ _ v acc, v + acc) 0 m.

Lemma total_insert_new m k v : m !! k = None → total (<[k := v]> m) = v + total m.
Proof.
  intros Hk. unfold total. rewrite map_fold_insert_L; [done| |done].
  intros. lia.
Qed.

Lemma total_delete m k v : m !! k = Some v → total m = v + total (delete k m).
Proof.
  intros Hk. rewrite <-(insert_delete_id m k v) at 1 by done.
  by rewrite total_insert_new by apply lookup_delete_eq.
Qed.

Lemma total_insert m k v :
  total (<[k := v]> m) = total m - default 0 (m !! k) + v.
Proof.
  destruct (m !! k) as [w|] eqn:Hk; simpl.
  - rewrite (total_delete m k w Hk), <-insert_delete_eq, total_insert_new by apply lookup_delete_eq.
    lia.
  - rewrite total_insert_new by done. lia.
Qed.

Definition record_events (es : list Event) : metricsStore := foldl record_metric ∅ es.

(** The invariant of the store after [n] events. *)
Definition store_ok (n : nat) (m : metricsStore) : Prop :=
  map_Forall (λ k v, safe_key k ∧ 0 <= v <= total m) m ∧
  total m = Z.of_nat n ∧
  (Z.of_nat (size m) <= maxMetricCounters ∨
   Z.of_nat (size m) <= maxMetricCounters + 1 ∧ is_Some (m !! overflow_key)).

(** The key the code finally counts under. *)
Definition counted_key (m : metricsStore) (e : Event) : metricKey :=
  if bool_decide (m !! key_of_event e = None) && (maxMetricCounters <=? Z.of_nat (size m))
  then overflow_key else key_of_event e.

Lemma record_metric_key m e :
  record_metric m e =
  <[counted_key m e := wrapu64 (default 0 (m !! counted_key m e) + 1)]> m.
Proof. done. Qed.

Lemma counted_key_safe m e : safe_key (counted_key m e).
Proof.
  unfold counted_key. case_match; [apply overflow_key_safe|apply key_of_event_safe].
Qed.

Lemma counter_bound n m k : store_ok n m → 0 <= default 0 (m !! k) <= Z.of_nat n.
Proof.
  intros (Hall & Htotal & _). destruct (m !! k) as [v|] eqn:Hk; simpl; [|lia].
  destruct (Hall k v Hk). lia.
Qed.

Lemma record_metric_size n m e :
  store_ok n m →
  let m' := record_metric m e in
  Z.of_nat (size m') <= maxMetricCounters ∨
  Z.of_nat (size m') <= maxMetricCounters + 1 ∧ is_Some (m' !! overflow_key).
Proof.
  intros (_ & _ & Hsize) m'. subst m'. rewrite record_metric_key. unfold counted_key.
  destruct (m !! key_of_event e) as [v|] eqn:Hk; simpl.
  - rewrite map_size_insert_Some by eauto. rewrite lookup_insert_is_Some'. naive_solver.
  - destruct (Z.leb_spec maxMetricCounters (Z.of_nat (size m))) as [Hfull|Hroom].
    + right. rewrite lookup_insert_eq. split; [|by eexists].
      destruct (m !! overflow_key) as [w|] eqn:Ho.
      * rewrite map_size_insert_Some by eauto. unfold maxMetricCounters in *.
        destruct Hsize as [?|[? _]]; lia.
      * rewrite map_size_insert_None by done. destruct Hsize as [?|[_ [? ?]]]; [lia|done].
    + left. rewrite map_size_insert_None by done. lia.
Qed.

Lemma record_metric_ok n m e :
  Z.of_nat (S n) < 2 ^ 64 → store_ok n m → store_ok (S n) (record_metric m e).
Proof.
  intros Hn Hok. pose proof (record_metric_size n m e Hok) as Hsize.
  rewrite record_metric_key in *. set (k := counted_key m e) in *.
  pose proof (counter_bound n m k Hok) as Hk. pose proof Hok as (Hall & Htotal & _).
  unfold wrapu64 in *. rewrite Z.mod_small in * by lia.
  assert (total (<[k:=default 0 (m !! k) + 1]> m) = Z.of_nat (S n)) as Htotal'
    by (rewrite total_insert, Htotal; lia).
  split; [|done]. rewrite Htotal'. apply map_Forall_insert_2.
  - split; [apply counted_key_safe|lia].
  - intros j v Hj. destruct (Hall j v Hj). split; [done|lia].
Qed.

(** C39: the metrics store is bounded, exact and safe to expose.  After any
    number of events below 2^64, every label is at most 128 bytes of letters,
    digits, underscores, dashes and dots whatever the events carried, the
    counters add up to the number of events (none is lost or wraps), and there
    are at most 4097 of them, the last being the overflow counter. *)
Theorem metrics_store_sound (es : list Event) (Hlen : Z.of_nat (length es) < 2 ^ 64) :
  map_Forall (λ k _, safe_key k) (record_events es) ∧
  total (record_events es) = Z.of_nat (length es) ∧
  Z.of_nat (size (record_events es)) <= maxMetricCounters + 1.
Proof.
  assert (store_ok (length es) (record_events es)) as (Hall & Htotal & Hsize).
  { induction es as [|e es IH] using rev_ind.
    - split_and!; [apply map_Forall_empty|done|left]. vm_compute. discriminate.
    - rewrite length_app, Nat.add_comm in *. unfold record_events. rewrite foldl_app.
      apply record_metric_ok; [done|]. apply IH. cbn in Hlen. lia. }
  split_and!; [|done|lia].
  eapply map_Forall_impl; [exact Hall|]. naive_solver.
Qed.

Lemma metrics_store_sound_witness :
  total (record_events [error_event EventVerifyError "a b" false 0;
                        error_event EventVerifyError "" false 1]) = 2.
Proof. apply metrics_store_sound. vm_compute. reflexivity. Defined.

(** ** The order of the exposition *)

Lemma label_lacks_nul s : safe_label s → lacks NUL s = true.
Proof. intros [Hs _]. by apply (string_all_lacks label_byte). Qed.

(** The sort key determines a safe key. *)
Lemma metricSortKey_inj k1 k2 :
  safe_key k1 → safe_key k2 → metricSortKey k1 = metricSortKey k2 → k1 = k2.
Proof.
  destruct k1, k2. unfold safe_key, metricSortKey. simpl. intros. destruct_and?.
  repeat match goal with H : safe_label _ |- _ => apply label_lacks_nul in H end.
  do 4 (match goal with H : _ +:+ _ = _ |- _ => apply append_sep_inj in H as [-> H]; [|done..] end).
  by f_equal.
Qed.

Definition store_keys (m : metricsStore) : list metricKey := (map_to_list m).*1.

Lemma record_events_safe es : map_Forall (λ k _, safe_key k) (record_events es).
Proof.
  unfold record_events. induction es as [|e es IH] using rev_ind; [apply map_Forall_empty|].
  rewrite foldl_app. simpl. rewrite record_metric_key.
  apply map_Forall_insert_2; [apply counted_key_safe|done].
Qed.

Lemma store_keys_safe es : Forall safe_key (store_keys (record_events es)).
Proof.
  apply Forall_forall. intros k ([k' v] & -> & Hin%elem_of_map_to_list)%list_elem_of_fmap.
  by eapply record_events_safe.
Qed.

(** Safe keys have one ascending order. *)
Lemma key_order_unique l1 l2 :
  Forall safe_key l1 → l1 ≡ₚ l2 →
  StronglySorted key_le l1 → StronglySorted key_le l2 → l1 = l2.
Proof.
  intros Hsafe Hperm Hs1 Hs2. apply (StronglySorted_unique_strong key_le); [|done..].
  intros x1 x2 Hx1 Hx2 H12 H21. rewrite <-Hperm in Hx2. rewrite Forall_forall in Hsafe.
  apply metricSortKey_inj; [by apply Hsafe..|].
  unfold key_le in *. by apply (anti_symm String.le).
Qed.

Lemma sorted_keys_sorted m : StronglySorted key_le (sorted_keys m).
Proof.
  assert (Transitive key_le) as Htrans
    by (intros x y z Hxy Hyz; unfold key_le in *; by etrans).
  assert (Total key_le) as Htotal by (intros x y; apply (base.total String.le)).
  apply Sorted_StronglySorted; [done|]. by apply Sorted_merge_sort.
Qed.

(** The exposition does not depend on the order in which the map is
    traversed or on how the sort breaks ties: the keys of a store that only
    [record_metric] wrote have one ascending order, the one [prometheus] writes
    their lines in. *)
Theorem exposition_order (es : list Event) (l : list metricKey)
    (Hperm : l ≡ₚ store_keys (record_events es)) (Hsorted : StronglySorted key_le l) :
  prometheus (record_events es) =
  "# HELP wordwarden_events_total Wordwarden audit-classified events." +:+ newline +:+
  "# TYPE wordwarden_events_total counter" +:+ newline +:+
  join "" (metric_line (record_events es) <$> l).
Proof.
  unfold prometheus. replace (sorted_keys (record_events es)) with l; [done|].
  apply key_order_unique; [|by rewrite Hperm; symmetry; apply merge_sort_Permutation|done|
                           apply sorted_keys_sorted].
  rewrite Hperm. apply store_keys_safe.
Qed.

Definition two_events : list Event :=
  [error_event EventVerifyError "e" false 0; error_event EventHMACFailure "d" false 0].

Lemma exposition_order_witness :
  prometheus (record_events two_events) =
  "# HELP wordwarden_events_total Wordwarden audit-classified events." +:+ newline +:+
  "# TYPE wordwarden_events_total counter" +:+ newline +:+
  join "" (metric_line (record_events two_events) <$>
    [mkMetricKey EventHMACFailure "unknown" "unknown" "error" "d";
     mkMetricKey EventVerifyError "unknown" "unknown" "error" "e"]).
Proof.
  apply exposition_order.
  - apply (bool_decide_unpack _). vm_compute. reflexivity.
  - repeat constructor; apply (bool_decide_unpack _); vm_compute; reflexivity.
Defined.
