(* ===== verification/Json.v ===== *)
(** * Decoding request bodies: the part of [encoding/json] the connector relies on

    [json.NewDecoder], [DisallowUnknownFields] and [Decode] into a struct whose
    fields are strings or lists of strings.  Such a decoding succeeds only on a
    [null] or on an object whose keys are fields of the struct and whose values
    are strings, lists of strings or [null]: every other value, unknown key or
    malformed byte is an error, whatever else it contains.  So the decoder reads
    that grammar directly and answers [None] for an error. *)

From S2P Require Import Prelude GoStrings.

(** ** Lexical elements *)

Definition json_space (c : ascii) : bool :=
  existsb (Ascii.eqb c) [" "%char; "009"%char; LF; CR].

Fixpoint skip_spaces (s : string) : string :=
  match s with
  | String c s' => if json_space c then skip_spaces s' else s
  | EmptyString => s
  end.

Definition expect (c : ascii) (s : string) : option string :=
  match s with
  | String d s => if Ascii.eqb c d then Some s else None
  | EmptyString => None
  end.

Definition literal_null (s : string) : option string :=
  if has_prefix s "null" then Some (drop_bytes 4 s) else None.

(** The length of the UTF-8 sequence [s] starts with, 0 when it is malformed. *)
Definition continuation (s : string) (i : nat) (lo hi : N) : bool :=
  match String.get i s with Some c => in_range lo hi c | None => false end.

Definition utf8_length (s : string) : nat :=
  match s with
  | EmptyString => 0
  | String c _ =>
      let next := continuation s in
      if in_range 0 127 c then 1
      else if in_range 194 223 c && next 1%nat 128%N 191%N then 2
      else if in_range 224 224 c && next 1%nat 160%N 191%N && next 2%nat 128%N 191%N then 3
      else if (in_range 225 236 c || in_range 238 239 c)
              && next 1%nat 128%N 191%N && next 2%nat 128%N 191%N then 3
      else if in_range 237 237 c && next 1%nat 128%N 159%N && next 2%nat 128%N 191%N then 3
      else if in_range 240 240 c && next 1%nat 144%N 191%N && next 2%nat 128%N 191%N
              && next 3%nat 128%N 191%N then 4
      else if in_range 241 243 c && next 1%nat 128%N 191%N && next 2%nat 128%N 191%N
              && next 3%nat 128%N 191%N then 4
      else if in_range 244 244 c && next 1%nat 128%N 143%N && next 2%nat 128%N 191%N
              && next 3%nat 128%N 191%N then 4
      else 0
  end.

(** [utf8.EncodeRune] on a code point outside the surrogates *)
Definition bytes_string (l : list N) : string :=
  String.string_of_list_ascii (ascii_of_N <$> l).
Definition encode_rune (r : N) : string :=
  if (r <? 128)%N then bytes_string [r]
  else if (r <? 2048)%N then bytes_string [192 + r / 64; 128 + r mod 64]%N
  else if (r <? 65536)%N
  then bytes_string [224 + r / 4096; 128 + (r / 64) mod 64; 128 + r mod 64]%N
  else bytes_string
         [240 + r / 262144; 128 + (r / 4096) mod 64; 128 + (r / 64) mod 64; 128 + r mod 64]%N.

Definition replacement_char : string := encode_rune 65533.

Definition hex_value (c : ascii) : option N :=
  if is_digit c then Some (byte_code c - 48)%N
  else if in_range 97 102 c then Some (byte_code c - 87)%N
  else if in_range 65 70 c then Some (byte_code c - 55)%N
  else None.

(** the four digits of an escape *)
Definition hex4 (s : string) : option (N * string) :=
  match s with
  | String a (String b (String c (String d rest))) =>
      a ← hex_value a; b ← hex_value b; c ← hex_value c; d ← hex_value d;
      Some (((a * 16 + b) * 16 + c) * 16 + d, rest)%N
  | _ => None
  end.

Definition is_surrogate (r : N) : bool := (55296 <=? r)%N && (r <? 57344)%N.

(** The low half of a surrogate pair whose high half is [r], and the text
    after it, when [s] starts with one ([utf16.DecodeRune]). *)
Definition surrogate_pair (r : N) (s : string) : option (N * string) :=
  s ← expect backslash s; s ← expect "u"%char s;
  '(r1, rest) ← hex4 s;
  if (r <? 56320)%N && (56320 <=? r1)%N && (r1 <? 57344)%N
  then Some ((r - 55296) * 1024 + (r1 - 56320) + 65536, rest)%N else None.

Definition simple_escape (c : ascii) : option ascii :=
  match c with
  | "b" => Some "008" | "f" => Some "012" | "n" => Some LF | "r" => Some CR
  | "t" => Some "009" | "/" => Some "/"
  | _ => if Ascii.eqb c backslash then Some backslash
         else if Ascii.eqb c double_quote then Some double_quote else None
  end%char.

(** A string literal after its opening quote: the decoded text and the rest of
    the input ([stateInString] of the scanner and [unquote]). *)
Fixpoint string_body (fuel : nat) (s : string) : option (string * string) :=
  match fuel, s with
  | S fuel, String c s' =>
      let emit text rest :=
        '(tail, rest) ← string_body fuel rest; Some (text +:+ tail, rest) in
      if Ascii.eqb c double_quote then Some (EmptyString, s')
      else if Ascii.eqb c backslash then
        match s' with
        | String "u" digits =>
            '(r, rest) ← hex4 digits;
            if is_surrogate r then
              match surrogate_pair r rest with
              | Some (full, rest) => emit (encode_rune full) rest
              | None => emit replacement_char rest
              end
            else emit (encode_rune r) rest
        | String e rest =>
            c ← simple_escape e; emit (String c EmptyString) rest
        | EmptyString => None
        end
      else if (byte_code c <? 32)%N then None
      else
        match utf8_length s with
        | O => emit replacement_char s'
        | n => emit (String.substring 0 n s) (drop_bytes n s)
        end
  | _, _ => None
  end.

Definition string_literal (s : string) : option (string * string) :=
  s ← expect double_quote s; string_body (String.length s) s.

(** A string or [null]; [null] leaves the destination as it was. *)
Definition string_or_null (old s : string) : option (string * string) :=
  match literal_null s with
  | Some rest => Some (old, rest)
  | None => string_literal s
  end.

(** ** Lists of strings

    A slice and its backing array: a second value for the same key is written
    over the elements of the first, and a [null] element shows what is there. *)

Record slice := { backing : list string; slice_len : nat }.
Definition nil_slice : slice := {| backing := []; slice_len := 0 |}.
Definition elements (v : slice) : list string := take (slice_len v) (backing v).

(** Store at index [i], at most the length of the backing array. *)
Definition store (i : nat) (x : string) (l : list string) : list string :=
  if decide (i < length l) then <[i := x]> l else l ++ [x].

Fixpoint array_body (fuel i : nat) (l : list string) (s : string) : option (slice * string) :=
  match fuel with
  | O => None
  | S fuel =>
      '(x, s) ← string_or_null (default "" (l !! i)) (skip_spaces s);
      let l := store i x l in
      match skip_spaces s with
      | String "," s => array_body fuel (S i) l s
      | String "]" s => Some ({| backing := l; slice_len := S i |}, s)
      | _ => None
      end
  end.

Definition array_value (old : slice) (s : string) : option (slice * string) :=
  match literal_null s with
  | Some rest => Some (nil_slice, rest)
  | None =>
      s ← expect "["%char s;
      match skip_spaces s with
      | String "]" rest => Some (nil_slice, rest)
      | s => array_body (String.length s) 0 (backing old) s
      end
  end.

(** ** Objects *)

(** The names of a struct's string fields and of its list fields. *)
Record schema := { string_fields : list string; list_fields : list string }.

Record fields_value := {
  field_strings : gmap string string;
  field_lists : gmap string slice;
}.
Definition no_fields : fields_value := {| field_strings := ∅; field_lists := ∅ |}.

(** [foldName], as far as it can reach an ASCII name: ASCII letters in upper
    case, U+017F as S and U+212A as K. *)
Fixpoint fold_name (s : string) : string :=
  match s with
  | EmptyString => EmptyString
  | String c s =>
      match s with
      | String d s' =>
          if (byte_code c =? 197)%N && (byte_code d =? 191)%N then String "S" (fold_name s')
          else
            match s' with
            | String e s'' =>
                if (byte_code c =? 226)%N && (byte_code d =? 132)%N && (byte_code e =? 170)%N
                then String "K" (fold_name s'')
                else String (upper_byte c) (fold_name s)
            | EmptyString => String (upper_byte c) (fold_name s)
            end
      | EmptyString => String (upper_byte c) EmptyString
      end
  end.

(** The field a key names: by its exact name, else by its folded name. *)
Definition find_field (sch : schema) (key : string) : option string :=
  let names := string_fields sch ++ list_fields sch in
  if bool_decide (key ∈ names) then Some key
  else List.find (λ n, (fold_name n =? fold_name key)%string) names.

Definition field_value (sch : schema) (name : string) (acc : fields_value) (s : string)
    : option (fields_value * string) :=
  if bool_decide (name ∈ string_fields sch) then
    '(x, s) ← string_or_null (default "" (field_strings acc !! name)) s;
    Some ({| field_strings := <[name := x]> (field_strings acc);
             field_lists := field_lists acc |}, s)
  else
    '(v, s) ← array_value (default nil_slice (field_lists acc !! name)) s;
    Some ({| field_strings := field_strings acc;
             field_lists := <[name := v]> (field_lists acc) |}, s).

(** The members of an object, from the first key to the closing brace. *)
Fixpoint members (sch : schema) (fuel : nat) (acc : fields_value) (s : string)
    : option (fields_value * string) :=
  match fuel with
  | O => None
  | S fuel =>
      '(key, s) ← string_literal (skip_spaces s);
      s ← expect ":"%char (skip_spaces s);
      name ← find_field sch key;
      '(acc, s) ← field_value sch name acc (skip_spaces s);
      match skip_spaces s with
      | String "," s => members sch fuel acc s
      | String "}" s => Some (acc, s)
      | _ => None
      end
  end.

(** [Decode] with unknown fields disallowed: the fields set and the unread rest
    of the stream. *)
Definition decode_struct (sch : schema) (s : string) : option (fields_value * string) :=
  let s := skip_spaces s in
  match literal_null s with
  | Some rest => Some (no_fields, rest)
  | None =>
      s ← expect "{"%char s;
      match skip_spaces s with
      | String "}" rest => Some (no_fields, rest)
      | s => members sch (String.length s) no_fields s
      end
  end.

(** [Decode] returns [io.EOF]: nothing but white space is left. *)
Definition decode_eof (s : string) : bool := (skip_spaces s =? "")%string.

Definition get_string (v : fields_value) (name : string) : string :=
  default "" (field_strings v !! name).
Definition get_list (v : fields_value) (name : string) : list string :=
  elements (default nil_slice (field_lists v !! name)).
