(* ===== verification/Hmac.v ===== *)
(** * Request authentication (internal/adapters/hmac/verifier.go)

    The canonical form of a request, its HMAC signature and the verifier with an
    active and a previous key.  Of an [*http.Request] the model keeps what the
    verifier and the handler read: the method, the results of
    [URL.EscapedPath()] and [URL.Query()], the header map under canonical keys,
    the body as a stream that ends or fails, and the peer's address. *)

From S2P Require Import Prelude GoStrings GoCrypto GoTime.
Local Open Scope Z_scope.

(** ** Requests *)

Inductive read_error := MaxBytesError | OtherReadError.

#[export] Instance read_error_eq_dec : EqDecision read_error.
Proof. solve_decision. Defined.

(** The bytes a body delivers, and the error it ends with, if any. *)
Record BodyReader := { body_data : string; body_end : option read_error }.

(** [io.ReadAll] *)
Definition ReadAll (b : BodyReader) : result read_error string :=
  match body_end b with
  | None => Ok (body_data b)
  | Some e => Err e
  end.

(** [http.MaxBytesReader]: an error in place of the bytes past the [n]th. *)
Definition MaxBytesReader (b : BodyReader) (n : Z) : BodyReader :=
  if n <? Z.of_nat (String.length (body_data b))
  then {| body_data := String.substring 0 (Z.to_nat n) (body_data b);
          body_end := Some MaxBytesError |}
  else b.

Record Request := {
  Method : string;
  URL_EscapedPath : string;
  URL_Query : gmap string (list string);
  Header : gmap string (list string);
  Body : BodyReader;
  RemoteAddr : string;
}.

Definition with_body (req : Request) (b : BodyReader) : Request := {|
  Method := Method req; URL_EscapedPath := URL_EscapedPath req; URL_Query := URL_Query req;
  Header := Header req; Body := b; RemoteAddr := RemoteAddr req |}.

(** [Header.Values] and [Header.Get] *)
Definition header_values (req : Request) (name : string) : list string :=
  default [] (Header req !! canonical_header_key name).
Definition header_get (req : Request) (name : string) : string :=
  match header_values req name with v :: _ => v | [] => "" end.

(** ** Constants and data *)

Definition Algorithm : string := "AUTHRIM-HMAC-SHA256".
Definition HeaderConnectorID : string := "X-Authrim-Connector-Id".
Definition HeaderKeyID : string := "X-Authrim-Key-Id".
Definition HeaderRequestID : string := "X-Authrim-Request-Id".
Definition HeaderTimestamp : string := "X-Authrim-Timestamp".
Definition HeaderNonce : string := "X-Authrim-Nonce".
Definition HeaderSignedHeaders : string := "X-Authrim-Signed-Headers".
Definition HeaderSignature : string := "X-Authrim-Signature".

(** [ErrInvalidTimestamp] is always wrapped with the parser's error, and tested
    with [errors.Is]; [BodyRead] is the error of reading the body. *)
Inductive hmac_error :=
| ErrMissingHeader
| ErrUnsignedHeader
| ErrInvalidTimestamp
| ErrStaleTimestamp
| ErrUnknownKey
| ErrInvalidSignature
| ErrMalformedSignedField
| BodyRead (e : read_error).

#[export] Instance hmac_error_eq_dec : EqDecision hmac_error.
Proof. solve_decision. Defined.

Record Key := { KID : string; Secret : string }.
Record KeySet := { Active : Key; Previous : option Key }.

(** The verifier; its clock is an argument of [Verify]. *)
Record Verifier := { keys : KeySet; clockSkew : Z }.

Record VerificationResult := {
  ConnectorID : string;
  KeyID : string;
  RequestID : string;
  Timestamp : Z;
  Nonce : string;
}.

Definition NewVerifier (ks : KeySet) : Verifier := {| keys := ks; clockSkew := 2 * Minute |}.

Definition lookupKey (v : Verifier) (kid : string) : option Key :=
  if (KID (Active (keys v)) =? kid)%string then Some (Active (keys v))
  else match Previous (keys v) with
       | Some previous => if (KID previous =? kid)%string then Some previous else None
       | None => None
       end.

Record hmacHeaders := {
  h_connectorID : string;
  h_keyID : string;
  h_requestID : string;
  h_timestamp : string;
  h_nonce : string;
  h_signedHeaders : list string;
  h_signature : string;
}.

(** ** Headers *)

Definition singleHeaderValue (req : Request) (name : string) : result hmac_error string :=
  match header_values req name with
  | [] => Err ErrMissingHeader
  | [value] => Ok value
  | _ => Err ErrMalformedSignedField
  end.

Section tables.
Context `{UnicodeTables}.

(** One turn of the loop of [parseSignedHeaders]: the names kept so far, in
    order, and the set of those seen. *)
Definition parse_name (acc : list string * gset string) (part : string)
    : list string * gset string :=
  let '(headers, seen) := acc in
  let name := to_lower (trim_space part) in
  if (name =? "")%string then acc
  else if bool_decide (name ∈ seen) then acc
  else (headers ++ [name], {[name]} ∪ seen).

Definition parseSignedHeaders (raw : string) : list string :=
  sort_strings (foldl parse_name ([], ∅) (split_byte ";"%char raw)).1.

Definition required_signed_headers : list string :=
  "content-type" ::
  (to_lower <$> [HeaderConnectorID; HeaderKeyID; HeaderRequestID; HeaderTimestamp; HeaderNonce]).

Definition containsRequiredSignedHeaders (headers : list string) : bool :=
  forallb (λ header, bool_decide (header ∈ headers)) required_signed_headers.

Definition requiredHeaders (req : Request) : result hmac_error hmacHeaders :=
  connectorID ←? singleHeaderValue req HeaderConnectorID;;
  keyID ←? singleHeaderValue req HeaderKeyID;;
  requestID ←? singleHeaderValue req HeaderRequestID;;
  timestamp ←? singleHeaderValue req HeaderTimestamp;;
  nonce ←? singleHeaderValue req HeaderNonce;;
  rawSignedHeaders ←? singleHeaderValue req HeaderSignedHeaders;;
  signature ←? singleHeaderValue req HeaderSignature;;
  let values := [trim_space connectorID; trim_space keyID; trim_space requestID;
                 trim_space timestamp; trim_space nonce; trim_space rawSignedHeaders;
                 trim_space signature] in
  if existsb (String.eqb "") values then Err ErrMissingHeader
  else
    let signedHeaders := parseSignedHeaders (trim_space rawSignedHeaders) in
    if negb (containsRequiredSignedHeaders signedHeaders) then Err ErrUnsignedHeader
    else Ok {|
      h_connectorID := trim_space connectorID;
      h_keyID := trim_space keyID;
      h_requestID := trim_space requestID;
      h_timestamp := trim_space timestamp;
      h_nonce := trim_space nonce;
      h_signedHeaders := signedHeaders;
      h_signature := trim_space signature |}.
End tables.

Definition normalizeHeaderValue (value : string) : string := join " " (fields value).

(** ** Canonical requests *)

(** One line of [canonicalHeaders]. *)
Definition canonical_header (req : Request) (name : string) : result hmac_error string :=
  if contains_any [":"%char; CR; LF] name then Err ErrMalformedSignedField
  else
    value ←? singleHeaderValue req name;;
    if (value =? "")%string then Err ErrMissingHeader
    else
      let normalized := normalizeHeaderValue value in
      if (normalized =? "")%string then Err ErrMissingHeader
      else Ok (name +:+ ":" +:+ normalized).

Fixpoint canonical_header_lines (req : Request) (names : list string)
    : result hmac_error (list string) :=
  match names with
  | [] => Ok []
  | name :: rest =>
      line ←? canonical_header req name;;
      lines ←? canonical_header_lines req rest;;
      Ok (line :: lines)
  end.

Definition canonicalHeaders (req : Request) (signedHeaders : list string)
    : result hmac_error string :=
  lines ←? canonical_header_lines req signedHeaders;;
  Ok (join newline lines).

Definition canonicalQuery (values : gmap string (list string)) : string :=
  if bool_decide (values = ∅) then ""
  else
    let keys := sort_strings ((map_to_list values).*1) in
    join "&" (mjoin ((λ key,
      (λ value, query_escape key +:+ "=" +:+ query_escape value)
        <$> sort_strings (default [] (values !! key))) <$> keys)).

Definition CanonicalRequest (req : Request) (body : string) (signedHeaders : list string)
    (timestamp nonce : string) : result hmac_error string :=
  canonical ←? canonicalHeaders req signedHeaders;;
  Ok (join newline [
    Algorithm;
    timestamp;
    nonce;
    Method req;
    URL_EscapedPath req;
    canonicalQuery (URL_Query req);
    canonical;
    join ";" signedHeaders;
    hex_encode (Sha256.sum256 body)]).

Definition SignCanonical (canonical secret : string) : string :=
  hex_encode (Sha256.hmac secret canonical).

(** ** Verification *)

Section verify.
Context `{UnicodeTables}.

Definition Verify (v : Verifier) (now : Z) (req : Request)
    : result hmac_error (VerificationResult * string) :=
  match ReadAll (Body req) with
  | Err e => Err (BodyRead e)
  | Ok body =>
      headers ←? requiredHeaders req;;
      match parse_rfc3339 (h_timestamp headers) with
      | None => Err ErrInvalidTimestamp
      | Some timestamp =>
          if clockSkew v <? dur_abs (time_sub now timestamp) then Err ErrStaleTimestamp
          else
            match lookupKey v (h_keyID headers) with
            | None => Err ErrUnknownKey
            | Some key =>
                canonical ←? CanonicalRequest req body (h_signedHeaders headers)
                               (h_timestamp headers) (h_nonce headers);;
                if negb (SignCanonical canonical (Secret key) =? h_signature headers)%string
                then Err ErrInvalidSignature
                else Ok ({| ConnectorID := h_connectorID headers;
                            KeyID := h_keyID headers;
                            RequestID := h_requestID headers;
                            Timestamp := timestamp;
                            Nonce := h_nonce headers |}, body)
            end
      end
  end.
End verify.
