(* ===== verification/HmacProofs.v ===== *)
(** * Properties of the request authentication

    The shape of the signed-header list, what the canonical form binds, and when
    [Verify] accepts. *)

From S2P Require Import Prelude GoStrings GoCrypto GoTime Hmac.
Local Open Scope Z_scope.

(** ** The signed-header list *)

Section signed_headers.
Context `{UnicodeTables}.

Lemma parse_loop_spec parts headers seen hs sn :
  foldl parse_name (headers, seen) parts = (hs, sn) →
  NoDup headers → (∀ x, x ∈ seen ↔ x ∈ headers) →
  NoDup hs ∧
  ∀ x, x ∈ hs ↔ x ∈ headers ∨ x ≠ "" ∧ ∃ part, part ∈ parts ∧ x = to_lower (trim_space part).
Proof.
  revert headers seen. induction parts as [|part parts IH]; intros headers seen; simpl.
  { intros [= -> ->] Hnd _. split; [done|]. set_solver. }
  destruct (String.eqb_spec (to_lower (trim_space part)) "") as [He|He].
  { intros Hf Hnd Hseen. destruct (IH _ _ Hf Hnd Hseen) as [? Hiff]. split; [done|].
    set_solver. }
  case_bool_decide as Hin.
  { intros Hf Hnd Hseen. destruct (IH _ _ Hf Hnd Hseen) as [? Hiff]. split; [done|].
    intros x. rewrite Hiff. set_solver. }
  intros Hf Hnd Hseen. rewrite Hseen in Hin. destruct (IH _ _ Hf) as [? Hiff].
  { apply NoDup_app. split_and!; [done|set_solver|apply NoDup_singleton]. }
  { set_solver. }
  split; [done|]. intros x. rewrite Hiff. set_solver.
Qed.

Lemma parse_spec raw :
  NoDup (parseSignedHeaders raw) ∧
  ∀ x, x ∈ parseSignedHeaders raw ↔
       x ≠ "" ∧ ∃ part, part ∈ split_byte ";"%char raw ∧ x = to_lower (trim_space part).
Proof.
  unfold parseSignedHeaders. destruct (foldl _ _ _) as [hs sn] eqn:Hf. simpl.
  destruct (parse_loop_spec _ _ _ _ _ Hf) as [Hnd Hiff]; [constructor|set_solver|].
  split; [by apply NoDup_sort_strings|]. intros x.
  rewrite elem_of_sort_strings, Hiff. set_solver.
Qed.

(** Header names as [join ";"] can take apart. *)
Definition signed_name (x : string) : Prop := x ≠ "" ∧ lacks ";"%char x = true.

Lemma parse_signed_names raw : Forall signed_name (parseSignedHeaders raw).
Proof.
  apply Forall_forall. intros x Hx. apply parse_spec in Hx as (Hne & part & Hin & ->).
  split; [done|]. apply to_lower_lacks; [done|]. apply trim_space_all.
  pose proof (split_byte_all_lack ";"%char raw) as Hall. rewrite Forall_forall in Hall. by apply Hall.
Qed.

Lemma containsRequired_spec headers :
  containsRequiredSignedHeaders headers = true ↔ required_signed_headers ⊆ headers.
Proof.
  unfold containsRequiredSignedHeaders. rewrite List.forallb_forall. split.
  - intros Hall x Hx. apply list_elem_of_In in Hx. specialize (Hall x Hx).
    by apply bool_decide_eq_true in Hall.
  - intros Hsub x Hx. apply bool_decide_eq_true, Hsub. by apply list_elem_of_In.
Qed.

Lemma required_nonempty headers : required_signed_headers ⊆ headers → headers ≠ [].
Proof.
  intros Hsub ->. apply list_nil_subseteq in Hsub. unfold required_signed_headers in Hsub.
  discriminate.
Qed.

(** The name [x] stands between semicolons of the header, up to spaces and case. *)
Definition header_lists (raw x : string) : Prop :=
  x ≠ "" ∧ ∃ part, part ∈ split_byte ";"%char raw ∧ x = to_lower (trim_space part).

(** [parseSignedHeaders] computes the set of the names between semicolons,
    trimmed and lower-cased, without the empty one: its list has exactly those
    names, each once, in ascending byte order, so the order, the repetitions,
    the case and the spacing of the header do not matter. *)
Theorem parseSignedHeaders_correct (raw : string) :
  Sorted String.le (parseSignedHeaders raw) ∧
  NoDup (parseSignedHeaders raw) ∧
  ∀ x, x ∈ parseSignedHeaders raw ↔ header_lists raw x.
Proof. split; [apply sort_strings_sorted|apply parse_spec]. Qed.
End signed_headers.

(** ** Canonical header lines *)

(** The value of a header that occurs once. *)
Definition single (req : Request) (name value : string) : Prop :=
  header_values req name = [value].

Lemma singleHeaderValue_ok req name v :
  singleHeaderValue req name = Ok v ↔ single req name v.
Proof.
  unfold singleHeaderValue, single.
  destruct (header_values req name) as [|x [|y l]]; split; intros; simplify_eq; done.
Qed.

(** A header the canonical form can contain: once, not blank, with no byte in
    its name that would break the line format. *)
Definition signable (req : Request) (name : string) : Prop :=
  contains_any [":"%char; CR; LF] name = false ∧
  ∃ v, single req name v ∧ normalizeHeaderValue v ≠ "".

(** The normalised value of a header. *)
Definition signed_value (req : Request) (name : string) : string :=
  normalizeHeaderValue (header_get req name).

Lemma canonical_header_ok req name line :
  canonical_header req name = Ok line ↔
  signable req name ∧ line = name +:+ ":" +:+ signed_value req name.
Proof.
  unfold canonical_header, signable, signed_value, header_get.
  destruct (contains_any _ _); [naive_solver|].
  split.
  - intros (v & Hv & Hl)%result_bind_ok. apply singleHeaderValue_ok in Hv.
    unfold single in *. rewrite Hv. cbn zeta in Hl.
    destruct (String.eqb_spec v ""); [done|].
    destruct (String.eqb_spec (normalizeHeaderValue v) ""); simplify_eq. eauto.
  - intros [[_ (v & Hv & Hne)] ->]. apply result_bind_ok. exists v.
    rewrite singleHeaderValue_ok. split; [done|]. rewrite Hv.
    destruct (String.eqb_spec v "") as [->|]; [done|]. cbn zeta.
    by destruct (String.eqb_spec (normalizeHeaderValue v) "").
Qed.

Lemma canonical_lines_ok req names lines :
  canonical_header_lines req names = Ok lines ↔
  Forall (signable req) names ∧
  lines = (λ name, name +:+ ":" +:+ signed_value req name) <$> names.
Proof.
  revert lines. induction names as [|name names IH]; intros lines; cbn [canonical_header_lines].
  { rewrite Forall_nil. naive_solver. }
  rewrite Forall_cons, result_bind_ok. setoid_rewrite canonical_header_ok.
  setoid_rewrite result_bind_ok. setoid_rewrite IH. simpl. split.
  - intros (l & [? ->] & ls & [? ->] & [= <-]). done.
  - intros [[? ?] ->]. eauto 10.
Qed.

Lemma contains_any_lacks cs c s : contains_any cs s = false → c ∈ cs → lacks c s = true.
Proof.
  unfold contains_any. intros Hex Hin. destruct (lacks c s) eqn:E; [done|].
  assert (existsb (λ c, contains_byte c s) cs = true) as Ht; [|congruence].
  apply List.existsb_exists. exists c. split; [by apply list_elem_of_In|].
  unfold contains_byte. by rewrite E.
Qed.

Lemma signable_lacks req name c :
  signable req name → c ∈ [":"%char; CR; LF] → lacks c name = true.
Proof. intros [? _]. by apply contains_any_lacks. Qed.

Lemma line_lacks_lf req name :
  signable req name → lacks LF (name +:+ ":" +:+ signed_value req name) = true.
Proof.
  intros Hs. rewrite !lacks_app. rewrite (signable_lacks req) by (done || set_solver).
  simpl. apply join_fields_lacks_lf.
Qed.

(** ** The canonical query *)

Definition query_keys (q : gmap string (list string)) : list string :=
  sort_strings ((map_to_list q).*1).

(** The pairs in the order [canonicalQuery] writes them. *)
Definition query_pairs (q : gmap string (list string)) : list (string * string) :=
  mjoin ((λ key, (λ value, (key, value)) <$> sort_strings (default [] (q !! key)))
           <$> query_keys q).

Definition write_pair (p : string * string) : string :=
  query_escape p.1 +:+ "=" +:+ query_escape p.2.

Lemma canonicalQuery_pairs q : canonicalQuery q = join "&" (write_pair <$> query_pairs q).
Proof.
  unfold canonicalQuery, query_pairs. case_bool_decide as Hq.
  - subst q. unfold query_keys. by rewrite map_to_list_empty.
  - fold (query_keys q). cbv zeta. rewrite fmap_mjoin_fmap. do 2 f_equal.
    apply list_fmap_ext. intros _ k _. by rewrite <-list_fmap_compose.
Qed.

Lemma write_pair_lacks c p :
  query_byte c = false → Ascii.eqb c "="%char = false → lacks c (write_pair p) = true.
Proof.
  intros Hc He. unfold write_pair. rewrite !lacks_app, !query_escape_lacks by done.
  cbn. by rewrite He.
Qed.

Lemma write_pair_inj p1 p2 : write_pair p1 = write_pair p2 → p1 = p2.
Proof.
  destruct p1 as [a b], p2 as [a' b']. unfold write_pair. simpl.
  intros [Ha Hb]%append_sep_inj; [|by apply query_escape_lacks..].
  apply query_escape_inj in Ha. apply query_escape_inj in Hb.
  congruence.
Qed.

Lemma write_pair_nonempty p : write_pair p ≠ "".
Proof.
  unfold write_pair. destruct (query_escape p.1); by rewrite ?append_nil, ?append_cons.
Qed.

Lemma canonicalQuery_lacks_lf q : lacks LF (canonicalQuery q) = true.
Proof.
  rewrite canonicalQuery_pairs. apply join_all; [done|]. apply Forall_fmap, Forall_true.
  intros p. by apply write_pair_lacks.
Qed.

Lemma join_write_pairs_inj ps qs :
  join "&" (write_pair <$> ps) = join "&" (write_pair <$> qs) → ps = qs.
Proof.
  assert (∀ l, Forall (λ s, lacks "&"%char s = true) (write_pair <$> l)) as Hl.
  { intros l. apply Forall_fmap, Forall_true. intros p. by apply write_pair_lacks. }
  assert (∀ p l, join "&" (write_pair <$> (p :: l)) ≠ "") as Hne.
  { intros p l Hj. apply (f_equal (split_byte "&"%char)) in Hj.
    rewrite split_join in Hj by done. cbn in Hj. injection Hj as Hj _.
    by apply write_pair_nonempty in Hj. }
  destruct ps as [|p ps], qs as [|q qs]; intros Heq; [done|by edestruct Hne..|].
  apply join_inj in Heq; [|done..].
  revert Heq. apply list_fmap_eq_inj. intros ??. apply write_pair_inj.
Qed.

(** The values of one key among the pairs. *)
Definition values_of (k : string) (ps : list (string * string)) : list string :=
  snd <$> filter (λ p, p.1 = k) ps.

Lemma values_of_app k ps qs : values_of k (ps ++ qs) = values_of k ps ++ values_of k qs.
Proof. unfold values_of. by rewrite filter_app, fmap_app. Qed.

Lemma values_of_block k k' vs :
  values_of k ((λ v, (k', v)) <$> vs) = if decide (k' = k) then vs else [].
Proof.
  unfold values_of. induction vs as [|v vs IH]; [by case_decide|].
  rewrite fmap_cons, filter_cons. cbn [fst]. case_decide; rewrite ?fmap_cons, IH; done.
Qed.

(** The pairs as the code writes them, over any list of keys. *)
Definition pairs_over (q : gmap string (list string)) (ks : list string) : list (string * string) :=
  mjoin ((λ key, (λ value, (key, value)) <$> sort_strings (default [] (q !! key))) <$> ks).

Lemma pairs_over_cons q k ks :
  pairs_over q (k :: ks) =
  ((λ value, (k, value)) <$> sort_strings (default [] (q !! k))) ++ pairs_over q ks.
Proof. done. Qed.

Lemma values_of_pairs_over q k ks :
  NoDup ks →
  values_of k (pairs_over q ks) =
  if decide (k ∈ ks) then sort_strings (default [] (q !! k)) else [].
Proof.
  induction ks as [|k' ks IH]; intros Hnd; [done|].
  apply NoDup_cons in Hnd as [Hnotin Hnd].
  rewrite pairs_over_cons, values_of_app, values_of_block, IH by done.
  repeat case_decide; subst; rewrite ?app_nil_r; set_solver.
Qed.

Lemma values_of_query_pairs q k :
  values_of k (query_pairs q) = sort_strings (default [] (q !! k)).
Proof.
  change (query_pairs q) with (pairs_over q (query_keys q)).
  rewrite values_of_pairs_over by apply NoDup_sort_strings, NoDup_fst_map_to_list.
  case_decide as Hk; [done|]. destruct (q !! k) as [l|] eqn:Hq; [|done].
  destruct Hk. apply elem_of_sort_strings, list_elem_of_fmap. exists (k, l).
  by rewrite elem_of_map_to_list.
Qed.

(** Two queries with the same canonical form give every key the same values. *)
Definition same_query (q1 q2 : gmap string (list string)) : Prop :=
  ∀ k, default [] (q1 !! k) ≡ₚ default [] (q2 !! k).

Lemma canonicalQuery_binds q1 q2 :
  canonicalQuery q1 = canonicalQuery q2 → same_query q1 q2.
Proof.
  rewrite !canonicalQuery_pairs. intros Heq%join_write_pairs_inj k.
  rewrite <-(sort_strings_perm (default [] (q1 !! k))), <-(sort_strings_perm (default [] (q2 !! k))).
  by rewrite <-!values_of_query_pairs, Heq.
Qed.

(** ** The canonical form *)

(** The text [CanonicalRequest] produces when every signed header is signable. *)
Definition canonical_text (req : Request) (body : string) (hs : list string)
    (timestamp nonce : string) : string :=
  join newline ([Algorithm; timestamp; nonce; Method req; URL_EscapedPath req;
                 canonicalQuery (URL_Query req)] ++
                ((λ name, name +:+ ":" +:+ signed_value req name) <$> hs) ++
                [join ";" hs; hex_encode (Sha256.sum256 body)]).

Lemma CanonicalRequest_ok req body hs ts nonce c :
  hs ≠ [] →
  CanonicalRequest req body hs ts nonce = Ok c ↔
  Forall (signable req) hs ∧ c = canonical_text req body hs ts nonce.
Proof.
  intros Hne. unfold CanonicalRequest, canonicalHeaders, canonical_text.
  assert (∀ head tail lines, lines ≠ [] →
    join newline (head ++ join newline lines :: tail) = join newline (head ++ lines ++ tail))
    as Hsplice by (intros; by apply join_splice).
  rewrite result_bind_ok. setoid_rewrite result_bind_ok.
  setoid_rewrite canonical_lines_ok.
  assert (((λ name, name +:+ ":" +:+ signed_value req name) <$> hs) ≠ []) as Hne'
    by (by destruct hs).
  rewrite <-Hsplice by done. naive_solver.
Qed.

(** The parts of a request that come from a header or the request line hold no
    line feed: the HTTP server's parser rejects one. *)
Definition single_line (req : Request) : Prop :=
  lacks LF (Method req) = true ∧ lacks LF (URL_EscapedPath req) = true ∧
  ∀ name v, v ∈ header_values req name → lacks LF v = true.

Lemma canonical_text_lines_lack req body hs ts nonce :
  single_line req → lacks LF ts = true → lacks LF nonce = true →
  Forall (signable req) hs →
  Forall (λ s, lacks LF s = true)
    ([Algorithm; ts; nonce; Method req; URL_EscapedPath req; canonicalQuery (URL_Query req)] ++
     ((λ name, name +:+ ":" +:+ signed_value req name) <$> hs) ++
     [join ";" hs; hex_encode (Sha256.sum256 body)]).
Proof.
  intros (? & ? & _) ? ? Hs. rewrite !Forall_app, !Forall_cons, Forall_fmap.
  split_and!; try done.
  - apply canonicalQuery_lacks_lf.
  - eapply Forall_impl; [done|]. intros x. apply line_lacks_lf.
  - apply join_all; [done|]. eapply Forall_impl; [done|]. intros x Hx.
    apply (signable_lacks req x LF Hx). set_solver.
  - apply hex_encode_lacks_lf.
Qed.

(** What the canonical form binds: everything but the white space inside header
    values, the order of the values of a query key and, through the hash, the
    body. *)
Record same_signed (req1 req2 : Request) (body1 body2 : string) (hs1 hs2 : list string) : Prop := {
  same_method : Method req1 = Method req2;
  same_path : URL_EscapedPath req1 = URL_EscapedPath req2;
  same_queries : same_query (URL_Query req1) (URL_Query req2);
  same_names : hs1 = hs2;
  same_values : Forall (λ name, signed_value req1 name = signed_value req2 name) hs1;
  same_body_hash : Sha256.sum256 body1 = Sha256.sum256 body2;
}.

Lemma signed_lines_inj req1 req2 hs1 hs2 :
  Forall (signable req1) hs1 → Forall (signable req2) hs2 →
  (λ name, name +:+ ":" +:+ signed_value req1 name) <$> hs1 =
  (λ name, name +:+ ":" +:+ signed_value req2 name) <$> hs2 →
  hs1 = hs2 ∧ Forall (λ name, signed_value req1 name = signed_value req2 name) hs1.
Proof.
  revert hs2. induction hs1 as [|x hs1 IH]; intros [|y hs2] H1 H2; try done.
  rewrite !fmap_cons. intros [= Hxy Htl].
  apply Forall_cons in H1 as [Hx H1]. apply Forall_cons in H2 as [Hy H2].
  destruct (IH hs2 H1 H2 Htl) as [-> Hall].
  apply append_sep_inj in Hxy as [-> Hv];
    [|by apply (signable_lacks req1 _ _ Hx); set_solver
     |by apply (signable_lacks req2 _ _ Hy); set_solver].
  by repeat constructor.
Qed.

Lemma canonical_text_binds req1 req2 body1 body2 hs1 hs2 ts1 ts2 nonce1 nonce2 :
  single_line req1 → single_line req2 →
  lacks LF ts1 = true → lacks LF ts2 = true → lacks LF nonce1 = true → lacks LF nonce2 = true →
  Forall (signable req1) hs1 → Forall (signable req2) hs2 →
  canonical_text req1 body1 hs1 ts1 nonce1 = canonical_text req2 body2 hs2 ts2 nonce2 →
  ts1 = ts2 ∧ nonce1 = nonce2 ∧ same_signed req1 req2 body1 body2 hs1 hs2.
Proof.
  intros ? ? ? ? ? ? Hs1 Hs2 Heq. apply join_inj in Heq;
    [|done|done|by apply canonical_text_lines_lack..].
  injection Heq as -> -> Hm Hp Hq Hrest.
  apply app_inj_suffix in Hrest as [Hlines Htail]; [|done].
  injection Htail as _ Hb. apply signed_lines_inj in Hlines as [-> Hvals]; [|done..].
  do 2 (split; [done|]).
  constructor; [done..|by apply canonicalQuery_binds|done|done|by apply hex_encode_inj].
Qed.

(** ** Acceptance *)

Section acceptance.
Context `{UnicodeTables}.

(** The trimmed value of a header that occurs once and is not blank. *)
Definition field_is (req : Request) (name value : string) : Prop :=
  value ≠ "" ∧ ∃ raw, single req name raw ∧ value = trim_space raw.

(** [key] is the one configured under [kid], the active key first. *)
Definition configured_key (ks : KeySet) (kid : string) (key : Key) : Prop :=
  KID key = kid ∧
  (key = Active ks ∨ KID (Active ks) ≠ kid ∧ Previous ks = Some key).

Lemma lookupKey_spec v kid key :
  lookupKey v kid = Some key ↔ configured_key (keys v) kid key.
Proof.
  unfold lookupKey, configured_key.
  destruct (String.eqb_spec (KID (Active (keys v))) kid); [naive_solver|].
  destruct (Previous (keys v)) as [p|]; [|naive_solver].
  destruct (String.eqb_spec (KID p) kid); naive_solver.
Qed.

Definition headers_present (req : Request) (h : hmacHeaders) (rawSigned : string) : Prop :=
  field_is req HeaderConnectorID (h_connectorID h) ∧
  field_is req HeaderKeyID (h_keyID h) ∧
  field_is req HeaderRequestID (h_requestID h) ∧
  field_is req HeaderTimestamp (h_timestamp h) ∧
  field_is req HeaderNonce (h_nonce h) ∧
  field_is req HeaderSignedHeaders rawSigned ∧
  field_is req HeaderSignature (h_signature h) ∧
  h_signedHeaders h = parseSignedHeaders rawSigned ∧
  required_signed_headers ⊆ h_signedHeaders h.

Lemma requiredHeaders_ok req h :
  requiredHeaders req = Ok h ↔ ∃ rawSigned, headers_present req h rawSigned.
Proof.
  unfold requiredHeaders, headers_present, field_is. split.
  - intros (c & Hc & Hr)%result_bind_ok. apply result_bind_ok in Hr as (k & Hk & Hr).
    apply result_bind_ok in Hr as (r & Hrq & Hr). apply result_bind_ok in Hr as (t & Ht & Hr).
    apply result_bind_ok in Hr as (n & Hn & Hr). apply result_bind_ok in Hr as (g & Hg & Hr).
    apply result_bind_ok in Hr as (s & Hs & Hr). rewrite singleHeaderValue_ok in *.
    cbv zeta in Hr. cbn [existsb] in Hr. case_match eqn:He; [done|].
    rewrite !orb_false_iff, !String.eqb_neq in He. destruct_and?.
    case_match eqn:Hreq; [done|]. apply negb_false_iff, containsRequired_spec in Hreq.
    simplify_eq. exists (trim_space g). simpl. repeat split; eauto.
  - intros (g & (? & c & Hc & ?) & (? & k & Hk & ?) & (? & r & Hr & ?) & (? & t & Ht & ?) &
            (? & n & Hn & ?) & (? & g' & Hg & ?) & (? & s & Hs & ?) & Hsig & Hsub).
    rewrite <-singleHeaderValue_ok in *. rewrite Hc, Hk, Hr, Ht, Hn, Hg, Hs.
    destruct h; simpl in *; subst.
    repeat match goal with
    | Hne : trim_space ?x ≠ "" |- context [trim_space ?x] =>
        destruct (trim_space x) eqn:?; [done|clear Hne]
    end.
    apply containsRequired_spec in Hsub. by rewrite Hsub.
Qed.

(** The request carries, once each, the authentication headers with the values
    of [res]; its timestamp is within two minutes of the verifier's clock; the
    headers it signs include the required ones; and its signature is the HMAC
    of its canonical text under the key configured for its key id. *)
Record accepted (ks : KeySet) (now : Z) (req : Request) (res : VerificationResult)
    (body timestamp signedHeaders signature : string) (key : Key) : Prop := {
  acc_body : Body req = {| body_data := body; body_end := None |};
  acc_headers : headers_present req {|
    h_connectorID := ConnectorID res; h_keyID := KeyID res; h_requestID := RequestID res;
    h_timestamp := timestamp; h_nonce := Nonce res;
    h_signedHeaders := parseSignedHeaders signedHeaders; h_signature := signature |} signedHeaders;
  acc_timestamp : parse_rfc3339 timestamp = Some (Timestamp res);
  acc_fresh : Z.abs (now - Timestamp res) <= 2 * Minute;
  acc_key : configured_key ks (KeyID res) key;
  acc_signable : Forall (signable req) (parseSignedHeaders signedHeaders);
  acc_signature :
    signature = SignCanonical (canonical_text req body (parseSignedHeaders signedHeaders)
                                 timestamp (Nonce res)) (Secret key);
}.

Lemma ReadAll_ok b s : ReadAll b = Ok s ↔ b = {| body_data := s; body_end := None |}.
Proof. destruct b as [d [e|]]; unfold ReadAll; simpl; naive_solver. Qed.

Lemma verify_accepts ks now req res body :
  Verify (NewVerifier ks) now req = Ok (res, body) ↔
  ∃ timestamp signedHeaders signature key,
    accepted ks now req res body timestamp signedHeaders signature key.
Proof.
  unfold Verify. destruct (ReadAll (Body req)) as [b|e] eqn:Hread; last first.
  { split; [done|]. intros (ts & sh & sg & key & Hacc).
    apply acc_body in Hacc. by rewrite Hacc in Hread. }
  apply ReadAll_ok in Hread. split.
  - intros (h & Hh & Hv)%result_bind_ok. apply requiredHeaders_ok in Hh as (raw & Hh).
    case_match eqn:Hts; [|done]. case_match eqn:Hskew; [done|].
    case_match eqn:Hkey; [|done]. apply result_bind_ok in Hv as (c & Hc & Hv).
    case_match eqn:Hsig; [done|]. bool_to_prop. simplify_eq.
    apply lookupKey_spec in Hkey. destruct Hh as (Hh1 & Hh2 & Hh3 & Hh4 & Hh5 & Hh6 & Hh7 & Hhs & Hsub).
    apply CanonicalRequest_ok in Hc as [Hable ->];
      [|by apply required_nonempty].
    exists (h_timestamp h), raw, (h_signature h), k. rewrite Hhs in *.
    constructor; try done.
    simpl in *. apply dur_abs_sub_le; [vm_compute; done|done].
  - intros (ts & sh & sg & key & [Hb Hh Hts Hfresh Hkey Hable Hsig]).
    assert (requiredHeaders req = Ok _) as Hreq by (apply requiredHeaders_ok; eauto).
    rewrite Hreq. cbn [result_bind h_timestamp h_keyID h_signedHeaders h_nonce h_signature].
    rewrite Hts. apply dur_abs_sub_le in Hfresh; [|vm_compute; done].
    change (clockSkew (NewVerifier ks)) with (2 * Minute).
    destruct (Z.ltb_spec (2 * Minute) (dur_abs (time_sub now (Timestamp res)))); [lia|].
    apply (lookupKey_spec (NewVerifier ks)) in Hkey. rewrite Hkey.
    destruct Hh as (_ & _ & _ & _ & _ & _ & _ & _ & Hsub).
    rewrite (proj2 (CanonicalRequest_ok req b (parseSignedHeaders sh) ts (Nonce res) _
                      (required_nonempty _ Hsub)) (conj Hable eq_refl)). cbn [result_bind].
    assert (b = body) as -> by congruence. rewrite <-Hsig, String.eqb_refl. by destruct res.
Qed.

(** C5: [Verify] accepts a request exactly when it is authentic: each
    authentication header occurs once and is not blank, the timestamp is within
    two minutes of the verifier's clock on either side, the key id names the
    active key or else the previous one, the signed headers include the required
    ones, each occurring once, and the signature is the HMAC of the canonical
    text of the request under that key; the result then carries the trimmed
    headers and the body the caller goes on to parse. *)
Theorem verify_correct (ks : KeySet) (now : Z) (req : Request)
    (res : VerificationResult) (body : string) :
  Verify (NewVerifier ks) now req = Ok (res, body) ↔
  ∃ timestamp signedHeaders signature key,
    accepted ks now req res body timestamp signedHeaders signature key.
Proof. apply verify_accepts. Qed.

(** These two texts are different and have the same HMAC under the key. *)
Definition hmac_collide (secret text1 text2 : string) : Prop :=
  text1 ≠ text2 ∧ Sha256.hmac secret text1 = Sha256.hmac secret text2.

Lemma single_trim_lacks req name value :
  single_line req → field_is req name value → lacks LF value = true.
Proof.
  intros (_ & _ & Hl) (_ & raw & Hraw & ->). apply trim_space_all, (Hl name).
  rewrite Hraw. set_solver.
Qed.

(** C11: a signature cannot be moved to another request.  If two requests are
    accepted with the same signature under the same key then either their
    canonical texts are two different texts with one HMAC, or they have the same
    timestamp, nonce, method, path, query, signed headers with the same
    normalised values, and body digest. *)
Theorem signature_binds_request (ks1 ks2 : KeySet) (now1 now2 : Z) (req1 req2 : Request)
    (res1 res2 : VerificationResult) (body1 body2 ts1 ts2 sh1 sh2 signature : string) (key : Key)
    (Hline1 : single_line req1) (Hline2 : single_line req2)
    (Hacc1 : accepted ks1 now1 req1 res1 body1 ts1 sh1 signature key)
    (Hacc2 : accepted ks2 now2 req2 res2 body2 ts2 sh2 signature key) :
  hmac_collide (Secret key)
    (canonical_text req1 body1 (parseSignedHeaders sh1) ts1 (Nonce res1))
    (canonical_text req2 body2 (parseSignedHeaders sh2) ts2 (Nonce res2)) ∨
  Timestamp res1 = Timestamp res2 ∧ Nonce res1 = Nonce res2 ∧
  same_signed req1 req2 body1 body2 (parseSignedHeaders sh1) (parseSignedHeaders sh2).
Proof.
  destruct Hacc1 as [_ (_ & _ & _ & Ht1 & Hn1 & _) Hp1 _ _ Hs1 Hsig1].
  destruct Hacc2 as [_ (_ & _ & _ & Ht2 & Hn2 & _) Hp2 _ _ Hs2 Hsig2]. simpl in *.
  rewrite Hsig1 in Hsig2. apply hex_encode_inj in Hsig2.
  pose proof (single_trim_lacks _ _ _ Hline1 Ht1). pose proof (single_trim_lacks _ _ _ Hline2 Ht2).
  pose proof (single_trim_lacks _ _ _ Hline1 Hn1). pose proof (single_trim_lacks _ _ _ Hline2 Hn2).
  destruct (decide (canonical_text req1 body1 (parseSignedHeaders sh1) ts1 (Nonce res1) =
                    canonical_text req2 body2 (parseSignedHeaders sh2) ts2 (Nonce res2)))
    as [Heq|Hne]; [right|by left].
  apply canonical_text_binds in Heq as (-> & -> & Hsame);
    [|done..].
  split_and!; [congruence|done|done].
Qed.
End acceptance.

(** ** A signed request *)

Definition example_key : Key := {| KID := "k1"; Secret := "secret" |}.
Definition example_keys : KeySet := {| Active := example_key; Previous := None |}.
Definition example_body : string := "{}".
Definition example_signed : string :=
  "content-type;x-authrim-connector-id;x-authrim-key-id;x-authrim-nonce;x-authrim-request-id;x-authrim-timestamp".

Definition example_request (signature : string) : Request := {|
  Method := "POST";
  URL_EscapedPath := "/v1/auth/verify-password";
  URL_Query := {[ "a" := ["1"] ]};
  Header := list_to_map [
    ("Content-Type", ["application/json"]);
    (HeaderConnectorID, ["c1"]); (HeaderKeyID, ["k1"]); (HeaderRequestID, ["r1"]);
    (HeaderTimestamp, ["2026-06-04T12:00:00Z"]); (HeaderNonce, ["n1"]);
    (HeaderSignedHeaders, [example_signed]); (HeaderSignature, [signature])];
  Body := {| body_data := example_body; body_end := None |};
  RemoteAddr := "127.0.0.1:5000" |}.

Definition example_signature : string := Eval vm_compute in
  let _ := ascii_only_tables in
  SignCanonical
    (canonical_text (example_request "") example_body (parseSignedHeaders example_signed)
       "2026-06-04T12:00:00Z" "n1") (Secret example_key).

Definition example_now : Z := Eval vm_compute in
  default 0 (parse_rfc3339 "2026-06-04T12:01:30Z").

(** The signer's canonical text and the verifier's agree on a real request. *)
Example example_verifies :
  let _ := ascii_only_tables in
  is_ok (Verify (NewVerifier example_keys) example_now (example_request example_signature)) = true.
Proof. vm_compute. reflexivity. Qed.

(** [single_line] as a test on the header map. *)
Definition single_line_b (req : Request) : bool :=
  lacks LF (Method req) && lacks LF (URL_EscapedPath req) &&
  forallb (λ '(_, vs), forallb (lacks LF) vs) (map_to_list (Header req)).

Lemma single_line_check req : single_line_b req = true → single_line req.
Proof.
  unfold single_line_b. intros [[? ?]%andb_prop Hall]%andb_prop. split_and!; [done..|].
  intros name v Hv. unfold header_values in Hv.
  destruct (Header req !! canonical_header_key name) as [vs|] eqn:Hvs; [|set_solver].
  rewrite List.forallb_forall in Hall.
  specialize (Hall (canonical_header_key name, vs)). simpl in Hall.
  rewrite List.forallb_forall in Hall. apply Hall; [|by apply list_elem_of_In].
  by apply list_elem_of_In, elem_of_map_to_list.
Qed.

Definition example_result : VerificationResult := {|
  ConnectorID := "c1"; KeyID := "k1"; RequestID := "r1";
  Timestamp := default 0 (parse_rfc3339 "2026-06-04T12:00:00Z"); Nonce := "n1" |}.

(** The same request with a header that is not signed. *)
Definition with_header (req : Request) (name value : string) : Request := {|
  Method := Method req; URL_EscapedPath := URL_EscapedPath req; URL_Query := URL_Query req;
  Header := <[name := [value]]> (Header req); Body := Body req; RemoteAddr := RemoteAddr req |}.

#[local] Existing Instance ascii_only_tables.

(** Evaluate both requests. *)
Ltac eval_examples Hreq := destruct Hreq as [-> | ->]; vm_compute; done.

Lemma example_accepted req :
  req = example_request example_signature ∨
  req = with_header (example_request example_signature) "X-Trace" "t 1" →
  accepted example_keys example_now req example_result example_body
    "2026-06-04T12:00:00Z" example_signed example_signature example_key.
Proof.
  intros Hreq.
  assert (∀ name v, v ≠ "" → v = trim_space v → single req name v → field_is req name v) as Hfield
    by (intros name v ? ? ?; split; eauto).
  constructor; [by destruct Hreq as [-> | ->]| |by vm_compute|by vm_compute| | |].
  - unfold headers_present. split_and!; try (apply Hfield; [done|by vm_compute|eval_examples Hreq]).
    + done.
    + apply containsRequired_spec. by vm_compute.
  - split; [done|by left].
  - replace (parseSignedHeaders example_signed) with (split_byte ";"%char example_signed)
      by (by vm_compute).
    unfold example_signed; simpl split_byte. repeat (apply Forall_cons; split); [..|by apply Forall_nil].
    all: split; [by vm_compute|eexists; split; [eval_examples Hreq|by vm_compute]].
  - eval_examples Hreq.
Qed.

Lemma signature_binds_request_witness :
  let req1 := example_request example_signature in
  let req2 := with_header req1 "X-Trace" "t 1" in
  hmac_collide "secret"
    (canonical_text req1 example_body (parseSignedHeaders example_signed) "2026-06-04T12:00:00Z"
       (Nonce example_result))
    (canonical_text req2 example_body (parseSignedHeaders example_signed) "2026-06-04T12:00:00Z"
       (Nonce example_result)) ∨
  Timestamp example_result = Timestamp example_result ∧
  Nonce example_result = Nonce example_result ∧
  same_signed req1 req2 example_body example_body
    (parseSignedHeaders example_signed) (parseSignedHeaders example_signed).
Proof.
  apply (signature_binds_request example_keys example_keys example_now example_now
           (example_request example_signature)
           (with_header (example_request example_signature) "X-Trace" "t 1")
           example_result example_result example_body example_body
           "2026-06-04T12:00:00Z" "2026-06-04T12:00:00Z" example_signed example_signed
           example_signature example_key).
  - apply single_line_check. vm_compute. reflexivity.
  - apply single_line_check. vm_compute. reflexivity.
  - apply example_accepted. by left.
  - apply example_accepted. by right.
Defined.
