(* ===== verification/HttpApi.v ===== *)
(** * The HTTP gateway (internal/ports/httpapi/server.go)

    The handler of POST /v1/auth/verify-password as a program over the effects
    it performs: clock readings, the shared caches and counters (each atomic
    under its mutex or channel), the audit sink, the directory and the response
    writer.  The data it reads and never writes is the record [handler]. *)

From S2P Require Import Prelude GoStrings GoCrypto GoTime Effects Directory AuditEvent Storm Replay Metrics Json Net Hmac.
Local Open Scope Z_scope.

(** ** Data *)

(** The directory client of a tenant is reached through the effect
    [VerifyPassword] with the connector id the tenant is stored under. *)
Record TenantRuntime := {
  Runtime_TenantID : string;
  Runtime_ConnectorID : string;
  HMACVerifier : Verifier;
  AuditHashSecret : string;
  ConcurrencyLimit : Z;
  RequestTimeoutMS : Z;
  StormProtection : StormProtectionPolicy;
}.

Record verifyPasswordRequest := {
  Body_RequestID : string;
  Body_TenantID : string;
  Body_ConnectorID : string;
  Body_Username : string;
  Body_Password : string;
  Body_AttributeNames : list string;
}.

Record subjectResponse := { Response_DirectoryID : string; Response_Username : string }.

Record groupFactResponse := {
  FactResponse_ID : string;
  FactResponse_DN : string;
  FactResponse_Display : string;
  FactResponse_Source : string;
  FactResponse_Depth : Z;
}.

Record verifyPasswordResponse := {
  Response_RequestID : string;
  Response_TenantID : string;
  Response_ConnectorID : string;
  Response_Result : string;
  Response_Reason : string;
  Response_Subject : option subjectResponse;
  Response_Attributes : gmap string (list string);
  Response_GroupFacts : list groupFactResponse;
  Response_DirectoryStatus : string;
}.

Record errorPayload := { Error_Code : string; Error_Retryable : bool }.

Record errorResponse := {
  Error_RequestID : string;
  Error_TenantID : string;
  Error_ConnectorID : string;
  Error_Payload : errorPayload;
}.

Record healthDetailTenant := {
  Detail_TenantID : string;
  Detail_ConnectorID : string;
  Detail_ConcurrencyLimit : Z;
  Detail_RequestTimeoutMS : Z;
}.

(** The bodies the gateway writes. *)
Inductive response :=
| VerifyPasswordResponse (r : verifyPasswordResponse)
| ErrorResponse (e : errorResponse)
| HealthDetailResponse (ok : bool) (connector version : string)
    (tenants : list healthDetailTenant)
| HealthResponse (ok : bool) (connector version : string)
| VersionResponse (connector version : string)
| MetricsText (text : string)
| NotFoundText.

Definition StatusOK : Z := 200.
Definition StatusBadRequest : Z := 400.
Definition StatusUnauthorized : Z := 401.
Definition StatusForbidden : Z := 403.
Definition StatusNotFound : Z := 404.
Definition StatusConflict : Z := 409.
Definition StatusRequestEntityTooLarge : Z := 413.
Definition StatusTooManyRequests : Z := 429.
Definition StatusServiceUnavailable : Z := 503.

Definition maxVerifyPasswordBodyBytes : Z := 64 * 1024.

(** ** Decoding the body *)

Definition verifyPasswordRequest_schema : schema := {|
  string_fields := ["request_id"; "tenant_id"; "connector_id"; "username"; "password"];
  list_fields := ["attribute_names"] |}.

(** Lines 368-378: one value, then the end of the body. *)
Definition decodeBody (body : string) : option verifyPasswordRequest :=
  '(v, rest) ← decode_struct verifyPasswordRequest_schema body;
  if decode_eof rest then
    Some {| Body_RequestID := get_string v "request_id";
            Body_TenantID := get_string v "tenant_id";
            Body_ConnectorID := get_string v "connector_id";
            Body_Username := get_string v "username";
            Body_Password := get_string v "password";
            Body_AttributeNames := get_list v "attribute_names" |}
  else None.

Definition validVerifyPasswordRequest (r : verifyPasswordRequest) : bool :=
  negb (Body_RequestID r =? "")%string && negb (Body_TenantID r =? "")%string &&
  negb (Body_ConnectorID r =? "")%string && negb (Body_Username r =? "")%string &&
  negb (Body_Password r =? "")%string.

(** ** Pure helpers *)

Definition hmacErrorCode (err : hmac_error) : string :=
  match err with
  | ErrMissingHeader => "missing_hmac_header"
  | ErrUnsignedHeader => "unsigned_required_hmac_header"
  | ErrInvalidTimestamp => "invalid_hmac_timestamp"
  | ErrStaleTimestamp => "stale_hmac_timestamp"
  | ErrUnknownKey => "unknown_hmac_key"
  | ErrInvalidSignature => "invalid_hmac_signature"
  | ErrMalformedSignedField => "malformed_signed_header"
  | BodyRead _ => "hmac_verification_failed"
  end.

Definition directoryErrorCode (err : error) : string :=
  if errors_Is err ErrDirectoryTLS then "directory_tls_error"
  else if errors_Is err ErrDirectoryUnavailable then "directory_unavailable"
  else if errors_Is err ErrDirectoryReferral then "directory_referral"
  else "directory_error".

Definition durationFromMS (value fallback : Z) : Z :=
  if value <=? 0 then fallback else dur_of_ms value.

Definition usernameHash (secret username : string) : string :=
  if (username =? "")%string || (secret =? "")%string then ""
  else "hmac-sha256:" +:+ hex_encode (Sha256.hmac secret username).

Definition groupFactResponses (facts : list GroupFact) : list groupFactResponse :=
  (λ fact, {| FactResponse_ID := GroupFact_ID fact;
              FactResponse_DN := GroupFact_DN fact;
              FactResponse_Display := GroupFact_Display fact;
              FactResponse_Source := GroupFact_Source fact;
              FactResponse_Depth := GroupFact_Depth fact |}) <$> facts.

Definition error_body (requestID tenantID connectorID code : string) (retryable : bool)
    : response :=
  ErrorResponse {| Error_RequestID := requestID; Error_TenantID := tenantID;
                   Error_ConnectorID := connectorID;
                   Error_Payload := {| Error_Code := code; Error_Retryable := retryable |} |}.

(** ** Effects *)

Inductive effect : Type → Type :=
| Now : effect Z
| NewUUID : effect string
| StormBlocked (connector : string) (kind : stormKind) (now : Z) : effect bool
| RecordStorm (connector : string) (kind : stormKind) (now : Z) : effect unit
| ResetStorm (connector : string) (kind : stormKind) : effect unit
| RememberKey (key : string) (now : Z) : effect bool
| AcquireSlot (connector : string) : effect bool
| ReleaseSlot (connector : string) : effect unit
| RecordMetric (e : Event) : effect unit
| WriteEvent (e : Event) : effect bool
| VerifyDirectory (connector : string) (timeout : Z) (r : VerifyPasswordRequest)
    : effect (result error VerifyPasswordResult)
| ReadMetrics : effect metricsStore
| WriteResponse (status : Z) (r : response) : effect unit.

Abbreviation io := (prog effect).

(** ** The handler *)

(** What a handler is built with.  [limits] holds the capacity of each
    connector's slot channel and [storms] the connectors with storm counters;
    the slots taken and the counters are shared state behind the effects. *)
Record handler := {
  version : string;
  tenants : gmap string TenantRuntime;
  limits : gmap string Z;
  storms : gmap string StormProtectionPolicy;
  exposeOperations : bool;
}.

Definition effective_limit (runtime : TenantRuntime) : Z :=
  if ConcurrencyLimit runtime <=? 0 then 8 else ConcurrencyLimit runtime.

Definition NewHandler (version : string) (tenants : gmap string TenantRuntime)
    (exposeOperations : bool) : handler := {|
  version := version;
  tenants := tenants;
  limits := effective_limit <$> tenants;
  storms := StormProtection <$> tenants;
  exposeOperations := exposeOperations |}.

Definition writeJSON (status : Z) (r : response) : io unit := call (WriteResponse status r).
Definition writeError := writeJSON.

Definition writeStormErrorWithRequest (requestID connectorID code : string) : io unit :=
  writeError StatusTooManyRequests (error_body requestID "" connectorID code true).

Definition latencyMS (start : Z) : io Z :=
  now <~ call Now;; Ret (dur_milliseconds (time_sub now start)).

Definition emit (event : Event) : io unit :=
  id <~ call NewUUID;;
  now <~ call Now;;
  let event := stamp id now event in
  call (RecordMetric event);;;
  _ <~ call (WriteEvent event);;
  Ret tt.

Definition stormBlocked (h : handler) (connectorID : string) (kind : stormKind) : io bool :=
  match storms h !! connectorID with
  | None => Ret false
  | Some _ => now <~ call Now;; call (StormBlocked connectorID kind now)
  end.

Definition recordStorm (h : handler) (connectorID : string) (kind : stormKind) : io unit :=
  match storms h !! connectorID with
  | None => Ret tt
  | Some _ => now <~ call Now;; call (RecordStorm connectorID kind now)
  end.

Definition resetStorm (h : handler) (connectorID : string) (kind : stormKind) : io unit :=
  match storms h !! connectorID with
  | None => Ret tt
  | Some _ => call (ResetStorm connectorID kind)
  end.

Definition remember (key : string) : io bool :=
  now <~ call Now;; call (RememberKey key now).

Definition acquire (h : handler) (connectorID : string) : io bool :=
  match limits h !! connectorID with
  | None => Ret true
  | Some _ => call (AcquireSlot connectorID)
  end.

(** The function [acquire] returns. *)
Definition release (h : handler) (connectorID : string) : io unit :=
  match limits h !! connectorID with
  | None => Ret tt
  | Some _ => call (ReleaseSlot connectorID)
  end.

(** The latency is read when the event is built, before [emit] stamps it. *)
Definition finish (start : Z) (event : Z → Event) (write : io unit) : io unit :=
  latency <~ latencyMS start;;
  emit (event latency);;;
  write.

(** The composite literals of the handler's events: an error about a connector,
    about an authenticated request, about a decoded body. *)
Definition connector_event (type tenantID connectorID code : string) (latency : Z) : Event :=
  mkEvent "" type 0 tenantID connectorID "" "" "error" "" code false latency "" "".

Definition request_event (type : string) (runtime : TenantRuntime) (v : VerificationResult)
    (code : string) (retryable : bool) (latency : Z) : Event :=
  mkEvent "" type 0 (Runtime_TenantID runtime) (Runtime_ConnectorID runtime) (RequestID v)
    (KeyID v) "error" "" code retryable latency "" "".

Definition body_event (runtime : TenantRuntime) (v : VerificationResult)
    (b : verifyPasswordRequest) (type requestID result reason code : string)
    (retryable : bool) (directoryStatus : string) (latency : Z) : Event :=
  mkEvent "" type 0 (Body_TenantID b) (Body_ConnectorID b) requestID (KeyID v) result reason
    code retryable latency directoryStatus
    (usernameHash (AuditHashSecret runtime) (Body_Username b)).

Definition writeMalformedRequest (h : handler) (runtime : TenantRuntime)
    (verification : VerificationResult) (connectorID : string) (start : Z) : io unit :=
  finish start (request_event EventVerifyError runtime verification "malformed_request" false)
    (writeError StatusBadRequest
    (error_body (RequestID verification) "" connectorID "malformed_request" false));;;
  recordStorm h connectorID stormKindMalformed.

(** Lines 436-458 and 461-483: an error from the directory, or a verdict that
    its source is unavailable. *)
Definition directoryFailure (h : handler) (connectorID : string) (runtime : TenantRuntime)
    (verification : VerificationResult) (start : Z) (requestBody : verifyPasswordRequest)
    (code : string) : io unit :=
  finish start
    (body_event runtime verification requestBody EventVerifyError (Body_RequestID requestBody)
       "error" "" code true "")
    (writeError StatusServiceUnavailable
    (error_body (Body_RequestID requestBody) (Body_TenantID requestBody)
       (Body_ConnectorID requestBody) code true));;;
  recordStorm h connectorID stormKindDirectoryError.

Definition verify_response (b : verifyPasswordRequest) (result reason : string)
    (subject : option subjectResponse) (attributes : gmap string (list string))
    (facts : list groupFactResponse) : response :=
  VerifyPasswordResponse {|
    Response_RequestID := Body_RequestID b;
    Response_TenantID := Body_TenantID b;
    Response_ConnectorID := Body_ConnectorID b;
    Response_Result := result;
    Response_Reason := reason;
    Response_Subject := subject;
    Response_Attributes := attributes;
    Response_GroupFacts := facts;
    Response_DirectoryStatus := "ok" |}.

(** Lines 429-536: the directory is asked and its answer reported. *)
Definition verifyPassword_directory (h : handler) (connectorID : string)
    (runtime : TenantRuntime) (verification : VerificationResult) (start : Z)
    (requestBody : verifyPasswordRequest) : io unit :=
  answer <~ call (VerifyDirectory connectorID
                    (durationFromMS (RequestTimeoutMS runtime) (2500 * Millisecond))
                    {| Verify_Username := Body_Username requestBody;
                       Verify_Password := Body_Password requestBody;
                       Verify_AttributeNames := Body_AttributeNames requestBody |});;
  match answer with
  | Err err =>
      directoryFailure h connectorID runtime verification start requestBody
        (directoryErrorCode err)
  | Ok result =>
      let credentialResult := CredentialResult result in
      if (credentialResult =? CredentialResultSourceUnavailable)%string then
        directoryFailure h connectorID runtime verification start requestBody
          (SafeReason result)
      else
        resetStorm h connectorID stormKindDirectoryError;;;
        if negb (credentialResult =? CredentialResultSuccess)%string then
          let reason := SafeReason result in
          finish start
            (body_event runtime verification requestBody EventVerifyFailure
               (Body_RequestID requestBody) credentialResult reason "" false "ok")
            (writeJSON StatusOK (verify_response requestBody credentialResult reason None ∅ []))
        else
          finish start
            (body_event runtime verification requestBody EventVerifySuccess
               (Body_RequestID requestBody) "success" "" "" false "ok")
            (writeJSON StatusOK
            (verify_response requestBody "success" ""
               (Some {| Response_DirectoryID := DirectoryID (Verify_Subject result);
                        Response_Username := Subject_Username (Verify_Subject result) |})
               (Verify_Attributes result)
               (groupFactResponses (Verify_GroupFacts result))))
  end.

(** Lines 352-427: with a slot held, the body is decoded and matched. *)
Definition verifyPassword_admitted (h : handler) (connectorID : string)
    (runtime : TenantRuntime) (verification : VerificationResult) (body : string) (start : Z)
    : io unit :=
  malformed <~ stormBlocked h connectorID stormKindMalformed;;
  if malformed : bool then
    finish start
      (request_event EventVerifyError runtime verification "malformed_request_storm_limited" true)
      (writeStormErrorWithRequest (RequestID verification) connectorID "malformed_request_storm_limited")
  else
    match decodeBody body with
    | None => writeMalformedRequest h runtime verification connectorID start
    | Some requestBody =>
        if negb (validVerifyPasswordRequest requestBody) then
          writeMalformedRequest h runtime verification connectorID start
        else if negb (Body_TenantID requestBody =? Runtime_TenantID runtime)%string ||
                negb (Body_ConnectorID requestBody =? Runtime_ConnectorID runtime)%string ||
                negb (Body_RequestID requestBody =? RequestID verification)%string ||
                negb (ConnectorID verification =? Runtime_ConnectorID runtime)%string then
          finish start
            (body_event runtime verification requestBody EventVerifyError (RequestID verification)
               "error" "" "tenant_connector_mismatch" false "")
            (writeError StatusForbidden
            (error_body (RequestID verification) (Body_TenantID requestBody) connectorID
               "tenant_connector_mismatch" false))
        else
          unavailable <~ stormBlocked h connectorID stormKindDirectoryError;;
          if unavailable : bool then
            finish start
              (body_event runtime verification requestBody EventVerifyError
                 (Body_RequestID requestBody) "error" "" "directory_error_storm_limited" true "")
              (writeError StatusServiceUnavailable
              (error_body (Body_RequestID requestBody) (Body_TenantID requestBody)
                 (Body_ConnectorID requestBody) "directory_error_storm_limited" true))
          else verifyPassword_directory h connectorID runtime verification start requestBody
    end.

(** Lines 294-350: the authenticated request meets the replay cache and the
    connector's slots; the slot is released when the handler returns. *)
Definition verifyPassword_authenticated (h : handler) (connectorID : string)
    (runtime : TenantRuntime) (verification : VerificationResult) (body : string) (start : Z)
    : io unit :=
  replaying <~ stormBlocked h connectorID stormKindReplay;;
  if replaying : bool then
    finish start
      (request_event EventVerifyError runtime verification "replay_storm_limited" true)
      (writeStormErrorWithRequest (RequestID verification) connectorID "replay_storm_limited")
  else
    fresh <~ remember (replayKey (Runtime_ConnectorID runtime) (KeyID verification)
                         (RequestID verification) (Nonce verification));;
    if negb fresh then
      finish start (request_event EventReplayDetected runtime verification "replay_detected" false)
        (writeError StatusConflict
        (error_body (RequestID verification) "" connectorID "replay_detected" false));;;
      recordStorm h connectorID stormKindReplay
    else
      admitted <~ acquire h connectorID;;
      if negb admitted then
        finish start
          (request_event EventVerifyError runtime verification "connector_rate_limited" true)
          (writeError StatusTooManyRequests
          (error_body (RequestID verification) "" connectorID "connector_rate_limited" true))
      else
        verifyPassword_admitted h connectorID runtime verification body start;;;
        release h connectorID.

(** [Verify] reads the clock once the headers are there; here the reading is taken
    just before, and not used when it does not get that far. *)
Section verify_password.
Context `{UnicodeTables}.

Definition verifyPassword (h : handler) (req : Request) : io unit :=
  start <~ call Now;;
  let connectorID := header_get req HeaderConnectorID in
  match tenants h !! connectorID with
  | None =>
      finish start
        (connector_event EventVerifyError "" unknownMetricLabel "unknown_connector")
        (writeError StatusForbidden (error_body "" "" "" "unknown_connector" false))
  | Some runtime =>
      let req := with_body req (MaxBytesReader (Body req) maxVerifyPasswordBodyBytes) in
      now <~ call Now;;
      match Verify (HMACVerifier runtime) now req with
      | Err (BodyRead MaxBytesError) =>
          finish start
            (connector_event EventVerifyError (Runtime_TenantID runtime)
               (Runtime_ConnectorID runtime) "payload_too_large")
            (writeError StatusRequestEntityTooLarge (error_body "" "" connectorID "payload_too_large" false))
      | Err err =>
          finish start
            (connector_event EventHMACFailure (Runtime_TenantID runtime)
               (Runtime_ConnectorID runtime) (hmacErrorCode err))
            (writeError StatusUnauthorized (error_body "" "" connectorID (hmacErrorCode err) false))
      | Ok (verification, body) =>
          verifyPassword_authenticated h connectorID runtime verification body start
      end
  end.
End verify_password.

(** ** The other endpoints *)

(** A host that does not parse is the whole address. *)
Definition operationsAllowed (h : handler) (req : Request) : bool :=
  if exposeOperations h then true
  else
    let host := default (RemoteAddr req) (SplitHostPort (RemoteAddr req)) in
    match ParseIP host with
    | Some ip => IsLoopback ip
    | None => false
    end.

Definition healthz (h : handler) : io unit :=
  writeJSON StatusOK (HealthResponse true "authrim-wordwarden" (version h)).

Definition versionEndpoint (h : handler) : io unit :=
  writeJSON StatusOK (VersionResponse "authrim-wordwarden" (version h)).

Definition healthDetails (h : handler) (req : Request) : io unit :=
  if negb (operationsAllowed h req) then call (WriteResponse StatusNotFound NotFoundText)
  else
    let connectors := sort_strings ((map_to_list (tenants h)).*1) in
    let tenants := omap (λ connectorID,
      runtime ← tenants h !! connectorID;
      Some {| Detail_TenantID := Runtime_TenantID runtime;
              Detail_ConnectorID := Runtime_ConnectorID runtime;
              Detail_ConcurrencyLimit := effective_limit runtime;
              Detail_RequestTimeoutMS :=
                if RequestTimeoutMS runtime <=? 0 then 2500 else RequestTimeoutMS runtime |})
      connectors in
    writeJSON StatusOK (HealthDetailResponse true "authrim-wordwarden" (version h) tenants).

Definition metricsEndpoint (h : handler) (req : Request) : io unit :=
  if negb (operationsAllowed h req) then call (WriteResponse StatusNotFound NotFoundText)
  else
    counters <~ call ReadMetrics;;
    call (WriteResponse StatusOK (MetricsText (prometheus counters))).
