(* ===== verification/HttpTraces.v ===== *)
(** * What one request does (traces of the HTTP handler)

    Theorems about every trace of [verifyPassword], whatever the clock, the
    caches, the slots, the audit sink and the directory answer. *)

From S2P Require Import Prelude GoStrings GoTime Effects Directory AuditEvent Storm Replay Metrics Json Hmac HttpApi.
Local Open Scope Z_scope.

Abbreviation trace := (list (entry effect)).

(** ** Readings of a trace *)

Definition response_of (x : entry effect) : option (Z * response) :=
  let 'existT _ (e, _) := x in
  match e with WriteResponse status r => Some (status, r) | _ => None end.

Definition event_of (x : entry effect) : option Event :=
  let 'existT _ (e, _) := x in match e with WriteEvent ev => Some ev | _ => None end.

Definition counted_of (x : entry effect) : option Event :=
  let 'existT _ (e, _) := x in match e with RecordMetric ev => Some ev | _ => None end.

(** The calls on the directory, with their answers. *)
Definition directory_call_of (x : entry effect)
    : option (string * VerifyPasswordRequest * result error VerifyPasswordResult) :=
  match projT2 x with
  | (e, r) =>
      match e in effect R return R → _ with
      | VerifyDirectory c _ q => λ answer, Some (c, q, answer)
      | _ => λ _, None
      end r
  end.

(** The replay keys presented, with the cache's answers. *)
Definition remembered_of (x : entry effect) : option (string * bool) :=
  match projT2 x with
  | (e, r) =>
      match e in effect R return R → _ with
      | RememberKey key _ => λ answer, Some (key, answer)
      | _ => λ _, None
      end r
  end.

(** What an effect does to the slots: [+1] a slot taken, [-1] a slot given back. *)
Definition slot_change (x : entry effect) : Z :=
  match projT2 x with
  | (e, r) =>
      match e in effect R return R → Z with
      | AcquireSlot _ => λ taken : bool, if taken then 1 else 0
      | ReleaseSlot _ => λ _, -1
      | _ => λ _, 0
      end r
  end.

(** An effect on state that requests share and that is not an audit record. *)
Definition protected (x : entry effect) : bool :=
  let 'existT _ (e, _) := x in
  match e with
  | StormBlocked _ _ _ | RecordStorm _ _ _ | ResetStorm _ _ | RememberKey _ _
  | AcquireSlot _ | ReleaseSlot _ | VerifyDirectory _ _ _ => true
  | _ => false
  end.

Definition responses (tr : trace) : list (Z * response) := omap response_of tr.
Definition events (tr : trace) : list Event := omap event_of tr.
Definition counted (tr : trace) : list Event := omap counted_of tr.
Definition directory_calls (tr : trace) := omap directory_call_of tr.
Definition remembered (tr : trace) : list (string * bool) := omap remembered_of tr.

(** ** One response, one event *)

(** The request was answered with [status] and [r], and [e] was counted and
    written to the audit sink; nothing else was answered, counted or written. *)
Definition reports (tr : trace) (status : Z) (r : response) (e : Event) : Prop :=
  responses tr = [(status, r)] ∧ events tr = [e] ∧ counted tr = [e].

(** The audit event and the response tell the same story. *)
Definition coherent (status : Z) (r : response) (e : Event) : Prop :=
  match r with
  | ErrorResponse er =>
      let payload := Error_Payload er in
      Event_Result e = "error" ∧ Event_ErrorCode e = Error_Code payload ∧
      Event_Retryable e = Error_Retryable payload ∧
      if Error_Retryable payload
      then status = StatusTooManyRequests ∨ status = StatusServiceUnavailable
      else status ∈ [StatusBadRequest; StatusUnauthorized; StatusForbidden; StatusConflict;
                     StatusRequestEntityTooLarge]
  | VerifyPasswordResponse v =>
      status = StatusOK ∧
      Event_Result e = Response_Result v ∧ Event_Reason e = Response_Reason v ∧
      Event_ErrorCode e = "" ∧ Event_Retryable e = false ∧
      Event_RequestID e = Response_RequestID v ∧
      EventType e = (if (Response_Result v =? CredentialResultSuccess)%string
                     then EventVerifySuccess else EventVerifyFailure)
  | _ => False
  end.

(** ** The documented errors (docs/api.md) *)

Definition error_table : list (Z * string * bool) := [
  (400, "malformed_request", false);
  (401, "unsigned_required_hmac_header", false);
  (401, "malformed_signed_header", false);
  (401, "missing_hmac_header", false);
  (401, "invalid_hmac_timestamp", false);
  (401, "stale_hmac_timestamp", false);
  (401, "unknown_hmac_key", false);
  (401, "invalid_hmac_signature", false);
  (413, "payload_too_large", false);
  (403, "unknown_connector", false);
  (403, "tenant_connector_mismatch", false);
  (409, "replay_detected", false);
  (429, "connector_rate_limited", true);
  (429, "malformed_request_storm_limited", true);
  (429, "replay_storm_limited", true);
  (503, "directory_unavailable", true);
  (503, "directory_tls_error", true);
  (503, "directory_referral", true);
  (503, "directory_error", true);
  (503, "directory_error_storm_limited", true)].

(** The answers a directory gives in the "source unavailable" verdict. *)
Definition unavailable_reason (tr : trace) (code : string) : Prop :=
  ∃ c q r, (c, q, Ok r) ∈ directory_calls tr ∧
           CredentialResult r = CredentialResultSourceUnavailable ∧ SafeReason r = code.

(** ** Storm accounting *)

Inductive storm_change := Recorded (kind : stormKind) | Cleared (kind : stormKind).

Definition storm_change_of (x : entry effect) : option storm_change :=
  let 'existT _ (e, _) := x in
  match e with
  | RecordStorm _ kind _ => Some (Recorded kind)
  | ResetStorm _ kind => Some (Cleared kind)
  | _ => None
  end.
Definition storm_changes (tr : trace) : list storm_change := omap storm_change_of tr.

(** What the status of the answer, and whether the directory was asked, say the
    storm counters were told. *)
Definition expected_storm (status : Z) (asked : bool) : list storm_change :=
  if status =? StatusOK then [Cleared stormKindDirectoryError]
  else if status =? StatusBadRequest then [Recorded stormKindMalformed]
  else if status =? StatusConflict then [Recorded stormKindReplay]
  else if (status =? StatusServiceUnavailable) && asked then [Recorded stormKindDirectoryError]
  else [].

(** ** Slots *)

(** A slot is taken at most once, given back exactly when it was taken, and the
    directory is asked only while it is held. *)
Fixpoint disciplined (held : bool) (tr : trace) : bool :=
  match tr with
  | [] => negb held
  | x :: tr =>
      match directory_call_of x with
      | Some _ => held && disciplined held tr
      | None =>
          if slot_change x =? 1 then negb held && disciplined true tr
          else if slot_change x =? -1 then held && disciplined false tr
          else disciplined held tr
      end
  end.

(** ** Evidence for a success *)

(** The request [Verify] is given. *)
Definition limited (req : Request) : Request :=
  with_body req (MaxBytesReader (Body req) maxVerifyPasswordBodyBytes).

Definition connector_of (req : Request) : string := header_get req HeaderConnectorID.

Section traces.
Context `{UnicodeTables}.

(** The request is authentic for the connector it names: [verification] and
    [body] are what the connector's verifier found in it at [now]. *)
Definition authentic (h : handler) (req : Request) (runtime : TenantRuntime) (now : Z)
    (verification : VerificationResult) (body : string) : Prop :=
  tenants h !! connector_of req = Some runtime ∧
  Verify (HMACVerifier runtime) now (limited req) = Ok (verification, body).

(** The decoded body is complete and names the same tenant, connector and
    request as the headers and the configuration. *)
Definition matches (runtime : TenantRuntime) (verification : VerificationResult)
    (b : verifyPasswordRequest) : Prop :=
  validVerifyPasswordRequest b = true ∧
  Body_TenantID b = Runtime_TenantID runtime ∧
  Body_ConnectorID b = Runtime_ConnectorID runtime ∧
  Body_RequestID b = RequestID verification ∧
  ConnectorID verification = Runtime_ConnectorID runtime.

Definition replay_key_of (runtime : TenantRuntime) (verification : VerificationResult) : string :=
  replayKey (Runtime_ConnectorID runtime) (KeyID verification) (RequestID verification)
    (Nonce verification).

(** Everything a success response rests on. *)
Definition success_evidence (h : handler) (req : Request) (tr : trace)
    (v : verifyPasswordResponse) : Prop :=
  ∃ runtime now verification body b answer,
    authentic h req runtime now verification body ∧
    decodeBody body = Some b ∧ matches runtime verification b ∧
    remembered tr = [(replay_key_of runtime verification, true)] ∧
    directory_calls tr =
      [(connector_of req,
        {| Verify_Username := Body_Username b; Verify_Password := Body_Password b;
           Verify_AttributeNames := Body_AttributeNames b |}, Ok answer)] ∧
    IsSuccess answer = true ∧
    VerifyPasswordResponse v =
      verify_response b "success" ""
        (Some {| Response_DirectoryID := DirectoryID (Verify_Subject answer);
                 Response_Username := Subject_Username (Verify_Subject answer) |})
        (Verify_Attributes answer) (groupFactResponses (Verify_GroupFacts answer)).

(** C18: whatever happens, the handler writes exactly one response, counts and
    writes exactly one audit event, and the two agree: same verdict and reason
    for an answered request; same code and retryability for an error, with a
    retryable error sent as 429 or 503 and any other as 400, 401, 403, 409 or
    413. *)
Theorem one_response_one_event (h : handler) (req : Request) :
  always (verifyPassword h req)
    (λ tr _, ∃ status r e, reports tr status r e ∧ coherent status r e).
Proof.
  walk.
  all: eexists _, _, _; split; [split; [reflexivity|split; reflexivity]|].
  all: cbn; try (split_and!; done || by eauto).
  all: split_and!; try done; try set_solver.
  all: match goal with H : negb (CredentialResult _ =? _)%string = true |- _ =>
    apply negb_true_iff in H; by rewrite H end.
Qed.

Lemma matches_intro runtime verification b :
  negb (validVerifyPasswordRequest b) = false →
  negb (Body_TenantID b =? Runtime_TenantID runtime)%string ||
  negb (Body_ConnectorID b =? Runtime_ConnectorID runtime)%string ||
  negb (Body_RequestID b =? RequestID verification)%string ||
  negb (ConnectorID verification =? Runtime_ConnectorID runtime)%string = false →
  matches runtime verification b.
Proof.
  intros Hvalid Hids. unfold matches. bool_to_prop.
  repeat match goal with H : negb _ = false |- _ => apply negb_false_iff in H end.
  bool_to_prop. done.
Qed.

(** A verdict that is not a success is not answered with "success". *)
Lemma verdict_not_success answer :
  negb (CredentialResult answer =? CredentialResultSuccess)%string = true →
  CredentialResult answer ≠ CredentialResultSuccess.
Proof. intros Hne%negb_true_iff. by apply String.eqb_neq. Qed.

Lemma IsSuccess_intro answer :
  negb (CredentialResult answer =? CredentialResultSuccess)%string = false →
  IsSuccess answer = true.
Proof. by intros ?%negb_false_iff. Qed.

Lemma success_rests (h : handler) (req : Request) :
  always (verifyPassword h req)
    (λ tr _, ∀ status v,
       (status, VerifyPasswordResponse v) ∈ responses tr →
       Response_Result v = CredentialResultSuccess →
       success_evidence h req tr v).
Proof.
  walk.
  all: match goal with H : _ ∈ responses _ |- _ =>
         apply list_elem_of_singleton in H; try discriminate H; injection H as _ Hv end.
  all: match goal with H : negb (CredentialResult _ =? CredentialResultSuccess)%string = true |- _ =>
         apply verdict_not_success in H; rewrite Hv in *; done | _ => subst end.
  all: repeat match goal with H : negb ?b = false |- _ =>
         is_var b; destruct b; [clear H|discriminate H] end.
  all: match goal with
       | Hv : Verify (HMACVerifier ?rt) ?now _ = Ok (?v, ?s), Hd : decodeBody _ = Some ?b,
         Hs : negb (CredentialResult ?a =? CredentialResultSuccess)%string = false |- _ =>
           exists rt, now, v, s, b, a
       end.
  all: split_and!; try done.
  all: by apply matches_intro || apply IsSuccess_intro.
Qed.

(** C2: a client is told "success" only on evidence: its request was authentic
    for the connector it names, its body decodes to a complete request naming
    that tenant and connector and the signed request id, the replay cache saw
    its replay key for the first time, and the directory, asked once with the
    submitted username and password, answered success; the response carries
    that answer's subject, attributes and groups and nothing else. *)
Theorem success_needs_evidence (h : handler) (req : Request) :
  always (verifyPassword h req)
    (λ tr _, ∀ status v,
       (status, VerifyPasswordResponse v) ∈ responses tr →
       Response_Result v = CredentialResultSuccess →
       success_evidence h req tr v).
Proof. apply success_rests. Qed.

(** An unauthenticated request changes nothing: unless the verifier of the
    connector it names accepted it, the handler only reads the clock, records
    its one audit event and answers: no storm counter, replay entry, slot or
    directory is touched. *)
Theorem unauthenticated_is_inert (h : handler) (req : Request) :
  always (verifyPassword h req)
    (λ tr _, existsb protected tr = true →
             ∃ runtime now verification body, authentic h req runtime now verification body).
Proof.
  walk.
  all: match goal with H : existsb _ _ = true |- _ => cbn in H; try discriminate H end.
  all: match goal with
       | Hv : Verify (HMACVerifier ?rt) ?now _ = Ok (?v, ?s) |- _ => exists rt, now, v, s
       end; done.
Qed.

(** Every tenant of a handler that [NewHandler] builds has its storm counters
    and its slots. *)
Definition configured (h : handler) : Prop :=
  ∀ c runtime, tenants h !! c = Some runtime →
    storms h !! c = Some (StormProtection runtime) ∧ limits h !! c = Some (effective_limit runtime).

Lemma NewHandler_configured version ts expose : configured (NewHandler version ts expose).
Proof. intros c runtime Ht. simpl in *. by rewrite !lookup_fmap, Ht. Qed.

(** Walk the handler of a configured [h]. *)
Ltac walk_configured h req :=
  let Hconf := fresh "Hconf" in
  intros Hconf; destruct (tenants h !! header_get req HeaderConnectorID) as [rt|] eqn:Ht;
  [destruct (Hconf _ _ Ht) as [Hstorms Hlimits]|]; walk.

Lemma storm_changes_configured h req :
  configured h →
  always (verifyPassword h req)
    (λ tr _, ∃ status r, responses tr = [(status, r)] ∧
       storm_changes tr = expected_storm status (negb (empty_list (directory_calls tr)))).
Proof. walk_configured h req; by do 2 eexists; split. Qed.

(** The storm counters follow the answers: a malformed request (400) and a
    detected replay (409) are recorded under their kinds, a directory failure
    (503 after the directory was asked) under its own, a verdict of the
    directory (200) clears the directory errors, and no other outcome touches a
    counter. *)
Theorem storm_accounting (version : string) (ts : gmap string TenantRuntime) (expose : bool)
    (req : Request) :
  always (verifyPassword (NewHandler version ts expose) req)
    (λ tr _, ∃ status r, responses tr = [(status, r)] ∧
       storm_changes tr = expected_storm status (negb (empty_list (directory_calls tr)))).
Proof. apply storm_changes_configured, NewHandler_configured. Qed.

Lemma disciplined_configured h req :
  configured h →
  always (verifyPassword h req)
    (λ tr _, disciplined false tr = true ∧ (length (directory_calls tr) ≤ 1)%nat).
Proof.
  walk_configured h req.
  all: repeat match goal with H : negb ?b = _ |- _ => is_var b; destruct b; [try discriminate H|try discriminate H]; clear H end.
  all: split; [reflexivity|cbn; lia].
Qed.

(** A request takes at most one slot, gives it back on every path that took
    it and never otherwise, and asks the directory at most once, while it holds
    the slot. *)
Theorem slot_discipline (version : string) (ts : gmap string TenantRuntime) (expose : bool)
    (req : Request) :
  always (verifyPassword (NewHandler version ts expose) req)
    (λ tr _, disciplined false tr = true ∧ (length (directory_calls tr) ≤ 1)%nat).
Proof. apply disciplined_configured, NewHandler_configured. Qed.

(** C38: the errors are the documented ones: every error response has a status,
    code and retryability of the table of docs/api.md, but for two cases: a body
    that cannot be read (401 [hmac_verification_failed], which the table lacks),
    and a directory that reports its source unavailable with a reason of its
    own, sent as a retryable 503. *)
Theorem errors_documented (h : handler) (req : Request) :
  always (verifyPassword h req)
    (λ tr _, ∀ status er, (status, ErrorResponse er) ∈ responses tr →
       let code := Error_Code (Error_Payload er) in
       let retryable := Error_Retryable (Error_Payload er) in
       (status, code, retryable) ∈ (401, "hmac_verification_failed", false) :: error_table ∨
       status = StatusServiceUnavailable ∧ retryable = true ∧ unavailable_reason tr code).
Proof.
  walk.
  all: match goal with H : _ ∈ responses _ |- _ =>
         apply list_elem_of_singleton in H; try discriminate H; injection H as -> -> end.
  all: repeat match goal with x := _ |- _ => subst x end.
  all: try (left; apply (bool_decide_unpack _); reflexivity).
  all: match goal with
       | Hd : error |- _ =>
           left; unfold directoryErrorCode; repeat case_match;
           apply (bool_decide_unpack _); reflexivity
       | Hu : (CredentialResult _ =? CredentialResultSourceUnavailable)%string = true |- _ =>
           right; apply String.eqb_eq in Hu; split_and!; [done..|];
           do 3 eexists; split; [by left|done]
       end.
Qed.
End traces.

(** ** The password goes to the directory and nowhere else *)

(** The effect with the password it carries blanked. *)
Definition erase_password (R : Type) (e : effect R) : effect R :=
  match e with
  | VerifyDirectory c timeout q =>
      VerifyDirectory c timeout {|
        Verify_Username := Verify_Username q; Verify_Password := "";
        Verify_AttributeNames := Verify_AttributeNames q |}
  | e => e
  end.

Definition with_password (b : verifyPasswordRequest) (password : string) : verifyPasswordRequest := {|
  Body_RequestID := Body_RequestID b; Body_TenantID := Body_TenantID b;
  Body_ConnectorID := Body_ConnectorID b; Body_Username := Body_Username b;
  Body_Password := password; Body_AttributeNames := Body_AttributeNames b |}.

(** C20: passwords are confined: from the authenticated request on, two bodies
    that differ in the password only lead to the same computation, effect by
    effect and answer by answer, once the password in the call on the directory
    is blanked.  So no event, metric, storm counter, replay entry or response
    depends on the password except through the directory's own answer. *)
Theorem password_confined (h : handler) (connectorID : string) (runtime : TenantRuntime)
    (verification : VerificationResult) (body1 body2 : string) (start : Z)
    (b : verifyPasswordRequest) (password1 password2 : string)
    (Hbody1 : decodeBody body1 = Some (with_password b password1))
    (Hbody2 : decodeBody body2 = Some (with_password b password2))
    (Hne1 : password1 ≠ "") (Hne2 : password2 ≠ "") :
  similar erase_password
    (verifyPassword_authenticated h connectorID runtime verification body1 start)
    (verifyPassword_authenticated h connectorID runtime verification body2 start).
Proof.
  apply String.eqb_neq in Hne1, Hne2.
  unfold verifyPassword_authenticated, verifyPassword_admitted.
  rewrite Hbody1, Hbody2. unfold validVerifyPasswordRequest.
  unfold with_password in *.
  cbn [Body_RequestID Body_TenantID Body_ConnectorID Body_Username Body_Password].
  rewrite Hne1, Hne2.
  repeat first
    [ reflexivity
    | apply bind_similar; [|intros ?]
    | apply similar_vis; [done|intros ?]
    | progress unfold verifyPassword_directory
    | case_match ].
Qed.

Definition example_json (password : string) : string :=
  let q := String double_quote EmptyString in
  "{" +:+ q +:+ "request_id" +:+ q +:+ ":" +:+ q +:+ "r1" +:+ q +:+ "," +:+
  q +:+ "tenant_id" +:+ q +:+ ": " +:+ q +:+ "t1" +:+ q +:+ "," +:+
  q +:+ "connector_id" +:+ q +:+ ":" +:+ q +:+ "c1" +:+ q +:+ ", " +:+
  q +:+ "username" +:+ q +:+ ":" +:+ q +:+ "alice" +:+ q +:+ "," +:+
  q +:+ "attribute_names" +:+ q +:+ ":[" +:+ q +:+ "mail" +:+ q +:+ "]," +:+
  q +:+ "Password" +:+ q +:+ ":" +:+ q +:+ password +:+ q +:+ "}" +:+ newline.

Definition example_decoded (password : string) : verifyPasswordRequest := {|
  Body_RequestID := "r1"; Body_TenantID := "t1"; Body_ConnectorID := "c1";
  Body_Username := "alice"; Body_Password := password; Body_AttributeNames := ["mail"] |}.

Example decode_example : decodeBody (example_json "pw") = Some (example_decoded "pw").
Proof. vm_compute. reflexivity. Qed.

Definition example_runtime (ks : KeySet) : TenantRuntime := {|
  Runtime_TenantID := "t1"; Runtime_ConnectorID := "c1"; HMACVerifier := NewVerifier ks;
  AuditHashSecret := "audit"; ConcurrencyLimit := 1; RequestTimeoutMS := 0;
  StormProtection := example_policy |}.

Definition example_verification : VerificationResult := {|
  ConnectorID := "c1"; KeyID := "k1"; RequestID := "r1"; Hmac.Timestamp := 0; Nonce := "n1" |}.

Definition one_key : KeySet := {| Active := {| KID := "k1"; Secret := "s" |}; Previous := None |}.
Definition one_connector : handler :=
  NewHandler "v" {[ "c1" := example_runtime one_key ]} false.

Lemma password_confined_witness :
  similar erase_password
    (verifyPassword_authenticated one_connector "c1" (example_runtime one_key)
       example_verification (example_json "first") 0)
    (verifyPassword_authenticated one_connector "c1" (example_runtime one_key)
       example_verification (example_json "second") 0).
Proof.
  apply (password_confined _ _ _ _ _ _ _ (example_decoded "") "first" "second").
  - vm_compute. reflexivity.
  - vm_compute. reflexivity.
  - discriminate.
  - discriminate.
Defined.
