(* ===== verification/HttpPool.v ===== *)
(** * Requests in parallel (shared state of the HTTP handler)

    The state that the requests of one handler share, what each effect does to
    it, and the invariants of every interleaving of any number of requests:
    the slots bound the directory calls in flight, and the replay cache never
    accepts a key twice within its lifetime. *)

From S2P Require Import Prelude GoStrings GoTime Effects Directory AuditEvent Storm Replay Metrics Json Hmac HmacProofs HttpApi HttpTraces.
Local Open Scope Z_scope.

(** ** Shared state *)

(** [g_reads] counts the clock readings so far; [g_accepted] is history that no
    code reads. *)
Record gateway (W : Type) := mkGateway {
  g_reads : nat;
  g_cache : replayCache;
  g_slots : gmap string Z;
  g_storms : gmap string connectorStorms;
  g_metrics : metricsStore;
  g_audit : list Event;
  g_accepted : list acceptance;
  g_directory : W;
}.
Arguments mkGateway {W}.
Arguments g_reads {W}.
Arguments g_cache {W}.
Arguments g_slots {W}.
Arguments g_storms {W}.
Arguments g_metrics {W}.
Arguments g_audit {W}.
Arguments g_accepted {W}.
Arguments g_directory {W}.

(** Lines 79-105: what [NewHandler] allocates. *)
Definition new_gateway {W} (h : handler) (w : W) : gateway W := {|
  g_reads := 0;
  g_cache := newReplayCache (5 * Minute);
  g_slots := ∅;
  g_storms := newConnectorStorms <$> storms h;
  g_metrics := newMetricsStore;
  g_audit := [];
  g_accepted := [];
  g_directory := w;
|}.

Abbreviation server_pool W := (@pool effect (gateway W) unit).

Section shared.
Context {W : Type}.
(** The clock, the ids and the outcome of audit writes as the environment gives
    them, and a directory client per connector. *)
Variable ticks : nat → Z.
Variable uuids : nat → string.
Variable sink : Event → bool.
Variable clients : string → VerifyPasswordRequest → W → result error VerifyPasswordResult * W.
Variable h : handler.

Definition set_reads (g : gateway W) n := mkGateway n (g_cache g) (g_slots g) (g_storms g)
  (g_metrics g) (g_audit g) (g_accepted g) (g_directory g).
Definition set_slots (g : gateway W) s := mkGateway (g_reads g) (g_cache g) s (g_storms g)
  (g_metrics g) (g_audit g) (g_accepted g) (g_directory g).
Definition set_storms (g : gateway W) s := mkGateway (g_reads g) (g_cache g) (g_slots g) s
  (g_metrics g) (g_audit g) (g_accepted g) (g_directory g).
Definition set_cache (g : gateway W) c l := mkGateway (g_reads g) c (g_slots g) (g_storms g)
  (g_metrics g) (g_audit g) l (g_directory g).

(** The reading the clock gives next; every reading so far is at most this. *)
Definition clock (g : gateway W) : Z := ticks (g_reads g).

Definition taken (g : gateway W) (c : string) : Z := default 0 (g_slots g !! c).

(** Each effect on the shared state, atomically. *)
Definition interp (R : Type) (e : effect R) (g : gateway W) : R * gateway W :=
  match e in effect R return R * gateway W with
  | Now => (clock g, set_reads g (S (g_reads g)))
  | NewUUID => (uuids (g_reads g), g)
  | StormBlocked c kind now =>
      (match g_storms g !! c with Some s => blocked s kind now | None => false end, g)
  | RecordStorm c kind now =>
      (tt, set_storms g (alter (λ s, record s kind now) c (g_storms g)))
  | ResetStorm c kind => (tt, set_storms g (alter (λ s, reset s kind) c (g_storms g)))
  | RememberKey key now =>
      let '(fresh, cache) := Remember (g_cache g) key now in
      (fresh, set_cache g cache
                (if fresh then g_accepted g ++ [Build_acceptance key now (clock g)]
                 else g_accepted g))
  | AcquireSlot c =>
      if taken g c <? default 0 (limits h !! c)
      then (true, set_slots g (<[c := taken g c + 1]> (g_slots g)))
      else (false, g)
  | ReleaseSlot c => (tt, set_slots g (<[c := taken g c - 1]> (g_slots g)))
  | RecordMetric ev =>
      (tt, mkGateway (g_reads g) (g_cache g) (g_slots g) (g_storms g)
             (record_metric (g_metrics g) ev) (g_audit g) (g_accepted g) (g_directory g))
  | WriteEvent ev =>
      (sink ev, mkGateway (g_reads g) (g_cache g) (g_slots g) (g_storms g) (g_metrics g)
                  (if sink ev then g_audit g ++ [ev] else g_audit g) (g_accepted g)
                  (g_directory g))
  | VerifyDirectory c _ q =>
      let '(answer, w) := clients c q (g_directory g) in
      (answer, mkGateway (g_reads g) (g_cache g) (g_slots g) (g_storms g) (g_metrics g)
                 (g_audit g) (g_accepted g) w)
  | ReadMetrics => (g_metrics g, g)
  | WriteResponse _ _ => (tt, g)
  end.

Context `{UnicodeTables}.

(** A thread of the server: one request through the handler. *)
Definition request_thread (p : io unit) : Prop := ∃ req, p = verifyPassword h req.

Definition server_reachable (w : W) : server_pool W → Prop :=
  reachable interp request_thread (new_gateway h w).
End shared.

(** ** Slots under interleaving *)

Section slots.
Variable h : handler.

(** A thread holds the slot of at most one connector, and talks to a directory
    only with its slot. *)
Definition slot_spec (R : Type) (e : effect R) (Q : R → option string → Prop)
    (held : option string) : Prop :=
  match e in effect R return (R → option string → Prop) → Prop with
  | AcquireSlot c => λ Q, held = None ∧ is_Some (limits h !! c) ∧ Q true (Some c) ∧ Q false None
  | ReleaseSlot c => λ Q, held = Some c ∧ Q tt None
  | VerifyDirectory c _ _ => λ Q, held = Some c ∧ ∀ r, Q r held
  | _ => λ Q, ∀ r, Q r held
  end Q.

Lemma slot_spec_mono R (e : effect R) (P Q : R → option string → Prop) held :
  (∀ r held', P r held' → Q r held') → slot_spec R e P held → slot_spec R e Q held.
Proof. intros HPQ. destruct e; simpl; naive_solver. Qed.

(** A thread that respects the slots and ends without one. *)
Definition slot_safe (p : io unit) (held : option string) : Prop :=
  wp slot_spec p (λ _ held', held' = None) held.

Context `{UnicodeTables}.

Ltac walk_wp :=
  repeat (
    cbn [wp bind call slot_spec];
    match goal with
    | |- ∀ _, _ => intro
    | |- _ ∧ _ => split
    | |- wp _ (bind _ _) _ _ => apply (wp_bind slot_spec slot_spec_mono)
    | H : ?x = _ |- wp _ (match ?x with _ => _ end) _ _ => rewrite H
    | |- wp _ (match ?x with _ => _ end) _ _ => destruct x eqn:?
    | |- wp _ ?p _ _ => let f := head_of p in progress unfold f
    end).

Lemma verifyPassword_slot_safe req :
  configured h → slot_safe (verifyPassword h req) None.
Proof.
  intros Hconf. unfold slot_safe.
  destruct (tenants h !! header_get req HeaderConnectorID) as [rt|] eqn:Ht;
  [destruct (Hconf _ _ Ht) as [Hstorms Hlimits]|]; walk_wp; try done.
  all: by eexists.
Qed.
End slots.

(** The next effect of a thread is a call on the directory of [c]. *)
Definition asking (c : string) (p : io unit) : bool :=
  match p with
  | Vis e _ => match e with VerifyDirectory c' _ _ => (c' =? c)%string | _ => false end
  | Ret _ => false
  end.
Definition finished (p : io unit) : bool := match p with Ret _ => true | _ => false end.

Section slots_pool.
Context {W : Type} `{UnicodeTables}.
Variable ticks : nat → Z.
Variable uuids : nat → string.
Variable sink : Event → bool.
Variable clients : string → VerifyPasswordRequest → W → result error VerifyPasswordResult * W.
Variable h : handler.
Hypothesis Hconf : configured h.

Definition capacity (c : string) : Z := default 0 (limits h !! c).
Hypothesis Hcap : ∀ c, 0 <= capacity c.

(** Each slot in use belongs to exactly one thread, and no channel overflows. *)
Definition slots_inv (p : server_pool W) : Prop :=
  ∃ hs, Forall2 (slot_safe h) (threads p) hs ∧
        ∀ c, taken (shared p) c = holders c hs ∧ holders c hs <= capacity c.

Lemma taken_set_slots (g : gateway W) c c' n :
  taken (set_slots g (<[c := n]> (g_slots g))) c' = if decide (c' = c) then n else taken g c'.
Proof.
  unfold taken. simpl. case_decide; [subst; by rewrite lookup_insert_eq|].
  by rewrite lookup_insert_ne.
Qed.

Lemma interp_slots R (e : effect R) g Q held :
  slot_spec h R e Q held →
  (∀ c, holds c held <= taken g c <= capacity c) →
  ∃ held', Q (interp ticks uuids sink clients h R e g).1 held' ∧
    ∀ c, taken (interp ticks uuids sink clients h R e g).2 c =
           taken g c - holds c held + holds c held' ∧
         taken (interp ticks uuids sink clients h R e g).2 c <= capacity c.
Proof.
  intros Hspec Hcount. destruct e; cbn in Hspec;
    try (exists held; split; [apply Hspec|]; intros c; specialize (Hcount c);
         change (taken _ c) with (taken g c); lia).
  - exists held. split; [simpl; destruct (Remember _ _ _); apply Hspec|].
    intros c. specialize (Hcount c). simpl. destruct (Remember _ _ _). cbn [snd].
    change (taken (set_cache g _ _) c) with (taken g c). lia.
  - destruct Hspec as (-> & [cap Hlim] & Htrue & Hfalse). simpl.
    assert (capacity connector = cap) as Hcapc by (unfold capacity; by rewrite Hlim).
    destruct (Z.ltb_spec (taken g connector) (default 0 (limits h !! connector))) as [Hlt|_].
    + exists (Some connector). split; [done|]. intros c. specialize (Hcount c). cbn [snd].
      rewrite taken_set_slots, holds_none. rewrite Hlim in Hlt. simpl in Hlt.
      case_decide as Hc; [subst; rewrite holds_same; lia|rewrite holds_other by done].
      rewrite holds_none in Hcount. lia.
    + exists None. split; [done|]. intros c. specialize (Hcount c). cbn [snd]. lia.
  - destruct Hspec as [-> Hq]. exists None. split; [done|]. intros c. specialize (Hcount c).
    cbn [snd interp]. rewrite taken_set_slots, holds_none.
    case_decide as Hc; [subst; rewrite holds_same in *; lia|rewrite holds_other in * by done; lia].
  - destruct Hspec as [-> Hq]. exists (Some connector). simpl.
    destruct (clients _ _ _) as [answer w]. split; [apply Hq|]. intros c. specialize (Hcount c).
    change (taken _ c) with (taken g c). lia.
Qed.

Lemma slots_inv_reachable w p :
  server_reachable ticks uuids sink clients h w p → slots_inv p.
Proof.
  revert p. apply reachable_invariant.
  - exists []. split; [constructor|]. intros c. split; [done|apply Hcap].
  - intros p p' (hs & Hall & Hcount) Hstep. destruct Hstep as [g ts q Hq|g ts i R e k Hi]; simpl in *.
    + exists (hs ++ [None]). split.
      * apply Forall2_app; [done|]. destruct Hq as [req ->]. constructor; [|done].
        by apply verifyPassword_slot_safe.
      * intros c. rewrite holders_app. unfold holds. simpl. specialize (Hcount c). lia.
    + pose proof Hall as Hall'. eapply Forall2_lookup_l in Hall' as (held & Hheld & Hsafe); [|done].
      destruct (interp_slots R e g _ held Hsafe) as (held' & Hnext & Htaken).
      { intros c. destruct (Hcount c) as [-> ?]. split; [by eapply holds_le_holders|done]. }
      exists (<[i := held']> hs). split; [by apply Forall2_insert|].
      intros c. specialize (Hcount c). specialize (Htaken c).
      rewrite (holders_insert c hs i held held') by done. simpl in *. lia.
Qed.

Lemma asking_holds c p held : slot_safe h p held → asking c p = true → held = Some c.
Proof.
  destruct p as [|R e k]; [done|]. destruct e; simpl; try done.
  by intros [-> _] ->%String.eqb_eq.
Qed.

Lemma asking_count c ts hs :
  Forall2 (slot_safe h) ts hs →
  Z.of_nat (length (List.filter (asking c) ts)) <= holders c hs.
Proof.
  induction 1 as [|p held ts hs Hsafe Hall IH]; simpl; [done|].
  destruct (asking c p) eqn:Hask.
  - rewrite (asking_holds _ _ _ Hsafe Hask), holds_same. simpl length. lia.
  - pose proof (holders_nonneg c [held]). simpl in *. lia.
Qed.

Lemma finished_holders c ts hs :
  Forall2 (slot_safe h) ts hs → forallb finished ts = true → holders c hs = 0.
Proof.
  induction 1 as [|p held ts hs Hsafe Hall IH]; simpl; [done|].
  intros [Hfin Hrest]%andb_prop. destruct p; [|done]. unfold slot_safe in Hsafe. simpl in Hsafe.
  subst held. rewrite IH by done. unfold holds. by rewrite decide_False.
Qed.
End slots_pool.

Lemma NewHandler_capacity version ts expose c : 0 <= capacity (NewHandler version ts expose) c.
Proof.
  unfold capacity. simpl. rewrite lookup_fmap. destruct (ts !! c); simpl; [|done].
  unfold effective_limit. destruct (Z.leb_spec (ConcurrencyLimit t) 0); lia.
Qed.

(** C7: the concurrency limit holds under every interleaving of any number of
    requests: the slots in use of a connector never exceed its limit (8 when
    none is configured) nor go below zero, the directory calls in flight for
    the connector are at most that many, and when all requests have ended every
    slot has been given back. *)
Theorem concurrency_bounded {W} `{UnicodeTables} (ticks : nat → Z) (uuids : nat → string)
    (sink : Event → bool)
    (clients : string → VerifyPasswordRequest → W → result error VerifyPasswordResult * W)
    (version : string) (ts : gmap string TenantRuntime) (expose : bool) (w : W) (p : server_pool W)
    (c : string) (runtime : TenantRuntime)
    (Hp : server_reachable ticks uuids sink clients (NewHandler version ts expose) w p)
    (Hc : ts !! c = Some runtime) :
  0 <= taken (shared p) c <= effective_limit runtime ∧
  Z.of_nat (length (List.filter (asking c) (threads p))) <= effective_limit runtime ∧
  (forallb finished (threads p) = true → taken (shared p) c = 0).
Proof.
  destruct (slots_inv_reachable _ _ _ _ _ (NewHandler_configured version ts expose)
              (NewHandler_capacity version ts expose) w p Hp) as (hs & Hall & Hcount).
  destruct (Hcount c) as [-> Hle].
  assert (capacity (NewHandler version ts expose) c = effective_limit runtime) as Hcap.
  { unfold capacity. simpl. by rewrite lookup_fmap, Hc. }
  pose proof (holders_nonneg c hs). pose proof (asking_count _ c _ _ Hall).
  split_and!; [lia|lia|lia|]. intros Hfin. by eapply finished_holders.
Qed.

(** ** The replay cache under interleaving *)

Section replay_wp.

(** A thread passes the replay cache only readings the clock has given. *)
Definition clock_spec (R : Type) (e : effect R) (Q : R → Z → Prop) (low : Z) : Prop :=
  match e in effect R return (R → Z → Prop) → Prop with
  | Now => λ Q, ∀ r, low <= r → Q r r
  | RememberKey _ now => λ Q, now <= low ∧ ∀ r, Q r low
  | _ => λ Q, ∀ r, Q r low
  end Q.

Lemma clock_spec_mono R (e : effect R) (P Q : R → Z → Prop) low :
  (∀ r low', P r low' → Q r low') → clock_spec R e P low → clock_spec R e Q low.
Proof. intros HPQ. destruct e; simpl; naive_solver. Qed.

Definition clock_safe (p : io unit) (low : Z) : Prop := wp clock_spec p (λ _ _, True) low.

(** Time may pass before a thread goes on. *)
Lemma clock_safe_later p low low' : low <= low' → clock_safe p low → clock_safe p low'.
Proof.
  unfold clock_safe. revert low low'. induction p as [|R e k IH]; [done|].
  intros low low' Hle Hp. destruct e; simpl in *;
    try (intros x; apply (IH x low); [done|apply Hp]).
  - intros x Hx. apply Hp. lia.
  - destruct Hp as [? Hp]. split; [lia|]. intros x. by apply (IH x low).
Qed.

Context `{UnicodeTables}.

Ltac walk_clock :=
  repeat (
    cbn [wp bind call clock_spec];
    match goal with
    | |- ∀ _, _ => intro
    | |- _ ∧ _ => split
    | |- wp _ (bind _ _) _ _ => apply (wp_bind clock_spec clock_spec_mono)
    | H : ?x = _ |- wp _ (match ?x with _ => _ end) _ _ => rewrite H
    | |- wp _ (match ?x with _ => _ end) _ _ => destruct x eqn:?
    | |- wp _ ?p _ _ => let f := head_of p in progress unfold f
    end).

Lemma verifyPassword_clock_safe h req low : clock_safe (verifyPassword h req) low.
Proof. unfold clock_safe. walk_clock; done || lia. Qed.
End replay_wp.

Section replay_pool.
Context {W : Type} `{UnicodeTables}.
Variable ticks : nat → Z.
Hypothesis Hticks : ∀ n, ticks n <= ticks (S n).
Variable uuids : nat → string.
Variable sink : Event → bool.
Variable clients : string → VerifyPasswordRequest → W → result error VerifyPasswordResult * W.
Variable h : handler.

Definition remembered_inv (g : gateway W) : Prop :=
  history_inv (5 * Minute) (g_cache g) (clock ticks g) (g_accepted g).

Definition replay_inv (p : server_pool W) : Prop :=
  remembered_inv (shared p) ∧
  Forall (λ t, clock_safe t (clock ticks (shared p))) (threads p).

Lemma remember_inv g key now :
  remembered_inv g → now <= clock ticks g →
  remembered_inv (interp ticks uuids sink clients h _ (RememberKey key now) g).2.
Proof.
  intros Hinv Hnow. apply (history_remember _ _ _ _ key now) in Hinv; [|done].
  unfold remembered_inv. simpl. by destruct (Remember (g_cache g) key now) as [[] cache].
Qed.

(** The other effects leave the cache and its history alone. *)
Lemma interp_clock_le R (e : effect R) g :
  clock ticks g <= clock ticks (interp ticks uuids sink clients h R e g).2.
Proof.
  unfold clock. destruct e; simpl; repeat case_match; simpl; try lia. apply Hticks.
Qed.

Lemma interp_remembered R (e : effect R) g Q :
  clock_spec R e Q (clock ticks g) → remembered_inv g →
  remembered_inv (interp ticks uuids sink clients h R e g).2.
Proof.
  intros Hspec Hinv.
  destruct e; try (by apply remember_inv; [|apply Hspec]).
  all: unfold remembered_inv in *; simpl; repeat case_match; simpl; try done.
  eapply history_later; [|exact Hinv]. unfold clock. simpl. apply Hticks.
Qed.

Lemma interp_clock R (e : effect R) g (Q : R → Z → Prop) :
  (∀ r low low', low <= low' → Q r low → Q r low') →
  clock_spec R e Q (clock ticks g) →
  Q (interp ticks uuids sink clients h R e g).1
    (clock ticks (interp ticks uuids sink clients h R e g).2).
Proof.
  intros Hmono Hspec. destruct e; simpl in *; repeat case_match; simpl; try apply Hspec.
  apply (Hmono _ (clock ticks g)); [apply Hticks|]. by apply Hspec.
Qed.

Lemma replay_inv_reachable w p :
  server_reachable ticks uuids sink clients h w p → replay_inv p.
Proof.
  revert p. apply reachable_invariant.
  - split; [|constructor]. split; [done|split; constructor].
  - intros p p' [Hinv Hall] Hstep. destruct Hstep as [g ts q Hq|g ts i R e k Hi]; simpl in *.
    + split; [done|]. apply Forall_app. split; [done|].
      destruct Hq as [req ->]. repeat constructor. apply verifyPassword_clock_safe.
    + pose proof (Forall_lookup_1 _ _ _ _ Hall Hi) as Hsafe.
      split; [eapply interp_remembered; [exact Hsafe|done]|]. apply Forall_insert.
      * eapply Forall_impl; [exact Hall|]. intros t. apply clock_safe_later, interp_clock_le.
      * apply (interp_clock R e g (λ r low, clock_safe (k r) low)); [|exact Hsafe].
        intros r low low'. apply clock_safe_later.
Qed.
End replay_pool.

(** No replay key is accepted twice within five minutes, in any interleaving
    of any number of requests: when the cache takes a key again, the clock has
    moved more than five minutes past the reading it was first taken with. *)
Theorem replay_keys_apart {W} `{UnicodeTables} (ticks : nat → Z) (uuids : nat → string)
    (sink : Event → bool)
    (clients : string → VerifyPasswordRequest → W → result error VerifyPasswordResult * W)
    (h : handler) (w : W) (p : server_pool W)
    (Hticks : ∀ n, ticks n <= ticks (S n))
    (Hp : server_reachable ticks uuids sink clients h w p) :
  StronglySorted (apart (5 * Minute)) (g_accepted (shared p)).
Proof. by apply (replay_inv_reachable ticks Hticks uuids sink clients h w p). Qed.
