(* ===== verification/HttpReplay.v ===== *)
(** * Replayed requests in parallel (server.go, verifier.go)

    A run of the server with its history: which request each thread handles, and
    who performed which effect when.  Copies of one signed request, interleaved
    with any other requests, reach the directory through one of them only. *)

From S2P Require Import Prelude GoStrings GoTime Effects Directory AuditEvent Storm Replay Metrics Json Hmac HmacProofs HttpApi HttpTraces HttpPool.
Local Open Scope Z_scope.

(** ** Runs with a history *)

(** Thread [Who], at the clock [When], performed an effect and got its answer. *)
Record happening := { Who : nat; When : Z; What : entry effect }.

Definition reading_of (x : entry effect) : option Z :=
  match projT2 x with
  | (e, r) =>
      match e in effect R return R → option Z with
      | Now => λ now, Some now
      | _ => λ _, None
      end r
  end.

(** The acceptance of a replay key, and whose it is. *)
Definition accepted_of (x : happening) : option (nat * acceptance) :=
  match projT2 (What x) with
  | (e, r) =>
      match e in effect R return R → option (nat * acceptance) with
      | RememberKey key now => λ fresh : bool,
          if fresh then Some (Who x, {| took_key := key; took_read := now; took_at := When x |}) else None
      | _ => λ _, None
      end r
  end.

(** What threads did: read the clock, presented a key to the replay cache, asked
    a directory. *)
Definition read_clock (log : list happening) (i : nat) (r : Z) : Prop :=
  ∃ x, x ∈ log ∧ Who x = i ∧ reading_of (What x) = Some r.
Definition presented_key (log : list happening) (i : nat) (t : Z) : Prop :=
  ∃ x, x ∈ log ∧ Who x = i ∧ When x = t ∧ is_Some (remembered_of (What x)).
Definition took (log : list happening) (i : nat) (a : acceptance) : Prop :=
  ∃ x, x ∈ log ∧ accepted_of x = Some (i, a).
Definition asked_directory (log : list happening) (i : nat) : Prop :=
  ∃ x, x ∈ log ∧ Who x = i ∧ is_Some (directory_call_of (What x)).

(** A thread that is not stalled: it presents its key at most a minute after any
    reading of the clock it made. *)
Definition prompt (log : list happening) (i : nat) : Prop :=
  ∀ r t, read_clock log i r → presented_key log i t → t <= r + Minute.

(** Two requests with the same ids, key id, nonce and timestamp: copies of one
    signed request. *)
Definition same_identity (req1 req2 : Request) : Prop :=
  Forall (λ name, header_values req1 name = header_values req2 name)
    [HeaderConnectorID; HeaderKeyID; HeaderRequestID; HeaderTimestamp; HeaderNonce].

Section run.
Context {W : Type} `{UnicodeTables}.
Variable ticks : nat → Z.
Variable uuids : nat → string.
Variable sink : Event → bool.
Variable clients : string → VerifyPasswordRequest → W → result error VerifyPasswordResult * W.
Variable h : handler.

Abbreviation answer := (interp ticks uuids sink clients h).

(** Requests arrive, each with a thread of its own, and threads perform their
    next effects, in any order. *)
Inductive server_run (w : W) : server_pool W → list Request → list happening → Prop :=
| run_start : server_run w (Pool (new_gateway h w) []) [] []
| run_arrival g ts reqs log req :
    server_run w (Pool g ts) reqs log →
    server_run w (Pool g (ts ++ [verifyPassword h req])) (reqs ++ [req]) log
| run_effect g ts reqs log i R (e : effect R) k :
    server_run w (Pool g ts) reqs log → ts !! i = Some (Vis e k) →
    server_run w (Pool (answer R e g).2 (<[i := k (answer R e g).1]> ts)) reqs
      (log ++ [{| Who := i; When := clock ticks g; What := existT R (e, (answer R e g).1) |}]).

Lemma run_reachable w p reqs log :
  server_run w p reqs log → server_reachable ticks uuids sink clients h w p.
Proof.
  induction 1 as [|g ts reqs log req _ IH|g ts reqs log i R e k _ IH Hi]; [constructor|..].
  - eapply reachable_next; [exact IH|]. apply pool_spawn. by exists req.
  - eapply reachable_next; [exact IH|]. by apply pool_effect.
Qed.

(** A schedule that is run with its history, for concrete runs. *)
Definition logged_at (i : nat) (c : server_pool W * list happening) : server_pool W * list happening :=
  let '(p, log) := c in
  match threads p !! i with
  | Some (@Vis _ _ R e k) =>
      (Pool (answer R e (shared p)).2 (<[i := k (answer R e (shared p)).1]> (threads p)),
       log ++ [{| Who := i; When := clock ticks (shared p);
                  What := existT R (e, (answer R e (shared p)).1) |}])
  | _ => c
  end.

Definition logged_schedule (order : list nat) (c : server_pool W * list happening) :=
  foldl (λ c i, logged_at i c) c order.

Lemma logged_run w reqs order p log :
  server_run w p reqs log →
  server_run w (logged_schedule order (p, log)).1 reqs (logged_schedule order (p, log)).2.
Proof.
  revert p log. induction order as [|i order IH]; intros p log Hrun; [done|]. simpl.
  destruct p as [g ts]. simpl. destruct (ts !! i) as [[a|R e k]|] eqn:Hi; [by apply IH| |by apply IH].
  by apply IH, run_effect.
Qed.

Lemma arrivals_run w reqs :
  server_run w (Pool (new_gateway h w) (verifyPassword h <$> reqs)) reqs [].
Proof.
  induction reqs as [|req reqs IH] using rev_ind; [constructor|]. rewrite fmap_app. by apply run_arrival.
Qed.

(** ** One thread *)

(** What a thread read from the clock, and whether the cache took its key. *)
Record passage := { Readings : list Z; Taken : bool }.

(** A thread handling [req] presents one key only, that of its request, which was
    authentic at an earlier reading; it asks the directory only when the key was
    taken. *)
Definition passage_spec (req : Request) (R : Type) (e : effect R) (Q : R → passage → Prop) (g : passage) : Prop :=
  match e in effect R return (R → passage → Prop) → Prop with
  | Now => λ Q, ∀ r, Forall (λ x, x <= r) (Readings g) →
      Q r {| Readings := r :: Readings g; Taken := Taken g |}
  | RememberKey key now => λ Q,
      (∃ runtime now0 verification body,
         authentic h req runtime now0 verification body ∧ key = replay_key_of runtime verification ∧
         now0 ∈ Readings g ∧ now0 <= now) ∧
      ∀ fresh, Q fresh {| Readings := Readings g; Taken := Taken g || fresh |}
  | VerifyDirectory _ _ _ => λ Q, Taken g = true ∧ ∀ r, Q r g
  | _ => λ Q, ∀ r, Q r g
  end Q.

Lemma passage_spec_mono req R (e : effect R) (P Q : R → passage → Prop) g :
  (∀ r g', P r g' → Q r g') → passage_spec req R e P g → passage_spec req R e Q g.
Proof. intros HPQ. destruct e; simpl; naive_solver. Qed.

Definition passes (req : Request) (p : io unit) (g : passage) : Prop :=
  wp (passage_spec req) p (λ _ _, True) g.

Ltac walk_passage req :=
  repeat (
    cbn [wp bind call passage_spec];
    match goal with
    | |- ∀ _, _ => intro
    | |- wp _ (bind _ _) _ _ => apply (wp_bind _ (passage_spec_mono req))
    | H : ?x = _ |- wp _ (match ?x with _ => _ end) _ _ => rewrite H
    | |- wp _ (match ?x with _ => _ end) _ _ => destruct x eqn:?
    | |- wp _ ?p _ _ => let f := head_of p in progress unfold f
    | |- _ ∧ _ => split
    end).

Lemma verifyPassword_passes req : passes req (verifyPassword h req) {| Readings := []; Taken := false |}.
Proof.
  unfold passes. walk_passage req; try done; simpl.
  all: try match goal with H : negb ?b = false |- _ => by destruct b end.
  all: match goal with Hv : Verify (HMACVerifier ?rt) ?now0 _ = Ok (?v, ?s) |- _ => exists rt, now0, v, s end.
  all: simpl in *; rewrite ?Forall_cons in *; split_and!; [by split|done|set_solver|lia].
Qed.

(** ** All threads *)

(** What is known of thread [i], which handles [req]. *)
Definition passing (log : list happening) (clock : Z) (i : nat) (req : Request) (p : io unit) : Prop :=
  ∃ g, passes req p g ∧ Forall (λ r, r <= clock ∧ read_clock log i r) (Readings g) ∧
       (Taken g = true → ∃ a, took log i a).

(** Everything accepted was presented by a thread for its request, and only a
    thread whose key was accepted asked a directory. *)
Definition accepted_for (reqs : list Request) (log : list happening) (i : nat) (a : acceptance) : Prop :=
  ∃ req runtime now verification body,
    reqs !! i = Some req ∧ authentic h req runtime now verification body ∧
    took_key a = replay_key_of runtime verification ∧ now <= took_read a ∧ read_clock log i now.

Record run_inv (p : server_pool W) (reqs : list Request) (log : list happening) : Prop := {
  run_length : length reqs = length (threads p);
  run_threads : ∀ i req t, reqs !! i = Some req → threads p !! i = Some t →
    passing log (clock ticks (shared p)) i req t;
  run_history : g_accepted (shared p) = snd <$> omap accepted_of log;
  run_accepted : ∀ i a, took log i a → accepted_for reqs log i a;
  run_asked : ∀ i, asked_directory log i → ∃ a, took log i a;
}.

(** A longer log knows as much. *)
Lemma took_later log x i a : took log i a → took (log ++ [x]) i a.
Proof. intros (y & Hy & Ha). exists y. split; [|done]. apply elem_of_app. by left. Qed.

Lemma read_later log x i r : read_clock log i r → read_clock (log ++ [x]) i r.
Proof. intros (y & Hy & Hr). exists y. split; [|done]. apply elem_of_app. by left. Qed.

Lemma took_last log x i a : took (log ++ [x]) i a → took log i a ∨ accepted_of x = Some (i, a).
Proof.
  intros (y & [Hy| ->%list_elem_of_singleton]%elem_of_app & Ha); [left; by exists y|by right].
Qed.

Lemma passing_later log x t t' i req p :
  t <= t' → passing log t i req p → passing (log ++ [x]) t' i req p.
Proof.
  intros Hle (g & Hp & Hr & Ht). exists g. split_and!; [done| |].
  - eapply Forall_impl; [exact Hr|]. intros r [? ?]. split; [lia|by apply read_later].
  - intros Hg. destruct (Ht Hg) as [a Ha]. exists a. by apply took_later.
Qed.

Lemma accepted_for_later reqs reqs' log x i a :
  accepted_for reqs log i a → accepted_for (reqs ++ reqs') (log ++ x) i a.
Proof.
  intros (req & rt & now & v & body & Hreq & Ha & Hk & Hle & (y & Hy & Hr)).
  exists req, rt, now, v, body. split_and!; [by apply lookup_app_l_Some|done..|].
  exists y. split; [|done]. apply elem_of_app. by left.
Qed.

Hypothesis Hticks : ∀ n, ticks n <= ticks (S n).

(** One effect of thread [i]. *)
Section step.
Variables (log : list happening) (s : gateway W) (i : nat) (req : Request).

Abbreviation happened e r := (log ++ [{| Who := i; When := clock ticks s; What := existT _ (e, r) |}]).

Lemma passing_step R (e : effect R) k g :
  passes req (Vis e k) g → Forall (λ r, r <= clock ticks s ∧ read_clock log i r) (Readings g) →
  (Taken g = true → ∃ a, took log i a) →
  passing (happened e (answer R e s).1) (clock ticks (answer R e s).2) i req (k (answer R e s).1).
Proof.
  intros Hp Hr Ht. pose proof (interp_clock_le ticks Hticks uuids sink clients h R e s) as Hle.
  assert (Hsame : passes req (k (answer R e s).1) g →
    passing (happened e (answer R e s).1) (clock ticks (answer R e s).2) i req (k (answer R e s).1)).
  { intros Hk. apply (passing_later _ _ (clock ticks s)); [exact Hle|]. by exists g. }
  destruct e; try (apply Hsame, Hp).
  - exists {| Readings := clock ticks s :: Readings g; Taken := Taken g |}. split_and!.
    + apply Hp. eapply Forall_impl; [exact Hr|]. by intros r [? _].
    + constructor; [|by eapply Forall_impl; [exact Hr|]; intros r [? ?]; split; [lia|by apply read_later]].
      split; [done|]. eexists. split; [apply elem_of_app; right; by apply list_elem_of_singleton|done].
    + intros Hg. destruct (Ht Hg) as [a Ha]. exists a. by apply took_later.
  - destruct Hp as [_ Hp]. exists {| Readings := Readings g; Taken := Taken g || (answer _ (RememberKey key now) s).1 |}.
    split_and!; [apply Hp| |].
    + eapply Forall_impl; [exact Hr|]. intros r [? ?]. split; [lia|by apply read_later].
    + simpl Taken. destruct (Taken g); [intros _; destruct (Ht eq_refl) as [a Ha]; exists a; by apply took_later|].
      intros Hfresh. exists {| took_key := key; took_read := now; took_at := clock ticks s |}.
      eexists. split; [apply elem_of_app; right; by apply list_elem_of_singleton|].
      revert Hfresh. simpl. by destruct (Remember (g_cache s) key now) as [[] cache].
Qed.

(** The history that the cache keeps is that of the log. *)
Lemma history_step R (e : effect R) :
  g_accepted s = snd <$> omap accepted_of log →
  g_accepted (answer R e s).2 = snd <$> omap accepted_of (happened e (answer R e s).1).
Proof.
  intros Hs. rewrite omap_app, fmap_app. destruct e; simpl; rewrite ?app_nil_r; try exact Hs.
  - destruct (Remember (g_cache s) key now) as [[] cache]; simpl; rewrite ?app_nil_r; by rewrite Hs.
  - by destruct (_ <? _).
  - by destruct (clients _ _ _).
Qed.

Lemma accepted_step reqs R (e : effect R) k g j a :
  reqs !! i = Some req → passes req (Vis e k) g →
  Forall (λ r, r <= clock ticks s ∧ read_clock log i r) (Readings g) →
  accepted_of {| Who := i; When := clock ticks s; What := existT R (e, (answer R e s).1) |} = Some (j, a) →
  accepted_for reqs log j a.
Proof.
  intros Hreq Hp Hr. destruct e; try discriminate. cbn [accepted_of What projT2].
  destruct (answer _ _ s).1; [|discriminate]. intros [= <- <-].
  destruct Hp as [(rt & now0 & v & body & Ha & Hk & Hin & Hle) _].
  exists req, rt, now0, v, body. split_and!; try done.
  rewrite Forall_forall in Hr. by apply Hr.
Qed.
End step.

Lemma run_invariant w p reqs log : server_run w p reqs log → run_inv p reqs log.
Proof.
  induction 1 as [|g ts reqs log req _ IH|g ts reqs log i R e k _ IH Hi].
  - constructor; [done|done|done|..].
    + intros i a (x & Hx & _). by apply not_elem_of_nil in Hx.
    + intros i (x & Hx & _). by apply not_elem_of_nil in Hx.
  - destruct IH as [Hlen Hthreads Hhist Hacc Hasked]. constructor; [| |done| |done].
    + simpl in *. by rewrite !length_app, Hlen.
    + intros i req' t. simpl. intros Hreq Ht. destruct (decide (i < length reqs)%nat).
      { rewrite lookup_app_l in Hreq by done. rewrite lookup_app_l in Ht by (simpl in Hlen; lia). by apply (Hthreads i). }
      rewrite lookup_app_r in Hreq by lia. rewrite lookup_app_r in Ht by (simpl in Hlen; lia).
      apply list_lookup_singleton_Some in Hreq as [_ <-]. apply list_lookup_singleton_Some in Ht as [_ <-].
      exists {| Readings := []; Taken := false |}. split_and!; [apply verifyPassword_passes|constructor|done].
    + intros i a Ha. rewrite <-(app_nil_r log). by apply accepted_for_later, Hacc.
  - destruct IH as [Hlen Hthreads Hhist Hacc Hasked]. simpl in *.
    destruct (lookup_lt_is_Some_2 reqs i) as [req Hreq]; [rewrite Hlen; by eapply lookup_lt_Some|].
    destruct (Hthreads i req _ Hreq Hi) as (st & Hp & Hr & Ht).
    pose proof (interp_clock_le ticks Hticks uuids sink clients h R e g) as Hle. constructor; simpl.
    + by rewrite length_insert.
    + intros j req' t Hreq' Hj. destruct (decide (j = i)) as [->|Hne].
      * rewrite list_lookup_insert_eq in Hj by by eapply lookup_lt_Some. injection Hj as <-.
        rewrite Hreq in Hreq'. injection Hreq' as <-. by apply (passing_step log g i req R e k st).
      * rewrite list_lookup_insert_ne in Hj by done. eapply passing_later; [exact Hle|]. by apply Hthreads.
    + by apply history_step.
    + intros j a Ha. rewrite <-(app_nil_r reqs). apply accepted_for_later.
      apply took_last in Ha as [Ha|Ha]; [by apply Hacc|]. by apply (accepted_step log g i req reqs R e k st j a).
    + intros j (x & [Hx| ->%list_elem_of_singleton]%elem_of_app & Hwho & Hdir).
      { destruct (Hasked j) as [a Ha]; [by exists x|]. exists a. by apply took_later. }
      destruct e; try by destruct Hdir. simpl in Hwho. subst j. destruct Hp as [Htaken _].
      destruct (Ht Htaken) as [a Ha]. exists a. by apply took_later.
Qed.

(** ** Copies of one request *)

(** Authentic copies carry one replay key and one timestamp. *)
Lemma copies_agree req1 req2 rt1 rt2 ks1 ks2 now1 now2 v1 v2 body1 body2 :
  same_identity req1 req2 →
  HMACVerifier rt1 = NewVerifier ks1 → HMACVerifier rt2 = NewVerifier ks2 →
  authentic h req1 rt1 now1 v1 body1 → authentic h req2 rt2 now2 v2 body2 →
  replay_key_of rt1 v1 = replay_key_of rt2 v2 ∧ Z.abs (now1 - now2) <= 4 * Minute.
Proof.
  unfold same_identity. rewrite !Forall_cons. intros (Hc & Hk & Hr & Ht & Hn & _) Hks1 Hks2 [Hrt1 Hv1] [Hrt2 Hv2].
  assert (rt1 = rt2) as <-.
  { unfold connector_of, header_get in *. rewrite Hc in Hrt1. congruence. }
  rewrite Hks1 in Hv1. rewrite Hks2 in Hv2.
  apply verify_accepts in Hv1 as (ts1 & sh1 & sg1 & key1 & Ha1).
  apply verify_accepts in Hv2 as (ts2 & sh2 & sg2 & key2 & Ha2).
  assert (Hfield : ∀ name x1 x2, header_values req1 name = header_values req2 name →
    field_is (limited req1) name x1 → field_is (limited req2) name x2 → x1 = x2).
  { intros name x1 x2 Heq (_ & raw1 & Hs1 & ->) (_ & raw2 & Hs2 & ->). unfold single in *.
    change (header_values req1 name = [raw1]) in Hs1. change (header_values req2 name = [raw2]) in Hs2. congruence. }
  pose proof (acc_headers _ _ _ _ _ _ _ _ _ Ha1) as (_ & Hk1 & Hr1 & Ht1 & Hn1 & _).
  pose proof (acc_headers _ _ _ _ _ _ _ _ _ Ha2) as (_ & Hk2 & Hr2 & Ht2 & Hn2 & _). simpl in *.
  pose proof (acc_timestamp _ _ _ _ _ _ _ _ _ Ha1) as Hp1. pose proof (acc_timestamp _ _ _ _ _ _ _ _ _ Ha2) as Hp2.
  pose proof (acc_fresh _ _ _ _ _ _ _ _ _ Ha1). pose proof (acc_fresh _ _ _ _ _ _ _ _ _ Ha2). split.
  - unfold replay_key_of. by rewrite (Hfield _ _ _ Hk Hk1 Hk2), (Hfield _ _ _ Hr Hr1 Hr2), (Hfield _ _ _ Hn Hn1 Hn2).
  - rewrite (Hfield _ _ _ Ht Ht1 Ht2) in Hp1. assert (Timestamp v1 = Timestamp v2) by congruence. lia.
Qed.

Lemma took_presented log i a : took log i a → presented_key log i (took_at a).
Proof.
  intros ([j t [R [e r]]] & Hx & Ha). exists {| Who := j; When := t; What := existT R (e, r) |}.
  destruct e; try discriminate. destruct r; [|discriminate]. injection Ha as <- <-. by split_and!.
Qed.

(** Within the lifetime of the key, the cache takes one of the copies only. *)
Lemma copies_not_apart reqs log i j a b req1 req2 :
  (∀ c runtime, tenants h !! c = Some runtime → ∃ ks, HMACVerifier runtime = NewVerifier ks) →
  reqs !! i = Some req1 → reqs !! j = Some req2 → same_identity req1 req2 → prompt log j →
  accepted_for reqs log i a → accepted_for reqs log j b → took log j b → ¬ apart (5 * Minute) a b.
Proof.
  intros Hks Hi Hj Hsame Hprompt (r1 & rt1 & now1 & v1 & body1 & Hr1 & Ha1 & Hk1 & Hle1 & _)
    (r2 & rt2 & now2 & v2 & body2 & Hr2 & Ha2 & Hk2 & _ & Hread) Htook Hapart. simplify_eq.
  destruct (Hks _ _ (proj1 Ha1)) as [ks1 Hks1], (Hks _ _ (proj1 Ha2)) as [ks2 Hks2].
  destruct (copies_agree _ _ _ _ _ _ _ _ _ _ _ _ Hsame Hks1 Hks2 Ha1 Ha2) as [Hkey Hnow].
  specialize (Hprompt _ _ Hread (took_presented _ _ _ Htook)).
  assert (took_key a = took_key b) as Heq%Hapart by congruence. lia.
Qed.
End run.

Lemma took_accepted log i a : took log i a ↔ (i, a) ∈ omap accepted_of log.
Proof. rewrite list_elem_of_omap. firstorder. Qed.

(** C4: a signed request is used once.  In any interleaving of any number of
    requests, two that carry the same connector id, key id, request id,
    timestamp and nonce (copies of one signed request, resent by whoever saw
    it) never both reach a directory, whatever became of them otherwise.  It
    rests on the connectors' verifiers being those that [NewVerifier] makes, on
    the clock not going back, and on neither copy stalling for more than a minute
    between a reading of the clock and the presentation of its key to the cache:
    the key is kept for five minutes, of which the freshness window of the
    timestamps uses four. *)
Theorem signed_request_used_once {W} `{UnicodeTables} (ticks : nat → Z) (uuids : nat → string)
    (sink : Event → bool)
    (clients : string → VerifyPasswordRequest → W → result error VerifyPasswordResult * W)
    (h : handler) (w : W) (p : server_pool W) (reqs : list Request) (log : list happening)
    (i j : nat) (req1 req2 : Request)
    (Hticks : ∀ n, ticks n <= ticks (S n))
    (Hverifiers : ∀ c runtime, tenants h !! c = Some runtime → ∃ ks, HMACVerifier runtime = NewVerifier ks)
    (Hrun : server_run ticks uuids sink clients h w p reqs log)
    (Hi : reqs !! i = Some req1) (Hj : reqs !! j = Some req2) (Hsame : same_identity req1 req2)
    (Hprompt1 : prompt log i) (Hprompt2 : prompt log j)
    (Hasked1 : asked_directory log i) (Hasked2 : asked_directory log j) :
  i = j.
Proof.
  destruct (run_invariant _ _ _ _ _ Hticks _ _ _ _ Hrun) as [_ _ Hhist Hacc Hasked].
  destruct (Hasked i Hasked1) as [a Ha], (Hasked j Hasked2) as [b Hb].
  destruct (replay_inv_reachable _ Hticks _ _ _ _ _ _ (run_reachable _ _ _ _ _ _ _ _ _ Hrun))
    as [(_ & _ & Hsorted) _].
  rewrite Hhist in Hsorted. destruct (decide (i = j)) as [|Hne]; [done|]. exfalso.
  assert (Hsame' : same_identity req2 req1) by (eapply Forall_impl; [exact Hsame|done]).
  assert (apart (5 * Minute) a b ∨ apart (5 * Minute) b a) as [Hapart|Hapart].
  { apply (StronglySorted_fmap_elem _ snd (omap accepted_of log) (i, a) (j, b)); [done|by apply took_accepted..|].
    congruence. }
  - revert Hapart. by eapply (copies_not_apart h reqs log i j); [..|apply Hacc|apply Hacc|].
  - revert Hapart. by eapply (copies_not_apart h reqs log j i); [..|apply Hacc|apply Hacc|].
Qed.
