(* ===== verification/HttpExamples.v ===== *)
(** * Concrete runs of the HTTP handler

    Signed requests evaluated through the whole handler, and the witnesses of the
    theorems about interleavings. *)

From S2P Require Import Prelude GoStrings GoCrypto GoTime Effects Directory AuditEvent Storm Replay Metrics Json Hmac HmacProofs HttpApi HttpTraces HttpPool HttpReplay.
Local Open Scope Z_scope.
#[local] Existing Instance ascii_only_tables.

(** ** A client *)

Definition unsigned_request (requestID nonce body signature : string) : Request := {|
  Method := "POST";
  URL_EscapedPath := "/v1/auth/verify-password";
  URL_Query := ∅;
  Header := list_to_map [
    ("Content-Type", ["application/json"]);
    (HeaderConnectorID, ["c1"]); (HeaderKeyID, ["k1"]); (HeaderRequestID, [requestID]);
    (HeaderTimestamp, ["2026-06-04T12:00:00Z"]); (HeaderNonce, [nonce]);
    (HeaderSignedHeaders, [example_signed]); (HeaderSignature, [signature])];
  Body := {| body_data := body; body_end := None |};
  RemoteAddr := "127.0.0.1:5000" |}.

Definition signed_request (requestID nonce body : string) : Request :=
  unsigned_request requestID nonce body
    (SignCanonical
       (canonical_text (unsigned_request requestID nonce body "") body
          (parseSignedHeaders example_signed) "2026-06-04T12:00:00Z" nonce)
       (Secret example_key)).

(** ** A server *)

(** A directory that knows one user, and counts its calls. *)
Definition one_user (c : string) (q : VerifyPasswordRequest) (calls : nat)
    : result error VerifyPasswordResult * nat :=
  (Ok (if (Verify_Username q =? "alice")%string && (Verify_Password q =? "pw")%string
       then SuccessfulVerification {| DirectoryID := "id"; Subject_Username := "alice" |} ∅ []
       else FailedVerification ""), S calls).

Definition example_ticks (n : nat) : Z := example_now + Z.of_nat n * Millisecond.
Definition example_tenants : gmap string TenantRuntime :=
  {[ "c1" := example_runtime example_keys ]}.
Definition example_handler : handler := NewHandler "v" example_tenants false.
Definition example_interp :=
  @interp nat example_ticks (λ _, "uuid") (λ _, true) one_user example_handler.

Definition run_one (req : Request) : trace :=
  run_trace example_interp (verifyPassword example_handler req) (new_gateway example_handler 0%nat).

Definition statuses (tr : trace) : list Z := (responses tr).*1.

Example success_run :
  responses (run_one (signed_request "r1" "n1" (example_json "pw"))) =
  [(200, verify_response (example_decoded "pw") "success" ""
           (Some {| Response_DirectoryID := "id"; Response_Username := "alice" |}) ∅ [])].
Proof. vm_compute. reflexivity. Qed.

Example failure_run :
  statuses (run_one (signed_request "r1" "n1" (example_json "no"))) = [200].
Proof. vm_compute. reflexivity. Qed.

Example tampered_run :
  statuses (run_one (with_header (signed_request "r1" "n1" (example_json "pw"))
                       HeaderNonce "n2")) = [401].
Proof. vm_compute. reflexivity. Qed.

(** ** Two requests at once, one slot *)

(** The first request gets as far as the directory; then the second runs. *)
Definition example_start : server_pool nat :=
  Pool (new_gateway example_handler 0%nat)
    [verifyPassword example_handler (signed_request "r1" "n1" (example_json "pw"));
     verifyPassword example_handler (signed_request "r2" "n2" (example_json "pw"))].
Definition example_pool : server_pool nat :=
  schedule example_interp (replicate 11 0%nat ++ replicate 20 1%nat) example_start.

Lemma example_pool_reachable :
  server_reachable example_ticks (λ _, "uuid") (λ _, true) one_user example_handler 0%nat
    example_pool.
Proof.
  apply schedule_reachable, spawned_reachable.
  repeat constructor; eexists; reflexivity.
Qed.

(** The first request is at the directory with the only slot; the second was
    turned away. *)
Example example_pool_state :
  taken (shared example_pool) "c1" = 1 ∧
  length (List.filter (asking "c1") (threads example_pool)) = 1%nat ∧
  (finished <$> threads example_pool) = [false; true].
Proof. vm_compute. done. Qed.

Lemma concurrency_bounded_witness :
  0 <= taken (shared example_pool) "c1" <= 1 ∧
  Z.of_nat (length (List.filter (asking "c1") (threads example_pool))) <= 1 ∧
  (forallb finished (threads example_pool) = true → taken (shared example_pool) "c1" = 0).
Proof.
  apply (concurrency_bounded example_ticks (λ _, "uuid") (λ _, true) one_user "v" example_tenants
           false 0%nat example_pool "c1" (example_runtime example_keys)).
  - exact example_pool_reachable.
  - reflexivity.
Defined.

Lemma example_ticks_mono n : example_ticks n <= example_ticks (S n).
Proof. unfold example_ticks, Millisecond. lia. Qed.

Lemma replay_keys_apart_witness :
  StronglySorted (apart (5 * Minute)) (g_accepted (shared example_pool)).
Proof.
  apply (replay_keys_apart example_ticks (λ _, "uuid") (λ _, true) one_user example_handler 0%nat
           example_pool).
  - exact example_ticks_mono.
  - exact example_pool_reachable.
Defined.

(** The clock readings of the two requests: their keys entered the cache with
    the fifth reading of the run and with the ninth after it. *)
Example example_history :
  took_key <$> g_accepted (shared example_pool) = ["c1:k1:r1:n1"; "c1:k1:r2:n2"].
Proof. vm_compute. reflexivity. Qed.

(** ** A copied request *)

Definition prompt_of (log : list happening) (i : nat) : bool :=
  forallb (λ x, forallb (λ y,
    match reading_of (What x), remembered_of (What y) with
    | Some r, Some _ => negb ((Who x =? i) && (Who y =? i))%nat || (When y <=? r + Minute)
    | _, _ => true
    end) log) log.

Lemma prompt_of_true log i : prompt_of log i = true → prompt log i.
Proof.
  intros Hall r t (x & Hx & Hi & Hr) (y & Hy & Hj & <- & [k Hk]). unfold prompt_of in Hall.
  rewrite List.forallb_forall in Hall. specialize (Hall x (proj1 (list_elem_of_In _ _) Hx)).
  rewrite List.forallb_forall in Hall. specialize (Hall y (proj1 (list_elem_of_In _ _) Hy)). simpl in Hall.
  rewrite Hr, Hk, Hi, Hj, Nat.eqb_refl in Hall. by apply Z.leb_le.
Qed.

Definition asked_by (log : list happening) : list nat :=
  omap (λ x, match directory_call_of (What x) with Some _ => Some (Who x) | None => None end) log.

Lemma asked_by_elem log i : i ∈ asked_by log → asked_directory log i.
Proof.
  unfold asked_by. rewrite list_elem_of_omap. intros (x & Hx & Hi).
  destruct (directory_call_of (What x)) eqn:Hcall; [|done]. injection Hi as <-. exists x. by rewrite Hcall.
Qed.

(** A request and its copy, the copy an effect behind, then both to their ends. *)
Definition original : Request := signed_request "r1" "n1" (example_json "pw").
Definition copies_start : server_pool nat :=
  Pool (new_gateway example_handler 0%nat) (verifyPassword example_handler <$> [original; original]).
Definition copies_order : list nat :=
  concat (replicate 12 [0%nat; 1%nat]) ++ replicate 12 0%nat ++ replicate 12 1%nat.
Definition copies_end : server_pool nat * list happening :=
  logged_schedule example_ticks (λ _, "uuid") (λ _, true) one_user example_handler
    copies_order (copies_start, []).

Lemma copies_run :
  server_run example_ticks (λ _, "uuid") (λ _, true) one_user example_handler 0%nat
    copies_end.1 [original; original] copies_end.2.
Proof.
  exact (logged_run example_ticks (λ _, "uuid") (λ _, true) one_user example_handler 0%nat
           [original; original] copies_order copies_start []
           (arrivals_run example_ticks (λ _, "uuid") (λ _, true) one_user example_handler 0%nat
              [original; original])).
Qed.

(** Both are answered; the copy got as far as the cache. *)
Example copies_outcome :
  (finished <$> threads copies_end.1) = [true; true] ∧ asked_by copies_end.2 = [0%nat] ∧
  omap (λ x, match remembered_of (What x) with Some (_, fresh) => Some (Who x, fresh) | None => None end)
    copies_end.2 = [(0%nat, true); (1%nat, false)] ∧
  responses (What <$> copies_end.2) =
    [(409, error_body "r1" "" "c1" "replay_detected" false);
     (200, verify_response (example_decoded "pw") "success" ""
             (Some {| Response_DirectoryID := "id"; Response_Username := "alice" |}) ∅ [])].
Proof. vm_compute. done. Qed.

Lemma example_verifiers c runtime :
  tenants example_handler !! c = Some runtime → ∃ ks, HMACVerifier runtime = NewVerifier ks.
Proof.
  change (tenants example_handler) with example_tenants. unfold example_tenants.
  intros [_ <-]%lookup_singleton_Some. by exists example_keys.
Qed.

Lemma signed_request_used_once_witness :
  asked_directory copies_end.2 0 ∧ 0%nat = 0%nat ∧ ¬ asked_directory copies_end.2 1.
Proof.
  assert (asked_directory copies_end.2 0) as Hasked by (apply asked_by_elem; vm_compute; left).
  assert (Hprompt : ∀ i, (i < 2)%nat → prompt copies_end.2 i).
  { intros [|[|i]] Hi; [| |lia]; apply prompt_of_true; vm_compute; reflexivity. }
  assert (same_identity original original) as Hsame by (repeat constructor).
  split; [exact Hasked|split].
  - apply (signed_request_used_once example_ticks (λ _, "uuid") (λ _, true) one_user example_handler 0%nat
             copies_end.1 [original; original] copies_end.2 0 0 original original example_ticks_mono
             example_verifiers copies_run eq_refl eq_refl Hsame); auto.
  - intros Hcopy. enough (0%nat = 1%nat) by done.
    apply (signed_request_used_once example_ticks (λ _, "uuid") (λ _, true) one_user example_handler 0%nat
             copies_end.1 [original; original] copies_end.2 0 1 original original example_ticks_mono
             example_verifiers copies_run eq_refl eq_refl Hsame); auto.
Defined.
