(* ===== verification/LdapData.v ===== *)
(** * The LDAP adapter: data and pure helpers (internal/adapters/ldap/client.go)

    Entries, requests, attribute selection, error classification and timeouts.
    The functions of github.com/go-ldap/ldap that the adapter calls on data are
    the operations of the class [LdapLibrary]. *)

From S2P Require Import Prelude GoStrings GoTime Config Directory Username.
Local Open Scope Z_scope.

(** ** The library's data *)

Record EntryAttribute := {
  Attr_Name : string;
  Attr_Values : list string;
  Attr_ByteValues : list string;
}.

Record Entry := { DN : string; Entry_Attributes : list EntryAttribute }.

Inductive Control :=
| ControlPaging (size : Z) (cookie : string)
| ControlOther (type : string).

Inductive scope := ScopeBaseObject | ScopeWholeSubtree.

(** The adapter never dereferences aliases and always asks for values. *)
Record SearchRequest := {
  BaseDN : string;
  Scope : scope;
  SizeLimit : Z;
  TimeLimit : Z;
  Filter : string;
  Attributes : list string;
  Controls : list Control;
}.

Record SearchResult := {
  Entries : list Entry;
  Referrals : list string;
  ResultControls : list Control;
}.

Class LdapLibrary := {
  EscapeFilter : string → string;
  EscapeDN : string → string;
  (** the values of the named attribute, or none *)
  GetAttributeValues : Entry → string → list string;
  (** the first paging control of a response *)
  FindPaging : list Control → option Control;
}.

(** [ldap.IsErrorWithCode] *)
Definition IsErrorWithCode (err : error) (code : Z) : bool :=
  match err with LDAPError c _ => c =? code | _ => false end.

Definition LDAPResultReferral : Z := 10.
Definition LDAPResultInvalidCredentials : Z := 49.
Definition LDAPResultConnectError : Z := 91.

(** ** Error texts *)

Definition sentinel_text (s : sentinel) : string :=
  match s with
  | ErrInvalidCredentials => "invalid_credentials"
  | ErrUserNotFound => "user_not_found"
  | ErrAmbiguousUser => "ambiguous_user"
  | ErrDirectoryTLS => "directory_tls_error"
  | ErrDirectoryUnavailable => "directory_unavailable"
  | ErrDirectoryReferral => "directory_referral"
  | ErrAccountDisabled => "account_disabled"
  | ErrAccountLocked => "account_locked"
  | ErrPasswordExpired => "password_expired"
  | ErrMustChangePassword => "must_change_password"
  end.

(** [err.Error()]; [Wrapped s text] is [fmt.Errorf("%w: ...", s, ...)]. *)
Definition error_text (err : error) : string :=
  match err with
  | Sentinel s => sentinel_text s
  | Wrapped s text => sentinel_text s +:+ ": " +:+ text
  | LDAPError _ text => text
  | OtherError text => text
  end.

(** ** Active Directory's sub-codes *)

Definition word_byte (c : ascii) : bool := is_alnum c || Ascii.eqb c "_"%char.
Definition hex_letter (c : ascii) : bool := is_digit c || in_range 97 102 (lower_byte c).
Definition regexp_space (c : ascii) : bool :=
  existsb (Ascii.eqb c) ["009"; LF; "012"; CR; " "]%char.

(** The longest prefix of bytes satisfying [P], and the rest. *)
Fixpoint span_bytes (P : ascii → bool) (s : string) : string * string :=
  match s with
  | EmptyString => (EmptyString, EmptyString)
  | String c s' =>
      if P c then let '(a, b) := span_bytes P s' in (String c a, b) else (EmptyString, s)
  end.

(** [data\s+([0-9a-f]+)\b] at the start of [s], case-insensitive. *)
Definition data_code_here (s : string) : option string :=
  if negb (has_prefix (string_map lower_byte (String.substring 0 4 s)) "data") then None
  else
    let '(spaces, rest) := span_bytes regexp_space (drop_bytes 4 s) in
    if (spaces =? "")%string then None
    else
      let '(code, rest) := span_bytes hex_letter rest in
      if (code =? "")%string then None
      else match rest with
           | String c _ => if word_byte c then None else Some code
           | EmptyString => Some code
           end.

(** [(?i)\bdata\s+([0-9a-f]+)\b]: the leftmost match; [boundary] says whether a
    word may start here. *)
Fixpoint data_code (boundary : bool) (s : string) : option string :=
  match s with
  | EmptyString => None
  | String c rest =>
      match (if boundary then data_code_here s else None) with
      | Some code => Some code
      | None => data_code (negb (word_byte c)) rest
      end
  end.

Definition normalizeADInvalidCredentialsError (err : error) : option error :=
  match data_code true (error_text err) with
  | None => None
  | Some code =>
      let code := string_map lower_byte code in
      if (code =? "532")%string then Some (Sentinel ErrPasswordExpired)
      else if (code =? "533")%string then Some (Sentinel ErrAccountDisabled)
      else if (code =? "773")%string then Some (Sentinel ErrMustChangePassword)
      else if (code =? "775")%string then Some (Sentinel ErrAccountLocked)
      else None
  end.

Example ad_code_example :
  normalizeADInvalidCredentialsError
    (LDAPError 49 "80090308: LdapErr: DSID-0C09042A, comment: AcceptSecurityContext error, DATA 773, v3839")
  = Some (Sentinel ErrMustChangePassword).
Proof. vm_compute. reflexivity. Qed.

Example ad_code_none :
  (λ t, data_code true t) <$> ["xdata 532"; "data532"; "data 532g"; "metadata 52; data 52e,"] =
  [None; None; None; Some "52e"].
Proof. vm_compute. reflexivity. Qed.

Definition normalizeLDAPError (profile : DirectoryProfileConfig) (err : error) : error :=
  if IsErrorWithCode err LDAPResultInvalidCredentials then
    let ad := (Profile_StatusNormalization profile =? "active_directory")%string ||
              (Profile_StatusNormalization profile =? "")%string &&
              (Profile_Name profile =? "active_directory")%string in
    match (if ad then normalizeADInvalidCredentialsError err else None) with
    | Some mapped => mapped
    | None => Sentinel ErrInvalidCredentials
    end
  else if IsErrorWithCode err LDAPResultConnectError then Sentinel ErrDirectoryUnavailable
  else if IsErrorWithCode err LDAPResultReferral then Sentinel ErrDirectoryReferral
  else err.

Definition credentialVerdictFromBindError (err : error) : option VerifyPasswordResult :=
  if errors_Is err ErrInvalidCredentials then Some (FailedVerification ReasonInvalidCredentials)
  else if errors_Is err ErrAccountDisabled then Some (FailedVerification ReasonAccountDisabled)
  else if errors_Is err ErrAccountLocked then Some (FailedVerification ReasonAccountLocked)
  else if errors_Is err ErrPasswordExpired
  then Some (PolicyRequiredVerification ReasonPasswordExpired)
  else if errors_Is err ErrMustChangePassword
  then Some (PolicyRequiredVerification ReasonMustChangePassword)
  else None.

Definition userResolutionFailureResult (err : error) : option VerifyPasswordResult :=
  if errors_Is err ErrUserNotFound || errors_Is err ErrAmbiguousUser
  then Some (FailedVerification ReasonInvalidCredentials) else None.

(** ** Attributes *)

Definition stringSliceContains (values : list string) (needle : string) : bool :=
  existsb (λ v, (v =? needle)%string) values.

Definition requestedAttributeIncludes (requested : list string) (name : string) : bool :=
  if (name =? "")%string then false else stringSliceContains requested name.

(** The loop of [requestedAttributes] with the names seen. *)
Fixpoint select_attributes (allowed seen requested : list string) : list string :=
  match requested with
  | [] => []
  | name :: requested =>
      if negb (stringSliceContains allowed name) then select_attributes allowed seen requested
      else if stringSliceContains seen name then select_attributes allowed seen requested
      else name :: select_attributes allowed (name :: seen) requested
  end.
Definition requestedAttributes (requested allowed : list string) : list string :=
  select_attributes allowed [] requested.

Section attributes.
Context `{UnicodeTables} `{LdapLibrary}.
Variable cfg : LDAPConfig.

Definition groups_requested (requested : list string) : bool :=
  Group_Enabled (LDAP_Groups cfg) &&
  requestedAttributeIncludes requested (Group_ResponseAttribute (LDAP_Groups cfg)).

Definition searchAttributes (requested : list string) : list string :=
  let attrs := requestedAttributes requested (LDAP_Attributes cfg) in
  let subject := Profile_SubjectAttribute (LDAP_DirectoryProfile cfg) in
  let attrs := if negb (subject =? "")%string && negb (stringSliceContains attrs subject)
               then attrs ++ [subject] else attrs in
  let member := Group_MemberAttribute (LDAP_Groups cfg) in
  if negb (groups_requested requested) then attrs
  else if (member =? "")%string then attrs
  else if stringSliceContains attrs member then attrs
  else attrs ++ [member].

(** The two names in order, without the empty and the repeated one. *)
Definition groupSearchAttributes : list string :=
  let id := Group_IDAttribute (LDAP_Groups cfg) in
  let display := Group_DisplayAttribute (LDAP_Groups cfg) in
  (if (id =? "")%string then [] else [id]) ++
  (if (display =? "")%string then []
   else if negb (id =? "")%string && (id =? display)%string then [] else [display]).

Definition binarySubjectAttribute (name : string) : bool :=
  (Profile_Name (LDAP_DirectoryProfile cfg) =? "active_directory")%string &&
  equal_fold name "objectGUID".

Fixpoint subject_value (name : string) (attrs : list EntryAttribute) : string :=
  match attrs with
  | [] => ""
  | attr :: attrs =>
      if negb (equal_fold (Attr_Name attr) name) then subject_value name attrs
      else
        match binarySubjectAttribute name, Attr_ByteValues attr, Attr_Values attr with
        | true, b :: _, _ => base64_raw_url b
        | _, _, v :: _ => v
        | _, b :: _, [] => base64_raw_url b
        | _, [], [] => subject_value name attrs
        end
  end.

Definition entrySubjectValue (entry : Entry) : string :=
  let name := Profile_SubjectAttribute (LDAP_DirectoryProfile cfg) in
  if (name =? "")%string then "" else subject_value name (Entry_Attributes entry).

Definition entryAttributes (entry : Entry) (requested : list string)
    : gmap string (list string) :=
  let names := requestedAttributes requested (LDAP_Attributes cfg) in
  let attrs := foldl (λ attrs name,
    match GetAttributeValues entry name with
    | [] => attrs
    | values => <[name := values]> attrs
    end) ∅ names in
  if groups_requested requested then
    match GetAttributeValues entry (Group_MemberAttribute (LDAP_Groups cfg)) with
    | [] => attrs
    | values => <[Group_ResponseAttribute (LDAP_Groups cfg) := values]> attrs
    end
  else attrs.

(** ** Group facts *)

Definition firstAttributeValue (entry : Entry) (name : string) : string :=
  if (name =? "")%string then ""
  else match GetAttributeValues entry name with v :: _ => v | [] => "" end.

Definition groupFactFromEntry (entry : Entry) (source : string) (depth : Z) : GroupFact :=
  let id := firstAttributeValue entry (Group_IDAttribute (LDAP_Groups cfg)) in
  let id := if (id =? "")%string then DN entry else id in
  let display := firstAttributeValue entry (Group_DisplayAttribute (LDAP_Groups cfg)) in
  let display := if (display =? "")%string then id else display in
  {| GroupFact_ID := id; GroupFact_DN := DN entry; GroupFact_Display := display;
     GroupFact_Source := source; GroupFact_Depth := depth |}.

Definition groupFactsFromEntries (entries : list Entry) (source : string) (depth : Z)
    : list GroupFact :=
  let limit := Group_MaxGroups (LDAP_Groups cfg) in
  let limit := if (limit <=? 0) || (Z.of_nat (length entries) <? limit)
               then length entries else Z.to_nat limit in
  (λ entry, groupFactFromEntry entry source depth) <$> take limit entries.

Definition memberAttributeGroupFacts (entry : Entry) : list GroupFact :=
  (λ dn, {| GroupFact_ID := dn; GroupFact_DN := dn; GroupFact_Display := dn;
            GroupFact_Source := Group_MemberAttribute (LDAP_Groups cfg); GroupFact_Depth := 1 |})
    <$> GetAttributeValues entry (Group_MemberAttribute (LDAP_Groups cfg)).
End attributes.

Definition singleSearchEntry (entries : list Entry) : result error Entry :=
  match entries with
  | [] => Err (Sentinel ErrUserNotFound)
  | [entry] => Ok entry
  | _ => Err (Sentinel ErrAmbiguousUser)
  end.

(** ** Timeouts *)

Definition durationFromMS (value fallback : Z) : Z :=
  if value <=? 0 then fallback else dur_of_ms value.

Definition cancelled (text : string) : error := Wrapped ErrDirectoryUnavailable text.

(** [ctxErr] is the text of [ctx.Err()], [remaining] what is left until the
    deadline of the context, if it has one. *)
Definition timeoutWithinContext (ctxErr : option string) (remaining : option Z)
    (value fallback : Z) : result error Z :=
  match ctxErr with
  | Some text => Err (cancelled text)
  | None =>
      let timeout := durationFromMS value fallback in
      match remaining with
      | Some r =>
          if r <=? 0 then Err (cancelled "context deadline exceeded")
          else Ok (Z.max Millisecond (Z.min r timeout))
      | None => Ok (Z.max Millisecond timeout)
      end
  end.

Definition ldapTimeLimitSeconds (timeout : Z) : Z :=
  if timeout <=? 0 then 1
  else
    let seconds := Z.quot timeout Second in
    let seconds := if Z.rem timeout Second =? 0 then seconds else seconds + 1 in
    if seconds <? 1 then 1 else seconds.

(** ** Texts *)

(** [strings.ReplaceAll(s, "{username}", by)] *)
Fixpoint replace_all (fuel : nat) (old by_ s : string) : string :=
  match fuel, s with
  | S fuel, String c rest =>
      if has_prefix s old then by_ +:+ replace_all fuel old by_ (drop_bytes (String.length old) s)
      else String c (replace_all fuel old by_ rest)
  | _, _ => s
  end.
Definition substitute_username (template value : string) : string :=
  replace_all (String.length template) "{username}" value template.
