(* ===== verification/Ldap.v ===== *)
(** * The LDAP client (internal/adapters/ldap/client.go)

    The client's operations as programs over what they do: calls on connections
    of the LDAP library, the pool of idle connections, the context of the
    request, files.  A connection is a handle; what the directory behind it
    answers is up to the interpretation of the effects. *)

From S2P Require Import Prelude GoStrings GoTime Effects Config Username Directory Url LdapData.
Local Open Scope Z_scope.

Definition conn : Type := nat.

(** The certificates a connection trusts: the system's, if they could be read,
    and those of a PEM file. *)
Record certPool := { Certs_System : bool; Certs_PEM : string }.

Definition VersionTLS12 : Z := 771.

Record tlsConfig := {
  MinVersion : Z;
  TLS_ServerName : string;
  InsecureSkipVerify : bool;
  RootCAs : option certPool;
}.

(** ** Effects *)

(** [StillPaging] and [Panic] have no answer: the paging loop has not ended
    within the page budget of the model; Go would panic. *)
Inductive effect : Type → Type :=
| ContextErr : effect (option string)
| UntilDeadline : effect (option Z)
| PoolGet : effect (option conn)
| PoolPut (co : conn) : effect bool
| DialURL (endpoint : string) (timeout : Z) (tls : option tlsConfig) : effect (result error conn)
| StartTLS (co : conn) (tls : tlsConfig) : effect (option error)
| SetTimeout (co : conn) (timeout : Z) : effect unit
| Bind (co : conn) (name password : string) : effect (option error)
| Search (co : conn) (request : SearchRequest) : effect (option SearchResult * option error)
| Close (co : conn) : effect unit
| ReadFile (path : string) : effect (result string string)
| SystemCertPool : effect bool
| AppendCertsFromPEM (pem : string) : effect bool
| StillPaging : effect Empty_set
| Panic : effect Empty_set.

Abbreviation io := (prog effect).

Definition still_paging {A} : io A := Vis StillPaging (λ x : Empty_set, match x with end).
Definition panic {A} : io A := Vis Panic (λ x : Empty_set, match x with end).

(** ** The client *)

(** [Client_Pool] is the capacity of the channel of idle connections. *)
Record Client := {
  Client_Config : LDAPConfig;
  Client_BindPassword : string;
  Client_Timeouts : TimeoutConfig;
  Client_Pool : option Z;
}.

Definition NewClient (cfg : LDAPConfig) (bindPassword : string) (timeouts : TimeoutConfig) : Client := {|
  Client_Config := cfg;
  Client_BindPassword := bindPassword;
  Client_Timeouts := timeouts;
  Client_Pool := if 0 <? Pool_MaxIdle (LDAP_Pool cfg) then Some (Pool_MaxIdle (LDAP_Pool cfg)) else None |}.

Section client.
Context `{UnicodeTables} `{LdapLibrary}.
Variable nfkc : string → string.
(** How many pages of one search the model follows. *)
Variable budget : nat.
Variable c : Client.

Abbreviation cfg := (Client_Config c).
Abbreviation normalizeError := (normalizeLDAPError (LDAP_DirectoryProfile (Client_Config c))).

Definition lookupMode : string :=
  if (LDAP_LookupMode cfg =? "")%string then "search_then_bind" else LDAP_LookupMode cfg.

Definition serviceSearchAvailable : bool :=
  negb (LDAP_BindDN cfg =? "")%string && negb (Client_BindPassword c =? "")%string &&
  negb (LDAP_BaseDN cfg =? "")%string && negb (LDAP_UserFilter cfg =? "")%string.

Definition requireServiceSearch : result error unit :=
  if serviceSearchAvailable then Ok tt
  else Err (OtherError "ldap direct_bind requires bind_dn, bind_password_ref, base_dn, and user_filter").

Definition userDNFromTemplate (username : string) : string :=
  substitute_username (LDAP_DNTemplate cfg) (EscapeDN username).

Definition endpointURLs : list string :=
  (if (LDAP_URL cfg =? "")%string then [] else [LDAP_URL cfg]) ++ LDAP_URLs cfg.

(** ** Timeouts *)

(** [timeoutWithinContext] with the context read. *)
Definition within_context (value fallback : Z) : io (result error Z) :=
  ctxErr <~ call ContextErr;;
  match ctxErr with
  | Some _ => Ret (timeoutWithinContext ctxErr None value fallback)
  | None =>
      remaining <~ call UntilDeadline;;
      Ret (timeoutWithinContext None remaining value fallback)
  end.

Definition setOperationTimeout (co : conn) (configuredMS fallback : Z) : io (result error Z) :=
  timeout <?~ within_context configuredMS fallback;;
  call (SetTimeout co timeout);;;
  Ret (Ok timeout).

(** ** Binds *)

Definition bind_as (co : conn) (name password : string) : io (result error unit) :=
  _ <?~ setOperationTimeout co (Timeout_LDAPBindMS (Client_Timeouts c)) (1500 * Millisecond);;
  err <~ call (Bind co name password);;
  match err with
  | Some err => Ret (Err (normalizeError err))
  | None => Ret (Ok tt)
  end.

Definition bindService (co : conn) : io (result error unit) :=
  bind_as co (LDAP_BindDN cfg) (Client_BindPassword c).

Definition bindUser (co : conn) (bindName password : string) : io (result error unit) :=
  if (password =? "")%string then Ret (Err (Sentinel ErrInvalidCredentials))
  else bind_as co bindName password.

(** ** Dialling *)

Definition tls_config (endpoint : string) (allowInsecure : bool) : io (result error tlsConfig) :=
  let serverName := LDAPTLS_ServerName (LDAP_TLS cfg) in
  let serverName :=
    if (serverName =? "")%string then
      match Parse endpoint with Some parsed => Hostname parsed | None => serverName end
    else serverName in
  let config roots := {| MinVersion := VersionTLS12; TLS_ServerName := serverName;
                         InsecureSkipVerify := allowInsecure; RootCAs := roots |} in
  let ref := LDAPTLS_CAFileRef (LDAP_TLS cfg) in
  if (ref =? "")%string then Ret (Ok (config None))
  else
    let caPath := trim_prefix ref "file:" in
    if (caPath =? ref)%string || (caPath =? "")%string then
      Ret (Err (OtherError "ldap.tls.ca_file_ref must use file:<path>"))
    else
      read <~ call (ReadFile caPath);;
      match read with
      | Err text => Ret (Err (Wrapped ErrDirectoryTLS ("read CA file: " +:+ text)))
      | Ok caPEM =>
          system <~ call SystemCertPool;;
          found <~ call (AppendCertsFromPEM caPEM);;
          if negb found then Ret (Err (Wrapped ErrDirectoryTLS "CA file has no certificates"))
          else Ret (Ok (config (Some {| Certs_System := system; Certs_PEM := caPEM |})))
      end.

Definition dialEndpoint (endpoint : string) (allowInsecure : bool) : io (result error conn) :=
  timeout <?~ within_context (Timeout_LDAPConnectMS (Client_Timeouts c)) (500 * Millisecond);;
  tls <?~ tls_config endpoint allowInsecure;;
  if LDAPTLS_StartTLS (LDAP_TLS cfg) then
    co <?~ call (DialURL endpoint timeout None);;
    err <~ call (StartTLS co tls);;
    match err with
    | Some err => call (Close co);;; Ret (Err (normalizeError err))
    | None => Ret (Ok co)
    end
  else call (DialURL endpoint timeout (Some tls)).

Fixpoint dial_loop (endpoints : list string) (allowInsecure : bool) (lastErr tlsErr : option error)
    : io (result error conn) :=
  match endpoints with
  | [] =>
      match tlsErr with
      | Some err => Ret (Err err)
      | None =>
          let err := default (OtherError "no LDAP endpoints configured") lastErr in
          Ret (Err (Wrapped ErrDirectoryUnavailable (error_text err)))
      end
  | endpoint :: endpoints =>
      dialled <~ dialEndpoint endpoint allowInsecure;;
      match dialled with
      | Ok co => Ret (Ok co)
      | Err err =>
          let tlsErr :=
            match tlsErr with
            | None => if errors_Is err ErrDirectoryTLS then Some err else None
            | Some _ => tlsErr
            end in
          dial_loop endpoints allowInsecure (Some err) tlsErr
      end
  end.

Definition dial (allowInsecure : bool) : io (result error conn) :=
  dial_loop endpointURLs allowInsecure None None.
(** ** The pool *)

Definition has_pool : bool := match Client_Pool c with Some _ => true | None => false end.

Definition validatePooledConn (co : conn) : io (result error unit) :=
  if negb serviceSearchAvailable then
    Ret (Err (OtherError "pooled connection requires service bind settings"))
  else bindService co.

Definition acquireConn (allowInsecure : bool) : io (result error conn) :=
  if allowInsecure || negb has_pool then dial allowInsecure
  else
    idle <~ call PoolGet;;
    match idle with
    | None => dial false
    | Some co =>
        valid <~ validatePooledConn co;;
        match valid with
        | Ok _ => Ret (Ok co)
        | Err _ => call (Close co);;; dial false
        end
    end.

Definition releaseConn (co : conn) (reusable : bool) : io unit :=
  if reusable && has_pool then
    put <~ call (PoolPut co);;
    if put : bool then Ret tt else call (Close co)
  else call (Close co).

Definition restoreServiceBindForReuse (co : conn) : io (result error unit) :=
  if negb has_pool || negb serviceSearchAvailable then
    Ret (Err (OtherError "connection is not reusable without service bind settings"))
  else bindService co.

(** ** Searching *)

Definition ControlTypePaging : string := "1.2.840.113556.1.4.319".

Definition GetControlType (control : Control) : string :=
  match control with ControlPaging _ _ => ControlTypePaging | ControlOther type => type end.

Definition withoutPagingControl (controls : list Control) : list Control :=
  List.filter (λ control, negb (GetControlType control =? ControlTypePaging)%string) controls.

Definition with_controls (request : SearchRequest) (controls : list Control) : SearchRequest := {|
  BaseDN := BaseDN request; Scope := Scope request; SizeLimit := SizeLimit request;
  TimeLimit := TimeLimit request; Filter := Filter request; Attributes := Attributes request;
  Controls := controls |}.

Definition with_time_limit (request : SearchRequest) (seconds : Z) : SearchRequest := {|
  BaseDN := BaseDN request; Scope := Scope request; SizeLimit := SizeLimit request;
  TimeLimit := seconds; Filter := Filter request; Attributes := Attributes request;
  Controls := Controls request |}.

Definition with_base (request : SearchRequest) (baseDN : string) : SearchRequest := {|
  BaseDN := baseDN; Scope := Scope request; SizeLimit := SizeLimit request;
  TimeLimit := TimeLimit request; Filter := Filter request; Attributes := Attributes request;
  Controls := Controls request |}.

Definition append_result (combined result : SearchResult) : SearchResult := {|
  Entries := Entries combined ++ Entries result;
  Referrals := Referrals combined ++ Referrals result;
  ResultControls := ResultControls combined ++ ResultControls result |}.

Definition empty_result : SearchResult :=
  {| Entries := []; Referrals := []; ResultControls := [] |}.

Definition truncate_entries (n : nat) (result : SearchResult) : SearchResult := {|
  Entries := take n (Entries result);
  Referrals := Referrals result;
  ResultControls := ResultControls result |}.

(** What a search leaves: its result and its error, either of which may be nil. *)
Definition found : Type := option SearchResult * option error.

(** The request of the next page: the paging control, the last of the controls,
    is shared with the request, which its new cookie changes. *)
Definition set_cookie (request : SearchRequest) (others : list Control) (pageSize : Z)
    (cookie : string) : SearchRequest :=
  with_controls request (others ++ [ControlPaging pageSize cookie]).

(** Returns the request as well, which the caller holds. *)
Fixpoint paging_loop (pages : nat) (co : conn) (request : SearchRequest) (others : list Control)
    (pageSize maxEntries : Z) (combined : SearchResult) : io (SearchRequest * found) :=
  match pages with
  | O => still_paging
  | S pages =>
      answer <~ call (Search co request);;
      let '(result, err) := answer in
      let combined :=
        match result with None => combined | Some r => append_result combined r end in
      if bool_decide (is_Some result) && (maxEntries <? Z.of_nat (length (Entries combined))) then
        Ret (request, (Some (truncate_entries (Z.to_nat maxEntries) combined),
          Some (Wrapped ErrDirectoryUnavailable "paged search exceeded max_entries")))
      else
        match err, result with
        | Some err, _ => Ret (request, (Some combined, Some err))
        | None, None =>
            Ret (request, (Some combined,
              Some (Wrapped ErrDirectoryUnavailable "ldap search returned no result")))
        | None, Some r =>
            match FindPaging (ResultControls r) with
            | Some (ControlPaging _ cookie) =>
                if (cookie =? "")%string then Ret (request, (Some combined, None))
                else paging_loop pages co (set_cookie request others pageSize cookie) others
                       pageSize maxEntries combined
            | _ => Ret (request, (Some combined, None))
            end
        end
  end.

Definition searchWithPagingLimit (co : conn) (request : SearchRequest) (pageSize maxEntries : Z)
    : io (SearchRequest * found) :=
  if maxEntries <=? 0 then
    Ret (request, (None, Some (Wrapped ErrDirectoryUnavailable
                                 "paged search max_entries must be positive")))
  else
    let others := withoutPagingControl (Controls request) in
    paging_loop budget co (set_cookie request others pageSize "") others pageSize maxEntries
      empty_result.

Definition searchOnce (co : conn) (request : SearchRequest) : io (SearchRequest * found) :=
  let paged := Profile_PagedSearch (LDAP_DirectoryProfile cfg) in
  if negb (PagedSearch_Enabled paged) then
    answer <~ call (Search co request);;
    Ret (request, answer)
  else
    limited <~ within_context (PagedSearch_TimeoutMS paged) (dur_of_ms (PagedSearch_TimeoutMS paged));;
    match limited with
    | Err err => Ret (request, (None, Some err))
    | Ok timeout =>
        let timeout := if timeout <? Millisecond then Millisecond else timeout in
        searchWithPagingLimit co (with_time_limit request (ldapTimeLimitSeconds timeout))
          (PagedSearch_PageSize paged mod 2 ^ 32) (PagedSearch_MaxEntries paged)
    end.
(** ** Referrals *)

Definition referralSchemeAllowed (scheme : string) : bool :=
  if LDAPTLS_StartTLS (LDAP_TLS cfg) then (scheme =? "ldap")%string
  else (scheme =? "ldaps")%string.

Definition referralEndpoint (parsed : URL) : string :=
  Scheme parsed +:+ "://" +:+ to_lower (Host parsed).

(** A URL with a host and a scheme the connection policy allows. *)
Definition usable_referral (raw : string) : option URL :=
  match Parse raw with
  | Some parsed =>
      if (Host parsed =? "")%string || negb (referralSchemeAllowed (Scheme parsed)) then None
      else Some parsed
  | None => None
  end.

Fixpoint allowed_loop (refEndpoint base : string) (allowedURLs : list string)
    : option (string * string) :=
  match allowedURLs with
  | [] => None
  | allowed :: allowedURLs =>
      match usable_referral allowed with
      | None => allowed_loop refEndpoint base allowedURLs
      | Some allowedParsed =>
          if (referralEndpoint allowedParsed =? refEndpoint)%string then Some (refEndpoint, base)
          else allowed_loop refEndpoint base allowedURLs
      end
  end.

(** The endpoint and the base DN of a referral the configuration lists. *)
Definition allowedReferral (raw : string) : option (string * string) :=
  match usable_referral raw with
  | None => None
  | Some parsed =>
      let base := trim_prefix (EscapedPath parsed) "/" in
      let base :=
        if negb (base =? "")%string then default base (PathUnescape base) else base in
      allowed_loop (referralEndpoint parsed) base (Referral_AllowedURLs (LDAP_Referrals cfg))
  end.

(** [cloneSearchRequest] copies the attributes and controls; values here have no
    aliases. *)
Definition cloneSearchRequest (request : SearchRequest) : SearchRequest := request.

(** The function literal of [followReferrals]: the connection is closed when it
    returns. *)
Definition search_referral (co : conn) (original : SearchRequest) (baseDN : string) : io found :=
  answer <~ (bound <~ bindService co;;
             match bound with
             | Err err => Ret (None, Some err)
             | Ok _ =>
                 let request := cloneSearchRequest original in
                 let request := if negb (baseDN =? "")%string then with_base request baseDN
                                else request in
                 searched <~ searchOnce co request;;
                 Ret searched.2
             end);;
  call (Close co);;;
  Ret answer.

Fixpoint followReferrals (original : SearchRequest) (referrals : list string)
    (combined : SearchResult) : io (result error SearchResult) :=
  match referrals with
  | [] => Ret (Ok combined)
  | referral :: referrals =>
      match allowedReferral referral with
      | None => Ret (Err (Sentinel ErrDirectoryReferral))
      | Some (endpoint, baseDN) =>
          co <?~ dialEndpoint endpoint false;;
          answer <~ search_referral co original baseDN;;
          let '(result, err) := answer in
          let combined :=
            match result with None => combined | Some r => append_result combined r end in
          match err with
          | Some err => Ret (Err err)
          | None =>
              if negb (empty_list (Referrals combined))
              then Ret (Err (Sentinel ErrDirectoryReferral))
              else followReferrals original referrals combined
          end
      end
  end.

Definition search (co : conn) (request : SearchRequest) : io found :=
  searched <~ searchOnce co request;;
  let '(request, (result, err)) := searched in
  match err, result with
  | Some _, _ | None, None => Ret (result, err)
  | None, Some r =>
      if empty_list (Referrals r) then Ret (result, None)
      else if negb (Referral_Mode (LDAP_Referrals cfg) =? "allowlist")%string ||
              negb (Referral_AllowServiceBindReuse (LDAP_Referrals cfg))
      then Ret (None, Some (Sentinel ErrDirectoryReferral))
      else
        followed <~ followReferrals request (Referrals r) empty_result;;
        match followed with
        | Err err => Ret (None, Some err)
        | Ok followed =>
            Ret (Some {| Entries := Entries r ++ Entries followed;
                         Referrals := Referrals r ++ Referrals followed;
                         ResultControls := ResultControls r |}, None)
        end
  end.

(** [result.Entries] of a search that ended without an error. *)
Definition search_entries (answer : found) : io (result error (list Entry)) :=
  match answer with
  | (_, Some err) => Ret (Err err)
  | (Some result, None) => Ret (Ok (Entries result))
  | (None, None) => panic
  end.

(** ** Groups *)

Definition searchGroupEntries (co : conn) (filter : string) : io (result error (list Entry)) :=
  let groups := LDAP_Groups cfg in
  let timeoutMS := if Group_TimeoutMS groups <=? 0
                   then Timeout_LDAPSearchMS (Client_Timeouts c) else Group_TimeoutMS groups in
  timeout <?~ setOperationTimeout co timeoutMS Second;;
  let baseDN := if (Group_SearchBaseDN groups =? "")%string then LDAP_BaseDN cfg
                else Group_SearchBaseDN groups in
  answer <~ search co {| BaseDN := baseDN; Scope := ScopeWholeSubtree;
                         SizeLimit := Group_MaxGroups groups;
                         TimeLimit := ldapTimeLimitSeconds timeout; Filter := filter;
                         Attributes := groupSearchAttributes cfg; Controls := [] |};;
  entries <?~ search_entries answer;;
  if Group_MaxGroups groups <? Z.of_nat (length entries) then
    if Group_MaxGroups groups <? 0 then panic
    else Ret (Ok (take (Z.to_nat (Group_MaxGroups groups)) entries))
  else Ret (Ok entries).

Definition adMatchingRuleGroupFacts (co : conn) (userDN : string) : io (list GroupFact) :=
  let filter := "(" +:+ Group_SearchMemberAttribute (LDAP_Groups cfg) +:+
                ":1.2.840.113556.1.4.1941:=" +:+ EscapeFilter userDN +:+ ")" in
  entries <~ searchGroupEntries co filter;;
  match entries with
  | Err _ => Ret []
  | Ok entries => Ret (groupFactsFromEntries cfg entries "ad_matching_rule" 1)
  end.

(** The state of the breadth-first walk: the DNs seen, the facts so far, the DNs
    of the next level. *)
Record bfs := { seen : gset string; facts : list GroupFact; next : list string }.

Definition facts_full (b : bfs) : bool :=
  Group_MaxGroups (LDAP_Groups cfg) <=? Z.of_nat (length (facts b)).

Fixpoint bfs_entries (depth : Z) (entries : list Entry) (b : bfs) : bfs :=
  match entries with
  | [] => b
  | entry :: entries =>
      if bool_decide (DN entry ∈ seen b) then bfs_entries depth entries b
      else
        let b := {| seen := {[ DN entry ]} ∪ seen b;
                    facts := facts b ++ [groupFactFromEntry cfg entry "bfs_member_search" depth];
                    next := next b |} in
        if facts_full b then b
        else bfs_entries depth entries
               {| seen := seen b; facts := facts b; next := next b ++ [DN entry] |}
  end.

(** One level; an error ends the walk with the facts so far. *)
Fixpoint bfs_frontier (co : conn) (depth : Z) (frontier : list string) (b : bfs)
    : io (bool * bfs) :=
  match frontier with
  | [] => Ret (true, b)
  | memberDN :: frontier =>
      let filter := "(" +:+ Group_SearchMemberAttribute (LDAP_Groups cfg) +:+ "=" +:+
                    EscapeFilter memberDN +:+ ")" in
      entries <~ searchGroupEntries co filter;;
      match entries with
      | Err _ => Ret (false, b)
      | Ok entries =>
          let b := bfs_entries depth entries b in
          if facts_full b then Ret (true, b) else bfs_frontier co depth frontier b
      end
  end.

(** The levels left, which [depth] counts up to the configured maximum. *)
Fixpoint bfs_levels (levels : nat) (co : conn) (depth : Z) (frontier : list string) (b : bfs)
    : io (list GroupFact) :=
  match levels with
  | O => Ret (facts b)
  | S levels =>
      if empty_list frontier || facts_full b then Ret (facts b)
      else
        level <~ bfs_frontier co depth frontier {| seen := seen b; facts := facts b; next := [] |};;
        let '(go_on, b) := level in
        if go_on : bool then bfs_levels levels co (depth + 1) (next b) b else Ret (facts b)
  end.

Definition bfsGroupFacts (co : conn) (userDN : string) : io (list GroupFact) :=
  bfs_levels (Z.to_nat (Group_MaxDepth (LDAP_Groups cfg))) co 1 [userDN]
    {| seen := ∅; facts := []; next := [] |}.

Definition groupFacts (co : conn) (entry : Entry) (requested : list string) : io (list GroupFact) :=
  if negb (groups_requested cfg requested) then Ret []
  else
    let strategy := Profile_GroupStrategy (LDAP_DirectoryProfile cfg) in
    if (strategy =? "ad_matching_rule")%string then adMatchingRuleGroupFacts co (DN entry)
    else if (strategy =? "bfs_member_search")%string then bfsGroupFacts co (DN entry)
    else Ret (memberAttributeGroupFacts cfg entry).
(** ** Resolving users *)

Record resolvedUser := {
  dn : string;
  subjectValue : string;
  attributes : gmap string (list string);
  user_groupFacts : list GroupFact;
}.

Definition subjectID (u : resolvedUser) : string :=
  if negb (subjectValue u =? "")%string then subjectValue u else dn u.

(** The request [resolveUserWithAttributes] searches with. *)
Definition user_search (username : string) (requested : list string) (timeout : Z) : SearchRequest := {|
  BaseDN := LDAP_BaseDN cfg; Scope := ScopeWholeSubtree; SizeLimit := 2;
  TimeLimit := ldapTimeLimitSeconds timeout;
  Filter := substitute_username (LDAP_UserFilter cfg) (EscapeFilter username);
  Attributes := searchAttributes cfg requested; Controls := [] |}.

Definition resolveUserWithAttributes (co : conn) (username : string) (requested : list string)
    : io (result error resolvedUser) :=
  timeout <?~ setOperationTimeout co (Timeout_LDAPSearchMS (Client_Timeouts c)) Second;;
  answer <~ search co (user_search username requested timeout);;
  searched <~ search_entries answer;;
  match searched with
  | Err err => Ret (Err (normalizeError err))
  | Ok entries =>
      match singleSearchEntry entries with
      | Err err => Ret (Err err)
      | Ok entry =>
          facts <~ groupFacts co entry requested;;
          Ret (Ok {| dn := DN entry; subjectValue := entrySubjectValue cfg entry;
                     attributes := entryAttributes cfg entry requested;
                     user_groupFacts := facts |})
      end
  end.

Definition resolveUser (co : conn) (username : string) : io (result error string) :=
  user <?~ resolveUserWithAttributes co username ["dn"];;
  Ret (Ok (subjectID user)).

Definition resolveDirectBindUser (co : conn) (username : string) (requested : list string)
    : io (result error resolvedUser) :=
  match requireServiceSearch with
  | Err err => Ret (Err err)
  | Ok _ =>
      _ <?~ bindService co;;
      resolveUserWithAttributes co username requested
  end.

Definition resolveAttributesByDN (co : conn) (userDN : string) (requested : list string)
    : io (result error (gmap string (list string))) :=
  timeout <?~ setOperationTimeout co (Timeout_LDAPSearchMS (Client_Timeouts c)) Second;;
  answer <~ search co {| BaseDN := userDN; Scope := ScopeBaseObject; SizeLimit := 1;
                         TimeLimit := ldapTimeLimitSeconds timeout;
                         Filter := "(objectClass=*)";
                         Attributes := searchAttributes cfg requested; Controls := [] |};;
  searched <~ search_entries answer;;
  match searched with
  | Err err => Ret (Err (normalizeError err))
  | Ok [] => Ret (Err (Sentinel ErrUserNotFound))
  | Ok (entry :: _) => Ret (Ok (entryAttributes cfg entry requested))
  end.

Definition resolveAttributesAfterSuccessfulBind (co : conn) (userDN username : string)
    (requested : list string) : io (result error (gmap string (list string))) :=
  if empty_list (searchAttributes cfg requested) || negb serviceSearchAvailable then Ret (Ok ∅)
  else
    _ <?~ bindService co;;
    by_dn <~ resolveAttributesByDN co userDN requested;;
    match by_dn with
    | Ok attributes => Ret (Ok attributes)
    | Err err =>
        if negb (bool_decide (err = Sentinel ErrUserNotFound)) then Ret (Err err)
        else
          by_filter <~ resolveUserWithAttributes co username requested;;
          match by_filter with
          | Ok user => Ret (Ok (attributes user))
          | Err err =>
              if bool_decide (err = Sentinel ErrUserNotFound) then Ret (Ok ∅) else Ret (Err err)
          end
    end.

(** ** Verifying a password *)

(** [reusable = c.restoreServiceBindForReuse(ctx, conn) == nil] *)
Definition reusable_after (co : conn) : io bool :=
  restored <~ restoreServiceBindForReuse co;; Ret (is_ok restored).

(** An error of the user's bind, or of the user's resolution. *)
Definition verdict_or_error (verdict : error → option VerifyPasswordResult) (err : error)
    : result error VerifyPasswordResult :=
  match verdict err with Some result => Ok result | None => Err err end.

Definition verify_search_then_bind (co : conn) (username : string) (request : VerifyPasswordRequest)
    : io (result error VerifyPasswordResult * bool) :=
  bound <~ bindService co;;
  match bound with
  | Err err => Ret (Err err, false)
  | Ok _ =>
      resolved <~ resolveUserWithAttributes co username (Verify_AttributeNames request);;
      match resolved with
      | Err err => Ret (verdict_or_error userResolutionFailureResult err, false)
      | Ok user =>
          authenticated <~ bindUser co (dn user) (Verify_Password request);;
          match authenticated with
          | Err err => Ret (verdict_or_error credentialVerdictFromBindError err, false)
          | Ok _ =>
              reusable <~ reusable_after co;;
              Ret (Ok (SuccessfulVerification
                         {| DirectoryID := subjectID user; Subject_Username := username |}
                         (attributes user) [user_groupFacts user]), reusable)
          end
      end
  end.

Definition verify_dn_template (co : conn) (username : string) (request : VerifyPasswordRequest)
    : io (result error VerifyPasswordResult * bool) :=
  let userDN := userDNFromTemplate username in
  authenticated <~ bindUser co userDN (Verify_Password request);;
  match authenticated with
  | Err err => Ret (verdict_or_error credentialVerdictFromBindError err, false)
  | Ok _ =>
      resolved <~ resolveAttributesAfterSuccessfulBind co userDN username
                    (Verify_AttributeNames request);;
      match resolved with
      | Err err => Ret (Err err, false)
      | Ok attributes =>
          reusable <~ reusable_after co;;
          Ret (Ok (SuccessfulVerification
                     {| DirectoryID := userDN; Subject_Username := username |} attributes []),
               reusable)
      end
  end.

Definition verify_direct_bind (co : conn) (username : string) (request : VerifyPasswordRequest)
    : io (result error VerifyPasswordResult * bool) :=
  authenticated <~ bindUser co username (Verify_Password request);;
  match authenticated with
  | Err err => Ret (verdict_or_error credentialVerdictFromBindError err, false)
  | Ok _ =>
      resolved <~ resolveDirectBindUser co username (Verify_AttributeNames request);;
      match resolved with
      | Err err => Ret (verdict_or_error userResolutionFailureResult err, false)
      | Ok user =>
          reusable <~ reusable_after co;;
          Ret (Ok (SuccessfulVerification
                     {| DirectoryID := subjectID user; Subject_Username := username |}
                     (attributes user) [user_groupFacts user]), reusable)
      end
  end.

Definition unsupported_mode : error :=
  OtherError ("unsupported ldap lookup_mode " +:+ go_quote (LDAP_LookupMode cfg)).

Definition verify_by_mode (co : conn) (username : string) (request : VerifyPasswordRequest)
    : io (result error VerifyPasswordResult * bool) :=
  if (lookupMode =? "search_then_bind")%string then verify_search_then_bind co username request
  else if (lookupMode =? "dn_template")%string then verify_dn_template co username request
  else if (lookupMode =? "direct_bind")%string then verify_direct_bind co username request
  else Ret (Err unsupported_mode, false).

(** The deferred [releaseConn] runs last, with the flag as the body left it. *)
Definition VerifyPassword (request : VerifyPasswordRequest) : io (result error VerifyPasswordResult) :=
  if (Verify_Password request =? "")%string
  then Ret (Ok (FailedVerification ReasonInvalidCredentials))
  else
    match Preprocess nfkc (Verify_Username request) (LDAP_Username cfg) with
    | Err _ => Ret (Ok (FailedVerification ReasonInvalidCredentials))
    | Ok processed =>
        co <?~ acquireConn false;;
        answer <~ verify_by_mode co (Value processed) request;;
        releaseConn co answer.2;;;
        Ret answer.1
    end.
(** ** Testing the connection *)

Definition zero_test : TestConnectionResult := {|
  TLSVerified := false; ServiceBound := false; UserResolved := false; PasswordOK := false;
  TestConnection_Subject := no_subject |}.

Definition with_service_bound (r : TestConnectionResult) : TestConnectionResult := {|
  TLSVerified := TLSVerified r; ServiceBound := true; UserResolved := UserResolved r;
  PasswordOK := PasswordOK r; TestConnection_Subject := TestConnection_Subject r |}.

Definition with_user (r : TestConnectionResult) (subject : Subject) : TestConnectionResult := {|
  TLSVerified := TLSVerified r; ServiceBound := ServiceBound r; UserResolved := true;
  PasswordOK := PasswordOK r; TestConnection_Subject := subject |}.

Definition with_password_ok (r : TestConnectionResult) : TestConnectionResult := {|
  TLSVerified := TLSVerified r; ServiceBound := ServiceBound r; UserResolved := UserResolved r;
  PasswordOK := true; TestConnection_Subject := TestConnection_Subject r |}.

(** The result so far, the error and whether the connection may be reused. *)
Definition tested : Type := TestConnectionResult * option error * bool.

(** [if request.TestPassword { ... }] of the three modes. *)
Definition test_password (co : conn) (bindName : string) (request : TestConnectionRequest)
    (result : TestConnectionResult) : io tested :=
  if negb (TestConnection_TestPassword request) then Ret (result, None, false)
  else
    authenticated <~ bindUser co bindName (TestConnection_Password request);;
    match authenticated with
    | Err err => Ret (result, Some err, false)
    | Ok _ =>
        reusable <~ reusable_after co;;
        Ret (with_password_ok result, None, reusable)
    end.

Definition test_search_then_bind (co : conn) (username : string) (request : TestConnectionRequest)
    (result : TestConnectionResult) : io tested :=
  bound <~ bindService co;;
  match bound with
  | Err err => Ret (zero_test, Some err, false)
  | Ok _ =>
      let result := with_service_bound result in
      resolved <~ resolveUser co username;;
      match resolved with
      | Err err => Ret (result, Some err, false)
      | Ok userDN =>
          test_password co userDN request
            (with_user result {| DirectoryID := userDN; Subject_Username := username |})
      end
  end.

Definition test_dn_template (co : conn) (username : string) (request : TestConnectionRequest)
    (result : TestConnectionResult) : io tested :=
  let userDN := userDNFromTemplate username in
  test_password co userDN request
    (with_user result {| DirectoryID := userDN; Subject_Username := username |}).

Definition test_direct_bind (co : conn) (username : string) (request : TestConnectionRequest)
    (result : TestConnectionResult) : io tested :=
  match requireServiceSearch with
  | Err err => Ret (result, Some err, false)
  | Ok _ =>
      bound <~ bindService co;;
      match bound with
      | Err err => Ret (zero_test, Some err, false)
      | Ok _ =>
          let result := with_service_bound result in
          resolved <~ resolveUserWithAttributes co username [];;
          match resolved with
          | Err err => Ret (result, Some err, false)
          | Ok user =>
              test_password co username request
                (with_user result
                   {| DirectoryID := subjectID user; Subject_Username := username |})
          end
      end
  end.

(** Lines 56-141, with the connection held. *)
Definition test_with (co : conn) (request : TestConnectionRequest) : io tested :=
  let result := {| TLSVerified := negb (TestConnection_AllowInsecure request);
                   ServiceBound := false; UserResolved := false; PasswordOK := false;
                   TestConnection_Subject := no_subject |} in
  if (TestConnection_Username request =? "")%string then
    if serviceSearchAvailable then
      bound <~ bindService co;;
      match bound with
      | Err err => Ret (zero_test, Some err, false)
      | Ok _ => Ret (with_service_bound result, None, true)
      end
    else Ret (result, None, false)
  else
    match Preprocess nfkc (TestConnection_Username request) (LDAP_Username cfg) with
    | Err err => Ret (result, Some (OtherError (username_error_text err)), false)
    | Ok processed =>
        let username := Value processed in
        if (lookupMode =? "search_then_bind")%string then
          test_search_then_bind co username request result
        else if (lookupMode =? "dn_template")%string then
          test_dn_template co username request result
        else if (lookupMode =? "direct_bind")%string then
          test_direct_bind co username request result
        else Ret (result, Some unsupported_mode, false)
    end.

Definition TestConnection (request : TestConnectionRequest)
    : io (TestConnectionResult * option error) :=
  acquired <~ acquireConn (TestConnection_AllowInsecure request);;
  match acquired with
  | Err err => Ret (zero_test, Some err)
  | Ok co =>
      answer <~ test_with co request;;
      releaseConn co answer.2;;;
      Ret answer.1
  end.
End client.
