(* ===== verification/LdapSpec.v ===== *)
(** * What the LDAP client may do

    A specification of the client's effects, for its weakest preconditions.  The
    ghost state holds the connections the program has in its hands, with what
    each is bound as, the binds the directory accepted and the searches it
    answered.  The specification says of each effect when it is allowed, which
    is the policy the client must follow, and what may come of it, which is the
    documented behaviour of the LDAP library. *)

From S2P Require Import Prelude GoStrings GoTime Effects Config Directory Url LdapData Ldap.
Local Open Scope Z_scope.

(** ** Ghost state *)

(** [bound] is the name and password of the last accepted bind, until a bind
    fails. *)
Record link := {
  server : string;
  encrypted : bool;
  verified : bool;
  bound : option (string * string);
}.

Record ghost := {
  conns : gmap conn link;
  accepted : list (string * string);
  answered : list (SearchRequest * list Entry);
}.

Definition idle : ghost := {| conns := ∅; accepted := []; answered := [] |}.

Definition open (co : conn) (l : link) (s : ghost) : ghost :=
  {| conns := <[co := l]> (conns s); accepted := accepted s; answered := answered s |}.
Definition close (co : conn) (s : ghost) : ghost :=
  {| conns := delete co (conns s); accepted := accepted s; answered := answered s |}.
Definition grow (binds : list (string * string)) (searches : list (SearchRequest * list Entry))
    (s : ghost) : ghost :=
  {| conns := conns s; accepted := accepted s ++ binds; answered := answered s ++ searches |}.

Definition with_bound (b : option (string * string)) (l : link) : link :=
  {| server := server l; encrypted := encrypted l; verified := verified l; bound := b |}.
Definition with_tls (tls : tlsConfig) (l : link) : link :=
  {| server := server l; encrypted := true; verified := negb (InsecureSkipVerify tls);
     bound := bound l |}.

(** [ldap.DialURL]: the scheme [ldaps] speaks TLS from the start, with the
    configuration given. *)
Definition dialled (endpoint : string) (u : URL) (tls : option tlsConfig) : link := {|
  server := endpoint;
  encrypted := (Scheme u =? "ldaps")%string;
  verified := (Scheme u =? "ldaps")%string &&
              match tls with Some tls => negb (InsecureSkipVerify tls) | None => false end;
  bound := None |}.

Lemma close_open co l s : conns s !! co = None → close co (open co l s) = s.
Proof.
  intros Hco. destruct s as [m a r]. unfold close, open. simpl in *. f_equal.
  by apply delete_insert_id.
Qed.

Lemma open_open co l1 l2 s : open co l2 (open co l1 s) = open co l2 s.
Proof. unfold open. simpl. by rewrite insert_insert_eq. Qed.

Lemma grow_nil s : grow [] [] s = s.
Proof. destruct s. unfold grow. simpl. by rewrite !app_nil_r. Qed.

Lemma grow_grow b1 n1 b2 n2 s : grow b2 n2 (grow b1 n1 s) = grow (b1 ++ b2) (n1 ++ n2) s.
Proof. unfold grow. simpl. by rewrite !(assoc_L (++)). Qed.

Lemma grow_open co l b n s : grow b n (open co l s) = open co l (grow b n s).
Proof. done. Qed.

Lemma close_grow co b n s : close co (grow b n s) = grow b n (close co s).
Proof. done. Qed.

(** ** The policy *)

Section spec.
Context `{UnicodeTables} `{LdapLibrary}.
Variable c : Client.
(** The password the request submitted. *)
Variable password : string.

Abbreviation cfg := (Client_Config c).

Definition service : string * string := (LDAP_BindDN cfg, Client_BindPassword c).

(** A referral endpoint the configuration lists. *)
Definition listed_referral (endpoint : string) : Prop :=
  ∃ allowed u, allowed ∈ Referral_AllowedURLs (LDAP_Referrals cfg) ∧ Parse allowed = Some u ∧
               endpoint = referralEndpoint u.

Definition secure (l : link) : Prop := encrypted l = true ∧ verified l = true.

(** Credentials travel over verified TLS only: the service's to any server the
    configuration names, the user's to the configured endpoints only. *)
Definition may_bind (l : link) (name pw : string) : Prop :=
  secure l ∧ ((name, pw) = service ∨
              pw = password ∧ pw ≠ "" ∧ server l ∈ endpointURLs c).

(** An idle connection is one of the service's, ready to search. *)
Definition poolable (l : link) : Prop :=
  secure l ∧ server l ∈ endpointURLs c ∧ bound l = Some service.

Definition ldap_spec (R : Type) (e : effect R) : (R → ghost → Prop) → ghost → Prop :=
  match e in effect R return (R → ghost → Prop) → ghost → Prop with
  | ContextErr | UntilDeadline | ReadFile _ | SystemCertPool | AppendCertsFromPEM _ =>
      λ Q s, ∀ r, Q r s
  | PoolGet => λ Q s,
      Q None s ∧ ∀ co l, conns s !! co = None → poolable l → Q (Some co) (open co l s)
  | PoolPut co => λ Q s,
      ∃ l, conns s !! co = Some l ∧ poolable l ∧ Q true (close co s) ∧ Q false s
  | DialURL endpoint timeout tls => λ Q s,
      (endpoint ∈ endpointURLs c ∨ listed_referral endpoint) ∧ Millisecond <= timeout ∧
      (∀ err, Q (Err err) s) ∧
      ∀ co u, conns s !! co = None → Parse endpoint = Some u →
              Q (Ok co) (open co (dialled endpoint u tls) s)
  | StartTLS co tls => λ Q s,
      ∃ l, conns s !! co = Some l ∧ (∀ err, Q (Some err) s) ∧ Q None (open co (with_tls tls l) s)
  | SetTimeout co timeout => λ Q s, is_Some (conns s !! co) ∧ Millisecond <= timeout ∧ Q tt s
  | Bind co name pw => λ Q s,
      ∃ l, conns s !! co = Some l ∧ may_bind l name pw ∧
           (∀ err, Q (Some err) (open co (with_bound None l) s)) ∧
           Q None (grow [(name, pw)] [] (open co (with_bound (Some (name, pw)) l) s))
  | Search co request => λ Q s,
      ∃ l, conns s !! co = Some l ∧ bound l = Some service ∧
           ∀ r err, is_Some r ∨ is_Some err →
                    Q (r, err) (grow [] [(request, default [] (Entries <$> r))] s)
  | Close co => λ Q s, is_Some (conns s !! co) ∧ Q tt (close co s)
  | StillPaging => λ _ _, True
  | Panic => λ _ _, False
  end.

Lemma ldap_spec_mono R (e : effect R) (P Q : R → ghost → Prop) s :
  (∀ r s', P r s' → Q r s') → ldap_spec R e P s → ldap_spec R e Q s.
Proof. intros HPQ. destruct e; simpl; naive_solver. Qed.

(** [ensures p s Q]: from [s], [p] follows the policy and ends in [Q]. *)
Definition ensures {A} (p : io A) (s : ghost) (Q : A → ghost → Prop) : Prop := wp ldap_spec p Q s.

Lemma ensures_mono {A} (p : io A) s (P Q : A → ghost → Prop) :
  ensures p s P → (∀ a s', P a s' → Q a s') → ensures p s Q.
Proof. intros Hp HPQ. by eapply (wp_mono ldap_spec ldap_spec_mono p P). Qed.

Lemma ensures_bind {A B} (p : io A) (f : A → io B) s Q :
  ensures p s (λ a s', ensures (f a) s' Q) → ensures (bind p f) s Q.
Proof. apply (wp_bind ldap_spec ldap_spec_mono). Qed.

Lemma ensures_bind_ok {A B} (p : io (result error A)) (f : A → io (result error B)) s Q :
  ensures p s (λ r s', match r with Ok a => ensures (f a) s' Q | Err err => Q (Err err) s' end) →
  ensures (bind_ok p f) s Q.
Proof. apply (wp_bind_ok ldap_spec ldap_spec_mono). Qed.

Lemma ensures_ret {A} (a : A) s (Q : A → ghost → Prop) : Q a s → ensures (Ret a) s Q.
Proof. done. Qed.

Lemma ensures_call {R A} (e : effect R) (f : R → io A) s (Q : A → ghost → Prop) :
  ldap_spec R e (λ r s', ensures (f r) s' Q) s → ensures (bind (call e) f) s Q.
Proof. done. Qed.
End spec.
#[global] Arguments ensures : simpl never.
#[export] Hint Resolve close_open : ww.
