(* ===== verification/LdapProofs.v ===== *)
(** * The LDAP client follows its policy

    What each operation of the client ensures, from the timeouts up to
    [VerifyPassword] and [TestConnection]. *)

From S2P Require Import Prelude GoStrings GoTime Effects Config Username Directory Url Validate ValidateProofs LdapData Ldap LdapSpec.
Local Open Scope Z_scope.

(** ** Timeouts *)

Lemma timeoutWithinContext_ok ctxErr remaining value fallback t :
  timeoutWithinContext ctxErr remaining value fallback = Ok t → Millisecond <= t.
Proof. unfold timeoutWithinContext. intros. repeat case_match; simplify_eq; lia. Qed.

(** ** Endpoints *)

(** The URL has the scheme the TLS mode asks for, if it parses at all. *)
Definition reached_over_tls (startTLS : bool) (endpoint : string) : Prop :=
  ∀ u, Parse endpoint = Some u → Scheme u = if startTLS then "ldap" else "ldaps".

Lemma tls_url_reached startTLS raw : tls_url startTLS raw → reached_over_tls startTLS raw.
Proof. intros (u & Hu & _ & Hs) u' Hu'. by simplify_eq. Qed.

Lemma cut_or_all_app c a s :
  lacks c a = true → (cut_or_all c (a +:+ s)).1 = a +:+ (cut_or_all c s).1.
Proof.
  intros Ha. unfold cut_or_all. induction a as [|d a IH]; [done|].
  rewrite append_cons. cbn in *. apply andb_prop in Ha as [Hd Ha].
  rewrite (proj1 (negb_true_iff _) Hd). specialize (IH Ha).
  destruct (cut_byte c (a +:+ s)) as [[x y]|]; cbn in *; by rewrite IH.
Qed.

Lemma setPath_scheme scheme host query p u : setPath scheme host query p = Some u → Scheme u = scheme.
Proof. unfold setPath. destruct (unescape encodePath p); [|done]. by intros [= <-]. Qed.

Lemma parse_scheme (scheme rest : string) u :
  scheme = "ldap" ∨ scheme = "ldaps" →
  parse_no_fragment (scheme +:+ ":" +:+ rest) = Some u → Scheme u = scheme.
Proof.
  intros Hs. unfold parse_no_fragment. case_match; [|done].
  replace (scheme +:+ ":" +:+ rest =? "*")%string with false by (destruct Hs; by subst).
  replace (getScheme (scheme +:+ ":" +:+ rest)) with (Some (scheme, rest)) by (destruct Hs; by subst).
  cbn [mbind option_bind].
  replace (lower_ascii scheme) with scheme by (destruct Hs; by subst).
  destruct (cut_or_all "?" rest) as [rest' query].
  intros Hu. repeat case_match; simplify_option_eq; try done; eauto using setPath_scheme.
Qed.

Lemma Parse_scheme (scheme rest : string) u :
  scheme = "ldap" ∨ scheme = "ldaps" →
  Parse (scheme +:+ ":" +:+ rest) = Some u → Scheme u = scheme.
Proof.
  intros Hs. unfold Parse.
  destruct (cut_or_all "#" (scheme +:+ ":" +:+ rest)) as [before frag] eqn:Hcut.
  assert (before = scheme +:+ ":" +:+ (cut_or_all "#" rest).1) as ->.
  { change before with (before, frag).1. rewrite <-Hcut.
    destruct Hs; subst; by rewrite <-!(append_assoc _ ":"), cut_or_all_app. }
  destruct (parse_no_fragment _) as [u'|] eqn:Hp; [|done]. cbn. intros Hu.
  assert (u' = u) as -> by (repeat case_match; simplify_option_eq; done).
  by apply (parse_scheme scheme _ u Hs Hp).
Qed.

Section client.
Context `{UnicodeTables} `{LdapLibrary}.
Variable nfkc : string → string.
Variable budget : nat.
Variable c : Client.
Variable password : string.

Abbreviation cfg := (Client_Config c).
Abbreviation ensures := (LdapSpec.ensures c password).

Lemma usable_referral_ok raw u :
  usable_referral c raw = Some u →
  Parse raw = Some u ∧ Scheme u = if LDAPTLS_StartTLS (LDAP_TLS cfg) then "ldap" else "ldaps".
Proof.
  unfold usable_referral, referralSchemeAllowed. intros Hu. repeat case_match; simplify_eq.
  all: bool_to_prop; done.
Qed.

Lemma allowed_loop_ok refEndpoint base urls endpoint baseDN :
  allowed_loop c refEndpoint base urls = Some (endpoint, baseDN) →
  ∃ allowed u, allowed ∈ urls ∧ usable_referral c allowed = Some u ∧
               endpoint = referralEndpoint u ∧ endpoint = refEndpoint ∧ baseDN = base.
Proof.
  induction urls as [|allowed urls IH]; simpl; [done|].
  intros Hloop. repeat case_match; simplify_eq; bool_to_prop; subst.
  1: { eexists allowed, _. split_and!; try done. by left. }
  all: destruct IH as (a & u' & Ha & ?); [done|]; exists a, u'; split; [by right|done].
Qed.

(** A referral is followed to a listed endpoint only, and over TLS. *)
Lemma allowedReferral_ok raw endpoint baseDN :
  allowedReferral c raw = Some (endpoint, baseDN) →
  listed_referral c endpoint ∧ reached_over_tls (LDAPTLS_StartTLS (LDAP_TLS cfg)) endpoint.
Proof.
  unfold allowedReferral. destruct (usable_referral c raw) as [p|]; [|done].
  intros (allowed & u & Hin & Hu & -> & _)%allowed_loop_ok.
  apply usable_referral_ok in Hu as [Hparse Hscheme]. split; [by exists allowed, u|].
  intros u' Hu'. unfold referralEndpoint in Hu'.
  apply (Parse_scheme _ ("//" +:+ to_lower (Host u))) in Hu'; [by rewrite Hu'|].
  rewrite Hscheme. destruct (LDAPTLS_StartTLS _); auto.
Qed.

Lemma open_same (P : ghost → Prop) co l s :
  conns s !! co = Some l → (∀ b, P (open co (with_bound b l) s)) → P s.
Proof.
  intros Hco HP. specialize (HP (bound l)).
  replace (with_bound (bound l) l) with l in HP by (by destruct l).
  unfold open in HP. rewrite insert_id in HP by done. by destruct s.
Qed.

(** ** Timeouts and binds *)

Lemma within_context_ensures value fallback s Q :
  (∀ t, Millisecond <= t → Q (Ok t) s) → (∀ err, Q (Err err) s) →
  ensures (within_context value fallback) s Q.
Proof.
  intros Hok Herr. apply ensures_call. intros [text|]; [apply Herr|].
  apply ensures_call. intros remaining. apply ensures_ret.
  destruct (timeoutWithinContext None remaining value fallback) eqn:Ht; [|apply Herr].
  eapply Hok, timeoutWithinContext_ok, Ht.
Qed.

Lemma setOperationTimeout_ensures co configuredMS fallback s Q :
  is_Some (conns s !! co) → (∀ t, Q (Ok t) s) → (∀ err, Q (Err err) s) →
  ensures (setOperationTimeout co configuredMS fallback) s Q.
Proof.
  intros Hco Hok Herr. apply ensures_bind_ok, within_context_ensures; [|apply Herr].
  intros t Ht. apply ensures_call. split_and!; [done|done|]. apply ensures_ret, Hok.
Qed.

Lemma bind_as_ensures co name pw l s Q :
  conns s !! co = Some l → may_bind c password l name pw →
  (∀ err b, Q (Err err) (open co (with_bound b l) s)) →
  Q (Ok tt) (grow [(name, pw)] [] (open co (with_bound (Some (name, pw)) l) s)) →
  ensures (bind_as c co name pw) s Q.
Proof.
  intros Hco Hmay Herr Hok.
  assert (Herr' : ∀ err, Q (Err err) s).
  { intros err. by apply (open_same (Q (Err err)) co l). }
  apply ensures_bind_ok, setOperationTimeout_ensures; [by eexists| |done].
  intros _. apply ensures_call. exists l. split_and!; [done..| |].
  - intros err. apply ensures_ret, Herr.
  - by apply ensures_ret.
Qed.

Lemma bindService_ensures co l s Q :
  conns s !! co = Some l → secure l →
  (∀ err b, Q (Err err) (open co (with_bound b l) s)) →
  Q (Ok tt) (grow [service c] [] (open co (with_bound (Some (service c)) l) s)) →
  ensures (bindService c co) s Q.
Proof. intros Hco Hl Herr Hok. apply (bind_as_ensures _ _ _ l); try done. by split; [|left]. Qed.

Lemma bindUser_ensures co name l s Q :
  conns s !! co = Some l → secure l → server l ∈ endpointURLs c →
  (∀ err b, Q (Err err) (open co (with_bound b l) s)) →
  (password ≠ "" →
   Q (Ok tt) (grow [(name, password)] [] (open co (with_bound (Some (name, password)) l) s))) →
  ensures (bindUser c co name password) s Q.
Proof.
  intros Hco Hl Hserver Herr Hok. unfold bindUser. case_match; bool_to_prop.
  - by apply ensures_ret, (open_same (Q (Err _)) co l).
  - apply (bind_as_ensures _ _ _ l); auto. by split; [|right].
Qed.

(** ** Dialling *)

Lemma tls_config_ensures endpoint s Q :
  (∀ tls, InsecureSkipVerify tls = false → Q (Ok tls) s) → (∀ err, Q (Err err) s) →
  ensures (tls_config c endpoint false) s Q.
Proof.
  intros Hok Herr. unfold tls_config. case_match; [by apply ensures_ret, Hok|].
  case_match; [apply ensures_ret, Herr|].
  apply ensures_call. intros [pem|text]; [|apply ensures_ret, Herr].
  apply ensures_call. intros system. apply ensures_call. intros [|]; apply ensures_ret;
    [by apply Hok|apply Herr].
Qed.

Lemma dialEndpoint_ensures endpoint s Q :
  endpoint ∈ endpointURLs c ∨ listed_referral c endpoint →
  reached_over_tls (LDAPTLS_StartTLS (LDAP_TLS cfg)) endpoint →
  (∀ err, Q (Err err) s) →
  (∀ co l, conns s !! co = None → secure l → server l = endpoint → Q (Ok co) (open co l s)) →
  ensures (dialEndpoint c endpoint false) s Q.
Proof.
  intros Hknown Htls Herr Hok.
  apply ensures_bind_ok, within_context_ensures; [|apply Herr]. intros t Ht.
  apply ensures_bind_ok, tls_config_ensures; [|apply Herr]. intros tls Hv.
  destruct (LDAPTLS_StartTLS (LDAP_TLS cfg)) eqn:Hstart.
  - apply ensures_bind_ok. split_and!; [done..| |]; [apply Herr|].
    intros co u Hco Hu. apply ensures_call. eexists. split; [apply lookup_insert_eq|].
    split.
    + intros err. apply ensures_call. split; [eexists; apply lookup_insert_eq|].
      apply ensures_ret. rewrite close_open by done. apply Herr.
    + apply ensures_ret. rewrite open_open. apply Hok; [done| |done].
      split; [done|]. simpl. by rewrite Hv.
  - split_and!; [done..| |]; [apply Herr|].
    intros co u Hco Hu. apply Hok; [done| |done]. unfold secure. simpl.
    rewrite (Htls u Hu). simpl. by rewrite Hv.
Qed.

(** What a valid configuration gives the client. *)
Definition deployed : Prop :=
  Forall (reached_over_tls (LDAPTLS_StartTLS (LDAP_TLS cfg))) (endpointURLs c) ∧
  (Group_Enabled (LDAP_Groups cfg) = true → 0 < Group_MaxGroups (LDAP_Groups cfg)).

Lemma valid_deployed : valid_ldap cfg → deployed.
Proof.
  intros ((_ & _ & Hurls) & _ & _ & _ & _ & Hgroups & _). split.
  - eapply Forall_impl; [exact Hurls|]. apply tls_url_reached.
  - intros Hon. destruct (Hgroups Hon) as (_ & _ & _ & _ & _ & _ & Hmax & _). apply Hmax.
Qed.

Hypothesis Hdep : deployed.

Lemma dial_ensures s Q :
  (∀ err, Q (Err err) s) →
  (∀ co l, conns s !! co = None → secure l → server l ∈ endpointURLs c → Q (Ok co) (open co l s)) →
  ensures (dial c false) s Q.
Proof.
  intros Herr Hok. unfold dial.
  assert (Hall : ∀ endpoint, endpoint ∈ endpointURLs c → endpoint ∈ endpointURLs c ∧
    reached_over_tls (LDAPTLS_StartTLS (LDAP_TLS cfg)) endpoint).
  { intros endpoint Hin. split; [done|]. destruct Hdep as [Htls _].
    rewrite Forall_forall in Htls. auto. }
  revert Hall. generalize (endpointURLs c) at 1 3 as endpoints. generalize (@None error) at 1 as lastErr.
  generalize (@None error) as tlsErr. intros tlsErr lastErr endpoints. revert tlsErr lastErr.
  induction endpoints as [|endpoint endpoints IH]; intros tlsErr lastErr Hall; cbn [dial_loop].
  { case_match; apply ensures_ret, Herr. }
  destruct (Hall endpoint) as [Hin Htls]; [by left|].
  apply ensures_bind, dialEndpoint_ensures; [by left|done| |].
  - intros err. apply IH. intros e He. apply Hall. by right.
  - intros co l Hco Hl <-. apply ensures_ret. by apply Hok.
Qed.

(** ** The pool *)

Lemma acquireConn_ensures s Q :
  (∀ err, Q (Err err) s) →
  (∀ co l binds, conns s !! co = None → secure l → server l ∈ endpointURLs c →
     Q (Ok co) (grow binds [] (open co l s))) →
  ensures (acquireConn c false) s Q.
Proof.
  intros Herr Hok. unfold acquireConn.
  assert (Hdial : ∀ s', s' = s → ensures (dial c false) s' Q).
  { intros s' ->. apply dial_ensures; [done|]. intros co l Hco Hl Hs.
    specialize (Hok co l [] Hco Hl Hs). by rewrite grow_nil in Hok. }
  case_match; [by apply Hdial|].
  apply ensures_call. split; [by apply Hdial|]. intros co l Hco (Hl & Hserver & Hbound).
  apply ensures_bind. unfold validatePooledConn.
  assert (Hclose : ∀ b, ensures (call (Close co);;; dial c false) (open co (with_bound b l) s) Q).
  { intros b. apply ensures_call. split; [eexists; apply lookup_insert_eq|].
    rewrite close_open by done. by apply Hdial. }
  case_match.
  - apply ensures_ret. specialize (Hclose (bound l)). by destruct l.
  - apply (bindService_ensures _ l); [apply lookup_insert_eq|done| |].
    + intros err b. rewrite open_open. apply Hclose.
    + apply ensures_ret. rewrite open_open. apply Hok; done.
Qed.

Lemma releaseConn_ensures co l reusable s Q :
  conns s !! co = Some l → (reusable = true → poolable c l) → Q tt (close co s) →
  ensures (releaseConn c co reusable) s Q.
Proof.
  intros Hco Hpool HQ. unfold releaseConn. case_match; bool_to_prop.
  - apply ensures_call. exists l. split_and!; [done|by apply Hpool| |].
    + by apply ensures_ret.
    + split; [by eexists|done].
  - split; [by eexists|done].
Qed.

Lemma restore_ensures co l s Q :
  conns s !! co = Some l → secure l →
  (∀ err b, Q (Err err) (open co (with_bound b l) s)) →
  Q (Ok tt) (grow [service c] [] (open co (with_bound (Some (service c)) l) s)) →
  ensures (restoreServiceBindForReuse c co) s Q.
Proof.
  intros Hco Hl Herr Hok. unfold restoreServiceBindForReuse. case_match.
  - by apply ensures_ret, (open_same (Q (Err _)) co l).
  - by apply (bindService_ensures _ l).
Qed.

(** The flag [VerifyPassword] releases its connection with is true only for a
    connection bound as the service. *)
Lemma reusable_after_ensures co l s Q :
  conns s !! co = Some l → secure l → server l ∈ endpointURLs c →
  (∀ b l' binds, (b = true → poolable c l') → Q b (grow binds [] (open co l' s))) →
  ensures (reusable_after c co) s Q.
Proof.
  intros Hco Hl Hserver HQ. apply ensures_bind, (restore_ensures _ l); [done..| |].
  - intros err b. apply ensures_ret. specialize (HQ false (with_bound b l) []).
    rewrite grow_nil in HQ. by apply HQ.
  - apply ensures_ret, HQ. done.
Qed.
(** ** Searching *)

(** The answers in [new] are to requests with this filter. *)
Definition for_filter (filter : string) (new : list (SearchRequest * list Entry)) : Prop :=
  Forall (λ x, Filter x.1 = filter) new.

(** A search without an error has a result, with the entries before [new] and
    those of [new], in order. *)
Definition collects (before : list Entry) (new : list (SearchRequest * list Entry)) (f : found) : Prop :=
  f.2 = None → ∃ r, f.1 = Some r ∧ Entries r = before ++ concat new.*2.

Lemma for_filter_app filter new1 new2 :
  for_filter filter new1 → for_filter filter new2 → for_filter filter (new1 ++ new2).
Proof. apply Forall_app_2. Qed.

Lemma paging_loop_ensures pages co request others pageSize maxEntries combined l s Q :
  conns s !! co = Some l → bound l = Some (service c) →
  (∀ request' f new, Filter request' = Filter request → for_filter (Filter request) new →
     collects (Entries combined) new f → Q (request', f) (grow [] new s)) →
  ensures (paging_loop pages co request others pageSize maxEntries combined) s Q.
Proof.
  revert request combined s. induction pages as [|pages IH];
    intros request combined s Hco Hl HQ; [done|].
  apply ensures_call. exists l. split_and!; [done..|]. intros r err Hany.
  set (got := default [] (Entries <$> r)).
  assert (Hdone : ∀ f, collects (Entries combined) [(request, got)] f →
    ensures (Ret (request, f)) (grow [] [(request, got)] s) Q).
  { intros f Hf. apply ensures_ret, HQ; [done|by constructor|done]. }
  destruct r as [r|]; cbn [bool_decide andb].
  2: { destruct err as [err|]; [|by destruct Hany as [[? ?]|[? ?]]]. apply Hdone. by intros ?. }
  change (bool_decide (is_Some (Some r))) with true. cbn [andb].
  case_match; [apply Hdone; by intros ?|].
  destruct err as [err|]; [apply Hdone; by intros ?|].
  assert (Hone : collects (Entries combined) [(request, got)]
                   (Some (append_result combined r), None)).
  { intros _. eexists. split; [done|]. simpl. by rewrite app_nil_r. }
  destruct (FindPaging (ResultControls r)) as [[size cookie|other]|]; [|by apply Hdone..].
  case_match; [by apply Hdone|].
  apply IH; [done..|]. intros request' f new Hf Hnew Hcollects.
  rewrite grow_grow. apply HQ; [done| |].
  - by constructor.
  - intros Hno. destruct (Hcollects Hno) as (r' & Hr' & He). exists r'. split; [done|].
    rewrite He. simpl. by rewrite (assoc_L (++)).
Qed.

Lemma searchOnce_ensures co request l s Q :
  conns s !! co = Some l → bound l = Some (service c) →
  (∀ request' f new, Filter request' = Filter request → for_filter (Filter request) new →
     collects [] new f → Q (request', f) (grow [] new s)) →
  ensures (searchOnce budget c co request) s Q.
Proof.
  intros Hco Hl HQ. unfold searchOnce.
  assert (Hfail : ∀ request' err, Filter request' = Filter request →
    ensures (Ret (request', (None, Some err))) s Q).
  { intros request' err Hf. apply ensures_ret. specialize (HQ request' (None, Some err) []).
    rewrite grow_nil in HQ. apply HQ; [done|constructor|done]. }
  case_match.
  - apply ensures_call. exists l. split_and!; [done..|]. intros r err Hany.
    apply ensures_ret, HQ; [done|by constructor|]. intros Hno. simpl in Hno. subst err.
    destruct Hany as [[r' ->]|[? ?]]; [|done]. exists r'. simpl. by rewrite app_nil_r.
  - apply ensures_bind, within_context_ensures; [|by intros; apply Hfail].
    intros t _. unfold searchWithPagingLimit. case_match.
    + by apply Hfail.
    + apply (paging_loop_ensures _ _ _ _ _ _ _ l); done.
Qed.
Lemma search_referral_ensures co original baseDN l s Q :
  conns s !! co = None → secure l →
  (∀ f binds new, for_filter (Filter original) new → collects [] new f →
     Q f (grow binds new s)) →
  ensures (search_referral budget c co original baseDN) (open co l s) Q.
Proof.
  intros Hco Hl HQ. apply ensures_bind, ensures_bind.
  assert (Hclose : ∀ f b binds new, for_filter (Filter original) new → collects [] new f →
    ensures (call (Close co);;; Ret f) (grow binds new (open co (with_bound b l) s)) Q).
  { intros f b binds new Hnew Hf. apply ensures_call. split; [eexists; apply lookup_insert_eq|].
    rewrite close_grow, close_open by done. by apply ensures_ret, HQ. }
  apply (bindService_ensures _ l); [apply lookup_insert_eq|done| |].
  - intros err b. rewrite open_open. apply ensures_ret.
    rewrite <-(grow_nil (open co (with_bound b l) s)). apply Hclose; [constructor|done].
  - rewrite open_open. apply ensures_bind.
    apply (searchOnce_ensures _ _ (with_bound (Some (service c)) l)); [apply lookup_insert_eq|done|].
    intros request' f new _ Hnew Hf. rewrite grow_grow. apply ensures_ret, Hclose; [|done].
    replace (Filter original) with
      (Filter (if negb (baseDN =? "")%string then with_base (cloneSearchRequest original) baseDN
               else cloneSearchRequest original)) by (by case_match).
    done.
Qed.

Lemma followReferrals_ensures original referrals combined s Q :
  (∀ r binds new, for_filter (Filter original) new →
     (∀ res, r = Ok res → Entries res = Entries combined ++ concat new.*2) →
     Q r (grow binds new s)) →
  ensures (followReferrals budget c original referrals combined) s Q.
Proof.
  revert combined s. induction referrals as [|referral referrals IH]; intros combined s HQ.
  { apply ensures_ret. specialize (HQ (Ok combined) [] []). rewrite grow_nil in HQ.
    apply HQ; [constructor|]. intros res [= <-]. by rewrite app_nil_r. }
  assert (Hfail : ∀ err s', s' = s → Q (Err err) s').
  { intros err s' ->. specialize (HQ (Err err) [] []). rewrite grow_nil in HQ. by apply HQ; [constructor|]. }
  cbn [followReferrals].
  destruct (allowedReferral c referral) as [[endpoint baseDN]|] eqn:Hallowed;
    [|by apply ensures_ret, Hfail].
  apply allowedReferral_ok in Hallowed as [Hlisted Htls].
  apply ensures_bind_ok, dialEndpoint_ensures; [by right|done| |]; [by intros; apply Hfail|].
  intros co l Hco Hl _. apply ensures_bind, search_referral_ensures; [done..|].
  intros [r err] binds new Hnew Hf.
  destruct err as [err|].
  { apply ensures_ret, HQ; done. }
  destruct Hf as (r' & Hr & He); [done|]. simpl in Hr, He. subst r.
  case_match; [by apply ensures_ret, HQ|].
  apply IH. intros res binds' new' Hnew' Hres. rewrite grow_grow.
  apply HQ; [by apply for_filter_app|]. intros res' ->. rewrite (Hres res' eq_refl). simpl.
  by rewrite He, fmap_app, concat_app, !(assoc_L (++)).
Qed.

Lemma search_ensures co request l s Q :
  conns s !! co = Some l → bound l = Some (service c) →
  (∀ f binds new, for_filter (Filter request) new → collects [] new f → Q f (grow binds new s)) →
  ensures (search budget c co request) s Q.
Proof.
  intros Hco Hl HQ. apply ensures_bind, (searchOnce_ensures _ _ l); [done..|].
  intros request' [r err] new Hf Hnew Hcollects.
  assert (Hret : ∀ f, collects [] new f → ensures (Ret f) (grow [] new s) Q).
  { intros f Hc. by apply ensures_ret, HQ. }
  destruct err as [err|]; [by apply Hret|].
  destruct r as [r|]; [|by apply Hret].
  destruct Hcollects as (r' & [= <-] & He); [done|].
  case_match; [by apply Hret; intros _; exists r|].
  case_match; [by apply Hret|].
  apply ensures_bind, followReferrals_ensures. intros followed binds new' Hnew' Hres.
  rewrite grow_grow. rewrite Hf in Hnew'.
  destruct followed as [res|err]; apply ensures_ret, HQ; try by apply for_filter_app.
  - intros _. eexists. split; [done|]. simpl. rewrite He, (Hres res eq_refl). simpl.
    by rewrite fmap_app, concat_app.
  - by intros ?.
Qed.

Lemma search_entries_ensures f s Q :
  (f.2 = None → is_Some f.1) →
  (∀ r, (∀ entries, r = Ok entries → f.2 = None ∧ ∃ res, f.1 = Some res ∧ Entries res = entries) → Q r s) →
  ensures (search_entries f) s Q.
Proof.
  intros Hsome HQ. destruct f as [[r|] [err|]]; simpl in *; try (apply ensures_ret, HQ; naive_solver).
  by destruct Hsome.
Qed.

(** A search whose entries are then looked at. *)
Lemma entries_ensures {A} co request (f : result error (list Entry) → io A) l s Q :
  conns s !! co = Some l → bound l = Some (service c) →
  (∀ r binds new, for_filter (Filter request) new →
     (∀ entries, r = Ok entries → entries = concat new.*2) →
     ensures (f r) (grow binds new s) Q) →
  ensures (bind (search budget c co request) (λ a, bind (search_entries a) f)) s Q.
Proof.
  intros Hco Hl HQ. apply ensures_bind, (search_ensures _ _ l); [done..|].
  intros answer binds new Hnew Hf. apply ensures_bind, search_entries_ensures.
  - intros Hno. destruct (Hf Hno) as (? & ? & ?). by eexists.
  - intros r Hr. apply HQ; [done|]. intros entries ->.
    destruct (Hr entries eq_refl) as (Hno & res & Hres & <-).
    destruct (Hf Hno) as (res' & Hres' & He). rewrite Hres in Hres'. by simplify_eq.
Qed.

(** ** Groups *)

Section groups.
Hypothesis Hgroups : Group_Enabled (LDAP_Groups cfg) = true.

Lemma searchGroupEntries_ensures co filter l s Q :
  conns s !! co = Some l → bound l = Some (service c) →
  (∀ r binds new,
     (∀ entries, r = Ok entries → Z.of_nat (length entries) <= Group_MaxGroups (LDAP_Groups cfg)) →
     Q r (grow binds new s)) →
  ensures (searchGroupEntries budget c co filter) s Q.
Proof.
  intros Hco Hl HQ. pose proof (proj2 Hdep Hgroups) as Hmax.
  assert (Hfail : ∀ err, Q (Err err) s).
  { intros err. rewrite <-(grow_nil s). by apply HQ. }
  apply ensures_bind_ok, setOperationTimeout_ensures; [by eexists| |done]. intros timeout.
  apply (entries_ensures _ _ _ l); [done..|]. intros [entries|err] binds new _ _;
    [|by apply ensures_ret, HQ].
  destruct (Z.ltb_spec (Group_MaxGroups (LDAP_Groups cfg)) (Z.of_nat (length entries))).
  - destruct (Z.ltb_spec (Group_MaxGroups (LDAP_Groups cfg)) 0); [lia|].
    apply ensures_ret, HQ. intros ? [= <-]. rewrite length_take. lia.
  - apply ensures_ret, HQ. by intros ? [= <-].
Qed.

(** What the breadth-first walk keeps: every group once, within the limits. *)
Definition walked (depth : Z) (b : bfs) : Prop :=
  NoDup (GroupFact_DN <$> facts b) ∧
  (∀ dn, dn ∈ GroupFact_DN <$> facts b → dn ∈ seen b) ∧
  Forall (λ fact, 1 <= GroupFact_Depth fact <= depth) (facts b) ∧
  Z.of_nat (length (facts b)) <= Group_MaxGroups (LDAP_Groups cfg).

Lemma walked_mono d1 d2 b : d1 <= d2 → walked d1 b → walked d2 b.
Proof.
  intros Hd (Hn & Hs & Hf & Hl). split_and!; [done..| |done].
  eapply Forall_impl; [exact Hf|]. intros. simpl in *. lia.
Qed.

Lemma bfs_entries_walked depth entries b :
  1 <= depth → facts_full c b = false → walked depth b → walked depth (bfs_entries c depth entries b).
Proof.
  intros Hdepth. revert b. induction entries as [|entry entries IH]; intros b Hfull Hb; [done|].
  cbn [bfs_entries]. case_bool_decide as Hseen; [by apply IH|].
  assert (Hnext : ∀ next, walked depth {| seen := {[DN entry]} ∪ seen b;
    facts := facts b ++ [groupFactFromEntry cfg entry "bfs_member_search" depth]; next := next |}).
  { intros next. destruct Hb as (Hn & Hs & Hf & Hl). unfold facts_full in Hfull. bool_to_prop.
    unfold walked. simpl. rewrite fmap_app, length_app. simpl. split_and!.
    - apply NoDup_app. split_and!; [done| |by apply NoDup_singleton].
      intros dn Hdn Heq. apply list_elem_of_singleton in Heq. subst dn. auto.
    - set_solver.
    - apply Forall_app. split; [done|]. constructor; [|done]. simpl. lia.
    - lia. }
  case_match eqn:Hfull'; [by apply Hnext|]. by apply IH.
Qed.

Lemma bfs_frontier_ensures co depth frontier b l s Q :
  conns s !! co = Some l → bound l = Some (service c) →
  1 <= depth → facts_full c b = false → walked depth b →
  (∀ r binds new, walked depth r.2 → Q r (grow binds new s)) →
  ensures (bfs_frontier budget c co depth frontier b) s Q.
Proof.
  intros Hco Hl Hdepth. revert b s Hco. induction frontier as [|member frontier IH];
    intros b s Hco Hfull Hb HQ; cbn [bfs_frontier].
  { apply ensures_ret. rewrite <-(grow_nil s). by apply HQ. }
  apply ensures_bind, (searchGroupEntries_ensures _ _ l); [done..|].
  intros [entries|err] binds new _; [|by apply ensures_ret, HQ].
  pose proof (bfs_entries_walked depth entries b Hdepth Hfull Hb) as Hb'.
  case_match eqn:Hfull'; [by apply ensures_ret, HQ|].
  apply IH; [done..|]. intros r binds' new' Hr. rewrite grow_grow. by apply HQ.
Qed.

Lemma bfs_levels_ensures levels co depth frontier b l s Q :
  conns s !! co = Some l → bound l = Some (service c) →
  1 <= depth → walked (depth - 1) b →
  (∀ fs binds new, (∃ b', facts b' = fs ∧ walked (depth - 1 + Z.of_nat levels) b') →
     Q fs (grow binds new s)) →
  ensures (bfs_levels budget c levels co depth frontier b) s Q.
Proof.
  intros Hco Hl. revert depth frontier b s Hco. induction levels as [|levels IH];
    intros depth frontier b s Hco Hdepth Hb HQ; cbn [bfs_levels].
  - apply ensures_ret. rewrite <-(grow_nil s). apply HQ. exists b.
    split; [done|]. by eapply walked_mono; [|exact Hb]; lia.
  - case_match eqn:Hstop.
    + apply ensures_ret. rewrite <-(grow_nil s). apply HQ. exists b.
      split; [done|]. by eapply walked_mono; [|exact Hb]; lia.
    + apply orb_false_elim in Hstop as [_ Hfull].
      apply ensures_bind, (bfs_frontier_ensures _ _ _ _ l); [done..| |].
      { eapply walked_mono; [|exact Hb]. lia. }
      intros [go_on b'] binds new Hb'. simpl in Hb'. destruct go_on.
      * apply IH; [done|lia| |].
        { by replace (depth + 1 - 1) with depth by lia. }
        intros fs binds' new' Hfs. rewrite grow_grow. apply HQ.
        by replace (depth - 1 + Z.of_nat (S levels)) with (depth + 1 - 1 + Z.of_nat levels) by lia.
      * apply ensures_ret, HQ. exists b'. split; [done|]. eapply walked_mono; [|exact Hb']. lia.
Qed.
End groups.

(** The limits on the groups of a user: none unless they are enabled and asked
    for; with a group search, at most [MaxGroups]; with the breadth-first walk
    also each once and at a depth the configuration allows. *)
Definition facts_within_limits (requested : list string) (fs : list GroupFact) : Prop :=
  if groups_requested cfg requested then
    let strategy := Profile_GroupStrategy (LDAP_DirectoryProfile cfg) in
    (strategy = "ad_matching_rule" ∨ strategy = "bfs_member_search" →
     Z.of_nat (length fs) <= Group_MaxGroups (LDAP_Groups cfg)) ∧
    (strategy = "bfs_member_search" →
     NoDup (GroupFact_DN <$> fs) ∧
     Forall (λ fact, 1 <= GroupFact_Depth fact <= Group_MaxDepth (LDAP_Groups cfg)) fs)
  else fs = [].

Lemma groupFactsFromEntries_length entries source depth :
  0 < Group_MaxGroups (LDAP_Groups cfg) →
  Z.of_nat (length (groupFactsFromEntries cfg entries source depth)) <= Group_MaxGroups (LDAP_Groups cfg).
Proof.
  intros Hmax. unfold groupFactsFromEntries. rewrite length_fmap, length_take.
  destruct (Z.leb_spec (Group_MaxGroups (LDAP_Groups cfg)) 0); [lia|]. simpl.
  destruct (Z.ltb_spec (Z.of_nat (length entries)) (Group_MaxGroups (LDAP_Groups cfg))); lia.
Qed.

Lemma groupFacts_ensures co entry requested l s Q :
  conns s !! co = Some l → bound l = Some (service c) →
  (∀ fs binds new, facts_within_limits requested fs → Q fs (grow binds new s)) →
  ensures (groupFacts budget c co entry requested) s Q.
Proof.
  intros Hco Hl HQ. unfold groupFacts.
  unfold facts_within_limits in HQ.
  destruct (groups_requested cfg requested) eqn:Hon; simpl.
  2: { apply ensures_ret. rewrite <-(grow_nil s). by apply HQ. }
  unfold groups_requested in Hon. apply andb_prop in Hon as [Hon _].
  pose proof (proj2 Hdep Hon) as Hmax.
  case_match eqn:Had; bool_to_prop.
  { apply ensures_bind, (searchGroupEntries_ensures Hon _ _ l); [done..|].
    intros [entries|err] binds new _; apply ensures_ret, HQ; rewrite Had; split; try done; intros _.
    - by apply groupFactsFromEntries_length.
    - simpl. lia. }
  case_match eqn:Hbfs; bool_to_prop.
  { apply (bfs_levels_ensures Hon _ _ _ _ _ l); [done..|lia| |].
    - unfold walked. simpl. split_and!; [constructor|set_solver|constructor|lia].
    - intros fs binds new (b & <- & Hn & _ & Hf & Hlen). apply HQ. split; [done|]. intros _.
      split; [done|]. destruct (Z.le_gt_cases 0 (Group_MaxDepth (LDAP_Groups cfg))).
      + by rewrite Z2Nat.id, Z.add_0_l in Hf by done.
      + eapply Forall_impl; [exact Hf|]. intros x. simpl. lia. }
  apply ensures_ret. rewrite <-(grow_nil s). apply HQ. split; [intros [?|?]|intros ?]; congruence.
Qed.
(** ** Resolving a user *)

Definition user_filter (username : string) : string :=
  substitute_username (LDAP_UserFilter cfg) (EscapeFilter username).

Definition entry_subject (entry : Entry) : string :=
  if negb (entrySubjectValue cfg entry =? "")%string then entrySubjectValue cfg entry else DN entry.

(** The first searches of a list were for the user, and together they returned
    one entry. *)
Definition only_match (username : string) (searches : list (SearchRequest * list Entry))
    (entry : Entry) : Prop :=
  ∃ first rest, searches = first ++ rest ∧ for_filter (user_filter username) first ∧
                concat first.*2 = [entry].

Lemma only_match_app username searches more entry :
  only_match username searches entry → only_match username (searches ++ more) entry.
Proof.
  intros (first & rest & -> & Hf & He). exists first, (rest ++ more).
  by rewrite (assoc_L (++)).
Qed.

Lemma singleSearchEntry_ok entries entry : singleSearchEntry entries = Ok entry → entries = [entry].
Proof. unfold singleSearchEntry. repeat case_match; naive_solver. Qed.

Lemma resolveUser_ensures co username requested l s Q :
  conns s !! co = Some l → bound l = Some (service c) →
  (∀ r binds new,
     (∀ u, r = Ok u → ∃ entry, only_match username new entry ∧ dn u = DN entry ∧
        subjectID u = entry_subject entry ∧ attributes u = entryAttributes cfg entry requested ∧
        facts_within_limits requested (user_groupFacts u)) →
     Q r (grow binds new s)) →
  ensures (resolveUserWithAttributes budget c co username requested) s Q.
Proof.
  intros Hco Hl HQ.
  assert (Hfail : ∀ err, Q (Err err) s).
  { intros err. rewrite <-(grow_nil s). by apply HQ. }
  apply ensures_bind_ok, setOperationTimeout_ensures; [by eexists| |done]. intros timeout.
  apply (entries_ensures _ _ _ l); [done..|].
  intros [entries|err] binds new Hnew Hentries; [|by apply ensures_ret, HQ].
  destruct (singleSearchEntry entries) as [entry|err] eqn:Hsingle; [|by apply ensures_ret, HQ].
  apply singleSearchEntry_ok in Hsingle.
  apply ensures_bind, (groupFacts_ensures _ _ _ l); [done..|].
  intros fs binds' new' Hfs. rewrite grow_grow. apply ensures_ret, HQ.
  intros u [= <-]. exists entry. split_and!; try done.
  exists new, new'. split_and!; [done|done|]. by rewrite <-(Hentries entries eq_refl).
Qed.

Lemma resolveAttributesByDN_ensures co userDN requested l s Q :
  conns s !! co = Some l → bound l = Some (service c) →
  (∀ r binds new,
     (∀ attrs, r = Ok attrs → ∃ entry, attrs = entryAttributes cfg entry requested) →
     Q r (grow binds new s)) →
  ensures (resolveAttributesByDN budget c co userDN requested) s Q.
Proof.
  intros Hco Hl HQ.
  apply ensures_bind_ok, setOperationTimeout_ensures; [by eexists| |].
  - intros timeout. apply (entries_ensures _ _ _ l); [done..|].
    intros [[|entry entries]|err] binds new _ _; apply ensures_ret, HQ; try done.
    intros attrs [= <-]. by exists entry.
  - intros err. rewrite <-(grow_nil s). by apply HQ.
Qed.

(** The attributes of an entry, or none. *)
Definition attributes_of_entry (requested : list string) (attrs : gmap string (list string)) : Prop :=
  attrs = ∅ ∨ ∃ entry, attrs = entryAttributes cfg entry requested.

Lemma resolveAttributes_ensures co userDN username requested l s Q :
  conns s !! co = Some l → secure l →
  (∀ r b binds new, (∀ attrs, r = Ok attrs → attributes_of_entry requested attrs) →
     Q r (grow binds new (open co (with_bound b l) s))) →
  ensures (resolveAttributesAfterSuccessfulBind budget c co userDN username requested) s Q.
Proof.
  intros Hco Hl HQ. unfold resolveAttributesAfterSuccessfulBind. case_match.
  { apply ensures_ret, (open_same (Q _) co l); [done|]. intros b.
    rewrite <-(grow_nil (open _ _ _)). apply HQ. intros attrs [= <-]. by left. }
  apply ensures_bind_ok, (bindService_ensures _ l); [done..| |].
  { intros err b. rewrite <-(grow_nil (open _ _ _)). by apply HQ. }
  apply ensures_bind, (resolveAttributesByDN_ensures _ _ _ (with_bound (Some (service c)) l));
    [apply lookup_insert_eq|done|].
  intros [attrs|err] binds new Hattrs; rewrite grow_grow.
  { apply ensures_ret, HQ. intros attrs' [= <-]. right. by apply Hattrs. }
  case_match; [by apply ensures_ret, HQ|].
  apply ensures_bind, (resolveUser_ensures _ _ _ (with_bound (Some (service c)) l));
    [apply lookup_insert_eq|done|].
  intros [u|err'] binds' new' Hu; rewrite grow_grow.
  - apply ensures_ret, HQ. intros attrs [= <-]. destruct (Hu u eq_refl) as (entry & _ & _ & _ & -> & _).
    right. by exists entry.
  - case_match; apply ensures_ret, HQ; [|done]. intros attrs [= <-]. by left.
Qed.
(** ** Verifying a password *)

(** The name a user binds with and the subject the answer carries, by lookup
    mode: the DN of the one entry the searches for the user found, the DN of the
    template, or the username itself, which must match one entry. *)
Inductive speaks_for (username : string) (searches : list (SearchRequest * list Entry)) :
    string → string → Prop :=
| speaks_by_entry entry :
    lookupMode c = "search_then_bind" → only_match username searches entry →
    speaks_for username searches (DN entry) (entry_subject entry)
| speaks_by_template :
    lookupMode c = "dn_template" →
    speaks_for username searches (userDNFromTemplate c username) (userDNFromTemplate c username)
| speaks_by_name entry :
    lookupMode c = "direct_bind" → only_match username searches entry →
    speaks_for username searches username (entry_subject entry).

(** What a success rests on: a bind the directory accepted for the submitted
    password, under the name that speaks for the subject of the answer. *)
Definition bind_evidence (username : string) (r : VerifyPasswordResult)
    (binds : list (string * string)) (searches : list (SearchRequest * list Entry)) : Prop :=
  Subject_Username (Verify_Subject r) = username ∧
  ∃ name, (name, password) ∈ binds ∧ password ≠ "" ∧
          speaks_for username searches name (DirectoryID (Verify_Subject r)).

(** What an answer may release: values of requested attributes the configuration
    lists, the group attribute, and groups within their limits. *)
Definition release_allowed (requested : list string) (r : VerifyPasswordResult) : Prop :=
  (∀ name values, Verify_Attributes r !! name = Some values →
     values ≠ [] ∧ name ∈ requested ∧
     (name ∈ LDAP_Attributes cfg ∨ groups_requested cfg requested = true ∧
      name = Group_ResponseAttribute (LDAP_Groups cfg))) ∧
  facts_within_limits requested (Verify_GroupFacts r).

Definition success_ok (username : string) (requested : list string) (r : VerifyPasswordResult)
    (binds : list (string * string)) (searches : list (SearchRequest * list Entry)) : Prop :=
  IsSuccess r = true → bind_evidence username r binds searches ∧ release_allowed requested r.

(** A verdict on an error is never a success. *)
Lemma ldap_verdict_not_success verdict err r :
  verdict ∈ [userResolutionFailureResult; credentialVerdictFromBindError] →
  verdict_or_error verdict err = Ok r → IsSuccess r = false.
Proof.
  unfold verdict_or_error, userResolutionFailureResult, credentialVerdictFromBindError.
  intros Hv Hr. repeat (apply elem_of_cons in Hv as [->|Hv]); [..|by apply elem_of_nil in Hv].
  all: repeat case_match; by simplify_eq.
Qed.

Lemma stringSliceContains_spec l x : stringSliceContains l x = true ↔ x ∈ l.
Proof.
  unfold stringSliceContains. rewrite List.existsb_exists. setoid_rewrite list_elem_of_In.
  split; [by intros (y & ? & ->%String.eqb_eq)|]. intros Hx. exists x. by rewrite String.eqb_refl.
Qed.

Lemma select_attributes_in allowed seen requested name :
  name ∈ select_attributes allowed seen requested → name ∈ requested ∧ name ∈ allowed ∧ name ∉ seen.
Proof.
  revert seen. induction requested as [|x requested IH]; intros seen; simpl; [set_solver|].
  destruct (stringSliceContains allowed x) eqn:Ha; simpl; [|intros ?%IH; set_solver].
  destruct (stringSliceContains seen x) eqn:Hs; [intros ?%IH; set_solver|].
  assert (x ∉ seen) by (intros ?%stringSliceContains_spec; congruence).
  apply stringSliceContains_spec in Ha. intros [->|?%IH]%elem_of_cons; set_solver.
Qed.

Lemma requestedAttributes_in allowed requested name :
  name ∈ requestedAttributes requested allowed → name ∈ requested ∧ name ∈ allowed.
Proof. by intros (? & ? & _)%select_attributes_in. Qed.

Lemma entryAttributes_allowed entry requested name values :
  entryAttributes cfg entry requested !! name = Some values →
  values ≠ [] ∧ name ∈ requested ∧
  (name ∈ LDAP_Attributes cfg ∨ groups_requested cfg requested = true ∧
   name = Group_ResponseAttribute (LDAP_Groups cfg)).
Proof.
  unfold entryAttributes.
  set (step := λ (attrs : gmap string (list string)) name, _).
  assert (Hfold : ∀ names attrs, foldl step attrs names !! name = Some values →
            attrs !! name = Some values ∨ values ≠ [] ∧ name ∈ names).
  { induction names as [|n names IH]; intros attrs Hl; [by left|].
    apply IH in Hl as [Hl|[? ?]]; [|right; set_solver]. unfold step in Hl.
    case_match eqn:Hv; [by left|]. apply lookup_insert_Some in Hl as [[<- <-]|[_ Hl]]; [|by left].
    right. split; [done|]. by left. }
  assert (Hplain : foldl step ∅ (requestedAttributes requested (LDAP_Attributes cfg)) !! name = Some values →
    values ≠ [] ∧ name ∈ requested ∧ name ∈ LDAP_Attributes cfg).
  { intros [Hl|[? Hin]]%Hfold; [by rewrite lookup_empty in Hl|].
    by apply requestedAttributes_in in Hin. }
  intros Hl. destruct (groups_requested cfg requested) eqn:Hon; [|naive_solver].
  case_match eqn:Hv; [naive_solver|].
  apply lookup_insert_Some in Hl as [[<- <-]|[_ Hl]]; [|naive_solver].
  split_and!; [done| |by right]. unfold groups_requested in Hon.
  apply andb_prop in Hon as [_ Hinc]. unfold requestedAttributeIncludes in Hinc.
  case_match; [done|]. by apply stringSliceContains_spec.
Qed.

Lemma attributes_of_entry_allowed requested attrs name values :
  attributes_of_entry requested attrs → attrs !! name = Some values →
  values ≠ [] ∧ name ∈ requested ∧
  (name ∈ LDAP_Attributes cfg ∨ groups_requested cfg requested = true ∧
   name = Group_ResponseAttribute (LDAP_Groups cfg)).
Proof.
  intros [->|[entry ->]]; [by rewrite lookup_empty|]. apply entryAttributes_allowed.
Qed.

Lemma no_facts_within_limits requested : facts_within_limits requested [].
Proof.
  unfold facts_within_limits. case_match eqn:Hon; [|done]. unfold groups_requested in Hon.
  apply andb_prop in Hon as [Hon _]. pose proof (proj2 Hdep Hon). simpl.
  split; intros; [lia|]. split; constructor.
Qed.
(** What each mode ensures: the connection is still held, may go back to the pool
    if the flag says so, and a success has its evidence. *)
Definition mode_ends (username : string) (requested : list string) (co : conn) (s : ghost)
    (Q : result error VerifyPasswordResult * bool → ghost → Prop) : Prop :=
  ∀ answer l binds new,
    (answer.2 = true → poolable c l) →
    (∀ r, answer.1 = Ok r → success_ok username requested r binds new) →
    Q answer (open co l (grow binds new s)).

(** Ghost states with the connection outermost. *)
Ltac ghost_norm := rewrite ?grow_open, ?open_open, ?grow_grow, ?app_nil_r.

Section mode.
Variable request : VerifyPasswordRequest.
Hypothesis Hpassword : Verify_Password request = password.
Variable username : string.
Variable co : conn.
Variable l : link.
Variable s : ghost.
Hypothesis Hco : conns s !! co = Some l.
Hypothesis Hsecure : secure l.
Hypothesis Hserver : server l ∈ endpointURLs c.
Variable Q : result error VerifyPasswordResult * bool → ghost → Prop.
Hypothesis HQ : mode_ends username (Verify_AttributeNames request) co s Q.

(** An error, as it is or as a verdict: the connection is closed. *)
Lemma mode_error r b binds new :
  (∀ v, r = Ok v → IsSuccess v = false) →
  ensures (Ret (r, false)) (open co (with_bound b l) (grow binds new s)) Q.
Proof.
  intros Hr. apply ensures_ret, HQ; [done|]. intros v Hv. simpl in Hv.
  intros Hsuccess. by rewrite (Hr v Hv) in Hsuccess.
Qed.

Lemma mode_verdict verdict err b binds new :
  verdict ∈ [userResolutionFailureResult; credentialVerdictFromBindError] →
  ensures (Ret (verdict_or_error verdict err, false)) (open co (with_bound b l) (grow binds new s)) Q.
Proof. intros Hv. apply mode_error. intros v. by apply ldap_verdict_not_success. Qed.

Lemma mode_error_now err b : ensures (Ret (Err err, false)) (open co (with_bound b l) s) Q.
Proof. rewrite <-(grow_nil s). by apply mode_error. Qed.

Lemma mode_verdict_now err b :
  ensures (Ret (verdict_or_error credentialVerdictFromBindError err, false))
    (open co (with_bound b l) s) Q.
Proof. rewrite <-(grow_nil s). apply mode_verdict. set_solver. Qed.

(** The end of a successful mode. *)
Lemma mode_success name u attrs facts b binds new :
  (name, password) ∈ binds → password ≠ "" → speaks_for username new name u →
  attributes_of_entry (Verify_AttributeNames request) attrs →
  facts_within_limits (Verify_AttributeNames request)
    (match facts with fs :: _ => fs | [] => [] end) →
  ensures (reusable <~ reusable_after c co;;
           Ret (Ok (SuccessfulVerification
                      {| DirectoryID := u; Subject_Username := username |} attrs facts), reusable))
    (open co (with_bound b l) (grow binds new s)) Q.
Proof.
  intros Hin Hne Hspeaks Hattrs Hfacts.
  apply ensures_bind, (reusable_after_ensures _ (with_bound b l)); [apply lookup_insert_eq|done|done|].
  intros reuse l' binds' Hpool. apply ensures_ret. ghost_norm. apply HQ; [done|].
  intros v [= <-] _. split.
  - split; [done|]. exists name. split_and!; [set_solver|done|done].
  - split; [|done]. intros k values. by apply attributes_of_entry_allowed.
Qed.

Lemma verify_search_then_bind_ensures :
  lookupMode c = "search_then_bind" →
  ensures (verify_search_then_bind budget c co username request) s Q.
Proof.
  intros Hmode. apply ensures_bind, (bindService_ensures _ l); [done..| |].
  { intros. apply mode_error_now. }
  apply ensures_bind, (resolveUser_ensures _ _ _ (with_bound (Some (service c)) l));
    [apply lookup_insert_eq|done|].
  intros r binds new Hr. ghost_norm.
  destruct r as [u|err]; [|apply mode_verdict; set_solver].
  destruct (Hr u eq_refl) as (entry & Hmatch & Hdn & Hid & Hattrs & Hfacts).
  rewrite Hpassword.
  apply ensures_bind, (bindUser_ensures _ _ (with_bound (Some (service c)) l));
    [apply lookup_insert_eq|done|done| |].
  { intros err b. ghost_norm. apply mode_verdict. set_solver. }
  intros Hne. ghost_norm. apply (mode_success (DN entry)); [|done| | |done].
  - rewrite Hdn. set_solver.
  - rewrite Hid. by apply speaks_by_entry.
  - right. by exists entry.
Qed.

Lemma verify_dn_template_ensures :
  lookupMode c = "dn_template" →
  ensures (verify_dn_template budget c co username request) s Q.
Proof.
  intros Hmode. unfold verify_dn_template. rewrite Hpassword.
  apply ensures_bind, (bindUser_ensures _ _ l); [done..| |].
  { intros. apply mode_verdict_now. }
  intros Hne. set (b := Some _).
  apply ensures_bind, (resolveAttributes_ensures _ _ _ _ (with_bound b l));
    [apply lookup_insert_eq|done|].
  intros r b' binds new Hr. ghost_norm.
  destruct r as [attrs|err]; [|by apply mode_error].
  apply (mode_success (userDNFromTemplate c username)); [set_solver|done| | |].
  - by apply speaks_by_template.
  - by apply Hr.
  - apply no_facts_within_limits.
Qed.

Lemma resolveDirectBindUser_ensures requested s' l' Q' :
  conns s' !! co = Some l' → secure l' →
  (∀ r b binds new,
     (∀ u, r = Ok u → ∃ entry, only_match username new entry ∧
        subjectID u = entry_subject entry ∧ attributes u = entryAttributes cfg entry requested ∧
        facts_within_limits requested (user_groupFacts u)) →
     Q' r (open co (with_bound b l') (grow binds new s'))) →
  ensures (resolveDirectBindUser budget c co username requested) s' Q'.
Proof.
  intros Hco' Hl' HQ'. unfold resolveDirectBindUser.
  assert (Hfail : ∀ err b, Q' (Err err) (open co (with_bound b l') s')).
  { intros err b. rewrite <-(grow_nil s'). by apply HQ'. }
  destruct (requireServiceSearch c).
  - apply ensures_bind_ok, (bindService_ensures _ l'); [done..|].
    apply (resolveUser_ensures _ _ _ (with_bound (Some (service c)) l')); [apply lookup_insert_eq|done|].
    intros r binds new Hr. ghost_norm. apply HQ'. intros u Hu.
    destruct (Hr u Hu) as (entry & ? & _ & ? & ? & ?). by exists entry.
  - by apply ensures_ret, (open_same (Q' _) co l').
Qed.

Lemma verify_direct_bind_ensures :
  lookupMode c = "direct_bind" →
  ensures (verify_direct_bind budget c co username request) s Q.
Proof.
  intros Hmode. unfold verify_direct_bind. rewrite Hpassword.
  apply ensures_bind, (bindUser_ensures _ _ l); [done..| |].
  { intros. apply mode_verdict_now. }
  intros Hne. set (b := Some _).
  apply ensures_bind, (resolveDirectBindUser_ensures _ _ (with_bound b l));
    [apply lookup_insert_eq|done|].
  intros r b' binds new Hr. ghost_norm.
  destruct r as [u|err]; [|apply mode_verdict; set_solver].
  destruct (Hr u eq_refl) as (entry & Hmatch & Hid & Hattrs & Hfacts).
  apply (mode_success username); [set_solver|done| | |done].
  - rewrite Hid. by apply speaks_by_name.
  - right. by exists entry.
Qed.

Lemma verify_by_mode_ensures : ensures (verify_by_mode budget c co username request) s Q.
Proof.
  unfold verify_by_mode. repeat case_match; bool_to_prop.
  - by apply verify_search_then_bind_ensures.
  - by apply verify_dn_template_ensures.
  - by apply verify_direct_bind_ensures.
  - apply (open_same (λ s, ensures _ s Q) co l); [done|]. intros b. apply mode_error_now.
Qed.
End mode.
(** ** Testing the connection *)

Section test.
Variable request : TestConnectionRequest.
Hypothesis Hpassword : TestConnection_Password request = password.
Variable co : conn.
Variable l : link.
Variable s : ghost.
Hypothesis Hco : conns s !! co = Some l.
Hypothesis Hsecure : secure l.
Hypothesis Hserver : server l ∈ endpointURLs c.
Variable Q : tested → ghost → Prop.
Hypothesis HQ : ∀ answer l' binds new,
  (answer.2 = true → poolable c l') → Q answer (open co l' (grow binds new s)).

Lemma test_error r err b binds new :
  ensures (Ret (r, err, false)) (open co (with_bound b l) (grow binds new s)) Q.
Proof. by apply ensures_ret, HQ. Qed.

Lemma test_error_now r err b : ensures (Ret (r, err, false)) (open co (with_bound b l) s) Q.
Proof. rewrite <-(grow_nil s). apply test_error. Qed.

Lemma test_here r err : ensures (Ret (r, err, false)) s Q.
Proof. apply (open_same (λ s, ensures _ s Q) co l); [done|]. intros b. apply test_error_now. Qed.

Lemma test_password_ensures name r b binds new :
  ensures (test_password c co name request r) (open co (with_bound b l) (grow binds new s)) Q.
Proof.
  unfold test_password. case_match; [apply test_error|]. rewrite Hpassword.
  apply ensures_bind, (bindUser_ensures _ _ (with_bound b l)); [apply lookup_insert_eq|done|done| |].
  { intros err b'. ghost_norm. apply test_error. }
  intros _. ghost_norm. set (b' := Some _).
  apply ensures_bind, (reusable_after_ensures _ (with_bound b' l)); [apply lookup_insert_eq|done|done|].
  intros reuse l' binds' Hpool. ghost_norm. by apply ensures_ret, HQ.
Qed.

(** With the service bound, the user is resolved and tested. *)
Lemma test_user_ensures {A} (resolve : io (result error A)) r name r' :
  (∀ s' Q', (∃ l', conns s' !! co = Some l' ∧ bound l' = Some (service c)) →
     (∀ a binds new, Q' a (grow binds new s')) → ensures resolve s' Q') →
  ensures (bound <~ bindService c co;;
           match bound with
           | Err err => Ret (zero_test, Some err, false)
           | Ok _ =>
               resolved <~ resolve;;
               match resolved with
               | Err err => Ret (r, Some err, false)
               | Ok u => test_password c co (name u) request (r' u)
               end
           end) s Q.
Proof.
  intros Hresolve. apply ensures_bind, (bindService_ensures _ l); [done..| |].
  { intros. apply test_error_now. }
  apply ensures_bind, Hresolve.
  - eexists. split; [apply lookup_insert_eq|done].
  - intros [u|err] binds new; ghost_norm; [apply test_password_ensures|apply test_error].
Qed.

Lemma test_with_ensures : ensures (test_with nfkc budget c co request) s Q.
Proof.
  unfold test_with. case_match.
  { case_match; [|apply test_here]. apply ensures_bind, (bindService_ensures _ l); [done..| |].
    - intros. apply test_error_now.
    - apply ensures_ret. ghost_norm. apply HQ. by intros _. }
  destruct (Preprocess _ _ _) as [processed|err]; [|apply test_here].
  repeat case_match; [..|apply test_here].
  - apply test_user_ensures. intros s' Q' (l' & Hl' & Hb) HQ'. unfold resolveUser.
    apply ensures_bind_ok, (resolveUser_ensures _ _ _ l'); [done..|].
    intros [u|err] binds new _; [apply ensures_ret|]; apply HQ'.
  - unfold test_dn_template. rewrite <-(grow_nil s). generalize (@nil (string * string)) as binds.
    generalize (@nil (SearchRequest * list Entry)) as new. intros new binds.
    replace (grow binds new s) with (open co (with_bound (bound l) l) (grow binds new s));
      [apply test_password_ensures|].
    unfold open. simpl. rewrite insert_id; [done|]. simpl. rewrite Hco. by destruct l.
  - unfold test_direct_bind. destruct (requireServiceSearch c); [|apply test_here].
    apply (test_user_ensures _ _ (λ _, _)). intros s' Q' (l' & Hl' & Hb) HQ'.
    apply (resolveUser_ensures _ _ _ l'); [done..|]. intros r binds new _. apply HQ'.
Qed.
End test.
End client.

(** ** Whole operations *)

Section operations.
Context `{UnicodeTables} `{LdapLibrary}.
Variable nfkc : string → string.
Variable budget : nat.
Variable c : Client.
Hypothesis Hvalid : valid_ldap (Client_Config c).

Lemma VerifyPassword_ensures request :
  ensures c (Verify_Password request) (VerifyPassword nfkc budget c request) idle
    (λ r s, conns s = ∅ ∧ ∀ v, r = Ok v → IsSuccess v = true →
       ∃ processed, Preprocess nfkc (Verify_Username request) (LDAP_Username (Client_Config c)) = Ok processed ∧
         success_ok c (Verify_Password request) (Value processed) (Verify_AttributeNames request) v
           (accepted s) (answered s)).
Proof.
  pose proof (valid_deployed c Hvalid) as Hdep. unfold VerifyPassword.
  case_match; [apply ensures_ret; split; [done|naive_solver]|].
  destruct (Preprocess _ _ _) as [processed|err] eqn:Hp; [|apply ensures_ret; split; [done|naive_solver]].
  apply ensures_bind_ok, (acquireConn_ensures _ _ Hdep); [by intros err|].
  intros co l binds _ Hl Hserver. apply ensures_bind.
  rewrite grow_open. apply (verify_by_mode_ensures nfkc budget c _ Hdep request eq_refl _ co l);
    [apply lookup_insert_eq|done|done|].
  intros [r reuse] l' binds' new Hpool Hok. simpl in Hpool.
  apply ensures_bind, (releaseConn_ensures c _ co l'); [apply lookup_insert_eq|done|].
  apply ensures_ret. unfold close. simpl. split.
  { rewrite !delete_insert_eq. by rewrite delete_empty. }
  intros v -> Hsuccess. exists processed. split; [done|]. intros _.
  destruct (Hok v eq_refl Hsuccess) as [(Hu & name & Hin & Hne & Hspeaks) Hrel].
  split; [|done]. split; [done|]. exists name. split_and!; [set_solver|done|done].
Qed.

Lemma TestConnection_ensures request :
  TestConnection_AllowInsecure request = false →
  ensures c (TestConnection_Password request) (TestConnection nfkc budget c request) idle
    (λ _ s, conns s = ∅).
Proof.
  intros Hinsecure. pose proof (valid_deployed c Hvalid) as Hdep. unfold TestConnection.
  rewrite Hinsecure.
  apply ensures_bind, (acquireConn_ensures _ _ Hdep); [by intros err|].
  intros co l binds _ Hl Hserver. apply ensures_bind. rewrite grow_open.
  apply (test_with_ensures nfkc budget c _ Hdep request eq_refl co l); [apply lookup_insert_eq|done|done|].
  intros [r reuse] l' binds' new Hpool. simpl in Hpool.
  apply ensures_bind, (releaseConn_ensures c _ co l'); [apply lookup_insert_eq|done|].
  apply ensures_ret. unfold close. simpl. rewrite !delete_insert_eq. by rewrite delete_empty.
Qed.
End operations.

(** C3: the LDAP client vouches for nobody the directory did not authenticate.
    With a configuration the validator accepts, [VerifyPassword] answers success
    only if the directory accepted, in this call, a bind with the submitted,
    non-empty password under the name that the lookup mode gives the username:
    the DN of the only entry the searches for the escaped username returned, the
    DN of the template, or the username itself, which must then match one entry.
    The subject of the answer is that entry's, or that DN.  Whatever the
    directory answers, the call follows the policy of [ldap_spec]: credentials
    over verified TLS only, the user's to configured endpoints only, searches as
    the service, referrals to listed endpoints only, no panic. *)
Theorem ldap_success_needs_bind `{UnicodeTables} `{LdapLibrary} (nfkc : string → string)
    (budget : nat) (c : Client) (request : VerifyPasswordRequest)
    (Hvalid : valid_ldap (Client_Config c)) :
  ensures c (Verify_Password request) (VerifyPassword nfkc budget c request) idle
    (λ r s, ∀ v, r = Ok v → IsSuccess v = true →
       ∃ processed,
         Preprocess nfkc (Verify_Username request) (LDAP_Username (Client_Config c)) = Ok processed ∧
         bind_evidence c (Verify_Password request) (Value processed) v (accepted s) (answered s)).
Proof.
  eapply ensures_mono; [by apply VerifyPassword_ensures|].
  intros r s [_ Hs] v Hv Hsuccess. destruct (Hs v Hv Hsuccess) as (processed & Hp & Hok).
  exists processed. split; [done|]. by apply Hok.
Qed.

(** Every connection of the call was closed or given to the pool. *)
Definition all_released (s : ghost) : Prop := conns s = ∅.

(** C10: connections are neither leaked nor shared out unsafely.  With a valid
    configuration, [VerifyPassword], and [TestConnection] unless it allows
    insecure TLS, use only connections they hold, close or pool every one of
    them on every path, and pool a connection only while it is bound as the
    service on verified TLS to a configured endpoint. *)
Theorem ldap_connections_released `{UnicodeTables} `{LdapLibrary} (nfkc : string → string)
    (budget : nat) (c : Client) (request : VerifyPasswordRequest) (test : TestConnectionRequest)
    (Hvalid : valid_ldap (Client_Config c)) (Htest : TestConnection_AllowInsecure test = false) :
  ensures c (Verify_Password request) (VerifyPassword nfkc budget c request) idle
    (λ _ s, all_released s) ∧
  ensures c (TestConnection_Password test) (TestConnection nfkc budget c test) idle
    (λ _ s, all_released s).
Proof.
  split; [|by apply TestConnection_ensures].
  eapply ensures_mono; [by apply VerifyPassword_ensures|]. by intros r s [? _].
Qed.

(** C15: a success releases no more than was asked for and configured: every
    attribute is non-empty, requested and listed in the configuration or the
    group attribute, and the groups keep to their limits: none unless asked
    for, at most [max_groups] from group searches, and from the breadth-first
    walk each once, at depths from 1 to [max_depth]. *)
Theorem ldap_release_limited `{UnicodeTables} `{LdapLibrary} (nfkc : string → string)
    (budget : nat) (c : Client) (request : VerifyPasswordRequest)
    (Hvalid : valid_ldap (Client_Config c)) :
  ensures c (Verify_Password request) (VerifyPassword nfkc budget c request) idle
    (λ r _, ∀ v, r = Ok v → IsSuccess v = true →
       release_allowed c (Verify_AttributeNames request) v).
Proof.
  eapply ensures_mono; [by apply VerifyPassword_ensures|].
  intros r s [_ Hs] v Hv Hsuccess. destruct (Hs v Hv Hsuccess) as (processed & Hp & Hok).
  by apply Hok.
Qed.
