(* ===== verification/LdapPaging.v ===== *)
(** * Paged searches end, if the server makes progress

    The paging loop of [searchWithPagingLimit] against a server that answers
    every page as it likes. *)

From S2P Require Import Prelude GoStrings GoTime Effects Config Directory LdapData Ldap.
Local Open Scope Z_scope.

(** A page that is not the last: the next one is asked for with its cookie. *)
Definition continues `{LdapLibrary} (r : SearchResult) : bool :=
  match FindPaging (ResultControls r) with
  | Some (ControlPaging _ cookie) => negb (cookie =? "")%string
  | _ => false
  end.

Section paging.
Context `{LdapLibrary}.
(** What the server may answer. *)
Variable answers : found → Prop.

(** The ghost state counts the pages asked for; the loop performs no other
    effect, and must not run out of the budget. *)
Definition paging_spec (R : Type) (e : effect R) : (R → nat → Prop) → nat → Prop :=
  match e in effect R return (R → nat → Prop) → nat → Prop with
  | Search _ _ => λ Q n, ∀ f, answers f → Q f (S n)
  | _ => λ _ _, False
  end.

Hypothesis progress : ∀ r err, answers (Some r, err) → continues r = true → Entries r ≠ [].

Lemma paging_loop_ends pages co request others pageSize maxEntries combined n
    (Q : SearchRequest * found → nat → Prop) :
  0 < maxEntries → Z.of_nat (length (Entries combined)) <= maxEntries →
  maxEntries < Z.of_nat pages + Z.of_nat (length (Entries combined)) →
  (∀ a n', (∀ r, a.2.1 = Some r → Z.of_nat (length (Entries r)) <= maxEntries) →
     Z.of_nat n' <= Z.of_nat n + maxEntries + 1 - Z.of_nat (length (Entries combined)) → Q a n') →
  wp paging_spec (paging_loop pages co request others pageSize maxEntries combined) Q n.
Proof.
  intros Hmax. revert request combined n. induction pages as [|pages IH];
    intros request combined n Hlen Hpages HQ; [simpl in *; lia|].
  cbn. intros [r err] Hanswer.
  assert (Hdone : ∀ a, (∀ r, a.2.1 = Some r → Z.of_nat (length (Entries r)) <= maxEntries) → Q a (S n)).
  { intros a Ha. apply HQ; [done|lia]. }
  destruct r as [r|]; cbn.
  2: { destruct err; apply Hdone; simpl; naive_solver. }
  change (bool_decide (is_Some (Some r))) with true. cbn [andb].
  destruct (Z.ltb_spec maxEntries (Z.of_nat (length (Entries combined ++ Entries r)))) as [|Hfits].
  { apply Hdone. intros ? [= <-]. simpl. rewrite length_take. lia. }
  assert (Hstop : ∀ err, Q (request, (Some (append_result combined r), err)) (S n)).
  { intros err'. apply Hdone. by intros ? [= <-]. }
  destruct err as [err|]; [apply Hstop|].
  pose proof (progress r None Hanswer) as Hnonempty. unfold continues in Hnonempty.
  destruct (FindPaging (ResultControls r)) as [[size cookie|other]|]; [|apply Hstop..].
  destruct (cookie =? "")%string eqn:Hcookie; [apply Hstop|].
  specialize (Hnonempty eq_refl). rewrite length_app in Hfits.
  assert (0 < length (Entries r))%nat by (destruct (Entries r); [done|simpl; lia]).
  apply IH; simpl; rewrite length_app; [lia..|].
  intros a n' Ha Hn'. apply HQ; [done|]. lia.
Qed.
End paging.

(** C27: a paged search ends and stays within its limit, if the server makes
    progress: when every page with a cookie holds at least one entry, a budget
    of more than [max_entries] pages is enough whatever the pages hold, at most
    [max_entries + 1] of them are asked for, and the result never has more than
    [max_entries] entries. *)
Theorem paged_search_ends `{LdapLibrary} (answers : found → Prop) (budget : nat) (co : conn)
    (request : SearchRequest) (pageSize maxEntries : Z)
    (Hprogress : ∀ r err, answers (Some r, err) → continues r = true → Entries r ≠ [])
    (Hbudget : maxEntries < Z.of_nat budget) :
  wp (paging_spec answers) (searchWithPagingLimit budget co request pageSize maxEntries)
    (λ '(_, (r, err)) pages,
       (∀ res, r = Some res → Z.of_nat (length (Entries res)) <= maxEntries) ∧
       Z.of_nat pages <= Z.max 0 maxEntries + 1) 0%nat.
Proof.
  unfold searchWithPagingLimit. destruct (Z.leb_spec maxEntries 0); simpl; [split; [done|lia]|].
  apply (paging_loop_ends answers Hprogress); simpl; [lia..|].
  intros [request' [r err]] n Hr Hn. split; [done|lia].
Qed.

(** The page a stalling server sends for ever. *)
Definition stalling_page : SearchResult :=
  {| Entries := []; Referrals := []; ResultControls := [ControlPaging 0 "cookie"] |}.

Section stalling.
Context `{LdapLibrary}.
Hypothesis Hfind : FindPaging (ResultControls stalling_page) = Some (ControlPaging 0 "cookie").

(** Every answer is that page; the loop may only stop for want of budget, after
    [budget] pages. *)
Definition stalling_spec (budget : nat) (R : Type) (e : effect R) : (R → nat → Prop) → nat → Prop :=
  match e in effect R return (R → nat → Prop) → nat → Prop with
  | Search _ _ => λ Q n, Q (Some stalling_page, None) (S n)
  | StillPaging => λ _ n, n = budget
  | _ => λ _ _, False
  end.

Lemma paging_loop_stalls pages co request others pageSize maxEntries combined n budget :
  0 < maxEntries → Entries combined = [] → (n + pages = budget)%nat →
  wp (stalling_spec budget) (paging_loop pages co request others pageSize maxEntries combined)
    (λ _ _, False) n.
Proof.
  intros Hmax. revert request combined n. induction pages as [|pages IH];
    intros request combined n He Hn; cbn; [lia|].
  change (bool_decide (is_Some (Some stalling_page))) with true. rewrite He. cbn.
  change (Z.of_nat 0) with 0. replace (maxEntries <? 0) with false by lia.
  cbn in Hfind. rewrite ?Hfind. cbn.
  apply IH; [by cbn; rewrite He|lia].
Qed.
End stalling.

(** C40: without that progress it does not end: against a server that answers
    every page empty but with a cookie, the search is still paging after any
    number of pages, since neither [max_entries] nor a deadline is tested
    between empty pages. *)
Theorem paged_search_endless `{LdapLibrary} (budget : nat) (co : conn) (request : SearchRequest)
    (pageSize maxEntries : Z)
    (Hfind : FindPaging (ResultControls stalling_page) = Some (ControlPaging 0 "cookie"))
    (Hmax : 0 < maxEntries) :
  wp (stalling_spec budget) (searchWithPagingLimit budget co request pageSize maxEntries)
    (λ _ _, False) 0%nat.
Proof.
  unfold searchWithPagingLimit. replace (maxEntries <=? 0) with false by lia.
  by apply paging_loop_stalls.
Qed.
