(* ===== verification/LdapRules.v ===== *)
(** * Rules of the LDAP client's pure parts

    Timeouts against the deadline of the request, errors of binds as verdicts,
    attribute selection, and what a username can do to a search filter. *)

From S2P Require Import Prelude GoStrings GoTime Config Directory LdapData Ldap LdapProofs.
Local Open Scope Z_scope.

(** ** Timeouts *)

(** The least number of whole seconds that covers a duration. *)
Definition least_seconds (t seconds : Z) : Prop :=
  seconds * Second - Second < t <= seconds * Second.

(** Operation timeouts respect the deadline: a timeout is granted exactly
    when the context has no error and its deadline is ahead; it is at least a
    millisecond, never more than what is left (but for that millisecond) nor
    than the configured value (but for that millisecond), and the time limit
    sent to the server is the least number of whole seconds that covers it. *)
Theorem timeouts_respect_deadline (ctxErr : option string) (remaining : option Z)
    (value fallback : Z) :
  (is_ok (timeoutWithinContext ctxErr remaining value fallback) = true ↔
     ctxErr = None ∧ ∀ r, remaining = Some r → 0 < r) ∧
  ∀ t, timeoutWithinContext ctxErr remaining value fallback = Ok t →
    Millisecond <= t /\
    t <= Z.max Millisecond (durationFromMS value fallback) /\
    (∀ r, remaining = Some r → t <= Z.max Millisecond r) /\
    least_seconds t (ldapTimeLimitSeconds t).
Proof.
  split.
  - unfold timeoutWithinContext. split.
    + intros Hok. repeat case_match; simplify_eq; try done; split; try done; intros; bool_to_prop; naive_solver.
    + intros [-> Hr]. repeat case_match; try done. bool_to_prop. specialize (Hr z eq_refl). lia.
  - intros t Ht. pose proof (timeoutWithinContext_ok _ _ _ _ _ Ht) as Hmin. split; [done|].
    split.
    { unfold timeoutWithinContext in Ht. repeat case_match; simplify_eq; lia. }
    split.
    { intros r ->. unfold timeoutWithinContext in Ht. repeat case_match; simplify_eq; lia. }
    unfold least_seconds, ldapTimeLimitSeconds, Millisecond, Second in *.
    replace (t <=? 0) with false by lia.
    pose proof (Z.quot_rem' t 1000000000). pose proof (Z.rem_bound_pos t 1000000000).
    destruct (Z.eqb_spec (Z.rem t 1000000000) 0); case_match; bool_to_prop; lia.
Qed.

(** ** Verdicts *)

(** The verdict on a user's bind that the directory refused with a result code. *)
Definition refused_bind (profile : DirectoryProfileConfig) (code : Z) (text : string)
    : option VerifyPasswordResult :=
  credentialVerdictFromBindError (normalizeLDAPError profile (LDAPError code text)).

(** Whether Active Directory's sub-codes are read. *)
Definition reads_sub_codes (profile : DirectoryProfileConfig) : bool :=
  (Profile_StatusNormalization profile =? "active_directory")%string ||
  (Profile_StatusNormalization profile =? "")%string && (Profile_Name profile =? "active_directory")%string.

(** The verdict for a sub-code. *)
Definition sub_code_verdict (code : option string) : VerifyPasswordResult :=
  match code with
  | Some "532" => PolicyRequiredVerification ReasonPasswordExpired
  | Some "533" => FailedVerification ReasonAccountDisabled
  | Some "773" => PolicyRequiredVerification ReasonMustChangePassword
  | Some "775" => FailedVerification ReasonAccountLocked
  | _ => FailedVerification ReasonInvalidCredentials
  end.

Lemma sub_code_cases code :
  credentialVerdictFromBindError
    (default (Sentinel ErrInvalidCredentials)
       (if (code =? "532")%string then Some (Sentinel ErrPasswordExpired)
        else if (code =? "533")%string then Some (Sentinel ErrAccountDisabled)
        else if (code =? "773")%string then Some (Sentinel ErrMustChangePassword)
        else if (code =? "775")%string then Some (Sentinel ErrAccountLocked)
        else None)) = Some (sub_code_verdict (Some code)).
Proof.
  destruct (String.eqb_spec code "532") as [->|?]; [done|].
  destruct (String.eqb_spec code "533") as [->|?]; [done|].
  destruct (String.eqb_spec code "773") as [->|?]; [done|].
  destruct (String.eqb_spec code "775") as [->|?]; [done|].
  cbn. unfold sub_code_verdict. repeat case_match; done.
Qed.

(** A refused bind becomes a verdict exactly when the result code is 49
    (invalid credentials): by the sub-code of the message where the profile
    reads Active Directory's, as invalid credentials otherwise; any other code
    stays an error.  No verdict on a refused bind is a success. *)
Theorem refused_bind_verdict (profile : DirectoryProfileConfig) (code : Z) (text : string) :
  refused_bind profile code text =
    (if code =? 49 then
       Some (sub_code_verdict
               (if reads_sub_codes profile then string_map lower_byte <$> data_code true text else None))
     else None) ∧
  (∀ v, refused_bind profile code text = Some v → IsSuccess v = false ∧ SafeReason v = Verify_Reason v).
Proof.
  assert (Heq : refused_bind profile code text =
    (if code =? 49 then
       Some (sub_code_verdict
               (if reads_sub_codes profile then string_map lower_byte <$> data_code true text else None))
     else None)).
  { unfold refused_bind, normalizeLDAPError, reads_sub_codes, IsErrorWithCode,
      LDAPResultInvalidCredentials, LDAPResultConnectError, LDAPResultReferral.
    destruct (Z.eqb_spec code 49) as [->|Hcode].
    - destruct (_ || _)%bool; [|done]. unfold normalizeADInvalidCredentialsError. cbn [error_text].
      destruct (data_code true text) as [sub|]; [|done].
      change (string_map lower_byte <$> Some sub) with (Some (string_map lower_byte sub)).
      rewrite <-sub_code_cases. repeat case_match; done.
    - by repeat case_match. }
  split; [done|]. intros v. rewrite Heq. case_match; [|done]. intros [= <-].
  destruct (if reads_sub_codes profile then _ else _) as [sub|]; [|done].
  unfold sub_code_verdict. repeat case_match; done.
Qed.

(** ** Filters *)

(** The bytes that structure a search filter (RFC 4515). *)
Definition filter_byte (b : ascii) : bool := existsb (Ascii.eqb b) ["("; ")"; "*"; "000"]%char.

Fixpoint filter_structure (s : string) : list ascii :=
  match s with
  | EmptyString => []
  | String b s => if filter_byte b then b :: filter_structure s else filter_structure s
  end.

Lemma filter_structure_app s t : filter_structure (s +:+ t) = filter_structure s ++ filter_structure t.
Proof.
  induction s as [|b s IH]; [done|]. rewrite append_cons. cbn. case_match; by rewrite IH.
Qed.

Lemma filter_structure_none s :
  string_all (λ b, negb (filter_byte b)) s = true → filter_structure s = [].
Proof.
  induction s as [|b s IH]; [done|]. cbn. intros [Hb Hs]%andb_prop.
  rewrite (proj1 (negb_true_iff _) Hb). auto.
Qed.

Lemma prefix_split old s :
  has_prefix s old = true → s = old +:+ drop_bytes (String.length old) s.
Proof.
  unfold has_prefix. revert s. induction old as [|b old IH]; intros s Hp; [done|].
  destruct s as [|d s]; [done|]. cbn in Hp.
  destruct (ascii_dec b d) as [->|]; [|done]. rewrite append_cons. cbn. f_equal. by apply IH.
Qed.

Lemma replace_all_structure fuel old by_ s :
  filter_structure old = [] → filter_structure by_ = [] →
  filter_structure (replace_all fuel old by_ s) = filter_structure s.
Proof.
  intros Hold Hby. revert s. induction fuel as [|fuel IH]; intros s; [done|].
  destruct s as [|b s]; [done|]. cbn [replace_all].
  destruct (has_prefix (String b s) old) eqn:Hp.
  - rewrite filter_structure_app, Hby, IH. simpl app.
    rewrite (prefix_split old (String b s) Hp) at 2. by rewrite filter_structure_app, Hold.
  - cbn. by rewrite IH.
Qed.

(** C19: a username cannot change the structure of a search filter.  If
    [EscapeFilter] leaves no parenthesis, asterisk or NUL byte, as RFC 4515 and
    the library's documentation have it, then whatever the username is, the
    filter the user is searched with has exactly the structuring bytes of the
    configured template, in their order. *)
Theorem user_filter_structure `{UnicodeTables} `{LdapLibrary} (c : Client) (username : string)
    (requested : list string) (timeout : Z)
    (Hescape : ∀ s, string_all (λ b, negb (filter_byte b)) (EscapeFilter s) = true) :
  filter_structure (Filter (user_search c username requested timeout)) =
  filter_structure (LDAP_UserFilter (Client_Config c)).
Proof.
  apply replace_all_structure; [done|]. apply filter_structure_none, Hescape.
Qed.
