(* ===== verification/LdapGroups.v ===== *)
(** * The breadth-first walk over groups computes nested membership

    [bfsGroupFacts] against a directory that answers every group search, compared
    with the membership chains of that directory: the walk returns the groups the
    user is in, directly or through other groups, each at its shortest distance. *)

From S2P Require Import Prelude GoStrings GoTime Effects Config Directory LdapData Ldap.
Local Open Scope Z_scope.

Section groups.
Context `{UnicodeTables} `{LdapLibrary}.
Variable budget : nat.
Variable c : Client.
(** The entries of the directory for a filter. *)
Variable entries_for : string → list Entry.

Abbreviation cfg := (Client_Config c).
Abbreviation max_groups := (Group_MaxGroups (LDAP_Groups cfg)).
Abbreviation max_depth := (Group_MaxDepth (LDAP_Groups cfg)).
Abbreviation paged := (Profile_PagedSearch (LDAP_DirectoryProfile cfg)).

(** The filter of the search for the groups of a member, and what is taken of its
    answer. *)
Definition group_filter (memberDN : string) : string :=
  "(" +:+ Group_SearchMemberAttribute (LDAP_Groups cfg) +:+ "=" +:+ EscapeFilter memberDN +:+ ")".

Definition groups_of (memberDN : string) : list Entry :=
  take (Z.to_nat max_groups) (entries_for (group_filter memberDN)).

(** [chain n user g]: [g] is reached from [user] by [n] memberships. *)
Inductive chain (user : string) : nat → string → Prop :=
| chain_user : chain user 0 user
| chain_member n d e : chain user n d → e ∈ groups_of d → chain user (S n) (DN e).

(** ** A directory that answers *)

(** Nothing is cancelled, time is left, and a search is answered in one page,
    without referrals. *)
Definition answering_spec (R : Type) (e : effect R) : (R → unit → Prop) → unit → Prop :=
  match e in effect R return (R → unit → Prop) → unit → Prop with
  | ContextErr => λ Q s, Q None s
  | UntilDeadline => λ Q s, ∀ r, match r with Some d => 0 < d | None => True end → Q r s
  | SetTimeout _ _ => λ Q s, Q tt s
  | Search _ request => λ Q s,
      Q (Some {| Entries := entries_for (Filter request); Referrals := []; ResultControls := [] |}, None) s
  | _ => λ _ _, False
  end.

Lemma answering_spec_mono R (e : effect R) (P Q : R → unit → Prop) s :
  (∀ r s', P r s' → Q r s') → answering_spec R e P s → answering_spec R e Q s.
Proof. intros HPQ. destruct e; simpl; naive_solver. Qed.

Abbreviation answers p Q := (wp answering_spec p (λ a _, Q a) tt).

Lemma answers_bind {A B} (p : io A) (f : A → io B) Q :
  answers p (λ a, answers (f a) Q) → answers (bind p f) Q.
Proof.
  intros Hp. apply (wp_bind answering_spec answering_spec_mono).
  eapply (wp_mono answering_spec answering_spec_mono); [|exact Hp]. by intros a [].
Qed.

Lemma answers_bind_ok {A B} (p : io (result error A)) (f : A → io (result error B)) Q :
  answers p (λ r, match r with Ok a => answers (f a) Q | Err err => Q (Err err) end) →
  answers (bind_ok p f) Q.
Proof.
  intros Hp. apply answers_bind. eapply (wp_mono answering_spec answering_spec_mono); [|exact Hp].
  by intros [a|err] [].
Qed.

Lemma within_context_answers value fallback Q :
  (∀ timeout, Q (Ok timeout)) → answers (within_context value fallback) Q.
Proof.
  intros HQ. simpl. intros [r|] Hr; [|apply HQ]. destruct (Z.leb_spec r 0); [lia|apply HQ].
Qed.

(** What the search of one page needs: a library that finds no paging control in
    no controls, and entries that fit. *)
Definition fits (filter : string) : Prop :=
  PagedSearch_Enabled paged = true →
  (0 < budget)%nat ∧ FindPaging [] = None ∧ 0 < PagedSearch_MaxEntries paged ∧
  Z.of_nat (length (entries_for filter)) <= PagedSearch_MaxEntries paged.

Lemma searchOnce_answers co request Q :
  fits (Filter request) →
  (∀ request', Q (request', (Some {| Entries := entries_for (Filter request); Referrals := [];
                                    ResultControls := [] |}, None))) →
  answers (searchOnce budget c co request) Q.
Proof.
  intros Hfits HQ. unfold searchOnce. destruct (PagedSearch_Enabled paged) eqn:Hon; simpl negb; cbn iota;
    [|apply HQ].
  destruct (Hfits Hon) as (Hbudget & Hfind & Hmax & Hlen).
  apply answers_bind, within_context_answers. intros timeout. unfold searchWithPagingLimit.
  destruct (Z.leb_spec (PagedSearch_MaxEntries paged) 0); [lia|]. destruct budget as [|pages]; [lia|].
  simpl. destruct (Z.ltb_spec (PagedSearch_MaxEntries paged)
    (Z.of_nat (length (entries_for (Filter request))))); [lia|]. rewrite ?andb_false_r, Hfind. apply HQ.
Qed.

Lemma searchGroupEntries_answers co memberDN Q :
  0 < max_groups → fits (group_filter memberDN) → Q (Ok (groups_of memberDN)) →
  answers (searchGroupEntries budget c co (group_filter memberDN)) Q.
Proof.
  intros Hmax Hfits HQ. unfold searchGroupEntries.
  apply answers_bind_ok. unfold setOperationTimeout. apply answers_bind_ok, within_context_answers.
  intros timeout. simpl. apply answers_bind. unfold search. apply answers_bind.
  apply searchOnce_answers; [done|]. intros request'. simpl. unfold groups_of in HQ.
  apply answers_bind_ok. simpl.
  destruct (Z.ltb_spec max_groups (Z.of_nat (length (entries_for (group_filter memberDN))))).
  - destruct (Z.ltb_spec max_groups 0); [lia|]. exact HQ.
  - by rewrite take_ge in HQ by lia.
Qed.

(** ** One level *)

Lemma bfs_entries_spec depth entries b :
  facts_full c b = false →
  let b' := bfs_entries c depth entries b in
  ∃ new,
    facts b' = facts b ++ ((λ e, groupFactFromEntry cfg e "bfs_member_search" depth) <$> new) ∧
    seen b' = list_to_set (DN <$> new) ∪ seen b ∧ NoDup (DN <$> new) ∧
    (∀ e, e ∈ new → e ∈ entries ∧ DN e ∉ seen b) ∧
    (facts_full c b' = false →
     next b' = next b ++ (DN <$> new) ∧ ∀ e, e ∈ entries → DN e ∈ seen b').
Proof.
  revert b. induction entries as [|e entries IH]; intros b Hroom.
  { exists []. simpl. rewrite !app_nil_r. split_and!; try done; [set_solver|constructor|set_solver|].
    intros _. split; [done|set_solver]. }
  cbn [bfs_entries]. case_bool_decide as Hseen.
  - destruct (IH b Hroom) as (new & Hfacts & Hs & Hdup & Hnew & Hnext). exists new.
    split_and!; [done..|set_solver|]. intros Hfull. destruct (Hnext Hfull) as [Hn Hall]. split; [done|].
    intros e' [->|Hin]%elem_of_cons; [rewrite Hs; set_solver|by apply Hall].
  - set (b1 := {| seen := {[DN e]} ∪ seen b;
                  facts := facts b ++ [groupFactFromEntry cfg e "bfs_member_search" depth]; next := next b |}).
    destruct (facts_full c b1) eqn:Hfull1.
    + exists [e]. simpl. split_and!; try done; [set_solver|apply NoDup_singleton|set_solver|].
      intros Hfull. congruence.
    + destruct (IH {| seen := seen b1; facts := facts b1; next := next b1 ++ [DN e] |}) as
        (new & Hfacts & Hs & Hdup & Hnew & Hnext); [done|]. simpl in *. exists (e :: new).
      rewrite fmap_cons. split_and!.
      * rewrite Hfacts. unfold b1. simpl. by rewrite <-(assoc_L (++)).
      * rewrite Hs. unfold b1. simpl. set_solver.
      * constructor; [|done]. intros (e' & He & Hin)%list_elem_of_fmap. destruct (Hnew e' Hin) as [_ Hns].
        apply Hns. rewrite <-He. set_solver.
      * intros e' [->|Hin]%elem_of_cons; [split; [by left|done]|].
        destruct (Hnew e' Hin) as [Hi Hns]. split; [by right|]. set_solver.
      * intros Hfull. destruct (Hnext Hfull) as [Hn Hall]. split.
        { rewrite Hn. simpl. by rewrite <-(assoc_L (++)). }
        intros e' [->|Hin]%elem_of_cons; [rewrite Hs; set_solver|by apply Hall].
Qed.

(** The walk over a level, on the answers of the directory. *)
Fixpoint level (depth : Z) (frontier : list string) (b : bfs) : bfs :=
  match frontier with
  | [] => b
  | memberDN :: frontier =>
      let b := bfs_entries c depth (groups_of memberDN) b in
      if facts_full c b then b else level depth frontier b
  end.

Lemma level_spec depth frontier b :
  facts_full c b = false →
  let b' := level depth frontier b in
  ∃ new,
    facts b' = facts b ++ ((λ e, groupFactFromEntry cfg e "bfs_member_search" depth) <$> new) ∧
    seen b' = list_to_set (DN <$> new) ∪ seen b ∧ NoDup (DN <$> new) ∧
    (∀ e, e ∈ new → (DN e ∉ seen b) ∧ (∃ d, d ∈ frontier ∧ e ∈ groups_of d)) ∧
    (facts_full c b' = false →
     next b' = next b ++ (DN <$> new) ∧ ∀ d e, d ∈ frontier → e ∈ groups_of d → DN e ∈ seen b').
Proof.
  revert b. induction frontier as [|d frontier IH]; intros b Hroom.
  { exists []. simpl. rewrite !app_nil_r. split_and!; try done; [set_solver|constructor|set_solver|].
    intros _. split; [done|set_solver]. }
  cbn [level]. destruct (bfs_entries_spec depth (groups_of d) b Hroom) as
    (new1 & Hfacts1 & Hs1 & Hdup1 & Hnew1 & Hnext1).
  destruct (facts_full c (bfs_entries c depth (groups_of d) b)) eqn:Hfull1; cbn zeta.
  { exists new1. split_and!; try done.
    - intros e He. destruct (Hnew1 e He) as [Hin Hns]. split; [done|]. exists d. split; [by left|done].
    - intros Hfull. congruence. }
  destruct (Hnext1 eq_refl) as [Hn1 Hall1].
  destruct (IH _ Hfull1) as (new2 & Hfacts2 & Hs2 & Hdup2 & Hnew2 & Hnext2). exists (new1 ++ new2).
  rewrite !fmap_app. split_and!.
  - by rewrite Hfacts2, Hfacts1, (assoc_L (++)).
  - rewrite Hs2, Hs1. set_solver.
  - apply NoDup_app. split_and!; [done| |done].
    intros dn Hdn (e & -> & He)%list_elem_of_fmap. destruct (Hnew2 e He) as [Hns _]. apply Hns.
    rewrite Hs1. set_solver.
  - intros e [He|He]%elem_of_app.
    + destruct (Hnew1 e He) as [Hin Hns]. split; [done|]. exists d. split; [by left|done].
    + destruct (Hnew2 e He) as (Hns & d' & Hd' & Hin). split; [set_solver|]. exists d'. split; [by right|done].
  - intros Hfull. destruct (Hnext2 Hfull) as [Hn2 Hall2]. split.
    { by rewrite Hn2, Hn1, (assoc_L (++)). }
    intros d' e [->|Hd']%elem_of_cons He; [|by eapply Hall2]. rewrite Hs2. apply elem_of_union_r. by apply Hall1.
Qed.

Hypothesis some_groups : 0 < max_groups.
Hypothesis all_fit : ∀ dn, fits (group_filter dn).

Lemma bfs_frontier_answers co depth frontier b Q :
  Q (true, level depth frontier b) → answers (bfs_frontier budget c co depth frontier b) Q.
Proof.
  revert b. induction frontier as [|d frontier IH]; intros b HQ; [done|]. cbn [bfs_frontier].
  apply answers_bind, searchGroupEntries_answers; [done|apply all_fit|]. cbn [level] in HQ. cbn zeta.
  destruct (facts_full c (bfs_entries c depth (groups_of d) b)); [exact HQ|by apply IH].
Qed.

(** ** All levels *)

Section walk.
Variable user : string.

(** The fact is of a group the user is in, at the length of the shortest chain. *)
Definition shortest (f : GroupFact) : Prop :=
  ∃ m, (1 ≤ m)%nat ∧ GroupFact_Depth f = Z.of_nat m ∧ chain user m (GroupFact_DN f) ∧
       ∀ k, (1 ≤ k < m)%nat → ¬ chain user k (GroupFact_DN f).

(** Before level [n + 1]: the frontier are the groups at distance [n], and every
    nearer group has been seen. *)
Record reached (n : nat) (frontier : list string) (b : bfs) : Prop := {
  reached_frontier : ∀ g, g ∈ frontier → chain user n g;
  reached_all_frontier : ∀ d, chain user n d → d ∈ frontier ∨ ∃ m, (S m ≤ n)%nat ∧ chain user m d;
  reached_seen : ∀ g, g ∈ seen b ↔ g ∈ GroupFact_DN <$> facts b;
  reached_nodup : NoDup (GroupFact_DN <$> facts b);
  reached_facts : ∀ f, f ∈ facts b → shortest f ∧ GroupFact_Depth f <= Z.of_nat n;
  reached_all : ∀ m g, (1 ≤ m ≤ n)%nat → chain user m g → g ∈ seen b;
}.

Lemma reached_start : reached 0 [user] {| seen := ∅; facts := []; next := [] |}.
Proof.
  constructor; cbn [seen facts].
  - intros g ->%list_elem_of_singleton. constructor.
  - intros d Hd. inversion Hd; subst. left. by left.
  - intros g. by rewrite elem_of_empty, elem_of_nil.
  - constructor.
  - by intros f ?%not_elem_of_nil.
  - lia.
Qed.

(** A group that is at hand at a level and not seen is at its shortest distance. *)
Lemma reached_shortest n frontier b d e :
  reached n frontier b → d ∈ frontier → e ∈ groups_of d → DN e ∉ seen b →
  shortest (groupFactFromEntry cfg e "bfs_member_search" (Z.of_nat (S n))).
Proof.
  intros Hr Hd He Hns. exists (S n). simpl. split_and!; [lia|done| |].
  - apply (chain_member user n d e); [by apply (reached_frontier _ _ _ Hr)|done].
  - intros k Hk Hc. apply Hns. apply (reached_all _ _ _ Hr k); [lia|done].
Qed.

Lemma level_reached n frontier b :
  reached n frontier b → facts_full c b = false →
  let b' := level (Z.of_nat (S n)) frontier {| seen := seen b; facts := facts b; next := [] |} in
  NoDup (GroupFact_DN <$> facts b') ∧
  (∀ f, f ∈ facts b' → shortest f ∧ GroupFact_Depth f <= Z.of_nat (S n)) ∧
  (facts_full c b' = false → reached (S n) (next b') b').
Proof.
  intros Hr Hroom b'. destruct (level_spec (Z.of_nat (S n)) frontier
    {| seen := seen b; facts := facts b; next := [] |} Hroom) as (new & Hfacts & Hseen & Hdup & Hnew & Hnext).
  fold b' in Hfacts, Hseen, Hnext. simpl in *.
  assert (Hdns : GroupFact_DN <$> facts b' = (GroupFact_DN <$> facts b) ++ (DN <$> new)).
  { rewrite Hfacts, fmap_app. f_equal. rewrite <-list_fmap_compose. by apply list_fmap_ext. }
  assert (Hnodup : NoDup (GroupFact_DN <$> facts b')).
  { rewrite Hdns. apply NoDup_app. split_and!; [apply Hr| |done].
    intros g Hg (e & -> & He)%list_elem_of_fmap. destruct (Hnew e He) as [Hns _]. apply Hns. by apply Hr. }
  assert (Hall : ∀ f, f ∈ facts b' → shortest f ∧ GroupFact_Depth f <= Z.of_nat (S n)).
  { intros f. rewrite Hfacts. intros [Hf|(e & -> & He)%list_elem_of_fmap]%elem_of_app.
    - destruct (reached_facts _ _ _ Hr f Hf). split; [done|lia].
    - destruct (Hnew e He) as (Hns & d & Hd & Hin). split; [by apply (reached_shortest n frontier b d)|].
      simpl. lia. }
  split_and!; [done..|]. intros Hfull. destruct (Hnext Hfull) as [Hn Hcover].
  assert (Hcomplete : ∀ m g, (1 ≤ m ≤ S n)%nat → chain user m g → g ∈ seen b').
  { intros m g Hm Hc. destruct (decide (m ≤ n)%nat) as [Hle|Hgt].
    { rewrite Hseen. apply elem_of_union_r. apply (reached_all _ _ _ Hr m); [lia|done]. }
    assert (m = S n) as -> by lia. inversion Hc as [|? d e Hd He]; subst.
    destruct (reached_all_frontier _ _ _ Hr d Hd) as [Hin|(m & Hm' & Hd')]; [by apply (Hcover d)|].
    rewrite Hseen. apply elem_of_union_r. apply (reached_all _ _ _ Hr (S m)); [lia|].
    by apply (chain_member user m d e). }
  constructor; try done.
  - intros g. rewrite Hn. intros (e & -> & He)%list_elem_of_fmap.
    destruct (Hnew e He) as (_ & d & Hd & Hin). apply (chain_member user n d e); [|done]. by apply Hr.
  - intros d Hd. pose proof (Hcomplete (S n) d ltac:(lia) Hd) as Hin. rewrite Hseen in Hin.
    apply elem_of_union in Hin as [Hin|Hin]; [left; rewrite Hn; set_solver|right].
    apply (reached_seen _ _ _ Hr) in Hin. apply list_elem_of_fmap in Hin as (f & -> & Hf).
    destruct (reached_facts _ _ _ Hr f Hf) as [(m & Hm & Hdepth & Hc & _) Hle]. exists m. split; [lia|done].
  - intros g. rewrite Hdns, Hseen, elem_of_union, elem_of_app, (reached_seen _ _ _ Hr g). set_solver.
Qed.

(** An empty frontier: everything in reach is nearer. *)
Lemma reached_near n b k d :
  reached n [] b → chain user k d → ∃ m, (S m ≤ n)%nat ∧ chain user m d.
Proof.
  intros Hr Hd. assert (Hfar : ∀ g, chain user n g → ∃ m, (S m ≤ n)%nat ∧ chain user m g).
  { intros g Hg. destruct (reached_all_frontier _ _ _ Hr g Hg) as [[]%not_elem_of_nil|Hnear]; exact Hnear. }
  induction Hd as [|k d e Hd (m & Hm & Hdm) He].
  - destruct (decide (1 ≤ n)%nat); [exists 0%nat; split; [done|constructor]|].
    assert (n = 0%nat) as -> by lia. apply Hfar. constructor.
  - assert (Hc : chain user (S m) (DN e)) by by apply (chain_member user m d e).
    destruct (decide (S (S m) ≤ n)%nat); [by exists (S m)|].
    assert (n = S m) as -> by lia. by apply Hfar.
Qed.

Lemma reached_end n b m g :
  reached n [] b → (1 ≤ m)%nat → chain user m g → g ∈ seen b.
Proof.
  intros Hr Hm Hc. inversion Hc as [|k d e Hd He]; subst; [lia|].
  destruct (reached_near n b k d Hr Hd) as (j & Hj & Hdj).
  apply (reached_all _ _ _ Hr (S j)); [lia|]. by apply (chain_member user j d e).
Qed.

(** What the walk returns when it may use [levels] levels more than [n]. *)
Definition complete_to (depth : nat) (fs : list GroupFact) : Prop :=
  NoDup (GroupFact_DN <$> fs) ∧
  (∀ f, f ∈ fs → shortest f ∧ GroupFact_Depth f <= Z.of_nat depth) ∧
  (Z.of_nat (length fs) < max_groups →
   ∀ m g, (1 ≤ m ≤ depth)%nat → chain user m g → g ∈ GroupFact_DN <$> fs).

Lemma reached_complete n frontier b depth :
  reached n frontier b → (n ≤ depth)%nat →
  (facts_full c b = false → ∀ m g, (1 ≤ m ≤ depth)%nat → chain user m g → g ∈ seen b) →
  complete_to depth (facts b).
Proof.
  intros Hr Hn Hall. split_and!; [apply Hr| |].
  - intros f Hf. destruct (reached_facts _ _ _ Hr f Hf). split; [done|lia].
  - intros Hroom m g Hm Hc. apply (reached_seen _ _ _ Hr), (Hall ltac:(unfold facts_full; lia) m); done.
Qed.

Lemma full_levels co levels depth frontier b Q :
  facts_full c b = true → Q (facts b) → answers (bfs_levels budget c levels co depth frontier b) Q.
Proof. intros Hfull HQ. destruct levels; [done|]. cbn [bfs_levels]. by rewrite Hfull, orb_true_r. Qed.

Lemma levels_answer co levels n frontier b Q :
  reached n frontier b → (∀ fs, complete_to (n + levels) fs → Q fs) →
  answers (bfs_levels budget c levels co (Z.of_nat (S n)) frontier b) Q.
Proof.
  revert n frontier b. induction levels as [|levels IH]; intros n frontier b Hr HQ.
  { apply HQ, (reached_complete n frontier b); [done|lia|].
    intros _ m g Hm. apply (reached_all _ _ _ Hr). lia. }
  cbn [bfs_levels]. destruct (empty_list frontier) eqn:Hempty; simpl orb; cbn iota.
  { destruct frontier; [|done]. apply HQ, (reached_complete n [] b); [done|lia|].
    intros _ m g Hm. apply (reached_end n b m g Hr). lia. }
  destruct (facts_full c b) eqn:Hroom.
  { apply HQ, (reached_complete n frontier b); [done|lia|congruence]. }
  apply answers_bind, bfs_frontier_answers. cbv beta iota zeta.
  destruct (level_reached n frontier b Hr Hroom) as (Hdup & Hfacts & Hnext).
  replace (Z.of_nat (S n) + 1) with (Z.of_nat (S (S n))) by lia.
  destruct (facts_full c (level (Z.of_nat (S n)) frontier
    {| seen := seen b; facts := facts b; next := [] |})) eqn:Hfull.
  - apply full_levels; [done|]. apply HQ. split_and!; [done| |].
    + intros f Hf. destruct (Hfacts f Hf). split; [done|lia].
    + unfold facts_full in Hfull. lia.
  - apply IH; [by apply Hnext|]. intros fs Hfs. apply HQ. by replace (n + S levels)%nat with (S n + levels)%nat by lia.
Qed.

End walk.

(** C16: Breadth-first group membership is nested membership at its shortest
    distance.  Against a directory that answers every search, the walk returns
    every group once, and only groups the user is in through a chain of
    memberships, each at the length of the shortest such chain and within the
    configured depth; and when fewer groups than the configured maximum come
    back, every group in reach at that depth is among them. *)
Theorem bfs_groups_correct co userDN :
  answers (bfsGroupFacts budget c co userDN) (complete_to userDN (Z.to_nat max_depth)).
Proof.
  unfold bfsGroupFacts. change 1 with (Z.of_nat 1). apply (levels_answer userDN); [apply reached_start|done].
Qed.

End groups.
