(* ===== verification/LdapExamples.v ===== *)
(** * The LDAP client against a small directory

    An executable interpretation of the client's effects, runs of its operations
    on it, and the instances of the theorems there. *)

From S2P Require Import Prelude GoStrings GoTime Effects Config Defaults Username Directory Url Validate ValidateProofs LdapData Ldap LdapSpec LdapProofs LdapPaging LdapRules LdapGroups.
Local Open Scope Z_scope.

#[local] Existing Instance ascii_only_tables.

(** ** A stand-in for the library's functions on data *)

Definition hex_byte (b : ascii) : string :=
  String (hex_digit (byte_code b / 16)) (String (hex_digit (byte_code b mod 16)) "").

Fixpoint escape_bytes (unsafe : ascii → bool) (s : string) : string :=
  match s with
  | EmptyString => EmptyString
  | String b s =>
      if unsafe b then String backslash (hex_byte b) +:+ escape_bytes unsafe s
      else String b (escape_bytes unsafe s)
  end.

#[local] Instance example_library : LdapLibrary := {|
  EscapeFilter := escape_bytes (λ b, filter_byte b || Ascii.eqb b backslash);
  EscapeDN := escape_bytes (λ b, existsb (Ascii.eqb b) [","; "+"; "="; "<"; ">"; ";"; "#"]%char);
  GetAttributeValues entry name :=
    default [] (Attr_Values <$>
      list_find (λ attr, Attr_Name attr = name) (Entry_Attributes entry) ≫= λ p, Some p.2);
  FindPaging controls :=
    snd <$> list_find (λ control, GetControlType control = ControlTypePaging) controls
|}.

(** ** The directory *)

Record world := {
  w_next : conn;
  w_links : gmap conn link;
  w_idle : list conn;
  (** every bind: the connection as it was, the name, the password, and whether
      the directory accepted it *)
  w_binds : list (link * string * string * bool);
}.

Definition empty_world : world := {| w_next := 0%nat; w_links := ∅; w_idle := []; w_binds := [] |}.

Section directory.
Variable credentials : list (string * string).
(** The entries for a filter. *)
Variable entries_for : string → list Entry.

Definition set_links (w : world) (m : gmap conn link) : world :=
  {| w_next := w_next w; w_links := m; w_idle := w_idle w; w_binds := w_binds w |}.

Definition directory_bind (co : conn) (l : link) (name pw : string) (w : world)
    : option error * world :=
  let ok := bool_decide ((name, pw) ∈ credentials) in
  (if ok then None else Some (LDAPError 49 "invalid credentials"),
   {| w_next := w_next w;
      w_links := <[co := with_bound (if ok then Some (name, pw) else None) l]> (w_links w);
      w_idle := w_idle w; w_binds := w_binds w ++ [(l, name, pw, ok)] |}).

Definition directory_effect (R : Type) (e : effect R) (w : world) : option (R * world) :=
  match e in effect R return option (R * world) with
  | ContextErr => Some (None, w)
  | UntilDeadline => Some (Some (2 * Second), w)
  | PoolGet =>
      match w_idle w with
      | [] => Some (None, w)
      | co :: idle => Some (Some co, {| w_next := w_next w; w_links := w_links w;
                                        w_idle := idle; w_binds := w_binds w |})
      end
  | PoolPut co => Some (true, {| w_next := w_next w; w_links := w_links w;
                                 w_idle := w_idle w ++ [co]; w_binds := w_binds w |})
  | DialURL endpoint timeout tls =>
      match Parse endpoint with
      | None => Some (Err (OtherError "bad address"), w)
      | Some u =>
          Some (Ok (w_next w),
            {| w_next := S (w_next w);
               w_links := <[w_next w := dialled endpoint u tls]> (w_links w);
               w_idle := w_idle w; w_binds := w_binds w |})
      end
  | StartTLS co tls =>
      match w_links w !! co with
      | Some l => Some (None, set_links w (<[co := with_tls tls l]> (w_links w)))
      | None => Some (Some (OtherError "closed"), w)
      end
  | SetTimeout co timeout => Some (tt, w)
  | Bind co name pw =>
      match w_links w !! co with
      | Some l => Some (directory_bind co l name pw w)
      | None => Some (Some (OtherError "closed"), w)
      end
  | Search co request =>
      Some ((Some {| Entries := entries_for (Filter request); Referrals := [];
                     ResultControls := [] |}, None), w)
  | Close co => Some (tt, set_links w (delete co (w_links w)))
  | ReadFile path => Some (Err "no such file", w)
  | SystemCertPool => Some (true, w)
  | AppendCertsFromPEM pem => Some (true, w)
  | StillPaging | Panic => None
  end.
End directory.

(** ** A configuration for it, completed by the defaults *)

Definition example_ldap_paged (paged : bool) (profile strategy : string) (groups : bool) (maxIdle : Z)
    : LDAPConfig :=
  ldap_defaults {|
    LDAP_URL := "ldaps://dc1.example:636"; LDAP_URLs := [];
    LDAP_TLS := {| LDAPTLS_Verify := true; LDAPTLS_ServerName := ""; LDAPTLS_CAFileRef := "";
                   LDAPTLS_StartTLS := false |};
    LDAP_DirectoryProfile := {| Profile_Name := profile; Profile_SubjectAttribute := "";
      Profile_IdentifierAttributes := []; Profile_GroupStrategy := strategy;
      Profile_StatusNormalization := "";
      Profile_PagedSearch := {| PagedSearch_Enabled := paged; PagedSearch_PageSize := 0;
                                PagedSearch_MaxEntries := 0; PagedSearch_TimeoutMS := 0 |} |};
    LDAP_LookupMode := "search_then_bind";
    LDAP_Username := {| Username_AllowedFormats := []; Username_AllowedDomains := [];
      Username_AllowedUPNSuffixes := [];
      Username_Normalization := {| Normalization_Trim := true; Normalization_Unicode := "";
        Normalization_Case := "lower"; Normalization_RejectDomainMismatch := false |} |};
    LDAP_BindDN := "cn=svc"; LDAP_BindPasswordRef := "env:LDAP_BIND"; LDAP_BaseDN := "dc=example";
    LDAP_DNTemplate := ""; LDAP_UserFilter := "(uid={username})"; LDAP_FilterTemplateMode := "";
    LDAP_Attributes := ["mail"];
    LDAP_Referrals := {| Referral_Mode := ""; Referral_AllowedURLs := [];
                         Referral_AllowServiceBindReuse := false |};
    LDAP_Groups := {| Group_Enabled := groups; Group_MemberAttribute := "";
      Group_SearchMemberAttribute := "member"; Group_ResponseAttribute := "";
      Group_IDAttribute := ""; Group_DisplayAttribute := ""; Group_SearchBaseDN := "";
      Group_MaxDepth := 3; Group_MaxGroups := 5; Group_TimeoutMS := 0 |};
    LDAP_Pool := {| Pool_MaxIdle := maxIdle |} |}.

Definition example_ldap : string → string → bool → Z → LDAPConfig := example_ldap_paged false.

Definition example_timeouts : TimeoutConfig :=
  {| Timeout_LDAPConnectMS := 500; Timeout_LDAPBindMS := 1500; Timeout_LDAPSearchMS := 1000;
     Timeout_RequestMS := 2500 |}.

Definition example_client (profile strategy : string) (groups : bool) (maxIdle : Z) : Client :=
  NewClient (example_ldap profile strategy groups maxIdle) "svc-secret" example_timeouts.

Lemma example_valid : valid_ldap (example_ldap "active_directory" "bfs_member_search" true 2).
Proof. apply (validateLDAP_nil "ldap"). vm_compute. reflexivity. Qed.

(** Alice, in a group that is in two groups, one of which contains the first. *)
Definition alice_dn : string := "CN=Alice,DC=example".

Definition attribute (name : string) (values : list string) : EntryAttribute :=
  {| Attr_Name := name; Attr_Values := values; Attr_ByteValues := values |}.

Definition group_entry (name : string) : Entry :=
  {| DN := "CN=" +:+ name; Entry_Attributes := [attribute "cn" [name]] |}.

Definition example_entries (filter : string) : list Entry :=
  if (filter =? "(uid=alice)")%string then
    [{| DN := alice_dn;
        Entry_Attributes := [attribute "objectGUID" ["GUID"]; attribute "mail" ["alice@example"]] |}]
  else if (filter =? "(member=CN=Alice,DC=example)")%string then [group_entry "staff"]
  else if (filter =? "(member=CN=staff)")%string then [group_entry "all"; group_entry "vpn"]
  else if (filter =? "(member=CN=vpn)")%string then [group_entry "staff"]
  else [].

Definition example_credentials : list (string * string) :=
  [("cn=svc", "svc-secret"); (alice_dn, "pw")].

Definition run_example {A} (p : io A) (w : world) : option (A * world) :=
  run_partial (directory_effect example_credentials example_entries) p w.

Definition verify_alice (c : Client) (password : string) : io (result error VerifyPasswordResult) :=
  VerifyPassword (λ s, s) 8 c
    {| Verify_Username := " Alice "; Verify_Password := password;
       Verify_AttributeNames := ["mail"; "groups"; "objectGUID"] |}.

Definition ad_client : Client := example_client "active_directory" "bfs_member_search" true 2.

(** Success: the subject is the GUID, the groups are walked to depth 3, and the
    connection, bound as the service again, goes to the pool. *)
Example verify_success :
  (λ '(r, w), (r, w_idle w, bound <$> w_links w !! 0%nat)) <$>
    run_example (verify_alice ad_client "pw") empty_world =
  Some (Ok (SuccessfulVerification
              {| DirectoryID := "R1VJRA"; Subject_Username := "alice" |}
              {[ "mail" := ["alice@example"] ]}
              [[{| GroupFact_ID := "staff"; GroupFact_DN := "CN=staff"; GroupFact_Display := "staff";
                   GroupFact_Source := "bfs_member_search"; GroupFact_Depth := 1 |};
                {| GroupFact_ID := "all"; GroupFact_DN := "CN=all"; GroupFact_Display := "all";
                   GroupFact_Source := "bfs_member_search"; GroupFact_Depth := 2 |};
                {| GroupFact_ID := "vpn"; GroupFact_DN := "CN=vpn"; GroupFact_Display := "vpn";
                   GroupFact_Source := "bfs_member_search"; GroupFact_Depth := 2 |}]]),
        [0%nat], Some (Some ("cn=svc", "svc-secret"))).
Proof. vm_compute. reflexivity. Qed.

Example verify_wrong_password :
  (λ '(r, w), (r, w_idle w, map_size (w_links w))) <$>
    run_example (verify_alice ad_client "guess") empty_world =
  Some (Ok (FailedVerification ReasonInvalidCredentials), [], 0%nat).
Proof. vm_compute. reflexivity. Qed.

(** ** The theorems at this client *)

Definition alice_request (password : string) : VerifyPasswordRequest :=
  {| Verify_Username := "alice"; Verify_Password := password; Verify_AttributeNames := ["mail"] |}.

Definition alice_test (password : string) (insecure : bool) : TestConnectionRequest :=
  {| TestConnection_Username := "alice"; TestConnection_Password := password;
     TestConnection_TestPassword := true; TestConnection_AllowInsecure := insecure |}.

Lemma ldap_success_needs_bind_witness :
  ensures ad_client "pw" (VerifyPassword (λ s, s) 8 ad_client (alice_request "pw")) idle
    (λ r s, ∀ v, r = Ok v → IsSuccess v = true →
       ∃ processed,
         Preprocess (λ s, s) "alice" (LDAP_Username (Client_Config ad_client)) = Ok processed ∧
         bind_evidence ad_client "pw" (Value processed) v (accepted s) (answered s)).
Proof. apply (ldap_success_needs_bind (λ s, s) 8 ad_client (alice_request "pw")), example_valid. Defined.

Lemma ldap_connections_released_witness :
  ensures ad_client "pw" (VerifyPassword (λ s, s) 8 ad_client (alice_request "pw")) idle
    (λ _ s, all_released s) ∧
  ensures ad_client "pw" (TestConnection (λ s, s) 8 ad_client (alice_test "pw" false)) idle
    (λ _ s, all_released s).
Proof.
  apply (ldap_connections_released (λ s, s) 8 ad_client (alice_request "pw") (alice_test "pw" false));
    [apply example_valid|reflexivity].
Defined.

Lemma ldap_release_limited_witness :
  ensures ad_client "pw" (VerifyPassword (λ s, s) 8 ad_client (alice_request "pw")) idle
    (λ r _, ∀ v, r = Ok v → IsSuccess v = true → release_allowed ad_client ["mail"] v).
Proof. apply (ldap_release_limited (λ s, s) 8 ad_client (alice_request "pw")), example_valid. Defined.

Lemma example_escape_safe s : string_all (λ b, negb (filter_byte b)) (EscapeFilter s) = true.
Proof.
  unfold EscapeFilter, example_library. induction s as [|b s IH]; [done|]. cbn [escape_bytes]. case_match eqn:Hb.
  - assert (Hhex : ∀ n, (n < 16)%N → filter_byte (hex_digit n) = false).
    { intros n Hn. apply negb_true_iff.
      exact (below_16 (λ n, negb (filter_byte (hex_digit n))) eq_refl n Hn). }
    pose proof (byte_code_bound b).
    rewrite append_cons. unfold hex_byte. rewrite !append_cons, append_nil. cbn [string_all].
    rewrite !Hhex, IH by (apply N.mod_lt || apply N.Div0.div_lt_upper_bound; lia). done.
  - apply orb_false_elim in Hb as [Hb _]. cbn [string_all]. by rewrite Hb, IH.
Qed.

Lemma user_filter_structure_witness :
  filter_structure (Filter (user_search ad_client "*)(uid=*" [] Second)) = ["("; ")"]%char.
Proof.
  apply (user_filter_structure ad_client "*)(uid=*" [] Second). apply example_escape_safe.
Defined.

(** A server of one page, and the stalling one. *)
Definition one_page (f : found) : Prop :=
  f = (Some {| Entries := example_entries "(uid=alice)"; Referrals := [];
               ResultControls := [ControlPaging 0 "cookie"] |}, None).

Definition any_request : SearchRequest := user_search ad_client "alice" [] Second.

Lemma paged_search_ends_witness :
  wp (paging_spec one_page) (searchWithPagingLimit 4 0%nat any_request 500 3)
    (λ '(_, (r, err)) pages,
       (∀ res, r = Some res → Z.of_nat (length (Entries res)) <= 3) ∧ Z.of_nat pages <= 4) 0%nat.
Proof.
  apply (paged_search_ends one_page 4 0%nat any_request 500 3); [|lia].
  intros r err [= -> ->] _. discriminate.
Defined.

Lemma paged_search_endless_witness :
  wp (stalling_spec 1000) (searchWithPagingLimit 1000 0%nat any_request 500 3) (λ _ _, False) 0%nat.
Proof. apply (paged_search_endless 1000 0%nat any_request 500 3); [reflexivity|lia]. Defined.

(** The walk from Alice, with paged searches. *)
Definition paged_client : Client :=
  NewClient (example_ldap_paged true "active_directory" "bfs_member_search" true 2) "svc-secret"
    example_timeouts.

Lemma example_entries_few filter : (length (example_entries filter) ≤ 2)%nat.
Proof. unfold example_entries. repeat case_match; simpl; lia. Qed.

Lemma bfs_groups_correct_witness :
  0 < Group_MaxGroups (LDAP_Groups (Client_Config paged_client)) ∧
  wp (answering_spec example_entries) (bfsGroupFacts 8 paged_client 0%nat alice_dn)
    (λ fs _, complete_to paged_client example_entries alice_dn 3 fs) tt.
Proof.
  split; [reflexivity|]. apply (bfs_groups_correct 8 paged_client example_entries).
  - reflexivity.
  - intros dn _. split_and!; [lia|reflexivity|reflexivity|].
    trans 2; [pose proof (example_entries_few (group_filter paged_client dn)); lia|]. vm_compute. discriminate.
Defined.

(** ** Two surprises *)

(** Testing a connection can refuse a password that verifying accepts.  In
    [search_then_bind] mode [TestConnection] binds the user as the subject of
    the entry, which is its GUID here, where [VerifyPassword] binds as its DN:
    with the right password, one succeeds and the other reports invalid
    credentials. *)
Theorem test_connection_binds_subject :
  (λ '(r, w), (is_ok r, (λ b, (b.1.1.2, b.2)) <$> w_binds w)) <$>
    run_example (VerifyPassword (λ s, s) 8 ad_client (alice_request "pw")) empty_world =
  Some (true, [("cn=svc", true); (alice_dn, true); ("cn=svc", true)]) ∧
  (λ '(r, w), (r.2, (λ b, (b.1.1.2, b.2)) <$> w_binds w)) <$>
    run_example (TestConnection (λ s, s) 8 ad_client (alice_test "pw" false)) empty_world =
  Some (Some (Sentinel ErrInvalidCredentials), [("cn=svc", true); ("R1VJRA", false)]).
Proof. split; vm_compute; reflexivity. Qed.

Definition service_test : TestConnectionRequest :=
  {| TestConnection_Username := ""; TestConnection_Password := "";
     TestConnection_TestPassword := false; TestConnection_AllowInsecure := true |}.

(** An insecure test can weaken the requests that follow it: a test that
    allows insecure TLS and names no user leaves its unverified connection in
    the pool, and the next [VerifyPassword] of the same client sends the user's
    password over it. *)
Theorem insecure_test_reaches_pool :
  (λ '(r, w), (λ b, (verified b.1.1.1, b.1.1.2, b.1.2)) <$> w_binds w) <$>
    run_example (TestConnection (λ s, s) 8 ad_client service_test;;;
                 VerifyPassword (λ s, s) 8 ad_client (alice_request "pw")) empty_world =
  Some [(false, "cn=svc", "svc-secret"); (false, "cn=svc", "svc-secret");
        (false, "cn=svc", "svc-secret"); (false, alice_dn, "pw"); (false, "cn=svc", "svc-secret")].
Proof. vm_compute. reflexivity. Qed.
