(* ===== verification/LdapPool.v ===== *)
(** * Requests that share the pool of LDAP connections

    Any number of requests of one client, interleaved at every effect, with an
    environment that answers as it likes.  The ghost states of [LdapSpec] are
    threads' views of one world of connections; that world justifies what the
    specification assumes of the pool. *)

From S2P Require Import Prelude GoStrings GoTime Effects Config Directory Url Validate ValidateProofs LdapData Ldap LdapSpec LdapProofs.
Local Open Scope Z_scope.

(** ** The pool (connectionPool) *)

(** The channel of idle connections, oldest first. *)
Definition pool_get (idle : list conn) : option conn * list conn :=
  match idle with [] => (None, []) | co :: idle => (Some co, idle) end.

Definition pool_put (capacity : Z) (idle : list conn) (co : conn) : bool * list conn :=
  if Z.of_nat (length idle) <? capacity then (true, idle ++ [co]) else (false, idle).

(** ** The world *)

(** The handles given out so far, the open connections, and the idle ones. *)
Record network := { net_next : conn; net_links : gmap conn link; net_idle : list conn }.

Definition no_network : network := {| net_next := 0%nat; net_links := ∅; net_idle := [] |}.

Definition set_idle (idle : list conn) (w : network) : network :=
  {| net_next := net_next w; net_links := net_links w; net_idle := idle |}.
Definition set_links (m : gmap conn link) (w : network) : network :=
  {| net_next := net_next w; net_links := m; net_idle := net_idle w |}.
Definition connect (l : link) (w : network) : network :=
  {| net_next := S (net_next w); net_links := <[net_next w := l]> (net_links w); net_idle := net_idle w |}.

Section world.
Variable c : Client.

Definition capacity : Z := default 0 (Client_Pool c).

(** What an effect may answer and make of the world. *)
Definition ldap_may (R : Type) (e : effect R) (w : network) : R → network → Prop :=
  match e in effect R return R → network → Prop with
  | ContextErr | UntilDeadline | ReadFile _ | SystemCertPool | AppendCertsFromPEM _ => λ _ w', w' = w
  | SetTimeout _ _ => λ _ w', w' = w
  | PoolGet => λ r w', r = (pool_get (net_idle w)).1 ∧ w' = set_idle (pool_get (net_idle w)).2 w
  | PoolPut co => λ r w',
      r = (pool_put capacity (net_idle w) co).1 ∧ w' = set_idle (pool_put capacity (net_idle w) co).2 w
  | DialURL endpoint _ tls => λ r w',
      (∃ err, r = Err err ∧ w' = w) ∨
      (∃ u, Parse endpoint = Some u ∧ r = Ok (net_next w) ∧ w' = connect (dialled endpoint u tls) w)
  | StartTLS co tls => λ r w',
      (∃ err, r = Some err ∧ w' = w) ∨
      (r = None ∧ w' = set_links (alter (with_tls tls) co (net_links w)) w)
  | Bind co name pw => λ r w',
      (∃ err, r = Some err ∧ w' = set_links (alter (with_bound None) co (net_links w)) w) ∨
      (r = None ∧ w' = set_links (alter (with_bound (Some (name, pw))) co (net_links w)) w)
  | Search _ _ => λ r w', (is_Some r.1 ∨ is_Some r.2) ∧ w' = w
  | Close co => λ _ w', w' = set_links (delete co (net_links w)) w
  | StillPaging | Panic => λ _ _, False
  end.
End world.

(** The connection a thread's next effect is on. *)
Definition uses {A} (p : io A) : option conn :=
  match p with
  | Vis e _ =>
      match e with
      | PoolPut co | StartTLS co _ | SetTimeout co _ | Bind co _ _ | Search co _ | Close co => Some co
      | _ => None
      end
  | Ret _ => None
  end.

(** A thread about to search, and one about to bind. *)
Definition searching {A} (p : io A) : bool :=
  match p with Vis e _ => match e with Search _ _ => true | _ => false end | Ret _ => false end.
Definition binding {A} (p : io A) : bool :=
  match p with Vis e _ => match e with Bind _ _ _ => true | _ => false end | Ret _ => false end.

Definition ended {A} (p : io A) : bool := match p with Ret _ => true | _ => false end.

Section threads.
Context `{UnicodeTables} `{LdapLibrary}.
Variable c : Client.

(** A thread that follows the policy and ends with empty hands. *)
Definition tidy {A} (p : io A) (g : ghost) : Prop :=
  ∃ password, ensures c password p g (λ _ s, conns s = ∅).

(** [owner co] is who holds an open connection: a thread, or the pool. *)
Record ownership (w : network) (gs : list ghost) (owner : gmap conn (option nat)) : Prop := {
  own_view : ∀ i g co, gs !! i = Some g →
    conns g !! co = if bool_decide (owner !! co = Some (Some i)) then net_links w !! co else None;
  own_dom : ∀ co, is_Some (owner !! co) ↔ is_Some (net_links w !! co);
  own_thread : ∀ co i, owner !! co = Some (Some i) → (i < length gs)%nat;
  own_idle : ∀ co, co ∈ net_idle w ↔ owner !! co = Some None;
  own_nodup : NoDup (net_idle w);
  own_size : Z.of_nat (length (net_idle w)) <= Z.max 0 (capacity c);
  own_ready : ∀ co l, owner !! co = Some None → net_links w !! co = Some l → poolable c l;
  own_fresh : ∀ co : conn, (net_next w ≤ co)%nat → net_links w !! co = None;
}.

Definition pool_inv {A} (p : @pool effect network A) : Prop :=
  ∃ gs owner, Forall2 tidy (threads p) gs ∧ ownership (shared p) gs owner.

(** ** One thread's effect *)

Section step.
Variables (w : network) (gs : list ghost) (owner : gmap conn (option nat)) (i : nat) (g : ghost).
Hypothesis own : ownership w gs owner.
Hypothesis mine : gs !! i = Some g.

Lemma own_held co l :
  conns g !! co = Some l → owner !! co = Some (Some i) ∧ net_links w !! co = Some l.
Proof. rewrite (own_view _ _ _ own i g co mine). by case_bool_decide. Qed.

Lemma own_not_mine co : owner !! co ≠ Some (Some i) → conns g !! co = None.
Proof. intros Hne. rewrite (own_view _ _ _ own i g co mine). by case_bool_decide. Qed.

(** What the other threads see does not change when only connections that are
    this thread's, the pool's or new change hands. *)
Lemma own_update w' g' owner' :
  (∀ co, conns g' !! co = if bool_decide (owner' !! co = Some (Some i)) then net_links w' !! co else None) →
  (∀ co j, j ≠ i → owner' !! co = Some (Some j) ↔ owner !! co = Some (Some j)) →
  (∀ co j, j ≠ i → owner !! co = Some (Some j) → net_links w' !! co = net_links w !! co) →
  (∀ co, is_Some (owner' !! co) ↔ is_Some (net_links w' !! co)) →
  (∀ co, co ∈ net_idle w' ↔ owner' !! co = Some None) →
  NoDup (net_idle w') → Z.of_nat (length (net_idle w')) <= Z.max 0 (capacity c) →
  (∀ co l, owner' !! co = Some None → net_links w' !! co = Some l → poolable c l) →
  (∀ co : conn, (net_next w' ≤ co)%nat → net_links w' !! co = None) →
  ownership w' (<[i := g']> gs) owner'.
Proof.
  intros Hmine Hothers Hlinks Hdom Hidle Hdup Hsize Hready Hfresh.
  pose proof (lookup_lt_Some _ _ _ mine) as Hi. constructor; try done.
  - intros j gj co. destruct (decide (j = i)) as [->|Hne].
    + rewrite list_lookup_insert_eq by done. intros [= <-]. apply Hmine.
    + rewrite list_lookup_insert_ne by done. intros Hj. rewrite (own_view _ _ _ own j gj co Hj).
      specialize (Hothers co j Hne). do 2 case_bool_decide; try tauto. symmetry. by eapply Hlinks.
  - intros co j Hco. rewrite length_insert. destruct (decide (j = i)) as [->|Hne]; [done|].
    apply (own_thread _ _ _ own co). by apply Hothers.
Qed.

Lemma own_same g' : conns g' = conns g → ownership w (<[i := g']> gs) owner.
Proof.
  intros Hg. apply own_update; try (by apply own); [|done..].
  intros co. rewrite Hg. by apply own.
Qed.

Lemma own_alter co l f g' :
  conns g !! co = Some l → conns g' = <[co := f l]> (conns g) →
  ownership (set_links (alter f co (net_links w)) w) (<[i := g']> gs) owner.
Proof.
  intros Hco Hg. destruct (own_held co l Hco) as [Howner Hlink].
  assert (Halter : alter f co (net_links w) = <[co := f l]> (net_links w)).
  { apply map_eq. intros k. destruct (decide (k = co)) as [->|Hne].
    - by rewrite lookup_alter_eq, lookup_insert_eq, Hlink.
    - by rewrite lookup_alter_ne, lookup_insert_ne. }
  rewrite Halter. apply own_update; simpl; try (by apply own).
  - intros k. rewrite Hg. destruct (decide (k = co)) as [->|Hne].
    + rewrite !lookup_insert_eq. by rewrite bool_decide_true.
    + rewrite !lookup_insert_ne by done. by apply own.
  - done.
  - intros k j Hj Hk. rewrite lookup_insert_ne; [done|]. intros <-. congruence.
  - intros k. rewrite lookup_insert_is_Some. rewrite (own_dom _ _ _ own k).
    destruct (decide (co = k)) as [<-|Hne]; [|naive_solver]. rewrite Hlink. naive_solver.
  - intros k lk Hk. rewrite lookup_insert_ne by (intros <-; congruence). by apply (own_ready _ _ _ own).
  - intros k Hk. pose proof (own_fresh _ _ _ own k Hk). rewrite lookup_insert_ne; [done|congruence].
Qed.

Lemma own_get co rest l :
  net_idle w = co :: rest → net_links w !! co = Some l →
  ownership (set_idle rest w) (<[i := LdapSpec.open co l g]> gs) (<[co := Some i]> owner).
Proof.
  intros Hidle Hlink. pose proof (own_nodup _ _ _ own) as Hdup. rewrite Hidle in Hdup.
  apply NoDup_cons in Hdup as [Hnew Hdup].
  assert (Howner : owner !! co = Some None) by (apply (own_idle _ _ _ own); rewrite Hidle; by left).
  apply own_update; simpl; try (by apply own).
  - intros k. destruct (decide (k = co)) as [->|Hne].
    + by rewrite !lookup_insert_eq, bool_decide_true.
    + rewrite !lookup_insert_ne by done. by apply own.
  - intros k j Hj. destruct (decide (k = co)) as [->|Hne].
    + rewrite lookup_insert_eq, Howner. split; congruence.
    + by rewrite lookup_insert_ne.
  - done.
  - intros k. rewrite <-(own_dom _ _ _ own k). rewrite lookup_insert_is_Some.
    destruct (decide (co = k)) as [<-|Hne]; [|naive_solver]. rewrite Howner. naive_solver.
  - intros k. destruct (decide (k = co)) as [->|Hne].
    + rewrite lookup_insert_eq. split; [done|congruence].
    + rewrite lookup_insert_ne by done. rewrite <-(own_idle _ _ _ own k), Hidle. set_solver.
  - done.
  - pose proof (own_size _ _ _ own) as Hsize. rewrite Hidle in Hsize. simpl in Hsize. lia.
  - intros k lk Hk. destruct (decide (k = co)) as [->|Hne].
    + by rewrite lookup_insert_eq in Hk.
    + rewrite lookup_insert_ne in Hk by done. by apply (own_ready _ _ _ own).
Qed.

Lemma own_put co l :
  conns g !! co = Some l → poolable c l → Z.of_nat (length (net_idle w)) < capacity c →
  ownership (set_idle (net_idle w ++ [co]) w) (<[i := LdapSpec.close co g]> gs) (<[co := None]> owner).
Proof.
  intros Hco Hpool Hroom. destruct (own_held co l Hco) as [Howner Hlink].
  apply own_update; simpl; try (by apply own).
  - intros k. destruct (decide (k = co)) as [->|Hne].
    + by rewrite lookup_delete_eq, lookup_insert_eq, bool_decide_false.
    + rewrite lookup_delete_ne, lookup_insert_ne by done. by apply own.
  - intros k j Hj. destruct (decide (k = co)) as [->|Hne].
    + rewrite lookup_insert_eq, Howner. split; congruence.
    + by rewrite lookup_insert_ne.
  - done.
  - intros k. rewrite <-(own_dom _ _ _ own k). rewrite lookup_insert_is_Some.
    destruct (decide (co = k)) as [<-|Hne]; [|naive_solver]. rewrite Howner. naive_solver.
  - intros k. rewrite elem_of_app, list_elem_of_singleton. rewrite (own_idle _ _ _ own k).
    destruct (decide (k = co)) as [->|Hne].
    + rewrite lookup_insert_eq. naive_solver.
    + rewrite lookup_insert_ne by done. naive_solver.
  - apply NoDup_app. split_and!; [apply own| |apply NoDup_singleton].
    intros k Hk Hin%list_elem_of_singleton. subst k. apply (own_idle _ _ _ own) in Hk. congruence.
  - rewrite length_app. simpl. lia.
  - intros k lk Hk Hlk. destruct (decide (k = co)) as [->|Hne]; [congruence|].
    rewrite lookup_insert_ne in Hk by done. by apply (own_ready _ _ _ own k).
Qed.

Lemma own_connect l :
  ownership (connect l w) (<[i := LdapSpec.open (net_next w) l g]> gs) (<[net_next w := Some i]> owner).
Proof.
  pose proof (own_fresh _ _ _ own (net_next w) (le_n _)) as Hfresh.
  assert (Hnone : owner !! net_next w = None).
  { apply eq_None_not_Some. rewrite (own_dom _ _ _ own), Hfresh. by intros [? ?]. }
  apply own_update; simpl; try (by apply own).
  - intros k. destruct (decide (k = net_next w)) as [->|Hne].
    + by rewrite !lookup_insert_eq, bool_decide_true.
    + rewrite !lookup_insert_ne by done. by apply own.
  - intros k j Hj. destruct (decide (k = net_next w)) as [->|Hne].
    + rewrite lookup_insert_eq, Hnone. split; congruence.
    + by rewrite lookup_insert_ne.
  - intros k j Hj Hk. rewrite lookup_insert_ne; [done|]. intros <-. congruence.
  - intros k. rewrite !lookup_insert_is_Some. by rewrite (own_dom _ _ _ own k).
  - intros k. rewrite (own_idle _ _ _ own k). destruct (decide (k = net_next w)) as [->|Hne].
    + rewrite lookup_insert_eq, Hnone. split; congruence.
    + by rewrite lookup_insert_ne.
  - intros k lk. destruct (decide (k = net_next w)) as [->|Hne].
    + by rewrite lookup_insert_eq.
    + rewrite !lookup_insert_ne by done. by apply (own_ready _ _ _ own).
  - intros k Hk. rewrite lookup_insert_ne by lia. apply own. lia.
Qed.

Lemma own_close co :
  is_Some (conns g !! co) →
  ownership (set_links (delete co (net_links w)) w) (<[i := LdapSpec.close co g]> gs) (delete co owner).
Proof.
  intros [l Hco]. destruct (own_held co l Hco) as [Howner Hlink].
  apply own_update; simpl; try (by apply own).
  - intros k. destruct (decide (k = co)) as [->|Hne].
    + by rewrite !lookup_delete_eq, bool_decide_false.
    + rewrite !lookup_delete_ne by done. by apply own.
  - intros k j Hj. destruct (decide (k = co)) as [->|Hne].
    + rewrite lookup_delete_eq, Howner. split; congruence.
    + by rewrite lookup_delete_ne.
  - intros k j Hj Hk. rewrite lookup_delete_ne; [done|]. intros <-. congruence.
  - intros k. rewrite !lookup_delete_is_Some. by rewrite (own_dom _ _ _ own k).
  - intros k. rewrite (own_idle _ _ _ own k). destruct (decide (k = co)) as [->|Hne].
    + rewrite lookup_delete_eq, Howner. split; congruence.
    + by rewrite lookup_delete_ne.
  - intros k lk. destruct (decide (k = co)) as [->|Hne].
    + by rewrite lookup_delete_eq.
    + rewrite !lookup_delete_ne by done. by apply (own_ready _ _ _ own).
  - intros k Hk. apply lookup_delete_None. right. by apply own.
Qed.
End step.

(** The world keeps to the specification, and to its ownership. *)
Lemma own_step w gs owner i g password R (e : effect R) (Q : R → ghost → Prop) r w' :
  ownership w gs owner → gs !! i = Some g →
  ldap_spec c password R e Q g → ldap_may c R e w r w' →
  ∃ g' owner', Q r g' ∧ ownership w' (<[i := g']> gs) owner'.
Proof.
  intros own mine Hspec Hmay. destruct e; simpl in Hspec, Hmay.
  1, 2, 11, 12, 13: subst w'; exists g, owner; split; [apply Hspec|by eapply own_same].
  - destruct Hmay as [-> ->]. destruct Hspec as [Hnone Hsome]. destruct (net_idle w) as [|co rest] eqn:Hidle; simpl.
    + exists g, owner. split; [done|]. destruct w; simpl in *; subst. by eapply own_same.
    + assert (Howner : owner !! co = Some None) by (apply (own_idle _ _ _ own); rewrite Hidle; by left).
      destruct (proj1 (own_dom _ _ _ own co)) as [l Hl]; [by eexists|].
      exists (LdapSpec.open co l g), (<[co := Some i]> owner). split; [|by eapply own_get].
      apply Hsome; [eapply own_not_mine; [done..|congruence]|by apply (own_ready _ _ _ own co)].
  - destruct Hmay as [-> ->]. destruct Hspec as (l & Hco & Hpool & Htrue & Hfalse).
    unfold pool_put. destruct (Z.ltb_spec (Z.of_nat (length (net_idle w))) (capacity c)); simpl.
    + eexists _, _. split; [exact Htrue|]. by eapply own_put.
    + exists g, owner. split; [done|]. destruct w; simpl in *. by eapply own_same.
  - destruct Hspec as (_ & _ & Herr & Hok). destruct Hmay as [(err & -> & ->)|(u & Hu & -> & ->)].
    + exists g, owner. split; [apply Herr|by eapply own_same].
    + eexists _, _. split; [apply Hok; [|exact Hu]|by eapply own_connect].
      apply eq_None_not_Some. intros [l Hl]. eapply own_held in Hl as [_ Hl]; [|done..]. by rewrite (own_fresh _ _ _ own) in Hl.
  - destruct Hspec as (l & Hco & Herr & Hok). destruct Hmay as [(err & -> & ->)|(-> & ->)].
    + exists g, owner. split; [apply Herr|by eapply own_same].
    + eexists _, owner. split; [exact Hok|]. by eapply (own_alter w gs owner i g own mine co l).
  - destruct Hspec as (_ & _ & HQ). subst w'. exists g, owner. split; [by destruct r|by eapply own_same].
  - destruct Hspec as (l & Hco & _ & Herr & Hok). destruct Hmay as [(err & -> & ->)|(-> & ->)].
    + eexists _, owner. split; [apply Herr|]. by eapply (own_alter w gs owner i g own mine co l).
    + eexists _, owner. split; [exact Hok|]. by eapply (own_alter w gs owner i g own mine co l).
  - destruct Hspec as (l & Hco & _ & HQ). destruct Hmay as [Hr ->]. destruct r as [res err].
    eexists _, owner. split; [by apply HQ|by eapply own_same].
  - destruct Hspec as (Hco & HQ). subst w'. destruct r. eexists _, _. split; [exact HQ|by eapply own_close].
  - done.
  - done.
Qed.

(** What a thread is about to do, it may do to a connection of its own. *)
Lemma own_uses w gs owner i g {A} (p : io A) co :
  ownership w gs owner → gs !! i = Some g → tidy p g → uses p = Some co →
  owner !! co = Some (Some i) ∧
  ∃ l, net_links w !! co = Some l ∧ (searching p = true → bound l = Some (service c)) ∧
       (binding p = true → secure l).
Proof.
  intros own mine [password Hp] Huse.
  assert (Hl : ∃ l, conns g !! co = Some l ∧ (searching p = true → bound l = Some (service c)) ∧
                    (binding p = true → secure l)).
  { destruct p as [a|R e k]; [done|]. unfold ensures in Hp. simpl in Hp. destruct e; simplify_eq/=.
    - destruct Hp as (l & Hl & _). by exists l.
    - destruct Hp as (l & Hl & _). by exists l.
    - destruct Hp as ([l Hl] & _). by exists l.
    - destruct Hp as (l & Hl & [Hs _] & _). by exists l.
    - destruct Hp as (l & Hl & Hb & _). by exists l.
    - destruct Hp as ([l Hl] & _). by exists l. }
  destruct Hl as (l & Hl & Hrest). eapply own_held in Hl as [Howner Hlink]; [|done..].
  split; [done|]. by exists l.
Qed.

(** ** All interleavings *)

Section reachable.
Context {A : Type}.
Variable start : io A → Prop.
Hypothesis started_tidy : ∀ p, start p → tidy p idle.

Lemma ownership_spawn w gs owner : ownership w gs owner → ownership w (gs ++ [idle]) owner.
Proof.
  intros own. constructor; try (by apply own).
  - intros i g co Hi. apply lookup_app_Some in Hi as [Hi|[Hlen Hi]]; [by apply own|].
    apply list_lookup_singleton_Some in Hi as [Hi <-].
    case_bool_decide as Hco; [|done]. apply (own_thread _ _ _ own) in Hco. lia.
  - intros co i Hco. rewrite length_app. apply (own_thread _ _ _ own) in Hco. lia.
Qed.

Lemma pool_inv_reachable p : crowd_reachable (ldap_may c) start no_network p → pool_inv p.
Proof.
  revert p. apply crowd_invariant.
  - exists [], ∅. split; [constructor|]. constructor; simpl; try done; try set_solver.
    + intros co. by rewrite !lookup_empty.
    + constructor.
    + lia.
  - intros p p' (gs & owner & Hall & own) Hstep. destruct Hstep as [w ts q Hq|w ts i R e k r w' Hi Hmay]; simpl in *.
    + exists (gs ++ [idle]), owner. split; [|by apply ownership_spawn].
      apply Forall2_app; [done|]. constructor; [|done]. by apply started_tidy.
    + pose proof Hall as Hall'. eapply Forall2_lookup_l in Hall' as (g & Hg & password & Hsafe); [|done].
      destruct (own_step w gs owner i g password R e _ r w' own Hg Hsafe Hmay) as (g' & owner' & Hk & own').
      exists (<[i := g']> gs), owner'. split; [|done]. apply Forall2_insert; [done|]. by exists password.
Qed.

(** When a thread has ended it holds nothing. *)
Lemma ended_holds_none w gs owner (ts : list (io A)) co i :
  Forall2 tidy ts gs → ownership w gs owner → forallb ended ts = true → owner !! co ≠ Some (Some i).
Proof.
  intros Hall own Hended Hco. pose proof (own_thread _ _ _ own _ _ Hco) as Hlt.
  destruct (lookup_lt_is_Some_2 _ _ Hlt) as [g Hg].
  eapply Forall2_lookup_r in Hall as (p & Hp & password & Hq); [|done].
  rewrite List.forallb_forall in Hended. specialize (Hended p). rewrite <-list_elem_of_In in Hended.
  specialize (Hended (list_elem_of_lookup_2 _ _ _ Hp)). destruct p; [|done]. unfold ensures in Hq. simpl in Hq.
  pose proof (own_view _ _ _ own i g co Hg) as Hview. rewrite Hq, bool_decide_true in Hview by done.
  rewrite lookup_empty in Hview. destruct (proj1 (own_dom _ _ _ own co)) as [l Hl]; [by eexists|]. congruence.
Qed.
End reachable.
End threads.

(** The requests of one client: verifications, and tests that do not allow
    insecure TLS. *)
Inductive ldap_request `{UnicodeTables} `{LdapLibrary} (nfkc : string → string) (budget : nat) (c : Client)
    : io unit → Prop :=
| verify_request q : ldap_request nfkc budget c (VerifyPassword nfkc budget c q;;; Ret tt)
| test_request q :
    TestConnection_AllowInsecure q = false →
    ldap_request nfkc budget c (TestConnection nfkc budget c q;;; Ret tt).

(** The idle connections are few, distinct, open, and ready to search as the
    service over verified TLS. *)
Definition idle_ready (c : Client) (w : network) : Prop :=
  Z.of_nat (length (net_idle w)) <= Z.max 0 (capacity c) ∧ NoDup (net_idle w) ∧
  Forall (λ co, ∃ l, net_links w !! co = Some l ∧ poolable c l) (net_idle w).

(** C9: requests never share a connection.  In every interleaving of any number of
    verifications and tests of one client, whatever the servers answer: the pool
    stays within its size and holds distinct open connections, each bound as the
    service over verified TLS to a configured endpoint; the connection that a
    request is about to use is open, is not in the pool, and is not the one that
    another request is about to use; it searches only on a connection that is
    bound as the service, however many users were bound on others meanwhile, and
    binds only over verified TLS; and when all requests have ended the open
    connections are exactly the idle ones. *)
Theorem connections_not_shared `{UnicodeTables} `{LdapLibrary} (nfkc : string → string) (budget : nat)
    (c : Client) (p : @pool effect network unit) (Hvalid : valid_ldap (Client_Config c))
    (Hp : crowd_reachable (ldap_may c) (ldap_request nfkc budget c) no_network p) :
  idle_ready c (shared p) ∧
  (∀ i t co, threads p !! i = Some t → uses t = Some co →
     co ∉ net_idle (shared p) ∧
     (∀ j t', j ≠ i → threads p !! j = Some t' → uses t' ≠ Some co) ∧
     ∃ l, net_links (shared p) !! co = Some l ∧ (searching t = true → bound l = Some (service c)) ∧
          (binding t = true → secure l)) ∧
  (forallb ended (threads p) = true →
   ∀ co, is_Some (net_links (shared p) !! co) ↔ co ∈ net_idle (shared p)).
Proof.
  destruct (pool_inv_reachable c (ldap_request nfkc budget c)) with (p := p) as (gs & owner & Hall & own);
    [|done|].
  { intros q [r|r Hr]; [exists (Verify_Password r)|exists (TestConnection_Password r)].
    - apply ensures_bind. eapply ensures_mono; [by apply VerifyPassword_ensures|]. by intros v s [? _].
    - apply ensures_bind. by apply TestConnection_ensures. }
  assert (Huses : ∀ i t co, threads p !! i = Some t → uses t = Some co →
    owner !! co = Some (Some i) ∧ ∃ l, net_links (shared p) !! co = Some l ∧
      (searching t = true → bound l = Some (service c)) ∧ (binding t = true → secure l)).
  { intros i t co Ht Hu. pose proof Hall as Hall'. eapply Forall2_lookup_l in Hall' as (g & Hg & Htidy); [|done].
    by eapply own_uses. }
  split_and!.
  - split_and!; [apply own..|]. apply Forall_forall. intros co Hco.
    apply (own_idle _ _ _ _ own) in Hco. destruct (proj1 (own_dom _ _ _ _ own co)) as [l Hl]; [by eexists|].
    exists l. split; [done|]. by apply (own_ready _ _ _ _ own co).
  - intros i t co Ht Hu. destruct (Huses i t co Ht Hu) as [Howner Hl]. split_and!; [| |done].
    + rewrite (own_idle _ _ _ _ own co). congruence.
    + intros j t' Hj Ht' Hu'. destruct (Huses j t' co Ht' Hu') as [Howner' _]. congruence.
  - intros Hended co. rewrite <-(own_dom _ _ _ _ own co), (own_idle _ _ _ _ own co).
    split; [|by eexists]. intros [[i|] Hco]; [|done].
    by destruct (ended_holds_none c _ _ _ _ co i Hall own Hended).
Qed.
