(* ===== verification/LdapPoolExamples.v ===== *)
(** * Two requests on one pool of LDAP connections

    An executable environment, a schedule of two verifications that run at once,
    and the theorem about shared pools there. *)

From S2P Require Import Prelude GoStrings GoTime Effects Config Directory Url Validate ValidateProofs LdapData Ldap LdapSpec LdapProofs LdapExamples LdapPool.
Local Open Scope Z_scope.

#[local] Existing Instance ascii_only_tables.
#[local] Existing Instance example_library.

(** The small directory over a network of connections. *)
Definition network_effect (R : Type) (e : effect R) (w : network) : option (R * network) :=
  match e in effect R return option (R * network) with
  | ContextErr => Some (None, w)
  | UntilDeadline => Some (Some (2 * Second), w)
  | PoolGet => Some ((pool_get (net_idle w)).1, set_idle (pool_get (net_idle w)).2 w)
  | PoolPut co =>
      Some ((pool_put 2 (net_idle w) co).1, set_idle (pool_put 2 (net_idle w) co).2 w)
  | DialURL endpoint _ tls =>
      match Parse endpoint with
      | None => Some (Err (OtherError "bad address"), w)
      | Some u => Some (Ok (net_next w), connect (dialled endpoint u tls) w)
      end
  | StartTLS co tls => Some (None, LdapPool.set_links (alter (with_tls tls) co (net_links w)) w)
  | SetTimeout _ _ => Some (tt, w)
  | Bind co name pw =>
      if bool_decide ((name, pw) ∈ example_credentials)
      then Some (None, LdapPool.set_links (alter (with_bound (Some (name, pw))) co (net_links w)) w)
      else Some (Some (LDAPError 49 "invalid credentials"),
                 LdapPool.set_links (alter (with_bound None) co (net_links w)) w)
  | Search _ request =>
      Some ((Some {| Entries := example_entries (Filter request); Referrals := []; ResultControls := [] |},
             None), w)
  | Close co => Some (tt, LdapPool.set_links (delete co (net_links w)) w)
  | ReadFile _ => Some (Err "no such file", w)
  | SystemCertPool => Some (true, w)
  | AppendCertsFromPEM _ => Some (true, w)
  | StillPaging | Panic => None
  end.

Lemma network_effect_may R (e : effect R) w r w' :
  network_effect R e w = Some (r, w') → ldap_may ad_client R e w r w'.
Proof.
  destruct e; simpl; intros He; try discriminate He; try (by injection He as <- <-).
  - destruct (Parse endpoint) as [u|] eqn:Hu; injection He as <- <-; [right; by exists u|left; by eexists].
  - injection He as <- <-. by right.
  - case_bool_decide; injection He as <- <-; [by right|left; by eexists].
  - injection He as <- <-. split; [left; by eexists|done].
Qed.

(** Alice with her password and with a wrong one, step by step in turn. *)
Definition two_requests : @pool effect network unit :=
  Pool no_network [(verify_alice ad_client "pw" ;;; Ret tt); (verify_alice ad_client "guess" ;;; Ret tt)].

Definition after (steps : nat) : @pool effect network unit :=
  foldl (λ p i, crowd_at network_effect i p) two_requests
    (mjoin (replicate steps [0%nat; 1%nat])).

Lemma after_reachable steps :
  crowd_reachable (ldap_may ad_client) (ldap_request (λ s, s) 8 ad_client) no_network (after steps).
Proof.
  apply (crowd_schedule_reachable _ _ network_effect_may), crowd_spawned.
  repeat constructor.
Qed.

(** Both are about to search, each on its own connection. *)
Example both_searching :
  let p := after 11 in
  (uses <$> threads p, searching <$> threads p, net_idle (shared p)) =
  ([Some 0%nat; Some 1%nat], [true; true], []).
Proof. vm_compute. reflexivity. Qed.

(** At the end the first connection is in the pool, and the second closed. *)
Example both_ended :
  let p := after 60 in
  (ended <$> threads p, net_idle (shared p), map_to_list (bound <$> net_links (shared p))) =
  ([true; true], [0%nat], [(0%nat, Some ("cn=svc", "svc-secret"))]).
Proof. vm_compute. reflexivity. Qed.

Lemma connections_not_shared_witness :
  idle_ready ad_client (shared (after 11)) ∧
  (∀ i t co, threads (after 11) !! i = Some t → uses t = Some co →
     co ∉ net_idle (shared (after 11)) ∧
     (∀ j t', j ≠ i → threads (after 11) !! j = Some t' → uses t' ≠ Some co) ∧
     ∃ l, net_links (shared (after 11)) !! co = Some l ∧
          (searching t = true → bound l = Some (service ad_client)) ∧ (binding t = true → secure l)) ∧
  (forallb ended (threads (after 11)) = true →
   ∀ co, is_Some (net_links (shared (after 11)) !! co) ↔ co ∈ net_idle (shared (after 11))).
Proof.
  apply (connections_not_shared (λ s, s) 8 ad_client (after 11)); [apply example_valid|apply after_reachable].
Defined.
