(* ===== verification/RelayState.v ===== *)
(** * The relay's shared state (internal/adapters/relay/client.go)

    The relay keeps storm counters and a replay cache of its own.  They are
    translated here from the relay's source, and shown to behave, call for call,
    as those of the HTTP gateway, so that what is proved of the gateway's
    ([Storm], [Replay]) holds of the relay's. *)

From S2P Require Import Prelude GoStrings GoTime Storm Replay.
Local Open Scope Z_scope.

Record ProtectionPolicy := {
  Relay_WindowMS : Z;
  Relay_BlockMS : Z;
  Relay_MalformedRequestLimit : Z;
  Relay_ReplayLimit : Z;
  Relay_DirectoryErrorLimit : Z;
}.

(** [type relayStormKind string] *)
Abbreviation relayStormKind := string.
Definition relayStormKindMalformed : relayStormKind := "malformed_request".
Definition relayStormKindReplay : relayStormKind := "replay".
Definition relayStormKindDirectoryError : relayStormKind := "directory_error".

Record relayStormState := {
  relay_windowStart : Z;
  relay_count : Z;
  relay_blockedUntil : Z;
}.

Definition zero_relayStormState : relayStormState :=
  {| relay_windowStart := 0; relay_count := 0; relay_blockedUntil := 0 |}.

Record relayStorms := {
  relay_policy : ProtectionPolicy;
  relay_states : gmap relayStormKind relayStormState;
}.

Definition defaultProtectionPolicy (p : ProtectionPolicy) : ProtectionPolicy := {|
  Relay_WindowMS := if Relay_WindowMS p <=? 0 then 10000 else Relay_WindowMS p;
  Relay_BlockMS := if Relay_BlockMS p <=? 0 then 30000 else Relay_BlockMS p;
  Relay_MalformedRequestLimit :=
    if Relay_MalformedRequestLimit p <=? 0 then 20 else Relay_MalformedRequestLimit p;
  Relay_ReplayLimit := if Relay_ReplayLimit p <=? 0 then 10 else Relay_ReplayLimit p;
  Relay_DirectoryErrorLimit :=
    if Relay_DirectoryErrorLimit p <=? 0 then 5 else Relay_DirectoryErrorLimit p |}.

Definition newRelayStorms (p : ProtectionPolicy) : relayStorms :=
  {| relay_policy := defaultProtectionPolicy p; relay_states := ∅ |}.

Definition relay_state_of (s : relayStorms) (kind : relayStormKind) : relayStormState :=
  default zero_relayStormState (relay_states s !! kind).

Definition relay_blocked (s : relayStorms) (kind : relayStormKind) (now : Z) : bool :=
  let state := relay_state_of s kind in
  negb (is_zero (relay_blockedUntil state)) && before now (relay_blockedUntil state).

Definition relay_limit (s : relayStorms) (kind : relayStormKind) : Z :=
  if (kind =? relayStormKindMalformed)%string then Relay_MalformedRequestLimit (relay_policy s)
  else if (kind =? relayStormKindReplay)%string then Relay_ReplayLimit (relay_policy s)
  else if (kind =? relayStormKindDirectoryError)%string
  then Relay_DirectoryErrorLimit (relay_policy s)
  else 1.

Definition relay_record (s : relayStorms) (kind : relayStormKind) (now : Z) : relayStorms :=
  let window := dur_of_ms (Relay_WindowMS (relay_policy s)) in
  let block := dur_of_ms (Relay_BlockMS (relay_policy s)) in
  let state := relay_state_of s kind in
  let state :=
    if is_zero (relay_windowStart state) || (window <? time_sub now (relay_windowStart state))
    then {| relay_windowStart := now; relay_count := 0;
            relay_blockedUntil := relay_blockedUntil state |}
    else state in
  let count := wrap64 (relay_count state + 1) in
  let state :=
    {| relay_windowStart := relay_windowStart state; relay_count := count;
       relay_blockedUntil :=
         if relay_limit s kind <=? count then time_add now block else relay_blockedUntil state |} in
  {| relay_policy := relay_policy s; relay_states := <[kind := state]> (relay_states s) |}.

Definition relay_reset (s : relayStorms) (kind : relayStormKind) : relayStorms :=
  {| relay_policy := relay_policy s; relay_states := delete kind (relay_states s) |}.

Record relayReplayCache := { relay_ttl : Z; relay_entries : gmap string Z }.

Definition newRelayReplayCache (t : Z) : relayReplayCache :=
  {| relay_ttl := t; relay_entries := ∅ |}.

Definition relay_Remember (c : relayReplayCache) (key : string) (now : Z) : bool * relayReplayCache :=
  let entries := filter (λ kv : string * Z, after now kv.2 = false) (relay_entries c) in
  match entries !! key with
  | Some _ => (false, {| relay_ttl := relay_ttl c; relay_entries := entries |})
  | None => (true, {| relay_ttl := relay_ttl c;
                      relay_entries := <[key := time_add now (relay_ttl c)]> entries |})
  end.

(** ** The same behaviour as the gateway's *)

(** The calls a client makes on its counters and its cache, with the clock
    readings they take. *)
Inductive state_call :=
| Call_Blocked (kind : string) (now : Z)
| Call_Record (kind : string) (now : Z)
| Call_Reset (kind : string)
| Call_Remember (key : string) (now : Z).

Definition relay_call (s : relayStorms * relayReplayCache) (call : state_call)
    : option bool * (relayStorms * relayReplayCache) :=
  match call with
  | Call_Blocked kind now => (Some (relay_blocked s.1 kind now), s)
  | Call_Record kind now => (None, (relay_record s.1 kind now, s.2))
  | Call_Reset kind => (None, (relay_reset s.1 kind, s.2))
  | Call_Remember key now =>
      let '(fresh, cache) := relay_Remember s.2 key now in (Some fresh, (s.1, cache))
  end.

Definition gateway_call (s : connectorStorms * replayCache) (call : state_call)
    : option bool * (connectorStorms * replayCache) :=
  match call with
  | Call_Blocked kind now => (Some (blocked s.1 kind now), s)
  | Call_Record kind now => (None, (record s.1 kind now, s.2))
  | Call_Reset kind => (None, (reset s.1 kind, s.2))
  | Call_Remember key now =>
      let '(fresh, cache) := Remember s.2 key now in (Some fresh, (s.1, cache))
  end.

(** The answers of a sequence of calls. *)
Fixpoint answers {S} (step : S → state_call → option bool * S) (s : S) (calls : list state_call)
    : list (option bool) :=
  match calls with
  | [] => []
  | call :: calls => (step s call).1 :: answers step (step s call).2 calls
  end.

Definition gateway_policy (p : ProtectionPolicy) : StormProtectionPolicy := {|
  WindowMS := Relay_WindowMS p; BlockMS := Relay_BlockMS p;
  MalformedRequestLimit := Relay_MalformedRequestLimit p;
  ReplayLimit := Relay_ReplayLimit p; DirectoryErrorLimit := Relay_DirectoryErrorLimit p |}.

Definition gateway_state (st : relayStormState) : stormState := {|
  windowStart := relay_windowStart st; count := relay_count st;
  blockedUntil := relay_blockedUntil st |}.

Definition gateway_storms (s : relayStorms) : connectorStorms := {|
  policy := gateway_policy (relay_policy s); states := gateway_state <$> relay_states s |}.

Definition gateway_cache (c : relayReplayCache) : replayCache :=
  {| ttl := relay_ttl c; entries := relay_entries c |}.

Definition gateway_view (s : relayStorms * relayReplayCache) : connectorStorms * replayCache :=
  (gateway_storms s.1, gateway_cache s.2).

Lemma state_of_view s kind : state_of (gateway_storms s) kind = gateway_state (relay_state_of s kind).
Proof.
  unfold state_of, relay_state_of. simpl. rewrite lookup_fmap.
  by destruct (relay_states s !! kind).
Qed.

Lemma blocked_view s kind now : blocked (gateway_storms s) kind now = relay_blocked s kind now.
Proof.
  unfold blocked, relay_blocked. rewrite state_of_view. simpl.
  by destruct (is_zero _), (before _ _).
Qed.

Lemma record_view s kind now :
  record (gateway_storms s) kind now = gateway_storms (relay_record s kind now).
Proof.
  unfold record, relay_record, gateway_storms. simpl. f_equal. rewrite fmap_insert. f_equal.
  change {| policy := _; states := _ |} with (gateway_storms s).
  rewrite state_of_view. unfold bump. simpl. by case_match.
Qed.

Lemma reset_view s kind : reset (gateway_storms s) kind = gateway_storms (relay_reset s kind).
Proof. unfold reset, gateway_storms. simpl. by rewrite fmap_delete. Qed.

Lemma Remember_view c key now :
  Remember (gateway_cache c) key now =
  ((relay_Remember c key now).1, gateway_cache (relay_Remember c key now).2).
Proof. unfold Remember, relay_Remember, purge. simpl. by destruct (filter _ _ !! key). Qed.

Lemma call_view s call :
  gateway_call (gateway_view s) call =
  ((relay_call s call).1, gateway_view (relay_call s call).2).
Proof.
  destruct s as [st c], call as [kind now|kind now|kind|key now]; simpl.
  - by rewrite blocked_view.
  - by rewrite record_view.
  - by rewrite reset_view.
  - rewrite Remember_view. by destruct (relay_Remember c key now).
Qed.

(** C24: the relay's protection is the gateway's: from the same policy, any
    sequence of calls on the relay's storm counters and replay cache gets the
    answers the gateway's give, so that the limits, the blocking times and the
    once-per-lifetime rule proved there hold here. *)
Theorem relay_state_equivalent (p : ProtectionPolicy) (t : Z) (calls : list state_call) :
  answers relay_call (newRelayStorms p, newRelayReplayCache t) calls =
  answers gateway_call (newConnectorStorms (gateway_policy p), newReplayCache t) calls.
Proof.
  change (newConnectorStorms (gateway_policy p), newReplayCache t)
    with (gateway_view (newRelayStorms p, newRelayReplayCache t)).
  generalize (newRelayStorms p, newRelayReplayCache t) as s.
  induction calls as [|call calls IH]; intros s; [done|]. simpl. by rewrite call_view, IH.
Qed.
