(* ===== verification/Relay.v ===== *)
(** * The relay client (internal/adapters/relay/client.go)

    The outbound connection through which requests reach the connector when it
    accepts none: construction and its checks, authentication, the loop that
    reads messages, the handling of one request and the reconnection loop, as
    programs over their effects.  What [json.Unmarshal] makes of a message is
    part of the message. *)

From S2P Require Import Prelude GoStrings GoCrypto GoTime Effects Config Directory AuditEvent Url Validate RelayState.
Local Open Scope Z_scope.

Definition Protocol : string := "authrim.wordwarden.relay.v1".
Definition ProtocolVersion : Z := 1.
Definition MinSupportedVersion : Z := 1.
Definition RelayAlgorithm : string := "AUTHRIM-WORDWARDEN-RELAY-HMAC-SHA256".

(** ** Messages *)

Record challengeMessage := {
  Challenge_Type : string;
  Challenge_Protocol : string;
  Challenge_ProtocolVersion : Z;
  Challenge_MinSupportedVersion : Z;
  Challenge_ID : string;
  Challenge_Nonce : string;
  Challenge_IssuedAt : string;
  Challenge_ExpiresAt : string;
}.

Record authResponseMessage := {
  Auth_Type : string;
  Auth_Protocol : string;
  Auth_ProtocolVersion : Z;
  Auth_MinSupportedVersion : Z;
  Auth_TenantID : string;
  Auth_ConnectorID : string;
  Auth_InstanceID : string;
  Auth_DisplayName : string;
  Auth_Version : string;
  Auth_ReleaseChannel : string;
  Auth_StartedAt : string;
  Auth_ConfigFingerprint : string;
  Auth_ConfigCategories : list string;
  Auth_KeyID : string;
  Auth_ChallengeID : string;
  Auth_Nonce : string;
  Auth_Timestamp : string;
  Auth_Signature : string;
}.

Record envelope := {
  Env_Type : string;
  Env_Protocol : string;
  Env_ProtocolVersion : Z;
  Env_MinSupportedVersion : Z;
}.

Record verifyRequestMessage := {
  Req_Type : string;
  Req_Protocol : string;
  Req_ProtocolVersion : Z;
  Req_MinSupportedVersion : Z;
  Req_ID : string;
  Req_RequestID : string;
  Req_TenantID : string;
  Req_ConnectorID : string;
  Req_Username : string;
  Req_Password : string;
  Req_AttributeNames : list string;
}.

Record subjectMessage := { Message_DirectoryID : string; Message_Username : string }.

Record groupFactMessage := {
  FactMessage_ID : string;
  FactMessage_DN : string;
  FactMessage_Display : string;
  FactMessage_Source : string;
  FactMessage_Depth : Z;
}.

Record verifyResponseMessage := {
  Resp_Type : string;
  Resp_Protocol : string;
  Resp_ProtocolVersion : Z;
  Resp_MinSupportedVersion : Z;
  Resp_ID : string;
  Resp_RequestID : string;
  Resp_TenantID : string;
  Resp_ConnectorID : string;
  Resp_Result : string;
  Resp_Reason : string;
  Resp_Subject : option subjectMessage;
  Resp_Attributes : gmap string (list string);
  Resp_GroupFacts : list groupFactMessage;
  Resp_DirectoryStatus : string;
}.

Record relayErrorPayload := { RelayError_Code : string; RelayError_Retryable : bool }.

Record verifyErrorMessage := {
  VErr_Type : string;
  VErr_Protocol : string;
  VErr_ProtocolVersion : Z;
  VErr_MinSupportedVersion : Z;
  VErr_ID : string;
  VErr_RequestID : string;
  VErr_TenantID : string;
  VErr_ConnectorID : string;
  VErr_Error : relayErrorPayload;
}.

(** What [processVerifyRequest] returns. *)
Inductive message :=
| ResponseMessage (m : verifyResponseMessage)
| ErrorMessage (m : verifyErrorMessage).

(** A message as read: what it unmarshals to as an envelope and as a request;
    [None] is a decoding error. *)
Record rawMessage := {
  as_envelope : option envelope;
  as_request : option verifyRequestMessage;
}.

(** ** Configuration *)

(** The directory is reached through an effect, [HasDirectory] says whether there
    is one; a nil audit sink or logger is replaced by one that discards. *)
Record RelayClientConfig := {
  RC_URL : string;
  RC_TenantID : string;
  RC_ConnectorID : string;
  RC_InstanceID : string;
  RC_DisplayName : string;
  RC_Version : string;
  RC_StartedAt : Z;
  RC_ConfigFingerprint : string;
  RC_ConfigCategories : list string;
  RC_KeyID : string;
  RC_Secret : string;
  RC_HasDirectory : bool;
  RC_AuditHashSecret : string;
  RC_Protection : ProtectionPolicy;
  RC_RequestTimeout : Z;
  RC_Concurrency : Z;
  RC_ReconnectMin : Z;
  RC_ReconnectMax : Z;
}.

(** The client with the capacity of its slot channel and the shared state it
    starts with. *)
Record RelayClient := {
  Relay_Config : RelayClientConfig;
  Relay_Limit : Z;
  Relay_Replay : relayReplayCache;
  Relay_Storms : relayStorms;
}.

(** The text of a parse error is not modelled. *)
Definition parseRelayURL (raw : string) : result string URL :=
  match Parse raw with
  | None => Err "invalid URL"
  | Some parsed =>
      if (Scheme parsed =? "wss")%string then Ok parsed
      else if (Scheme parsed =? "ws")%string &&
              ((Hostname parsed =? "localhost")%string || (Hostname parsed =? "127.0.0.1")%string ||
               (Hostname parsed =? "::1")%string)
      then Ok parsed
      else Err "relay URL must use wss:// except ws://localhost for local development"
  end.

Definition binding_text : string :=
  "relay URL must include /api/auth/directory-relay/connect/{tenant_id}/{connector_id}".

(** The last six segments of the path, the first of them last. *)
Definition validateRelayURLBinding (raw tenantID connectorID : string) : result string unit :=
  parsed ←? parseRelayURL raw;;
  match rev (split_byte "/"%char (trim_slashes (EscapedPath parsed))) with
  | connector :: tenant :: d :: c :: b :: a :: _ =>
      if negb (join "/" [a; b; c; d] =? "api/auth/directory-relay/connect")%string
      then Err binding_text
      else
        match PathUnescape tenant, PathUnescape connector with
        | None, _ => Err "relay URL tenant id is invalid"
        | Some _, None => Err "relay URL connector id is invalid"
        | Some rawTenantID, Some rawConnectorID =>
            if negb (rawTenantID =? tenantID)%string
            then Err "relay URL tenant id does not match configured tenant_id"
            else if negb (rawConnectorID =? connectorID)%string
            then Err "relay URL connector id does not match configured connector_id"
            else Ok tt
        end
  | _ => Err binding_text
  end.

Definition positive_duration (d default : Z) : Z := if d <=? 0 then default else d.

Definition zero_fingerprint : string :=
  "sha256:" +:+ String.string_of_list_ascii (replicate 64 "0"%char).

(** Lines 201-227: the defaults; [now] is the clock, read for a zero start. *)
Definition relay_defaults (cfg : RelayClientConfig) (now : Z) : RelayClientConfig := {|
  RC_URL := RC_URL cfg; RC_TenantID := RC_TenantID cfg; RC_ConnectorID := RC_ConnectorID cfg;
  RC_InstanceID := RC_InstanceID cfg; RC_DisplayName := RC_DisplayName cfg;
  RC_Version := if (RC_Version cfg =? "")%string then "unknown" else RC_Version cfg;
  RC_StartedAt := if is_zero (RC_StartedAt cfg) then now else RC_StartedAt cfg;
  RC_ConfigFingerprint :=
    if (RC_ConfigFingerprint cfg =? "")%string then zero_fingerprint else RC_ConfigFingerprint cfg;
  RC_ConfigCategories := RC_ConfigCategories cfg; RC_KeyID := RC_KeyID cfg;
  RC_Secret := RC_Secret cfg; RC_HasDirectory := RC_HasDirectory cfg;
  RC_AuditHashSecret := RC_AuditHashSecret cfg; RC_Protection := RC_Protection cfg;
  RC_RequestTimeout := positive_duration (RC_RequestTimeout cfg) (2500 * Millisecond);
  RC_Concurrency := if RC_Concurrency cfg <=? 0 then 8 else RC_Concurrency cfg;
  RC_ReconnectMin := positive_duration (RC_ReconnectMin cfg) Second;
  RC_ReconnectMax := positive_duration (RC_ReconnectMax cfg) (30 * Second) |}.

Definition NewRelayClient (cfg : RelayClientConfig) (now : Z) : result string RelayClient :=
  if (RC_URL cfg =? "")%string then Err "relay URL is required"
  else
    _ ←? parseRelayURL (RC_URL cfg);;
    if (RC_TenantID cfg =? "")%string then Err "relay tenant id is required"
    else if (RC_ConnectorID cfg =? "")%string then Err "relay connector id is required"
    else if (RC_InstanceID cfg =? "")%string then Err "relay instance id is required"
    else
      _ ←? validateRelayURLBinding (RC_URL cfg) (RC_TenantID cfg) (RC_ConnectorID cfg);;
      if (RC_KeyID cfg =? "")%string then Err "relay key id is required"
      else if (RC_Secret cfg =? "")%string then Err "relay secret is required"
      else if negb (RC_HasDirectory cfg) then Err "relay directory client is required"
      else
        let cfg := relay_defaults cfg now in
        Ok {| Relay_Config := cfg; Relay_Limit := RC_Concurrency cfg;
              Relay_Replay := newRelayReplayCache (5 * Minute);
              Relay_Storms := newRelayStorms (RC_Protection cfg) |}.

(** ** Effects *)

(** [Spawn] starts the handling of a request, [Wait] ends early, with [true],
    when the context does; [StillRunning] has no answer: an endless loop has
    used up the turns of the model. *)
Inductive effect : Type → Type :=
| Now : effect Z
| NewUUID : effect string
| StormBlocked (kind : relayStormKind) (now : Z) : effect bool
| RecordStorm (kind : relayStormKind) (now : Z) : effect unit
| ResetStorm (kind : relayStormKind) : effect unit
| RememberKey (key : string) (now : Z) : effect bool
| AcquireSlot : effect bool
| ReleaseSlot : effect unit
| WriteEvent (e : Event) : effect bool
| VerifyDirectory (timeout : Z) (r : VerifyPasswordRequest) : effect (result error VerifyPasswordResult)
| Dial (u : URL) : effect (option string)
| CloseConn : effect unit
| ReadChallenge : effect (result string challengeMessage)
| WriteAuth (m : authResponseMessage) : effect (option string)
| ReadAck : effect (result string envelope)
| ReadMessage : effect (result string rawMessage)
| WriteMessage (m : message) : effect (option string)
| Spawn (request : verifyRequestMessage) : effect unit
| ContextDone : effect bool
| Wait (backoff : Z) : effect bool
| StillRunning : effect Empty_set.

Abbreviation io := (prog effect).

Definition still_running {A} : io A := Vis StillRunning (λ x : Empty_set, match x with end).

(** ** Signing *)

Record AuthCanonicalInput := {
  Canon_TenantID : string;
  Canon_ConnectorID : string;
  Canon_KeyID : string;
  Canon_ProtocolVersion : Z;
  Canon_MinSupportedVersion : Z;
  Canon_ChallengeID : string;
  Canon_Nonce : string;
  Canon_Timestamp : string;
}.

Definition canonical_fields (input : AuthCanonicalInput) : list string :=
  [RelayAlgorithm; Canon_TenantID input; Canon_ConnectorID input; Canon_KeyID input;
   pretty (Canon_ProtocolVersion input); pretty (Canon_MinSupportedVersion input);
   Canon_ChallengeID input; Canon_Nonce input; Canon_Timestamp input].

Definition AuthCanonical (input : AuthCanonicalInput) : string :=
  join newline (canonical_fields input).

Definition RelaySignCanonical (canonical secret : string) : string :=
  hex_encode (Sha256.hmac secret canonical).

Definition relayProtocolCompatible (env : envelope) : bool :=
  (MinSupportedVersion <=? Env_ProtocolVersion env) &&
  (Env_MinSupportedVersion env <=? ProtocolVersion).

Definition versions (protocolVersion minSupported : Z) : envelope := {|
  Env_Type := ""; Env_Protocol := ""; Env_ProtocolVersion := protocolVersion;
  Env_MinSupportedVersion := minSupported |}.

Section client.
Context `{UnicodeTables}.
Variable c : RelayClient.

Abbreviation cfg := (Relay_Config c).

(** ** One request *)

Definition latencyMS (start : Z) : io Z :=
  now <~ call Now;; Ret (dur_milliseconds (time_sub now start)).

Definition emit (event : Event) : io unit :=
  id <~ call NewUUID;;
  now <~ call Now;;
  _ <~ call (WriteEvent (stamp id now event));;
  Ret tt.

Definition usernameHash (username : string) : string :=
  if (username =? "")%string || (RC_AuditHashSecret cfg =? "")%string then ""
  else "hmac-sha256:" +:+ hex_encode (Sha256.hmac (RC_AuditHashSecret cfg) username).

(** The event literals of [processVerifyRequest]; the key id is never set. *)
Definition relay_event (type requestID result reason code : string) (retryable : bool)
    (directoryStatus hash : string) (latency : Z) : Event :=
  mkEvent "" type 0 (RC_TenantID cfg) (RC_ConnectorID cfg) requestID "" result reason code
    retryable latency directoryStatus hash.

Definition report (start : Z) (event : Z → Event) : io unit :=
  latency <~ latencyMS start;; emit (event latency).

Definition stormBlocked (kind : relayStormKind) : io bool :=
  now <~ call Now;; call (StormBlocked kind now).
Definition recordStorm (kind : relayStormKind) : io unit :=
  now <~ call Now;; call (RecordStorm kind now).
Definition resetStorm (kind : relayStormKind) : io unit := call (ResetStorm kind).
Definition rememberRequest (key : string) : io bool :=
  now <~ call Now;; call (RememberKey key now).

Definition verifyError (request : verifyRequestMessage) (code : string) (retryable : bool) : message :=
  ErrorMessage {|
    VErr_Type := "verify.error"; VErr_Protocol := Protocol; VErr_ProtocolVersion := ProtocolVersion;
    VErr_MinSupportedVersion := MinSupportedVersion; VErr_ID := Req_ID request;
    VErr_RequestID := Req_RequestID request; VErr_TenantID := RC_TenantID cfg;
    VErr_ConnectorID := RC_ConnectorID cfg;
    VErr_Error := {| RelayError_Code := code; RelayError_Retryable := retryable |} |}.

Definition relayReplayKey (request : verifyRequestMessage) : string :=
  Req_TenantID request +:+ ":" +:+ Req_ConnectorID request +:+ ":" +:+ Req_RequestID request.

Definition groupFactMessages (facts : list GroupFact) : list groupFactMessage :=
  (λ fact, {| FactMessage_ID := GroupFact_ID fact; FactMessage_DN := GroupFact_DN fact;
              FactMessage_Display := GroupFact_Display fact;
              FactMessage_Source := GroupFact_Source fact;
              FactMessage_Depth := GroupFact_Depth fact |}) <$> facts.

Definition directoryErrorCode (err : error) : string :=
  if errors_Is err ErrDirectoryTLS then "directory_tls_error"
  else if errors_Is err ErrDirectoryUnavailable then "directory_unavailable"
  else if errors_Is err ErrDirectoryReferral then "directory_referral"
  else "directory_error".

Definition validVerifyRequest (request : verifyRequestMessage) : bool :=
  (Req_Type request =? "verify.request")%string &&
  (Req_Protocol request =? Protocol)%string &&
  relayProtocolCompatible (versions (Req_ProtocolVersion request) (Req_MinSupportedVersion request)) &&
  negb (Req_ID request =? "")%string &&
  negb (Req_RequestID request =? "")%string &&
  (Req_TenantID request =? RC_TenantID cfg)%string &&
  (Req_ConnectorID request =? RC_ConnectorID cfg)%string &&
  negb (Req_Username request =? "")%string &&
  negb (Req_Password request =? "")%string.

(** An error of a valid request: reported, then answered. *)
Definition request_error (start : Z) (request : verifyRequestMessage) (type code : string)
    (retryable : bool) : io unit :=
  report start (relay_event type (Req_RequestID request) "error" "" code retryable ""
                  (usernameHash (Req_Username request))).

Definition response_message (request : verifyRequestMessage) (result reason : string)
    (subject : option subjectMessage) (attributes : gmap string (list string))
    (facts : list groupFactMessage) : message :=
  ResponseMessage {|
    Resp_Type := "verify.response"; Resp_Protocol := Protocol;
    Resp_ProtocolVersion := ProtocolVersion; Resp_MinSupportedVersion := MinSupportedVersion;
    Resp_ID := Req_ID request; Resp_RequestID := Req_RequestID request;
    Resp_TenantID := Req_TenantID request; Resp_ConnectorID := Req_ConnectorID request;
    Resp_Result := result; Resp_Reason := reason; Resp_Subject := subject;
    Resp_Attributes := attributes; Resp_GroupFacts := facts; Resp_DirectoryStatus := "ok" |}.

(** Lines 497-546: an answer the directory gave. *)
Definition processVerdict (start : Z) (request : verifyRequestMessage) (result : VerifyPasswordResult)
    : io message :=
  let credentialResult := CredentialResult result in
  let hash := usernameHash (Req_Username request) in
  resetStorm relayStormKindDirectoryError;;;
  if (credentialResult =? CredentialResultSuccess)%string then
    report start (relay_event EventVerifySuccess (Req_RequestID request) "success" "" "" false "ok" hash);;;
    Ret (response_message request credentialResult ""
           (Some {| Message_DirectoryID := DirectoryID (Verify_Subject result);
                    Message_Username := Subject_Username (Verify_Subject result) |})
           (Verify_Attributes result) (groupFactMessages (Verify_GroupFacts result)))
  else
    report start (relay_event EventVerifyFailure (Req_RequestID request) credentialResult
                    (SafeReason result) "" false "ok" hash);;;
    Ret (response_message request credentialResult (SafeReason result) None ∅ []).

(** Lines 464-477 and 481-495: the directory failed. *)
Definition processFailure (start : Z) (request : verifyRequestMessage) (code : string) : io message :=
  request_error start request EventVerifyError code true;;;
  recordStorm relayStormKindDirectoryError;;;
  Ret (verifyError request code true).

(** Lines 441-547, with a slot held. *)
Definition processAdmitted (start : Z) (request : verifyRequestMessage) : io message :=
  unavailable <~ stormBlocked relayStormKindDirectoryError;;
  if unavailable : bool then
    request_error start request EventVerifyError "directory_error_storm_limited" true;;;
    Ret (verifyError request "directory_error_storm_limited" true)
  else
    answer <~ call (VerifyDirectory (RC_RequestTimeout cfg)
                      {| Verify_Username := Req_Username request;
                         Verify_Password := Req_Password request;
                         Verify_AttributeNames := Req_AttributeNames request |});;
    match answer with
    | Err err => processFailure start request (directoryErrorCode err)
    | Ok result =>
        if (CredentialResult result =? CredentialResultSourceUnavailable)%string
        then processFailure start request (SafeReason result)
        else processVerdict start request result
    end.

(** Lines 365-391: a request that is not for this connector or lacks a field. *)
Definition processInvalid (start : Z) (request : verifyRequestMessage) : io message :=
  let event code retryable :=
    relay_event EventVerifyError (Req_RequestID request) "error" "" code retryable "" "" in
  malformed <~ stormBlocked relayStormKindMalformed;;
  if malformed : bool then
    report start (event "malformed_request_storm_limited" true);;;
    Ret (verifyError request "malformed_request_storm_limited" true)
  else
    report start (event "invalid_relay_request" false);;;
    recordStorm relayStormKindMalformed;;;
    Ret (verifyError request "invalid_relay_request" false).

Definition processVerifyRequest (request : verifyRequestMessage) : io message :=
  start <~ call Now;;
  if negb (validVerifyRequest request) then processInvalid start request
  else
    replaying <~ stormBlocked relayStormKindReplay;;
    if replaying : bool then
      request_error start request EventVerifyError "replay_storm_limited" true;;;
      Ret (verifyError request "replay_storm_limited" true)
    else
      fresh <~ rememberRequest (relayReplayKey request);;
      if negb fresh then
        request_error start request EventReplayDetected "replay_detected" false;;;
        recordStorm relayStormKindReplay;;;
        Ret (verifyError request "replay_detected" false)
      else
        admitted <~ call AcquireSlot;;
        if negb admitted then
          request_error start request EventVerifyError "connector_rate_limited" true;;;
          Ret (verifyError request "connector_rate_limited" true)
        else
          answer <~ processAdmitted start request;;
          call ReleaseSlot;;;
          Ret answer.

Definition handleVerifyRequest (request : verifyRequestMessage) : io unit :=
  answer <~ processVerifyRequest request;;
  _ <~ call (WriteMessage answer);;
  Ret tt.

(** ** One connection *)

Definition auth_response (challenge : challengeMessage) (timestamp : string) : authResponseMessage :=
  let canonical := AuthCanonical {|
    Canon_TenantID := RC_TenantID cfg; Canon_ConnectorID := RC_ConnectorID cfg;
    Canon_KeyID := RC_KeyID cfg; Canon_ProtocolVersion := ProtocolVersion;
    Canon_MinSupportedVersion := MinSupportedVersion;
    Canon_ChallengeID := Challenge_ID challenge; Canon_Nonce := Challenge_Nonce challenge;
    Canon_Timestamp := timestamp |} in
  {| Auth_Type := "auth.response"; Auth_Protocol := Protocol;
     Auth_ProtocolVersion := ProtocolVersion; Auth_MinSupportedVersion := MinSupportedVersion;
     Auth_TenantID := RC_TenantID cfg; Auth_ConnectorID := RC_ConnectorID cfg;
     Auth_InstanceID := RC_InstanceID cfg; Auth_DisplayName := RC_DisplayName cfg;
     Auth_Version := RC_Version cfg; Auth_ReleaseChannel := "stable";
     Auth_StartedAt := format_rfc3339 (RC_StartedAt cfg);
     Auth_ConfigFingerprint := RC_ConfigFingerprint cfg;
     Auth_ConfigCategories := RC_ConfigCategories cfg; Auth_KeyID := RC_KeyID cfg;
     Auth_ChallengeID := Challenge_ID challenge; Auth_Nonce := Challenge_Nonce challenge;
     Auth_Timestamp := timestamp;
     Auth_Signature := RelaySignCanonical canonical (RC_Secret cfg) |}.

Definition authenticate : io (result string unit) :=
  challenge <?~ call ReadChallenge;;
  if negb (Challenge_Type challenge =? "auth.challenge")%string ||
     negb (Challenge_Protocol challenge =? Protocol)%string ||
     negb (relayProtocolCompatible
             (versions (Challenge_ProtocolVersion challenge) (Challenge_MinSupportedVersion challenge)))
  then Ret (Err "invalid relay challenge")
  else
    match parse_rfc3339 (Challenge_ExpiresAt challenge) with
    | None => Ret (Err "invalid relay challenge expiry")
    | Some expiresAt =>
        now <~ call Now;;
        if after now expiresAt then Ret (Err "relay challenge expired")
        else
          now <~ call Now;;
          written <~ call (WriteAuth (auth_response challenge (format_rfc3339 now)));;
          match written with
          | Some err => Ret (Err err)
          | None =>
              ack <?~ call ReadAck;;
              if negb (Env_Protocol ack =? Protocol)%string || negb (Env_Type ack =? "auth.ok")%string ||
                 negb (relayProtocolCompatible ack)
              then Ret (Err "relay authentication rejected")
              else Ret (Ok tt)
          end
    end.

(** The loop of [runOnce], for so many messages. *)
Fixpoint read_loop (turns : nat) : io string :=
  match turns with
  | O => still_running
  | S turns =>
      read <~ call ReadMessage;;
      match read with
      | Err err => Ret err
      | Ok raw =>
          match as_envelope raw with
          | None => read_loop turns
          | Some env =>
              if negb (Env_Protocol env =? Protocol)%string ||
                 negb (Env_Type env =? "verify.request")%string ||
                 negb (relayProtocolCompatible env)
              then read_loop turns
              else
                match as_request raw with
                | None => read_loop turns
                | Some request => call (Spawn request);;; read_loop turns
                end
          end
      end
  end.

(** [runOnce] always ends with an error; the connection is closed once dialled. *)
Definition runOnce (turns : nat) : io string :=
  match parseRelayURL (RC_URL cfg) with
  | Err err => Ret err
  | Ok relayURL =>
      failed <~ call (Dial relayURL);;
      match failed with
      | Some err => Ret err
      | None =>
          err <~ (authenticated <~ authenticate;;
                  match authenticated with
                  | Err err => Ret err
                  | Ok _ => read_loop turns
                  end);;
          call CloseConn;;;
          Ret err
      end
  end.

(** ** Reconnecting *)

Definition next_backoff (backoff : Z) : Z :=
  let backoff := wrap64 (backoff * 2) in
  if RC_ReconnectMax cfg <? backoff then RC_ReconnectMax cfg else backoff.

Fixpoint run_loop (attempts turns : nat) (backoff : Z) : io unit :=
  match attempts with
  | O => still_running
  | S attempts =>
      _ <~ runOnce turns;;
      ended <~ call ContextDone;;
      if ended : bool then Ret tt
      else
        stopped <~ call (Wait backoff);;
        if stopped : bool then Ret tt
        else run_loop attempts turns (next_backoff backoff)
  end.

Definition Run (attempts turns : nat) : io unit :=
  run_loop attempts turns (RC_ReconnectMin cfg).
End client.
