(* ===== verification/RelayProofs.v ===== *)
(** * Properties of the relay client

    What one request does, whatever the clock, the caches, the slots, the audit
    sink and the directory answer; authentication; construction and
    reconnection. *)

From S2P Require Import Prelude GoStrings GoCrypto GoTime Effects Config Directory AuditEvent Url Validate ValidateProofs HmacProofs RelayState Relay.
Local Open Scope Z_scope.

Abbreviation trace := (list (entry effect)).

(** ** Readings of a trace *)

Definition event_of (x : entry effect) : option Event :=
  let 'existT _ (e, _) := x in match e with WriteEvent ev => Some ev | _ => None end.

Definition directory_call_of (x : entry effect)
    : option (VerifyPasswordRequest * result error VerifyPasswordResult) :=
  match projT2 x with
  | (e, r) =>
      match e in effect R return R → _ with
      | VerifyDirectory _ q => λ answer, Some (q, answer)
      | _ => λ _, None
      end r
  end.

Definition remembered_of (x : entry effect) : option (string * bool) :=
  match projT2 x with
  | (e, r) =>
      match e in effect R return R → _ with
      | RememberKey key _ => λ answer, Some (key, answer)
      | _ => λ _, None
      end r
  end.

Definition slot_change (x : entry effect) : Z :=
  match projT2 x with
  | (e, r) =>
      match e in effect R return R → Z with
      | AcquireSlot => λ taken : bool, if taken then 1 else 0
      | ReleaseSlot => λ _, -1
      | _ => λ _, 0
      end r
  end.

(** The storm counters an effect changes: [true] records, [false] clears. *)
Definition storm_change_of (x : entry effect) : option (bool * string) :=
  let 'existT _ (e, _) := x in
  match e with
  | RecordStorm kind _ => Some (true, kind)
  | ResetStorm kind => Some (false, kind)
  | _ => None
  end.

(** An authentication written, with the error of the write. *)
Definition auth_write_of (x : entry effect) : option (authResponseMessage * option string) :=
  match projT2 x with
  | (e, r) =>
      match e in effect R return R → _ with
      | WriteAuth m => λ failed, Some (m, failed)
      | _ => λ _, None
      end r
  end.

Definition ack_of (x : entry effect) : option (result string envelope) :=
  match projT2 x with
  | (e, r) =>
      match e in effect R return R → _ with
      | ReadAck => λ answer, Some answer
      | _ => λ _, None
      end r
  end.

(** A challenge read, and a reading of the clock. *)
Definition challenge_of (x : entry effect) : option (result string challengeMessage) :=
  match projT2 x with
  | (e, r) =>
      match e in effect R return R → _ with
      | ReadChallenge => λ answer, Some answer
      | _ => λ _, None
      end r
  end.

Definition reading_of (x : entry effect) : option Z :=
  match projT2 x with
  | (e, r) =>
      match e in effect R return R → option Z with
      | Now => λ now, Some now
      | _ => λ _, None
      end r
  end.

Definition events (tr : trace) : list Event := omap event_of tr.
Definition directory_calls (tr : trace) := omap directory_call_of tr.
Definition remembered (tr : trace) : list (string * bool) := omap remembered_of tr.
Definition storm_changes (tr : trace) : list (bool * string) := omap storm_change_of tr.
Definition auth_writes (tr : trace) := omap auth_write_of tr.
Definition acks (tr : trace) := omap ack_of tr.
Definition challenges (tr : trace) := omap challenge_of tr.
Definition readings (tr : trace) : list Z := omap reading_of tr.
Definition auths (tr : trace) : list authResponseMessage := (auth_writes tr).*1.

(** A slot is taken at most once, given back exactly when it was taken, and the
    directory is asked only while it is held. *)
Fixpoint disciplined (held : bool) (tr : trace) : bool :=
  match tr with
  | [] => negb held
  | x :: tr =>
      match directory_call_of x with
      | Some _ => held && disciplined held tr
      | None =>
          if slot_change x =? 1 then negb held && disciplined true tr
          else if slot_change x =? -1 then held && disciplined false tr
          else disciplined held tr
      end
  end.

(** The audit event and the answer tell the same story. *)
Definition coherent (m : message) (e : Event) : Prop :=
  match m with
  | ErrorMessage er =>
      Event_Result e = "error" ∧ Event_ErrorCode e = RelayError_Code (VErr_Error er) ∧
      Event_Retryable e = RelayError_Retryable (VErr_Error er) ∧
      Event_RequestID e = VErr_RequestID er
  | ResponseMessage v =>
      Event_Result e = Resp_Result v ∧ Event_Reason e = Resp_Reason v ∧
      Event_ErrorCode e = "" ∧ Event_Retryable e = false ∧ Event_RequestID e = Resp_RequestID v ∧
      EventType e = (if (Resp_Result v =? CredentialResultSuccess)%string
                     then EventVerifySuccess else EventVerifyFailure)
  end.

(** The answer names the message and the request it answers, and the tenant and
    connector of the client. *)
Definition addressed (c : RelayClient) (request : verifyRequestMessage) (m : message) : Prop :=
  let expected := (Req_ID request, Req_RequestID request, RC_TenantID (Relay_Config c),
                   RC_ConnectorID (Relay_Config c)) in
  match m with
  | ErrorMessage er => (VErr_ID er, VErr_RequestID er, VErr_TenantID er, VErr_ConnectorID er) = expected
  | ResponseMessage v => (Resp_ID v, Resp_RequestID v, Resp_TenantID v, Resp_ConnectorID v) = expected
  end.

(** What the storm counters were told, by the code of the answer and whether the
    directory was asked. *)
Definition expected_storm (m : message) (asked : bool) : list (bool * string) :=
  match m with
  | ResponseMessage _ => [(false, relayStormKindDirectoryError)]
  | ErrorMessage er =>
      let code := RelayError_Code (VErr_Error er) in
      if asked then [(true, relayStormKindDirectoryError)]
      else if (code =? "invalid_relay_request")%string then [(true, relayStormKindMalformed)]
      else if (code =? "replay_detected")%string then [(true, relayStormKindReplay)]
      else []
  end.

Section requests.
Variable c : RelayClient.
Variable request : verifyRequestMessage.

Lemma valid_addressed :
  validVerifyRequest c request = true →
  Req_TenantID request = RC_TenantID (Relay_Config c) ∧
  Req_ConnectorID request = RC_ConnectorID (Relay_Config c).
Proof. unfold validVerifyRequest. intros Hv. by bool_to_prop. Qed.
End requests.

Lemma relay_success_rests (c : RelayClient) (request : verifyRequestMessage) :
  always (processVerifyRequest c request)
    (λ tr m, ∀ v, m = ResponseMessage v → Resp_Result v = CredentialResultSuccess →
       validVerifyRequest c request = true ∧
       remembered tr = [(relayReplayKey request, true)] ∧
       ∃ answer,
         directory_calls tr =
           [({| Verify_Username := Req_Username request; Verify_Password := Req_Password request;
                Verify_AttributeNames := Req_AttributeNames request |}, Ok answer)] ∧
         IsSuccess answer = true ∧
         m = response_message request CredentialResultSuccess ""
               (Some {| Message_DirectoryID := DirectoryID (Verify_Subject answer);
                        Message_Username := Subject_Username (Verify_Subject answer) |})
               (Verify_Attributes answer) (groupFactMessages (Verify_GroupFacts answer))).
Proof.
  walk.
  all: match goal with Hm : _ = ResponseMessage _ |- _ => try discriminate Hm; injection Hm as <- end.
  all: match goal with Hs : Resp_Result _ = _ |- _ => simpl in Hs end; bool_to_prop; try contradiction.
  subst. match goal with Hok : CredentialResult ?a = _ |- _ =>
    split_and!; [done|done|exists a; split_and!; [done| |by rewrite Hok]] end.
  unfold IsSuccess. by apply String.eqb_eq.
Qed.

(** C6: a request over the relay succeeds only on evidence: it is a valid request
    for this tenant and connector, its request id was not seen before, and the
    directory, asked once with the submitted username and password, answered
    success; the answer carries that subject, attributes and groups only. *)
Theorem relay_success_needs_evidence (c : RelayClient) (request : verifyRequestMessage) :
  always (processVerifyRequest c request)
    (λ tr m, ∀ v, m = ResponseMessage v → Resp_Result v = CredentialResultSuccess →
       validVerifyRequest c request = true ∧
       remembered tr = [(relayReplayKey request, true)] ∧
       ∃ answer,
         directory_calls tr =
           [({| Verify_Username := Req_Username request; Verify_Password := Req_Password request;
                Verify_AttributeNames := Req_AttributeNames request |}, Ok answer)] ∧
         IsSuccess answer = true ∧
         m = response_message request CredentialResultSuccess ""
               (Some {| Message_DirectoryID := DirectoryID (Verify_Subject answer);
                        Message_Username := Subject_Username (Verify_Subject answer) |})
               (Verify_Attributes answer) (groupFactMessages (Verify_GroupFacts answer))).
Proof. apply relay_success_rests. Qed.

(** C21: whatever happens, a request over the relay is reported once, answered
    once and accounted for: exactly one audit event is written, and it agrees
    with the answer in verdict, reason, code and retryability; the answer names
    the message, the request, and this tenant and connector; the storm counters
    are told of an invalid request, a replay, a directory failure or a verdict,
    and of nothing else. *)
Theorem relay_one_answer_one_event (c : RelayClient) (request : verifyRequestMessage) :
  always (processVerifyRequest c request)
    (λ tr m, (∃ e, events tr = [e] ∧ coherent m e) ∧ addressed c request m ∧
             storm_changes tr = expected_storm m (negb (empty_list (directory_calls tr)))).
Proof.
  walk.
  all: subst; split; [eexists; split; [reflexivity|]|split]; try done.
  all: try (cbn; split_and!; done).
  all: repeat match goal with H : negb (validVerifyRequest _ _) = false |- _ => apply negb_false_iff in H end.
  all: try (match goal with H : validVerifyRequest _ _ = true |- _ =>
              apply valid_addressed in H as [Ht Hco] end; cbn; by rewrite Ht, Hco).
  all: cbn; match goal with H : (CredentialResult ?a =? _)%string = ?b |- context [Event_Result] => idtac
       | H : (CredentialResult ?a =? CredentialResultSuccess)%string = _ |- _ => rewrite H end.
  all: bool_to_prop; done.
Qed.

(** The relay's requests keep to their slots and leave no trace when they are
    invalid: a slot is taken at most once, given back on every path, and the
    directory asked at most once, while it is held; a request that is not
    complete, compatible and addressed to this tenant and connector reaches
    neither the replay cache nor the slots nor the directory. *)
Theorem relay_slot_discipline (c : RelayClient) (request : verifyRequestMessage) :
  always (processVerifyRequest c request)
    (λ tr _, disciplined false tr = true ∧ (length (directory_calls tr) ≤ 1)%nat ∧
       (validVerifyRequest c request = false →
        remembered tr = [] ∧ directory_calls tr = [] ∧ Forall (λ x, slot_change x = 0) tr)).
Proof.
  walk.
  all: repeat match goal with H : negb ?b = _ |- _ => is_var b; destruct b; try discriminate H end.
  all: repeat match goal with H : negb _ = false |- _ => apply negb_false_iff in H end.
  all: subst; split; [reflexivity|split; [cbn; lia|]]; intros Hinvalid; try congruence.
  all: split_and!; [done|done|repeat constructor].
Qed.

(** ** Passwords *)

(** The effect as an observer sees it who is not the directory. *)
Definition erase_password (R : Type) (e : effect R) : effect R :=
  match e with
  | VerifyDirectory timeout q =>
      VerifyDirectory timeout {|
        Verify_Username := Verify_Username q; Verify_Password := "";
        Verify_AttributeNames := Verify_AttributeNames q |}
  | e => e
  end.

Definition with_password (r : verifyRequestMessage) (password : string) : verifyRequestMessage := {|
  Req_Type := Req_Type r; Req_Protocol := Req_Protocol r;
  Req_ProtocolVersion := Req_ProtocolVersion r; Req_MinSupportedVersion := Req_MinSupportedVersion r;
  Req_ID := Req_ID r; Req_RequestID := Req_RequestID r; Req_TenantID := Req_TenantID r;
  Req_ConnectorID := Req_ConnectorID r; Req_Username := Req_Username r; Req_Password := password;
  Req_AttributeNames := Req_AttributeNames r |}.

(** The relay confines passwords: two requests that differ in the password
    only are handled by the same computation, effect by effect and answer by
    answer, up to the answer written, once the password in the call on the
    directory is blanked. *)
Theorem relay_password_confined (c : RelayClient) (request : verifyRequestMessage)
    (password1 password2 : string) (Hne1 : password1 ≠ "") (Hne2 : password2 ≠ "") :
  similar erase_password
    (handleVerifyRequest c (with_password request password1))
    (handleVerifyRequest c (with_password request password2)).
Proof.
  apply String.eqb_neq in Hne1, Hne2.
  unfold handleVerifyRequest, processVerifyRequest, validVerifyRequest, with_password.
  cbn [Req_Type Req_Protocol Req_ProtocolVersion Req_MinSupportedVersion Req_ID Req_RequestID
       Req_TenantID Req_ConnectorID Req_Username Req_Password].
  rewrite Hne1, Hne2.
  repeat first
    [ reflexivity
    | apply bind_similar; [|intros ?]
    | apply similar_vis; [done|intros ?]
    | progress unfold processInvalid, processAdmitted
    | case_match ].
Qed.

(** ** Authentication *)

(** A challenge the client answers, at the time [now]. *)
Definition usable_challenge (challenge : challengeMessage) (now : Z) : Prop :=
  Challenge_Type challenge = "auth.challenge" ∧ Challenge_Protocol challenge = Protocol ∧
  relayProtocolCompatible
    (versions (Challenge_ProtocolVersion challenge) (Challenge_MinSupportedVersion challenge)) = true ∧
  ∃ expiresAt, parse_rfc3339 (Challenge_ExpiresAt challenge) = Some expiresAt ∧ now <= expiresAt.

Definition accepting (ack : envelope) : Prop :=
  Env_Type ack = "auth.ok" ∧ Env_Protocol ack = Protocol ∧ relayProtocolCompatible ack = true.

(** The effects up to an answer: a challenge read, the clock read to judge it and
    again to date the answer, and the answer written. *)
Definition answers_challenge (c : RelayClient) (challenge : challengeMessage) (now now' : Z)
    (written : option string) : trace :=
  [existT _ (ReadChallenge, Ok challenge); existT _ (Now, now); existT _ (Now, now');
   existT _ (WriteAuth (auth_response c challenge (format_rfc3339 now')), written)].

(** What [authenticate] tests. *)
Definition misshapen (challenge : challengeMessage) : bool :=
  negb (Challenge_Type challenge =? "auth.challenge")%string ||
  negb (Challenge_Protocol challenge =? Protocol)%string ||
  negb (relayProtocolCompatible
          (versions (Challenge_ProtocolVersion challenge) (Challenge_MinSupportedVersion challenge))).

Lemma usable_tested challenge now :
  usable_challenge challenge now ↔
  misshapen challenge = false ∧
  ∃ expiresAt, parse_rfc3339 (Challenge_ExpiresAt challenge) = Some expiresAt ∧ after now expiresAt = false.
Proof.
  unfold usable_challenge, misshapen, after. setoid_rewrite Z.ltb_ge.
  rewrite !orb_false_iff, !negb_false_iff, !String.eqb_eq. tauto.
Qed.

Lemma unusable challenge now :
  misshapen challenge = true ∨ parse_rfc3339 (Challenge_ExpiresAt challenge) = None → ¬ usable_challenge challenge now.
Proof. rewrite usable_tested. intros [H|H] (Hm & expiresAt & He & _); congruence. Qed.

Lemma accepting_tested ack :
  accepting ack ↔
  negb (Env_Protocol ack =? Protocol)%string || negb (Env_Type ack =? "auth.ok")%string ||
  negb (relayProtocolCompatible ack) = false.
Proof. unfold accepting. rewrite !orb_false_iff, !negb_false_iff, !String.eqb_eq. tauto. Qed.

(** C32: the relay answers the challenge it read, at most once, and exactly when
    that challenge is compatible and has not expired at the reading of the clock
    that follows: the answer carries the signature of its ids, that challenge's id
    and nonce and the next reading, and nothing is written before.  It goes on
    exactly when that answer was written and the acknowledgement read next
    accepts it. *)
Theorem relay_authentication (c : RelayClient) :
  always (authenticate c)
    (λ tr r,
       (∀ m, m ∈ auths tr → ∃ challenge now now' written rest,
          tr = answers_challenge c challenge now now' written ++ rest ∧ usable_challenge challenge now ∧
          m = auth_response c challenge (format_rfc3339 now') ∧ auths rest = []) ∧
       (∀ challenge, challenges tr = [Ok challenge] → auths tr = [] →
          (∀ now, ¬ usable_challenge challenge now) ∨
          ∃ now, readings tr = [now] ∧ ¬ usable_challenge challenge now) ∧
       (r = Ok tt → ∃ challenge now now' ack,
          tr = answers_challenge c challenge now now' None ++ [existT _ (ReadAck, Ok ack)] ∧
          usable_challenge challenge now ∧ accepting ack) ∧
       (∀ m ack, auth_writes tr = [(m, None)] → acks tr = [Ok ack] → accepting ack → r = Ok tt)).
Proof.
  unfold authenticate. intros [challenge|err]; [|by split_and!; [intros m ?%not_elem_of_nil|..]].
  cbn [always bind bind_ok call]. destruct (negb (Challenge_Type challenge =? _)%string || _ || _) eqn:Hshape;
    cbn [always bind bind_ok call]; fold (misshapen challenge) in Hshape.
  { split_and!; [by intros m ?%not_elem_of_nil| |done..].
    intros ch Hch _. injection Hch as <-. left. intros now. apply unusable. by left. }
  destruct (parse_rfc3339 (Challenge_ExpiresAt challenge)) as [expiresAt|] eqn:Hexp; cbn [always bind bind_ok call]; last first.
  { split_and!; [by intros m ?%not_elem_of_nil| |done..].
    intros ch Hch _. injection Hch as <-. left. intros now. apply unusable. by right. }
  intros now. cbn [always bind bind_ok call]. destruct (after now expiresAt) eqn:Hafter; cbn [always bind bind_ok call].
  { split_and!; [by intros m ?%not_elem_of_nil| |done..].
    intros ch Hch _. injection Hch as <-. right. exists now. split; [done|]. rewrite usable_tested. intros (_ & e & He & Ha). congruence. }
  assert (Husable : usable_challenge challenge now) by (apply usable_tested; eauto).
  intros now'.
  assert (Hanswer : ∀ written rest m, auths rest = [] → m ∈ auths (answers_challenge c challenge now now' written ++ rest) →
    ∃ challenge' t t' w rest', answers_challenge c challenge now now' written ++ rest = answers_challenge c challenge' t t' w ++ rest' ∧
      usable_challenge challenge' t ∧ m = auth_response c challenge' (format_rfc3339 t') ∧ auths rest' = []).
  { intros written rest m Hrest Hm. exists challenge, now, now', written, rest. split_and!; try done.
    change (m ∈ auth_response c challenge (format_rfc3339 now') :: auths rest) in Hm. rewrite Hrest in Hm.
    by apply list_elem_of_singleton in Hm. }
  intros [err|]; cbn [always bind bind_ok call]; [split_and!; [exact (λ m, Hanswer (Some err) [] m eq_refl)|done..]|].
  intros [ack|err]; cbn [always bind bind_ok call]; [|by split_and!; [exact (λ m, Hanswer None [existT _ (ReadAck, Err err)] m eq_refl)|..]].
  destruct (negb (Env_Protocol ack =? Protocol)%string || _ || _) eqn:Hack; cbn [always].
  - split_and!; [exact (λ m, Hanswer None [existT _ (ReadAck, Ok ack)] m eq_refl)|done..|]. intros m a _ Ha Hok. injection Ha as <-. apply accepting_tested in Hok. congruence.
  - split_and!; [exact (λ m, Hanswer None [existT _ (ReadAck, Ok ack)] m eq_refl)|done| |done]. intros _. exists challenge, now, now', ack.
    split_and!; [done..|]. by apply accepting_tested.
Qed.

(** The fields of the canonical text, on lines of their own. *)
Definition one_line (input : AuthCanonicalInput) : Prop :=
  Forall (λ field, lacks LF field = true) (canonical_fields input).

(** The signature of an authentication binds its fields.  For two inputs
    whose fields hold no line feed, equal signatures under one secret mean equal
    inputs, or two different canonical texts with one HMAC. *)
Theorem auth_signature_binds (input1 input2 : AuthCanonicalInput) (secret : string)
    (Hline1 : one_line input1) (Hline2 : one_line input2)
    (Hsig : RelaySignCanonical (AuthCanonical input1) secret =
            RelaySignCanonical (AuthCanonical input2) secret) :
  hmac_collide secret (AuthCanonical input1) (AuthCanonical input2) ∨ input1 = input2.
Proof.
  apply hex_encode_inj in Hsig.
  destruct (decide (AuthCanonical input1 = AuthCanonical input2)) as [Heq|Hne]; [right|by left].
  apply join_inj in Heq; [|done..].
  destruct input1, input2. unfold canonical_fields in Heq. simpl in Heq.
  injection Heq as -> -> -> Hv Hm -> -> ->. apply (inj pretty) in Hv as ->.
  by apply (inj pretty) in Hm as ->.
Qed.

(** ** Construction *)

(** The URL is encrypted, or local, and ends in the relay path with the ids. *)
Definition relay_url (raw tenantID connectorID : string) : Prop :=
  ∃ u tenant connector,
    Parse raw = Some u ∧ (Scheme u = "wss" ∨ Scheme u = "ws" ∧ local_host (Hostname u) = true) ∧
    path_ids "api/auth/directory-relay/connect" u = Some (tenant, connector) ∧
    PathUnescape tenant = Some tenantID ∧ PathUnescape connector = Some connectorID.

Definition complete_config (cfg : RelayClientConfig) : Prop :=
  RC_TenantID cfg ≠ "" ∧ RC_ConnectorID cfg ≠ "" ∧ RC_InstanceID cfg ≠ "" ∧ RC_KeyID cfg ≠ "" ∧
  RC_Secret cfg ≠ "" ∧ RC_HasDirectory cfg = true.

Lemma parseRelayURL_ok raw u :
  parseRelayURL raw = Ok u ↔
  Parse raw = Some u ∧ (Scheme u = "wss" ∨ Scheme u = "ws" ∧ local_host (Hostname u) = true).
Proof.
  unfold parseRelayURL, local_host. destruct (Parse raw) as [p|]; [|naive_solver].
  assert (Hlocal : in_strings (Hostname p) ["localhost"; "127.0.0.1"; "::1"] =
    ((Hostname p =? "localhost")%string || (Hostname p =? "127.0.0.1")%string ||
     (Hostname p =? "::1")%string)).
  { unfold in_strings. cbn [existsb]. by rewrite orb_false_r, !orb_assoc. }
  destruct (String.eqb_spec (Scheme p) "wss") as [Hs|Hs].
  { split; [intros [= <-]; auto|]. by intros [[= <-] _]. }
  destruct (String.eqb_spec (Scheme p) "ws") as [Hw|Hw]; cbn [andb].
  - rewrite <-Hlocal. split.
    + case_match eqn:Hl; [|done]. intros [= <-]. auto.
    + intros [[= <-] [?|[_ Hl]]]; [done|]. by rewrite Hl.
  - split; [done|]. intros [[= <-] [?|[? _]]]; done.
Qed.

Lemma binding_ok raw tenantID connectorID :
  validateRelayURLBinding raw tenantID connectorID = Ok tt ↔ relay_url raw tenantID connectorID.
Proof.
  unfold validateRelayURLBinding, relay_url. rewrite result_bind_ok. split.
  - intros (u & [Hparse Hscheme]%parseRelayURL_ok & Hpath). exists u.
    unfold path_ids.
    destruct (rev (split_byte _ _)) as [|cid [|tid [|d [|cc [|bb [|aa more]]]]]]; try done.
    destruct (String.eqb _ "api/auth/directory-relay/connect"); [|done]. exists tid, cid.
    destruct (PathUnescape tid) as [t|]; [|done]. destruct (PathUnescape cid) as [k|]; [|done].
    simpl in Hpath. destruct (String.eqb_spec t tenantID); [|done].
    destruct (String.eqb_spec k connectorID); [|done]. by subst.
  - intros (u & tenant & connector & Hparse & Hscheme & Hids & Ht & Hc). exists u.
    split; [by apply parseRelayURL_ok|]. unfold path_ids in Hids.
    destruct (rev (split_byte _ _)) as [|cid [|tid [|d [|cc [|bb [|aa more]]]]]]; try done.
    destruct (String.eqb _ "api/auth/directory-relay/connect"); [|done].
    injection Hids as -> ->. by rewrite Ht, Hc, !String.eqb_refl.
Qed.

Lemma relay_url_not_empty raw tenantID connectorID : relay_url raw tenantID connectorID → raw ≠ "".
Proof. intros (u & _ & _ & Hparse & Hscheme & _) ->. vm_compute in Hparse. simplify_eq. naive_solver. Qed.

Lemma NewRelayClient_ok (cfg : RelayClientConfig) (now : Z) (c : RelayClient) :
  NewRelayClient cfg now = Ok c ↔
  complete_config cfg ∧ relay_url (RC_URL cfg) (RC_TenantID cfg) (RC_ConnectorID cfg) ∧
  c = {| Relay_Config := relay_defaults cfg now;
         Relay_Limit := if RC_Concurrency cfg <=? 0 then 8 else RC_Concurrency cfg;
         Relay_Replay := newRelayReplayCache (5 * Minute);
         Relay_Storms := newRelayStorms (RC_Protection cfg) |}.
Proof.
  unfold NewRelayClient, complete_config. split.
  - intros Hnew. destruct (String.eqb_spec (RC_URL cfg) ""); [done|].
    apply result_bind_ok in Hnew as (u & _ & Hnew).
    destruct (String.eqb_spec (RC_TenantID cfg) ""); [done|].
    destruct (String.eqb_spec (RC_ConnectorID cfg) ""); [done|].
    destruct (String.eqb_spec (RC_InstanceID cfg) ""); [done|].
    apply result_bind_ok in Hnew as ([] & Hurl%binding_ok & Hnew).
    destruct (String.eqb_spec (RC_KeyID cfg) ""); [done|].
    destruct (String.eqb_spec (RC_Secret cfg) ""); [done|].
    destruct (RC_HasDirectory cfg); [|done]. by injection Hnew as <-.
  - intros ((Ht & Hc & Hi & Hk & Hs & Hd) & Hurl & ->).
    pose proof (relay_url_not_empty _ _ _ Hurl) as Hne.
    apply String.eqb_neq in Hne, Ht, Hc, Hi, Hk, Hs.
    pose proof Hurl as Hbind%binding_ok. destruct Hurl as (u & _ & _ & Hparse & Hscheme & _).
    rewrite Hne, (proj2 (parseRelayURL_ok _ u)) by done.
    cbn [result_bind]. rewrite Ht, Hc, Hi, Hbind. cbn [result_bind]. by rewrite Hk, Hs, Hd.
Qed.

(** A relay client is built exactly from a complete configuration whose URL
    is encrypted (or local) and ends in the relay path with the configured
    tenant and connector; it keeps the configuration with its defaults filled
    in, one slot per allowed request, and an empty replay cache and empty storm
    counters. *)
Theorem relay_client_built (cfg : RelayClientConfig) (now : Z) (c : RelayClient) :
  NewRelayClient cfg now = Ok c ↔
  complete_config cfg ∧ relay_url (RC_URL cfg) (RC_TenantID cfg) (RC_ConnectorID cfg) ∧
  c = {| Relay_Config := relay_defaults cfg now;
         Relay_Limit := if RC_Concurrency cfg <=? 0 then 8 else RC_Concurrency cfg;
         Relay_Replay := newRelayReplayCache (5 * Minute);
         Relay_Storms := newRelayStorms (RC_Protection cfg) |}.
Proof. apply NewRelayClient_ok. Qed.
