(* ===== verification/RelaySession.v ===== *)
(** * The life of the relay client: connections, authentication, reconnection

    The loops of [Run] against a state machine of the connection.  Its state is
    what the peer and the scheduler can see; each effect of the client is a
    transition, allowed in some states only.  The waits between attempts are
    counted in the same state. *)

From S2P Require Import Prelude GoStrings GoTime Effects Url Validate RelayState Relay RelayProofs.
Local Open Scope Z_scope.

(** ** The state machine *)

Inductive phase :=
| Idle
| Dialled
| Challenged (challenge : challengeMessage)
| Answered
| Ready (last : option rawMessage).

Record session := { Phase : phase; Waits : nat; Ended : bool }.

Definition at_phase (s : session) (p : phase) : session :=
  {| Phase := p; Waits := Waits s; Ended := Ended s |}.

Definition accepted (ack : envelope) : bool :=
  (Env_Type ack =? "auth.ok")%string && (Env_Protocol ack =? Protocol)%string &&
  relayProtocolCompatible ack.

Lemma accepted_negated ack :
  negb (accepted ack) =
  negb (Env_Protocol ack =? Protocol)%string || negb (Env_Type ack =? "auth.ok")%string ||
  negb (relayProtocolCompatible ack).
Proof.
  unfold accepted. by destruct (Env_Type ack =? _)%string, (Env_Protocol ack =? _)%string,
    (relayProtocolCompatible ack).
Qed.

(** A message that asks for the request. *)
Definition asks (raw : rawMessage) (request : verifyRequestMessage) : Prop :=
  as_request raw = Some request ∧
  ∃ env, as_envelope raw = Some env ∧ Env_Type env = "verify.request" ∧
         Env_Protocol env = Protocol ∧ relayProtocolCompatible env = true.

Section machine.
Variable c : RelayClient.
Variable allowed : nat → Z → Prop.

(** [session_spec e Q s]: in [s] the client may perform [e], and whatever the
    answer, [Q] holds of it and of the next state. *)
Definition session_spec (R : Type) (e : effect R) (Q : R → session → Prop) (s : session) : Prop :=
  match e in effect R return (R → session → Prop) → Prop with
  | Dial u => λ Q,
      Phase s = Idle ∧ parseRelayURL (RC_URL (Relay_Config c)) = Ok u ∧
      ∀ failed, Q failed (at_phase s (match failed with Some _ => Idle | None => Dialled end))
  | ReadChallenge => λ Q,
      Phase s = Dialled ∧ (∀ err, Q (Err err) s) ∧ ∀ ch, Q (Ok ch) (at_phase s (Challenged ch))
  | WriteAuth m => λ Q,
      (∃ ch now, Phase s = Challenged ch ∧ usable_challenge ch now ∧
         ∃ now', m = auth_response c ch (format_rfc3339 now')) ∧
      (∀ err, Q (Some err) s) ∧ Q None (at_phase s Answered)
  | ReadAck => λ Q,
      Phase s = Answered ∧ (∀ err, Q (Err err) s) ∧
      ∀ ack, Q (Ok ack) (at_phase s (if accepted ack then Ready None else Answered))
  | ReadMessage => λ Q,
      (∃ last, Phase s = Ready last) ∧ (∀ err, Q (Err err) s) ∧
      ∀ raw, Q (Ok raw) (at_phase s (Ready (Some raw)))
  | Spawn request => λ Q,
      (∃ raw, Phase s = Ready (Some raw) ∧ asks raw request) ∧ Q tt (at_phase s (Ready None))
  | CloseConn => λ Q, Phase s ≠ Idle ∧ Q tt (at_phase s Idle)
  | ContextDone => λ Q,
      Phase s = Idle ∧ ∀ b, Q b {| Phase := Idle; Waits := Waits s; Ended := b |}
  | Wait d => λ Q,
      Phase s = Idle ∧ Ended s = false ∧ allowed (Waits s) d ∧
      ∀ b, Q b {| Phase := Idle; Waits := S (Waits s); Ended := b |}
  | Now => λ Q, ∀ now, Q now s
  | StillRunning => λ _, True
  | _ => λ _, False
  end Q.

Lemma session_spec_mono R (e : effect R) (P Q : R → session → Prop) s :
  (∀ r s', P r s' → Q r s') → session_spec R e P s → session_spec R e Q s.
Proof. intros HPQ. destruct e; simpl; naive_solver. Qed.

(** Reading requests: the connection stays up, and each request handled comes
    from the message just read. *)
Lemma read_loop_session turns s last :
  Phase s = Ready last →
  wp session_spec (read_loop turns)
    (λ _ s', ∃ last', s' = at_phase s (Ready last')) s.
Proof.
  revert s last. induction turns as [|turns IH]; intros s last Hs; [done|].
  cbn. split_and!; [eauto| |].
  - intros _. exists last. destruct s; simpl in *. by subst.
  - assert (Hnext : ∀ l', wp session_spec (read_loop turns)
       (λ _ s', ∃ last', s' = at_phase s (Ready last')) (at_phase s (Ready l'))).
    { intros l'. by apply (IH (at_phase s (Ready l')) l'). }
    intros raw. destruct (as_envelope raw) as [env|] eqn:Henv; [|apply Hnext].
    destruct (_ || _)%bool eqn:Hskip; [apply Hnext|]. bool_to_prop.
    destruct (as_request raw) as [request|] eqn:Hreq; [|apply Hnext]. cbn. split; [|apply Hnext].
    exists raw. split; [done|]. split; [done|]. by exists env.
Qed.

(** Authentication: a session that ends in success is ready. *)
Lemma authenticate_session s :
  Phase s = Dialled →
  wp session_spec (authenticate c)
    (λ r s', ∃ p, p ≠ Idle ∧ s' = at_phase s p ∧ (r = Ok tt → p = Ready None)) s.
Proof.
  intros Hs. unfold authenticate. apply wp_bind_ok; [apply session_spec_mono|].
  cbn. split_and!; [done| |].
  { intros err. exists Dialled. split_and!; [done| |done]. destruct s; simpl in *. by subst. }
  intros ch.
  assert (Hfail : ∀ (err : string), ∃ p, p ≠ Idle ∧ at_phase s (Challenged ch) = at_phase s p ∧
            (@Err string unit err = Ok tt → p = Ready None)) by (intros; by exists (Challenged ch)).
  destruct (_ || _)%bool eqn:Hshape; [apply Hfail|].
  destruct (parse_rfc3339 _) as [expiresAt|] eqn:Hexp; [|apply Hfail].
  cbn. intros now. destruct (after now expiresAt) eqn:Hafter; [apply Hfail|]. unfold after in Hafter.
  cbn. intros now'. apply Z.ltb_ge in Hafter. bool_to_prop. split_and!.
  - exists ch, now. split; [done|]. split; [|by exists now'].
    split_and!; try done. by exists expiresAt.
  - intros err. apply Hfail.
  - done.
  - intros err. by exists Answered.
  - intros ack. rewrite <-accepted_negated. destruct (accepted ack); cbn; [|by exists Answered].
    by exists (Ready None).
Qed.

(** One attempt starts and ends without a connection. *)
Lemma runOnce_session turns s :
  Phase s = Idle → wp session_spec (runOnce c turns) (λ _ s', s' = s) s.
Proof.
  intros Hs. unfold runOnce. destruct (parseRelayURL _) as [u|] eqn:Hu; [|done].
  rewrite bind_call. split; [done|]. split; [done|]. intros [err|].
  { destruct s; simpl in *. by subst. }
  do 2 (apply wp_bind; [apply session_spec_mono|]).
  eapply wp_mono; [apply session_spec_mono| |by apply authenticate_session].
  intros r s' (p & Hp & -> & Hready). destruct r as [[]|err].
  - rewrite Hready by done.
    eapply wp_mono; [apply session_spec_mono| |by eapply read_loop_session].
    intros err s' [last' ->]. cbn. split; [done|]. destruct s; simpl in *. by subst.
  - cbn. split; [done|]. destruct s; simpl in *. by subst.
Qed.

Hypothesis allowed_next : ∀ i d, allowed i d → allowed (S i) (next_backoff c d).

Lemma run_loop_session attempts turns backoff s :
  Phase s = Idle → Ended s = false → allowed (Waits s) backoff →
  wp session_spec (run_loop c attempts turns backoff)
    (λ _ s', Phase s' = Idle ∧ Ended s' = true) s.
Proof.
  revert backoff s. induction attempts as [|attempts IH]; intros backoff s Hs He Hd; [done|].
  cbn [run_loop]. apply wp_bind; [apply session_spec_mono|].
  eapply wp_mono; [apply session_spec_mono| |by apply runOnce_session].
  intros _ s' ->. cbn. split; [done|]. intros [|]; [done|].
  cbn. split_and!; [done|done|done|]. intros [|]; [done|]. apply IH; [done|done|]. by apply allowed_next.
Qed.
End machine.

Definition no_session : session := {| Phase := Idle; Waits := 0; Ended := false |}.

(** C14: the life of the relay client follows the protocol, whatever the peer
    answers and however long it runs: it dials its own URL when it has no
    connection; it answers a challenge it read, one still usable, with its own
    signed response; it reads requests only after the peer accepted that
    response; each request it starts to handle comes from the message just read,
    a compatible request, and from it once; every connection is closed before it
    waits, dials again or returns; and it returns only when its context ends. *)
Theorem relay_session_protocol (c : RelayClient) (attempts turns : nat) :
  wp (session_spec c (λ _ _, True)) (Run c attempts turns)
    (λ _ s, Phase s = Idle ∧ Ended s = true) no_session.
Proof. by apply run_loop_session. Qed.

(** The delay after so many failed attempts. *)
Definition delay (c : RelayClient) (failures : nat) : Z :=
  Z.min (RC_ReconnectMin (Relay_Config c) * 2 ^ Z.of_nat failures) (RC_ReconnectMax (Relay_Config c)).

Lemma delay_next (c : RelayClient) (failures : nat) :
  0 < RC_ReconnectMin (Relay_Config c) → RC_ReconnectMax (Relay_Config c) < 2 ^ 62 →
  RC_ReconnectMin (Relay_Config c) <= RC_ReconnectMax (Relay_Config c) →
  next_backoff c (delay c failures) = delay c (S failures).
Proof.
  intros Hmin Hmax Hle. unfold next_backoff, delay.
  rewrite Nat2Z.inj_succ, Z.pow_succ_r by lia.
  assert (0 < 2 ^ Z.of_nat failures) by lia.
  set (p := 2 ^ Z.of_nat failures) in *. set (m := RC_ReconnectMin _) in *. set (M := RC_ReconnectMax _) in *.
  assert (0 < m * p) by nia.
  rewrite wrap64_id by (unfold in_int64, int64_min, int64_max; lia).
  replace (m * (2 * p)) with (2 * (m * p)) by ring.
  destruct (Z.ltb_spec M (Z.min (m * p) M * 2)); lia.
Qed.

(** C34: the relay client backs off exponentially within its bounds: it waits
    [ReconnectMin] after its first attempt, doubles the wait after each further
    one, and never waits longer than [ReconnectMax]; the doubling does not
    overflow. *)
Theorem relay_backoff_bounded (c : RelayClient) (attempts turns : nat)
    (Hmin : 0 < RC_ReconnectMin (Relay_Config c))
    (Hle : RC_ReconnectMin (Relay_Config c) <= RC_ReconnectMax (Relay_Config c))
    (Hmax : RC_ReconnectMax (Relay_Config c) < 2 ^ 62) :
  wp (session_spec c (λ failures d, d = delay c failures)) (Run c attempts turns)
    (λ _ s, Ended s = true) no_session.
Proof.
  eapply wp_mono; [apply session_spec_mono| |apply run_loop_session].
  - by intros _ s [_ He].
  - intros i d ->. by apply delay_next.
  - done.
  - done.
  - unfold delay. simpl. lia.
Qed.
