(* ===== verification/RelayExamples.v ===== *)
(** * The relay client on concrete inputs *)

From S2P Require Import Prelude GoStrings GoCrypto GoTime Effects Config Directory AuditEvent Url Validate HmacProofs RelayState Relay RelayProofs RelaySession.
Local Open Scope Z_scope.

Definition no_policy : ProtectionPolicy := {|
  Relay_WindowMS := 0; Relay_BlockMS := 0; Relay_MalformedRequestLimit := 0;
  Relay_ReplayLimit := 0; Relay_DirectoryErrorLimit := 0 |}.

Definition example_config : RelayClientConfig := {|
  RC_URL := "wss://auth.example/api/auth/directory-relay/connect/acme/hq%20main";
  RC_TenantID := "acme"; RC_ConnectorID := "hq main"; RC_InstanceID := "host-1";
  RC_DisplayName := ""; RC_Version := ""; RC_StartedAt := 1; RC_ConfigFingerprint := "";
  RC_ConfigCategories := []; RC_KeyID := "k1"; RC_Secret := "secret"; RC_HasDirectory := true;
  RC_AuditHashSecret := "audit"; RC_Protection := no_policy; RC_RequestTimeout := 0;
  RC_Concurrency := 0; RC_ReconnectMin := 0; RC_ReconnectMax := 0 |}.

Definition example_client : RelayClient := {|
  Relay_Config := relay_defaults example_config 7;
  Relay_Limit := 8;
  Relay_Replay := newRelayReplayCache (5 * Minute);
  Relay_Storms := newRelayStorms no_policy |}.

Example example_client_built : NewRelayClient example_config 7 = Ok example_client.
Proof. vm_compute. reflexivity. Qed.

Example plain_url_refused :
  parseRelayURL "ws://auth.example/api/auth/directory-relay/connect/acme/hq" =
  Err "relay URL must use wss:// except ws://localhost for local development".
Proof. vm_compute. reflexivity. Qed.

Example other_tenant_refused :
  validateRelayURLBinding (RC_URL example_config) "acme2" "hq main" =
  Err "relay URL tenant id does not match configured tenant_id".
Proof. vm_compute. reflexivity. Qed.

Definition example_request : verifyRequestMessage := {|
  Req_Type := "verify.request"; Req_Protocol := Protocol; Req_ProtocolVersion := 1;
  Req_MinSupportedVersion := 1; Req_ID := "m1"; Req_RequestID := "r1"; Req_TenantID := "acme";
  Req_ConnectorID := "hq main"; Req_Username := "ada"; Req_Password := "pw";
  Req_AttributeNames := [] |}.

Example example_request_valid : validVerifyRequest example_client example_request = true.
Proof. vm_compute. reflexivity. Qed.

(** ** Witnesses *)

Lemma relay_password_confined_witness :
  similar erase_password
    (handleVerifyRequest example_client (with_password example_request "pw"))
    (handleVerifyRequest example_client (with_password example_request "other")).
Proof. apply relay_password_confined; done. Defined.

Definition example_input : AuthCanonicalInput := {|
  Canon_TenantID := "acme"; Canon_ConnectorID := "hq main"; Canon_KeyID := "k1";
  Canon_ProtocolVersion := 1; Canon_MinSupportedVersion := 1; Canon_ChallengeID := "c1";
  Canon_Nonce := "n1"; Canon_Timestamp := "2026-01-01T00:00:00Z" |}.

Lemma auth_signature_binds_witness :
  hmac_collide "secret" (AuthCanonical example_input) (AuthCanonical example_input) ∨
  example_input = example_input.
Proof.
  apply (auth_signature_binds example_input example_input "secret");
    [repeat constructor..|reflexivity].
Defined.

Lemma relay_backoff_bounded_witness :
  wp (session_spec example_client (λ failures d, d = delay example_client failures))
    (Run example_client 9 100) (λ _ s, Ended s = true) no_session.
Proof. apply relay_backoff_bounded; vm_compute; congruence. Defined.

Example example_delays :
  delay example_client <$> [0; 1; 4; 5; 60]%nat =
  [Second; 2 * Second; 16 * Second; 30 * Second; 30 * Second].
Proof. vm_compute. reflexivity. Qed.
