(* ===== verification/RelayPool.v ===== *)
(** * Relayed requests in parallel

    The read loop starts a handler for each request, so the requests of one relay
    client run at once on its slots and its replay cache.  Any number of them,
    interleaved at every effect, with an environment that answers as it likes. *)

From S2P Require Import Prelude GoStrings GoTime Effects Directory Replay RelayState Relay RelayProofs.
Local Open Scope Z_scope.

(** ** Shared state *)

(** The last reading of the clock, the cache, the slots in use, and the keys the
    cache took, which no code reads. *)
Record relay_shared := {
  rs_clock : Z;
  rs_cache : relayReplayCache;
  rs_taken : Z;
  rs_history : list acceptance;
}.

Definition new_relay_shared (c : RelayClient) (start : Z) : relay_shared :=
  {| rs_clock := start; rs_cache := Relay_Replay c; rs_taken := 0; rs_history := [] |}.

Definition take (n : Z) (s : relay_shared) : relay_shared :=
  {| rs_clock := rs_clock s; rs_cache := rs_cache s; rs_taken := rs_taken s + n; rs_history := rs_history s |}.

Definition tick (t : Z) (s : relay_shared) : relay_shared :=
  {| rs_clock := t; rs_cache := rs_cache s; rs_taken := rs_taken s; rs_history := rs_history s |}.

(** [relay_Remember] at [t], with a reading of the clock made earlier. *)
Definition remember_at (key : string) (now t : Z) (s : relay_shared) : bool * relay_shared :=
  let '(fresh, cache) := relay_Remember (rs_cache s) key now in
  (fresh, {| rs_clock := t; rs_cache := cache; rs_taken := rs_taken s;
             rs_history := if fresh then rs_history s ++ [{| took_key := key; took_read := now; took_at := t |}]
                           else rs_history s |}).

Section client.
Variable c : RelayClient.

(** What an effect may answer and make of the shared state.  The slots are a
    channel of capacity [Relay_Limit]. *)
Definition relay_may (R : Type) (e : effect R) (s : relay_shared) : R → relay_shared → Prop :=
  match e in effect R return R → relay_shared → Prop with
  | Now => λ r s', rs_clock s <= r ∧ s' = tick r s
  | RememberKey key now => λ r s', ∃ t, rs_clock s <= t ∧ (r, s') = remember_at key now t s
  | AcquireSlot => λ r s', r = (rs_taken s <? Relay_Limit c) ∧ s' = if r then take 1 s else s
  | ReleaseSlot => λ _ s', s' = take (-1) s
  | StillRunning => λ _ _, False
  | _ => λ _ s', s' = s
  end.

(** ** One request *)

(** What a thread holds, and a reading of the clock that is not in its future. *)
Record grip := { Held : option string; Low : Z }.

Abbreviation slot := (Some (RC_ConnectorID (Relay_Config c))).

(** A thread takes one slot at most, asks the directory only with it, and uses
    clock readings it made. *)
Definition grip_spec (R : Type) (e : effect R) (Q : R → grip → Prop) (g : grip) : Prop :=
  match e in effect R return (R → grip → Prop) → Prop with
  | Now => λ Q, ∀ r, Low g <= r → Q r {| Held := Held g; Low := r |}
  | RememberKey _ now => λ Q, now <= Low g ∧ ∀ r, Q r g
  | AcquireSlot => λ Q,
      Held g = None ∧ Q true {| Held := slot; Low := Low g |} ∧ Q false {| Held := None; Low := Low g |}
  | ReleaseSlot => λ Q, Held g = slot ∧ Q tt {| Held := None; Low := Low g |}
  | VerifyDirectory _ _ => λ Q, Held g = slot ∧ ∀ r, Q r g
  | _ => λ Q, ∀ r, Q r g
  end Q.

Lemma grip_spec_mono R (e : effect R) (P Q : R → grip → Prop) g :
  (∀ r g', P r g' → Q r g') → grip_spec R e P g → grip_spec R e Q g.
Proof. intros HPQ. destruct e; simpl; naive_solver. Qed.

Definition handled (p : io unit) (g : grip) : Prop := wp grip_spec p (λ _ g', Held g' = None) g.

Ltac walk_grip :=
  repeat (
    cbn [wp bind call grip_spec];
    match goal with
    | |- ∀ _, _ => intro
    | |- _ ∧ _ => split
    | |- wp _ (bind _ _) _ _ => apply (wp_bind grip_spec grip_spec_mono)
    | H : ?x = _ |- wp _ (match ?x with _ => _ end) _ _ => rewrite H
    | |- wp _ (match ?x with _ => _ end) _ _ => destruct x eqn:?
    | |- wp _ ?p _ _ => let f := head_of p in progress unfold f
    end).

Lemma handleVerifyRequest_handled request low :
  handled (handleVerifyRequest c request) {| Held := None; Low := low |}.
Proof. unfold handled. walk_grip; simpl in *; try done; try lia. Qed.

(** ** All interleavings *)

Hypothesis limit_nonneg : 0 <= Relay_Limit c.
Hypothesis fresh_cache : Relay_Replay c = newRelayReplayCache (5 * Minute).

Definition relay_thread (p : io unit) : Prop := ∃ request, p = handleVerifyRequest c request.

Abbreviation relay_pool := (@pool effect relay_shared unit).
Abbreviation id := (RC_ConnectorID (Relay_Config c)).

(** Each slot in use is one thread's, no thread is ahead of the clock, and the
    history is the cache's. *)
Definition shared_inv (s : relay_shared) (gs : list grip) : Prop :=
  Forall (λ g, Low g <= rs_clock s) gs ∧
  rs_taken s = holders id (Held <$> gs) ∧ holders id (Held <$> gs) <= Relay_Limit c ∧
  history_inv (5 * Minute) (gateway_cache (rs_cache s)) (rs_clock s) (rs_history s).

Definition relay_inv (p : relay_pool) : Prop :=
  ∃ gs, Forall2 handled (threads p) gs ∧ shared_inv (shared p) gs.

Lemma shared_inv_insert s s' gs i g g' :
  shared_inv s gs → gs !! i = Some g → Low g' <= rs_clock s' → rs_clock s <= rs_clock s' →
  rs_taken s' = rs_taken s - holds id (Held g) + holds id (Held g') → rs_taken s' <= Relay_Limit c →
  history_inv (5 * Minute) (gateway_cache (rs_cache s')) (rs_clock s') (rs_history s') →
  shared_inv s' (<[i := g']> gs).
Proof.
  intros (Hlow & Htaken & Hlimit & _) Hg Hlow' Hclock Htaken' Hlimit' Hhist'.
  pose proof (list_lookup_fmap Held gs i) as Hheld. rewrite Hg in Hheld. simpl in Hheld.
  assert (Heq : rs_taken s' = holders id (Held <$> <[i := g']> gs)).
  { rewrite list_fmap_insert, (holders_insert id _ _ _ _ Hheld). lia. }
  unfold shared_inv. rewrite <-Heq. split_and!; [|done..]. apply Forall_insert; [|done].
  eapply Forall_impl; [exact Hlow|]. simpl. lia.
Qed.

Lemma shared_inv_step R (e : effect R) s s' gs i g r (Q : R → grip → Prop) :
  shared_inv s gs → gs !! i = Some g → grip_spec R e Q g → relay_may R e s r s' →
  ∃ g', Q r g' ∧ shared_inv s' (<[i := g']> gs).
Proof.
  intros Hinv Hg Hspec Hmay. pose proof Hinv as (Hlow & Htaken & Hlimit & Hhist).
  pose proof (Forall_lookup_1 _ _ _ _ Hlow Hg) as Hlowg. simpl in Hlowg.
  destruct e; cbn in Hspec, Hmay;
    try (subst s'; exists g; split; [apply Hspec|]; eapply shared_inv_insert; eauto; lia).
  - destruct Hmay as [Hr ->]. exists {| Held := Held g; Low := r |}. split; [apply Hspec; lia|].
    eapply shared_inv_insert; eauto; simpl; try lia. by eapply history_later.
  - destruct Hmay as (t & Ht & Hrem). destruct Hspec as [Hnow HQ]. exists g. split; [apply HQ|].
    unfold remember_at in Hrem. apply (history_later _ _ _ t) in Hhist; [|done].
    apply (history_remember _ _ _ _ key now) in Hhist; [|lia]. rewrite Remember_view in Hhist.
    destruct (relay_Remember (rs_cache s) key now) as [fresh cache]. injection Hrem as -> ->.
    eapply shared_inv_insert; eauto; simpl; lia.
  - destruct Hmay as [-> ->]. destruct Hspec as (Hnone & Htrue & Hfalse).
    destruct (Z.ltb_spec (rs_taken s) (Relay_Limit c)).
    + eexists. split; [exact Htrue|]. eapply shared_inv_insert; eauto; simpl; try lia.
      rewrite Hnone, holds_none, holds_same. lia.
    + eexists. split; [exact Hfalse|]. eapply shared_inv_insert; eauto; simpl; try lia.
      rewrite Hnone. lia.
  - destruct Hspec as [Hheld HQ]. subst s'. destruct r. eexists. split; [exact HQ|].
    eapply shared_inv_insert; eauto; simpl; try lia. rewrite Hheld, holds_none, holds_same. lia.
  - done.
Qed.

Lemma relay_inv_reachable start p :
  crowd_reachable relay_may relay_thread (new_relay_shared c start) p → relay_inv p.
Proof.
  revert p. apply crowd_invariant.
  - exists []. split; [constructor|]. split_and!; [constructor|done|done|]. simpl. rewrite fresh_cache.
    apply history_new.
  - intros p p' (gs & Hall & Hinv) Hstep. destruct Hstep as [s ts q [request ->]|s ts i R e k r s' Hi Hmay]; simpl in *.
    + exists (gs ++ [{| Held := None; Low := rs_clock s |}]). split.
      * apply Forall2_app; [done|]. constructor; [|done]. apply handleVerifyRequest_handled.
      * destruct Hinv as (Hlow & Htaken & Hlimit & Hhist). unfold shared_inv.
        rewrite fmap_app. simpl. rewrite holders_app, holds_none, Z.add_0_r. split_and!; try done.
        apply Forall_app. split; [done|]. by repeat constructor.
    + pose proof Hall as Hall'. eapply Forall2_lookup_l in Hall' as (g & Hg & Hsafe); [|done].
      destruct (shared_inv_step R e s s' gs i g r _ Hinv Hg Hsafe Hmay) as (g' & Hk & Hinv').
      exists (<[i := g']> gs). split; [|done]. by apply Forall2_insert.
Qed.

(** A thread whose next effect asks the directory, and one that has ended. *)
Definition asking (p : io unit) : bool :=
  match p with Vis e _ => match e with VerifyDirectory _ _ => true | _ => false end | Ret _ => false end.
Definition ended (p : io unit) : bool := match p with Ret _ => true | _ => false end.

Lemma relay_asking_count ts gs :
  Forall2 handled ts gs → Z.of_nat (length (List.filter asking ts)) <= holders id (Held <$> gs).
Proof.
  induction 1 as [|p g ts gs Hsafe Hall IH]; [done|].
  pose proof (holders_nonneg id [Held g]) as Hn. simpl in Hn. rewrite fmap_cons.
  change (holders id (Held g :: (Held <$> gs))) with (holds id (Held g) + holders id (Held <$> gs)).
  simpl List.filter. destruct (asking p) eqn:Hask; [|lia]. destruct p as [|R e k]; [done|]. destruct e; try done.
  destruct Hsafe as [Hheld _]. rewrite Hheld, holds_same. simpl length. lia.
Qed.

Lemma ended_holders ts gs :
  Forall2 handled ts gs → forallb ended ts = true → holders id (Held <$> gs) = 0.
Proof.
  induction 1 as [|p g ts gs Hsafe Hall IH]; [done|]. rewrite fmap_cons. simpl.
  intros [Hend Hrest]%andb_prop. destruct p; [|done]. unfold handled in Hsafe. simpl in Hsafe.
  rewrite Hsafe, holds_none, IH by done. done.
Qed.
End client.

