(* ===== verification/RelayPoolExamples.v ===== *)
(** * Two relayed requests at once

    An executable environment for the requests of a relay client with one slot,
    and the theorem about them there. *)

From S2P Require Import Prelude GoStrings GoTime Effects Directory Replay RelayState Relay RelayProofs RelayExamples RelayPool.
Local Open Scope Z_scope.

Definition narrow_config : RelayClientConfig := {|
  RC_URL := RC_URL example_config; RC_TenantID := "acme"; RC_ConnectorID := "hq main";
  RC_InstanceID := "host-1"; RC_DisplayName := ""; RC_Version := ""; RC_StartedAt := 1;
  RC_ConfigFingerprint := ""; RC_ConfigCategories := []; RC_KeyID := "k1"; RC_Secret := "secret";
  RC_HasDirectory := true; RC_AuditHashSecret := "audit"; RC_Protection := no_policy;
  RC_RequestTimeout := 0; RC_Concurrency := 1; RC_ReconnectMin := 0; RC_ReconnectMax := 0 |}.

Definition narrow_client : RelayClient := {|
  Relay_Config := relay_defaults narrow_config 7; Relay_Limit := 1;
  Relay_Replay := newRelayReplayCache (5 * Minute); Relay_Storms := newRelayStorms no_policy |}.

Lemma narrow_client_built : NewRelayClient narrow_config 7 = Ok narrow_client.
Proof. vm_compute. reflexivity. Qed.

(** Each reading of the clock a second after the last; a directory that knows
    nobody. *)
Definition shared_effect (R : Type) (e : effect R) (s : relay_shared) : option (R * relay_shared) :=
  match e in effect R return option (R * relay_shared) with
  | Now => Some (rs_clock s + Second, tick (rs_clock s + Second) s)
  | NewUUID => Some ("uuid", s)
  | StormBlocked _ _ => Some (false, s)
  | RecordStorm _ _ => Some (tt, s)
  | ResetStorm _ => Some (tt, s)
  | RememberKey key now => Some (remember_at key now (rs_clock s) s)
  | AcquireSlot => Some (if rs_taken s <? 1 then (true, take 1 s) else (false, s))
  | ReleaseSlot => Some (tt, take (-1) s)
  | WriteEvent _ => Some (true, s)
  | VerifyDirectory _ _ => Some (Ok (FailedVerification ""), s)
  | WriteMessage _ => Some (None, s)
  | _ => None
  end.

Lemma shared_effect_may R (e : effect R) s r s' :
  shared_effect R e s = Some (r, s') → relay_may narrow_client R e s r s'.
Proof.
  destruct e; simpl; intros He; try discriminate He; try (by injection He as <- <-).
  - injection He as <- <-. split; [unfold Second; lia|done].
  - injection He as He. exists (rs_clock s). by rewrite He.
  - destruct (Z.ltb_spec (rs_taken s) 1); by injection He as <- <-.
Qed.

Definition numbered (n : string) : verifyRequestMessage := {|
  Req_Type := "verify.request"; Req_Protocol := Protocol; Req_ProtocolVersion := 1;
  Req_MinSupportedVersion := 1; Req_ID := n; Req_RequestID := n; Req_TenantID := "acme";
  Req_ConnectorID := "hq main"; Req_Username := "ada"; Req_Password := "pw"; Req_AttributeNames := [] |}.

Definition relay_after (steps : nat) : @pool effect relay_shared unit :=
  foldl (λ p i, crowd_at shared_effect i p)
    (Pool (new_relay_shared narrow_client 0)
       [handleVerifyRequest narrow_client (numbered "r1"); handleVerifyRequest narrow_client (numbered "r2")])
    (mjoin (replicate steps [0%nat; 1%nat])).

Lemma relay_after_reachable steps :
  crowd_reachable (relay_may narrow_client) (relay_thread narrow_client) (new_relay_shared narrow_client 0)
    (relay_after steps).
Proof.
  apply (crowd_schedule_reachable _ _ shared_effect_may), crowd_spawned.
  apply Forall_cons. split; [by eexists|]. apply Forall_singleton. by eexists.
Qed.

(** The first is at the directory, with the only slot; the second was refused. *)
Example one_asking :
  let p := relay_after 8 in
  (asking <$> threads p, rs_taken (shared p), took_key <$> rs_history (shared p)) =
  ([true; false], 1, ["acme:hq main:r1"; "acme:hq main:r2"]).
Proof. vm_compute. reflexivity. Qed.

