(* ===== verification/JsonWrite.v ===== *)
(** * Encoding JSON: the part of [encoding/json] the connector relies on

    [json.Marshal] and [Encoder.Encode] with HTML escaping, as they are by
    default: values, the escaping of strings, objects in the order of a struct's
    fields and maps in the order of their keys. *)

From S2P Require Import Prelude GoStrings Json.

(** ** Strings ([appendString]) *)

(** [htmlSafeSet] *)
Definition json_plain (c : ascii) : bool :=
  in_range 32 127 c &&
  negb (existsb (Ascii.eqb c) [double_quote; backslash; "<"; ">"; "&"]%char).

Definition unicode_escape (c : ascii) : string :=
  String backslash (String "u" (String "0" (String "0"
    (String (hex_digit (byte_code c / 16)) (String (hex_digit (byte_code c mod 16)) EmptyString))))).

Definition json_escape (c : ascii) : string :=
  let short d := String backslash (String d EmptyString) in
  if Ascii.eqb c backslash || Ascii.eqb c double_quote then short c
  else if Ascii.eqb c "008" then short "b"%char
  else if Ascii.eqb c "012" then short "f"%char
  else if Ascii.eqb c LF then short "n"%char
  else if Ascii.eqb c CR then short "r"%char
  else if Ascii.eqb c "009" then short "t"%char
  else unicode_escape c.

(** U+2028 and U+2029 *)
Definition line_separator (s : string) : bool :=
  match s with
  | String a (String b (String c _)) =>
      (byte_code a =? 226)%N && (byte_code b =? 128)%N && in_range 168 169 c
  | _ => false
  end.

(** How many bytes the first character of a text takes, one when it is malformed. *)
Definition width (s : string) : nat := Nat.max 1 (utf8_length s).

(** What the first character of a text becomes. *)
Definition char_text (s : string) : string :=
  match s with
  | EmptyString => EmptyString
  | String c _ =>
      if is_ascii_byte c then if json_plain c then String c EmptyString else json_escape c
      else
        match utf8_length s with
        | O => String backslash "ufffd"
        | n =>
            if line_separator s then
              String backslash (if has_prefix (drop_bytes 2 s) (bytes_string [168%N]) then "u2028" else "u2029")
            else String.substring 0 n s
        end
  end.

Fixpoint text_fuel (fuel : nat) (s : string) : string :=
  match fuel, s with
  | S fuel, String _ _ => char_text s +:+ text_fuel fuel (drop_bytes (width s) s)
  | _, _ => EmptyString
  end.

Definition json_string (s : string) : string :=
  String double_quote (text_fuel (String.length s) s +:+ String double_quote EmptyString).

(** ** Values *)

Inductive json :=
| JNull
| JBool (b : bool)
| JInt (n : Z)
| JString (s : string)
| JArray (l : list json)
| JObject (fields : list (string * json)).

Fixpoint encode (v : json) : string :=
  match v with
  | JNull => "null"
  | JBool b => if b then "true" else "false"
  | JInt n => pretty n
  | JString s => json_string s
  | JArray l => "[" +:+ join "," (encode <$> l) +:+ "]"
  | JObject fields =>
      "{" +:+ join "," ((λ f, json_string f.1 +:+ ":" +:+ encode f.2) <$> fields) +:+ "}"
  end.

(** A slice: [nil] is [null]. *)
Definition json_strings (l : list string) : json := JArray (JString <$> l).
Definition json_slice (l : option (list string)) : json :=
  match l with Some l => json_strings l | None => JNull end.

(** A map: its keys in order. *)
Definition json_map (fields : gmap string json) : json :=
  JObject (omap (λ k, (λ v, (k, v)) <$> fields !! k)
             (sort_strings (map_to_list fields).*1)).

(** A field of a struct: its name, its value and whether it is tagged
    [omitempty]. *)
Definition field : Type := string * json * bool.
Definition always_field (name : string) (v : json) : field := (name, v, false).
Definition text_field (name value : string) : field := (name, JString value, false).
Definition optional_field (name : string) (v : json) : field := (name, v, true).
Definition omit_empty (name value : string) : field := optional_field name (JString value).

(** [isEmptyValue], for strings, maps, slices and nil pointers *)
Definition empty_value (v : json) : bool :=
  match v with
  | JNull | JArray [] | JObject [] => true
  | JString s => (s =? "")%string
  | _ => false
  end.

Definition written (f : field) : option (string * json) :=
  if f.2 && empty_value f.1.2 then None else Some f.1.

(** A struct: its fields in order, but those omitted. *)
Definition json_struct (fields : list field) : json := JObject (omap written fields).

Example encode_example :
  encode (JObject [("a", JString ("<x>" +:+ newline +:+ "é")); ("b", json_slice None);
                   ("c", json_map {["z" := JInt (-3); "y" := JBool true]})]) =
  "{" +:+ json_string "a" +:+ ":" +:+ String double_quote "\u003cx\u003e\né" +:+
  String double_quote "," +:+ json_string "b" +:+ ":null," +:+ json_string "c" +:+ ":{" +:+
  json_string "y" +:+ ":true," +:+ json_string "z" +:+ ":-3}}".
Proof. vm_compute. reflexivity. Qed.

(** ** What is read back *)

(** The first character as it is decoded: malformed bytes become U+FFFD. *)
Definition char_value (s : string) : string :=
  match utf8_length s with O => replacement_char | n => String.substring 0 n s end.

Fixpoint valid_fuel (fuel : nat) (s : string) : string :=
  match fuel, s with
  | S fuel, String _ _ => char_value s +:+ valid_fuel fuel (drop_bytes (width s) s)
  | _, _ => EmptyString
  end.

(** [strings.ToValidUTF8(s, "\uFFFD")], byte by byte *)
Definition to_valid_utf8 (s : string) : string := valid_fuel (String.length s) s.

Fixpoint utf8_fuel (fuel : nat) (s : string) : bool :=
  match fuel, s with
  | S fuel, String _ _ => negb (utf8_length s =? 0)%nat && utf8_fuel fuel (drop_bytes (width s) s)
  | _, _ => true
  end.

Definition valid_utf8 (s : string) : bool := utf8_fuel (String.length s) s.

(** A character of [n] bytes, from its first bytes alone. *)
Definition starts_with_char (n : nat) (s : string) : Prop :=
  utf8_length s = n ∧ n ≤ String.length s ∧
  ∀ t, utf8_length (String.substring 0 n s +:+ t) = n ∧
       drop_bytes n (String.substring 0 n s +:+ t) = t ∧
       String.substring 0 n (String.substring 0 n s +:+ t) = String.substring 0 n s.

Lemma substring_zero s : String.substring 0 0 s = EmptyString.
Proof. by destruct s. Qed.

Lemma utf8_length_local s n : utf8_length s = n → n ≠ 0 → starts_with_char n s.
Proof.
  intros Hlen Hn. split; [done|].
  destruct s as [|a s]; [by simpl in Hlen; subst|].
  unfold utf8_length, continuation in *.
  destruct s as [|b [|c [|d s]]]; cbn [String.get] in *;
    rewrite ?andb_false_r in Hlen; repeat case_match; subst; try done.
  all: split; [cbn; lia|]; intros t; cbn [String.substring];
    rewrite ?substring_zero, !append_cons, ?append_nil; cbn [String.get drop_bytes String.substring];
    rewrite ?substring_zero; split; [|split; [by destruct t|done]].
  all: repeat match goal with H : ?b = _ |- context [?b] => rewrite H end.
  all: try done.
Qed.

Definition high_byte (c : ascii) : bool := negb (is_ascii_byte c).

Lemma in_range_high lo hi c : in_range lo hi c = true → (128 <= lo)%N → high_byte c = true.
Proof.
  unfold in_range, high_byte, is_ascii_byte. intros H Hlo. apply andb_prop in H as [H _].
  apply N.leb_le in H. apply negb_true_iff, N.ltb_ge. lia.
Qed.

(** The bytes of a character that takes several are none of ASCII's. *)
Lemma char_bytes_high s n :
  utf8_length s = n → 2 ≤ n → string_all high_byte (String.substring 0 n s) = true.
Proof.
  intros Hlen Hn. destruct s as [|a s]; [by simpl in Hlen; subst|].
  unfold utf8_length, continuation in *.
  destruct s as [|b [|c [|d s]]]; cbn [String.get] in *;
    rewrite ?andb_false_r in Hlen; repeat case_match; subst; try lia.
  all: cbn [String.substring string_all]; rewrite ?substring_zero; cbn [string_all].
  all: repeat match goal with
       | H : (_ && _)%bool = true |- _ => apply andb_prop in H as [? ?]
       | H : (_ || _)%bool = true |- _ => apply orb_prop in H as [?|?]
       end.
  all: repeat match goal with
       | H : in_range _ _ ?x = true |- context [high_byte ?x] => rewrite (in_range_high _ _ _ H) by lia
       end.
  all: done.
Qed.

Lemma ascii_utf8_length c s : is_ascii_byte c = true → utf8_length (String c s) = 1%nat.
Proof.
  unfold is_ascii_byte. intros H%N.ltb_lt. unfold utf8_length.
  assert (in_range 0 127 c = true) as ->; [|done].
  unfold in_range. apply andb_true_intro. split; apply N.leb_le; lia.
Qed.

Lemma string_body_char fuel c s n :
  utf8_length (String c s) = n → n ≠ 0 → Ascii.eqb c double_quote = false →
  Ascii.eqb c backslash = false → (byte_code c <? 32)%N = false →
  string_body (S fuel) (String c s) =
  ('(tail, rest) ← string_body fuel (drop_bytes n (String c s));
   Some (String.substring 0 n (String c s) +:+ tail, rest)).
Proof.
  intros Hlen Hn Hq Hb Hc. cbn [string_body]. rewrite Hq, Hb, Hc, Hlen. by destruct n.
Qed.

Lemma plain_spec c :
  json_plain c = true →
  Ascii.eqb c double_quote = false ∧ Ascii.eqb c backslash = false ∧ (byte_code c <? 32)%N = false.
Proof.
  unfold json_plain, in_range. intros H. apply andb_prop in H as [H1 H2].
  apply andb_prop in H1 as [H1%N.leb_le _]. apply negb_true_iff in H2.
  cbn [existsb] in H2. repeat (apply orb_false_elim in H2 as [? H2]).
  split_and!; [done..|]. by apply N.ltb_ge.
Qed.

Lemma high_spec c :
  high_byte c = true →
  Ascii.eqb c double_quote = false ∧ Ascii.eqb c backslash = false ∧ (byte_code c <? 32)%N = false.
Proof.
  unfold high_byte, is_ascii_byte. intros H%negb_true_iff%N.ltb_ge.
  split_and!; [apply Ascii.eqb_neq; intros ->; by apply H..|]. apply N.ltb_ge. lia.
Qed.

(** Reading an escape of one ASCII byte. *)
Lemma string_body_escape fuel c t :
  is_ascii_byte c = true → json_plain c = false →
  string_body (S fuel) (json_escape c +:+ t) =
  ('(tail, rest) ← string_body fuel t; Some (String c EmptyString +:+ tail, rest)).
Proof.
  intros Ha Hp. destruct c as [[] [] [] [] [] [] [] []]; try discriminate Ha; try discriminate Hp;
    reflexivity.
Qed.

Lemma line_separator_char s :
  line_separator s = true →
  utf8_length s = 3%nat ∧
  (String.substring 0 3 s = bytes_string [226; 128; 168]%N ∧
     has_prefix (drop_bytes 2 s) (bytes_string [168%N]) = true ∨
   String.substring 0 3 s = bytes_string [226; 128; 169]%N ∧
     has_prefix (drop_bytes 2 s) (bytes_string [168%N]) = false).
Proof.
  unfold line_separator. destruct s as [|a [|b [|c s]]]; try done. intros H.
  apply andb_prop in H as [H Hc]. apply andb_prop in H as [Ha%N.eqb_eq Hb%N.eqb_eq].
  apply andb_prop in Hc as [Hc1%N.leb_le Hc2%N.leb_le].
  assert (a = ascii_of_N 226) as ->.
  { rewrite <-(ascii_N_embedding a). unfold byte_code in Ha. by rewrite Ha. }
  assert (b = ascii_of_N 128) as ->.
  { rewrite <-(ascii_N_embedding b). unfold byte_code in Hb. by rewrite Hb. }
  assert (byte_code c = 168 ∨ byte_code c = 169)%N as Hcc by lia. unfold byte_code in Hcc.
  rewrite <-(ascii_N_embedding c). destruct Hcc as [-> | ->]; (split; [done|]).
  - left. split; [cbn; by rewrite substring_zero|]. cbn. by destruct s.
  - right. split; [cbn; by rewrite substring_zero|done].
Qed.

(** One character of the text is read back as its value. *)
Lemma string_body_step fuel s t :
  s ≠ EmptyString →
  string_body (S fuel) (char_text s +:+ t) =
  ('(tail, rest) ← string_body fuel t; Some (char_value s +:+ tail, rest)).
Proof.
  destruct s as [|c s]; [done|]. intros _. unfold char_text, char_value.
  destruct (is_ascii_byte c) eqn:Ha.
  { rewrite (ascii_utf8_length c s) by done. cbn [String.substring]. rewrite substring_zero.
    destruct (json_plain c) eqn:Hp; [|by apply string_body_escape].
    destruct (plain_spec c Hp) as (Hq & Hb & Hc). rewrite append_cons, append_nil.
    rewrite (string_body_char fuel c t 1) by (by rewrite ?ascii_utf8_length).
    cbn [drop_bytes String.substring]. by rewrite substring_zero. }
  destruct (utf8_length (String c s)) as [|n] eqn:Hlen; [reflexivity|].
  destruct (line_separator (String c s)) eqn:Hsep.
  { apply line_separator_char in Hsep as [Hlen' Hsep]. rewrite Hlen in Hlen'. injection Hlen' as ->.
    destruct Hsep as [[-> ->]|[-> ->]]; reflexivity. }
  destruct (utf8_length_local _ _ Hlen) as (_ & _ & Hlocal); [done|].
  destruct (Hlocal t) as (Hl & Hd & Hs). cbn [String.substring] in *. rewrite append_cons in *.
  assert (Hh : high_byte c = true) by (unfold high_byte; by rewrite Ha).
  destruct (high_spec c Hh) as (Hq & Hb & Hc).
  rewrite (string_body_char fuel c _ (S n)) by done. by rewrite Hd, Hs.
Qed.

Lemma drop_bytes_length n s : String.length (drop_bytes n s) = (String.length s - n)%nat.
Proof. revert s. induction n as [|n IH]; intros [|c s]; simpl; done. Qed.

Lemma append_length s t : String.length (s +:+ t) = (String.length s + String.length t)%nat.
Proof. induction s as [|c s IH]; [done|]. rewrite append_cons. simpl. by rewrite IH. Qed.

Lemma width_positive s : 1 ≤ width s.
Proof. unfold width. lia. Qed.

Lemma char_text_nonempty s : s ≠ EmptyString → 1 ≤ String.length (char_text s).
Proof.
  destruct s as [|c s]; [done|]. intros _. unfold char_text, json_escape.
  repeat case_match; simpl; lia.
Qed.

Lemma string_body_text n fuel s rest :
  String.length s ≤ n → String.length (text_fuel n s) < fuel →
  string_body fuel (text_fuel n s +:+ String double_quote rest) = Some (valid_fuel n s, rest).
Proof.
  revert fuel s. induction n as [|n IH]; intros fuel s Hn Hfuel.
  { destruct s; [|simpl in Hn; lia]. destruct fuel; [simpl in Hfuel; lia|]. done. }
  destruct fuel as [|fuel]; [lia|]. destruct s as [|c s]; [done|].
  cbn [text_fuel valid_fuel] in *. rewrite append_length in Hfuel.
  pose proof (char_text_nonempty (String c s)) as Hne. pose proof (width_positive (String c s)) as Hw.
  rewrite append_assoc, string_body_step by done.
  rewrite IH; [done| |specialize (Hne ltac:(done)); lia].
  rewrite drop_bytes_length. simpl in *. lia.
Qed.

Lemma string_literal_read s rest :
  string_literal (json_string s +:+ rest) = Some (to_valid_utf8 s, rest).
Proof.
  unfold json_string, string_literal. rewrite append_cons. cbn [expect].
  rewrite Ascii.eqb_refl, append_assoc, append_cons, append_nil. simpl.
  apply string_body_text; [done|]. rewrite append_length. simpl. lia.
Qed.

Lemma take_drop_char n s : String.substring 0 n s +:+ drop_bytes n s = s.
Proof.
  revert s. induction n as [|n IH]; intros s; [by destruct s|].
  destruct s as [|c s]; [done|]. cbn [String.substring drop_bytes]. by rewrite append_cons, IH.
Qed.

Lemma valid_kept s : valid_utf8 s = true → to_valid_utf8 s = s.
Proof.
  unfold valid_utf8, to_valid_utf8. generalize (le_n (String.length s)).
  generalize (String.length s) at 2 3 4 as n. intros n. revert s.
  induction n as [|n IH]; intros s Hn; [destruct s; [done|simpl in Hn; lia]|].
  destruct s as [|c s]; [done|]. cbn [utf8_fuel valid_fuel]. intros Hv.
  apply andb_prop in Hv as [Hl Hv]. apply negb_true_iff, Nat.eqb_neq in Hl.
  pose proof (width_positive (String c s)). rewrite IH; [|rewrite drop_bytes_length; simpl in *; lia|done].
  unfold char_value, width. destruct (utf8_length (String c s)) as [|k] eqn:Hk; [done|].
  replace (Nat.max 1 (S k)) with (S k) by lia. apply take_drop_char.
Qed.

(** Reading empties no text and fills none. *)
Lemma to_valid_empty s : (to_valid_utf8 s =? "")%string = (s =? "")%string.
Proof.
  destruct s as [|c s]; [done|]. unfold to_valid_utf8. cbn [String.length valid_fuel]. unfold char_value.
  by destruct (utf8_length (String c s)).
Qed.

Lemma ascii_valid s : is_ascii s = true → valid_utf8 s = true.
Proof.
  unfold valid_utf8. generalize (String.length s) as n. intros n. revert s.
  induction n as [|n IH]; intros [|c s] Hs; try done. apply andb_prop in Hs as [Hc Hs].
  cbn [utf8_fuel]. unfold width. rewrite ascii_utf8_length by done. by apply IH.
Qed.

(** ** What a text may hold *)

(** Neither a control byte nor a byte HTML reads as markup. *)
Definition inert_byte (c : ascii) : bool :=
  (32 <=? byte_code c)%N && negb (existsb (Ascii.eqb c) ["<"; ">"; "&"]%char).

Lemma plain_inert c : json_plain c = true → inert_byte c = true.
Proof.
  unfold json_plain, inert_byte, in_range. intros H. apply andb_prop in H as [H1 H2].
  apply andb_prop in H1 as [-> _]. cbn [existsb] in *. by bool_to_prop; destruct_and?;
  repeat match goal with H : Ascii.eqb _ _ = false |- _ => rewrite H; clear H end.
Qed.

Lemma high_inert c : high_byte c = true → inert_byte c = true.
Proof.
  unfold high_byte, is_ascii_byte, inert_byte. intros H%negb_true_iff%N.ltb_ge.
  apply andb_true_intro. split; [apply N.leb_le; lia|]. cbn [existsb].
  repeat (rewrite (proj2 (Ascii.eqb_neq c _)) by (intros ->; by apply H)). done.
Qed.

Lemma escape_inert c : is_ascii_byte c = true → json_plain c = false → string_all inert_byte (json_escape c) = true.
Proof. destruct c as [[] [] [] [] [] [] [] []]; (reflexivity || discriminate). Qed.

Lemma char_text_inert s : string_all inert_byte (char_text s) = true.
Proof.
  destruct s as [|c s]; [done|]. unfold char_text. destruct (is_ascii_byte c) eqn:Ha.
  { destruct (json_plain c) eqn:Hp; [|by apply escape_inert]. simpl. by rewrite plain_inert. }
  destruct (utf8_length (String c s)) as [|[|n]] eqn:Hlen; [done| |].
  - exfalso. unfold utf8_length in Hlen. destruct (in_range 0 127 c) eqn:Hr; [|repeat case_match; done].
    unfold in_range in Hr. apply andb_prop in Hr as [_ Hr%N.leb_le].
    unfold is_ascii_byte in Ha. apply N.ltb_ge in Ha. lia.
  - case_match; [by case_match|]. eapply string_all_impl; [intros d; apply high_inert|].
    apply char_bytes_high; [done|lia].
Qed.

Lemma text_inert n s : string_all inert_byte (text_fuel n s) = true.
Proof.
  revert s. induction n as [|n IH]; intros [|c s]; try done.
  cbn [text_fuel]. by rewrite string_all_app, char_text_inert, IH.
Qed.

Lemma json_string_inert s : string_all inert_byte (json_string s) = true.
Proof. unfold json_string. simpl. by rewrite string_all_app, text_inert. Qed.

Section json_ind.
Variable P : json → Prop.
Hypothesis Hnull : P JNull.
Hypothesis Hbool : ∀ b, P (JBool b).
Hypothesis Hint : ∀ n, P (JInt n).
Hypothesis Hstring : ∀ s, P (JString s).
Hypothesis Harray : ∀ l, Forall P l → P (JArray l).
Hypothesis Hobject : ∀ fields, Forall (λ f, P f.2) fields → P (JObject fields).

(** Induction through the lists of arrays and objects. *)
Fixpoint json_induction (v : json) : P v :=
  match v with
  | JNull => Hnull
  | JBool b => Hbool b
  | JInt n => Hint n
  | JString s => Hstring s
  | JArray l =>
      Harray l ((fix go l := match l return Forall P l with
                 | [] => Forall_nil_2 P
                 | v :: l => Forall_cons_2 P v l (json_induction v) (go l) end) l)
  | JObject fields =>
      Hobject fields ((fix go l := match l return Forall (λ f, P f.2) l with
                 | [] => Forall_nil_2 _
                 | (k, v) :: l => Forall_cons_2 _ (k, v) l (json_induction v) (go l) end) fields)
  end.
End json_ind.

Lemma pretty_go_inert x s : string_all inert_byte s = true → string_all inert_byte (pretty_N_go x s) = true.
Proof.
  revert s. induction (N.lt_wf_0 x) as [x _ IH]; intros s Hs.
  assert (x = 0 ∨ 0 < x)%N as [->|?] by lia; [done|].
  rewrite pretty_N_go_step by done. apply IH; [by apply N.div_lt|].
  cbn [string_all]. rewrite Hs. unfold pretty_N_char. by repeat case_match.
Qed.

Lemma pretty_inert (n : Z) : string_all inert_byte (pretty n) = true.
Proof.
  assert (Hpos : ∀ p : positive, string_all inert_byte (pretty (p : positive)) = true).
  { intros p. unfold pretty, pretty_positive, pretty, pretty_N. case_decide; [done|]. by apply pretty_go_inert. }
  destruct n as [|p|p]; [done|apply Hpos|]. unfold pretty, pretty_Z.
  by rewrite string_all_app, Hpos.
Qed.

(** Everything [encode] writes is free of control bytes and of markup. *)
Lemma encode_inert v : string_all inert_byte (encode v) = true.
Proof.
  induction v as [|b|n|s|l IH|fields IH] using json_induction; [done|by destruct b| | | |]; cbn [encode].
  - apply pretty_inert.
  - apply json_string_inert.
  - rewrite !string_all_app, join_all; [done|done|]. apply Forall_fmap. exact IH.
  - rewrite !string_all_app, join_all; [done|done|]. apply Forall_fmap.
    eapply Forall_impl; [exact IH|]. intros [k v] Hv. cbn [fst snd] in *.
    change (string_all inert_byte (json_string k +:+ ":" +:+ encode v) = true).
    by rewrite !string_all_app, json_string_inert, Hv.
Qed.
