(* ===== verification/JsonUnique.v ===== *)
(** * Encoded JSON is unambiguous

    Two values have the same encoding only when they are equal, up to malformed
    bytes of their strings, which are read as U+FFFD, and whatever follows them:
    the encoding is prefix-free up to the end of a number. *)

From S2P Require Import Prelude GoStrings Json JsonWrite.

(** Values whose strings and keys are valid UTF-8. *)
Fixpoint valid_json (v : json) : bool :=
  match v with
  | JString s => valid_utf8 s
  | JArray l => forallb valid_json l
  | JObject fields => forallb (λ f, valid_utf8 f.1 && valid_json f.2) fields
  | _ => true
  end.

(** A value as it is read back. *)
Fixpoint clean (v : json) : json :=
  match v with
  | JString s => JString (to_valid_utf8 s)
  | JArray l => JArray (clean <$> l)
  | JObject fields => JObject ((λ f, (to_valid_utf8 f.1, clean f.2)) <$> fields)
  | v => v
  end.

Lemma valid_clean v : valid_json v = true → clean v = v.
Proof.
  induction v as [|b|n|s|l IH|fields IH] using json_induction; try done; cbn [valid_json clean].
  - intros Hs. by rewrite valid_kept.
  - intros Hl. f_equal. induction IH as [|v l Hv _ IH]; [done|]. apply andb_prop in Hl as [Hvv Hl].
    rewrite fmap_cons, Hv, IH by done. done.
  - intros Hl. f_equal. induction IH as [|[k v] l Hv _ IH]; [done|]. apply andb_prop in Hl as [Hkv Hl].
    apply andb_prop in Hkv as [Hk Hvv]. cbn [fst snd] in *. rewrite fmap_cons, IH by done. cbn [fst snd].
    by rewrite Hv, valid_kept.
Qed.

Definition number_byte (c : ascii) : bool := is_digit c || Ascii.eqb c "-".

(** What may follow a value: nothing that continues a number. *)
Definition delimited (t : string) : Prop :=
  match t with String c _ => number_byte c = false | EmptyString => True end.

(** ** Parts of a text *)

Lemma append_nil_r s : s +:+ EmptyString = s.
Proof. induction s as [|c s IH]; [done|]. by rewrite append_cons, IH. Qed.

Lemma literal_unique s t t' : s +:+ t = s +:+ t' → t = t'.
Proof.
  induction s as [|c s IH]; [by rewrite !append_nil|]. rewrite !append_cons. intros [= Heq]. auto.
Qed.

(** A run of bytes of a kind ends where the kind does. *)
Lemma run_unique (P : ascii → bool) s s' t t' :
  string_all P s = true → string_all P s' = true →
  (∀ c u, t = String c u → P c = false) → (∀ c u, t' = String c u → P c = false) →
  s +:+ t = s' +:+ t' → s = s' ∧ t = t'.
Proof.
  revert s'. induction s as [|c s IH]; intros s' Hs Hs' Ht Ht' Heq.
  - destruct s' as [|d s']; [done|]. rewrite append_nil, append_cons in Heq.
    cbn [string_all] in Hs'. apply andb_prop in Hs' as [Hd _]. by rewrite (Ht d _ Heq) in Hd.
  - destruct s' as [|d s'].
    + rewrite append_nil, append_cons in Heq. cbn [string_all] in Hs. apply andb_prop in Hs as [Hc _].
      by rewrite (Ht' c _ (eq_sym Heq)) in Hc.
    + rewrite !append_cons in Heq. injection Heq as -> Heq. cbn [string_all] in *.
      apply andb_prop in Hs as [_ Hs]. apply andb_prop in Hs' as [_ Hs'].
      by destruct (IH s' Hs Hs' Ht Ht' Heq) as [-> ->].
Qed.

Lemma json_string_unique s s' t t' :
  json_string s +:+ t = json_string s' +:+ t' → to_valid_utf8 s = to_valid_utf8 s' ∧ t = t'.
Proof.
  intros Heq. pose proof (string_literal_read s t) as H1. rewrite Heq, string_literal_read in H1.
  by injection H1 as -> ->.
Qed.

Lemma pretty_go_number x s :
  string_all number_byte s = true → string_all number_byte (pretty_N_go x s) = true.
Proof.
  revert s. induction (N.lt_wf_0 x) as [x _ IH]; intros s Hs.
  assert (x = 0 ∨ 0 < x)%N as [->|?] by lia; [done|].
  rewrite pretty_N_go_step by done. apply IH; [by apply N.div_lt|].
  cbn [string_all]. rewrite Hs. unfold pretty_N_char. by repeat case_match.
Qed.

Lemma pretty_number (n : Z) : string_all number_byte (pretty n) = true.
Proof.
  assert (Hpos : ∀ p : positive, string_all number_byte (pretty p) = true).
  { intros p. unfold pretty, pretty_positive, pretty, pretty_N. case_decide; [done|]. by apply pretty_go_number. }
  destruct n as [|p|p]; [done|apply Hpos|]. unfold pretty, pretty_Z.
  by rewrite string_all_app, Hpos.
Qed.

Lemma pretty_nonempty (n : Z) : pretty n ≠ EmptyString.
Proof.
  intros Hn. destruct n as [|p|p]; [done| |done].
  assert (Hgo : ∀ x s, s ≠ EmptyString → pretty_N_go x s ≠ EmptyString).
  { intros x. induction (N.lt_wf_0 x) as [x _ IH]; intros s Hs.
    assert (x = 0 ∨ 0 < x)%N as [->|?] by lia; [done|].
    rewrite pretty_N_go_step by done. apply IH; [by apply N.div_lt|done]. }
  unfold pretty, pretty_Z, pretty, pretty_positive, pretty, pretty_N in Hn. simpl in Hn.
  rewrite pretty_N_go_step in Hn by done. by apply Hgo in Hn.
Qed.

(** ** Sequences *)

Section sequence.
Context {A B : Type} (enc : A → string) (read : A → B) (close : ascii).

(** What is read of an element is determined by its text, which does not start as
    the end does. *)
Definition determined (x : A) : Prop :=
  ∀ y t t', delimited t → delimited t' → enc x +:+ t = enc y +:+ t' → read x = read y ∧ t = t'.

Hypothesis Hclose : number_byte close = false.
Hypothesis Hcomma : close ≠ ","%char.
Hypothesis Hstart : ∀ x t, ∃ c u, enc x +:+ t = String c u ∧ c ≠ close.

(** The elements after the first, with their commas. *)
Fixpoint tail_text (l : list A) : string :=
  match l with [] => EmptyString | x :: l => String "," (enc x +:+ tail_text l) end.

Lemma join_tail x l : join "," (enc <$> x :: l) = enc x +:+ tail_text l.
Proof.
  revert x. induction l as [|y l IH]; intros x.
  - simpl. by rewrite append_nil_r.
  - rewrite fmap_cons, join_cons by done. by rewrite IH.
Qed.

Lemma tail_delimited l t : delimited (tail_text l +:+ String close t).
Proof. by destruct l. Qed.

Lemma tail_unique l l' t t' :
  Forall determined l →
  tail_text l +:+ String close t = tail_text l' +:+ String close t' → read <$> l = read <$> l' ∧ t = t'.
Proof.
  revert l'. induction l as [|x l IH]; intros l' Hdet Heq; destruct l' as [|y l'].
  - simpl in Heq. rewrite !append_nil in Heq. by injection Heq as ->.
  - simpl in Heq. rewrite append_nil, append_cons in Heq. by injection Heq as ? _.
  - simpl in Heq. rewrite append_nil, append_cons in Heq. injection Heq as ? _. by destruct Hcomma.
  - simpl in Heq. rewrite !append_cons, !append_assoc in Heq. injection Heq as Heq.
    apply Forall_cons in Hdet as [Hx Hdet].
    destruct (Hx _ _ _ (tail_delimited _ _) (tail_delimited _ _) Heq) as [Hxy Heq'].
    destruct (IH _ Hdet Heq') as [Hl ->]. by rewrite !fmap_cons, Hxy, Hl.
Qed.

Lemma sequence_unique l l' t t' :
  Forall determined l →
  join "," (enc <$> l) +:+ String close t = join "," (enc <$> l') +:+ String close t' →
  read <$> l = read <$> l' ∧ t = t'.
Proof.
  intros Hdet Heq. destruct l as [|x l], l' as [|y l'].
  - simpl in Heq. rewrite !append_nil in Heq. by injection Heq as ->.
  - rewrite join_tail, append_assoc in Heq.
    destruct (Hstart y (tail_text l' +:+ String close t')) as (c & u & Hc & Hne).
    rewrite Hc in Heq. simpl in Heq. rewrite append_nil in Heq. by injection Heq as -> _.
  - rewrite join_tail, append_assoc in Heq.
    destruct (Hstart x (tail_text l +:+ String close t)) as (c & u & Hc & Hne).
    rewrite Hc in Heq. simpl in Heq. rewrite append_nil in Heq. by injection Heq as -> _.
  - rewrite !join_tail, !append_assoc in Heq.
    apply Forall_cons in Hdet as [Hx Hdet].
    destruct (Hx _ _ _ (tail_delimited _ _) (tail_delimited _ _) Heq) as [Hxy Heq'].
    destruct (tail_unique _ _ _ _ Hdet Heq') as [Hl ->]. by rewrite !fmap_cons, Hxy, Hl.
Qed.
End sequence.

(** ** Values *)

(** The byte a value starts with. *)
Definition first_byte (v : json) (c : ascii) : Prop :=
  match v with
  | JNull => c = "n"%char
  | JBool b => c = (if b then "t" else "f")%char
  | JInt _ => number_byte c = true
  | JString _ => c = double_quote
  | JArray _ => c = "["%char
  | JObject _ => c = "{"%char
  end.

Lemma encode_first v t : ∃ c u, encode v +:+ t = String c u ∧ first_byte v c.
Proof.
  destruct v as [|[]|n|s|l|fields]; cbn [encode]; try (by do 2 eexists).
  pose proof (pretty_number n) as Hn. pose proof (pretty_nonempty n) as Hne.
  destruct (pretty n) as [|c s]; [done|]. exists c, (s +:+ t). split; [done|].
  cbn [string_all] in Hn. by apply andb_prop in Hn as [? _].
Qed.

Lemma delimited_run t : delimited t → ∀ c u, t = String c u → number_byte c = false.
Proof. by intros Ht c u ->. Qed.

Lemma encode_determined v : determined encode clean v.
Proof.
  induction v as [|b|n|s|l IH|fields IH] using json_induction; intros v' t t' Ht Ht' Heq.
  all: destruct (encode_first v' t') as (c & u & Hc & Hfirst);
    pose proof Heq as Hstart; rewrite Hc in Hstart.
  - cbn [encode] in Hstart. injection Hstart as <- _.
    destruct v' as [|[]| | | |]; try discriminate Hfirst. split; [done|by apply literal_unique in Heq].
  - assert (c = (if b then "t" else "f")%char) as -> by (destruct b; by injection Hstart as <- _).
    destruct v' as [|b'| | | |]; try (by destruct b). assert (b' = b) as -> by (by destruct b, b').
    split; [done|]. by apply literal_unique in Heq.
  - destruct (encode_first (JInt n) t) as (d & w & Hd & Hnum). rewrite Hd in Hstart.
    injection Hstart as -> _. cbn [first_byte] in Hnum.
    destruct v' as [|[]|m| | |]; cbn [first_byte] in Hfirst; try (subst c; discriminate Hnum).
    cbn [encode] in Heq.
    destruct (run_unique number_byte _ _ _ _ (pretty_number n) (pretty_number m)
                (delimited_run t Ht) (delimited_run t' Ht') Heq) as [Hnm ->].
    by apply (inj pretty) in Hnm as ->.
  - cbn [encode] in Hstart. injection Hstart as <- _.
    destruct v' as [|[]|m| | |]; try discriminate Hfirst. cbn [encode clean] in *.
    by destruct (json_string_unique _ _ _ _ Heq) as [-> ->].
  - cbn [encode] in Hstart. injection Hstart as <- _.
    destruct v' as [|[]|m| |l'|]; try discriminate Hfirst. cbn [encode clean] in *.
    rewrite !append_assoc in Heq. apply literal_unique in Heq.
    apply (sequence_unique encode clean "]"%char) in Heq as [-> ->]; [done|done|done| |exact IH].
    intros x w. destruct (encode_first x w) as (d & z & Hd & Hxd). exists d, z. split; [done|].
    destruct x as [|[]| | | |]; cbn [first_byte] in Hxd; try (by subst d). by intros ->.
  - cbn [encode] in Hstart. injection Hstart as <- _.
    destruct v' as [|[]|m| | |fields']; try discriminate Hfirst. cbn [encode clean] in *.
    rewrite !append_assoc in Heq. apply literal_unique in Heq.
    apply (sequence_unique (λ f, json_string f.1 +:+ ":" +:+ encode f.2)
             (λ f, (to_valid_utf8 f.1, clean f.2)) "}"%char) in Heq as [-> ->];
      [done|done|done| |].
    + intros x w. by do 2 eexists.
    + eapply Forall_impl; [exact IH|]. intros [k v] IHv [k' v'] w w' Hw Hw' Hkv.
      cbn [fst snd] in *. rewrite !append_assoc in Hkv.
      apply json_string_unique in Hkv as [-> Hkv]. apply literal_unique in Hkv.
      by destruct (IHv _ _ _ Hw Hw' Hkv) as [-> ->].
Qed.

(** Equal encodings are read back alike; those of valid values are of the same
    value. *)
Lemma encode_unique v v' t t' :
  valid_json v = true → valid_json v' = true → delimited t → delimited t' →
  encode v +:+ t = encode v' +:+ t' → v = v' ∧ t = t'.
Proof.
  intros Hv Hv' Ht Ht' Heq. destruct (encode_determined v v' t t' Ht Ht' Heq) as [Hc Htt].
  by rewrite !valid_clean in Hc.
Qed.

Lemma encode_clean v v' : encode v = encode v' → clean v = clean v'.
Proof.
  intros Heq. destruct (encode_determined v v' EmptyString EmptyString) as [Hc _]; [done..| |done].
  by rewrite Heq.
Qed.

Lemma encode_inj v v' : valid_json v = true → valid_json v' = true → encode v = encode v' → v = v'.
Proof. intros Hv Hv' Heq%encode_clean. by rewrite !valid_clean in Heq. Qed.


(** ** Slices *)

#[export] Instance JString_inj : Inj (=) (=) JString.
Proof. by intros s s' [= ->]. Qed.

Lemma json_strings_inj l k : json_strings l = json_strings k → l = k.
Proof. unfold json_strings. intros [= Heq]. by apply (inj (fmap JString)) in Heq. Qed.

Lemma json_slice_inj l k : json_slice l = json_slice k → l = k.
Proof. destruct l as [l|], k as [k|]; try done. simpl. by intros ->%json_strings_inj. Qed.

(** ** Structs *)

(** The value under a key. *)
Definition value_at (key : string) (v : json) : option json :=
  match v with
  | JObject fields => snd <$> List.find (λ f, (f.1 =? key)%string) fields
  | _ => None
  end.

Lemma json_struct_absent fields (name : string) :
  name ∉ fields.*1.*1 → value_at name (json_struct fields) = None.
Proof.
  unfold json_struct, value_at. induction fields as [|[[n w] o] fields IH]; [done|].
  rewrite !fmap_cons. intros [Hne Hin]%not_elem_of_cons. simpl in *. unfold written at 1. simpl.
  destruct (o && empty_value w); [by apply IH|]. simpl. destruct (String.eqb_spec n name); [congruence|]. by apply IH.
Qed.

(** A struct has the values of its fields under their names. *)
Lemma json_struct_value fields name v omitted :
  NoDup (fields.*1.*1) → (name, v, omitted) ∈ fields →
  value_at name (json_struct fields) = if omitted && empty_value v then None else Some v.
Proof.
  induction fields as [|[[n w] o] fields IH]; intros Hdup Hin; [by apply not_elem_of_nil in Hin|].
  rewrite !fmap_cons in Hdup. apply NoDup_cons in Hdup as [Hnew Hdup]. simpl in Hnew.
  pose proof (json_struct_absent fields n Hnew) as Hrest. unfold json_struct, value_at in *. simpl.
  unfold written at 1. simpl. apply elem_of_cons in Hin as [[= <- <- <-]|Hin].
  - destruct (omitted && empty_value v); simpl; [done|]. by rewrite String.eqb_refl.
  - assert (n ≠ name). { intros ->. apply Hnew. by apply (list_elem_of_fmap_2 fst), (list_elem_of_fmap_2 fst) in Hin. }
    destruct (o && empty_value w); [by apply IH|]. simpl. destruct (String.eqb_spec n name); [done|]. by apply IH.
Qed.

(** Whether it has a key, for a key that is no optional field's. *)
Definition says (key : string) (v : json) : bool :=
  match value_at key v with Some _ => true | None => false end.

Lemma says_struct key fields :
  NoDup (fields.*1.*1) → forallb (λ f, negb (f.2 && (f.1.1 =? key)%string)) fields = true →
  says key (json_struct fields) = existsb (String.eqb key) (fields.*1.*1).
Proof.
  intros Hdup Hopt. unfold says. destruct (existsb _ _) eqn:He.
  - apply existsb_exists in He as (k & Hin & <-%String.eqb_eq). apply list_elem_of_In in Hin.
    apply list_elem_of_fmap in Hin as ([k v] & -> & Hin). apply list_elem_of_fmap in Hin as ([[n w] o] & [= -> ->] & Hin). cbn [fst].
    rewrite (json_struct_value _ _ _ _ Hdup Hin). rewrite forallb_forall in Hopt.
    specialize (Hopt _ (proj1 (list_elem_of_In _ _) Hin)). simpl in Hopt. rewrite String.eqb_refl in Hopt.
    by destruct o.
  - rewrite json_struct_absent; [done|]. intros Hin%list_elem_of_In.
    assert (existsb (String.eqb key) (fields.*1.*1) = true); [|congruence].
    apply existsb_exists. exists key. by rewrite String.eqb_refl.
Qed.

(** The same field of two values of a struct: when it is omitted from both, they
    agree on it. *)
Definition same_field (f f' : field) : Prop :=
  f.1.1 = f'.1.1 ∧ f.2 = f'.2 ∧
  (f.2 = true → empty_value f.1.2 = true → empty_value f'.1.2 = true → f.1.2 = f'.1.2).

Lemma same_always name v v' : same_field (always_field name v) (always_field name v').
Proof. by split_and!. Qed.

Lemma same_text name s s' : same_field (text_field name s) (text_field name s').
Proof. by split_and!. Qed.

Lemma same_optional name s s' : same_field (omit_empty name s) (omit_empty name s').
Proof. split_and!; [done..|]. simpl. by intros _ ->%String.eqb_eq ->%String.eqb_eq. Qed.

Lemma same_array name l l' : same_field (optional_field name (JArray l)) (optional_field name (JArray l')).
Proof. split_and!; [done..|]. by destruct l, l'. Qed.

Lemma same_strings name l l' :
  same_field (optional_field name (json_strings l)) (optional_field name (json_strings l')).
Proof. apply same_array. Qed.

Create HintDb json_fields.
#[export] Hint Resolve same_always same_text same_optional same_array same_strings : json_fields.

(** Two values of one struct have the same fields. *)
Ltac same_struct :=
  match goal with
  | |- NoDup _ => apply (bool_decide_unpack _); by vm_compute
  | |- Forall2 same_field _ _ =>
      repeat (apply Forall2_cons_2; [solve [auto with json_fields]|]); apply Forall2_nil_2
  end.

(** A struct is read back field by field. *)
Lemma clean_empty v : empty_value (clean v) = empty_value v.
Proof. destruct v as [| | |s|[|]|[|]]; try done. apply to_valid_empty. Qed.

Definition clean_field (f : field) : field := (to_valid_utf8 f.1.1, clean f.1.2, f.2).

Lemma written_clean f : written (clean_field f) = (λ g, (to_valid_utf8 g.1, clean g.2)) <$> written f.
Proof.
  destruct f as [[n v] o]. unfold written, clean_field. cbn [fst snd]. rewrite clean_empty.
  by destruct (o && empty_value v).
Qed.

Lemma clean_struct fields : clean (json_struct fields) = json_struct (clean_field <$> fields).
Proof.
  unfold json_struct. cbn [clean]. f_equal. induction fields as [|f fields IH]; [done|].
  rewrite fmap_cons. cbn [omap list_omap]. rewrite written_clean.
  destruct (written f) as [g|]; [|exact IH]. cbn [fmap option_fmap option_map]. by rewrite <-IH.
Qed.

(** Structs with the same fields are encoded alike only when their values agree. *)
Lemma json_struct_inj fields fields' :
  NoDup (fields.*1.*1) → Forall2 same_field fields fields' →
  json_struct fields = json_struct fields' → (λ f, f.1.2) <$> fields = (λ f, f.1.2) <$> fields'.
Proof.
  intros Hdup Hsame Heq.
  assert (Hdup' : NoDup (fields'.*1.*1)).
  { replace (fields'.*1.*1) with (fields.*1.*1); [done|]. clear -Hsame.
    induction Hsame as [|f f' l l' [Hn _] _ IH]; [done|]. by rewrite !fmap_cons, Hn, IH. }
  assert (Hpoint : Forall2 (λ f f', f.1.2 = f'.1.2) fields fields').
  { apply Forall2_same_length_lookup. split; [by eapply Forall2_length|].
    intros i [[n v] o] [[n' v'] o'] Hf Hf'.
    destruct (Forall2_lookup_lr _ _ _ _ _ _ Hsame Hf Hf') as (Hn & Ho & Hempty). simpl in *. subst n' o'.
    pose proof (json_struct_value _ _ _ _ Hdup (list_elem_of_lookup_2 _ _ _ Hf)) as H1.
    pose proof (json_struct_value _ _ _ _ Hdup' (list_elem_of_lookup_2 _ _ _ Hf')) as H2.
    rewrite <-Heq, H1 in H2. destruct o; simpl in H2; [|by injection H2].
    destruct (empty_value v), (empty_value v'); try done; [by apply Hempty|by injection H2]. }
  clear -Hpoint. induction Hpoint as [|f f' l l' Hv _ IH]; [done|]. by rewrite !fmap_cons, Hv, IH.
Qed.

(** A map lists its entries. *)
Lemma json_map_entry (m : gmap string json) k v :
  (k, v) ∈ omap (λ k, (λ v, (k, v)) <$> m !! k) (sort_strings (map_to_list m).*1) ↔ m !! k = Some v.
Proof.
  rewrite list_elem_of_omap. split.
  - intros (k' & _ & Hk). destruct (m !! k') as [v'|] eqn:Hm; [|done]. simpl in Hk. by injection Hk as <- <-.
  - intros Hm. exists k. rewrite Hm. split; [|done]. apply elem_of_sort_strings.
    apply list_elem_of_fmap. exists (k, v). split; [done|]. by apply elem_of_map_to_list.
Qed.

Lemma json_map_inj m m' : json_map m = json_map m' → m = m'.
Proof.
  intros [= Heq]. apply map_eq. intros k. apply option_eq. intros v.
  by rewrite <-!json_map_entry, Heq.
Qed.
