(* ===== verification/RequestJson.v ===== *)
(** * A request as a client encodes it

    The body of a verification request by the tags of its struct, and that the
    gateway's decoder reads from it what the encoder wrote. *)

From S2P Require Import Prelude GoStrings Json JsonWrite JsonUnique HttpApi.

(** A slice of names; without elements Go writes it as [null] when it is nil and as
    [[]] otherwise. *)
Definition names_json (is_nil : bool) (l : list string) : json :=
  json_slice (match l with [] => if is_nil then None else Some [] | _ => Some l end).

(** The fields of [verifyPasswordRequest] (server.go), encoded by [encoding/json];
    [is_nil] says whether a request without attribute names holds a nil slice. *)
Definition request_json (is_nil : bool) (b : verifyPasswordRequest) : json :=
  json_struct
    [text_field "request_id" (Body_RequestID b); text_field "tenant_id" (Body_TenantID b);
     text_field "connector_id" (Body_ConnectorID b); text_field "username" (Body_Username b);
     text_field "password" (Body_Password b);
     always_field "attribute_names" (names_json is_nil (Body_AttributeNames b))].

(** What the encoder writes reads as: malformed bytes become U+FFFD. *)
Definition valid_body (b : verifyPasswordRequest) : verifyPasswordRequest := {|
  Body_RequestID := to_valid_utf8 (Body_RequestID b); Body_TenantID := to_valid_utf8 (Body_TenantID b);
  Body_ConnectorID := to_valid_utf8 (Body_ConnectorID b); Body_Username := to_valid_utf8 (Body_Username b);
  Body_Password := to_valid_utf8 (Body_Password b);
  Body_AttributeNames := to_valid_utf8 <$> Body_AttributeNames b |}.

(** ** Reading one value *)

Lemma skip_spaces_string s t : skip_spaces (json_string s +:+ t) = json_string s +:+ t.
Proof. done. Qed.

Lemma skip_spaces_byte c s : json_space c = false → skip_spaces (String c s) = String c s.
Proof. intros Hc. simpl. by rewrite Hc. Qed.

Lemma string_or_null_read old s t : string_or_null old (json_string s +:+ t) = Some (to_valid_utf8 s, t).
Proof. unfold string_or_null. change (literal_null (json_string s +:+ t)) with (@None string). apply string_literal_read. Qed.

Lemma store_end x l : store (length l) x l = l ++ [x].
Proof. unfold store. destruct (decide (length l < length l)%nat); [lia|done]. Qed.

Lemma array_body_read fuel done x l t :
  (length l < fuel)%nat →
  array_body fuel (length done) done (join "," (json_string <$> x :: l) +:+ "]" +:+ t) =
  Some ({| backing := done ++ (to_valid_utf8 <$> x :: l);
           slice_len := (length done + length (x :: l))%nat |}, t).
Proof.
  revert fuel done x. induction l as [|y l IH]; intros [|fuel] done x Hfuel; simpl in Hfuel; try lia.
  - change (join "," (json_string <$> [x])) with (json_string x). cbn [array_body]. rewrite skip_spaces_string, string_or_null_read.
    cbn [mbind option_bind]. rewrite store_end. simpl. do 3 f_equal. lia.
  - rewrite fmap_cons, join_cons by done. rewrite !append_assoc. cbn [array_body].
    rewrite skip_spaces_string, string_or_null_read. cbn [mbind option_bind]. rewrite store_end.
    rewrite (append_cons ","%char), append_nil, skip_spaces_byte by done.
    replace (S (length done)) with (length (done ++ [to_valid_utf8 x])) by (rewrite length_app; simpl; lia).
    rewrite IH by (simpl; lia). rewrite length_app. simpl.
    rewrite <-app_assoc. simpl. do 3 f_equal. lia.
Qed.

Lemma encode_strings l : encode (json_strings l) = "[" +:+ join "," (json_string <$> l) +:+ "]".
Proof. unfold json_strings. cbn [encode]. by rewrite <-list_fmap_compose. Qed.

Lemma json_string_length s : (2 ≤ String.length (json_string s))%nat.
Proof. unfold json_string. cbn [String.length]. rewrite append_length. simpl. lia. Qed.

Lemma join_strings_length l : (length l ≤ String.length (join "," (json_string <$> l)))%nat.
Proof.
  induction l as [|x l IH]; [done|]. destruct l as [|y l].
  - pose proof (json_string_length x). simpl. lia.
  - rewrite fmap_cons, join_cons, !append_length by done. cbn [length] in *. simpl String.length at 2. lia.
Qed.

Lemma array_value_read l t :
  array_value nil_slice (encode (json_strings l) +:+ t) =
  Some ({| backing := to_valid_utf8 <$> l; slice_len := length l |}, t).
Proof.
  rewrite encode_strings, !append_assoc. unfold array_value.
  rewrite (append_cons "["%char), append_nil. cbn [expect]. rewrite Ascii.eqb_refl.
  change (literal_null (String "[" _)) with (@None string). cbn [mbind option_bind].
  destruct l as [|x l]; [done|].
  assert (Hbody : array_body (String.length (join "," (json_string <$> x :: l) +:+ "]" +:+ t)) 0 []
                    (join "," (json_string <$> x :: l) +:+ "]" +:+ t) =
                  Some ({| backing := to_valid_utf8 <$> x :: l; slice_len := length (x :: l) |}, t)).
  { apply (array_body_read _ []). rewrite append_length. pose proof (join_strings_length (x :: l)) as Hl.
    cbn [length] in Hl. lia. }
  destruct l as [|y l]; [exact Hbody|]. rewrite fmap_cons, join_cons in * by done. exact Hbody.
Qed.

Lemma names_value_read is_nil l t :
  array_value nil_slice (encode (names_json is_nil l) +:+ t) =
  Some ({| backing := to_valid_utf8 <$> l; slice_len := length l |}, t).
Proof. destruct l as [|x l]; [destruct is_nil; [by destruct t|]|]; apply array_value_read. Qed.

Lemma skip_spaces_names is_nil l t :
  skip_spaces (encode (names_json is_nil l) +:+ t) = encode (names_json is_nil l) +:+ t.
Proof. by destruct l; [destruct is_nil|]. Qed.

(** ** Reading the members *)

Section members.
Variable sch : schema.

Lemma members_read fuel acc name v t acc' :
  name ∈ string_fields sch ++ list_fields sch → valid_utf8 name = true →
  (∀ t, field_value sch name acc (skip_spaces (encode v +:+ t)) = Some (acc', t)) →
  members sch (S fuel) acc (json_string name +:+ ":" +:+ encode v +:+ t) =
  match skip_spaces t with
  | String "," s => members sch fuel acc' s
  | String "}" s => Some (acc', s)
  | _ => None
  end.
Proof.
  intros Hin Hvalid Hread. cbn [members]. rewrite skip_spaces_string, string_literal_read, valid_kept by done.
  cbn [mbind option_bind]. rewrite (append_cons ":"%char), append_nil, skip_spaces_byte by done.
  cbn [expect]. rewrite Ascii.eqb_refl. cbn [mbind option_bind]. unfold find_field.
  rewrite bool_decide_true by done. cbn [mbind option_bind]. by rewrite Hread.
Qed.

Lemma string_field_read name acc s t :
  name ∈ string_fields sch →
  field_value sch name acc (skip_spaces (encode (JString s) +:+ t)) =
  Some ({| field_strings := <[name := to_valid_utf8 s]> (field_strings acc); field_lists := field_lists acc |}, t).
Proof.
  intros Hin. unfold field_value. cbn [encode]. rewrite bool_decide_true by done.
  by rewrite skip_spaces_string, string_or_null_read.
Qed.

Lemma list_field_read name acc is_nil l t :
  name ∉ string_fields sch → field_lists acc !! name = None →
  field_value sch name acc (skip_spaces (encode (names_json is_nil l) +:+ t)) =
  Some ({| field_strings := field_strings acc;
           field_lists := <[name := {| backing := to_valid_utf8 <$> l; slice_len := length l |}]> (field_lists acc) |}, t).
Proof.
  intros Hin Hnew. unfold field_value. rewrite bool_decide_false by done.
  rewrite Hnew, skip_spaces_names. change (default nil_slice None) with nil_slice. by rewrite names_value_read.
Qed.
End members.

(** ** The round trip *)

(** The decoded fields of [b]. *)
Definition request_fields (b : verifyPasswordRequest) : fields_value := {|
  field_strings :=
    <["password" := to_valid_utf8 (Body_Password b)]>
    (<["username" := to_valid_utf8 (Body_Username b)]>
    (<["connector_id" := to_valid_utf8 (Body_ConnectorID b)]>
    (<["tenant_id" := to_valid_utf8 (Body_TenantID b)]>
    (<["request_id" := to_valid_utf8 (Body_RequestID b)]> ∅))));
  field_lists :=
    <["attribute_names" := {| backing := to_valid_utf8 <$> Body_AttributeNames b;
                              slice_len := length (Body_AttributeNames b) |}]> ∅ |}.

Definition member (name : string) (v : json) : string := json_string name +:+ ":" +:+ encode v.

Lemma encode_request is_nil b :
  encode (request_json is_nil b) =
  "{" +:+ member "request_id" (JString (Body_RequestID b)) +:+
  "," +:+ member "tenant_id" (JString (Body_TenantID b)) +:+
  "," +:+ member "connector_id" (JString (Body_ConnectorID b)) +:+
  "," +:+ member "username" (JString (Body_Username b)) +:+
  "," +:+ member "password" (JString (Body_Password b)) +:+
  "," +:+ member "attribute_names" (names_json is_nil (Body_AttributeNames b)) +:+ "}".
Proof.
  change (encode (request_json is_nil b)) with
    ("{" +:+ join "," [member "request_id" (JString (Body_RequestID b)); member "tenant_id" (JString (Body_TenantID b));
                       member "connector_id" (JString (Body_ConnectorID b));
                       member "username" (JString (Body_Username b)); member "password" (JString (Body_Password b));
                       member "attribute_names" (names_json is_nil (Body_AttributeNames b))] +:+ "}").
  rewrite !join_cons by done. by rewrite !append_assoc.
Qed.

(** Reading an object starts with its first member. *)
Lemma decode_members sch name u t :
  decode_struct sch ("{" +:+ (json_string name +:+ u) +:+ t) =
  members sch (String.length ((json_string name +:+ u) +:+ t)) no_fields ((json_string name +:+ u) +:+ t).
Proof. done. Qed.

Lemma decode_request is_nil b t :
  decode_struct verifyPasswordRequest_schema (encode (request_json is_nil b) +:+ t) = Some (request_fields b, t).
Proof.
  rewrite encode_request. unfold member. rewrite !append_assoc.
  rewrite <-(append_assoc (json_string _)). rewrite decode_members, !append_assoc.
  match goal with |- context [members _ (String.length ?s) _ _] => set (n := String.length s) end.
  assert (∃ k, n = (6 + k)%nat) as [k ->].
  { exists (n - 6)%nat. enough (6 ≤ n)%nat by lia. subst n. rewrite !append_length.
    change (String.length ",") with 1%nat. change (String.length ":") with 1%nat. lia. }
  cbn [Nat.add].
  do 5 (erewrite members_read; [|by vm_compute; set_solver|done|intros t'; by apply string_field_read; vm_compute; set_solver];
        rewrite (append_cons ","%char), append_nil, skip_spaces_byte by done).
  erewrite members_read; [|by vm_compute; set_solver|done|intros t'; by apply list_field_read; vm_compute; set_solver].
  done.
Qed.

Lemma decode_eof_spaces s : decode_eof s = string_all json_space s.
Proof.
  unfold decode_eof. induction s as [|c s IH]; [done|]. cbn [string_all skip_spaces].
  by destruct (json_space c).
Qed.

Lemma valid_strings_kept l : forallb valid_json (JString <$> l) = true → to_valid_utf8 <$> l = l.
Proof.
  induction l as [|x l IH]; [done|]. rewrite !fmap_cons. cbn [forallb valid_json].
  intros [Hx Hl]%andb_prop. by rewrite valid_kept, IH.
Qed.

Lemma valid_names_kept is_nil l : valid_json (names_json is_nil l) = true → to_valid_utf8 <$> l = l.
Proof. destruct l as [|x l]; [done|]. apply valid_strings_kept. Qed.

Lemma valid_body_kept is_nil b : valid_json (request_json is_nil b) = true → valid_body b = b.
Proof.
  change (valid_json (request_json is_nil b)) with
    (valid_utf8 (Body_RequestID b) && (valid_utf8 (Body_TenantID b) && (valid_utf8 (Body_ConnectorID b) &&
     (valid_utf8 (Body_Username b) && (valid_utf8 (Body_Password b) &&
      (valid_json (names_json is_nil (Body_AttributeNames b)) && true)))))).
  intros H. repeat (apply andb_prop in H as [? H]). destruct b. unfold valid_body. simpl in *.
  by rewrite !valid_kept, (valid_names_kept is_nil).
Qed.

(** C28: a request is decoded as it was encoded.  The text that [encoding/json]
    writes for a verification request, white space after it included, is decoded
    by the gateway to that request, a malformed byte of a text read as U+FFFD; so
    texts of valid UTF-8 come back as they are, whatever they hold, and an absent
    list of names ([null]) as an empty one.  With anything else after it the body
    is refused. *)
Theorem request_roundtrip (is_nil : bool) (b : verifyPasswordRequest) (rest : string) :
  decodeBody (encode (request_json is_nil b) +:+ rest) =
    (if string_all json_space rest then Some (valid_body b) else None) ∧
  (valid_json (request_json is_nil b) = true → valid_body b = b).
Proof.
  split; [|apply (valid_body_kept is_nil)]. unfold decodeBody. rewrite decode_request. cbn [mbind option_bind].
  rewrite decode_eof_spaces. destruct (string_all json_space rest); [|done].
  change (get_list (request_fields b) "attribute_names") with
    (take (length (Body_AttributeNames b)) (to_valid_utf8 <$> Body_AttributeNames b)).
  by rewrite take_ge by by rewrite length_fmap.
Qed.
