(* ===== verification/MessageJson.v ===== *)
(** * What the connector answers, as JSON

    The bodies of the gateway's responses (server.go) and the relay's messages
    (client.go) by the tags of their structs, and that they say which answer was
    given: no two answers are written alike. *)

From S2P Require Import Prelude GoStrings Json JsonWrite JsonUnique HttpApi Relay.

(** ** Parts of both *)

Definition subject_json (id username : string) : json :=
  json_struct [text_field "directory_id" id; text_field "username" username].

Definition fact_json (id dn display source : string) (depth : Z) : json :=
  json_struct [text_field "id" id; text_field "dn" dn; text_field "display" display;
               text_field "source" source; always_field "depth" (JInt depth)].

Definition attributes_json (attributes : gmap string (list string)) : json :=
  json_map (json_strings <$> attributes).

Definition error_json (code : string) (retryable : bool) : json :=
  json_struct [text_field "code" code; always_field "retryable" (JBool retryable)].

(** A pointer: [nil] is [null]. *)
Definition pointer_json {A} (enc : A → json) (o : option A) : json :=
  match o with Some a => enc a | None => JNull end.

(** The fields of a verdict, after the ids. *)
Definition verdict_fields (result reason : string) (subject : json)
    (attributes : gmap string (list string)) (facts : list json) (status : string) : list field :=
  [text_field "result" result; omit_empty "reason" reason; optional_field "subject" subject;
   optional_field "attributes" (attributes_json attributes);
   optional_field "group_facts" (JArray facts); text_field "directory_status" status].

(** ** The gateway's responses *)

Definition subjectResponse_json (s : subjectResponse) : json :=
  subject_json (Response_DirectoryID s) (Response_Username s).

Definition groupFactResponse_json (f : groupFactResponse) : json :=
  fact_json (FactResponse_ID f) (FactResponse_DN f) (FactResponse_Display f) (FactResponse_Source f)
    (FactResponse_Depth f).

Definition verifyPasswordResponse_json (r : verifyPasswordResponse) : json :=
  json_struct
    ([text_field "request_id" (Response_RequestID r); text_field "tenant_id" (Response_TenantID r);
      text_field "connector_id" (Response_ConnectorID r)] ++
     verdict_fields (Response_Result r) (Response_Reason r)
       (pointer_json subjectResponse_json (Response_Subject r)) (Response_Attributes r)
       (groupFactResponse_json <$> Response_GroupFacts r) (Response_DirectoryStatus r)).

Definition errorResponse_json (e : errorResponse) : json :=
  json_struct
    [omit_empty "request_id" (Error_RequestID e); omit_empty "tenant_id" (Error_TenantID e);
     omit_empty "connector_id" (Error_ConnectorID e);
     always_field "error" (error_json (Error_Code (Error_Payload e)) (Error_Retryable (Error_Payload e)))].

Definition healthDetailTenant_json (t : healthDetailTenant) : json :=
  json_struct
    [text_field "tenant_id" (Detail_TenantID t); text_field "connector_id" (Detail_ConnectorID t);
     always_field "concurrency_limit" (JInt (Detail_ConcurrencyLimit t));
     always_field "request_timeout_ms" (JInt (Detail_RequestTimeoutMS t))].

(** The value [writeJSON] encodes; two responses are plain texts. *)
Definition response_json (r : response) : option json :=
  match r with
  | VerifyPasswordResponse r => Some (verifyPasswordResponse_json r)
  | ErrorResponse e => Some (errorResponse_json e)
  | HealthDetailResponse ok connector version tenants =>
      Some (json_struct [always_field "ok" (JBool ok); text_field "connector" connector;
                         text_field "version" version;
                         always_field "tenants" (JArray (healthDetailTenant_json <$> tenants))])
  | HealthResponse ok connector version =>
      Some (json_struct [always_field "ok" (JBool ok); text_field "connector" connector;
                         text_field "version" version])
  | VersionResponse connector version =>
      Some (json_struct [text_field "connector" connector; text_field "version" version])
  | MetricsText _ | NotFoundText => None
  end.

(** The bytes of the body. *)
Definition response_body (r : response) : string :=
  match r with
  | MetricsText text => text
  | NotFoundText => "404 page not found" +:+ newline
  | r => default "" (encode <$> response_json r) +:+ newline
  end.

(** ** The relay's messages *)

Definition subjectMessage_json (s : subjectMessage) : json :=
  subject_json (Message_DirectoryID s) (Message_Username s).

Definition groupFactMessage_json (f : groupFactMessage) : json :=
  fact_json (FactMessage_ID f) (FactMessage_DN f) (FactMessage_Display f) (FactMessage_Source f)
    (FactMessage_Depth f).

Definition envelope_fields (type protocol : string) (version minimum : Z) : list field :=
  [text_field "type" type; text_field "protocol" protocol; always_field "protocol_version" (JInt version);
   always_field "min_supported_version" (JInt minimum)].

Definition verifyResponseMessage_json (m : verifyResponseMessage) : json :=
  json_struct
    (envelope_fields (Resp_Type m) (Resp_Protocol m) (Resp_ProtocolVersion m) (Resp_MinSupportedVersion m) ++
     [text_field "id" (Resp_ID m); text_field "request_id" (Resp_RequestID m);
      text_field "tenant_id" (Resp_TenantID m); text_field "connector_id" (Resp_ConnectorID m)] ++
     verdict_fields (Resp_Result m) (Resp_Reason m)
       (pointer_json subjectMessage_json (Resp_Subject m)) (Resp_Attributes m)
       (groupFactMessage_json <$> Resp_GroupFacts m) (Resp_DirectoryStatus m)).

Definition verifyErrorMessage_json (m : verifyErrorMessage) : json :=
  json_struct
    (envelope_fields (VErr_Type m) (VErr_Protocol m) (VErr_ProtocolVersion m) (VErr_MinSupportedVersion m) ++
     [text_field "id" (VErr_ID m); omit_empty "request_id" (VErr_RequestID m);
      omit_empty "tenant_id" (VErr_TenantID m); omit_empty "connector_id" (VErr_ConnectorID m);
      always_field "error" (error_json (RelayError_Code (VErr_Error m)) (RelayError_Retryable (VErr_Error m)))]).

Definition message_json (m : message) : json :=
  match m with
  | ResponseMessage m => verifyResponseMessage_json m
  | ErrorMessage m => verifyErrorMessage_json m
  end.

Definition authResponseMessage_json (m : authResponseMessage) : json :=
  json_struct
    (envelope_fields (Auth_Type m) (Auth_Protocol m) (Auth_ProtocolVersion m) (Auth_MinSupportedVersion m) ++
     [text_field "tenant_id" (Auth_TenantID m); text_field "connector_id" (Auth_ConnectorID m);
      omit_empty "instance_id" (Auth_InstanceID m); omit_empty "display_name" (Auth_DisplayName m);
      omit_empty "version" (Auth_Version m); omit_empty "release_channel" (Auth_ReleaseChannel m);
      omit_empty "started_at" (Auth_StartedAt m); omit_empty "config_fingerprint" (Auth_ConfigFingerprint m);
      optional_field "config_categories" (json_strings (Auth_ConfigCategories m));
      text_field "key_id" (Auth_KeyID m); text_field "challenge_id" (Auth_ChallengeID m);
      text_field "nonce" (Auth_Nonce m); text_field "timestamp" (Auth_Timestamp m);
      text_field "signature" (Auth_Signature m)]).

(** ** The parts say what they were made of *)

Lemma same_pointer {A} (enc : A → json) name o o' :
  (∀ a, empty_value (enc a) = false) →
  same_field (optional_field name (pointer_json enc o)) (optional_field name (pointer_json enc o')).
Proof.
  intros Henc. split_and!; [done..|]. destruct o as [a|], o' as [a'|]; simpl; rewrite ?Henc; done.
Qed.

Lemma same_attributes name m m' :
  same_field (optional_field name (attributes_json m)) (optional_field name (attributes_json m')).
Proof.
  split_and!; [done..|]. unfold optional_field, attributes_json, json_map. simpl.
  intros _ Hm Hm'. destruct (omap _ _); [|done]. by destruct (omap _ _).
Qed.

#[local] Hint Resolve same_attributes : json_fields.
#[local] Hint Extern 1 (same_field (optional_field _ (pointer_json _ _)) _) =>
  apply same_pointer; done : json_fields.

(** Equal structs have equal values. *)
Ltac struct_values H :=
  apply json_struct_inj in H; [|same_struct..]; cbn in H;
  repeat (apply cons_eq_inj in H as [? H]); clear H.

Lemma subject_json_inj id name id' name' :
  subject_json id name = subject_json id' name' → id = id' ∧ name = name'.
Proof. intros H. struct_values H. by simplify_eq/=. Qed.

Lemma fact_json_inj id dn display source depth id' dn' display' source' depth' :
  fact_json id dn display source depth = fact_json id' dn' display' source' depth' →
  id = id' ∧ dn = dn' ∧ display = display' ∧ source = source' ∧ depth = depth'.
Proof. intros H. struct_values H. by simplify_eq/=. Qed.

Lemma error_json_inj code retryable code' retryable' :
  error_json code retryable = error_json code' retryable' → code = code' ∧ retryable = retryable'.
Proof. intros H. struct_values H. by simplify_eq/=. Qed.

Lemma attributes_json_inj m m' : attributes_json m = attributes_json m' → m = m'.
Proof.
  intros H%json_map_inj. apply map_eq. intros k. apply (f_equal (lookup k)) in H.
  rewrite !lookup_fmap in H. destruct (m !! k), (m' !! k); by simplify_eq/=.
Qed.

#[local] Instance subjectResponse_json_inj : Inj (=) (=) subjectResponse_json.
Proof. intros [] [] H%subject_json_inj. by destruct_and!; simplify_eq/=. Qed.
#[local] Instance subjectMessage_json_inj : Inj (=) (=) subjectMessage_json.
Proof. intros [] [] H%subject_json_inj. by destruct_and!; simplify_eq/=. Qed.
#[local] Instance groupFactResponse_json_inj : Inj (=) (=) groupFactResponse_json.
Proof. intros [] [] H%fact_json_inj. by destruct_and!; simplify_eq/=. Qed.
#[local] Instance groupFactMessage_json_inj : Inj (=) (=) groupFactMessage_json.
Proof. intros [] [] H%fact_json_inj. by destruct_and!; simplify_eq/=. Qed.
#[local] Instance healthDetailTenant_json_inj : Inj (=) (=) healthDetailTenant_json.
Proof. intros [] [] H. struct_values H. by simplify_eq/=. Qed.

Lemma pointer_json_inj {A} (enc : A → json) `{!Inj (=) (=) enc} o o' :
  (∀ a, enc a ≠ JNull) → pointer_json enc o = pointer_json enc o' → o = o'.
Proof.
  intros Hnull. destruct o as [a|], o' as [a'|]; simpl; try done.
  - by intros ->%(inj enc).
  - by intros ?%Hnull.
  - intros Heq. by destruct (Hnull a').
Qed.

(** The values of a verdict. *)
Ltac verdict_values :=
  repeat match goal with
  | H : attributes_json _ = attributes_json _ |- _ => apply attributes_json_inj in H
  | H : pointer_json _ _ = pointer_json _ _ |- _ => apply pointer_json_inj in H; [|apply _|done]
  | H : error_json _ _ = error_json _ _ |- _ => apply error_json_inj in H as [? ?]
  end; by simplify_eq/=.

#[local] Instance verifyPasswordResponse_json_inj : Inj (=) (=) verifyPasswordResponse_json.
Proof. intros [] [] H. struct_values H. verdict_values. Qed.
#[local] Instance verifyResponseMessage_json_inj : Inj (=) (=) verifyResponseMessage_json.
Proof. intros [] [] H. struct_values H. verdict_values. Qed.
#[local] Instance errorResponse_json_inj : Inj (=) (=) errorResponse_json.
Proof. intros [? ? ? []] [? ? ? []] H. struct_values H. verdict_values. Qed.
#[local] Instance verifyErrorMessage_json_inj : Inj (=) (=) verifyErrorMessage_json.
Proof. intros [? ? ? ? ? ? ? ? []] [? ? ? ? ? ? ? ? []] H. struct_values H. verdict_values. Qed.
#[local] Instance authResponseMessage_json_inj : Inj (=) (=) authResponseMessage_json.
Proof. intros [] [] H. struct_values H. verdict_values. Qed.

(** ** Answers of different kinds *)

(** The keys that tell them apart. *)
Definition signature (v : json) : list bool := (λ k, says k v) <$> ["error"; "result"; "tenants"; "ok"].

Definition signature_of (r : response) : list bool :=
  match r with
  | VerifyPasswordResponse _ => [false; true; false; false]
  | ErrorResponse _ => [true; false; false; false]
  | HealthDetailResponse _ _ _ _ => [false; false; true; true]
  | HealthResponse _ _ _ => [false; false; false; true]
  | _ => [false; false; false; false]
  end.

Ltac signed :=
  unfold signature; simpl message_json;
  unfold verifyPasswordResponse_json, errorResponse_json, verifyResponseMessage_json, verifyErrorMessage_json;
  cbn [fmap list_fmap]; rewrite !says_struct by (same_struct || done); reflexivity.

Lemma response_signature r v : response_json r = Some v → signature v = signature_of r.
Proof. destruct r; intros [= <-]; signed. Qed.

Lemma response_json_unique x y v : response_json x = Some v → response_json y = Some v → x = y.
Proof.
  intros Hx Hy. pose proof (response_signature x v Hx) as Hs. rewrite (response_signature y v Hy) in Hs.
  destruct x, y; try discriminate; simpl in Hx, Hy; rewrite <-Hx in Hy; apply Some_inj in Hy.
  1, 2: by apply (inj _) in Hy as ->.
  all: struct_values Hy; by simplify_eq/=.
Qed.

Lemma message_signature m :
  signature (message_json m) = match m with ResponseMessage _ => [false; true; false; false]
                                          | ErrorMessage _ => [true; false; false; false] end.
Proof. destruct m; signed. Qed.

Lemma message_json_unique m m' : message_json m = message_json m' → m = m'.
Proof.
  intros H. pose proof (message_signature m) as Hs. rewrite H, message_signature in Hs.
  destruct m, m'; try discriminate; simpl in H; by apply (inj _) in H as ->.
Qed.

(** ** The bytes say which answer was given *)

(** A JSON response whose texts are valid UTF-8. *)
Definition valid_response (r : response) : bool :=
  match response_json r with Some v => valid_json v | None => false end.

Lemma response_body_json r v : response_json r = Some v → response_body r = encode v +:+ newline.
Proof. destruct r; by intros [= <-]. Qed.

Lemma response_body_unique x y :
  valid_response x = true → valid_response y = true → response_body x = response_body y → x = y.
Proof.
  unfold valid_response. intros Hx Hy Hbody.
  destruct (response_json x) as [v|] eqn:Hvx, (response_json y) as [w|] eqn:Hvy; try done.
  rewrite (response_body_json x v Hvx), (response_body_json y w Hvy) in Hbody.
  destruct (encode_unique v w newline newline Hx Hy) as [-> _]; [done..|]. by apply (response_json_unique x y w).
Qed.

Lemma value_says key v w : value_at key v = Some w → says key v = true.
Proof. unfold says. by intros ->. Qed.

(** The member result of a verdict. *)
Lemma verdict_result fields result reason subject attributes facts status :
  NoDup ((fields ++ verdict_fields result reason subject attributes facts status).*1.*1) →
  value_at "result" (json_struct (fields ++ verdict_fields result reason subject attributes facts status)) =
  Some (JString result).
Proof.
  intros Hdup. apply (json_struct_value _ "result" (JString result) false Hdup). apply elem_of_app. right. by left.
Qed.

Lemma response_result x v result :
  response_json x = Some v → value_at "result" v = Some (JString result) →
  ∃ r, x = VerifyPasswordResponse r ∧ Response_Result r = result.
Proof.
  intros Hx Hv. pose proof (response_signature x v Hx) as Hs.
  pose proof (value_says _ _ _ Hv) as Hsaid. unfold signature in Hs. simpl in Hs. rewrite Hsaid in Hs.
  destruct x as [r| | | | | |]; try discriminate. exists r. split; [done|]. injection Hx as <-.
  unfold verifyPasswordResponse_json in Hv. rewrite verdict_result in Hv by same_struct. by injection Hv.
Qed.


Lemma message_result m result :
  value_at "result" (message_json m) = Some (JString result) →
  ∃ r, m = ResponseMessage r ∧ Resp_Result r = result.
Proof.
  intros Hm. pose proof (message_signature m) as Hs. pose proof (value_says _ _ _ Hm) as Hsaid.
  unfold signature in Hs. simpl in Hs. rewrite Hsaid in Hs. destruct m as [r|]; [|discriminate]. exists r.
  split; [done|]. cbn [message_json] in Hm. unfold verifyResponseMessage_json in Hm. rewrite app_assoc in Hm.
  rewrite verdict_result in Hm by same_struct. by injection Hm.
Qed.

(** The same of the relay: messages of valid UTF-8 are encoded alike only when
    they are the same message, an authentication as well, and only a verdict has a
    member result. *)
Theorem messages_unambiguous :
  (∀ m m', valid_json (message_json m) = true → valid_json (message_json m') = true →
     encode (message_json m) = encode (message_json m') → m = m') ∧
  (∀ a a', valid_json (authResponseMessage_json a) = true → valid_json (authResponseMessage_json a') = true →
     encode (authResponseMessage_json a) = encode (authResponseMessage_json a') → a = a') ∧
  (∀ m result, value_at "result" (message_json m) = Some (JString result) →
     ∃ r, m = ResponseMessage r ∧ Resp_Result r = result).
Proof.
  split_and!; [| |apply message_result].
  - intros m m' Hm Hm' Heq. by apply message_json_unique, encode_inj.
  - intros a a' Ha Ha' Heq. by apply (inj authResponseMessage_json), encode_inj.
Qed.
