(* ===== verification/AuditLog.v ===== *)
(** * The audit log (internal/adapters/auditlog/json.go)

    The sink that writes one line of JSON per event.  The encoder writes each
    line with one call and the mutex keeps the calls apart, so the log is the
    concatenation of the lines. *)

From S2P Require Import Prelude GoStrings GoTime Json JsonWrite JsonUnique AuditEvent.

(** The event as its struct tags order and name it; years 0 to 9999. *)
Definition event_fields (e : Event) : list field :=
  [text_field "event_id" (EventID e); text_field "event_type" (EventType e);
   text_field "timestamp" (format_rfc3339_nano (Timestamp e));
   omit_empty "tenant_id" (Event_TenantID e); omit_empty "connector_id" (Event_ConnectorID e);
   omit_empty "request_id" (Event_RequestID e); omit_empty "key_id" (Event_KeyID e);
   omit_empty "result" (Event_Result e); omit_empty "reason" (Event_Reason e);
   omit_empty "error_code" (Event_ErrorCode e);
   always_field "retryable" (JBool (Event_Retryable e));
   always_field "latency_ms" (JInt (Event_LatencyMS e));
   omit_empty "directory_status" (Event_DirectoryStatus e);
   omit_empty "username_hash" (Event_UsernameHash e)].

Definition event_json (e : Event) : json := json_struct (event_fields e).

(** [Encoder.Encode] ends a value with a line feed. *)
Definition event_line (e : Event) : string := encode (event_json e) +:+ newline.

(** [JSONSink.WriteEvent] on a writer that does not fail. *)
Definition sink_WriteEvent (log : string) (e : Event) : string := log +:+ event_line e.

(** The log after a sequence of events, from an empty one. *)
Definition audit_log (es : list Event) : string := foldl sink_WriteEvent EmptyString es.

(** ** One line per event *)

Lemma inert_lacks_lf s : string_all inert_byte s = true → lacks LF s = true.
Proof. by apply string_all_lacks. Qed.

Lemma audit_log_cons log es :
  foldl sink_WriteEvent log es = log +:+ audit_log es.
Proof.
  unfold audit_log. revert log. induction es as [|e es IH]; intros log; [by rewrite append_nil_r|].
  simpl. rewrite IH, (IH (sink_WriteEvent _ _)). unfold sink_WriteEvent.
  by rewrite append_nil, !append_assoc.
Qed.

Lemma audit_log_lines es :
  split_byte LF (audit_log es) = ((λ e, encode (event_json e)) <$> es) ++ [EmptyString].
Proof.
  induction es as [|e es IH]; [done|]. unfold audit_log. simpl. rewrite audit_log_cons.
  unfold sink_WriteEvent, event_line, newline. rewrite append_nil, append_assoc, append_cons, append_nil.
  rewrite split_byte_app by apply inert_lacks_lf, encode_inert. by rewrite IH.
Qed.

(** ** The log determines its events *)

(** What the log keeps of an event: everything, the time as a text. *)
Definition printed (e : Event) : Event * string :=
  (mkEvent (EventID e) (EventType e) 0 (Event_TenantID e) (Event_ConnectorID e) (Event_RequestID e)
     (Event_KeyID e) (Event_Result e) (Event_Reason e) (Event_ErrorCode e) (Event_Retryable e)
     (Event_LatencyMS e) (Event_DirectoryStatus e) (Event_UsernameHash e),
   format_rfc3339_nano (Timestamp e)).

(** The event that a reader of its line sees: a malformed byte of a text is
    U+FFFD. *)
Definition read_event (e : Event) : Event :=
  let text := to_valid_utf8 in
  mkEvent (text (EventID e)) (text (EventType e)) (Timestamp e) (text (Event_TenantID e))
    (text (Event_ConnectorID e)) (text (Event_RequestID e)) (text (Event_KeyID e)) (text (Event_Result e))
    (text (Event_Reason e)) (text (Event_ErrorCode e)) (Event_Retryable e) (Event_LatencyMS e)
    (text (Event_DirectoryStatus e)) (text (Event_UsernameHash e)).

(** An event whose texts are valid UTF-8. *)
Definition valid_event (e : Event) : bool :=
  forallb valid_utf8
    [EventID e; EventType e; Event_TenantID e; Event_ConnectorID e; Event_RequestID e; Event_KeyID e;
     Event_Result e; Event_Reason e; Event_ErrorCode e; Event_DirectoryStatus e; Event_UsernameHash e].

Lemma valid_event_read e : valid_event e = true → read_event e = e.
Proof.
  unfold valid_event. cbn [forallb]. intros H. repeat (apply andb_prop in H as [? H]). destruct e. simpl in *.
  unfold read_event. simpl. by rewrite !valid_kept.
Qed.

Lemma read_event_json e : clean (event_json e) = event_json (read_event e).
Proof.
  unfold event_json. rewrite clean_struct. f_equal. unfold event_fields, read_event, clean_field. cbn -[to_valid_utf8 format_rfc3339_nano].
  by rewrite (valid_kept (format_rfc3339_nano _)) by apply ascii_valid, format_nano_ascii.
Qed.

(** The texts, the flag and the number of an event as its log line has them. *)
Lemma event_json_inj e e' : event_json e = event_json e' → printed e = printed e'.
Proof.
  intros Heq. unfold event_json in Heq.
  assert (Hvalues : (λ f, f.1.2) <$> event_fields e = (λ f, f.1.2) <$> event_fields e').
  { by apply json_struct_inj; [same_struct..|]. }
  unfold event_fields in Hvalues. simpl in Hvalues. clear Heq. injection Hvalues. intros.
  unfold printed. f_equal; [f_equal; assumption|assumption].
Qed.

(** Ids of one malformed byte each are both U+FFFD to a reader. *)
Example malformed_ids_alike :
  let event id := mkEvent "e" EventVerifyError 0 "" "" id "" "" "" "" false 0 "" "" in
  audit_log [event (bytes_string [255%N])] = audit_log [event (bytes_string [254%N])] ∧
  read_event (event (bytes_string [255%N])) = event replacement_char.
Proof. vm_compute. done. Qed.

(** C23: the audit log is one line per event, and says which.  Whatever the
    usernames, ids and codes hold, splitting the log at its line feeds gives
    exactly the encoding of each event, in order, and no line holds a control
    byte or HTML markup; and two sequences of events have the same log only when
    a reader sees the same events, up to how a time is printed.  A reader sees an
    event as it was when its texts are valid UTF-8; a malformed byte is seen as
    U+FFFD, so texts that differ in malformed bytes only are not told apart. *)
Theorem audit_log_faithful (es es' : list Event) :
  split_byte LF (audit_log es) = ((λ e, encode (event_json e)) <$> es) ++ [EmptyString] ∧
  Forall (λ e, string_all inert_byte (encode (event_json e)) = true) es ∧
  (audit_log es = audit_log es' →
   (λ e, printed (read_event e)) <$> es = (λ e, printed (read_event e)) <$> es') ∧
  Forall (λ e, valid_event e = true → read_event e = e) es.
Proof.
  split; [apply audit_log_lines|]. split; [apply Forall_forall; intros; apply encode_inert|].
  split; [|apply Forall_forall; intros e _; apply valid_event_read].
  intros Heq. pose proof (audit_log_lines es) as Hl. rewrite Heq, audit_log_lines in Hl.
  apply app_inj_2 in Hl as [Hl _]; [|done]. symmetry in Hl.
  apply (fmap_determines (λ e, encode (event_json e)) (λ e, printed (read_event e)) (λ _, true)); [|by apply forallb_forall..|done].
  intros e e' _ _ He. apply event_json_inj. rewrite <-!read_event_json. by apply encode_clean.
Qed.
