(* ===== verification/Heartbeat.v ===== *)
(** * Heartbeats (internal/app/heartbeat.go)

    The signed report that each tenant's client sends at an interval: its
    payload with the fingerprint of the configuration, its canonical text and
    signature, one request and the loop. *)

From S2P Require Import Prelude GoStrings GoCrypto GoTime Effects Config Url Json JsonWrite JsonUnique.
Local Open Scope Z_scope.

(** [version] of command.go *)
Definition wordwarden_version : string := "0.1.0-beta.1".

Definition heartbeatAlgorithm : string := "AUTHRIM-WORDWARDEN-HEARTBEAT-HMAC-SHA256".

Record heartbeatPayload := {
  Payload_InstanceID : string;
  Payload_DisplayName : string;
  Payload_Transport : string;
  Payload_Version : string;
  Payload_ReleaseChannel : string;
  Payload_StartedAt : string;
  Payload_HealthStatus : string;
  Payload_HealthSummary : gmap string json;
  Payload_ConfigFingerprint : string;
  Payload_ConfigCategories : list string;
  Payload_DriftSeverity : string;
}.

Definition payload_json (p : heartbeatPayload) : json := json_struct
  [text_field "instance_id" (Payload_InstanceID p);
   omit_empty "display_name" (Payload_DisplayName p);
   text_field "transport" (Payload_Transport p);
   text_field "version" (Payload_Version p);
   text_field "release_channel" (Payload_ReleaseChannel p);
   text_field "started_at" (Payload_StartedAt p);
   text_field "health_status" (Payload_HealthStatus p);
   ("health_summary", json_map (Payload_HealthSummary p), true);
   text_field "config_fingerprint" (Payload_ConfigFingerprint p);
   ("config_categories", json_strings (Payload_ConfigCategories p), true);
   text_field "drift_severity" (Payload_DriftSeverity p)].

(** ** The fingerprint of a tenant's configuration *)

Definition ldapURLs (ldap : LDAPConfig) : list string :=
  (if (LDAP_URL ldap =? "")%string then [] else [LDAP_URL ldap]) ++ LDAP_URLs ldap.

(** The copy of an empty list is nil. *)
Definition sortedStrings (values : list string) : option (list string) :=
  match values with [] => None | _ => Some (sort_strings values) end.

Definition url_scheme (rawURL : string) : option string :=
  if has_prefix rawURL "ldaps:" then Some "ldaps"
  else if has_prefix rawURL "ldap:" then Some "ldap" else None.

Definition timeouts_json (t : TimeoutConfig) : json := JObject
  [("LDAPConnectMS", JInt (Timeout_LDAPConnectMS t)); ("LDAPBindMS", JInt (Timeout_LDAPBindMS t));
   ("LDAPSearchMS", JInt (Timeout_LDAPSearchMS t)); ("RequestMS", JInt (Timeout_RequestMS t))].

Definition protection_json (p : ProtectionConfig) : json := JObject
  [("MaxConcurrentRequests", JInt (Protection_MaxConcurrentRequests p));
   ("StormWindowMS", JInt (Protection_StormWindowMS p));
   ("StormBlockMS", JInt (Protection_StormBlockMS p));
   ("MalformedRequestLimit", JInt (Protection_MalformedRequestLimit p));
   ("ReplayLimit", JInt (Protection_ReplayLimit p));
   ("DirectoryErrorLimit", JInt (Protection_DirectoryErrorLimit p))].

Definition profile_json (p : DirectoryProfileConfig) : json := json_map (list_to_map
  [("name", JString (Profile_Name p));
   ("subject_attribute", JString (Profile_SubjectAttribute p));
   ("identifier_attributes", json_slice (sortedStrings (Profile_IdentifierAttributes p)));
   ("group_strategy", JString (Profile_GroupStrategy p));
   ("status_normalization", JString (Profile_StatusNormalization p));
   ("paged_search_enabled", JBool (PagedSearch_Enabled (Profile_PagedSearch p)));
   ("paged_search_page_size", JInt (PagedSearch_PageSize (Profile_PagedSearch p)))]).

(** [fingerprintInput], marshalled *)
Definition fingerprint_json (tenant : TenantConfig) : json :=
  let ldap := Tenant_LDAP tenant in
  let urls := ldapURLs ldap in
  JObject
  [("tenant_id", JString (Tenant_TenantID tenant));
   ("connector_id", JString (Tenant_ConnectorID tenant));
   ("ldap_url_count", JInt (Z.of_nat (length urls)));
   ("ldap_schemes", json_strings (sort_strings (omap url_scheme urls)));
   ("ldap_tls_verify", JBool (LDAPTLS_Verify (LDAP_TLS ldap)));
   ("ldap_start_tls", JBool (LDAPTLS_StartTLS (LDAP_TLS ldap)));
   ("lookup_mode", JString (LDAP_LookupMode ldap));
   ("profile", profile_json (LDAP_DirectoryProfile ldap));
   ("attributes", json_slice (sortedStrings (LDAP_Attributes ldap)));
   ("username_formats", json_slice (sortedStrings (Username_AllowedFormats (LDAP_Username ldap))));
   ("username_domains", json_slice (sortedStrings (Username_AllowedDomains (LDAP_Username ldap))));
   ("username_upn_suffixes",
      json_slice (sortedStrings (Username_AllowedUPNSuffixes (LDAP_Username ldap))));
   ("groups_enabled", JBool (Group_Enabled (LDAP_Groups ldap)));
   ("referrals_mode", JString (Referral_Mode (LDAP_Referrals ldap)));
   ("timeouts", timeouts_json (Tenant_Timeouts tenant));
   ("protection", protection_json (Tenant_Protection tenant));
   ("relay_enabled", JBool (Relay_Enabled (Authrim_Relay (Tenant_Authrim tenant))));
   ("heartbeat_transport", JString (Heartbeat_Transport (Authrim_Heartbeat (Tenant_Authrim tenant))));
   ("heartbeat_interval_ms", JInt (Heartbeat_IntervalMS (Authrim_Heartbeat (Tenant_Authrim tenant))));
   ("heartbeat_timeout_ms", JInt (Heartbeat_TimeoutMS (Authrim_Heartbeat (Tenant_Authrim tenant))))].

Definition configFingerprint (tenant : TenantConfig) : string :=
  "sha256:" +:+ hex_encode (Sha256.sum256 (encode (fingerprint_json tenant))).

Definition config_categories : list string :=
  ["tenant"; "connector"; "ldap"; "profile"; "protection"; "relay"; "heartbeat"].

Definition buildHeartbeatPayload (tenant : TenantConfig) (instanceID : string) (startedAt : Z)
    : heartbeatPayload := {|
  Payload_InstanceID := instanceID;
  Payload_DisplayName := Heartbeat_DisplayName (Authrim_Heartbeat (Tenant_Authrim tenant));
  Payload_Transport := Heartbeat_Transport (Authrim_Heartbeat (Tenant_Authrim tenant));
  Payload_Version := wordwarden_version;
  Payload_ReleaseChannel := "stable";
  Payload_StartedAt := format_rfc3339 startedAt;
  Payload_HealthStatus := "healthy";
  Payload_HealthSummary := {["process" := JString "ok"]};
  Payload_ConfigFingerprint := configFingerprint tenant;
  Payload_ConfigCategories := config_categories;
  Payload_DriftSeverity := "none" |}.

(** ** Signing *)

Definition buildHeartbeatCanonical (tenantID connectorID instanceID keyID timestamp body : string) : string :=
  join newline [heartbeatAlgorithm; tenantID; connectorID; instanceID; keyID; timestamp;
                hex_encode (Sha256.sum256 body)].

Definition signHeartbeatCanonical (canonical secret : string) : string :=
  hex_encode (Sha256.hmac secret canonical).

(** ** The client *)

Record heartbeatClient := {
  Heartbeat_tenant : TenantConfig;
  Heartbeat_instanceID : string;
  Heartbeat_startedAt : Z;
  Heartbeat_keyID : string;
  Heartbeat_secret : string;
}.

(** A POST request with its timeout. *)
Record heartbeatRequest := {
  Post_Timeout : Z;
  Post_URL : string;
  Post_Headers : list (string * string);
  Post_Body : string;
}.

(** [WaitTimer d] ends early, with [true], when the context does; [Post] answers
    the status, or the error of the transport. *)
Inductive effect : Type → Type :=
| Now : effect Z
| Post (r : heartbeatRequest) : effect (result string Z)
| WaitTimer (d : Z) : effect bool
| StillRunning : effect Empty_set.

Abbreviation io := (prog effect).

Section client.
Variable c : heartbeatClient.

Abbreviation heartbeat := (Authrim_Heartbeat (Tenant_Authrim (Heartbeat_tenant c))).

Definition heartbeat_body : string :=
  encode (payload_json
    (buildHeartbeatPayload (Heartbeat_tenant c) (Heartbeat_instanceID c) (Heartbeat_startedAt c))).

Definition heartbeat_request (timestamp : string) : heartbeatRequest :=
  let timeout := dur_of_ms (Heartbeat_TimeoutMS heartbeat) in
  let canonical := buildHeartbeatCanonical (Tenant_TenantID (Heartbeat_tenant c))
    (Tenant_ConnectorID (Heartbeat_tenant c)) (Heartbeat_instanceID c) (Heartbeat_keyID c) timestamp
    heartbeat_body in
  {| Post_Timeout := if timeout <=? 0 then 5 * Second else timeout;
     Post_URL := Heartbeat_URL heartbeat;
     Post_Headers :=
       [("Content-Type", "application/json");
        ("X-Authrim-Heartbeat-Key-Id", Heartbeat_keyID c);
        ("X-Authrim-Heartbeat-Timestamp", timestamp);
        ("X-Authrim-Heartbeat-Signature",
         "sha256=" +:+ signHeartbeatCanonical canonical (Heartbeat_secret c))];
     Post_Body := heartbeat_body |}.

(** The text of an error of [NewRequestWithContext] is not modelled. *)
Definition heartbeat_send : io (result string unit) :=
  now <~ call Now;;
  let request := heartbeat_request (format_rfc3339 now) in
  match Parse (Post_URL request) with
  | None => Ret (Err "invalid URL")
  | Some _ =>
      answer <~ call (Post request);;
      match answer with
      | Err err => Ret (Err err)
      | Ok status =>
          if (status <? 200) || (300 <=? status)
          then Ret (Err ("heartbeat rejected with status " +:+ pretty status))
          else Ret (Ok tt)
      end
  end.

Definition heartbeat_interval : Z :=
  let interval := dur_of_ms (Heartbeat_IntervalMS heartbeat) in
  if interval <=? 0 then 5 * Minute else interval.

(** The loop of [run], for so many heartbeats, the timer set to [d]. *)
Fixpoint heartbeat_loop (turns : nat) (d : Z) : io unit :=
  match turns with
  | O => Vis StillRunning (λ x : Empty_set, match x with end)
  | S turns =>
      stopped <~ call (WaitTimer d);;
      if stopped : bool then Ret tt
      else
        _ <~ heartbeat_send;;
        heartbeat_loop turns heartbeat_interval
  end.

Definition heartbeat_run (turns : nat) : io unit := heartbeat_loop turns 0.
End client.
