(* ===== verification/HeartbeatProofs.v ===== *)
(** * Properties of heartbeats

    What the fingerprint tells of a configuration, what a signature binds, and
    when heartbeats are sent. *)

From S2P Require Import Prelude GoStrings GoCrypto GoTime Effects Config Url Json JsonWrite JsonUnique HmacProofs Heartbeat.
Local Open Scope Z_scope.

(** ** The fingerprint *)

(** Two lists with the same members, as often. *)
Definition same_values (l k : list string) : Prop := l ≡ₚ k.

(** The non-secret settings the fingerprint is about: ids, modes, switches,
    numbers, and the values of lists whatever their order; of the endpoints,
    their number and their schemes. *)
Definition same_settings (t t' : TenantConfig) : Prop :=
  let l := Tenant_LDAP t in
  let l' := Tenant_LDAP t' in
  let p := LDAP_DirectoryProfile l in
  let p' := LDAP_DirectoryProfile l' in
  let h := Authrim_Heartbeat (Tenant_Authrim t) in
  let h' := Authrim_Heartbeat (Tenant_Authrim t') in
  (Tenant_TenantID t, Tenant_ConnectorID t, Tenant_Timeouts t, Tenant_Protection t) =
  (Tenant_TenantID t', Tenant_ConnectorID t', Tenant_Timeouts t', Tenant_Protection t') ∧
  length (ldapURLs l) = length (ldapURLs l') ∧
  same_values (omap url_scheme (ldapURLs l)) (omap url_scheme (ldapURLs l')) ∧
  (LDAPTLS_Verify (LDAP_TLS l), LDAPTLS_StartTLS (LDAP_TLS l), LDAP_LookupMode l,
   Group_Enabled (LDAP_Groups l), Referral_Mode (LDAP_Referrals l)) =
  (LDAPTLS_Verify (LDAP_TLS l'), LDAPTLS_StartTLS (LDAP_TLS l'), LDAP_LookupMode l',
   Group_Enabled (LDAP_Groups l'), Referral_Mode (LDAP_Referrals l')) ∧
  (Profile_Name p, Profile_SubjectAttribute p, Profile_GroupStrategy p, Profile_StatusNormalization p,
   PagedSearch_Enabled (Profile_PagedSearch p), PagedSearch_PageSize (Profile_PagedSearch p)) =
  (Profile_Name p', Profile_SubjectAttribute p', Profile_GroupStrategy p', Profile_StatusNormalization p',
   PagedSearch_Enabled (Profile_PagedSearch p'), PagedSearch_PageSize (Profile_PagedSearch p')) ∧
  same_values (Profile_IdentifierAttributes p) (Profile_IdentifierAttributes p') ∧
  same_values (LDAP_Attributes l) (LDAP_Attributes l') ∧
  same_values (Username_AllowedFormats (LDAP_Username l)) (Username_AllowedFormats (LDAP_Username l')) ∧
  same_values (Username_AllowedDomains (LDAP_Username l)) (Username_AllowedDomains (LDAP_Username l')) ∧
  same_values (Username_AllowedUPNSuffixes (LDAP_Username l))
    (Username_AllowedUPNSuffixes (LDAP_Username l')) ∧
  (Relay_Enabled (Authrim_Relay (Tenant_Authrim t)), Heartbeat_Transport h, Heartbeat_IntervalMS h,
   Heartbeat_TimeoutMS h) =
  (Relay_Enabled (Authrim_Relay (Tenant_Authrim t')), Heartbeat_Transport h', Heartbeat_IntervalMS h',
   Heartbeat_TimeoutMS h').

(** Two different texts with one SHA-256. *)
Definition sha_collide (text1 text2 : string) : Prop :=
  text1 ≠ text2 ∧ Sha256.sum256 text1 = Sha256.sum256 text2.

Lemma sortedStrings_same l k : sortedStrings l = sortedStrings k ↔ same_values l k.
Proof.
  unfold same_values. split.
  - destruct l as [|x l], k as [|y k]; try done. intros [= Heq].
    rewrite <-(sort_strings_perm (x :: l)), Heq. apply sort_strings_perm.
  - intros Hp. destruct l as [|x l].
    { by apply Permutation_nil_l in Hp as <-. }
    destruct k as [|y k]; [by apply Permutation_nil_r in Hp|]. cbn [sortedStrings]. f_equal.
    by apply sort_strings_eq.
Qed.

Lemma slice_same l k :
  json_slice (sortedStrings l) = json_slice (sortedStrings k) ↔ same_values l k.
Proof. rewrite <-sortedStrings_same. split; [apply json_slice_inj|by intros ->]. Qed.

Lemma schemes_same l k :
  json_strings (sort_strings l) = json_strings (sort_strings k) ↔ same_values l k.
Proof.
  split.
  - intros Heq%json_strings_inj. unfold same_values.
    rewrite <-(sort_strings_perm l), Heq. apply sort_strings_perm.
  - intros Hp. by rewrite (sort_strings_eq _ _ Hp).
Qed.

(** The members of the profile, in the order of their names. *)
Lemma profile_order p : profile_json p = JObject
  [("group_strategy", JString (Profile_GroupStrategy p));
   ("identifier_attributes", json_slice (sortedStrings (Profile_IdentifierAttributes p)));
   ("name", JString (Profile_Name p));
   ("paged_search_enabled", JBool (PagedSearch_Enabled (Profile_PagedSearch p)));
   ("paged_search_page_size", JInt (PagedSearch_PageSize (Profile_PagedSearch p)));
   ("status_normalization", JString (Profile_StatusNormalization p));
   ("subject_attribute", JString (Profile_SubjectAttribute p))].
Proof.
  unfold profile_json. generalize (json_slice (sortedStrings (Profile_IdentifierAttributes p))) as ids.
  generalize (JString (Profile_Name p)), (JString (Profile_SubjectAttribute p)),
    (JString (Profile_GroupStrategy p)), (JString (Profile_StatusNormalization p)),
    (JBool (PagedSearch_Enabled (Profile_PagedSearch p))),
    (JInt (PagedSearch_PageSize (Profile_PagedSearch p))).
  intros a b c d e f ids. vm_compute. reflexivity.
Qed.

Lemma same_timeouts t t' : timeouts_json t = timeouts_json t' ↔ t = t'.
Proof. split; [|by intros ->]. destruct t, t'. unfold timeouts_json. simpl. by intros [= -> -> -> ->]. Qed.

Lemma same_protection p p' : protection_json p = protection_json p' ↔ p = p'.
Proof. split; [|by intros ->]. destruct p, p'. unfold protection_json. simpl. by intros [= -> -> -> -> -> ->]. Qed.

Lemma fingerprint_json_same t t' : fingerprint_json t = fingerprint_json t' ↔ same_settings t t'.
Proof.
  unfold fingerprint_json, same_settings. rewrite !profile_order. split.
  - intros Heq. injection Heq. intros. clear Heq.
    repeat match goal with
    | H : json_slice _ = _ |- _ => apply slice_same in H
    | H : JString <$> _ = _ |- _ => apply (f_equal JArray), schemes_same in H
    | H : Z.of_nat _ = Z.of_nat _ |- _ => apply Nat2Z.inj in H
    end.
    split_and!; try assumption; repeat (apply pair_equal_spec; split); try assumption.
    + apply same_timeouts. unfold timeouts_json.
      repeat match goal with H : _ = _ |- _ => rewrite H; clear H end. done.
    + apply same_protection. unfold protection_json.
      repeat match goal with H : _ = _ |- _ => rewrite H; clear H end. done.
  - intros (H1 & H2 & H3 & H4 & H5 & H6 & H7 & H8 & H9 & H10 & H11).
    apply schemes_same in H3. apply slice_same in H6, H7, H8, H9, H10.
    injection H1 as E1 E2 E3 E4. injection H4 as E5 E6 E7 E8 E9.
    injection H5 as E10 E11 E12 E13 E14 E15. injection H11 as E16 E17 E18 E19.
    rewrite H2, H3, H6, H7, H8, H9, H10, E1, E2, E3, E4, E5, E6, E7, E8, E9, E10, E11, E12, E13, E14, E15,
      E16, E17, E18, E19. reflexivity.
Qed.

(** The texts of the settings are valid UTF-8. *)
Definition valid_settings (t : TenantConfig) : bool := valid_json (fingerprint_json t).

(** C31: the fingerprint is a function of the non-secret settings, and tells
    them apart: tenants whose settings agree, up to the order of lists, have one
    fingerprint, whatever their secret references, URLs, DNs, templates and
    filters; tenants with one fingerprint and valid UTF-8 texts have the same
    settings, or two different texts with one SHA-256. *)
Theorem fingerprint_of_settings (t t' : TenantConfig) :
  (same_settings t t' → configFingerprint t = configFingerprint t') ∧
  (valid_settings t = true → valid_settings t' = true → configFingerprint t = configFingerprint t' →
   same_settings t t' ∨
   sha_collide (encode (fingerprint_json t)) (encode (fingerprint_json t'))).
Proof.
  split.
  - intros Hsame%fingerprint_json_same. unfold configFingerprint. by rewrite Hsame.
  - intros Hv Hv' Heq. unfold configFingerprint in Heq. apply literal_unique, hex_encode_inj in Heq.
    destruct (decide (encode (fingerprint_json t) = encode (fingerprint_json t'))) as [He|Hne]; [|by right].
    left. apply fingerprint_json_same. by apply encode_inj.
Qed.

(** ** Signatures *)

(** What a heartbeat is signed over. *)
Record heartbeatFields := {
  Field_TenantID : string;
  Field_ConnectorID : string;
  Field_InstanceID : string;
  Field_KeyID : string;
  Field_Timestamp : string;
  Field_Body : string;
}.

Definition canonical_of (f : heartbeatFields) : string :=
  buildHeartbeatCanonical (Field_TenantID f) (Field_ConnectorID f) (Field_InstanceID f) (Field_KeyID f)
    (Field_Timestamp f) (Field_Body f).

Definition field_lines (f : heartbeatFields) : Prop :=
  Forall (λ s, lacks LF s = true)
    [Field_TenantID f; Field_ConnectorID f; Field_InstanceID f; Field_KeyID f; Field_Timestamp f].

(** C33: the signature of a heartbeat binds the tenant, the connector, the
    instance, the key, the time and the body: for two heartbeats whose ids hold
    no line feed, equal signatures under one secret mean equal fields and equal
    bodies, or a collision of the HMAC or of SHA-256. *)
Theorem heartbeat_signature_binds (f1 f2 : heartbeatFields) (secret : string)
    (Hlines1 : field_lines f1) (Hlines2 : field_lines f2)
    (Hsig : signHeartbeatCanonical (canonical_of f1) secret =
            signHeartbeatCanonical (canonical_of f2) secret) :
  hmac_collide secret (canonical_of f1) (canonical_of f2) ∨
  sha_collide (Field_Body f1) (Field_Body f2) ∨ f1 = f2.
Proof.
  apply hex_encode_inj in Hsig.
  destruct (decide (canonical_of f1 = canonical_of f2)) as [Heq|Hne]; [right|by left].
  assert (Hl : ∀ f, field_lines f → Forall (λ s, lacks LF s = true)
    [heartbeatAlgorithm; Field_TenantID f; Field_ConnectorID f; Field_InstanceID f; Field_KeyID f;
     Field_Timestamp f; hex_encode (Sha256.sum256 (Field_Body f))]).
  { intros f Hf. apply Forall_cons. split; [done|]. apply (Forall_app_2 _ [_; _; _; _; _] [_]); [done|].
    repeat constructor. apply hex_encode_lacks_lf. }
  apply join_inj in Heq; [|done|done|by apply Hl..].
  injection Heq as H1 H2 H3 H4 H5 H6. apply hex_encode_inj in H6.
  destruct (decide (Field_Body f1 = Field_Body f2)) as [Hb|Hne]; [right|by left].
  destruct f1, f2. simpl in *. by subst.
Qed.

(** ** Schedule *)

(** What the scheduler knows: how the next wait must be, and the time read since
    the last wait. *)
Record schedule := { Next_wait : Z; Read_at : option Z; Stopped : bool }.

Section schedule.
Variable c : heartbeatClient.

Definition schedule_spec (R : Type) (e : effect R) (Q : R → schedule → Prop) (s : schedule) : Prop :=
  match e in effect R return (R → schedule → Prop) → Prop with
  | WaitTimer d => λ Q,
      Stopped s = false ∧ d = Next_wait s ∧
      ∀ b, Q b {| Next_wait := heartbeat_interval c; Read_at := None; Stopped := b |}
  | Now => λ Q,
      Stopped s = false ∧ Read_at s = None ∧
      ∀ now, Q now {| Next_wait := Next_wait s; Read_at := Some now; Stopped := false |}
  | Post r => λ Q,
      (∃ now, Read_at s = Some now ∧ r = heartbeat_request c (format_rfc3339 now)) ∧
      ∀ answer, Q answer s
  | StillRunning => λ _, True
  end Q.

Lemma schedule_spec_mono R (e : effect R) (P Q : R → schedule → Prop) s :
  (∀ r s', P r s' → Q r s') → schedule_spec R e P s → schedule_spec R e Q s.
Proof. intros HPQ. destruct e; simpl; naive_solver. Qed.

Lemma heartbeat_loop_schedule turns d t :
  wp schedule_spec (heartbeat_loop c turns d) (λ _ s, Stopped s = true)
    {| Next_wait := d; Read_at := t; Stopped := false |}.
Proof.
  revert d t. induction turns as [|turns IH]; intros d t; [done|]. cbn.
  split_and!; [done|done|]. intros [|]; [done|]. cbn. split_and!; [done|done|]. intros now.
  case_match; [|apply IH]. cbn. split; [by eexists|]. intros [status|err]; [|apply IH].
  case_match; apply IH.
Qed.
End schedule.

(** Heartbeats keep to their schedule: the first is sent without waiting,
    each further one after a whole interval, failed or not; each is the signed
    request for the time read just before it; and the client stops only with its
    context. *)
Theorem heartbeat_schedule (c : heartbeatClient) (turns : nat) :
  wp (schedule_spec c) (heartbeat_run c turns) (λ _ s, Stopped s = true)
    {| Next_wait := 0; Read_at := None; Stopped := false |}.
Proof. apply heartbeat_loop_schedule. Qed.
