(* ===== verification/Instance.v ===== *)
(** * The identity of an installation (internal/app/instance.go)

    The instance id is kept in a file of the state directory: read back when it
    is there, generated and written when it is not. *)

From S2P Require Import Prelude GoStrings Effects.

Definition instanceIDFileName : string := "instance_id".

(** [path/filepath] on a Unix system: [Clean] and [Join]. *)
Definition clean_step (rooted : bool) (out : list string) (elem : string) : list string :=
  if (elem =? "")%string || (elem =? ".")%string then out
  else if (elem =? "..")%string then
    match out with
    | [] => if rooted then [] else [".."]
    | last :: rest => if (last =? "..")%string then ".." :: out else rest
    end
  else elem :: out.

Definition path_clean (path : string) : string :=
  let rooted := has_prefix path "/" in
  let out := join "/" (rev (foldl (clean_step rooted) [] (split_byte "/"%char path))) in
  if rooted then "/" +:+ out else if (out =? "")%string then "." else out.

Definition path_join (dir name : string) : string := path_clean (dir +:+ "/" +:+ name).

Example path_join_examples :
  (λ d, path_join d "f") <$> ["/var/lib/ww/"; "state"; "./a//b/../c"; "../x"; "/../.."; "."] =
  ["/var/lib/ww/f"; "state/f"; "a/c/f"; "../x/f"; "/f"; "f"].
Proof. vm_compute. reflexivity. Qed.

(** [instanceIDPattern]: "wwi_" and 22 to 64 of the base64url alphabet. *)
Definition id_byte (c : ascii) : bool := is_alnum c || Ascii.eqb c "_" || Ascii.eqb c "-".

Definition instanceIDPattern (s : string) : bool :=
  has_prefix s "wwi_" &&
  let digits := drop_bytes 4 s in
  string_all id_byte digits && (22 <=? String.length digits)%nat && (String.length digits <=? 64)%nat.

Inductive read_error := NotExist | ReadFailure (text : string).

(** [RandomBytes] fills an array of 16 bytes. *)
Inductive effect : Type → Type :=
| MkdirAll (path : string) : effect (option string)
| ReadFile (path : string) : effect (result read_error string)
| WriteFile (path data : string) : effect (option string)
| RandomBytes : effect (result string (Vector.t ascii 16)).

Abbreviation io := (prog effect).

Definition generateInstanceID : io (result string string) :=
  random <~ call RandomBytes;;
  match random with
  | Err err => Ret (Err ("generate instance_id: " +:+ err))
  | Ok bytes =>
      Ret (Ok ("wwi_" +:+ base64_raw_url (String.string_of_list_ascii (Vector.to_list bytes))))
  end.

Definition loadOrCreateInstanceID (stateDir : string) : io (result string string) :=
  if (trim_space stateDir =? "")%string then Ret (Err "state directory is required")
  else
    made <~ call (MkdirAll stateDir);;
    match made with
    | Some err => Ret (Err ("create state directory: " +:+ err))
    | None =>
        let path := path_join stateDir instanceIDFileName in
        raw <~ call (ReadFile path);;
        match raw with
        | Ok raw =>
            let value := trim_space raw in
            if negb (instanceIDPattern value) then Ret (Err "stored instance_id is invalid")
            else Ret (Ok value)
        | Err (ReadFailure err) => Ret (Err ("read instance_id: " +:+ err))
        | Err NotExist =>
            value <?~ generateInstanceID;;
            written <~ call (WriteFile path (value +:+ newline));;
            match written with
            | Some err => Ret (Err ("write instance_id: " +:+ err))
            | None => Ret (Ok value)
            end
        end
    end.

(** ** Generated ids *)

Lemma base64_digit_id n : id_byte (base64_digit (n mod 64)) = true.
Proof.
  pose proof (N.mod_lt n 64 ltac:(done)) as Hn. generalize dependent (n mod 64)%N. clear n. intros n Hn.
  assert (Hall : forallb (λ i, id_byte (base64_digit (N.of_nat i))) (seq 0 64) = true) by (vm_compute; done).
  rewrite forallb_forall in Hall. specialize (Hall (N.to_nat n)).
  rewrite N2Nat.id in Hall. apply Hall, in_seq. lia.
Qed.

Lemma base64_digit_below n : (n < 64)%N → id_byte (base64_digit n) = true.
Proof. intros Hn. rewrite <-(N.mod_small n 64) by done. apply base64_digit_id. Qed.

Lemma base64_bytes l : string_all id_byte (base64_raw_url (String.string_of_list_ascii l)) = true.
Proof.
  assert (Hs : ∀ n s, String.length s ≤ n → string_all id_byte (base64_raw_url s) = true).
  { intros n. induction n as [|n IH]; intros s Hs; [by destruct s; [|simpl in Hs; lia]|].
    destruct s as [|a [|b [|c s]]]; cbn [base64_raw_url string_all];
      try pose proof (byte_code_bound a); try pose proof (byte_code_bound b); try pose proof (byte_code_bound c);
      try done.
    all: rewrite !base64_digit_below; try done.
    all: try (apply N.Div0.div_lt_upper_bound; lia).
    - pose proof (N.mod_lt (byte_code a) 4). lia.
    - pose proof (N.mod_lt (byte_code b) 16). lia.
    - pose proof (N.mod_lt (byte_code a) 4). pose proof (N.Div0.div_lt_upper_bound (byte_code b) 16 16). lia.
    - apply IH. simpl in Hs. lia.
    - by apply N.mod_lt.
    - pose proof (N.mod_lt (byte_code b) 16). pose proof (N.Div0.div_lt_upper_bound (byte_code c) 64 4). lia.
    - pose proof (N.mod_lt (byte_code a) 4). pose proof (N.Div0.div_lt_upper_bound (byte_code b) 16 16). lia. }
  by apply (Hs _ _ (le_n _)).
Qed.

Definition generated (bytes : Vector.t ascii 16) : string :=
  "wwi_" +:+ base64_raw_url (String.string_of_list_ascii (Vector.to_list bytes)).

Lemma generated_valid bytes : instanceIDPattern (generated bytes) = true.
Proof.
  unfold instanceIDPattern, generated.
  assert (Hd : ∀ s, drop_bytes 4 ("wwi_" +:+ s) = s) by done.
  assert (Hp : ∀ s, has_prefix ("wwi_" +:+ s) "wwi_" = true) by (intros s; by destruct s).
  cbv zeta. rewrite Hd, Hp, base64_bytes. cbn [andb].
  pose proof (Vector.length_to_list _ _ bytes) as Hlen. revert Hlen.
  generalize (Vector.to_list bytes) as l. clear bytes. intros l Hlen.
  do 16 (destruct l as [|? l]; [discriminate Hlen|]). by destruct l.
Qed.

Lemma id_byte_space c : id_byte c = true → is_ascii_byte c = true ∧ space1 c = false.
Proof. destruct c as [[] [] [] [] [] [] [] []]; vm_compute; intros; done. Qed.

(** A text of such bytes, kept on a line of its own, is read back as it is. *)
Lemma trim_right_line s : string_all id_byte s = true → trim_right (s +:+ newline) = s.
Proof.
  induction s as [|c s IH]; [done|]. intros Hs. cbn [string_all] in Hs. apply andb_prop in Hs as [Hc Hs].
  destruct (id_byte_space c Hc) as [Ha Hsp]. rewrite append_cons. cbn [trim_right]. rewrite IH by done.
  unfold all_space. cbn [String.length all_space_fuel]. by rewrite space_prefix_ascii.
Qed.

Lemma trim_line c s : string_all id_byte (String c s) = true → trim_space (String c s +:+ newline) = String c s.
Proof.
  intros Hs. unfold trim_space. rewrite <-(trim_right_line (String c s)) at 2 by done. f_equal.
  cbn [string_all] in Hs. apply andb_prop in Hs as [Hc _]. destruct (id_byte_space c Hc) as [Ha Hsp].
  rewrite append_cons. unfold trim_left. cbn [String.length trim_left_fuel].
  by rewrite space_prefix_ascii.
Qed.

Lemma pattern_line id : instanceIDPattern id = true → trim_space (id +:+ newline) = id.
Proof.
  unfold instanceIDPattern. intros Hid. apply andb_prop in Hid as [Hp Hid].
  apply andb_prop in Hid as [Hid _]. apply andb_prop in Hid as [Hid _].
  unfold has_prefix in Hp.
  destruct id as [|a [|b [|c [|d rest]]]]; cbn [String.prefix] in Hp; repeat case_match; try done.
  subst. apply trim_line. exact Hid.
Qed.

(** ** Stability *)

(** The disk: the files that exist, and the directories that can be made. *)
Section disk.
Variable random : Vector.t ascii 16.

Definition disk_step (R : Type) (e : effect R) (files : gmap string string) : R * gmap string string :=
  match e in effect R return R * gmap string string with
  | MkdirAll _ => (None, files)
  | ReadFile path => (match files !! path with Some data => Ok data | None => Err NotExist end, files)
  | WriteFile path data => (None, <[path := data]> files)
  | RandomBytes => (Ok random, files)
  end.
End disk.

(** C30: an installation keeps its identity.  On a disk that works, loading the
    instance id of a usable state directory with no id yet, or with a valid one,
    returns an id of the documented form, and afterwards every further load
    returns the same id, whatever the random source gives, and changes no file;
    a stored id that is not of that form is never returned nor overwritten. *)
Theorem instance_id_stable (stateDir : string) (files : gmap string string)
    (random random' : Vector.t ascii 16) (Hdir : trim_space stateDir ≠ "") :
  let path := path_join stateDir instanceIDFileName in
  let first := run (disk_step random) (loadOrCreateInstanceID stateDir) files in
  let second := run (disk_step random') (loadOrCreateInstanceID stateDir) first.2 in
  match files !! path with
  | Some raw =>
      first = (if instanceIDPattern (trim_space raw) then Ok (trim_space raw)
               else Err "stored instance_id is invalid", files) ∧ second = first
  | None =>
      ∃ id, instanceIDPattern id = true ∧ first = (Ok id, <[path := id +:+ newline]> files) ∧
            second = first
  end.
Proof.
  apply String.eqb_neq in Hdir. cbv zeta. unfold loadOrCreateInstanceID. rewrite Hdir.
  destruct (files !! path_join stateDir instanceIDFileName) as [raw|] eqn:Hfile.
  - assert (Hrun : ∀ r, run (disk_step r) (loadOrCreateInstanceID stateDir) files =
      (if instanceIDPattern (trim_space raw) then Ok (trim_space raw)
       else Err "stored instance_id is invalid", files)).
    { intros r. unfold loadOrCreateInstanceID. rewrite Hdir. simpl. rewrite Hfile.
      by destruct (instanceIDPattern (trim_space raw)). }
    unfold loadOrCreateInstanceID in Hrun. rewrite Hdir in Hrun. rewrite Hrun. split; [done|]. apply Hrun.
  - exists (generated random). split; [apply generated_valid|].
    simpl. rewrite Hfile. simpl. split; [done|]. rewrite lookup_insert_eq.
    pose proof (generated_valid random) as Hv. pose proof (pattern_line _ Hv) as Hline.
    unfold generated in *. rewrite Hline. by rewrite Hv.
Qed.
