(* ===== verification/Update.v ===== *)
(** * The update check (internal/app/command.go)

    The release advisory feed: reading it, trusting it, comparing versions and
    judging which advisories affect this one.  What [json.Unmarshal] makes of
    the bytes read is the answer of the effect that reads them; the signature
    scheme is a parameter. *)

From S2P Require Import Prelude GoStrings Effects Url Json JsonWrite Heartbeat.
Local Open Scope Z_scope.

(** ** The feed *)

(** A slice may be nil. *)
Record releaseAdvisory := {
  Advisory_AdvisoryID : string;
  Advisory_AffectedVersions : option (list string);
  Advisory_FixedVersion : string;
  Advisory_Severity : string;
  Advisory_Summary : string;
  Advisory_PublishedAt : string;
  Advisory_UpdatedAt : string;
  Advisory_ReleaseURL : string;
}.

Record advisoryFeedSignature := {
  FeedSignature_Algorithm : string;
  FeedSignature_KeyID : string;
  FeedSignature_Signature : string;
}.

Record advisoryFeed := {
  Feed_Channel : string;
  Feed_LatestVersion : string;
  Feed_ReleaseURL : string;
  Feed_Advisories : option (list releaseAdvisory);
  Feed_Signature : option advisoryFeedSignature;
}.

Record updateCheckResult := {
  Update_CurrentVersion : string;
  Update_LatestVersion : string;
  Update_ReleaseURL : string;
  Update_UpdateAvailable : bool;
  Update_AffectedAdvisories : list releaseAdvisory;
}.

Definition advisory_json (a : releaseAdvisory) : json := JObject
  [("advisory_id", JString (Advisory_AdvisoryID a));
   ("affected_versions", json_slice (Advisory_AffectedVersions a));
   ("fixed_version", JString (Advisory_FixedVersion a));
   ("severity", JString (Advisory_Severity a));
   ("summary", JString (Advisory_Summary a));
   ("published_at", JString (Advisory_PublishedAt a));
   ("updated_at", JString (Advisory_UpdatedAt a));
   ("release_url", JString (Advisory_ReleaseURL a))].

(** A feed without its signature. *)
Definition unsigned_json (feed : advisoryFeed) : json := JObject
  [("channel", JString (Feed_Channel feed));
   ("latest_version", JString (Feed_LatestVersion feed));
   ("release_url", JString (Feed_ReleaseURL feed));
   ("advisories", match Feed_Advisories feed with
                  | Some l => JArray (advisory_json <$> l)
                  | None => JNull
                  end)].

(** ** Base64 ([base64.Encoding.DecodeString]) *)

(** The value of a digit: [url] for the alphabet with "-" and "_". *)
Definition base64_value (url : bool) (c : ascii) : option N :=
  if is_upper c then Some (byte_code c - 65)%N
  else if is_lower c then Some (byte_code c - 71)%N
  else if is_digit c then Some (byte_code c + 4)%N
  else if Ascii.eqb c (if url then "-" else "+")%char then Some 62%N
  else if Ascii.eqb c (if url then "_" else "/")%char then Some 63%N
  else None.

(** The last quantum, of fewer than four digits. *)
Definition base64_tail (url padded : bool) (s : string) : option string :=
  let byte_of n := String (ascii_of_N n) EmptyString in
  match s with
  | EmptyString => Some EmptyString
  | String a (String b rest) =>
      x ← base64_value url a; y ← base64_value url b;
      let first := byte_of (x * 4 + y / 16)%N in
      if (rest =? (if padded then "==" else ""))%string then Some first
      else
        match rest with
        | String c rest =>
            z ← base64_value url c;
            if (rest =? (if padded then "=" else ""))%string
            then Some (first +:+ byte_of ((y mod 16) * 16 + z / 4)%N) else None
        | EmptyString => None
        end
  | _ => None
  end.

Fixpoint base64_digits (url padded : bool) (s : string) : option string :=
  match s with
  | String a (String b (String c (String d rest))) =>
      match base64_value url a, base64_value url b, base64_value url c, base64_value url d with
      | Some x, Some y, Some z, Some w =>
          tail ← base64_digits url padded rest;
          Some (String (ascii_of_N (x * 4 + y / 16)) (String (ascii_of_N ((y mod 16) * 16 + z / 4))
            (String (ascii_of_N ((z mod 4) * 64 + w)) tail)))
      | _, _, _, _ => base64_tail url padded s
      end
  | _ => base64_tail url padded s
  end.

(** Line breaks are skipped wherever they are. *)
Definition base64_decode (url padded : bool) (s : string) : option string :=
  base64_digits url padded (String.string_of_list_ascii
    (filter (λ c, negb (Ascii.eqb c LF || Ascii.eqb c CR) = true) (String.list_ascii_of_string s))).

Example base64_decode_examples :
  base64_decode true false "AP-_" = Some (String NUL (String "255" (String "191" EmptyString))) ∧
  base64_decode false true "aGVsbG8=" = Some "hello" ∧ base64_decode false false "aGVsbG8=" = None ∧
  base64_decode true true "aGVsbA==" = Some "hell" ∧ base64_decode true false "aGVsbA" = Some "hell" ∧
  base64_decode true false "a" = None.
Proof. vm_compute. done. Qed.

(** The four encodings in their order; the text of the last error is not modelled. *)
Definition decodeBase64Value (value : string) : option string :=
  let value := trim_space value in
  match base64_decode true false value with
  | Some decoded => Some decoded
  | None =>
      match base64_decode true true value with
      | Some decoded => Some decoded
      | None =>
          match base64_decode false false value with
          | Some decoded => Some decoded
          | None => base64_decode false true value
          end
      end
  end.

(** ** Versions *)

Definition normalizeVersion (value : string) : string := trim_prefix (trim_space value) "v".

(** [fmt.Sscanf(part, "%d", &parsed)]: white space but line feeds, a sign,
    digits; [None] when it fails, which leaves [parsed] at zero. *)
Fixpoint scan_space (fuel : nat) (s : string) : option string :=
  match fuel, s with
  | S fuel, String c s' =>
      if Ascii.eqb c LF then None
      else if Ascii.eqb c CR && has_prefix s' newline then scan_space fuel s'
      else match space_prefix s with O => Some s | n => scan_space fuel (drop_bytes n s) end
  | _, _ => Some s
  end.

Fixpoint scan_digits (acc : Z) (s : string) : Z :=
  match s with
  | String c s =>
      if is_digit c then scan_digits (acc * 10 + (Z.of_N (byte_code c) - 48)) s else acc
  | EmptyString => acc
  end.

Definition scan_int (s : string) : option Z :=
  s ← scan_space (String.length s) s;
  let '(negative, s) :=
    match s with
    | String c rest =>
        if Ascii.eqb c "-" then (true, rest) else if Ascii.eqb c "+" then (false, rest) else (false, s)
    | EmptyString => (false, s)
    end in
  match s with
  | String c _ =>
      if is_digit c then
        let n := if negative : bool then - scan_digits 0 s else scan_digits 0 s in
        if (int64_min <=? n) && (n <=? int64_max) then Some n else None
      else None
  | EmptyString => None
  end.

(** What is before the first "-", at the dots. *)
Definition versionParts (value : string) : list Z :=
  let core := match cut_byte "-"%char value with Some (core, _) => core | None => value end in
  (λ part, default 0 (scan_int part)) <$> split_byte "."%char core.

(** The loop of [compareVersions], over what is left of the parts. *)
Fixpoint compare_right (r : list Z) : Z :=
  match r with
  | [] => 0
  | y :: r => if 0 <? y then -1 else if y <? 0 then 1 else compare_right r
  end.

Fixpoint compare_parts (l r : list Z) : Z :=
  match l, r with
  | [], r => compare_right r
  | x :: l, [] => if x <? 0 then -1 else if 0 <? x then 1 else compare_parts l []
  | x :: l, y :: r => if x <? y then -1 else if y <? x then 1 else compare_parts l r
  end.

Definition compareVersions (left right : string) : Z :=
  compare_parts (versionParts left) (versionParts right).

Definition has_suffix (s suffix : string) : bool :=
  (String.length suffix <=? String.length s)%nat &&
  (drop_bytes (String.length s - String.length suffix) s =? suffix)%string.

Definition trim_suffix (s suffix : string) : string :=
  if has_suffix s suffix then String.substring 0 (String.length s - String.length suffix) s else s.

(** The test of an operator on the outcome of a comparison. *)
Definition operators : list (string * (Z → bool)) :=
  [("<=", λ compared, compared <=? 0); (">=", λ compared, 0 <=? compared);
   ("<", λ compared, compared <? 0); (">", λ compared, 0 <? compared)].

Definition advisoryVersionMatches (candidate normalizedCurrent : string) : bool :=
  let normalizedCandidate := normalizeVersion candidate in
  if (normalizedCandidate =? "")%string then false
  else if (normalizedCandidate =? "*")%string || (normalizedCandidate =? normalizedCurrent)%string then true
  else
    match List.find (λ op, has_prefix normalizedCandidate op.1) operators with
    | Some (operator, test) =>
        test (compareVersions normalizedCurrent
                (normalizeVersion (trim_prefix normalizedCandidate operator)))
    | None =>
        if has_suffix normalizedCandidate ".*"
        then has_prefix normalizedCurrent (trim_suffix normalizedCandidate "*")
        else false
    end.

Definition advisoryAffectsVersion (advisory : releaseAdvisory) (current : string) : bool :=
  existsb (λ affected, advisoryVersionMatches affected (normalizeVersion current))
    (default [] (Advisory_AffectedVersions advisory)).

Definition evaluateUpdateFeed (feed : advisoryFeed) (current : string) : updateCheckResult := {|
  Update_CurrentVersion := current;
  Update_LatestVersion := Feed_LatestVersion feed;
  Update_ReleaseURL := Feed_ReleaseURL feed;
  Update_UpdateAvailable :=
    negb (normalizeVersion (Feed_LatestVersion feed) =? "")%string &&
    negb (normalizeVersion (Feed_LatestVersion feed) =? normalizeVersion current)%string;
  Update_AffectedAdvisories :=
    List.filter (λ advisory, advisoryAffectsVersion advisory current)
      (default [] (Feed_Advisories feed)) |}.

(** ** Trust *)

Definition isLocalAdvisoryFeedURL (rawURL : string) : bool :=
  match Parse rawURL with
  | Some parsed => (Scheme parsed =? "")%string || (Scheme parsed =? "file")%string
  | None => false
  end.

Section trust.
Context `{UnicodeTables}.
(** [ed25519.Verify] of a key of 32 bytes *)
Variable ed25519_Verify : string → string → string → bool.

Definition verifyAdvisoryFeedTrust (feed : advisoryFeed) (trustedKey : string) (allowUnsigned : bool)
    : result string unit :=
  if allowUnsigned then Ok tt
  else if (trim_space trustedKey =? "")%string
  then Err "--trusted-feed-key is required unless --allow-unsigned-feed is set"
  else
    match Feed_Signature feed with
    | None => Err "advisory feed signature is required"
    | Some sig =>
        if negb (equal_fold (FeedSignature_Algorithm sig) "ed25519")
        then Err ("unsupported advisory feed signature algorithm " +:+
                  go_quote (FeedSignature_Algorithm sig))
        else
          match decodeBase64Value trustedKey with
          | None => Err "trusted feed key: illegal base64 data"
          | Some publicKey =>
              if negb (String.length publicKey =? 32)%nat
              then Err "trusted feed key must be 32 bytes"
              else
                match decodeBase64Value (FeedSignature_Signature sig) with
                | None => Err "advisory feed signature: illegal base64 data"
                | Some signature =>
                    if negb (ed25519_Verify publicKey (encode (unsigned_json feed)) signature)
                    then Err "advisory feed signature verification failed"
                    else Ok tt
                end
          end
    end.

(** ** The command *)

(** The bytes read, as [json.Unmarshal] takes them. *)
Abbreviation document := (result string advisoryFeed).

(** [GetFeed] answers the status and the body, which is what was read of it: an
    error while reading is assigned to a variable that is not tested again. *)
Inductive effect : Type → Type :=
| ReadLocal (path : string) : effect (result string document)
| GetFeed (url : string) (timeout : Z) : effect (result string (Z * document)).

Abbreviation io := (prog effect).

Definition readAdvisoryFeed (rawURL : string) (timeout : Z) : io (result string advisoryFeed) :=
  let local path := data <?~ call (ReadLocal path);; Ret data in
  match Parse rawURL with
  | None => local rawURL
  | Some parsed =>
      if (Scheme parsed =? "file")%string then local (Path parsed)
      else if (Scheme parsed =? "https")%string then
        answer <?~ call (GetFeed rawURL timeout);;
        let '(status, data) := answer in
        if (status <? 200) || (300 <=? status)
        then Ret (Err ("release advisory feed returned HTTP " +:+ pretty status))
        else Ret data
      else if (Scheme parsed =? "http")%string
      then Ret (Err "remote advisory feed URL must use https://")
      else if negb (Scheme parsed =? "")%string
      then Ret (Err ("unsupported advisory feed URL scheme " +:+ go_quote (Scheme parsed)))
      else local rawURL
  end.

(** The flags of [update check]. *)
Record updateFlags := {
  Flag_FeedURL : string;
  Flag_CurrentVersion : string;
  Flag_Channel : string;
  Flag_Timeout : Z;
  Flag_TrustedFeedKey : string;
  Flag_AllowUnsignedFeed : bool;
}.

Definition update_check (flags : updateFlags) : io (result string updateCheckResult) :=
  if (Flag_FeedURL flags =? "")%string then Ret (Err "--feed-url is required")
  else if Flag_AllowUnsignedFeed flags && negb (isLocalAdvisoryFeedURL (Flag_FeedURL flags))
  then Ret (Err "--allow-unsigned-feed is only supported for local file feeds")
  else
    feed <?~ readAdvisoryFeed (Flag_FeedURL flags) (Flag_Timeout flags);;
    match verifyAdvisoryFeedTrust feed (Flag_TrustedFeedKey flags) (Flag_AllowUnsignedFeed flags) with
    | Err err => Ret (Err err)
    | Ok _ =>
        if negb (Flag_Channel flags =? "")%string && negb (Feed_Channel feed =? "")%string &&
           negb (Flag_Channel flags =? Feed_Channel feed)%string
        then Ret (Err ("feed channel " +:+ go_quote (Feed_Channel feed) +:+
                       " does not match requested channel " +:+ go_quote (Flag_Channel flags)))
        else
          let current := if (Flag_CurrentVersion flags =? "")%string then wordwarden_version
                         else Flag_CurrentVersion flags in
          Ret (Ok (evaluateUpdateFeed feed current))
    end.
End trust.
