(* ===== verification/UpdateProofs.v ===== *)
(** * Properties of the update check

    Versions are totally preordered, an advisory is reported exactly when it
    names the version, and nothing is reported from a feed that is not trusted. *)

From S2P Require Import Prelude GoStrings Effects Url Json JsonWrite JsonUnique Heartbeat Update.
Local Open Scope Z_scope.

(** ** Versions *)

(** The number at a place of a version, zero past its end. *)
Definition part_at (l : list Z) (i : nat) : Z := nth i l 0.

(** The versions agree at every place. *)
Definition same_parts (l r : list Z) : Prop := ∀ i, part_at l i = part_at r i.

(** The first place where they differ is lower in [l]. *)
Definition lower_parts (l r : list Z) : Prop :=
  ∃ i, (∀ j, (j < i)%nat → part_at l j = part_at r j) ∧ part_at l i < part_at r i.

Lemma part_at_nil i : part_at [] i = 0.
Proof. by destruct i. Qed.

Lemma same_parts_cons x y l r : x = y → same_parts l r → same_parts (x :: l) (y :: r).
Proof. intros -> H [|i]; [done|]. apply H. Qed.

Lemma lower_parts_head x y l r : x < y → lower_parts (x :: l) (y :: r).
Proof. intros H. exists 0%nat. split; [lia|done]. Qed.

Lemma lower_parts_cons x y l r : x = y → lower_parts l r → lower_parts (x :: l) (y :: r).
Proof. intros -> (i & Hi & Hlt). exists (S i). split; [|done]. intros [|j] Hj; [done|]. apply Hi. lia. Qed.

Lemma pad_part i : part_at [0] i = part_at [] i.
Proof. by destruct i as [|[|i]]. Qed.

(** The comparison tells which of the three holds. *)
Inductive compared (l r : list Z) : Z → Prop :=
| compared_same : same_parts l r → compared l r 0
| compared_lower : lower_parts l r → compared l r (-1)
| compared_higher : lower_parts r l → compared l r 1.

Lemma compared_cons x l r c : compared l r c → compared (x :: l) (x :: r) c.
Proof.
  intros []; constructor; [by apply same_parts_cons|by apply lower_parts_cons|by apply lower_parts_cons].
Qed.

Lemma compared_pad_l l r c : compared (0 :: l) r c → l = [] → compared l r c.
Proof.
  intros Hc ->. destruct Hc as [H|(i & Hi & H)|(i & Hi & H)]; constructor.
  - intros i. by rewrite <-H, pad_part.
  - exists i. split; [intros j Hj; by rewrite <-Hi, pad_part|by rewrite <-pad_part].
  - exists i. split; [intros j Hj; by rewrite Hi, pad_part|by rewrite <-pad_part].
Qed.

Lemma compared_pad_r l r c : compared l (0 :: r) c → r = [] → compared l r c.
Proof.
  intros Hc ->. destruct Hc as [H|(i & Hi & H)|(i & Hi & H)]; constructor.
  - intros i. by rewrite H, pad_part.
  - exists i. split; [intros j Hj; by rewrite Hi, pad_part|by rewrite <-pad_part].
  - exists i. split; [intros j Hj; by rewrite <-Hi, pad_part|by rewrite <-pad_part].
Qed.

Lemma compare_right_compared r : compared [] r (compare_right r).
Proof.
  induction r as [|y r IH]; [by constructor|]. apply compared_pad_l; [|done]. simpl.
  destruct (Z.ltb_spec 0 y); [constructor; by apply lower_parts_head|].
  destruct (Z.ltb_spec y 0); [constructor; by apply lower_parts_head|].
  replace y with 0 by lia. by apply compared_cons.
Qed.

Lemma compare_parts_compared l r : compared l r (compare_parts l r).
Proof.
  revert r. induction l as [|x l IH]; intros r; [apply compare_right_compared|].
  destruct r as [|y r]; simpl.
  - apply compared_pad_r; [|done].
    destruct (Z.ltb_spec x 0); [constructor; by apply lower_parts_head|].
    destruct (Z.ltb_spec 0 x); [constructor; by apply lower_parts_head|].
    replace x with 0 by lia. apply compared_cons, IH.
  - destruct (Z.ltb_spec x y); [constructor; by apply lower_parts_head|].
    destruct (Z.ltb_spec y x); [constructor; by apply lower_parts_head|].
    replace y with x by lia. apply compared_cons, IH.
Qed.

Lemma lower_not_same l r : lower_parts l r → ¬ same_parts l r.
Proof. intros (i & _ & Hlt) Hs. specialize (Hs i). lia. Qed.

Lemma lower_trans l r s : lower_parts l r → lower_parts r s → lower_parts l s.
Proof.
  intros (i & Hi & Hlt) (k & Hk & Hlt'). exists (Nat.min i k). split.
  - intros j Hj. rewrite Hi, Hk by lia. done.
  - destruct (Nat.lt_trichotomy i k) as [?|[->|?]].
    + rewrite Nat.min_l by lia. rewrite <-Hk by lia. done.
    + rewrite Nat.min_id. lia.
    + rewrite Nat.min_r by lia. rewrite Hi by lia. done.
Qed.

Lemma lower_same l l' r r' : same_parts l l' → same_parts r r' → lower_parts l r → lower_parts l' r'.
Proof.
  intros Hl Hr (i & Hi & Hlt). exists i.
  split; [intros j Hj; rewrite <-Hl, <-Hr; by apply Hi|by rewrite <-Hl, <-Hr].
Qed.

Lemma lower_asym l r : lower_parts l r → ¬ lower_parts r l.
Proof. intros Hlr Hrl. apply (lower_not_same l l); [by eapply lower_trans|done]. Qed.

(** Versions are compared as their numbers at each place, the first
    difference deciding and missing places being zero: the comparison is -1
    exactly for a lower version, 0 exactly for versions that agree everywhere
    and 1 exactly for a higher one; so it is a total preorder, antisymmetric in
    its arguments and transitive. *)
Theorem versions_ordered (u v w : string) :
  (compareVersions u v = -1 ↔ lower_parts (versionParts u) (versionParts v)) ∧
  (compareVersions u v = 0 ↔ same_parts (versionParts u) (versionParts v)) ∧
  (compareVersions u v = 1 ↔ lower_parts (versionParts v) (versionParts u)) ∧
  compareVersions v u = - compareVersions u v ∧
  (compareVersions u v <= 0 → compareVersions v w <= 0 → compareVersions u w <= 0).
Proof.
  unfold compareVersions. generalize (versionParts u) (versionParts v) (versionParts w). clear.
  intros l r s.
  pose proof (compare_parts_compared l r) as Hlr. pose proof (compare_parts_compared r l) as Hrl.
  pose proof (compare_parts_compared r s) as Hrs. pose proof (compare_parts_compared l s) as Hls.
  assert (Hsym : same_parts l r ↔ same_parts r l) by (split; intros H i; by rewrite H).
  pose proof (lower_asym l r) as Ha. pose proof (lower_not_same l r) as Hn. pose proof (lower_not_same r l) as Hn'.
  split_and!.
  1-4: destruct Hlr, Hrl; first [split; intros; try lia; tauto|tauto|lia].
  destruct Hlr, Hrs, Hls as [| |Hsl]; try lia; intros _ _; exfalso.
  - apply (lower_not_same s l Hsl). intros i. by rewrite (H i), (H0 i).
  - apply (lower_asym s l Hsl). eapply (lower_same r l s s); [intros i; by rewrite (H i)|done|done].
  - apply (lower_asym s l Hsl). eapply (lower_same l l r s); [done|done|done].
  - apply (lower_asym s l Hsl). by eapply lower_trans.
Qed.

(** ** Advisories *)

(** What a normalised range says of a normalised version. *)
Inductive range_covers (current : string) : string → Prop :=
| covers_all : range_covers current "*"
| covers_exactly : current ≠ "" → range_covers current current
| covers_at_most v : compareVersions current (normalizeVersion v) <= 0 → range_covers current ("<=" +:+ v)
| covers_at_least v : 0 <= compareVersions current (normalizeVersion v) → range_covers current (">=" +:+ v)
| covers_below v :
    has_prefix v "=" = false → compareVersions current (normalizeVersion v) < 0 →
    range_covers current ("<" +:+ v)
| covers_above v :
    has_prefix v "=" = false → 0 < compareVersions current (normalizeVersion v) →
    range_covers current (">" +:+ v)
| covers_branch branch :
    has_prefix (branch +:+ ".*") "<" = false → has_prefix (branch +:+ ".*") ">" = false →
    has_prefix current (branch +:+ ".") = true → range_covers current (branch +:+ ".*").

Lemma has_prefix_cut s pre : has_prefix s pre = true → ∃ rest, s = pre +:+ rest ∧ trim_prefix s pre = rest.
Proof.
  unfold trim_prefix. intros Hp. rewrite Hp. unfold has_prefix in Hp. revert s Hp.
  induction pre as [|c pre IH]; intros s Hp; [exists s; by rewrite append_nil|].
  destruct s as [|d s]; [done|]. cbn [String.prefix] in Hp.
  destruct (ascii_dec c d) as [->|]; [|done]. destruct (IH s Hp) as (rest & -> & Hr).
  exists rest. by rewrite append_cons.
Qed.

Lemma has_prefix_here pre rest : has_prefix (pre +:+ rest) pre = true.
Proof.
  unfold has_prefix. induction pre as [|c pre IH]; [by destruct rest|].
  rewrite append_cons. cbn [String.prefix]. by destruct (ascii_dec c c).
Qed.

Lemma trim_prefix_here pre rest : trim_prefix (pre +:+ rest) pre = rest.
Proof.
  unfold trim_prefix. rewrite has_prefix_here. induction pre as [|c pre IH]; [done|].
  by rewrite append_cons.
Qed.

Lemma drop_bytes_here s t : drop_bytes (String.length s) (s +:+ t) = t.
Proof. induction s as [|c s IH]; [by destruct t|]. by rewrite append_cons. Qed.

Lemma take_bytes_here s t : String.substring 0 (String.length s) (s +:+ t) = s.
Proof.
  induction s as [|c s IH]; [by destruct t|]. rewrite append_cons. cbn [String.length String.substring].
  by rewrite IH.
Qed.

Lemma has_suffix_cut s suffix :
  has_suffix s suffix = true ↔ ∃ rest, s = rest +:+ suffix.
Proof.
  unfold has_suffix. split.
  - intros H. apply andb_prop in H as [_ H%String.eqb_eq].
    exists (String.substring 0 (String.length s - String.length suffix) s).
    rewrite <-(take_drop_char (String.length s - String.length suffix) s) at 1. by rewrite H.
  - intros [rest ->]. rewrite append_length.
    replace (_ + _ - _)%nat with (String.length rest) by lia. rewrite drop_bytes_here, String.eqb_refl.
    rewrite andb_true_r. apply Nat.leb_le. lia.
Qed.

Lemma trim_suffix_here s suffix : trim_suffix (s +:+ suffix) suffix = s.
Proof.
  unfold trim_suffix. rewrite (proj2 (has_suffix_cut _ _)) by (by exists s). rewrite append_length.
  replace (_ + _ - _)%nat with (String.length s) by lia. apply take_bytes_here.
Qed.

Lemma branch_star branch : branch +:+ ".*" = (branch +:+ ".") +:+ "*".
Proof. by rewrite append_assoc. Qed.

(** The operators by the first bytes of a range. *)
Lemma operator_cases c :
  (∃ v, c = "<=" +:+ v ∧ List.find (λ op, has_prefix c op.1) operators = Some ("<=", λ n, n <=? 0)) ∨
  (∃ v, c = ">=" +:+ v ∧ List.find (λ op, has_prefix c op.1) operators = Some (">=", λ n, 0 <=? n)) ∨
  (∃ v, c = "<" +:+ v ∧ has_prefix v "=" = false ∧
        List.find (λ op, has_prefix c op.1) operators = Some ("<", λ n, n <? 0)) ∨
  (∃ v, c = ">" +:+ v ∧ has_prefix v "=" = false ∧
        List.find (λ op, has_prefix c op.1) operators = Some (">", λ n, 0 <? n)) ∨
  has_prefix c "<" = false ∧ has_prefix c ">" = false ∧
  List.find (λ op, has_prefix c op.1) operators = None.
Proof.
  destruct c as [|a c]; [by right; right; right; right|].
  unfold operators, has_prefix. cbn [List.find fst String.prefix].
  destruct (ascii_dec "<" a) as [<-|Hlt].
  { destruct c as [|b c]; [right; right; left; by exists ""|]. cbn [String.prefix].
    destruct (ascii_dec "=" b) as [<-|Hne].
    - left. exists c. destruct c; done.
    - destruct (ascii_dec ">" "<") as [Hc|_]; [discriminate Hc|]. right; right; left. exists (String b c).
      cbn [String.prefix]. destruct (ascii_dec "=" b); [done|]. done. }
  destruct (ascii_dec ">" a) as [<-|Hgt].
  { destruct c as [|b c]; [right; right; right; left; by exists ""|]. cbn [String.prefix].
    destruct (ascii_dec "=" b) as [<-|Hne].
    - right; left. exists c. destruct c; done.
    - right; right; right; left. exists (String b c).
      cbn [String.prefix]. destruct (ascii_dec "=" b); [done|]. done. }
  by right; right; right; right.
Qed.

Lemma range_covers_nonempty current c : range_covers current c → c ≠ "".
Proof. intros []; try done. intros H'. by destruct branch. Qed.

(** A range with an operator covers what the operator says. *)
Lemma covers_operator current c op test :
  List.find (λ o, has_prefix c o.1) operators = Some (op, test) → range_covers current c →
  c ≠ "*" → c ≠ current →
  test (compareVersions current (normalizeVersion (trim_prefix c op))) = true.
Proof.
  intros Hop Hc Hstar Hcur.
  destruct (operator_cases c) as [(v & -> & Ho)|[(v & -> & Ho)|[(v & -> & Hv & Ho)|[(v & -> & Hv & Ho)|(Hlt & Hgt & Ho)]]]];
    rewrite Ho in Hop; simplify_eq; rewrite trim_prefix_here.
  all: match type of Hc with range_covers _ (?o +:+ _) => remember (o +:+ v) as c eqn:Heq end.
  all: destruct Hc as [|?|w Hw|w Hw|w Hw' Hw|w Hw' Hw|branch H1 H2 Hp]; try done.
  all: try (rewrite Heq, has_prefix_here in H1; done).
  all: try (rewrite Heq, has_prefix_here in H2; done).
  all: try (apply literal_unique in Heq as ->).
  all: try (first [apply Z.leb_le|apply Z.ltb_lt]; assumption).
  all: try (discriminate Heq).
  all: try (rewrite Heq in H1; discriminate H1).
  all: try (rewrite Heq in H2; discriminate H2).
  all: exfalso; rewrite !append_cons, !append_nil in Heq; injection Heq as Heq;
    subst; unfold has_prefix in *; simpl in *; by destruct v || by destruct w.
Qed.

Lemma version_matches range current :
  advisoryVersionMatches range current = true ↔ range_covers current (normalizeVersion range).
Proof.
  unfold advisoryVersionMatches. generalize (normalizeVersion range) as c. clear range. intros c.
  destruct (String.eqb_spec c "") as [->|Hne].
  { split; [done|]. by intros ?%range_covers_nonempty. }
  destruct (String.eqb_spec c "*") as [->|Hstar]; [split; [constructor|done]|].
  destruct (String.eqb_spec c current) as [->|Hcur]; cbn [orb].
  { split; [by constructor|done]. }
  destruct (operator_cases c) as
    [(v & -> & Ho)|[(v & -> & Ho)|[(v & -> & Hv & Ho)|[(v & -> & Hv & Ho)|(Hlt & Hgt & Ho)]]]]; rewrite Ho.
  1-4: split; [rewrite trim_prefix_here|intros Hc; by apply (covers_operator _ _ _ _ Ho)].
  1-2: intros Hle%Z.leb_le; by constructor.
  1-2: intros Hlt%Z.ltb_lt; by constructor.
  - split.
    + destruct (has_suffix c ".*") eqn:Hs; [|done].
      apply has_suffix_cut in Hs as [branch ->]. rewrite branch_star, trim_suffix_here.
      intros Hp. rewrite <-branch_star. by constructor.
    + intros Hc. destruct Hc as [|?|v Hv|v Hv|v Hv Hv'|v Hv Hv'|branch H1 H2 Hp];
        try done; try (by destruct v).
      rewrite (proj2 (has_suffix_cut _ _)) by (by exists branch).
      by rewrite branch_star, trim_suffix_here.
Qed.

(** C36: the advisories reported are exactly those of the feed that cover the
    current version, in the feed's order: one of their affected ranges,
    normalised, is "*", the version itself, a bound the version meets, or a
    branch the version is on.  A pre-release compares as the release it leads
    to, so that a range of versions below a release leaves it out. *)
Theorem advisories_reported (feed : advisoryFeed) (current : string) :
  (∀ a, a ∈ Update_AffectedAdvisories (evaluateUpdateFeed feed current) ↔
     a ∈ default [] (Feed_Advisories feed) ∧
     ∃ range, range ∈ default [] (Advisory_AffectedVersions a) ∧
              range_covers (normalizeVersion current) (normalizeVersion range)) ∧
  Update_AffectedAdvisories (evaluateUpdateFeed feed current) `sublist_of`
    default [] (Feed_Advisories feed) ∧
  ¬ range_covers (normalizeVersion wordwarden_version) "<0.1.0".
Proof.
  split; [|split].
  - intros a. simpl. rewrite !list_elem_of_In, filter_In. apply and_iff_compat_l.
    unfold advisoryAffectsVersion. rewrite existsb_exists. split.
    + intros (range & Hin & Hm%version_matches). exists range. by rewrite list_elem_of_In.
    + intros (range & Hin & Hm%version_matches). exists range. by rewrite <-list_elem_of_In.
  - simpl. generalize (default [] (Feed_Advisories feed)) as l. intros l.
    induction l as [|a l IH]; simpl; [constructor|]. case_match; by constructor.
  - change "<0.1.0" with (normalizeVersion "<0.1.0") at 1. rewrite <-version_matches. by vm_compute.
Qed.

(** ** Trust *)

Section trust.
Context `{UnicodeTables}.
Variable Verify : string → string → string → bool.

(** The feed is signed by the key: its signature, under a supported algorithm,
    verifies over everything else the feed says. *)
Definition signed_by (trustedKey : string) (feed : advisoryFeed) : Prop :=
  ∃ sig key signature,
    Feed_Signature feed = Some sig ∧ equal_fold (FeedSignature_Algorithm sig) "ed25519" = true ∧
    decodeBase64Value trustedKey = Some key ∧ String.length key = 32%nat ∧
    decodeBase64Value (FeedSignature_Signature sig) = Some signature ∧
    Verify key (encode (unsigned_json feed)) signature = true.

(** The flags allow the feed as it is, which only a local one can be. *)
Definition unsigned_local (flags : updateFlags) : Prop :=
  Flag_AllowUnsignedFeed flags = true ∧ isLocalAdvisoryFeedURL (Flag_FeedURL flags) = true.

Ltac refute := split; [done|]; intros (_ & ? & ? & ? & ? & ? & ? & ? & ? & ?); simplify_eq; congruence.

Lemma trust_correct feed key :
  verifyAdvisoryFeedTrust Verify feed key false = Ok tt ↔ trim_space key ≠ "" ∧ signed_by key feed.
Proof.
  unfold verifyAdvisoryFeedTrust, signed_by.
  destruct (String.eqb_spec (trim_space key) ""); [by split; [|intros []]|].
  destruct (Feed_Signature feed) as [sig|]; [|refute].
  destruct (equal_fold _ _) eqn:Halg; simpl; [|refute].
  destruct (decodeBase64Value key) as [k|]; [|refute].
  destruct (Nat.eqb_spec (String.length k) 32); simpl; [|refute].
  destruct (decodeBase64Value (FeedSignature_Signature sig)) as [signature|] eqn:Hs; [|refute].
  destruct (Verify k _ signature) eqn:Hv; simpl; [|refute]. split; [|done]. intros _.
  split; [done|]. by exists sig, k, signature.
Qed.
End trust.

(** Feeds that say the same but for their signatures. *)
Definition same_content (f g : advisoryFeed) : Prop :=
  Feed_Channel f = Feed_Channel g ∧ Feed_LatestVersion f = Feed_LatestVersion g ∧
  Feed_ReleaseURL f = Feed_ReleaseURL g ∧ Feed_Advisories f = Feed_Advisories g.

#[export] Instance advisory_json_inj : Inj (=) (=) advisory_json.
Proof.
  intros a b.
  destruct a as [i l f s m p u r], b as [i' l' f' s' m' p' u' r']. unfold advisory_json. simpl.
  intros Heq. injection Heq as -> Hl -> -> -> -> -> ->. by apply json_slice_inj in Hl as ->.
Qed.

Lemma unsigned_json_inj f g : unsigned_json f = unsigned_json g → same_content f g.
Proof.
  destruct f as [? ? ? fa ?], g as [? ? ? ga ?]. unfold unsigned_json, same_content. simpl.
  intros Heq. injection Heq as -> -> -> Ha. split_and!; [done..|].
  destruct fa as [fa|], ga as [ga|]; try done. injection Ha as Ha. f_equal.
  by apply (inj (fmap advisory_json)) in Ha.
Qed.

(** What the command needs to report a result. *)
Definition trusted (Verify : string → string → string → bool) `{UnicodeTables} (flags : updateFlags)
    (feed : advisoryFeed) : Prop :=
  unsigned_local flags ∨ signed_by Verify (Flag_TrustedFeedKey flags) feed.

Lemma trust_established Verify `{UnicodeTables} flags feed u :
  Flag_AllowUnsignedFeed flags && negb (isLocalAdvisoryFeedURL (Flag_FeedURL flags)) = false →
  verifyAdvisoryFeedTrust Verify feed (Flag_TrustedFeedKey flags) (Flag_AllowUnsignedFeed flags) = Ok u →
  trusted Verify flags feed.
Proof.
  unfold trusted, unsigned_local. destruct u, (Flag_AllowUnsignedFeed flags); simpl.
  - intros Hl%negb_false_iff _. by left.
  - intros _ [_ Hs]%trust_correct. by right.
Qed.

Lemma channel_allowed (flag channel : string) :
  negb (flag =? "")%string && negb (channel =? "")%string && negb (flag =? channel)%string = false →
  flag = "" ∨ channel = "" ∨ flag = channel.
Proof.
  destruct (String.eqb_spec flag ""), (String.eqb_spec channel ""), (String.eqb_spec flag channel); auto.
  done.
Qed.

(** The document an effect read, if it read one. *)
Definition document_of (x : entry effect) : option (result string advisoryFeed) :=
  match projT2 x with
  | (e, r) =>
      match e in effect R return R → _ with
      | ReadLocal _ => λ answer, match answer with Ok d => Some d | Err _ => None end
      | GetFeed _ _ => λ answer, match answer with Ok (_, d) => Some d | Err _ => None end
      end r
  end.

(** A remote feed is fetched over TLS from the URL given. *)
Definition fetch_allowed (flags : updateFlags) (x : entry effect) : Prop :=
  let 'existT _ (e, _) := x in
  match e with
  | ReadLocal _ => True
  | GetFeed url _ =>
      url = Flag_FeedURL flags ∧ ∃ u, Parse url = Some u ∧ Scheme u = "https"
  end.

(** C22: an update check reports nothing from a feed it does not trust: a result
    is the evaluation, for the current version, of the one document read, which
    is signed by the trusted key over all it says, or is unsigned, local and
    allowed; its channel does not contradict the one asked for; remote feeds are
    fetched over TLS only; and two signed texts that are equal are the same
    feed, so that a signature cannot be moved to another content. *)
Theorem update_check_trusted `{UnicodeTables} (Verify : string → string → string → bool)
    (flags : updateFlags) :
  always (update_check Verify flags)
    (λ tr r,
       Forall (fetch_allowed flags) tr ∧ (length tr ≤ 1)%nat ∧
       ∀ report, r = Ok report →
         ∃ feed, omap document_of tr = [Ok feed] ∧ trusted Verify flags feed ∧
           (Flag_Channel flags = "" ∨ Feed_Channel feed = "" ∨ Flag_Channel flags = Feed_Channel feed) ∧
           report = evaluateUpdateFeed feed
             (if (Flag_CurrentVersion flags =? "")%string then wordwarden_version
              else Flag_CurrentVersion flags)) ∧
  (∀ f g, valid_json (unsigned_json f) = true → valid_json (unsigned_json g) = true →
     encode (unsigned_json f) = encode (unsigned_json g) → same_content f g).
Proof.
  split; [|intros f g Hf Hg Heq; by apply unsigned_json_inj, encode_inj].
  walk.
  all: cbn [always app]; split; [|split; [simpl; lia|intros report Hr; try discriminate Hr]].
  all: match goal with
    | |- Forall _ _ =>
        repeat constructor; repeat match goal with H : (_ =? _)%string = true |- _ => apply String.eqb_eq in H end; by eauto
    | Ht : verifyAdvisoryFeedTrust _ ?feed _ _ = Ok _, Hc : (_ && negb (_ =? Feed_Channel _)%string)%bool = false |- _ =>
        injection Hr as <-; exists feed; split; [reflexivity|]; split; [by eapply trust_established|];
        split; [by apply channel_allowed|done]
    end.
Qed.
