(* ===== verification/Diagnostics.v ===== *)
(** * Diagnostics (internal/app/command.go)

    The redacted bundle of [diagnostics bundle] and the report of [doctor].  [Commands]
    prints them. *)

From S2P Require Import Prelude GoStrings Url Config Validate ValidateProofs Heartbeat.
Local Open Scope Z_scope.

(** ** The bundle *)

Record diagnosticServerSummary := {
  DServer_Listen : string;
  DServer_PublicBaseURL : string;
  DServer_TLSEnabled : bool;
}.

Record diagnosticRelaySummary := {
  DRelay_Enabled : bool;
  DRelay_URLHost : string;
  DRelay_URLPath : string;
  DRelay_ReconnectMinMS : Z;
  DRelay_ReconnectMaxMS : Z;
}.

Record diagnosticLDAPSummary := {
  DLDAP_URLCount : Z;
  DLDAP_LookupMode : string;
  DLDAP_StartTLS : bool;
  DLDAP_TLSVerify : bool;
  DLDAP_Attributes : list string;
  DLDAP_GroupsEnabled : bool;
  DLDAP_ReferralsMode : string;
}.

Record diagnosticTimeouts := {
  DTimeout_LDAPConnectMS : Z;
  DTimeout_LDAPBindMS : Z;
  DTimeout_LDAPSearchMS : Z;
  DTimeout_RequestMS : Z;
}.

Record diagnosticProtection := {
  DProtection_MaxConcurrentRequests : Z;
  DProtection_StormWindowMS : Z;
  DProtection_StormBlockMS : Z;
  DProtection_MalformedRequestLimit : Z;
  DProtection_ReplayLimit : Z;
  DProtection_DirectoryErrorLimit : Z;
}.

Record diagnosticTenantSummary := {
  DTenant_TenantID : string;
  DTenant_ConnectorID : string;
  DTenant_HMACActiveKID : string;
  DTenant_HasPreviousHMACKey : bool;
  DTenant_Relay : diagnosticRelaySummary;
  DTenant_LDAP : diagnosticLDAPSummary;
  DTenant_Timeouts : diagnosticTimeouts;
  DTenant_Protection : diagnosticProtection;
}.

Record diagnosticBundle := {
  Bundle_Connector : string;
  Bundle_Version : string;
  Bundle_Server : diagnosticServerSummary;
  Bundle_Tenants : list diagnosticTenantSummary;
}.

Definition relayURLSummary (raw : string) : string * string :=
  if (raw =? "")%string then ("", "")
  else match Parse raw with Some parsed => (Host parsed, EscapedPath parsed) | None => ("", "") end.

Definition timeouts_summary (t : TimeoutConfig) : diagnosticTimeouts := {|
  DTimeout_LDAPConnectMS := Timeout_LDAPConnectMS t; DTimeout_LDAPBindMS := Timeout_LDAPBindMS t;
  DTimeout_LDAPSearchMS := Timeout_LDAPSearchMS t; DTimeout_RequestMS := Timeout_RequestMS t |}.

Definition protection_summary (p : ProtectionConfig) : diagnosticProtection := {|
  DProtection_MaxConcurrentRequests := Protection_MaxConcurrentRequests p;
  DProtection_StormWindowMS := Protection_StormWindowMS p;
  DProtection_StormBlockMS := Protection_StormBlockMS p;
  DProtection_MalformedRequestLimit := Protection_MalformedRequestLimit p;
  DProtection_ReplayLimit := Protection_ReplayLimit p;
  DProtection_DirectoryErrorLimit := Protection_DirectoryErrorLimit p |}.

Definition tenant_summary (tenant : TenantConfig) : diagnosticTenantSummary :=
  let relay := Authrim_Relay (Tenant_Authrim tenant) in
  let ldap := Tenant_LDAP tenant in
  let '(urlHost, urlPath) := relayURLSummary (Relay_URL relay) in
  {| DTenant_TenantID := Tenant_TenantID tenant;
     DTenant_ConnectorID := Tenant_ConnectorID tenant;
     DTenant_HMACActiveKID := HMACKey_KID (HMACKeys_Active (Authrim_HMACKeys (Tenant_Authrim tenant)));
     DTenant_HasPreviousHMACKey :=
       match HMACKeys_Previous (Authrim_HMACKeys (Tenant_Authrim tenant)) with Some _ => true | None => false end;
     DTenant_Relay := {|
       DRelay_Enabled := Relay_Enabled relay; DRelay_URLHost := urlHost; DRelay_URLPath := urlPath;
       DRelay_ReconnectMinMS := Relay_ReconnectMinMS relay;
       DRelay_ReconnectMaxMS := Relay_ReconnectMaxMS relay |};
     DTenant_LDAP := {|
       DLDAP_URLCount := Z.of_nat (length (LDAP_URLs ldap)) + (if (LDAP_URL ldap =? "")%string then 0 else 1);
       DLDAP_LookupMode := LDAP_LookupMode ldap; DLDAP_StartTLS := LDAPTLS_StartTLS (LDAP_TLS ldap);
       DLDAP_TLSVerify := LDAPTLS_Verify (LDAP_TLS ldap); DLDAP_Attributes := LDAP_Attributes ldap;
       DLDAP_GroupsEnabled := Group_Enabled (LDAP_Groups ldap);
       DLDAP_ReferralsMode := Referral_Mode (LDAP_Referrals ldap) |};
     DTenant_Timeouts := timeouts_summary (Tenant_Timeouts tenant);
     DTenant_Protection := protection_summary (Tenant_Protection tenant) |}.

Definition buildDiagnosticBundle (cfg : Config) : diagnosticBundle := {|
  Bundle_Connector := "authrim-wordwarden";
  Bundle_Version := wordwarden_version;
  Bundle_Server := {|
    DServer_Listen := Server_Listen (Config_Server cfg);
    DServer_PublicBaseURL := Server_PublicBaseURL (Config_Server cfg);
    DServer_TLSEnabled := ServerTLS_Enabled (Server_TLS (Config_Server cfg)) |};
  Bundle_Tenants := tenant_summary <$> Config_Tenants cfg |}.

(** ** The doctor's report *)

Record doctorCheck := { Check_Name : string; Check_Status : string; Check_Detail : string }.
Record doctorReport := { Report_Checks : list doctorCheck; Report_HasFailures : bool }.

Definition empty_report : doctorReport := {| Report_Checks := []; Report_HasFailures := false |}.

Definition addDoctorCheck (name : string) (ok : bool) (detail : string) (r : doctorReport) : doctorReport := {|
  Report_Checks := Report_Checks r ++
    [{| Check_Name := name; Check_Status := if ok then "ok" else "fail"; Check_Detail := detail |}];
  Report_HasFailures := if ok then Report_HasFailures r else true |}.

Definition addDoctorWarning (name : string) (warn : bool) (detail : string) (r : doctorReport)
    : doctorReport := {|
  Report_Checks := Report_Checks r ++
    [{| Check_Name := name; Check_Status := if warn then "warn" else "ok"; Check_Detail := detail |}];
  Report_HasFailures := Report_HasFailures r |}.

Definition isSecretRef (value : string) : bool := has_prefix value "env:" || has_prefix value "file:".

Definition not_empty (s : string) : bool := negb (s =? "")%string.

Definition tenant_checks (r : doctorReport) (tenant : TenantConfig) : doctorReport :=
  let prefix := "tenant." +:+ Tenant_TenantID tenant +:+ "." in
  let authrim := Tenant_Authrim tenant in
  let active := HMACKeys_Active (Authrim_HMACKeys authrim) in
  let ldap := Tenant_LDAP tenant in
  let r := addDoctorCheck (prefix +:+ "connector_id") (not_empty (Tenant_ConnectorID tenant))
             (Tenant_ConnectorID tenant) r in
  let r := addDoctorCheck (prefix +:+ "hmac.active_kid") (not_empty (HMACKey_KID active))
             (HMACKey_KID active) r in
  let r := addDoctorCheck (prefix +:+ "hmac.active_secret_ref") (isSecretRef (HMACKey_SecretRef active))
             "secret reference configured" r in
  let r := addDoctorCheck (prefix +:+ "audit_hash_secret_ref") (isSecretRef (Authrim_AuditHashSecretRef authrim))
             "secret reference configured" r in
  let r := addDoctorWarning (prefix +:+ "ldap.tls_verify") (negb (LDAPTLS_Verify (LDAP_TLS ldap)))
             "LDAP TLS verification disabled" r in
  let r := addDoctorCheck (prefix +:+ "ldap.endpoint")
             (negb (empty_list (LDAP_URLs ldap)) || not_empty (LDAP_URL ldap)) "LDAP endpoint configured" r in
  let r := if Relay_Enabled (Authrim_Relay authrim)
           then addDoctorCheck (prefix +:+ "relay.url") (not_empty (Relay_URL (Authrim_Relay authrim)))
                  "relay enabled" r
           else r in
  if Heartbeat_Enabled (Authrim_Heartbeat authrim)
  then addDoctorCheck (prefix +:+ "heartbeat.key")
         (isSecretRef (HMACKey_SecretRef (Heartbeat_Key (Authrim_Heartbeat authrim))))
         "heartbeat key reference configured" r
  else r.

Definition buildDoctorReport (cfg : Config) : doctorReport :=
  let server := Config_Server cfg in
  let r := addDoctorCheck "config.tenants" (negb (empty_list (Config_Tenants cfg)))
             (pretty (Z.of_nat (length (Config_Tenants cfg))) +:+ " tenant(s)") empty_report in
  let r := addDoctorCheck "server.listen" (not_empty (Server_Listen server)) (Server_Listen server) r in
  let r := addDoctorWarning "server.state_dir" (Server_StateDir server =? "")%string (Server_StateDir server) r in
  let r := addDoctorWarning "server.tls" (negb (ServerTLS_Enabled (Server_TLS server)))
             "TLS disabled; use only behind a trusted local proxy or tunnel" r in
  foldl tenant_checks r (Config_Tenants cfg).
