(* ===== verification/App.v ===== *)
(** * The application (internal/app/command.go, heartbeat.go)

    How the commands put the components together: secrets resolved, the runtime
    of each tenant, the relay and heartbeat clients started, the server's loop,
    and the [ldap test] command.  The flags and help texts of cobra, loggers and
    the printing of results are not modelled. *)

From S2P Require Import Prelude GoStrings GoTime Effects Config Secrets Defaults Validate Directory Storm Hmac HttpApi LdapData Ldap RelayState Relay Heartbeat Instance.
Local Open Scope Z_scope.

(** ** Errors *)

Inductive secret_error := BadRef (e : ref_error) | Unresolved (e : resolve_error).

(** The errors of starting: [what] is the text between the tenant and the cause. *)
Inductive start_error :=
| NotLoaded (problems : string)
| SecretError (tenant what : string) (e : secret_error)
| NoInstanceID (text : string)
| RelayRuntimeNotFound (tenant connector : string)
| RelayClientError (tenant text : string).

(** ** Helpers *)

Definition findTenant `{UnicodeTables} (cfg : Config) (tenantID : string) : result string TenantConfig :=
  match List.find (λ tenant, (Tenant_TenantID tenant =? tenantID)%string) (Config_Tenants cfg) with
  | Some tenant => Ok tenant
  | None => Err ("tenant " +:+ go_quote tenantID +:+ " not found")
  end.

(** [strings.TrimRight] with an ASCII cutset *)
Fixpoint trim_right_set (cutset : ascii → bool) (s : string) : string :=
  if string_all cutset s then EmptyString
  else match s with String c s => String c (trim_right_set cutset s) | EmptyString => EmptyString end.

(** The first line of the input, or all of it; [Err] is a failure to read. *)
Definition readPassword (input : result string string) : result string string :=
  text ←? input;;
  let line := match cut_byte LF text with Some (line, _) => line +:+ newline | None => text end in
  Ok (trim_right_set (λ c, Ascii.eqb c CR || Ascii.eqb c LF) line).

Definition fileRefPath (ref : string) : result string string :=
  if negb (has_prefix ref "file:") then Err "must use file: reference"
  else
    let path := trim_prefix ref "file:" in
    if (path =? "")%string then Err "file reference path is empty" else Ok path.

Definition with_context {A} (context : string) (r : result string A) : result string A :=
  match r with Ok a => Ok a | Err err => Err (context +:+ ": " +:+ err) end.

Definition tlsFilePaths (tls : ServerTLSConfig) : result string (string * string) :=
  if (ServerTLS_CertFileRef tls =? "")%string || (ServerTLS_KeyFileRef tls =? "")%string
  then Err "server.tls.cert_file_ref and key_file_ref are required when server.tls.enabled is true"
  else
    certPath ←? with_context "server.tls.cert_file_ref" (fileRefPath (ServerTLS_CertFileRef tls));;
    keyPath ←? with_context "server.tls.key_file_ref" (fileRefPath (ServerTLS_KeyFileRef tls));;
    Ok (certPath, keyPath).

(** ** Starting *)

(** What a tenant's requests are served with. *)
Record tenantRuntime := { Runtime_Gateway : TenantRuntime; Runtime_Directory : Client }.

(** What [serve] has put together before it listens. *)
Record deployment := {
  Deploy_Runtimes : gmap string tenantRuntime;
  Deploy_InstanceID : string;
  Deploy_Relays : list RelayClient;
  Deploy_Heartbeats : list heartbeatClient;
  Deploy_Handler : handler;
}.

Section start.
(** The environment and the file system, as while the command starts. *)
Variable getenv readFile : string → option string.

Definition resolveSecretBytes (raw : string) : result secret_error string :=
  match ParseRef raw with
  | Err e => Err (BadRef e)
  | Ok ref =>
      match ResolveSecret getenv readFile ref with
      | Err e => Err (Unresolved e)
      | Ok value => Ok value
      end
  end.

(** No reference is no secret. *)
Definition resolveOptionalSecretBytes (raw : string) : result secret_error string :=
  if (raw =? "")%string then Ok "" else resolveSecretBytes raw.

Definition tenant_secret (tenant : TenantConfig) (what : string) (r : result secret_error string)
    : result start_error string :=
  match r with Ok value => Ok value | Err e => Err (SecretError (Tenant_TenantID tenant) what e) end.

Definition previous_key (tenant : TenantConfig) : result start_error (option Key) :=
  match HMACKeys_Previous (Authrim_HMACKeys (Tenant_Authrim tenant)) with
  | None => Ok None
  | Some previous =>
      secret ←? tenant_secret tenant "previous HMAC secret" (resolveSecretBytes (HMACKey_SecretRef previous));;
      Ok (Some {| KID := HMACKey_KID previous; Secret := secret |})
  end.

Definition storm_policy (p : ProtectionConfig) : StormProtectionPolicy := {|
  WindowMS := Protection_StormWindowMS p; BlockMS := Protection_StormBlockMS p;
  MalformedRequestLimit := Protection_MalformedRequestLimit p;
  ReplayLimit := Protection_ReplayLimit p; DirectoryErrorLimit := Protection_DirectoryErrorLimit p |}.

(** One turn of the loop of [buildTenantRuntimes]. *)
Definition build_runtime (tenant : TenantConfig) : result start_error tenantRuntime :=
  let authrim := Tenant_Authrim tenant in
  let active := HMACKeys_Active (Authrim_HMACKeys authrim) in
  activeSecret ←? tenant_secret tenant "active HMAC secret" (resolveSecretBytes (HMACKey_SecretRef active));;
  previous ←? previous_key tenant;;
  auditHashSecret ←? tenant_secret tenant "audit hash secret"
                       (resolveSecretBytes (Authrim_AuditHashSecretRef authrim));;
  bindPassword ←? tenant_secret tenant "LDAP bind password"
                    (resolveOptionalSecretBytes (LDAP_BindPasswordRef (Tenant_LDAP tenant)));;
  Ok {| Runtime_Gateway := {|
          Runtime_TenantID := Tenant_TenantID tenant;
          Runtime_ConnectorID := Tenant_ConnectorID tenant;
          HMACVerifier := NewVerifier {|
            Active := {| KID := HMACKey_KID active; Secret := activeSecret |};
            Previous := previous |};
          AuditHashSecret := auditHashSecret;
          ConcurrencyLimit := Protection_MaxConcurrentRequests (Tenant_Protection tenant);
          RequestTimeoutMS := Timeout_RequestMS (Tenant_Timeouts tenant);
          StormProtection := storm_policy (Tenant_Protection tenant) |};
        Runtime_Directory := NewClient (Tenant_LDAP tenant) bindPassword (Tenant_Timeouts tenant) |}.

Fixpoint build_runtimes (tenants : list TenantConfig) (runtimes : gmap string tenantRuntime)
    : result start_error (gmap string tenantRuntime) :=
  match tenants with
  | [] => Ok runtimes
  | tenant :: tenants =>
      runtime ←? build_runtime tenant;;
      build_runtimes tenants (<[Tenant_ConnectorID tenant := runtime]> runtimes)
  end.

Definition buildTenantRuntimes (cfg : Config) : result start_error (gmap string tenantRuntime) :=
  build_runtimes (Config_Tenants cfg) ∅.

Definition relay_policy_of (p : ProtectionConfig) : ProtectionPolicy := {|
  Relay_WindowMS := Protection_StormWindowMS p; Relay_BlockMS := Protection_StormBlockMS p;
  Relay_MalformedRequestLimit := Protection_MalformedRequestLimit p;
  Relay_ReplayLimit := Protection_ReplayLimit p;
  Relay_DirectoryErrorLimit := Protection_DirectoryErrorLimit p |}.

(** The configuration [startRelayClients] makes for a tenant. *)
Definition relay_config (tenant : TenantConfig) (runtime : tenantRuntime) (instanceID : string)
    (startedAt : Z) (activeSecret : string) : RelayClientConfig :=
  let relay := Authrim_Relay (Tenant_Authrim tenant) in
  {| RC_URL := Relay_URL relay; RC_TenantID := Tenant_TenantID tenant;
     RC_ConnectorID := Tenant_ConnectorID tenant; RC_InstanceID := instanceID;
     RC_DisplayName := Heartbeat_DisplayName (Authrim_Heartbeat (Tenant_Authrim tenant));
     RC_Version := wordwarden_version; RC_StartedAt := startedAt;
     RC_ConfigFingerprint := configFingerprint tenant;
     RC_ConfigCategories := config_categories;
     RC_KeyID := HMACKey_KID (HMACKeys_Active (Authrim_HMACKeys (Tenant_Authrim tenant)));
     RC_Secret := activeSecret; RC_HasDirectory := true;
     RC_AuditHashSecret := AuditHashSecret (Runtime_Gateway runtime);
     RC_Protection := relay_policy_of (Tenant_Protection tenant);
     RC_RequestTimeout := dur_of_ms (RequestTimeoutMS (Runtime_Gateway runtime));
     RC_Concurrency := ConcurrencyLimit (Runtime_Gateway runtime);
     RC_ReconnectMin := dur_of_ms (Relay_ReconnectMinMS relay);
     RC_ReconnectMax := dur_of_ms (Relay_ReconnectMaxMS relay) |}.

(** One turn of the loop of [startRelayClients] for a tenant with a relay; the
    clock is read only for a zero start. *)
Definition start_relay (runtimes : gmap string tenantRuntime) (instanceID : string) (startedAt now : Z)
    (tenant : TenantConfig) : result start_error RelayClient :=
  match runtimes !! Tenant_ConnectorID tenant with
  | None => Err (RelayRuntimeNotFound (Tenant_TenantID tenant) (Tenant_ConnectorID tenant))
  | Some runtime =>
      activeSecret ←? tenant_secret tenant "relay HMAC secret"
        (resolveSecretBytes (HMACKey_SecretRef (HMACKeys_Active (Authrim_HMACKeys (Tenant_Authrim tenant)))));;
      match NewRelayClient (relay_config tenant runtime instanceID startedAt activeSecret) now with
      | Ok client => Ok client
      | Err text => Err (RelayClientError (Tenant_TenantID tenant) text)
      end
  end.

(** The clients started, and the error that ended the loop: clients that an
    earlier turn started are running by then. *)
Fixpoint start_relays (start : TenantConfig → result start_error RelayClient)
    (tenants : list TenantConfig) : list RelayClient * option start_error :=
  match tenants with
  | [] => ([], None)
  | tenant :: tenants =>
      if negb (Relay_Enabled (Authrim_Relay (Tenant_Authrim tenant))) then start_relays start tenants
      else
        match start tenant with
        | Err err => ([], Some err)
        | Ok client => let '(clients, err) := start_relays start tenants in (client :: clients, err)
        end
  end.

Definition startRelayClients (cfg : Config) (runtimes : gmap string tenantRuntime) (instanceID : string)
    (startedAt now : Z) : list RelayClient * option start_error :=
  start_relays (start_relay runtimes instanceID startedAt now) (Config_Tenants cfg).

Definition heartbeat_of (tenant : TenantConfig) := Authrim_Heartbeat (Tenant_Authrim tenant).

Fixpoint start_heartbeats (instanceID : string) (startedAt : Z) (tenants : list TenantConfig)
    : list heartbeatClient * option start_error :=
  match tenants with
  | [] => ([], None)
  | tenant :: tenants =>
      if negb (Heartbeat_Enabled (heartbeat_of tenant)) then start_heartbeats instanceID startedAt tenants
      else
        match tenant_secret tenant "heartbeat HMAC secret"
                (resolveSecretBytes (HMACKey_SecretRef (Heartbeat_Key (heartbeat_of tenant)))) with
        | Err err => ([], Some err)
        | Ok activeSecret =>
            let client := {|
              Heartbeat_tenant := tenant; Heartbeat_instanceID := instanceID;
              Heartbeat_startedAt := startedAt;
              Heartbeat_keyID := HMACKey_KID (Heartbeat_Key (heartbeat_of tenant));
              Heartbeat_secret := activeSecret |} in
            let '(clients, err) := start_heartbeats instanceID startedAt tenants in (client :: clients, err)
        end
  end.

Definition startHeartbeatClients (cfg : Config) (instanceID : string) (startedAt : Z)
    : list heartbeatClient * option start_error :=
  start_heartbeats instanceID startedAt (Config_Tenants cfg).

Definition started {A} (r : list A * option start_error) : result start_error (list A) :=
  match r.2 with None => Ok r.1 | Some err => Err err end.

(** [serve] up to the server, from the decoded configuration and the answer of
    [loadOrCreateInstanceID]. *)
Definition serve_start `{UnicodeTables} (raw : Config) (loaded : result string string) (startedAt now : Z)
    : result start_error deployment :=
  match load raw with
  | Err problems => Err (NotLoaded problems)
  | Ok cfg =>
      runtimes ←? buildTenantRuntimes cfg;;
      match loaded with
      | Err text => Err (NoInstanceID text)
      | Ok instanceID =>
          relays ←? started (startRelayClients cfg runtimes instanceID startedAt now);;
          heartbeats ←? started (startHeartbeatClients cfg instanceID startedAt);;
          Ok {| Deploy_Runtimes := runtimes; Deploy_InstanceID := instanceID;
                Deploy_Relays := relays; Deploy_Heartbeats := heartbeats;
                Deploy_Handler := NewHandler wordwarden_version (Runtime_Gateway <$> runtimes)
                                    (Server_ExposeOperations (Config_Server cfg)) |}
      end
  end.

(** ** [ldap test] *)

Record ldapTestFlags := {
  Test_TenantID : string;
  Test_Username : string;
  Test_PasswordStdin : bool;
  Test_AllowInsecure : bool;
}.

Inductive command_error :=
| CommandError (text : string)
| TestSecretError (e : secret_error)
| TestError (e : error).

(** The client and the request of the command, from the loaded configuration and
    the standard input. *)
Definition ldap_test_request `{UnicodeTables} (flags : ldapTestFlags) (loaded : result string Config)
    (stdin : result string string) : result command_error (Client * TestConnectionRequest) :=
  let text {A} (r : result string A) : result command_error A :=
    match r with Ok a => Ok a | Err err => Err (CommandError err) end in
  if (Test_TenantID flags =? "")%string then Err (CommandError "--tenant is required")
  else
    cfg ←? text loaded;;
    tenant ←? text (findTenant cfg (Test_TenantID flags));;
    match resolveOptionalSecretBytes (LDAP_BindPasswordRef (Tenant_LDAP tenant)) with
    | Err e => Err (TestSecretError e)
    | Ok bindPassword =>
        password ←? (if Test_PasswordStdin flags then
                       password ←? text (readPassword stdin);;
                       if (Test_Username flags =? "")%string
                       then Err (CommandError "--username is required when --password-stdin is used")
                       else Ok password
                     else Ok "");;
        Ok (NewClient (Tenant_LDAP tenant) bindPassword (Tenant_Timeouts tenant),
            {| TestConnection_Username := Test_Username flags; TestConnection_Password := password;
               TestConnection_TestPassword := Test_PasswordStdin flags;
               TestConnection_AllowInsecure := Test_AllowInsecure flags |})
    end.

Definition ldap_test `{UnicodeTables} `{LdapLibrary} (nfkc : string → string) (budget : nat)
    (flags : ldapTestFlags) (loaded : result string Config) (stdin : result string string)
    : prog Ldap.effect (result command_error TestConnectionResult) :=
  match ldap_test_request flags loaded stdin with
  | Err err => Ret (Err err)
  | Ok (client, request) =>
      answer <~ TestConnection nfkc budget client request;;
      match answer.2 with
      | Some err => Ret (Err (TestError err))
      | None => Ret (Ok answer.1)
      end
  end.
End start.

(** ** The loop of [serve] *)

(** What the select answers: a signal to reload, a signal to stop, or the end of
    the server, [None] for [http.ErrServerClosed]. *)
Inductive serve_event := ReloadSignal | StopSignal | ServerEnded (err : option string).

Inductive serve_effect : Type → Type :=
| Select : serve_effect serve_event
| CancelClients : serve_effect unit
| Shutdown (timeout : Z) : serve_effect (option string)
| LogReload : serve_effect unit
| StillServing : serve_effect Empty_set.

Fixpoint serve_loop (turns : nat) : prog serve_effect (option string) :=
  match turns with
  | O => Vis StillServing (λ x : Empty_set, match x with end)
  | S turns =>
      event <~ call Select;;
      match event with
      | ReloadSignal => call LogReload;;; serve_loop turns
      | StopSignal =>
          call CancelClients;;;
          failed <~ call (Shutdown (5 * Second));;
          Ret failed
      | ServerEnded err => Ret err
      end
  end.

(** [defer cancelServe()] *)
Definition serve_run (turns : nat) : prog serve_effect (option string) :=
  failed <~ serve_loop turns;;
  call CancelClients;;;
  Ret failed.
