(* ===== verification/Commands.v ===== *)
(** * What the commands print (internal/app/command.go)

    The output of each command as a text and the error it ends with; [None] is
    exit without an error. *)

From S2P Require Import Prelude GoStrings Json JsonWrite Effects Config Defaults Validate ValidateProofs Directory LdapData Ldap Heartbeat Update UpdateProofs Diagnostics DiagnosticsProofs App.

(** What was written to the standard output, and the error. *)
Record command_result := { Stdout : string; Failure : option string }.

Definition fails (err : string) : command_result := {| Stdout := ""; Failure := Some err |}.
Definition prints (text : string) : command_result := {| Stdout := text; Failure := None |}.

Definition line (text : string) : string := text +:+ newline.
Definition bool_text (b : bool) : string := if b then "true" else "false".

(** ** [config validate] and [version] *)

Definition config_validate (loaded : result string Config) : command_result :=
  match loaded with Ok _ => prints (line "config valid") | Err err => fails err end.

Definition version_command : command_result := prints (line wordwarden_version).

(** ** [doctor] *)

Definition doctor_line (c : doctorCheck) : string :=
  let tab := String "009" "" in
  line (Check_Status c +:+ tab +:+ Check_Name c +:+ tab +:+ Check_Detail c).

Definition doctor_command (loaded : result string Config) : command_result :=
  match loaded with
  | Err err => fails err
  | Ok cfg =>
      let report := buildDoctorReport cfg in
      {| Stdout := join "" (doctor_line <$> Report_Checks report);
         Failure := if Report_HasFailures report then Some "doctor found failed checks" else None |}
  end.

(** ** [update check] *)

Definition advisory_line `{UnicodeTables} (a : releaseAdvisory) : string :=
  line ("advisory=" +:+ Advisory_AdvisoryID a +:+ " severity=" +:+ Advisory_Severity a +:+
        " fixed_version=" +:+ Advisory_FixedVersion a +:+ " summary=" +:+ go_quote (Advisory_Summary a)).

Definition printUpdateCheckResult `{UnicodeTables} (r : updateCheckResult) : string :=
  line ("current_version=" +:+ Update_CurrentVersion r) +:+
  line ("latest_version=" +:+ Update_LatestVersion r) +:+
  line ("update_available=" +:+ bool_text (Update_UpdateAvailable r)) +:+
  line ("security_advisories=" +:+ pretty (Z.of_nat (length (Update_AffectedAdvisories r)))) +:+
  join "" (advisory_line <$> Update_AffectedAdvisories r) +:+
  (if (Update_ReleaseURL r =? "")%string then "" else line ("release_url=" +:+ Update_ReleaseURL r)).

(** ** [ldap test] *)

Definition printLDAPTestResult (r : TestConnectionResult) : string :=
  line "ldap test ok" +:+
  line ("tls_verified=" +:+ bool_text (TLSVerified r)) +:+
  line ("service_bound=" +:+ bool_text (ServiceBound r)) +:+
  (if UserResolved r then line "user_resolved=true" else "") +:+
  (if PasswordOK r then line "password_bind=true" else "").

(** ** [diagnostics bundle] *)

(** [Encoder.SetIndent] with two spaces: members and elements on lines of their
    own; an empty object or array stays as it is. *)
Definition indentation (depth : nat) : string := newline +:+ join "" (replicate depth "  ").

Fixpoint encode_indent (depth : nat) (v : json) : string :=
  let block (opening closing : string) (items : list string) :=
    match items with
    | [] => opening +:+ closing
    | items => opening +:+ indentation (S depth) +:+ join ("," +:+ indentation (S depth)) items +:+
               indentation depth +:+ closing
    end in
  match v with
  | JArray l => block "[" "]" (encode_indent (S depth) <$> l)
  | JObject fields =>
      block "{" "}" ((λ f, json_string f.1 +:+ ": " +:+ encode_indent (S depth) f.2) <$> fields)
  | v => encode v
  end.

Definition server_summary_json (s : diagnosticServerSummary) : json :=
  json_struct [text_field "listen" (DServer_Listen s); omit_empty "public_base_url" (DServer_PublicBaseURL s);
               always_field "tls_enabled" (JBool (DServer_TLSEnabled s))].

Definition relay_summary_json (s : diagnosticRelaySummary) : json :=
  json_struct [always_field "enabled" (JBool (DRelay_Enabled s)); omit_empty "url_host" (DRelay_URLHost s);
               omit_empty "url_path" (DRelay_URLPath s);
               always_field "reconnect_min_ms" (JInt (DRelay_ReconnectMinMS s));
               always_field "reconnect_max_ms" (JInt (DRelay_ReconnectMaxMS s))].

(** The copy of the attributes is [nil] when there are none. *)
Definition ldap_summary_json (s : diagnosticLDAPSummary) : json :=
  json_struct [always_field "url_count" (JInt (DLDAP_URLCount s)); text_field "lookup_mode" (DLDAP_LookupMode s);
               always_field "start_tls" (JBool (DLDAP_StartTLS s));
               always_field "tls_verify" (JBool (DLDAP_TLSVerify s));
               always_field "attributes" (if empty_list (DLDAP_Attributes s) then JNull
                                          else json_strings (DLDAP_Attributes s));
               always_field "groups_enabled" (JBool (DLDAP_GroupsEnabled s));
               text_field "referrals_mode" (DLDAP_ReferralsMode s)].

Definition timeouts_summary_json (s : diagnosticTimeouts) : json :=
  json_struct [always_field "ldap_connect_ms" (JInt (DTimeout_LDAPConnectMS s));
               always_field "ldap_bind_ms" (JInt (DTimeout_LDAPBindMS s));
               always_field "ldap_search_ms" (JInt (DTimeout_LDAPSearchMS s));
               always_field "request_ms" (JInt (DTimeout_RequestMS s))].

Definition protection_summary_json (s : diagnosticProtection) : json :=
  json_struct [always_field "max_concurrent_requests" (JInt (DProtection_MaxConcurrentRequests s));
               always_field "storm_window_ms" (JInt (DProtection_StormWindowMS s));
               always_field "storm_block_ms" (JInt (DProtection_StormBlockMS s));
               always_field "malformed_request_limit" (JInt (DProtection_MalformedRequestLimit s));
               always_field "replay_limit" (JInt (DProtection_ReplayLimit s));
               always_field "directory_error_limit" (JInt (DProtection_DirectoryErrorLimit s))].

Definition tenant_summary_json (s : diagnosticTenantSummary) : json :=
  json_struct [text_field "tenant_id" (DTenant_TenantID s); text_field "connector_id" (DTenant_ConnectorID s);
               text_field "hmac_active_kid" (DTenant_HMACActiveKID s);
               always_field "has_previous_hmac_key" (JBool (DTenant_HasPreviousHMACKey s));
               always_field "relay" (relay_summary_json (DTenant_Relay s));
               always_field "ldap" (ldap_summary_json (DTenant_LDAP s));
               always_field "timeouts" (timeouts_summary_json (DTenant_Timeouts s));
               always_field "protection" (protection_summary_json (DTenant_Protection s))].

Definition bundle_json (b : diagnosticBundle) : json :=
  json_struct [text_field "connector" (Bundle_Connector b); text_field "version" (Bundle_Version b);
               always_field "server" (server_summary_json (Bundle_Server b));
               always_field "tenants" (JArray (tenant_summary_json <$> Bundle_Tenants b))].

Definition diagnostics_bundle (loaded : result string Config) : command_result :=
  match loaded with
  | Err err => fails err
  | Ok cfg => prints (line (encode_indent 0 (bundle_json (buildDiagnosticBundle cfg))))
  end.

Example indent_example :
  encode_indent 0 (JObject [("a", JArray [JInt 1; JArray []]); ("b", JObject [("c", JNull)])]) =
  "{" +:+ newline +:+ "  " +:+ json_string "a" +:+ ": [" +:+ newline +:+ "    1," +:+ newline +:+
  "    []" +:+ newline +:+ "  ]," +:+ newline +:+ "  " +:+ json_string "b" +:+ ": {" +:+ newline +:+
  "    " +:+ json_string "c" +:+ ": null" +:+ newline +:+ "  }" +:+ newline +:+ "}".
Proof. vm_compute. reflexivity. Qed.

(** ** The commands agree about a configuration *)

(** [config validate] and [doctor] agree, and say what loading does: on a
    configuration file both end without an error exactly when the configuration,
    completed by the defaults, is valid; then the one prints a single line and the
    other no failed check, and otherwise both print nothing and give the problems
    that loading found. *)
Theorem commands_agree `{UnicodeTables} (raw : Config) :
  (Failure (config_validate (load raw)) = None ↔ valid_config (applyDefaults raw)) ∧
  (Failure (doctor_command (load raw)) = None ↔ valid_config (applyDefaults raw)) ∧
  match load raw with
  | Ok cfg => cfg = applyDefaults raw ∧ config_validate (load raw) = prints (line "config valid")
  | Err problems =>
      config_validate (load raw) = fails problems ∧ doctor_command (load raw) = fails problems ∧
      diagnostics_bundle (load raw) = fails problems
  end.
Proof.
  destruct (load raw) as [cfg|problems] eqn:Hload; simpl.
  - pose proof (doctor_loaded raw cfg Hload) as Hdoctor. apply load_ok in Hload as [-> Hvalid]. by rewrite Hdoctor.
  - assert (¬ valid_config (applyDefaults raw)).
    { intros Hvalid. assert (load raw = Ok (applyDefaults raw)) by by apply load_ok. congruence. }
    by split_and!.
Qed.
