(* ===== verification/AppProofs.v ===== *)
(** * Properties of starting

    From a configuration that loads, [serve] starts exactly when its secrets
    resolve, and what it starts is what the configuration says. *)

From S2P Require Import Prelude GoStrings GoTime Effects Config Secrets Defaults Validate ValidateProofs Directory Storm Hmac HttpApi LdapData Ldap RelayState Relay RelayProofs Heartbeat Instance App.
Local Open Scope Z_scope.

Section start.
Variable getenv readFile : string → option string.

Abbreviation resolve := (resolveSecretBytes getenv readFile).
Abbreviation resolve_optional := (resolveOptionalSecretBytes getenv readFile).

(** ** What a configuration asks for *)

Definition active_key (t : TenantConfig) : HMACKeyConfig := HMACKeys_Active (Authrim_HMACKeys (Tenant_Authrim t)).
Definition relay_of (t : TenantConfig) : RelayConfig := Authrim_Relay (Tenant_Authrim t).

Definition resolves (raw : string) : Prop := ∃ value, resolve raw = Ok value.

(** Every secret a tenant needs can be read, and the secret of a relay is not
    empty. *)
Definition secrets_resolve (t : TenantConfig) : Prop :=
  resolves (HMACKey_SecretRef (active_key t)) ∧
  (∀ k, HMACKeys_Previous (Authrim_HMACKeys (Tenant_Authrim t)) = Some k → resolves (HMACKey_SecretRef k)) ∧
  resolves (Authrim_AuditHashSecretRef (Tenant_Authrim t)) ∧
  (LDAP_BindPasswordRef (Tenant_LDAP t) ≠ "" → resolves (LDAP_BindPasswordRef (Tenant_LDAP t))) ∧
  (Relay_Enabled (relay_of t) = true → resolve (HMACKey_SecretRef (active_key t)) ≠ Ok "") ∧
  (Heartbeat_Enabled (heartbeat_of t) = true → resolves (HMACKey_SecretRef (Heartbeat_Key (heartbeat_of t)))).

(** A key with the id and the secret that its configuration names. *)
Definition deployed_key (c : HMACKeyConfig) (k : Key) : Prop :=
  KID k = HMACKey_KID c ∧ resolve (HMACKey_SecretRef c) = Ok (Secret k).

Definition deployed_previous (c : option HMACKeyConfig) (k : option Key) : Prop :=
  match c, k with
  | None, None => True
  | Some c, Some k => deployed_key c k
  | _, _ => False
  end.

(** The runtime of a tenant: its own ids, keys, secrets, limits and directory. *)
Definition deployed_runtime (t : TenantConfig) (r : tenantRuntime) : Prop :=
  let g := Runtime_Gateway r in
  let d := Runtime_Directory r in
  Runtime_TenantID g = Tenant_TenantID t ∧ Runtime_ConnectorID g = Tenant_ConnectorID t ∧
  (clockSkew (HMACVerifier g) = 2 * Minute ∧
   deployed_key (active_key t) (Active (keys (HMACVerifier g))) ∧
   deployed_previous (HMACKeys_Previous (Authrim_HMACKeys (Tenant_Authrim t)))
     (Previous (keys (HMACVerifier g)))) ∧
  resolve (Authrim_AuditHashSecretRef (Tenant_Authrim t)) = Ok (AuditHashSecret g) ∧
  ConcurrencyLimit g = Protection_MaxConcurrentRequests (Tenant_Protection t) ∧
  RequestTimeoutMS g = Timeout_RequestMS (Tenant_Timeouts t) ∧
  StormProtection g = storm_policy (Tenant_Protection t) ∧
  resolve_optional (LDAP_BindPasswordRef (Tenant_LDAP t)) = Ok (Client_BindPassword d) ∧
  d = NewClient (Tenant_LDAP t) (Client_BindPassword d) (Tenant_Timeouts t).

(** A runtime for each tenant, under its connector id, and no other. *)
Definition deployed_runtimes (ts : list TenantConfig) (m : gmap string tenantRuntime) : Prop :=
  Forall (λ t, ∃ r, deployed_runtime t r ∧ m !! Tenant_ConnectorID t = Some r) ts ∧
  ∀ c, c ∉ Tenant_ConnectorID <$> ts → m !! c = None.

(** The relay client of a tenant. *)
Definition deployed_relay (instanceID : string) (startedAt now : Z) (t : TenantConfig) (c : RelayClient)
    : Prop :=
  ∃ r secret,
    deployed_runtime t r ∧ resolve (HMACKey_SecretRef (active_key t)) = Ok secret ∧ secret ≠ "" ∧
    Relay_Config c = relay_defaults (relay_config t r instanceID startedAt secret) now ∧
    relay_url (RC_URL (Relay_Config c)) (Tenant_TenantID t) (Tenant_ConnectorID t) ∧
    Relay_Limit c = Protection_MaxConcurrentRequests (Tenant_Protection t) ∧
    Relay_Replay c = newRelayReplayCache (5 * Minute) ∧
    Relay_Storms c = newRelayStorms (relay_policy_of (Tenant_Protection t)).

Definition deployed_heartbeat (instanceID : string) (startedAt : Z) (t : TenantConfig)
    (c : heartbeatClient) : Prop :=
  Heartbeat_tenant c = t ∧ Heartbeat_instanceID c = instanceID ∧ Heartbeat_startedAt c = startedAt ∧
  Heartbeat_keyID c = HMACKey_KID (Heartbeat_Key (heartbeat_of t)) ∧
  resolve (HMACKey_SecretRef (Heartbeat_Key (heartbeat_of t))) = Ok (Heartbeat_secret c).

Definition relay_tenants (cfg : Config) : list TenantConfig :=
  List.filter (λ t, Relay_Enabled (relay_of t)) (Config_Tenants cfg).
Definition heartbeat_tenants (cfg : Config) : list TenantConfig :=
  List.filter (λ t, Heartbeat_Enabled (heartbeat_of t)) (Config_Tenants cfg).

(** What [serve] puts together for a configuration. *)
Definition deployed (cfg : Config) (instanceID : string) (startedAt now : Z) (d : deployment) : Prop :=
  Deploy_InstanceID d = instanceID ∧
  deployed_runtimes (Config_Tenants cfg) (Deploy_Runtimes d) ∧
  Forall2 (deployed_relay instanceID startedAt now) (relay_tenants cfg) (Deploy_Relays d) ∧
  Forall2 (deployed_heartbeat instanceID startedAt) (heartbeat_tenants cfg) (Deploy_Heartbeats d) ∧
  Deploy_Handler d = NewHandler wordwarden_version (Runtime_Gateway <$> Deploy_Runtimes d)
                       (Server_ExposeOperations (Config_Server cfg)).

(** ** Runtimes *)

Lemma tenant_secret_ok t what r value : tenant_secret t what r = Ok value ↔ r = Ok value.
Proof. destruct r; naive_solver. Qed.

Lemma previous_key_ok t k :
  previous_key getenv readFile t = Ok k ↔
  deployed_previous (HMACKeys_Previous (Authrim_HMACKeys (Tenant_Authrim t))) k.
Proof.
  unfold previous_key, deployed_previous, deployed_key.
  destruct (HMACKeys_Previous _) as [c|]; [|destruct k; naive_solver].
  rewrite result_bind_ok. setoid_rewrite tenant_secret_ok. split.
  - by intros (secret & Hs & [= <-]).
  - destruct k as [[kid secret]|]; [|done]. simpl. intros [-> Hs]. by exists secret.
Qed.

Lemma build_runtime_ok t r : build_runtime getenv readFile t = Ok r ↔ deployed_runtime t r.
Proof.
  unfold build_runtime, deployed_runtime, deployed_key. split.
  - intros Hb. apply result_bind_ok in Hb as (active & Ha%tenant_secret_ok & Hb).
    apply result_bind_ok in Hb as (previous & Hp%previous_key_ok & Hb).
    apply result_bind_ok in Hb as (audit & Hh%tenant_secret_ok & Hb).
    apply result_bind_ok in Hb as (bind & Hd%tenant_secret_ok & [= <-]). by split_and!.
  - destruct r as [[tid cid [[[kid active] previous] skew] audit limit timeout storm] d]. simpl.
    intros (-> & -> & (-> & [-> Ha] & Hp) & Hh & -> & -> & -> & Hd & Heq).
    rewrite !result_bind_ok. exists active. split; [by apply tenant_secret_ok|].
    rewrite result_bind_ok. exists previous. split; [by apply previous_key_ok|].
    rewrite result_bind_ok. exists audit. split; [by apply tenant_secret_ok|].
    rewrite result_bind_ok. exists (Client_BindPassword d). split; [by apply tenant_secret_ok|].
    by rewrite <-Heq.
Qed.

Lemma deployed_runtime_unique t r r' : deployed_runtime t r → deployed_runtime t r' → r = r'.
Proof. intros Hr%build_runtime_ok Hr'%build_runtime_ok. congruence. Qed.

Lemma optional_resolves raw :
  (∃ value, resolve_optional raw = Ok value) ↔ (raw ≠ "" → resolves raw).
Proof.
  unfold resolveOptionalSecretBytes, resolves. destruct (String.eqb_spec raw ""); naive_solver.
Qed.

Lemma runtime_exists t :
  (∃ r, deployed_runtime t r) ↔
  resolves (HMACKey_SecretRef (active_key t)) ∧
  (∀ k, HMACKeys_Previous (Authrim_HMACKeys (Tenant_Authrim t)) = Some k → resolves (HMACKey_SecretRef k)) ∧
  resolves (Authrim_AuditHashSecretRef (Tenant_Authrim t)) ∧
  (LDAP_BindPasswordRef (Tenant_LDAP t) ≠ "" → resolves (LDAP_BindPasswordRef (Tenant_LDAP t))).
Proof.
  rewrite <-optional_resolves. split.
  - intros (r & _ & _ & (_ & [_ Ha] & Hp) & Hh & _ & _ & _ & Hd & _). split_and!; [by eexists| |by eexists|by eexists].
    intros k Hk. rewrite Hk in Hp. destruct (Previous _); [|done]. destruct Hp as [_ Hp]. by eexists.
  - intros ([active Ha] & Hp & [audit Hh] & [bind Hd]).
    assert (Hprev : ∃ k, deployed_previous (HMACKeys_Previous (Authrim_HMACKeys (Tenant_Authrim t))) k).
    { destruct (HMACKeys_Previous _) as [c|]; [|by exists None].
      destruct (Hp c eq_refl) as [secret Hs]. by exists (Some {| KID := HMACKey_KID c; Secret := secret |}). }
    destruct Hprev as [previous Hprev].
    exists {| Runtime_Gateway := {|
        Runtime_TenantID := Tenant_TenantID t; Runtime_ConnectorID := Tenant_ConnectorID t;
        HMACVerifier := NewVerifier {|
          Active := {| KID := HMACKey_KID (active_key t); Secret := active |}; Previous := previous |};
        AuditHashSecret := audit;
        ConcurrencyLimit := Protection_MaxConcurrentRequests (Tenant_Protection t);
        RequestTimeoutMS := Timeout_RequestMS (Tenant_Timeouts t);
        StormProtection := storm_policy (Tenant_Protection t) |};
      Runtime_Directory := NewClient (Tenant_LDAP t) bind (Tenant_Timeouts t) |}.
    by split_and!.
Qed.

Lemma build_runtimes_lookup ts acc m :
  NoDup (Tenant_ConnectorID <$> ts) → build_runtimes getenv readFile ts acc = Ok m →
  Forall (λ t, ∃ r, deployed_runtime t r ∧ m !! Tenant_ConnectorID t = Some r) ts ∧
  (∀ c, c ∉ Tenant_ConnectorID <$> ts → m !! c = acc !! c).
Proof.
  revert acc. induction ts as [|t ts IH]; intros acc Hdup Hb; [by injection Hb as <-|].
  rewrite fmap_cons in *. apply NoDup_cons in Hdup as [Hnew Hdup].
  apply result_bind_ok in Hb as (r & Hr%build_runtime_ok & Hb).
  destruct (IH _ Hdup Hb) as [Hts Hrest]. split.
  - constructor; [|done]. exists r. split; [done|]. by rewrite Hrest, lookup_insert_eq.
  - intros c Hc. apply not_elem_of_cons in Hc as [Hne Hc]. by rewrite Hrest, lookup_insert_ne.
Qed.

Lemma build_runtimes_total ts acc :
  Forall (λ t, ∃ r, deployed_runtime t r) ts → ∃ m, build_runtimes getenv readFile ts acc = Ok m.
Proof.
  intros Hts. revert acc. induction Hts as [|t ts [r Hr%build_runtime_ok] _ IH]; intros acc; [by eexists|].
  simpl. rewrite Hr. simpl. apply IH.
Qed.

Lemma deployed_runtimes_unique ts m m' : deployed_runtimes ts m → deployed_runtimes ts m' → m = m'.
Proof.
  intros [Hts Hrest] [Hts' Hrest']. apply map_eq. intros c.
  destruct (decide (c ∈ Tenant_ConnectorID <$> ts)) as [Hin|Hout]; [|by rewrite Hrest, Hrest'].
  apply list_elem_of_fmap in Hin as (t & -> & Hin). rewrite Forall_forall in Hts, Hts'.
  destruct (Hts t Hin) as (r & Hr & ->), (Hts' t Hin) as (r' & Hr' & ->).
  f_equal. by apply (deployed_runtime_unique t).
Qed.

Lemma runtimes_ok cfg m :
  NoDup (Tenant_ConnectorID <$> Config_Tenants cfg) →
  buildTenantRuntimes getenv readFile cfg = Ok m ↔ deployed_runtimes (Config_Tenants cfg) m.
Proof.
  intros Hdup. assert (Hbuilt : ∀ m, buildTenantRuntimes getenv readFile cfg = Ok m →
    deployed_runtimes (Config_Tenants cfg) m) by (intros m' Hb; by apply build_runtimes_lookup in Hb).
  split; [apply Hbuilt|]. intros Hm.
  destruct (build_runtimes_total (Config_Tenants cfg) ∅) as [m' Hm'].
  { destruct Hm as [Hts _]. eapply Forall_impl; [done|]. intros t (r & Hr & _). by exists r. }
  by rewrite <-(deployed_runtimes_unique _ m' m) by auto.
Qed.

Lemma runtimes_exist cfg :
  NoDup (Tenant_ConnectorID <$> Config_Tenants cfg) →
  Forall (λ t, ∃ r, deployed_runtime t r) (Config_Tenants cfg) →
  ∃ m, deployed_runtimes (Config_Tenants cfg) m.
Proof.
  intros Hdup Hts. destruct (build_runtimes_total _ ∅ Hts) as [m Hm]. exists m.
  by apply runtimes_ok.
Qed.

(** ** Clients *)

Lemma started_relays f ts cs :
  started (start_relays f ts) = Ok cs ↔
  Forall2 (λ t c, f t = Ok c) (List.filter (λ t, Relay_Enabled (relay_of t)) ts) cs.
Proof.
  unfold started. revert cs. induction ts as [|t ts IH]; intros cs; simpl.
  { split; [by intros [= <-]|]. by intros ->%Forall2_nil_inv_l. }
  unfold relay_of at 1. destruct (Relay_Enabled _); simpl; [|apply IH].
  destruct (f t) as [c|err] eqn:Hf; simpl.
  2: { split; [done|]. intros (? & ? & ? & _)%Forall2_cons_inv_l. congruence. }
  destruct (start_relays f ts) as [clients [err|]]; simpl in *.
  - split; [done|]. intros (c' & cs' & _ & Hcs%IH & _)%Forall2_cons_inv_l. done.
  - split.
    + intros [= <-]. constructor; [done|]. by apply IH.
    + intros (c' & cs' & Hc & Hcs%IH & ->)%Forall2_cons_inv_l. congruence.
Qed.

Lemma started_heartbeats id at_ ts cs :
  started (start_heartbeats getenv readFile id at_ ts) = Ok cs ↔
  Forall2 (deployed_heartbeat id at_) (List.filter (λ t, Heartbeat_Enabled (heartbeat_of t)) ts) cs.
Proof.
  unfold started. revert cs. induction ts as [|t ts IH]; intros cs; simpl.
  { split; [by intros [= <-]|]. by intros ->%Forall2_nil_inv_l. }
  destruct (Heartbeat_Enabled (heartbeat_of t)); simpl; [|apply IH].
  destruct (resolve (HMACKey_SecretRef (Heartbeat_Key (heartbeat_of t)))) as [secret|e] eqn:Hs; simpl.
  2: { split; [done|]. intros (? & ? & (_ & _ & _ & _ & Hh) & _)%Forall2_cons_inv_l. congruence. }
  destruct (start_heartbeats getenv readFile id at_ ts) as [clients [err|]]; simpl in *.
  - split; [done|]. intros (c' & cs' & _ & Hcs%IH & _)%Forall2_cons_inv_l. done.
  - split.
    + intros [= <-]. constructor; [done|]. by apply IH.
    + intros ([t' i' s' k' x'] & cs' & (Hc & Hi & Ha & Hk & Hx) & Hcs%IH & ->)%Forall2_cons_inv_l.
      simpl in *. subst. rewrite Hs in Hx. congruence.
Qed.

Lemma valid_tenant_names t :
  valid_tenant t →
  Tenant_TenantID t ≠ "" ∧ Tenant_ConnectorID t ≠ "" ∧ HMACKey_KID (active_key t) ≠ "".
Proof. intros (Ht & (id & -> & _) & [Hk _] & _). by split_and!. Qed.

(** A relay URL that was accepted by the validator is one the client accepts. *)
Lemma valid_relay_url t :
  valid_tenant t → Relay_Enabled (relay_of t) = true →
  relay_url (Relay_URL (relay_of t)) (Tenant_TenantID t) (Tenant_ConnectorID t).
Proof.
  intros (_ & _ & _ & _ & _ & Hrelay & _) Hon.
  destruct (Hrelay Hon) as [(u & tenant & connector & Hu & _ & Hs & Hids) _]. by exists u, tenant, connector.
Qed.

Section relay.
Variables (runtimes : gmap string tenantRuntime) (instanceID : string) (startedAt now : Z).
Hypothesis named : instanceID ≠ "".

Lemma relay_fields t c r secret :
  deployed_runtime t r → valid_tenant t →
  c = {| Relay_Config := relay_defaults (relay_config t r instanceID startedAt secret) now;
         Relay_Limit := if ConcurrencyLimit (Runtime_Gateway r) <=? 0 then 8
                        else ConcurrencyLimit (Runtime_Gateway r);
         Relay_Replay := newRelayReplayCache (5 * Minute);
         Relay_Storms := newRelayStorms (relay_policy_of (Tenant_Protection t)) |} ↔
  Relay_Config c = relay_defaults (relay_config t r instanceID startedAt secret) now ∧
  Relay_Limit c = Protection_MaxConcurrentRequests (Tenant_Protection t) ∧
  Relay_Replay c = newRelayReplayCache (5 * Minute) ∧
  Relay_Storms c = newRelayStorms (relay_policy_of (Tenant_Protection t)).
Proof.
  intros (_ & _ & _ & _ & Hlimit & _) (_ & _ & _ & _ & _ & _ & _ & _ & _ & Hpos & _).
  rewrite Hlimit, (proj2 (Z.leb_gt _ _) Hpos). destruct c. simpl. split; [by intros [= -> -> -> ->]|].
  by intros (-> & -> & -> & ->).
Qed.

Lemma relay_exists t :
  valid_tenant t → Relay_Enabled (relay_of t) = true → (∃ r, deployed_runtime t r) →
  (∃ c, deployed_relay instanceID startedAt now t c) ↔
  resolves (HMACKey_SecretRef (active_key t)) ∧ resolve (HMACKey_SecretRef (active_key t)) ≠ Ok "".
Proof.
  intros Hvalid Hon [r Hr]. split.
  - intros (c & _ & secret & _ & Hs & Hne & _). split; [by exists secret|]. by rewrite Hs; intros [= ->].
  - intros [[secret Hs] Hne].
    exists {| Relay_Config := relay_defaults (relay_config t r instanceID startedAt secret) now;
              Relay_Limit := Protection_MaxConcurrentRequests (Tenant_Protection t);
              Relay_Replay := newRelayReplayCache (5 * Minute);
              Relay_Storms := newRelayStorms (relay_policy_of (Tenant_Protection t)) |}.
    exists r, secret. split_and!; try done; [by intros ->|]. by apply valid_relay_url.
Qed.

Lemma start_relay_ok t r c :
  valid_tenant t → Relay_Enabled (relay_of t) = true →
  deployed_runtime t r → runtimes !! Tenant_ConnectorID t = Some r →
  start_relay getenv readFile runtimes instanceID startedAt now t = Ok c ↔
  deployed_relay instanceID startedAt now t c.
Proof.
  intros Hvalid Hon Hr Hm. unfold start_relay. rewrite Hm, result_bind_ok. unfold deployed_relay.
  destruct (valid_tenant_names t Hvalid) as (Htenant & Hconnector & Hkey).
  pose proof (valid_relay_url t Hvalid Hon) as Hurl. split.
  - intros (secret & Hs%tenant_secret_ok & Hnew). exists r, secret.
    destruct (NewRelayClient _ now) as [c'|] eqn:Hc; [injection Hnew as ->|done].
    apply NewRelayClient_ok in Hc as ((_ & _ & _ & _ & Hsecret & _) & _ & Hc).
    apply (relay_fields t) in Hc as (Hconfig & Hlimit & Hrep & Hstorm); [|done..]. rewrite Hconfig. by split_and!.
  - intros (r' & secret & Hr' & Hs & Hsecret & Hconfig & _ & Hrest).
    rewrite (deployed_runtime_unique t r' r) in Hconfig by done.
    exists secret. split; [by apply tenant_secret_ok|].
    rewrite (proj2 (NewRelayClient_ok _ now c)); [done|]. unfold complete_config. split_and!; try done.
    by apply (relay_fields t).
Qed.

Lemma relays_ok ts cs :
  Forall valid_tenant ts → deployed_runtimes ts runtimes →
  started (start_relays (start_relay getenv readFile runtimes instanceID startedAt now) ts) = Ok cs ↔
  Forall2 (deployed_relay instanceID startedAt now)
    (List.filter (λ t, Relay_Enabled (relay_of t)) ts) cs.
Proof.
  intros Hvalid [Hts _]. rewrite started_relays. apply Forall2_iff_l.
  intros t [Hin Hon]%list_filter_elem c. rewrite Forall_forall in Hts, Hvalid.
  destruct (Hts t Hin) as (r & Hr & Hm). apply (start_relay_ok t r); auto.
Qed.
End relay.

(** ** The start *)

Section serve.
Context `{UnicodeTables}.
Variables (cfg : Config) (startedAt now : Z).
Hypothesis valid : valid_config cfg.

Lemma valid_tenants : Forall valid_tenant (Config_Tenants cfg).
Proof. apply valid. Qed.

Lemma distinct_connectors : NoDup (Tenant_ConnectorID <$> Config_Tenants cfg).
Proof. apply valid. Qed.

Lemma serve_start_ok raw instanceID d :
  load raw = Ok cfg → instanceID ≠ "" →
  serve_start getenv readFile raw (Ok instanceID) startedAt now = Ok d ↔
  deployed cfg instanceID startedAt now d.
Proof.
  intros Hload Hid. unfold serve_start, deployed. rewrite Hload. rewrite result_bind_ok. split.
  - intros (m & Hm%runtimes_ok & Hrest); [|apply distinct_connectors].
    apply result_bind_ok in Hrest as (relays & Hrelays & Hrest).
    apply result_bind_ok in Hrest as (hearts & Hhearts%started_heartbeats & [= <-]).
    apply relays_ok in Hrelays; [|done|apply valid_tenants|done]. by split_and!.
  - intros (Hi & Hm & Hrelays & Hhearts & Hh). destruct d as [m i relays hearts h]. simpl in *. subst i h.
    exists m. split; [apply runtimes_ok; [apply distinct_connectors|done]|].
    rewrite result_bind_ok. exists relays. split; [apply relays_ok; [done|apply valid_tenants|done..]|].
    rewrite result_bind_ok. exists hearts. by split; [apply started_heartbeats|].
Qed.

Lemma deployed_exists instanceID :
  (∃ d, deployed cfg instanceID startedAt now d) ↔ Forall secrets_resolve (Config_Tenants cfg).
Proof.
  pose proof valid_tenants as Hvalid. rewrite Forall_forall in Hvalid. split.
  - intros (d & _ & [Hts _] & Hrelays & Hhearts & _).
    assert (Hr : Forall (λ t, ∃ c, deployed_relay instanceID startedAt now t c) (relay_tenants cfg))
      by (apply Forall2_exists_r; by eexists).
    assert (Hh : Forall (λ t, ∃ c, deployed_heartbeat instanceID startedAt t c) (heartbeat_tenants cfg))
      by (apply Forall2_exists_r; by eexists).
    rewrite Forall_forall in Hr, Hh, Hts. apply Forall_forall. intros t Hin.
    destruct (Hts t Hin) as (r & Hrun & _).
    pose proof (proj1 (runtime_exists t) (ex_intro _ r Hrun)) as (Ha & Hp & Haudit & Hbind).
    split_and!; [done..| |].
    + intros Hon. apply (relay_exists instanceID startedAt now t); [by apply Hvalid|done|by exists r|].
      apply Hr. by apply list_filter_elem.
    + intros Hon. destruct (Hh t) as (c & _ & _ & _ & _ & Hc); [by apply list_filter_elem|]. by eexists.
  - intros Hres. rewrite Forall_forall in Hres.
    assert (Hrun : ∀ t, t ∈ Config_Tenants cfg → ∃ r, deployed_runtime t r).
    { intros t Hin. destruct (Hres t Hin) as (Ha & Hp & Haudit & Hbind & _). by apply runtime_exists. }
    destruct (runtimes_exist cfg distinct_connectors) as [m Hm]; [by apply Forall_forall|].
    destruct (proj2 (Forall2_exists_r (deployed_relay instanceID startedAt now) (relay_tenants cfg)))
      as [relays Hrelays].
    { apply Forall_forall. intros t [Hin Hon]%list_filter_elem.
      destruct (Hres t Hin) as (Ha & _ & _ & _ & Hrelay & _). apply relay_exists; auto. }
    destruct (proj2 (Forall2_exists_r (deployed_heartbeat instanceID startedAt) (heartbeat_tenants cfg)))
      as [hearts Hhearts].
    { apply Forall_forall. intros t [Hin Hon]%list_filter_elem.
      destruct (Hres t Hin) as (_ & _ & _ & _ & _ & Hheart). destruct (Hheart Hon) as [secret Hs].
      by exists {| Heartbeat_tenant := t; Heartbeat_instanceID := instanceID;
                   Heartbeat_startedAt := startedAt;
                   Heartbeat_keyID := HMACKey_KID (Heartbeat_Key (heartbeat_of t));
                   Heartbeat_secret := secret |}. }
    by exists {| Deploy_Runtimes := m; Deploy_InstanceID := instanceID; Deploy_Relays := relays;
                 Deploy_Heartbeats := hearts;
                 Deploy_Handler := NewHandler wordwarden_version (Runtime_Gateway <$> m)
                                     (Server_ExposeOperations (Config_Server cfg)) |}.
Qed.
End serve.

(** C13: from a configuration that loads, [serve] starts exactly when it has an
    instance id and the secrets of every tenant resolve; what it starts is then
    what the configuration says: one runtime for each tenant under its connector
    id, with the tenant's own keys, audit secret, limits and directory, one relay
    client for each tenant with a relay, bound to the tenant's ids and holding
    its active key, one heartbeat client for each tenant with heartbeats, and a
    handler over these runtimes. *)
Theorem serve_starts `{UnicodeTables} raw cfg loaded startedAt now :
  load raw = Ok cfg → loaded ≠ Ok "" →
  ((∃ d, serve_start getenv readFile raw loaded startedAt now = Ok d) ↔
   (∃ instanceID, loaded = Ok instanceID) ∧ Forall secrets_resolve (Config_Tenants cfg)) ∧
  (∀ d, serve_start getenv readFile raw loaded startedAt now = Ok d ↔
     ∃ instanceID, loaded = Ok instanceID ∧ deployed cfg instanceID startedAt now d).
Proof.
  intros Hload Hid. pose proof Hload as [_ Hvalid]%load_ok.
  assert (Hok : ∀ d, serve_start getenv readFile raw loaded startedAt now = Ok d ↔
     ∃ instanceID, loaded = Ok instanceID ∧ deployed cfg instanceID startedAt now d).
  { intros d. destruct loaded as [instanceID|text].
    - rewrite (serve_start_ok cfg) by (try done; naive_solver). naive_solver.
    - split; [|naive_solver]. unfold serve_start. rewrite Hload.
      by intros (m & _ & ?)%result_bind_ok. }
  split; [|done]. setoid_rewrite Hok. split.
  - intros (d & instanceID & -> & Hd). split; [by eexists|].
    apply (deployed_exists cfg startedAt now Hvalid instanceID). by exists d.
  - intros [[instanceID ->] Hres]. apply (deployed_exists cfg startedAt now Hvalid instanceID) in Hres as [d Hd].
    by exists d, instanceID.
Qed.
End start.
