(* ===== verification/AppExamples.v ===== *)
(** * The application on a concrete deployment

    A configuration with one tenant that has a relay and heartbeats: it loads,
    starts, and is refused without its secrets; with the witnesses of the
    properties of starting, of heartbeats and of instance ids. *)

From S2P Require Import Prelude GoStrings GoTime Effects Config Secrets Defaults Validate ValidateProofs HmacProofs LdapData LdapExamples RelayState Heartbeat HeartbeatProofs Instance App AppProofs.
Local Open Scope Z_scope.

Definition key_ref (kid ref : string) : HMACKeyConfig := {| HMACKey_KID := kid; HMACKey_SecretRef := ref |}.

Definition example_tenant : TenantConfig := {|
  Tenant_TenantID := "tenant-a"; Tenant_ConnectorID := "wwcon_8K4M2Q9F7D3H6P1X";
  Tenant_Authrim := {|
    Authrim_HMACKeys := {| HMACKeys_Active := key_ref "k2" "env:ACTIVE";
                           HMACKeys_Previous := Some (key_ref "k1" "file:/run/previous") |};
    Authrim_AuditHashSecretRef := "env:AUDIT";
    Authrim_Relay := {| Relay_Enabled := true;
      Relay_URL := "wss://authrim.example/api/auth/directory-relay/connect/tenant-a/wwcon_8K4M2Q9F7D3H6P1X";
      Relay_ReconnectMinMS := 0; Relay_ReconnectMaxMS := 0 |};
    Authrim_Heartbeat := {| Heartbeat_Enabled := true;
      Heartbeat_URL :=
        "https://authrim.example/api/auth/directory-connectors/heartbeat/tenant-a/wwcon_8K4M2Q9F7D3H6P1X";
      Heartbeat_Transport := ""; Heartbeat_DisplayName := "office";
      Heartbeat_Key := key_ref "h1" "env:HEARTBEAT"; Heartbeat_Previous := None;
      Heartbeat_IntervalMS := 0; Heartbeat_TimeoutMS := 0 |} |};
  Tenant_LDAP := example_ldap "active_directory" "bfs_member_search" true 2;
  Tenant_Timeouts := {| Timeout_LDAPConnectMS := 0; Timeout_LDAPBindMS := 0; Timeout_LDAPSearchMS := 0;
                        Timeout_RequestMS := 0 |};
  Tenant_Protection := {| Protection_MaxConcurrentRequests := 0; Protection_StormWindowMS := 0;
    Protection_StormBlockMS := 0; Protection_MalformedRequestLimit := 0; Protection_ReplayLimit := 0;
    Protection_DirectoryErrorLimit := 0 |} |}.

Definition example_raw : Config := {|
  Config_Deployment := {| Deployment_Mode := "" |};
  Config_Server := {| Server_Listen := ""; Server_PublicBaseURL := ""; Server_ExposeOperations := false;
    Server_StateDir := ""; Server_TLS := {| ServerTLS_Enabled := false; ServerTLS_CertFileRef := "";
                                            ServerTLS_KeyFileRef := "" |} |};
  Config_Tenants := [example_tenant] |}.

Definition example_env (name : string) : option string :=
  match name with
  | "ACTIVE" => Some "active-secret" | "AUDIT" => Some "audit-secret" | "LDAP_BIND" => Some "svc-secret"
  | "HEARTBEAT" => Some "heartbeat-secret" | _ => None
  end%string.

Definition example_files (path : string) : option string :=
  if (path =? "/run/previous")%string then Some "old-secret" else None.

#[local] Existing Instance ascii_only_tables.

Lemma example_loads : load example_raw = Ok (applyDefaults example_raw).
Proof. vm_compute. reflexivity. Qed.

Lemma example_secrets :
  Forall (secrets_resolve example_env example_files) (Config_Tenants (applyDefaults example_raw)).
Proof.
  apply Forall_singleton. unfold secrets_resolve, resolves. split_and!; try (intros _).
  - exists "active-secret". vm_compute. reflexivity.
  - intros k [= <-]. exists "old-secret". vm_compute. reflexivity.
  - exists "audit-secret". vm_compute. reflexivity.
  - exists "svc-secret". vm_compute. reflexivity.
  - by vm_compute.
  - exists "heartbeat-secret". vm_compute. reflexivity.
Qed.

Lemma serve_starts_witness :
  ∃ d, serve_start example_env example_files example_raw (Ok "wwi_AAAAAAAAAAAAAAAAAAAAAA") 5 7 = Ok d.
Proof.
  apply (serve_starts example_env example_files example_raw (applyDefaults example_raw)
           (Ok "wwi_AAAAAAAAAAAAAAAAAAAAAA") 5 7 example_loads); [done|].
  split; [by eexists|apply example_secrets].
Defined.

(** The previous secret missing: nothing starts. *)
Example example_not_started :
  serve_start example_env (λ _, None) example_raw (Ok "wwi_AAAAAAAAAAAAAAAAAAAAAA") 5 7 =
  Err (SecretError "tenant-a" "previous HMAC secret" (Unresolved (Unreadable "/run/previous"))).
Proof. vm_compute. reflexivity. Qed.

(** ** Heartbeats *)

Definition example_fields : heartbeatFields := {|
  Field_TenantID := "tenant-a"; Field_ConnectorID := "wwcon_8K4M2Q9F7D3H6P1X";
  Field_InstanceID := "wwi_AAAAAAAAAAAAAAAAAAAAAA"; Field_KeyID := "h1";
  Field_Timestamp := "2026-01-01T00:00:00Z"; Field_Body := "{}" |}.

Lemma heartbeat_signature_binds_witness :
  hmac_collide "heartbeat-secret" (canonical_of example_fields) (canonical_of example_fields) ∨
  sha_collide "{}" "{}" ∨ example_fields = example_fields.
Proof.
  apply (heartbeat_signature_binds example_fields example_fields "heartbeat-secret").
  - unfold field_lines. repeat constructor.
  - unfold field_lines. repeat constructor.
  - reflexivity.
Defined.

(** ** The instance id *)

Definition example_random : Vector.t ascii 16 := Vector.const "a"%char 16.

Lemma instance_id_stable_witness :
  ∃ id, instanceIDPattern id = true ∧
    run (disk_step example_random) (loadOrCreateInstanceID "/var/lib/wordwarden") ∅ =
      (Ok id, {["/var/lib/wordwarden/instance_id" := id +:+ newline]}).
Proof.
  destruct (instance_id_stable "/var/lib/wordwarden" ∅ example_random example_random)
    as (id & Hid & Hrun & _); [by vm_compute|].
  exists id. split; [exact Hid|exact Hrun].
Defined.
