(* ===== verification/Serving.v ===== *)
(** * Handlers over a directory client

    The handlers ask the directory with one effect; here that effect is the
    client's own program.  An effect of the composition is the handler's, or the
    client's in a call for a connector. *)

From S2P Require Import Prelude Effects Directory.

(** [AtClient connector timeout q e]: [e], in the call for [q] on the client of
    [connector], whose context ends after [timeout]. *)
Inductive serving (E F : Type → Type) : Type → Type :=
| AtHandler R (e : E R) : serving E F R
| AtClient R (connector : string) (timeout : Z) (q : VerifyPasswordRequest) (e : F R) : serving E F R.
Arguments AtHandler {E F R} e.
Arguments AtClient {E F R} connector timeout q e.

(** What the handler did so far, and the state of the client's call. *)
Record served (E : Type → Type) (S : Type) := { seen : list (entry E); talk : S }.
Arguments seen {E S}.
Arguments talk {E S}.

Section serving.
Context {E F : Type → Type} {S : Type} {client : DirectoryClient F S}.

(** The effects by which the handler asks the directory. *)
Variable asks : ∀ R, E R → bool.

(** The handler's other effects may be answered as the environment likes; those
    of the client keep to its policy. *)
Definition serving_spec (R : Type) (e : serving E F R) : (R → served E S → Prop) → served E S → Prop :=
  match e in serving _ _ R return (R → served E S → Prop) → served E S → Prop with
  | @AtHandler _ _ R e => λ Q s,
      asks R e = false ∧ ∀ r, Q r {| seen := seen s ++ [existT R (e, r)]; talk := talk s |}
  | AtClient c _ q e => λ Q s,
      client_policy c q _ e (λ r t, Q r {| seen := seen s; talk := t |}) (talk s)
  end.

(** A call on the client, as the handler's composition performs it. *)
Definition client_call (c : string) (timeout : Z) (q : VerifyPasswordRequest)
    : prog (serving E F) (result error VerifyPasswordResult) :=
  inline (λ R e, call (AtClient c timeout q e)) (client_verify c q).

Context {contract : DirectoryContract client}.

Lemma serving_spec_mono R (e : serving E F R) (P Q : R → served E S → Prop) s :
  (∀ r s', P r s' → Q r s') → serving_spec R e P s → serving_spec R e Q s.
Proof.
  intros HPQ. destruct e; simpl; [naive_solver|]. apply client_policy_mono. auto.
Qed.

Lemma client_call_sound c timeout q seen Q :
  (∀ r t, client_released t → (∀ v, r = Ok v → IsSuccess v = true → client_evidence c q v t) →
          Q r {| seen := seen; talk := t |}) →
  wp serving_spec (client_call c timeout q) Q {| seen := seen; talk := client_idle |}.
Proof.
  intros HQ. apply (wp_embed (λ R e, AtClient c timeout q e) (λ t, {| seen := seen; talk := t |})
                      (client_policy c q)).
  - apply client_policy_mono.
  - done.
  - eapply wp_mono; [apply client_policy_mono| |apply client_sound]. simpl. naive_solver.
Qed.

(** ** A handler that asks at most once *)

(** The call an entry of the handler's trace makes, with its answer, and what the
    composition does for an effect. *)
Variable call_of : entry E → option (string * VerifyPasswordRequest * result error VerifyPasswordResult).
Variable perform : ∀ R, E R → prog (serving E F) R.

Definition calls (tr : list (entry E)) := omap call_of tr.
Definition own (x : entry E) : bool := let 'existT R (e, _) := x in negb (asks R e).

(** The state after the handler did [tr]. *)
Definition linked (tr : list (entry E)) (s : served E S) : Prop :=
  seen s = List.filter own tr ∧ client_released (talk s) ∧
  (calls tr = [] → talk s = client_idle) ∧
  ∀ c q v, (c, q, Ok v) ∈ calls tr → IsSuccess v = true → client_evidence c q v (talk s).

Definition asked_once (tr : list (entry E)) : Prop := (length (calls tr) ≤ 1)%nat.

Lemma calls_app tr tr' : calls (tr ++ tr') = calls tr ++ calls tr'.
Proof. apply omap_app. Qed.

Lemma asked_once_prefix tr tr' : asked_once (tr ++ tr') → asked_once tr.
Proof. unfold asked_once. rewrite calls_app, length_app. lia. Qed.

Hypothesis perform_own : ∀ R (e : E R), asks R e = false →
  perform R e = call (AtHandler e) ∧ ∀ r, call_of (existT R (e, r)) = None.
Hypothesis perform_call : ∀ R (e : E R), asks R e = true →
  ∃ c q, inhabited R ∧ (∀ r, ∃ a, call_of (existT R (e, r)) = Some (c, q, a)) ∧
    ∀ seen (Q : R → served E S → Prop),
      (∀ r t, client_released t →
         (∀ v, call_of (existT R (e, r)) = Some (c, q, Ok v) → IsSuccess v = true → client_evidence c q v t) →
         Q r {| seen := seen; talk := t |}) →
      wp serving_spec (perform R e) Q {| seen := seen; talk := client_idle |}.

Lemma linked_step tr R (e : E R) s :
  linked tr s → (∀ r, asked_once (tr ++ [existT R (e, r)])) →
  wp serving_spec (perform R e) (λ r s', linked (tr ++ [existT R (e, r)]) s') s.
Proof.
  intros (Hseen & Hrel & Hidle & Hev) Hsafe. unfold linked. destruct (asks R e) eqn:Hasks.
  - destruct (perform_call R e Hasks) as (c & q & [r0] & Hcall & Hperform).
    assert (Hnone : calls tr = []).
    { specialize (Hsafe r0). destruct (Hcall r0) as [a Ha].
      unfold asked_once in Hsafe. rewrite calls_app, length_app in Hsafe. simpl in Hsafe. rewrite Ha in Hsafe.
      destruct (calls tr); [done|]. simpl in Hsafe. lia. }
    destruct s as [sn t]. simpl in *. rewrite (Hidle Hnone). apply Hperform. intros r t' Hrel' Hev'.
    destruct (Hcall r) as [a Ha]. rewrite List.filter_app, calls_app, Hnone. simpl. rewrite Hasks, Ha, app_nil_r.
    split_and!; [done..|]. intros c' q' v [= <- <- <-]%list_elem_of_singleton. by apply Hev'.
  - destruct (perform_own R e Hasks) as [-> Hnone]. split; [done|]. intros r. cbn [wp seen talk].
    rewrite List.filter_app, calls_app. simpl. rewrite Hasks, Hnone, Hseen, !app_nil_r. by split_and!.
Qed.

(** What holds of the traces of a handler that asks at most once holds of the
    composition, with the client's evidence for what it vouched for. *)
Lemma serving_sound {A} (p : prog E A) (P : list (entry E) → A → Prop) :
  answering p → always p (λ tr a, asked_once tr ∧ P tr a) →
  wp serving_spec (inline perform p)
    (λ a s, ∃ tr, seen s = List.filter own tr ∧ client_released (talk s) ∧ P tr a ∧
       ∀ c q v, (c, q, Ok v) ∈ calls tr → IsSuccess v = true → client_evidence c q v (talk s))
    {| seen := []; talk := client_idle |}.
Proof.
  intros Hans Hp. eapply wp_mono; [apply serving_spec_mono| |
    apply (wp_inline_always perform serving_spec serving_spec_mono linked asked_once
             asked_once_prefix linked_step A p P [])].
  - intros a s (tr & (Hseen & Hrel & _ & Hev) & HP). by exists tr.
  - exact Hans.
  - exact Hp.
  - split_and!; [done|apply client_idle_released|done|]. intros c q v Hin. by apply not_elem_of_nil in Hin.
Qed.
End serving.
