(* ===== verification/ServeHttp.v ===== *)
(** * The gateway over a directory client

    The handler of the verification endpoint with the directory client's own
    effects in place of the call: what a client of the gateway is told rests on
    the client's evidence. *)

From S2P Require Import Prelude GoStrings Effects Directory Metrics Hmac HttpApi HttpTraces Serving.
Local Open Scope Z_scope.

Section gateway.
Context `{UnicodeTables} {F : Type → Type} {S : Type} {client : DirectoryClient F S}.

Definition asks_directory (R : Type) (e : effect R) : bool :=
  match e with VerifyDirectory _ _ _ => true | _ => false end.

Definition serve_effect (R : Type) (e : effect R) : prog (serving effect F) R :=
  match e in effect R return prog (serving effect F) R with
  | VerifyDirectory c timeout q => client_call c timeout q
  | e => call (AtHandler e)
  end.

Definition serve_verify (h : handler) (req : Request) : prog (serving effect F) unit :=
  inline serve_effect (verifyPassword h req).

Abbreviation gateway_spec := (serving_spec asks_directory).

Lemma effect_inhabited R (e : effect R) : inhabited R.
Proof.
  destruct e; constructor;
    (exact 0 || exact true || exact tt || exact "" || exact newMetricsStore || exact (Err (OtherError ""))).
Qed.

Lemma serve_own R (e : effect R) :
  asks_directory R e = false →
  serve_effect R e = call (AtHandler e) ∧ ∀ r, directory_call_of (existT R (e, r)) = None.
Proof. by destruct e. Qed.

Lemma serve_call {contract : DirectoryContract client} R (e : effect R) :
  asks_directory R e = true →
  ∃ c q, inhabited R ∧ (∀ r, ∃ a, directory_call_of (existT R (e, r)) = Some (c, q, a)) ∧
    ∀ seen (Q : R → served effect S → Prop),
      (∀ r t, client_released t →
         (∀ v, directory_call_of (existT R (e, r)) = Some (c, q, Ok v) → IsSuccess v = true →
               client_evidence c q v t) →
         Q r {| seen := seen; talk := t |}) →
      wp gateway_spec (serve_effect R e) Q {| seen := seen; talk := client_idle |}.
Proof.
  destruct e as [| | | | | | | | | |c timeout q| |]; try done. intros _. exists c, q.
  split; [constructor; exact (Err (OtherError ""))|]. split; [by eexists|].
  intros seen Q HQ. apply client_call_sound; [done|]. intros r t Ht Hev. apply HQ; [done|]. intros v [= ->]. auto.
Qed.

Lemma own_responses tr : responses (List.filter (own asks_directory) tr) = responses tr.
Proof.
  unfold responses. induction tr as [|[R [e r]] tr IH]; [done|]. destruct e; simpl; try apply IH.
  f_equal. apply IH.
Qed.

(** ** What a success rests on *)

Definition credentials (b : verifyPasswordRequest) : VerifyPasswordRequest := {|
  Verify_Username := Body_Username b; Verify_Password := Body_Password b;
  Verify_AttributeNames := Body_AttributeNames b |}.

(** The request was authentic, its body decodes to [b] and matches, and the
    client has evidence for the answer that the response carries. *)
Definition vouched (h : handler) (req : Request) (s : served effect S) (v : verifyPasswordResponse) : Prop :=
  ∃ runtime now verification body b answer,
    authentic h req runtime now verification body ∧ decodeBody body = Some b ∧
    matches runtime verification b ∧ IsSuccess answer = true ∧
    client_evidence (connector_of req) (credentials b) answer (talk s) ∧
    VerifyPasswordResponse v =
      verify_response b "success" ""
        (Some {| Response_DirectoryID := DirectoryID (Verify_Subject answer);
                 Response_Username := Subject_Username (Verify_Subject answer) |})
        (Verify_Attributes answer) (groupFactResponses (Verify_GroupFacts answer)).

Context {contract : DirectoryContract client}.

Lemma serve_verify_sound h req :
  configured h →
  wp gateway_spec (serve_verify h req)
    (λ _ s, client_released (talk s) ∧
       ∀ status v, (status, VerifyPasswordResponse v) ∈ responses (seen s) →
         Response_Result v = CredentialResultSuccess → vouched h req s v)
    {| seen := []; talk := client_idle |}.
Proof.
  intros Hconf. pose proof (serving_spec_mono asks_directory) as Hmono.
  eapply wp_mono; [exact Hmono| |apply (serving_sound asks_directory directory_call_of serve_effect
    serve_own serve_call (verifyPassword h req) (λ tr _, ∀ status v,
       (status, VerifyPasswordResponse v) ∈ responses tr →
       Response_Result v = CredentialResultSuccess → success_evidence h req tr v))].
  - intros [] s (tr & Hseen & Hrel & Hsuccess & Hcalls). split; [done|].
    intros status v. rewrite Hseen, own_responses. intros Hin Hv.
    destruct (Hsuccess status v Hin Hv) as (rt & now & ver & body & b & answer & Ha & Hb & Hm & _ & Hdir & His & Hr).
    exists rt, now, ver, body, b, answer. split_and!; try done. apply Hcalls; [|done].
    unfold calls. unfold directory_calls in Hdir. rewrite Hdir. by left.
  - apply answering_all, effect_inhabited.
  - eapply always_mono; [|apply always_and; [apply success_rests|apply disciplined_configured, Hconf]].
    intros tr a [Hs [_ Hone]]. by split_and!.
Qed.
End gateway.
