(* ===== verification/ServeLdap.v ===== *)
(** * Serving a deployment: from the configuration to the directory

    The LDAP clients of a deployment discharge the contract of the handlers'
    directory client, so what the gateway answers is traced back to the
    configuration that was loaded and to what the tenant's own directory
    accepted. *)

From S2P Require Import Prelude GoStrings Effects Config Defaults Validate ValidateProofs Username Directory Hmac HttpApi HttpTraces LdapData Ldap LdapSpec LdapProofs Serving ServeHttp App AppProofs.
Local Open Scope Z_scope.

(** ** The LDAP clients as directory client *)

Section ldap.
Context `{UnicodeTables} `{LdapLibrary}.
Variable nfkc : string → string.
Variable budget : nat.
Variable clients : gmap string Client.

(** A connector without a client is never asked. *)
#[local] Instance ldap_directory : DirectoryClient Ldap.effect ghost := {|
  client_verify connector q :=
    match clients !! connector with
    | Some c => VerifyPassword nfkc budget c q
    | None => Ret (Err (OtherError "no directory client"))
    end;
  client_policy connector q R e Q s :=
    match clients !! connector with
    | Some c => ldap_spec c (Verify_Password q) R e Q s
    | None => False
    end;
  client_idle := idle;
  client_released s := conns s = ∅;
  client_evidence connector q v s :=
    ∃ c processed,
      clients !! connector = Some c ∧
      Preprocess nfkc (Verify_Username q) (LDAP_Username (Client_Config c)) = Ok processed ∧
      bind_evidence c (Verify_Password q) (Value processed) v (accepted s) (answered s) ∧
      release_allowed c (Verify_AttributeNames q) v;
|}.

#[local] Instance ldap_contract :
  map_Forall (λ _ c, valid_ldap (Client_Config c)) clients → DirectoryContract ldap_directory.
Proof.
  intros Hvalid. constructor; simpl.
  - intros connector q R e P Q s HPQ. destruct (clients !! connector); [|done]. by apply ldap_spec_mono.
  - done.
  - intros connector q. destruct (clients !! connector) as [c|] eqn:Hc; [|done].
    pose proof (VerifyPassword_ensures nfkc budget c (Hvalid _ _ Hc) q) as Hq.
    eapply ensures_mono in Hq; [exact Hq|]. intros r s [Hconns Hs]. split; [done|].
    intros v Hv His. destruct (Hs v Hv His) as (processed & Hp & Hok). exists c, processed.
    split_and!; [done|done|by apply Hok..].
Qed.
End ldap.

(** ** The gateway of a deployment *)

Section deployment.
Context `{UnicodeTables} `{LdapLibrary}.
Variable nfkc : string → string.
Variable budget : nat.
Variable getenv readFile : string → option string.

(** The clients of the deployment, by connector. *)
Definition directories (d : deployment) : gmap string Client := Runtime_Directory <$> Deploy_Runtimes d.

(** A verification request to the deployment, down to the effects on its
    directories. *)
Definition serve_request (d : deployment) (req : Request) : prog (serving HttpApi.effect Ldap.effect) unit :=
  serve_verify (client := ldap_directory nfkc budget (directories d)) (Deploy_Handler d) req.

Definition deployment_spec (d : deployment) :=
  serving_spec (client := ldap_directory nfkc budget (directories d)) asks_directory.

(** Everything a success told to a client rests on: the request was signed with
    a key of the tenant it is for, whose secret the configuration names, and the
    tenant's directory accepted a bind with the submitted password. *)
Definition served_for (t : TenantConfig) (req : Request) (s : served HttpApi.effect ghost)
    (v : verifyPasswordResponse) : Prop :=
  ∃ r now verification body b processed answer,
    deployed_runtime getenv readFile t r ∧
    Verify (HMACVerifier (Runtime_Gateway r)) now (limited req) = Ok (verification, body) ∧
    decodeBody body = Some b ∧ matches (Runtime_Gateway r) verification b ∧
    Preprocess nfkc (Body_Username b) (LDAP_Username (Tenant_LDAP t)) = Ok processed ∧
    bind_evidence (Runtime_Directory r) (Body_Password b) (Value processed) answer
      (accepted (talk s)) (answered (talk s)) ∧
    release_allowed (Runtime_Directory r) (Body_AttributeNames b) answer ∧
    VerifyPasswordResponse v =
      verify_response b "success" ""
        (Some {| Response_DirectoryID := DirectoryID (Verify_Subject answer);
                 Response_Username := Subject_Username (Verify_Subject answer) |})
        (Verify_Attributes answer) (groupFactResponses (Verify_GroupFacts answer)).

Lemma deployed_runtime_of cfg instanceID startedAt now d c r :
  deployed getenv readFile cfg instanceID startedAt now d → Deploy_Runtimes d !! c = Some r →
  ∃ t, t ∈ Config_Tenants cfg ∧ Tenant_ConnectorID t = c ∧ deployed_runtime getenv readFile t r.
Proof.
  intros (_ & [Hts Hrest] & _) Hr.
  destruct (decide (c ∈ Tenant_ConnectorID <$> Config_Tenants cfg)) as [Hin|Hout]; [|by rewrite Hrest in Hr].
  apply list_elem_of_fmap in Hin as (t & -> & Hin). rewrite Forall_forall in Hts.
  destruct (Hts t Hin) as (r' & Hr' & Hm). rewrite Hr in Hm. injection Hm as <-. by exists t.
Qed.

Lemma deployed_client t r : deployed_runtime getenv readFile t r → Client_Config (Runtime_Directory r) = Tenant_LDAP t.
Proof. by intros (_ & _ & _ & _ & _ & _ & _ & _ & ->). Qed.

Lemma directories_valid cfg instanceID startedAt now d :
  valid_config cfg → deployed getenv readFile cfg instanceID startedAt now d →
  map_Forall (λ _ c, valid_ldap (Client_Config c)) (directories d).
Proof.
  intros (_ & _ & _ & _ & Hvalid) Hd. rewrite Forall_forall in Hvalid. intros c client Hc.
  unfold directories in Hc. rewrite lookup_fmap in Hc. apply fmap_Some in Hc as (r & Hr & ->).
  destruct (deployed_runtime_of _ _ _ _ _ _ _ Hd Hr) as (t & Hin & _ & Hrun).
  rewrite (deployed_client t r Hrun). by destruct (Hvalid t Hin) as (_ & _ & _ & _ & _ & _ & _ & Hl & _).
Qed.

(** C1: the whole way of a success.  For a configuration that loads and a
    deployment started from it, whatever the clocks, caches, audit sink and
    directories answer: serving a request closes or pools every connection it
    takes, asks the directories only what their policy allows, and if the client
    is told success, then the request names the connector of a configured tenant,
    is signed for it with a secret the tenant's configuration refers to, and that
    tenant's directory accepted, in serving this request, a bind with the
    submitted password as the one user that the submitted username, normalised,
    resolves to; the response carries that subject, and attributes and groups
    within the tenant's limits. *)
Theorem served_success (raw cfg : Config) (instanceID : string) (startedAt now : Z) (d : deployment)
    (req : Request) (Hload : load raw = Ok cfg) (Hid : instanceID ≠ "")
    (Hstart : serve_start getenv readFile raw (Ok instanceID) startedAt now = Ok d) :
  wp (deployment_spec d) (serve_request d req)
    (λ _ s, conns (talk s) = ∅ ∧
       ∀ status v, (status, VerifyPasswordResponse v) ∈ responses (seen s) →
         Response_Result v = CredentialResultSuccess →
         ∃ t, t ∈ Config_Tenants cfg ∧ connector_of req = Tenant_ConnectorID t ∧ served_for t req s v)
    {| seen := []; talk := idle |}.
Proof.
  pose proof Hload as [_ Hvalid]%load_ok.
  apply (serve_start_ok _ _ cfg startedAt now Hvalid) in Hstart; [|done..].
  pose proof (ldap_contract nfkc budget _ (directories_valid _ _ _ _ _ Hvalid Hstart)) as Hcontract.
  pose proof Hstart as (_ & _ & _ & _ & Hhandler).
  assert (Hconf : configured (Deploy_Handler d)) by (rewrite Hhandler; apply NewHandler_configured).
  pose proof (serve_verify_sound (client := ldap_directory nfkc budget (directories d))
                (Deploy_Handler d) req Hconf) as Hsound.
  eapply wp_mono in Hsound; [exact Hsound|apply serving_spec_mono, Hcontract|].
  intros [] s [Hconns Hs]. split; [done|]. intros status v Hin Hv.
  destruct (Hs status v Hin Hv) as (g & at_ & ver & body & b & answer & [Hg Hver] & Hb & Hm & _ & Hev & Hr).
  rewrite Hhandler in Hg. simpl in Hg. rewrite lookup_fmap in Hg. apply fmap_Some in Hg as (r & Hr' & ->).
  destruct (deployed_runtime_of _ _ _ _ _ _ _ Hstart Hr') as (t & Ht & Hc & Hrun).
  destruct Hev as (c & processed & Hclient & Hp & Hbind & Hrel). unfold directories in Hclient.
  rewrite lookup_fmap, Hr' in Hclient. injection Hclient as <-. rewrite (deployed_client t r Hrun) in Hp.
  exists t. split_and!; [done|done|]. by exists r, at_, ver, body, b, processed, answer.
Qed.
End deployment.
