(* ===== verification/ServeRelay.v ===== *)
(** * The relay over the directories of a deployment

    The handling of a relayed request with the LDAP client's own effects in place
    of the call on the directory: what Authrim is told over the relay rests on
    what the tenant's directory accepted. *)

From S2P Require Import Prelude GoStrings GoTime Effects Config Defaults Validate ValidateProofs Username Directory LdapData Ldap LdapSpec LdapProofs RelayState Relay RelayProofs Serving ServeLdap App AppProofs.
Local Open Scope Z_scope.

Abbreviation effect := Relay.effect.

Section relay.
Context {F : Type → Type} {S : Type} {client : DirectoryClient F S}.
Variable c : RelayClient.

Abbreviation connector := (RC_ConnectorID (Relay_Config c)).

Definition relay_asks (R : Type) (e : effect R) : bool :=
  match e with VerifyDirectory _ _ => true | _ => false end.

(** The client's directory is the one of its connector. *)
Definition relay_effect (R : Type) (e : effect R) : prog (serving effect F) R :=
  match e in Relay.effect R return prog (serving effect F) R with
  | VerifyDirectory timeout q => client_call connector timeout q
  | e => call (AtHandler e)
  end.

Definition serve_relayed (request : verifyRequestMessage) : prog (serving effect F) message :=
  inline relay_effect (processVerifyRequest c request).

(** The call with the connector it is for. *)
Definition relay_call_of (x : entry effect)
    : option (string * VerifyPasswordRequest * result error VerifyPasswordResult) :=
  match directory_call_of x with Some (q, a) => Some (connector, q, a) | None => None end.

Lemma relay_own R (e : effect R) :
  relay_asks R e = false →
  relay_effect R e = call (AtHandler e) ∧ ∀ r, relay_call_of (existT R (e, r)) = None.
Proof. by destruct e. Qed.

Lemma relay_calls tr : calls relay_call_of tr = (λ '(q, a), (connector, q, a)) <$> directory_calls tr.
Proof.
  unfold calls, directory_calls. induction tr as [|x tr IH]; [done|]. simpl. unfold relay_call_of at 1.
  destruct (directory_call_of x) as [[q a]|]; simpl; [f_equal|]; apply IH.
Qed.

Lemma process_answering request : answering (processVerifyRequest c request).
Proof.
  unfold processVerifyRequest, processInvalid, processAdmitted, processFailure, processVerdict.
  repeat first
    [ done
    | apply answering_bind; [|intros ?]
    | case_match
    | progress unfold stormBlocked, recordStorm, resetStorm, request_error, report, rememberRequest
    | (simpl; split; [constructor; (exact 0 || exact true || exact tt || exact "" || exact (Err (OtherError "")))|intros ?]) ].
Qed.

Context {contract : DirectoryContract client}.

Lemma relay_call R (e : effect R) :
  relay_asks R e = true →
  ∃ k q, inhabited R ∧ (∀ r, ∃ a, relay_call_of (existT R (e, r)) = Some (k, q, a)) ∧
    ∀ seen (Q : R → served effect S → Prop),
      (∀ r t, client_released t →
         (∀ v, relay_call_of (existT R (e, r)) = Some (k, q, Ok v) → IsSuccess v = true →
               client_evidence k q v t) →
         Q r {| seen := seen; talk := t |}) →
      wp (serving_spec relay_asks) (relay_effect R e) Q {| seen := seen; talk := client_idle |}.
Proof.
  destruct e as [| | | | | | | | |timeout q| | | | | | | | | | |]; try done. intros _. exists connector, q.
  split; [constructor; exact (Err (OtherError ""))|]. split; [by eexists|].
  intros seen Q HQ. apply client_call_sound; [done|]. intros r t Ht Hev. apply HQ; [done|]. intros v [= ->]. auto.
Qed.

(** What a success over the relay rests on. *)
Definition relayed_for (request : verifyRequestMessage) (s : served effect S) (m : message) : Prop :=
  ∃ answer,
    IsSuccess answer = true ∧
    client_evidence connector
      {| Verify_Username := Req_Username request; Verify_Password := Req_Password request;
         Verify_AttributeNames := Req_AttributeNames request |} answer (talk s) ∧
    m = response_message request CredentialResultSuccess ""
          (Some {| Message_DirectoryID := DirectoryID (Verify_Subject answer);
                   Message_Username := Subject_Username (Verify_Subject answer) |})
          (Verify_Attributes answer) (groupFactMessages (Verify_GroupFacts answer)).

Lemma serve_relayed_sound request :
  wp (serving_spec relay_asks) (serve_relayed request)
    (λ m s, client_released (talk s) ∧
       ∀ v, m = ResponseMessage v → Resp_Result v = CredentialResultSuccess →
         validVerifyRequest c request = true ∧ relayed_for request s m)
    {| seen := []; talk := client_idle |}.
Proof.
  pose proof (serving_spec_mono relay_asks) as Hmono.
  eapply wp_mono; [exact Hmono| |eapply (serving_sound relay_asks relay_call_of relay_effect relay_own relay_call
    (processVerifyRequest c request) _ (process_answering request))].
  2: { eapply always_mono; [|apply always_and; [apply (relay_slot_discipline c request)|
         apply (relay_success_rests c request)]].
       intros tr m [(_ & Hone & _) Hs]. split; [|exact Hs]. unfold asked_once.
       by rewrite relay_calls, length_fmap. }
  intros m s (tr & _ & Hrel & Hs & Hcalls). split; [done|]. intros v Hm Hv.
  destruct (Hs v Hm Hv) as (Hvalid & _ & answer & Hdir & His & Hmsg). split; [done|].
  exists answer. split_and!; [done| |done]. apply Hcalls; [|done]. rewrite relay_calls, Hdir. by left.
Qed.
End relay.

(** ** The relay clients of a deployment *)

Section deployment.
Context `{UnicodeTables} `{LdapLibrary}.
Variable nfkc : string → string.
Variable budget : nat.
Variable getenv readFile : string → option string.

Definition relay_request (d : deployment) (c : RelayClient) (request : verifyRequestMessage)
    : prog (serving effect Ldap.effect) message :=
  serve_relayed (client := ldap_directory nfkc budget (directories d)) c request.

Definition relay_deployment_spec (d : deployment) :=
  serving_spec (client := ldap_directory nfkc budget (directories d)) relay_asks.

(** Everything a success told over the relay rests on: the request is complete
    and names this tenant and connector, and the tenant's directory accepted a
    bind with the submitted password. *)
Definition relay_served_for (t : TenantConfig) (request : verifyRequestMessage)
    (s : served effect ghost) (m : message) : Prop :=
  Req_TenantID request = Tenant_TenantID t ∧ Req_ConnectorID request = Tenant_ConnectorID t ∧
  ∃ r processed answer,
    deployed_runtime getenv readFile t r ∧
    Preprocess nfkc (Req_Username request) (LDAP_Username (Tenant_LDAP t)) = Ok processed ∧
    bind_evidence (Runtime_Directory r) (Req_Password request) (Value processed) answer
      (accepted (talk s)) (answered (talk s)) ∧
    release_allowed (Runtime_Directory r) (Req_AttributeNames request) answer ∧
    m = response_message request CredentialResultSuccess ""
          (Some {| Message_DirectoryID := DirectoryID (Verify_Subject answer);
                   Message_Username := Subject_Username (Verify_Subject answer) |})
          (Verify_Attributes answer) (groupFactMessages (Verify_GroupFacts answer)).

Lemma relay_client_tenant cfg instanceID startedAt now d c :
  deployed getenv readFile cfg instanceID startedAt now d → c ∈ Deploy_Relays d →
  ∃ t r, t ∈ Config_Tenants cfg ∧ Relay_Enabled (relay_of t) = true ∧
         deployed_runtime getenv readFile t r ∧ Deploy_Runtimes d !! Tenant_ConnectorID t = Some r ∧
         RC_TenantID (Relay_Config c) = Tenant_TenantID t ∧
         RC_ConnectorID (Relay_Config c) = Tenant_ConnectorID t.
Proof.
  intros (_ & [Hts _] & Hrelays & _) Hc. apply list_elem_of_lookup in Hc as [i Hc].
  eapply Forall2_lookup_r in Hrelays as (t & Ht & Hrelay); [|exact Hc].
  apply list_elem_of_lookup_2, list_filter_elem in Ht as [Ht Hon].
  rewrite Forall_forall in Hts. destruct (Hts t Ht) as (r & Hr & Hm). exists t, r.
  destruct Hrelay as (r' & secret & _ & _ & _ & Hconfig & _). by rewrite Hconfig.
Qed.

(** C8: the whole way of a success over the relay.  For a configuration that
    loads, a deployment started from it and one of its relay clients, whatever the
    clocks, caches, audit sink and directories answer: handling a request closes
    or pools every connection it takes, asks the directory only what its policy
    allows, and answers success only to a request that names the client's tenant
    and connector, when that tenant's directory accepted, for this request, a bind
    with the submitted password as the one user the username resolves to. *)
Theorem relayed_success (raw cfg : Config) (instanceID : string) (startedAt now : Z) (d : deployment)
    (c : RelayClient) (request : verifyRequestMessage) (Hload : load raw = Ok cfg) (Hid : instanceID ≠ "")
    (Hstart : serve_start getenv readFile raw (Ok instanceID) startedAt now = Ok d)
    (Hc : c ∈ Deploy_Relays d) :
  wp (relay_deployment_spec d) (relay_request d c request)
    (λ m s, conns (talk s) = ∅ ∧
       ∀ v, m = ResponseMessage v → Resp_Result v = CredentialResultSuccess →
         ∃ t, t ∈ Config_Tenants cfg ∧ Relay_Enabled (relay_of t) = true ∧ relay_served_for t request s m)
    {| seen := []; talk := idle |}.
Proof.
  pose proof Hload as [_ Hvalid]%load_ok.
  apply (serve_start_ok _ _ cfg startedAt now Hvalid) in Hstart; [|done..].
  pose proof (ldap_contract nfkc budget _ (directories_valid _ _ _ _ _ _ _ Hvalid Hstart)) as Hcontract.
  pose proof (serve_relayed_sound (client := ldap_directory nfkc budget (directories d)) c request) as Hsound.
  eapply wp_mono in Hsound; [exact Hsound|apply serving_spec_mono, Hcontract|].
  intros m s [Hconns Hs]. split; [done|]. intros v Hm Hv.
  destruct (Hs v Hm Hv) as (Hok & answer & _ & Hev & Hmsg).
  destruct (relay_client_tenant _ _ _ _ _ _ Hstart Hc) as (t & r & Ht & Hon & Hr & Hrun & Htid & Hcid).
  destruct Hev as (client & processed & Hclient & Hp & Hbind & Hrel). simpl in Hp, Hbind, Hrel.
  unfold directories in Hclient. rewrite lookup_fmap, Hcid, Hrun in Hclient. injection Hclient as <-.
  rewrite (deployed_client _ _ t r Hr) in Hp.
  destruct (valid_addressed c request Hok) as [Ha Hb].
  exists t. split_and!; [done..|]. unfold relay_served_for. rewrite Ha, Hb. split_and!; [done..|].
  by exists r, processed, answer.
Qed.
End deployment.
