(* ===== verification/ServeExamples.v ===== *)
(** * A deployment at work

    The example deployment serves signed requests, from the configuration down to
    the binds at a small directory; with the witnesses of the theorems about the
    whole way of a success. *)

From S2P Require Import Prelude GoStrings GoTime Effects Config Secrets Defaults Validate Directory Hmac HmacProofs HttpApi HttpTraces HttpPool LdapData Ldap LdapSpec LdapProofs LdapExamples Serving ServeHttp ServeLdap App AppProofs AppExamples.
Local Open Scope Z_scope.

#[local] Existing Instance ascii_only_tables.
#[local] Existing Instance example_library.

(** ** A client of the tenant *)

Definition connector : string := "wwcon_8K4M2Q9F7D3H6P1X".

Definition quoted (s : string) : string := String double_quote (s +:+ String double_quote EmptyString).

Definition login (password : string) : string :=
  "{" +:+ join "," ((λ '(k, v), quoted k +:+ ":" +:+ v) <$>
    [("request_id", quoted "r1"); ("tenant_id", quoted "tenant-a"); ("connector_id", quoted connector);
     ("username", quoted " Alice "); ("password", quoted password);
     ("attribute_names", "[" +:+ quoted "mail" +:+ "]")]) +:+ "}".

Definition login_request (kid password signature : string) : Request := {|
  Method := "POST"; URL_EscapedPath := "/v1/auth/verify-password"; URL_Query := ∅;
  Header := list_to_map [
    ("Content-Type", ["application/json"]);
    (HeaderConnectorID, [connector]); (HeaderKeyID, [kid]); (HeaderRequestID, ["r1"]);
    (HeaderTimestamp, ["2026-06-04T12:00:00Z"]); (HeaderNonce, ["n1"]);
    (HeaderSignedHeaders, [example_signed]); (HeaderSignature, [signature])];
  Body := {| body_data := login password; body_end := None |};
  RemoteAddr := "127.0.0.1:5000" |}.

(** The request signed with a secret. *)
Definition signed_login (kid secret password : string) : Request :=
  login_request kid password
    (SignCanonical (canonical_text (login_request kid password "") (login password)
       (parseSignedHeaders example_signed) "2026-06-04T12:00:00Z" "n1") secret).

(** ** Running the deployment *)

(** The state of the gateway, the directory, and the responses sent. *)
Definition site : Type := gateway unit * world * list (Z * response).

Definition site_effect (h : handler) (R : Type) (e : serving HttpApi.effect Ldap.effect R)
    (s : site) : option (R * site) :=
  let '(g, w, sent) := s in
  match e with
  | AtHandler e =>
      let '(r, g) := interp (λ n, example_now + Z.of_nat n * Millisecond) (λ _, "uuid") (λ _, true)
                       (λ _ _ w, (Err (OtherError "not asked here"), w)) h _ e g in
      Some (r, (g, w, sent ++ match e with WriteResponse status r => [(status, r)] | _ => [] end))
  | AtClient _ _ _ e =>
      match directory_effect example_credentials example_entries _ e w with
      | Some (r, w) => Some (r, (g, w, sent))
      | None => None
      end
  end.

(** Start from the configuration and serve one request: the responses, and the
    binds at the directory with their outcome. *)
Definition serve_once (req : Request) : option (list (Z * response) * list (string * string * bool)) :=
  match serve_start example_env example_files example_raw (Ok "wwi_AAAAAAAAAAAAAAAAAAAAAA") 5 7 with
  | Err _ => None
  | Ok d =>
      (λ '(_, (_, w, sent)), (sent, (λ '(_, name, pw, ok), (name, pw, ok)) <$> w_binds w)) <$>
        run_partial (site_effect (Deploy_Handler d)) (serve_request (λ s, s) 8 d req)
          (new_gateway (Deploy_Handler d) tt, empty_world, [])
  end.

Definition outcome (r : response) : string :=
  match r with
  | VerifyPasswordResponse v => Response_Result v
  | ErrorResponse er => Error_Code (Error_Payload er)
  | _ => ""
  end.

Definition answers (req : Request) : option (list (Z * string) * list (string * string * bool)) :=
  match serve_once req with
  | Some (sent, binds) => Some ((λ '(status, r), (status, outcome r)) <$> sent, binds)
  | None => None
  end.

(** The right password, the request signed with the previous key: the service
    searches, the user is bound, the service is bound again for the pool. *)
Example served_login :
  answers (signed_login "k1" "old-secret" "pw") =
  Some ([(200, "success")],
        [("cn=svc", "svc-secret", true); (alice_dn, "pw", true); ("cn=svc", "svc-secret", true)]).
Proof. vm_compute. reflexivity. Qed.

Example refused_login :
  answers (signed_login "k2" "active-secret" "guess") =
  Some ([(200, "failure")], [("cn=svc", "svc-secret", true); (alice_dn, "guess", false)]).
Proof. vm_compute. reflexivity. Qed.

(** A request signed with another secret reaches no directory. *)
Example forged_login :
  answers (signed_login "k1" "another-secret" "pw") = Some ([(401, "invalid_hmac_signature")], []).
Proof. vm_compute. reflexivity. Qed.

(** ** The theorem at this deployment *)

Lemma example_started :
  ∃ d, serve_start example_env example_files example_raw (Ok "wwi_AAAAAAAAAAAAAAAAAAAAAA") 5 7 = Ok d.
Proof. eexists. vm_compute. reflexivity. Qed.

Lemma served_success_witness :
  ∃ d, serve_start example_env example_files example_raw (Ok "wwi_AAAAAAAAAAAAAAAAAAAAAA") 5 7 = Ok d ∧
    wp (deployment_spec (λ s, s) 8 d) (serve_request (λ s, s) 8 d (signed_login "k1" "old-secret" "pw"))
      (λ _ s, conns (talk s) = ∅ ∧
         ∀ status v, (status, VerifyPasswordResponse v) ∈ responses (seen s) →
           Response_Result v = CredentialResultSuccess →
           ∃ t, t ∈ Config_Tenants (applyDefaults example_raw) ∧
                connector_of (signed_login "k1" "old-secret" "pw") = Tenant_ConnectorID t ∧
                served_for (λ s, s) example_env example_files t (signed_login "k1" "old-secret" "pw") s v)
      {| seen := []; talk := idle |}.
Proof.
  destruct example_started as [d Hd]. exists d. split; [exact Hd|].
  apply (served_success (λ s, s) 8 example_env example_files example_raw (applyDefaults example_raw)
           "wwi_AAAAAAAAAAAAAAAAAAAAAA" 5 7 d); [exact example_loads|done|exact Hd].
Defined.
