(* ===== verification/ServeRelayExamples.v ===== *)
(** * The relay of a deployment at work

    The relay client of the example deployment handles requests down to the binds
    at the small directory; with the witness of the theorem about them. *)

From S2P Require Import Prelude GoStrings GoTime Effects Config Defaults Validate Directory LdapData Ldap LdapSpec LdapProofs LdapExamples RelayState Relay RelayProofs Serving ServeLdap ServeRelay App AppProofs AppExamples.
Local Open Scope Z_scope.

#[local] Existing Instance ascii_only_tables.
#[local] Existing Instance example_library.

Definition relayed_login (connector password : string) : verifyRequestMessage := {|
  Req_Type := "verify.request"; Req_Protocol := Protocol; Req_ProtocolVersion := ProtocolVersion;
  Req_MinSupportedVersion := MinSupportedVersion; Req_ID := "m1"; Req_RequestID := "r1";
  Req_TenantID := "tenant-a"; Req_ConnectorID := connector;
  Req_Username := "alice"; Req_Password := password; Req_AttributeNames := ["mail"] |}.

(** A quiet relay: nothing blocked, nothing seen before, a slot free. *)
Definition quiet_relay (R : Type) (e : Relay.effect R) : option R :=
  match e in Relay.effect R return option R with
  | Now => Some 0
  | NewUUID => Some "uuid"
  | StormBlocked _ _ => Some false
  | RecordStorm _ _ => Some tt
  | ResetStorm _ => Some tt
  | RememberKey _ _ => Some true
  | AcquireSlot => Some true
  | ReleaseSlot => Some tt
  | WriteEvent _ => Some true
  | _ => None
  end.

Definition relay_site (R : Type) (e : serving Relay.effect Ldap.effect R) (w : world) : option (R * world) :=
  match e with
  | AtHandler e => match quiet_relay _ e with Some r => Some (r, w) | None => None end
  | AtClient _ _ _ e => directory_effect example_credentials example_entries _ e w
  end.

(** The deployment and its relay client. *)
Definition example_relay : option (deployment * RelayClient) :=
  match serve_start example_env example_files example_raw (Ok "wwi_AAAAAAAAAAAAAAAAAAAAAA") 5 7 with
  | Ok d => match Deploy_Relays d with c :: _ => Some (d, c) | [] => None end
  | Err _ => None
  end.

Definition relay_answer (m : message) : string :=
  match m with ResponseMessage v => Resp_Result v | ErrorMessage er => RelayError_Code (VErr_Error er) end.

Definition relay_once (request : verifyRequestMessage) : option (string * list (string * string * bool)) :=
  match example_relay with
  | Some (d, c) =>
      match run_partial relay_site (relay_request (λ s, s) 8 d c request) empty_world with
      | Some (m, w) => Some (relay_answer m, (λ '(_, name, pw, ok), (name, pw, ok)) <$> w_binds w)
      | None => None
      end
  | None => None
  end.

Example relayed_success_run :
  relay_once (relayed_login "wwcon_8K4M2Q9F7D3H6P1X" "pw") =
  Some ("success",
        [("cn=svc", "svc-secret", true); (alice_dn, "pw", true); ("cn=svc", "svc-secret", true)]).
Proof. vm_compute. reflexivity. Qed.

Example relayed_failure_run :
  relay_once (relayed_login "wwcon_8K4M2Q9F7D3H6P1X" "guess") =
  Some ("failure", [("cn=svc", "svc-secret", true); (alice_dn, "guess", false)]).
Proof. vm_compute. reflexivity. Qed.

(** A request for another connector reaches no directory. *)
Example relayed_stray_run : relay_once (relayed_login "c2" "pw") = Some ("invalid_relay_request", []).
Proof. vm_compute. reflexivity. Qed.

Lemma example_relay_started :
  ∃ d c, serve_start example_env example_files example_raw (Ok "wwi_AAAAAAAAAAAAAAAAAAAAAA") 5 7 = Ok d ∧
         c ∈ Deploy_Relays d.
Proof.
  assert (Hs : bool_decide (is_Some example_relay) = true) by (vm_compute; reflexivity).
  apply bool_decide_eq_true in Hs as [[d c] Hs]. unfold example_relay in Hs.
  destruct (serve_start _ _ _ _ _ _) as [d'|]; [|done]. destruct (Deploy_Relays d') as [|c' cs] eqn:Hr; [done|].
  injection Hs as -> ->. exists d, c. rewrite Hr. split; [done|by left].
Qed.

Lemma relayed_success_witness :
  ∃ d c, (serve_start example_env example_files example_raw (Ok "wwi_AAAAAAAAAAAAAAAAAAAAAA") 5 7 = Ok d ∧
          c ∈ Deploy_Relays d) ∧
    wp (relay_deployment_spec (λ s, s) 8 d)
      (relay_request (λ s, s) 8 d c (relayed_login "wwcon_8K4M2Q9F7D3H6P1X" "pw"))
      (λ m s, conns (talk s) = ∅ ∧
         ∀ v, m = ResponseMessage v → Resp_Result v = CredentialResultSuccess →
           ∃ t, t ∈ Config_Tenants (applyDefaults example_raw) ∧ Relay_Enabled (relay_of t) = true ∧
                relay_served_for (λ s, s) example_env example_files t
                  (relayed_login "wwcon_8K4M2Q9F7D3H6P1X" "pw") s m)
      {| seen := []; talk := idle |}.
Proof.
  destruct example_relay_started as (d & c & Hd & Hc). exists d, c. split; [by split|].
  apply (relayed_success (λ s, s) 8 example_env example_files example_raw (applyDefaults example_raw)
           "wwi_AAAAAAAAAAAAAAAAAAAAAA" 5 7 d c); [exact example_loads|done|exact Hd|exact Hc].
Defined.
